(* ===== verification/_CoqProject ===== *)
-Q . S2P
Prelude.v
Crc32c.v
Core.v
Fmt.v
Msg.v
Conn.v
Record.v
Index.v
Os.v
Session.v
Segment.v
Wal.v
Cursor.v
Reopen.v
Crash.v
Durable.v
LoopState.v
Tiny.v
LoopFrames.v
LoopServe.v
Metrics.v
LoopTick.v
LoopSpec.v
LoopRecv.v
LoopFacts.v
LoopRounds.v
LoopOwn.v
LoopStream.v
LoopFollow.v
LoopPass.v
LoopFindings.v
Main.v
MainFacts.v
Server.v
Selfcheck.v
Loopback.v
SelfcheckLog.v
SelfcheckLoop.v
SelfcheckNodes.v
SelfcheckRetain.v
SelfcheckRun.v
