(* ===== verification/Prelude.v ===== *)
(** * msgsrvd: a write-ahead-logged messaging server

    msgsrvd stores messages.  Clients send framed requests over TCP; a write
    becomes a record of an append-only log, one flush per pass of a
    single-threaded event loop makes the pass's records durable, and only
    then are the acknowledgements sent.  Replicas stream the leader's log
    into their own, subscribers read it from any sequence on, retention
    removes old segments.  This development models the server and proves what
    it promises about the log, the acknowledgements and the wire.

    ** Files and the code they model

    (paths are under src/src/)

    - [Prelude]: machine integers, byte lists ([sub], [blit], [zset]), record
      update, the tactics and hints the others share.
    - [Crc32c] (core/crc32c.c): both loops of the checksum, over the
      processor's instruction as bit-serial division.
    - [Core] (core/types.h, mem.h, arena.h, err.h): results, spans, byte
      copies, the arena, the error stack.
    - [Fmt] (core/fmt.h): numbers as text.
    - [Msg] (proto/msg.h): the frame header and the payload codecs.
    - [Conn] (proto/conn.c): the receive buffer and the framing state machine;
      Module [Stream] is its specification, a parser of the byte stream.
    - [Record] (wal/record.c): the record header, its codec and its checksum.
    - [Index] (wal/index.c): the bounded table of partition keys.
    - [Os] (sys/os.h, syscall.h): the wrappers around system calls, in the
      state monad [M]; see below.
    - [Session] (server/session.c): the table of client sessions.
    - [Segment] (wal/segment.c): one file of the log.
    - [Wal] (wal/wal.c): the log: opening, appending with rollover, flushing,
      retention, closing.
    - [Cursor] (wal/wal.c): reading the log.
    - [Reopen]: what opening makes of a directory that holds a log.
    - [Crash], [Durable]: what a crash leaves of a log, and the state of a log
      in use, from one opening to the opening after a crash.
    - [LoopState], [LoopFrames], [LoopServe], [Metrics], [LoopTick]
      (server/loop.c): the loop's state; the handlers of frames; what follows
      the flush; the metrics endpoint; receiving, sending, dialling, the
      pass, starting and stopping.
    - [LoopSpec], [LoopRecv], [LoopFacts]: the theorems about the loop;
      [LoopRounds]: those about a whole round of serving replicas or
      subscribers, composed of the steps for one slot.
    - [LoopOwn]: the invariant of the loop: whose the descriptors are, and
      that the log's records back what the clients are owed; [LoopStream]:
      every step of a replica's stream to its leader keeps it; [LoopPass]:
      so does every step of a pass, whichever of its calls fails.
    - [LoopFollow]: what a replica makes of its leader's bytes: the framing
      of the stream and the application of its records put together.
    - [LoopFindings]: computed runs of the loop that go wrong.
    - [Main] (server/main.c), [MainFacts]: arguments, [--inspect], the life of
      a server; and the theorems about them.
    - [Server]: all of it together, from the opening of the log through the
      start of a leader or a replica, its passes and its stop to a crash.
    - The program's own checks (server/selfcheck.c): [Selfcheck], those of
      the pure parts; [SelfcheckLog], of segments and logs in a temporary
      directory; [SelfcheckLoop], of the loop with clients over sockets;
      [SelfcheckNodes], of a failed send and of two nodes; [SelfcheckRetain],
      of retention; [SelfcheckRun], of metrics, and all of them in order.
      [Loopback] is a kernel they run on.
    - [Tiny] (server/tiny.c, tinye.c): the two programs built beside the
      server.

    A definition has the name of the C function, type or constant it models,
    and a loop of a C function is a [Fixpoint] next to it.  A C struct is a
    record with the same fields behind a short prefix ([l_] for [loop_t],
    [wl_] for [wal_t], [g_] for [wal_seg_t], [cn_] for a connection's slot).

    ** How the code is rendered

    - Integers are [Z]; the conversions [u16], [u32], [u64] and [i32] stand
      where the C type can wrap.  Where operands cannot reach the limit, the
      operation is plain.
    - A buffer of [n] bytes is the list of its [n] bytes, a write is [blit] or
      [zset], a pointer into it is an offset, a pointer that may be NULL is
      an [option].  A send buffer with its length is the list of the bytes
      staged; an array with a count is the list of its live entries.
    - A function that changes its arguments returns them; one that calls the
      kernel is in [M K], a function on the state [K] of the machine.
    - A callback with a context is a function that folds over the context.
    - The error stack every call is given ([err_t]) carries diagnostics only;
      it is modelled in [Core], and calls elsewhere keep just the result.

    ** The kernel

    System calls are not the program's code.  They are the operations of the
    class [Sys]; [SysLaws] states what is documented of them, on a view with
    the files, the directory's names, what of both a crash cannot lose, and
    the open descriptors.  Calls may fail at any time; a failed or partial
    write may have written anything in its range, unflushed bytes may be
    lost one by one.  A name that was removed can come back in a crash, with
    the file it named, until the directory is flushed, and so can a new one be
    lost: a view keeps the names that are on disk for certain and those removed
    since ([disk_dir]), a flush of the directory settles both
    ([flush_names]), and [Crash.crash] picks any of the directories in between.
    [Os.Sim] is a small kernel, with an instance of the
    laws; the witnesses run on it.  [wp m Q k] says that [m], run in [k], ends
    with [Q].

    ** What is shown

    - The whole server: an acknowledgement a leader stages names a record
      which, whatever the server does next and whichever of its calls fail,
      is found again by an opening after a crash that succeeds
      ([acknowledged_write_survives]), and so are the records a replica has
      reported to its leader ([reported_records_survive]); a server that ends
      with status 0 has left all of its log on disk
      ([stopped_server_leaves_log]); in a log without damage ([healthy]) that
      is not full only a system call makes such an opening fail, while one
      with damage may be refused (see [torn_tail_then_rollover_refused]); its descriptors
      are open, of their kinds and no two of its parts' the same
      ([descriptors_stay_apart]).  These are about [start_server], which is
      [run_server] up to its loop ([run_server_starts]), and about sequences
      of [phase]s, the parts every pass is made of ([pass_phases]).
    - Durability: what a log counted as durable survives a crash at any point
      of any use of it ([durable_log_survives]), as it does within one
      segment ([durable_records_survive]), a segment is on disk with its name
      before it is used ([create_is_durable]), and what retention removed
      stays removed once it has succeeded; recovery in blocks is one scan of
      the file ([recover_is_scan]); opening a directory gives the log that is in it
      ([open_recovers_log]); appending adds one record, flushing makes all of
      them durable, retention takes whole old segments ([append_extends_log],
      [sync_covers_log], [retain_keeps_recent]); reading iterates over the
      log ([cursor_read_iterates]).
    - Acknowledgements: a leader never says what is not yet true
      ([acks_are_true]), a pass ends flushed with nothing unsaid
      ([pass_ends_at_rest]), a write is applied once ([write_applied_once]).
    - Replication and reading: a replica's log is the leader's, frame by
      frame, and what it is sent is durable ([stream_carries_durable],
      [replica_log_is_leader_log]) and
      however a whole stream of frames is cut into reads
      ([replica_follows_any_cut]), and never anything but verified records
      ([replica_stores_verified]), subscribers miss nothing and are sent
      nothing that is not durable ([subscription_misses_nothing]), retention waits for replicas
      ([retention_respects_floor], [floor_is_confirmed]).
    - The wire: what the server does is decided by the bytes and not by how
      they are cut into reads ([feed_refines_stream],
      [receive_serves_stream]), receiving ends ([receive_loop_ends],
      [stream_loop_ends]), codecs
      round-trip, the opening frame comes first and once.
    - Tables: the session table is a bounded list in order of use, replaying
      the log rebuilds its marks; the key index is a summary of the log.
    - The program: options mean what they say and yield settings in range,
      but for a segment size of 2^63 or more, which no log is opened with; a
      wrong command line touches nothing, [--inspect] changes nothing.
    - The model is tested with the program's own checks, which it passes: a
      computed run of [main] with [--selfcheck] on a small kernel, in which
      leaders, replicas, subscribers and scrapes work together
      ([own_checks_pass]; a test, not a property over all inputs).
    - Modules named [...Findings] hold computed runs in which the code does
      not do what it means to.

    ** Bounds and fuel

    Loops that are not structural take fuel that is shown to be enough: the
    scan of a block and of a file the number of bytes ([scan_fuel_enough],
    [wp_recover_loop]), a cursor's walk the bytes read, a partial read or
    write one round per byte, the receive loops two rounds more than their
    buffers have bytes ([receive_loop_ends], [stream_loop_ends]), a stream
    frame its length ([wp_apply_loop]).  Two loops the code itself does not bound return an
    [option]: [seg_table_load], where the number of listings allowed is an
    argument and more than there are names is enough ([wp_table_load]), and
    [loop_run], where [None] is a server still running.  The checks of
    selfcheck.c have the bounds the code gives them; reading a frame has a
    round for every byte of its buffer.  Theorems about
    sequences assume they stay below 2^64; [EVENT_RECORDS] and [PASS_RECORDS]
    bound what an event and a pass can add to the log, so that the assumption
    can be made once, at the start.

    ** What is not modelled, and why

    - core/debug.h and the calls that print an error stack: diagnostics.
    - What memory mapping, event descriptors and the exit of the process do:
      the wrappers of os.h for them are in [Os], but nothing in the server
      calls them, so [SysLaws] says nothing of their system calls.
    - In [Server] a crash comes between the phases of a pass; inside one it
      is [durable_log_survives] that counts, whose steps are the calls on the
      log.
    - Sequence 0 is no write's: an acknowledgement that names it
      (see [sequence_zero_is_not_stored]) promises nothing.
    - What the sockets and the standard streams carry is not part of the
      laws' view: that a staged reply reaches its client is the kernel's. *)

From stdpp Require Export base list gmap strings list_numbers.
From Stdlib Require Export Sorting.Sorted.
From coqutil Require Export Byte Word.LittleEndianList.

#[export] Set Default Goal Selector "!".
#[global] Open Scope Z_scope.

(** ** Machine integers

    A w-bit unsigned integer is a [Z] together with the wrap-around the C
    type has; [u16], [u32] and [u64] are the conversions to the unsigned
    types, [i32] the conversion to [int32_t].  Arithmetic whose operands
    cannot reach the limit of its type is written on [Z] directly. *)

Definition u16 (x : Z) : Z := x mod 2 ^ 16.
Definition u32 (x : Z) : Z := x mod 2 ^ 32.
Definition u64 (x : Z) : Z := x mod 2 ^ 64.
Definition i32 (x : Z) : Z := (x + 2 ^ 31) mod 2 ^ 32 - 2 ^ 31.

#[global] Arguments u16 : simpl never.
#[global] Arguments u32 : simpl never.
#[global] Arguments u64 : simpl never.
#[global] Arguments i32 : simpl never.

Definition UINT64_MAX : Z := 2 ^ 64 - 1.

Lemma u16_id x : 0 <= x < 2 ^ 16 → u16 x = x.
Proof. apply Z.mod_small. Qed.
Lemma u32_id x : 0 <= x < 2 ^ 32 → u32 x = x.
Proof. apply Z.mod_small. Qed.
Lemma u64_id x : 0 <= x < 2 ^ 64 → u64 x = x.
Proof. apply Z.mod_small. Qed.
Lemma u16_range x : 0 <= u16 x < 2 ^ 16.
Proof. by apply Z.mod_pos_bound. Qed.
Lemma u32_range x : 0 <= u32 x < 2 ^ 32.
Proof. by apply Z.mod_pos_bound. Qed.
Lemma u64_range x : 0 <= u64 x < 2 ^ 64.
Proof. by apply Z.mod_pos_bound. Qed.

Lemma u64_add_l a b : u64 (u64 a + b) = u64 (a + b).
Proof. unfold u64. by rewrite Zplus_mod_idemp_l. Qed.

Lemma i32_id x : - 2 ^ 31 <= x < 2 ^ 31 → i32 x = x.
Proof. intros H. unfold i32. rewrite Z.mod_small; lia. Qed.
Lemma i32_range x : - 2 ^ 31 <= i32 x < 2 ^ 31.
Proof.
  unfold i32. pose proof (Z.mod_pos_bound (x + 2 ^ 31) (2 ^ 32) eq_refl). lia.
Qed.

(** The conversion of a [uint32_t] at or above 2^31 is negative. *)
Lemma i32_wrap_neg x : 2 ^ 31 <= x < 2 ^ 32 → i32 x = x - 2 ^ 32.
Proof.
  intros H. unfold i32.
  replace (x + 2 ^ 31) with (x - 2 ^ 31 + 1 * 2 ^ 32) by lia.
  rewrite Z.mod_add by lia. rewrite Z.mod_small; lia.
Qed.

(** [(x + 7) & ~7], the rounding the arena and the log records use. *)
Definition align8 (x : Z) : Z := Z.land (x + 7) (Z.lnot 7).

Lemma align8_eq x : align8 x = 8 * ((x + 7) / 8).
Proof.
  unfold align8. rewrite <-Z.ldiff_land. change 7 with (Z.ones 3) at 2.
  rewrite Z.ldiff_ones_r, Z.shiftl_mul_pow2, Z.shiftr_div_pow2 by lia.
  change (2 ^ 3) with 8. lia.
Qed.

Lemma align8_bounds x : x <= align8 x < x + 8.
Proof. rewrite align8_eq. Z.div_mod_to_equations. lia. Qed.

Lemma align8_mod x : align8 x mod 8 = 0.
Proof. rewrite align8_eq, Z.mul_comm. by apply Z.mod_mul. Qed.

(** ** Byte memory

    A buffer is the list of its bytes; offsets and lengths are C integers,
    so they are [Z] here.  [sub] is the block a pointer and a length name,
    [blit] overwrites a block in place. *)

Abbreviation zlen l := (Z.of_nat (length l)).

Definition sub {A} (off len : Z) (m : list A) : list A :=
  take (Z.to_nat len) (drop (Z.to_nat off) m).

Definition blit {A} (m : list A) (off : Z) (src : list A) : list A :=
  take (Z.to_nat off) m ++ src ++ drop (Z.to_nat off + length src) m.

Definition zeros (n : Z) : list byte := replicate (Z.to_nat n) Byte.x00.

Create Rewrite HintDb len.
#[export] Hint Rewrite @length_app @length_take @length_drop @length_replicate
  @length_cons @length_nil @length_fmap @length_insert length_le_split : len.

(** Length goals: rewrite every length in sight, then linear arithmetic. *)
Ltac len := autorewrite with len in *; try lia.

Lemma length_zeros n : length (zeros n) = Z.to_nat n.
Proof. apply length_replicate. Qed.
#[export] Hint Rewrite length_zeros : len.

Lemma length_sub {A} off len (m : list A) :
  length (sub off len m) = Nat.min (Z.to_nat len) (length m - Z.to_nat off).
Proof. unfold sub. len. Qed.
#[export] Hint Rewrite @length_sub : len.

Lemma length_blit {A} (m : list A) off src :
  0 <= off → off + zlen src <= zlen m → length (blit m off src) = length m.
Proof. intros. unfold blit. len. Qed.

Lemma sub_all {A} (m : list A) n : zlen m <= n → sub 0 n m = m.
Proof. intros. unfold sub. rewrite drop_0, take_ge; [done|lia]. Qed.

Lemma sub_app_l {A} n (a b : list A) : n = zlen a → sub 0 n (a ++ b) = a.
Proof. intros ->. unfold sub. rewrite drop_0. apply take_app_length'. lia. Qed.

Lemma sub_app_r {A} off n (a b : list A) :
  zlen a <= off → sub off n (a ++ b) = sub (off - zlen a) n b.
Proof.
  intros. unfold sub. rewrite drop_app_ge by lia. do 2 f_equal. lia.
Qed.

Lemma sub_sub {A} o1 l1 o2 l2 (m : list A) :
  0 <= o1 → 0 <= o2 → o2 + l2 <= l1 → sub o2 l2 (sub o1 l1 m) = sub (o1 + o2) l2 m.
Proof.
  intros. unfold sub. rewrite skipn_firstn_comm, drop_drop, take_take.
  f_equal; [lia|]. f_equal. lia.
Qed.

Lemma drop_sub {A} off (m : list A) : sub off (zlen m) m = drop (Z.to_nat off) m.
Proof. unfold sub. apply take_ge. len. Qed.

(** The split of a block at a point inside it. *)
Lemma sub_split {A} off a b (m : list A) :
  0 <= off → 0 <= a → 0 <= b → sub off (a + b) m = sub off a m ++ sub (off + a) b m.
Proof.
  intros. unfold sub. rewrite (Z2Nat.inj_add a b), (Z2Nat.inj_add off a) by lia.
  by rewrite <-take_take_drop, drop_drop.
Qed.

(** ** Little-endian fields

    The codecs of the program copy a struct to and from memory; on the
    targets it builds for every field is little-endian. *)

Definition get (off n : Z) (m : list byte) : Z := le_combine (sub off n m).

Lemma get_range off n m : 0 <= n → 0 <= get off n m < 2 ^ (8 * n).
Proof.
  intros. unfold get. pose proof (le_combine_bound (sub off n m)) as [H1 H2].
  split; [done|]. eapply Z.lt_le_trans; [done|].
  apply Z.pow_le_mono_r; [lia|]. len.
Qed.

Lemma le_combine_split_id n z : 0 <= z < 2 ^ (8 * Z.of_nat n) → le_combine (le_split n z) = z.
Proof. intros. rewrite le_combine_split. apply Z.mod_small. by rewrite Z.mul_comm. Qed.

Lemma le_combine_inj' n (a b : list byte) :
  length a = n → length b = n → le_combine a = le_combine b → a = b.
Proof. intros Ha Hb. apply le_combine_inj. congruence. Qed.

(** Reading a field back out of a struct laid out field by field. *)
Lemma get_here n (bs m : list byte) : n = zlen bs → get 0 n (bs ++ m) = le_combine bs.
Proof. intros. unfold get. by rewrite sub_app_l. Qed.

Lemma get_skip off n (a m : list byte) :
  zlen a <= off → get off n (a ++ m) = get (off - zlen a) n m.
Proof. intros. unfold get. by rewrite sub_app_r. Qed.

Lemma get_end n (bs : list byte) : n = zlen bs → get 0 n bs = le_combine bs.
Proof. intros. unfold get. rewrite sub_all; [done|lia]. Qed.

Lemma le_split_get off n m :
  0 <= off → 0 <= n → off + n <= zlen m → le_split (Z.to_nat n) (get off n m) = sub off n m.
Proof.
  intros. unfold get.
  assert (length (sub off n m) = Z.to_nat n) as <- by (len; lia).
  apply split_le_combine.
Qed.

Lemma get_sub off n o l m :
  0 <= o → 0 <= off → off + n <= l → get off n (sub o l m) = get (o + off) n m.
Proof. intros. unfold get. by rewrite sub_sub. Qed.

Lemma get_app_l off n a (b : list byte) :
  0 <= off → off + n <= zlen a → get off n (a ++ b) = get off n a.
Proof.
  intros. unfold get, sub. f_equal.
  destruct (decide (n <= 0)).
  { replace (Z.to_nat n) with 0%nat by lia. done. }
  rewrite drop_app_le, take_app_le by (len; lia). done.
Qed.

(** Reduce [get] on a concatenation of fields to the field it reads. *)
Ltac get_field :=
  repeat (rewrite get_skip by (rewrite ?length_le_split; lia);
          rewrite length_le_split; cbn [Z.sub Z.of_nat Pos.of_succ_nat Pos.succ Z.add
            Z.opp Z.pos_sub Pos.pred_double Z.double Z.pred_double Z.succ_double]);
  first [ rewrite get_here by (by rewrite length_le_split)
        | rewrite get_end by (by rewrite length_le_split) ];
  apply le_combine_split_id; cbn; lia.

(** ** Record update

    [r <| f := v |>] is [r] with field [f] set, for a record type with an
    [Eta] instance (its field-by-field copy). *)

Class Eta (R : Type) := eta : R → R.
Class Upd {R T} (f : R → T) := upd : (T → T) → R → R.
#[global] Arguments upd {R T} f {_} _ _.

Ltac derive_upd :=
  lazymatch goal with
  | |- @Upd ?R ?T ?f =>
      let e := constr:(_ : Eta R) in
      let e := eval red in e in
      lazymatch eval pattern f in e with
      | ?F _ => exact (fun (g : T → T) (r : R) => F (fun r' => g (f r')) r)
      end
  end.

#[export] Hint Extern 0 (Upd _) => derive_upd : typeclass_instances.

Declare Scope upd_scope.
Delimit Scope upd_scope with upd.
Notation "r <| f := v |>" := (upd f (fun _ => v) r)
  (at level 1, left associativity, f constr, v at level 200,
   format "r  <| f  :=  v |>") : upd_scope.
Notation "r <| f ::= g |>" := (upd f g r)
  (at level 1, left associativity, f constr, g at level 200,
   format "r  <| f  ::=  g |>") : upd_scope.
#[global] Open Scope upd_scope.

(** ** Case analysis *)

(** Split the innermost boolean test or option match of the goal and turn
    boolean comparisons into arithmetic. *)
Ltac zb :=
  repeat match goal with
  | H : (_ && _)%bool = true |- _ => apply andb_true_iff in H as [??]
  | H : (_ || _)%bool = false |- _ => apply orb_false_iff in H as [??]
  | H : negb _ = true |- _ => apply negb_true_iff in H
  | H : negb _ = false |- _ => apply negb_false_iff in H
  | H : (_ <? _) = true |- _ => apply Z.ltb_lt in H
  | H : (_ <? _) = false |- _ => apply Z.ltb_ge in H
  | H : (_ <=? _) = true |- _ => apply Z.leb_le in H
  | H : (_ <=? _) = false |- _ => apply Z.leb_gt in H
  | H : (_ =? _) = true |- _ => apply Z.eqb_eq in H
  | H : (_ =? _) = false |- _ => apply Z.eqb_neq in H
  end.

(** Take the outermost test of a goal [(if b then _ else _) = _ → _]. *)
Tactic Notation "head_if" "as" ident(E) :=
  match goal with
  | |- (if ?b then _ else _) = _ → _ => destruct b eqn:E
  end.

Ltac if_cases :=
  repeat match goal with
  | |- context [if ?b then _ else _] =>
      lazymatch b with
      | context [if _ then _ else _] => fail
      | _ => let E := fresh "E" in destruct b eqn:E
      end
  end; zb.

Lemma pair_eta {A B} (p : A * B) : (let '(a, b) := p in (a, b)) = p.
Proof. by destruct p. Qed.

(** Update of a list slot by a C index, which the callers keep in range. *)
Definition zget {A} (l : list A) (i : Z) : option A :=
  if i <? 0 then None else l !! Z.to_nat i.
Definition zset {A} (l : list A) (i : Z) (x : A) : list A :=
  if i <? 0 then l else <[Z.to_nat i := x]> l.

Lemma length_zset {A} (l : list A) i x : length (zset l i x) = length l.
Proof. unfold zset. case_match; [done|]. apply length_insert. Qed.
#[export] Hint Rewrite @length_zset : len.

Lemma zget_zset {A} (l : list A) i j x :
  0 <= i < zlen l → zget (zset l i x) j = if j =? i then Some x else zget l j.
Proof.
  intros. unfold zget, zset. rewrite (proj2 (Z.ltb_ge i 0)) by lia.
  destruct (Z.ltb_spec j 0), (Z.eqb_spec j i); subst; try lia; try done.
  - apply list_lookup_insert_eq. lia.
  - apply list_lookup_insert_ne. lia.
Qed.

Lemma zget_Some_range {A} (l : list A) i x : zget l i = Some x → 0 <= i < zlen l.
Proof.
  unfold zget. if_cases; [done|]. intros H%lookup_lt_Some. lia.
Qed.

Lemma zget_lt {A} (l : list A) i : 0 <= i < zlen l → is_Some (zget l i).
Proof. intros. unfold zget. if_cases; [lia|]. apply lookup_lt_is_Some. lia. Qed.

(** Pointwise views of [sub], [blit] and [zset], for extensional proofs. *)
Lemma lookup_sub {A} o n (m : list A) (i : nat) :
  sub o n m !! i = if decide (i < Z.to_nat n)%nat then m !! (Z.to_nat o + i)%nat else None.
Proof.
  unfold sub. case_decide; [by rewrite lookup_take_lt, lookup_drop by done|].
  apply lookup_take_ge. lia.
Qed.

Lemma lookup_blit {A} (m : list A) off src (i : nat) :
  0 <= off → off + zlen src <= zlen m →
  blit m off src !! i =
    if decide (Z.to_nat off <= i < Z.to_nat off + length src)%nat
    then src !! (i - Z.to_nat off)%nat else m !! i.
Proof.
  intros. unfold blit. case_decide.
  - rewrite lookup_app_r by len. rewrite lookup_app_l by len. f_equal. len.
  - destruct (decide (i < Z.to_nat off)%nat).
    + rewrite lookup_app_l by len. by rewrite lookup_take_lt.
    + rewrite lookup_app_r by len. rewrite lookup_app_r by len.
      rewrite lookup_drop. f_equal. len.
Qed.

Lemma lookup_zset {A} (m : list A) d x (i : nat) :
  0 <= d < zlen m → zset m d x !! i = if decide (Z.of_nat i = d) then Some x else m !! i.
Proof.
  intros. unfold zset. rewrite (proj2 (Z.ltb_ge d 0)) by lia. case_decide.
  - subst. rewrite Nat2Z.id. apply list_lookup_insert_eq. lia.
  - apply list_lookup_insert_ne. lia.
Qed.

(** Lists are equal when they agree at every index. *)
Ltac list_ext i := apply list_eq; intros i.

Lemma sub_zset_out {A} (m : list A) o n d x :
  0 <= d < zlen m → d < o ∨ o + n <= d → 0 <= o → sub o n (zset m d x) = sub o n m.
Proof.
  intros. list_ext i. rewrite !lookup_sub. case_decide; [|done].
  rewrite lookup_zset by done. case_decide; [lia|done].
Qed.

Lemma blit_cons {A} (m : list A) d b bs :
  0 <= d → d + 1 + zlen bs <= zlen m →
  blit (zset m d b) (d + 1) bs = blit m d (b :: bs).
Proof.
  intros. list_ext i. rewrite !lookup_blit by (len; lia).
  rewrite lookup_zset by lia. cbn [length].
  repeat case_decide; try lia; try done.
  - replace (i - Z.to_nat d)%nat with (S (i - Z.to_nat (d + 1))) by lia. done.
  - by replace (i - Z.to_nat d)%nat with 0%nat by lia.
Qed.

Lemma blit_nil {A} (m : list A) d : blit m d [] = m.
Proof. unfold blit. cbn. by rewrite Nat.add_0_r, take_drop. Qed.

Lemma blit_all {A} (m src : list A) : length src = length m → blit m 0 src = src.
Proof.
  intros H. unfold blit. rewrite take_0, drop_ge by lia. by rewrite app_nil_r.
Qed.

Lemma sub_blit_same {A} (m : list A) d src :
  0 <= d → d + zlen src <= zlen m → sub d (zlen src) (blit m d src) = src.
Proof.
  intros. list_ext i. rewrite lookup_sub, lookup_blit by done.
  repeat case_decide; try lia.
  - f_equal. lia.
  - symmetry. apply lookup_ge_None. lia.
Qed.

Lemma sub_blit_out {A} (m : list A) d src o n :
  0 <= d → d + zlen src <= zlen m → 0 <= o → o + n <= d ∨ d + zlen src <= o →
  sub o n (blit m d src) = sub o n m.
Proof.
  intros. list_ext i. rewrite !lookup_sub. case_decide; [|done].
  rewrite lookup_blit by done. case_decide; [lia|done].
Qed.

Lemma zget_sub_cons {A} (m : list A) i n x :
  0 <= i → 0 < n → zget m i = Some x → sub i n m = x :: sub (i + 1) (n - 1) m.
Proof.
  unfold zget. intros Hi Hn. rewrite (proj2 (Z.ltb_ge i 0)) by lia. intros Hx.
  unfold sub. erewrite (drop_S m) by done.
  replace (Z.to_nat n) with (S (Z.to_nat (n - 1))) by lia. cbn. do 3 f_equal. lia.
Qed.

(** Bytes written down as numbers, for concrete inputs. *)
Definition bytes_of (l : list Z) : list byte := map byte.of_Z l.

Lemma filter_none {A} (P : A → Prop) `{!∀ x, Decision (P x)} (l : list A) :
  (∀ x, x ∈ l → ¬ P x) → filter P l = [].
Proof.
  intros Hl. induction l as [|x l IH]; [done|]. rewrite filter_cons, decide_False.
  - apply IH. intros y Hy. apply Hl. by right.
  - apply Hl. by left.
Qed.

Lemma filter_all {A} (P : A → Prop) `{!∀ x, Decision (P x)} (l : list A) :
  (∀ x, x ∈ l → P x) → filter P l = l.
Proof.
  intros Hl. induction l as [|x l IH]; [done|]. rewrite filter_cons, decide_True.
  - f_equal. apply IH. intros y Hy. apply Hl. by right.
  - apply Hl. by left.
Qed.

(** ** Sorted lists *)

Lemma StronglySorted_filter {A} (R : A → A → Prop) (P : A → Prop) `{!∀ x, Decision (P x)} l :
  StronglySorted R l → StronglySorted R (filter P l).
Proof.
  induction 1 as [|x l Hl IH Hx]; [constructor|]. rewrite filter_cons. case_decide; [|done].
  constructor; [done|]. apply Forall_forall. intros y [_ Hy]%list_elem_of_filter.
  rewrite Forall_forall in Hx. by apply Hx.
Qed.

(** In a list sorted by a key the ends bound everything between. *)
Lemma sorted_ends {A} (f : A → Z) (l : list A) x :
  StronglySorted (λ a b, f a < f b) l → x ∈ l →
  ∃ a b, head l = Some a ∧ last l = Some b ∧ f a <= f x <= f b ∧ a ∈ l.
Proof.
  intros Hs. revert x. induction Hs as [|y l Hl IH Hy]; intros x Hx; [by apply elem_of_nil in Hx|].
  destruct l as [|z l].
  { apply list_elem_of_singleton in Hx as ->. exists y, y. split_and!; [done..|lia|lia|by left]. }
  rewrite Forall_forall in Hy.
  assert (z ∈ z :: l) as Hz by left. destruct (IH z Hz) as (? & b & _ & Hb & _ & _).
  assert (f y < f b) as Hyb.
  { apply Hy. by apply last_Some_elem_of. }
  exists y, b. rewrite last_cons, Hb. cbn. split; [done|]. split; [done|]. split; [|by left].
  apply elem_of_cons in Hx as [->|Hx]; [lia|].
  pose proof (Hy x Hx). destruct (IH x Hx) as (?&b'&_&Hb'&?&_).
  rewrite Hb in Hb'. simplify_eq. lia.
Qed.

(** A block read past the end is the block up to the end. *)
Lemma sub_clip {A} off n (data : list A) : sub off (zlen (sub off n data)) data = sub off n data.
Proof.
  list_ext i. rewrite (lookup_sub off n), (lookup_sub off (zlen _)), length_sub.
  repeat case_decide; try done; [lia|]. symmetry. apply lookup_ge_None. lia.
Qed.
