(* ===== verification/Crc32c.v ===== *)
(** * CRC32C, the checksum on every log record (src/core/crc32c.c)

    [crc32c] is written as the C code is: eight bytes at a time through the
    64-bit form of the processor's [crc32] instruction, then the tail a byte
    at a time.  The two forms of the instruction are compiler builtins; they
    are given here by the bit-serial division the instruction performs, in
    the reflected bit order it uses.  The theorems reduce the code to one
    byte-serial reference and show what the checksum detects. *)

From S2P Require Import Prelude.

(** ** The instruction *)

(** 0x1EDC6F41 with its bits reversed. *)
Definition CRC_POLY : Z := 0x82F63B78.

(** One bit of the division. *)
Definition crc_bit (c : Z) : Z :=
  if Z.testbit c 0 then Z.lxor (Z.shiftr c 1) CRC_POLY else Z.shiftr c 1.

Fixpoint crc_bits (n : nat) (c : Z) : Z :=
  match n with O => c | S n => crc_bits n (crc_bit c) end.

(** [__builtin_ia32_crc32qi] folds in one byte, [__builtin_ia32_crc32di]
    eight bytes at once. *)
Definition crc32qi (c : Z) (b : byte) : Z := crc_bits 8 (Z.lxor c (byte.unsigned b)).
Definition crc32di (c chunk : Z) : Z := crc_bits 64 (Z.lxor c chunk).

(** ** The code *)

(** [~c] on a [uint32_t]. *)
Definition not32 (c : Z) : Z := Z.lxor c 0xFFFFFFFF.

(** The eight-byte loop: [while (len - i >= 8)].  One unit of fuel is one
    round, and a round consumes eight bytes. *)
Fixpoint crc32c_words (fuel : nat) (c : Z) (buf : list byte) (i len : Z) : Z * Z :=
  match fuel with
  | O => (c, i)
  | S fuel =>
      if 8 <=? len - i
      then crc32c_words fuel (crc32di c (le_combine (sub i 8 buf))) buf (i + 8) len
      else (c, i)
  end.

(** The tail loop: [while (i < len)]. *)
Fixpoint crc32c_tail (fuel : nat) (c : Z) (buf : list byte) (i len : Z) : Z :=
  match fuel with
  | O => c
  | S fuel =>
      if i <? len then
        match zget buf i with
        | Some b => crc32c_tail fuel (crc32qi c b) buf (i + 1) len
        | None => c
        end
      else c
  end.

Definition crc32c (crc : Z) (buf : list byte) (len : Z) : Z :=
  if len <=? 0 then crc else
  let '(c, i) := crc32c_words (Z.to_nat len) (not32 crc) buf 0 len in
  not32 (crc32c_tail (Z.to_nat len) c buf i len).

(** ** The byte-serial reference *)

Definition crc_fold (c : Z) (bs : list byte) : Z := fold_left crc32qi bs c.
Definition crc32c_ref (crc : Z) (bs : list byte) : Z := not32 (crc_fold (not32 crc) bs).

Lemma crc_fold_cons c b bs : crc_fold c (b :: bs) = crc_fold (crc32qi c b) bs.
Proof. done. Qed.

(** ** The division is linear, and shifting in zeros divides by nothing *)

Lemma crc_bit_lxor a b : crc_bit (Z.lxor a b) = Z.lxor (crc_bit a) (crc_bit b).
Proof.
  unfold crc_bit. rewrite Z.lxor_spec, Z.shiftr_lxor.
  destruct (Z.testbit a 0), (Z.testbit b 0); cbn [xorb];
    rewrite ?Z.lxor_assoc; try done.
  - by rewrite (Z.lxor_comm CRC_POLY), !Z.lxor_assoc, Z.lxor_nilpotent, Z.lxor_0_r.
  - by rewrite (Z.lxor_comm CRC_POLY).
Qed.

Lemma crc_bits_lxor n a b : crc_bits n (Z.lxor a b) = Z.lxor (crc_bits n a) (crc_bits n b).
Proof.
  revert a b. induction n as [|n IH]; intros a b; [done|].
  cbn [crc_bits]. by rewrite crc_bit_lxor, IH.
Qed.

Lemma crc_bits_add n m c : crc_bits (n + m) c = crc_bits m (crc_bits n c).
Proof. revert c. induction n as [|n IH]; intros c; [done|]. apply IH. Qed.

Lemma crc_bit_shiftl c n : 0 <= n → crc_bit (Z.shiftl c (n + 1)) = Z.shiftl c n.
Proof.
  intros. unfold crc_bit. rewrite Z.shiftl_spec_low by lia.
  rewrite Z.shiftr_shiftl_l by lia. f_equal. lia.
Qed.

Lemma crc_bits_shiftl n c : crc_bits n (Z.shiftl c (Z.of_nat n)) = c.
Proof.
  induction n as [|n IH]; [apply Z.shiftl_0_r|].
  cbn [crc_bits]. by rewrite Nat2Z.inj_succ, <-Z.add_1_r, crc_bit_shiftl by lia.
Qed.

(** A byte below a shifted value does not overlap it. *)
Lemma lor_byte_lxor b c :
  Z.lor (byte.unsigned b) (Z.shiftl c 8) = Z.lxor (byte.unsigned b) (Z.shiftl c 8).
Proof.
  symmetry. apply Z.lxor_lor. apply Z.bits_inj'. intros i Hi.
  rewrite Z.land_spec, Z.bits_0. destruct (Z.lt_ge_cases i 8).
  - rewrite Z.shiftl_spec_low by done. apply andb_false_r.
  - rewrite (Z.bits_above_log2 (byte.unsigned b)); [done|apply byte.unsigned_range|].
    pose proof (byte.unsigned_range b). destruct (Z.eq_dec (byte.unsigned b) 0) as [->|].
    { cbn. lia. }
    apply Z.log2_lt_pow2; [lia|]. eapply Z.lt_le_trans; [apply byte.unsigned_range|].
    apply Z.pow_le_mono_r; lia.
Qed.

(** [8n] bit steps on a little-endian block of [n] bytes are [n] byte
    steps: what makes the wide instruction agree with the narrow one. *)
Lemma crc_bits_block bs c :
  crc_bits (8 * length bs) (Z.lxor c (le_combine bs)) = crc_fold c bs.
Proof.
  revert c. induction bs as [|b bs IH]; intros c.
  { cbn. by rewrite Z.lxor_0_r. }
  change (le_combine (b :: bs)) with (Z.lor (byte.unsigned b) (Z.shiftl (le_combine bs) 8)).
  rewrite lor_byte_lxor, <-Z.lxor_assoc.
  replace (8 * length (b :: bs))%nat with (8 + 8 * length bs)%nat by (cbn; lia).
  rewrite crc_bits_add, crc_bits_lxor.
  pose proof (crc_bits_shiftl 8 (le_combine bs)) as Hs. change (Z.of_nat 8) with 8 in Hs.
  rewrite Hs. apply IH.
Qed.

Lemma crc32di_bytes c bs : length bs = 8%nat → crc32di c (le_combine bs) = crc_fold c bs.
Proof. intros H. rewrite <-crc_bits_block, H. done. Qed.

Lemma crc_fold_app c a b : crc_fold c (a ++ b) = crc_fold (crc_fold c a) b.
Proof. apply fold_left_app. Qed.

Lemma not32_invol c : not32 (not32 c) = c.
Proof. unfold not32. by rewrite Z.lxor_assoc, Z.lxor_nilpotent, Z.lxor_0_r. Qed.

(** ** The two loops compute the fold *)

Lemma crc32c_words_fold fuel c buf i len :
  0 <= i → i <= len <= zlen buf →
  ∃ j, crc32c_words fuel c buf i len = (crc_fold c (sub i (j - i) buf), j) ∧ i <= j <= len.
Proof.
  revert c i. induction fuel as [|fuel IH]; intros c i Hi Hlen; cbn [crc32c_words].
  { exists i. rewrite Z.sub_diag. split; [done|lia]. }
  destruct (Z.leb_spec 8 (len - i)).
  - destruct (IH (crc32di c (le_combine (sub i 8 buf))) (i + 8)) as (j & -> & Hj); [lia..|].
    exists j. split; [|lia]. f_equal.
    replace (j - i) with (8 + (j - (i + 8))) by lia.
    rewrite sub_split, crc_fold_app, crc32di_bytes by (len; lia). done.
  - exists i. rewrite Z.sub_diag. split; [done|lia].
Qed.

Lemma crc32c_tail_fold fuel c buf i len :
  0 <= i → i <= len <= zlen buf → len - i <= Z.of_nat fuel →
  crc32c_tail fuel c buf i len = crc_fold c (sub i (len - i) buf).
Proof.
  revert c i. induction fuel as [|fuel IH]; intros c i Hi Hlen Hf; cbn [crc32c_tail].
  { by replace (len - i) with 0 by lia. }
  destruct (Z.ltb_spec i len).
  - destruct (zget_lt buf i) as [b Hb]; [lia|]. rewrite Hb.
    rewrite (zget_sub_cons buf i (len - i) b) by (done || lia). rewrite IH by lia.
    by replace (len - i - 1) with (len - (i + 1)) by lia.
  - by replace (len - i) with 0 by lia.
Qed.


(** The code is the reference on the bytes it is given. *)
Lemma crc32c_is_ref crc buf len :
  len <= zlen buf → crc32c crc buf len = crc32c_ref crc (sub 0 len buf).
Proof.
  intros. unfold crc32c, crc32c_ref. destruct (Z.leb_spec len 0).
  { unfold sub. replace (Z.to_nat len) with 0%nat by lia.
    rewrite take_0. symmetry. apply not32_invol. }
  destruct (crc32c_words_fold (Z.to_nat len) (not32 crc) buf 0 len) as (j & -> & Hj); [lia..|].
  rewrite crc32c_tail_fold, <-crc_fold_app by lia.
  pose proof (sub_split 0 (j - 0) (len - j) buf ltac:(lia) ltac:(lia) ltac:(lia)) as Hs.
  replace (j - 0 + (len - j)) with len in Hs by lia. rewrite Hs.
  by replace (0 + (j - 0)) with j by lia.
Qed.

Lemma crc32c_ref_app crc a b : crc32c_ref crc (a ++ b) = crc32c_ref (crc32c_ref crc a) b.
Proof. unfold crc32c_ref. by rewrite not32_invol, crc_fold_app. Qed.

(** ** Range *)

Lemma lxor_range32 a b :
  0 <= a < 2 ^ 32 → 0 <= b < 2 ^ 32 → 0 <= Z.lxor a b < 2 ^ 32.
Proof.
  intros Ha Hb. split; [apply Z.lxor_nonneg; lia|].
  assert (Z.lxor a b = Z.lxor a b mod 2 ^ 32) as ->; [|by apply Z.mod_pos_bound].
  rewrite <-Z.land_ones by done. apply Z.bits_inj'. intros i Hi.
  rewrite Z.land_spec, Z.lxor_spec, Z.testbit_ones_nonneg by lia.
  destruct (Z.ltb_spec i 32); [by rewrite andb_true_r|].
  rewrite <-(Z.mod_small a (2 ^ 32)), <-(Z.mod_small b (2 ^ 32)) by done.
  by rewrite !Z.mod_pow2_bits_high by lia.
Qed.

Lemma crc_bit_range c : 0 <= c < 2 ^ 32 → 0 <= crc_bit c < 2 ^ 32.
Proof.
  intros. assert (0 <= Z.shiftr c 1 < 2 ^ 32).
  { rewrite Z.shiftr_div_pow2 by lia. change (2 ^ 1) with 2. Z.div_mod_to_equations. lia. }
  unfold crc_bit. case_match; [by apply lxor_range32|done].
Qed.

Lemma crc_bits_range n c : 0 <= c < 2 ^ 32 → 0 <= crc_bits n c < 2 ^ 32.
Proof.
  revert c. induction n as [|n IH]; intros c Hc; [done|]. by apply IH, crc_bit_range.
Qed.

Lemma byte_range32 b : 0 <= byte.unsigned b < 2 ^ 32.
Proof. pose proof (byte.unsigned_range b). lia. Qed.

Lemma crc_fold_range c bs : 0 <= c < 2 ^ 32 → 0 <= crc_fold c bs < 2 ^ 32.
Proof.
  revert c. induction bs as [|b bs IH]; intros c Hc; [done|].
  rewrite crc_fold_cons. apply IH. apply crc_bits_range, lxor_range32; [done|apply byte_range32].
Qed.

Lemma not32_range c : 0 <= c < 2 ^ 32 → 0 <= not32 c < 2 ^ 32.
Proof. intros. by apply lxor_range32. Qed.

Lemma crc32c_ref_range crc bs : 0 <= crc < 2 ^ 32 → 0 <= crc32c_ref crc bs < 2 ^ 32.
Proof. intros. by apply not32_range, crc_fold_range, not32_range. Qed.

(** ** Injectivity *)

Lemma crc_bit_zero c : 0 <= c < 2 ^ 32 → crc_bit c = 0 → c = 0.
Proof.
  intros Hc. unfold crc_bit. rewrite Z.bit0_odd, Z.shiftr_div_pow2 by lia.
  change (2 ^ 1) with 2. destruct (Z.odd c) eqn:Hb.
  - intros Hx%Z.lxor_eq. exfalso. unfold CRC_POLY in Hx. Z.div_mod_to_equations. lia.
  - intros H. rewrite (Z.div_mod c 2), H, Zmod_odd, Hb by lia. done.
Qed.

Lemma crc_bits_zero n c : 0 <= c < 2 ^ 32 → crc_bits n c = 0 → c = 0.
Proof.
  revert c. induction n as [|n IH]; intros c Hc; [done|]. cbn. intros H.
  apply crc_bit_zero; [done|]. apply IH; [by apply crc_bit_range|done].
Qed.

Lemma crc_bits_inj n a b :
  0 <= a < 2 ^ 32 → 0 <= b < 2 ^ 32 → crc_bits n a = crc_bits n b → a = b.
Proof.
  intros Ha Hb H. apply Z.lxor_eq. apply (crc_bits_zero n); [by apply lxor_range32|].
  by rewrite crc_bits_lxor, H, Z.lxor_nilpotent.
Qed.

(** The running value can be recovered from what a byte makes of it. *)
Lemma crc_fold_inj a b bs :
  0 <= a < 2 ^ 32 → 0 <= b < 2 ^ 32 → crc_fold a bs = crc_fold b bs → a = b.
Proof.
  revert a b. induction bs as [|x bs IH]; intros a b Ha Hb; [done|].
  rewrite !crc_fold_cons. intros H. pose proof (byte_range32 x).
  apply IH in H; [|by apply (crc_fold_range _ [x])..].
  apply crc_bits_inj in H; [|by apply lxor_range32..].
  apply (f_equal (λ y, Z.lxor y (byte.unsigned x))) in H.
  by rewrite !Z.lxor_assoc, Z.lxor_nilpotent, !Z.lxor_0_r in H.
Qed.

Lemma le_combine_range32 bs : (length bs <= 4)%nat → 0 <= le_combine bs < 2 ^ 32.
Proof.
  intros. pose proof (le_combine_bound bs) as [??]. split; [done|].
  eapply Z.lt_le_trans; [done|]. apply Z.pow_le_mono_r; lia.
Qed.

(** Four bytes or fewer, run into the same value, are told apart. *)
Lemma crc_fold_block_inj c w1 w2 :
  0 <= c < 2 ^ 32 → length w1 = length w2 → (length w1 <= 4)%nat →
  crc_fold c w1 = crc_fold c w2 → w1 = w2.
Proof.
  intros Hc Hl H4. rewrite <-!crc_bits_block, <-Hl. intros H.
  pose proof (le_combine_range32 w1 H4). pose proof (le_combine_range32 w2 ltac:(lia)).
  apply crc_bits_inj in H; [|by apply lxor_range32..].
  apply (f_equal (Z.lxor c)) in H.
  rewrite <-!Z.lxor_assoc, Z.lxor_nilpotent, !Z.lxor_0_l in H.
  by apply (le_combine_inj' (length w1)).
Qed.

(** A change confined to four consecutive bytes changes the checksum. *)
Lemma crc32c_ref_burst crc pre w1 w2 post :
  0 <= crc < 2 ^ 32 → length w1 = length w2 → (length w1 <= 4)%nat →
  crc32c_ref crc (pre ++ w1 ++ post) = crc32c_ref crc (pre ++ w2 ++ post) → w1 = w2.
Proof.
  intros Hc Hl H4 H. unfold crc32c_ref in H.
  apply (f_equal not32) in H. rewrite !not32_invol, !crc_fold_app in H.
  pose proof (not32_range crc Hc) as Hn.
  apply crc_fold_inj in H; [|by apply crc_fold_range, crc_fold_range..].
  eapply crc_fold_block_inj; [|done..|done]. by apply crc_fold_range.
Qed.

(** ** Properties *)

Module Crc.

(** Chaining: a checksum carried from one block into the next is the
    checksum of the two blocks together, which is what lets a record be
    checksummed without copying its parts into one place. *)
Theorem crc32c_chunks (crc : Z) (a b : list byte) :
  crc32c (crc32c crc a (zlen a)) b (zlen b) = crc32c crc (a ++ b) (zlen (a ++ b)).
Proof.
  rewrite !crc32c_is_ref, !sub_all, crc32c_ref_app by (len; lia). done.
Qed.

(** Error detection: changing at most four consecutive bytes of a block
    always changes its checksum. *)
Theorem crc32c_detects_burst (crc : Z) (pre w1 w2 post : list byte)
    (Hcrc : 0 <= crc < 2 ^ 32) (Hlen : length w1 = length w2)
    (H4 : (length w1 <= 4)%nat) (Hne : w1 ≠ w2) :
  crc32c crc (pre ++ w1 ++ post) (zlen (pre ++ w1 ++ post))
  ≠ crc32c crc (pre ++ w2 ++ post) (zlen (pre ++ w2 ++ post)).
Proof.
  rewrite !crc32c_is_ref, !sub_all by (len; lia). intros H. by apply crc32c_ref_burst in H.
Qed.

Lemma crc32c_detects_burst_witness :
  crc32c 0 (bytes_of [1; 2; 3; 4; 5; 6]) 6 ≠ crc32c 0 (bytes_of [1; 2; 7; 4; 5; 6]) 6.
Proof.
  apply (crc32c_detects_burst 0 (bytes_of [1; 2]) (bytes_of [3]) (bytes_of [7])
           (bytes_of [4; 5; 6])); vm_compute; first [done | lia | intros H; discriminate H | split; done].
Defined.

(** The published test vector, the ASCII digits one to nine. *)
Example crc32c_vector :
  crc32c 0 (bytes_of [49; 50; 51; 52; 53; 54; 55; 56; 57]) 9 = 0xE3069283.
Proof. vm_compute. reflexivity. Qed.

End Crc.
