(* ===== verification/Core.v ===== *)
(** * Spans, memory operations, the arena and the error stack
    (src/core/types.h, mem.h, arena.h, err.h)

    [Span] is the (offset, length) reference every module uses instead of a
    pointer, [Mem] the byte loops that stand in for libc, [Arena] the bump
    allocator, [Err] the fixed-size error stack.  A pointer returned by the
    C code is modelled by the offset it has in its base buffer, NULL by
    [None]. *)

From S2P Require Import Prelude.

(** ** Results (types.h) *)

Record result_t := Result { r_code : Z; r_detail : Z }.

Definition RESULT_OK : result_t := Result 0 0.
Definition RESULT_ERR (c d : Z) : result_t := Result c d.
Definition result_ok (r : result_t) : bool := r_code r =? 0.

Definition ERR_NONE : Z := 0.
Definition ERR_SYSCALL : Z := -1.
Definition ERR_NOMEM : Z := -2.
Definition ERR_OVERFLOW : Z := -3.
Definition ERR_INVALID : Z := -4.
Definition ERR_EOF : Z := -5.
Definition ERR_PROTOCOL : Z := -6.
Definition ERR_STORAGE : Z := -7.
Definition ERR_AGAIN : Z := -8.

#[global] Instance result_eq_dec : EqDecision result_t.
Proof. solve_decision. Defined.

(** ** Spans (types.h) *)

Module Span.

Record span_t := SPAN { s_off : Z; s_len : Z }.
Definition SPAN_NULL : span_t := SPAN 0 0.

#[global] Instance span_eq_dec : EqDecision span_t.
Proof. solve_decision. Defined.

(** The sum is an [int32_t] sum; [i32] is what the machine makes of it when
    it does not fit. *)
Definition span_ptr (base_len : Z) (s : span_t) : option Z :=
  if (s_off s <? 0) || (s_len s <? 0) || (base_len <? i32 (s_off s + s_len s))
  then None else Some (s_off s).

(** The const form has the same body. *)
Definition span_cptr (base_len : Z) (s : span_t) : option Z :=
  if (s_off s <? 0) || (s_len s <? 0) || (base_len <? i32 (s_off s + s_len s))
  then None else Some (s_off s).

Definition span_empty (s : span_t) : bool := s_len s <=? 0.

Definition span_sub (parent : span_t) (off len : Z) : span_t :=
  if (off <? 0) || (len <? 0) || (s_len parent <? i32 (off + len))
  then SPAN_NULL else SPAN (i32 (s_off parent + off)) len.

(** The region a span names lies inside a base of [n] bytes. *)
Definition within (n : Z) (s : span_t) : Prop :=
  0 <= s_off s ∧ 0 <= s_len s ∧ s_off s + s_len s <= n.

Definition disjoint (s t : span_t) : Prop :=
  s_off s + s_len s <= s_off t ∨ s_off t + s_len t <= s_off s.

(** Both fields are [int32_t] and their sum is one too. *)
Definition small (s : span_t) : Prop :=
  - 2 ^ 31 <= s_off s < 2 ^ 31 ∧ - 2 ^ 31 <= s_len s < 2 ^ 31 ∧
  s_off s + s_len s < 2 ^ 31.

Lemma span_ptr_within n s :
  small s → n < 2 ^ 31 → span_ptr n s = Some (s_off s) ↔ within n s.
Proof.
  intros (Ho & Hl & Hs) Hn. unfold span_ptr, within.
  destruct (Z.ltb_spec (s_off s) 0), (Z.ltb_spec (s_len s) 0); cbn [orb];
    try (split; [done|lia]).
  rewrite i32_id by lia. destruct (Z.ltb_spec n (s_off s + s_len s)); split; (done || lia).
Qed.

Lemma span_sub_within n p off len :
  within n p → n < 2 ^ 31 → off + len < 2 ^ 31 →
  within n (span_sub p off len) ∧
  (span_sub p off len ≠ SPAN_NULL → s_off p <= s_off (span_sub p off len)).
Proof.
  intros (Ho & Hl & Hs) Hn Hsum. unfold span_sub, within.
  destruct (Z.ltb_spec off 0), (Z.ltb_spec len 0); cbn [orb s_off s_len SPAN_NULL];
    [split; [lia|done]..|].
  rewrite (i32_id (off + len)) by lia.
  destruct (Z.ltb_spec (s_len p) (off + len)); cbn [s_off s_len]; [split; [cbn; lia|done]|].
  rewrite i32_id by lia. split; lia.
Qed.

End Span.
Import Span.

(** ** Memory operations (mem.h) *)

Module Mem.

(** [for (i = 0; i < len; i++) dst[i] = src[i];] between two buffers. *)
Fixpoint mem_copy_loop (fuel : nat) (dst : list byte) (d : Z) (src : list byte) (s : Z)
    : list byte :=
  match fuel with
  | O => dst
  | S fuel =>
      match zget src s with
      | Some b => mem_copy_loop fuel (zset dst d b) (d + 1) src (s + 1)
      | None => dst
      end
  end.
Definition mem_copy (dst : list byte) (d : Z) (src : list byte) (s len : Z) : list byte :=
  mem_copy_loop (Z.to_nat len) dst d src s.

(** The same loop when both pointers are into one buffer: each store is seen
    by the loads after it. *)
Fixpoint mem_move_loop (fuel : nat) (m : list byte) (d s : Z) : list byte :=
  match fuel with
  | O => m
  | S fuel =>
      match zget m s with
      | Some b => mem_move_loop fuel (zset m d b) (d + 1) (s + 1)
      | None => m
      end
  end.
Definition mem_copy_within (m : list byte) (d s len : Z) : list byte :=
  mem_move_loop (Z.to_nat len) m d s.

Fixpoint mem_set_loop (fuel : nat) (dst : list byte) (d : Z) (val : byte) : list byte :=
  match fuel with
  | O => dst
  | S fuel => mem_set_loop fuel (zset dst d val) (d + 1) val
  end.
Definition mem_set (dst : list byte) (d : Z) (val : byte) (len : Z) : list byte :=
  mem_set_loop (Z.to_nat len) dst d val.

Definition mem_zero (dst : list byte) (d len : Z) : list byte := mem_set dst d Byte.x00 len.

(** Three-way comparison of the first [len] bytes. *)
Fixpoint mem_cmp_loop (fuel : nat) (a : list byte) (i : Z) (b : list byte) (j : Z) : Z :=
  match fuel with
  | O => 0
  | S fuel =>
      match zget a i, zget b j with
      | Some x, Some y =>
          if negb (byte.unsigned x =? byte.unsigned y)
          then if byte.unsigned x <? byte.unsigned y then -1 else 1
          else mem_cmp_loop fuel a (i + 1) b (j + 1)
      | _, _ => 0
      end
  end.
Definition mem_cmp (a : list byte) (i : Z) (b : list byte) (j len : Z) : Z :=
  mem_cmp_loop (Z.to_nat len) a i b j.

Definition span_cmp (base_a : list byte) (a : span_t) (base_b : list byte) (b : span_t) : Z :=
  match span_cptr (zlen base_a) a, span_cptr (zlen base_b) b with
  | Some pa, Some pb =>
      let min_len := if s_len a <? s_len b then s_len a else s_len b in
      let r := mem_cmp base_a pa base_b pb min_len in
      if negb (r =? 0) then r
      else if s_len a <? s_len b then -1 else if s_len b <? s_len a then 1 else 0
  | Some _, None => 1
  | None, Some _ => -1
  | None, None => 0
  end.

(** The updated destination and TRUE, or the destination unchanged. *)
Definition span_copy (dst_base : list byte) (dst : span_t) (src_base : list byte)
    (src : span_t) : bool * list byte :=
  if s_len dst <? s_len src then (false, dst_base) else
  match span_ptr (zlen dst_base) dst, span_cptr (zlen src_base) src with
  | Some dp, Some sp => (true, mem_copy dst_base dp src_base sp (s_len src))
  | _, _ => (false, dst_base)
  end.

(** *** What the loops compute *)

Lemma mem_copy_loop_blit n dst d src s :
  0 <= d → 0 <= s → d + Z.of_nat n <= zlen dst → s + Z.of_nat n <= zlen src →
  mem_copy_loop n dst d src s = blit dst d (sub s (Z.of_nat n) src).
Proof.
  revert dst d s. induction n as [|n IH]; intros dst d s Hd Hs Hdl Hsl.
  { symmetry. apply blit_nil. }
  cbn [mem_copy_loop]. destruct (zget_lt src s) as [b Hb]; [lia|]. rewrite Hb.
  rewrite IH by (len; lia). rewrite (zget_sub_cons src s _ b) by (done || lia).
  replace (Z.of_nat (S n) - 1) with (Z.of_nat n) by lia. apply blit_cons; len; lia.
Qed.

Lemma mem_copy_blit dst d src s len :
  0 <= d → 0 <= s → 0 <= len → d + len <= zlen dst → s + len <= zlen src →
  mem_copy dst d src s len = blit dst d (sub s len src).
Proof.
  intros. unfold mem_copy. rewrite mem_copy_loop_blit by lia. by rewrite Z2Nat.id.
Qed.

(** A forward byte loop is safe when the destination is not above the
    source: every byte is read before anything is stored over it. *)
Lemma mem_move_loop_blit n m d s :
  0 <= d <= s → s + Z.of_nat n <= zlen m →
  mem_move_loop n m d s = blit m d (sub s (Z.of_nat n) m).
Proof.
  revert m d s. induction n as [|n IH]; intros m d s Hd Hl.
  { symmetry. apply blit_nil. }
  cbn [mem_move_loop]. destruct (zget_lt m s) as [b Hb]; [lia|]. rewrite Hb.
  rewrite IH by (len; lia). rewrite sub_zset_out by lia.
  rewrite (zget_sub_cons m s _ b) by (done || lia).
  replace (Z.of_nat (S n) - 1) with (Z.of_nat n) by lia. apply blit_cons; len; lia.
Qed.

Lemma length_mem_copy_within m d s n : length (mem_copy_within m d s n) = length m.
Proof.
  unfold mem_copy_within. generalize (Z.to_nat n). intros fuel. revert m d s.
  induction fuel as [|fuel IH]; intros m d s; cbn; [done|]. destruct (zget m s); [|done].
  rewrite IH. by rewrite length_zset.
Qed.

Lemma mem_copy_within_blit m d s len :
  0 <= d <= s → 0 <= len → s + len <= zlen m →
  mem_copy_within m d s len = blit m d (sub s len m).
Proof.
  intros. unfold mem_copy_within. rewrite mem_move_loop_blit by lia. by rewrite Z2Nat.id.
Qed.

Lemma mem_set_loop_blit n dst d v :
  0 <= d → d + Z.of_nat n <= zlen dst →
  mem_set_loop n dst d v = blit dst d (replicate n v).
Proof.
  revert dst d. induction n as [|n IH]; intros dst d Hd Hl.
  { symmetry. apply blit_nil. }
  cbn [mem_set_loop replicate]. rewrite IH by (len; lia). apply blit_cons; len; lia.
Qed.

Lemma mem_zero_blit dst d len :
  0 <= d → 0 <= len → d + len <= zlen dst → mem_zero dst d len = blit dst d (zeros len).
Proof. intros. apply mem_set_loop_blit; lia. Qed.

Lemma mem_cmp_loop_zero n a i b j :
  0 <= i → 0 <= j → i + Z.of_nat n <= zlen a → j + Z.of_nat n <= zlen b →
  mem_cmp_loop n a i b j = 0 ↔ sub i (Z.of_nat n) a = sub j (Z.of_nat n) b.
Proof.
  revert i j. induction n as [|n IH]; intros i j Hi Hj Ha Hb; [done|].
  cbn [mem_cmp_loop].
  destruct (zget_lt a i) as [x Hx]; [lia|]. destruct (zget_lt b j) as [y Hy]; [lia|].
  rewrite Hx, Hy, (zget_sub_cons a i _ x), (zget_sub_cons b j _ y) by (done || lia).
  replace (Z.of_nat (S n) - 1) with (Z.of_nat n) by lia.
  destruct (Z.eqb_spec (byte.unsigned x) (byte.unsigned y)) as [Hxy|Hxy]; cbn [negb].
  - rewrite IH by lia. apply byte.unsigned_inj in Hxy as ->. split; congruence.
  - split; [case_match; lia|]. intros [= -> _]. done.
Qed.

Lemma mem_cmp_zero a i b j len :
  0 <= i → 0 <= j → 0 <= len → i + len <= zlen a → j + len <= zlen b →
  mem_cmp a i b j len = 0 ↔ sub i len a = sub j len b.
Proof.
  intros. unfold mem_cmp. rewrite mem_cmp_loop_zero by lia. by rewrite Z2Nat.id.
Qed.

End Mem.
Import Mem.

(** ** The arena (arena.h) *)

Module Arena.

(** The backing buffer is not touched by the allocator itself, so the state
    is its size and the watermark. *)
Record arena_t := Arena { a_capacity : Z; a_used : Z }.

Definition arena_init (capacity : Z) : arena_t := Arena capacity 0.

Definition arena_alloc (a : arena_t) (size : Z) : span_t * arena_t :=
  if size <=? 0 then (SPAN_NULL, a) else
  let aligned := Z.land (i32 (size + 7)) (Z.lnot 7) in
  if a_capacity a <? i32 (a_used a + aligned) then (SPAN_NULL, a) else
  (SPAN (a_used a) size, Arena (a_capacity a) (i32 (a_used a + aligned))).

Definition arena_alloc_raw (a : arena_t) (size : Z) : span_t * arena_t :=
  if (size <=? 0) || (a_capacity a <? i32 (a_used a + size)) then (SPAN_NULL, a) else
  (SPAN (a_used a) size, Arena (a_capacity a) (i32 (a_used a + size))).

Definition arena_reset (a : arena_t) : arena_t := Arena (a_capacity a) 0.
Definition arena_remaining (a : arena_t) : Z := a_capacity a - a_used a.
Definition arena_ptr (a : arena_t) (s : span_t) : option Z := span_ptr (a_capacity a) s.
Definition arena_cptr (a : arena_t) (s : span_t) : option Z := span_cptr (a_capacity a) s.

(** A client's requests between two resets, and the spans it gets. *)
Inductive request := Alloc (size : Z) | AllocRaw (size : Z).
Definition request_size (q : request) : Z := match q with Alloc n | AllocRaw n => n end.

Definition serve (a : arena_t) (q : request) : span_t * arena_t :=
  match q with Alloc n => arena_alloc a n | AllocRaw n => arena_alloc_raw a n end.

Fixpoint serve_all (a : arena_t) (qs : list request) : list span_t * arena_t :=
  match qs with
  | [] => ([], a)
  | q :: qs =>
      let '(s, a1) := serve a q in
      let '(ss, a2) := serve_all a1 qs in (s :: ss, a2)
  end.

Definition arena_ok (a : arena_t) : Prop := 0 <= a_used a <= a_capacity a.

(** Requests whose rounded size cannot carry the watermark past 2^31. *)
Definition request_fits (a : arena_t) (q : request) : Prop :=
  a_capacity a + request_size q + 8 < 2 ^ 31.

Lemma serve_spec a q :
  arena_ok a → request_fits a q →
  let '(s, a') := serve a q in
  a_capacity a' = a_capacity a ∧ arena_ok a' ∧ a_used a <= a_used a' ∧
  (s = SPAN_NULL ∧ a' = a ∨
   s_off s = a_used a ∧ s_len s = request_size q ∧ 0 < s_len s ∧
   s_off s + s_len s <= a_used a').
Proof.
  unfold arena_ok, request_fits. destruct a as [cap used], q as [n|n]; cbn; intros Hok Hf.
  - unfold arena_alloc; cbn. destruct (Z.leb_spec n 0); [cbn; split_and!; auto with lia|].
    rewrite (i32_id (n + 7)) by lia. change (Z.land (n + 7) _) with (align8 n).
    pose proof (align8_bounds n).
    rewrite i32_id by lia.
    destruct (Z.ltb_spec cap (used + align8 n)); cbn; split_and!; first [lia | by left | right; lia].
  - unfold arena_alloc_raw; cbn.
    destruct (Z.leb_spec n 0); cbn [orb]; [cbn; split_and!; auto with lia|].
    rewrite i32_id by lia.
    destruct (Z.ltb_spec cap (used + n)); cbn; split_and!; first [lia | by left | right; lia].
Qed.

(** Spans served later start at or above the watermark they found. *)
Lemma serve_all_above a qs :
  arena_ok a → Forall (request_fits a) qs →
  Forall (λ s, s = SPAN_NULL ∨ a_used a <= s_off s ∧ within (a_capacity a) s)
    (serve_all a qs).1.
Proof.
  revert a. induction qs as [|q qs IH]; intros a Hok Hfit; [constructor|].
  apply Forall_cons in Hfit as [Hq Hqs]. cbn [serve_all].
  pose proof (serve_spec a q Hok Hq) as Hs. destruct (serve a q) as [s a1].
  destruct Hs as (Hcap & Hok1 & Hle & Hs).
  assert (Forall (request_fits a1) qs) as Hqs1.
  { eapply Forall_impl; [exact Hqs|]. unfold request_fits. rewrite Hcap. done. }
  specialize (IH a1 Hok1 Hqs1). destruct (serve_all a1 qs) as [ss a2]. cbn in *.
  constructor.
  - destruct Hs as [[-> ->]|(Ho & Hl & Hpos & Hu)]; [by left|right].
    unfold within, arena_ok in *. lia.
  - eapply Forall_impl; [exact IH|]. intros t [->|[Ht Hw]]; [by left|right].
    rewrite <-Hcap. split; [lia|done].
Qed.

End Arena.
Import Arena.

(** ** The error stack (err.h) *)

Module Err.

Definition ERR_MAX_FRAMES : nat := 8.

(** The tagged union [err_detail_t]. *)
Inductive err_detail_t :=
| ERR_DTL_NONE
| ERR_DTL_ERRNO (errno_val : Z)
| ERR_DTL_FD (fd : Z)
| ERR_DTL_OFFSET (offset : Z)
| ERR_DTL_SPAN (span : span_t)
| ERR_DTL_INT (ival : Z).

Record err_frame_t := Frame {
  f_file : option string; f_func : option string; f_line : Z; f_code : Z;
  f_detail : err_detail_t }.

Record err_t := Errs {
  e_frames : list err_frame_t; e_top_count : nat; e_bottom_count : nat; e_dropped : Z }.

Definition err_init : err_t :=
  Errs (replicate ERR_MAX_FRAMES (Frame None None 0 0 ERR_DTL_NONE)) 0 0 0.

Definition err_push_frame (e : err_t) (f : err_frame_t) : err_t :=
  let half := (ERR_MAX_FRAMES / 2)%nat in
  let '(Errs fr top bot drp) := e in
  if (Nat.eqb top 0 && Nat.eqb bot 0)%bool
  then Errs (<[(ERR_MAX_FRAMES - 1)%nat := f]> fr) top 1 drp
  else if Nat.ltb bot half
  then Errs (<[(ERR_MAX_FRAMES - 1 - bot)%nat := f]> fr) top (bot + 1) drp
  else if Nat.ltb top half
  then Errs (<[top := f]> fr) (top + 1) bot drp
  else Errs (<[(half - 1)%nat := f]> fr) top bot (drp + 1).

Definition err_has_error (e : err_t) : bool :=
  (Nat.ltb 0 (e_top_count e) || Nat.ltb 0 (e_bottom_count e))%bool.

Definition err_frame_count (e : err_t) : nat := (e_top_count e + e_bottom_count e)%nat.

(** The index is taken as non-negative; a negative one is NULL in the code
    and has no counterpart here. *)
Definition err_frame_at (e : err_t) (idx : nat) : option err_frame_t :=
  if Nat.ltb idx (e_top_count e) then e_frames e !! idx
  else let idx := (idx - e_top_count e)%nat in
       if Nat.ltb idx (e_bottom_count e)
       then e_frames e !! (ERR_MAX_FRAMES - e_bottom_count e + idx)%nat
       else None.

(** The frames in the order the iteration gives them. *)
Definition err_trace (e : err_t) : list err_frame_t :=
  omap (err_frame_at e) (seq 0 (err_frame_count e)).

Definition err_push_all (fs : list err_frame_t) : err_t := fold_left err_push_frame fs err_init.

(** What eight frames or fewer leave, and what a push onto a full stack
    changes: the frame in the last top slot. *)
Lemma push_full e rest :
  e_top_count e = 4%nat → e_bottom_count e = 4%nat →
  fold_left err_push_frame rest e =
    match last rest with
    | None => e
    | Some f => Errs (<[3%nat := f]> (e_frames e)) 4 4 (e_dropped e + zlen rest)
    end.
Proof.
  revert e. induction rest as [|f rest IH]; intros [fr top bot drp]; cbn; intros -> ->; [done|].
  rewrite IH by done. cbn. rewrite last_cons. destruct (last rest) eqn:Hl; cbn.
  - rewrite list_insert_insert_eq. f_equal. lia.
  - apply last_None in Hl as ->. f_equal.
Qed.

(** The frames shown for a history of pushes, oldest first. *)
Definition shown (fs : list err_frame_t) : list err_frame_t :=
  let tops := drop 4 fs in
  (if Nat.leb (length tops) 4 then tops
   else take 3 tops ++ match last tops with Some f => [f] | None => [] end)
  ++ reverse (take 4 fs).

Lemma err_push_all_trace fs : err_trace (err_push_all fs) = shown fs.
Proof.
  do 8 (destruct fs as [|? fs]; [reflexivity|]).
  unfold err_push_all. cbn [fold_left]. rewrite push_full by reflexivity.
  unfold shown.
  destruct (last fs) eqn:Hl.
  - destruct fs as [|f fs]; [done|]. cbn. rewrite Hl. done.
  - apply last_None in Hl as ->. reflexivity.
Qed.

Lemma err_push_all_dropped fs : e_dropped (err_push_all fs) = Z.max 0 (zlen fs - 8).
Proof.
  do 8 (destruct fs as [|? fs]; [reflexivity|]).
  unfold err_push_all. cbn [fold_left]. rewrite push_full by reflexivity.
  destruct (last fs) eqn:Hl.
  - cbn [e_dropped length]. cbn. lia.
  - apply last_None in Hl as ->. reflexivity.
Qed.

End Err.
Import Err.

(** ** Properties *)

Module CoreProps.

(** The arena: whatever mix of requests a client makes between two resets,
    every span it is given lies inside the backing buffer and no two of them
    overlap. *)
Theorem arena_spans_disjoint (a : arena_t) (qs : list request)
    (Hok : arena_ok a) (Hfit : Forall (request_fits a) qs) :
  Forall (λ s, s = SPAN_NULL ∨ within (a_capacity a) s) (serve_all a qs).1 ∧
  ∀ (i j : nat) s t, (i < j)%nat →
    (serve_all a qs).1 !! i = Some s → (serve_all a qs).1 !! j = Some t →
    s ≠ SPAN_NULL → t ≠ SPAN_NULL → disjoint s t.
Proof.
  split.
  { eapply Forall_impl; [by apply serve_all_above|]. intros s [?|[_ ?]]; auto. }
  revert a Hok Hfit. induction qs as [|q qs IH]; intros a Hok Hfit i j s t Hij; [done|].
  apply Forall_cons in Hfit as [Hq Hqs]. cbn [serve_all].
  pose proof (serve_spec a q Hok Hq) as Hs. destruct (serve a q) as [s0 a1].
  destruct Hs as (Hcap & Hok1 & Hle & Hs0).
  assert (Forall (request_fits a1) qs) as Hqs1.
  { eapply Forall_impl; [exact Hqs|]. unfold request_fits. rewrite Hcap. done. }
  pose proof (serve_all_above a1 qs Hok1 Hqs1) as Habove.
  specialize (IH a1 Hok1 Hqs1). destruct (serve_all a1 qs) as [ss a2]. cbn in *.
  destruct j as [|j]; [lia|]. destruct i as [|i]; cbn; intros Hi Hj Hsn Htn.
  - injection Hi as ->. eapply Forall_lookup_1 in Habove; [|exact Hj].
    destruct Habove as [->|[Ht Hw]]; [done|].
    destruct Hs0 as [[-> _]|(Ho & Hl & Hpos & Hu)]; [done|]. left. lia.
  - apply (IH i j s t); [lia|done..].
Qed.

Lemma arena_spans_disjoint_witness :
  (serve_all (arena_init 64) [Alloc 5; AllocRaw 3; Alloc 100; Alloc 8]).1
    = [SPAN 0 5; SPAN 8 3; SPAN_NULL; SPAN 11 8] ∧
  Forall (λ s, s = SPAN_NULL ∨ within 64 s)
    (serve_all (arena_init 64) [Alloc 5; AllocRaw 3; Alloc 100; Alloc 8]).1.
Proof.
  split; [vm_compute; reflexivity|].
  refine (proj1 (arena_spans_disjoint (arena_init 64)
                   [Alloc 5; AllocRaw 3; Alloc 100; Alloc 8] _ _)).
  - unfold arena_ok; cbn; lia.
  - repeat constructor.
Defined.

(** The error stack: after any sequence of pushes the four frames nearest
    the origin are all held, with the origin last in the iteration; of the
    callers above them the first three and the latest are held, in the order
    they were pushed; and the number dropped is what did not fit in eight. *)
Theorem err_stack_keeps_ends (fs : list err_frame_t) :
  err_trace (err_push_all fs) = shown fs ∧
  e_dropped (err_push_all fs) = Z.max 0 (zlen fs - 8) ∧
  (fs ≠ [] → last (err_trace (err_push_all fs)) = head fs).
Proof.
  rewrite err_push_all_trace. split; [done|]. split; [apply err_push_all_dropped|].
  intros Hne. destruct fs as [|f fs]; [done|]. unfold shown. cbn [take head].
  by rewrite reverse_cons, app_assoc, last_snoc.
Qed.

Lemma err_stack_keeps_ends_witness :
  last (err_trace (err_push_all (map (λ n, Frame None None n n ERR_DTL_NONE) [1; 2; 3])))
    = Some (Frame None None 1 1 ERR_DTL_NONE).
Proof.
  refine (proj2 (proj2 (err_stack_keeps_ends _)) _). intros H. discriminate H.
Defined.

End CoreProps.

(** Two places where the code parts from its comments.  The iteration is
    documented as most recent first; with two callers above a full bottom
    half, the first of them comes out ahead of the second.  And the arena's
    8-byte rounding is of the size, so an aligned request after a raw one is
    not aligned. *)
Module CoreFindings.

Lemma err_iteration_not_most_recent_first (f1 f2 f3 f4 f5 f6 : err_frame_t) :
  err_trace (err_push_all [f1; f2; f3; f4; f5; f6]) = [f5; f6; f4; f3; f2; f1].
Proof. reflexivity. Qed.

Lemma arena_alloc_after_raw_unaligned :
  (serve_all (arena_init 64) [AllocRaw 1; Alloc 8]).1 = [SPAN 0 1; SPAN 1 8].
Proof. reflexivity. Qed.

(** A size within seven of [INT32_MAX] wraps when it is rounded, and the
    request is granted in a buffer of any size. *)
Lemma arena_alloc_huge_granted :
  serve (arena_init 64) (Alloc (2 ^ 31 - 1)) = (SPAN 0 (2 ^ 31 - 1), Arena 64 (- 2 ^ 31)).
Proof. reflexivity. Qed.

End CoreFindings.
