(* ===== verification/Fmt.v ===== *)
(** * Text out of numbers (src/core/fmt.h)

    The three appending formatters.  A buffer of capacity [cap] is the list
    of its [cap] bytes; each formatter returns the buffer and the new text
    length.  [text] is what has been written so far.  A C string is the list
    of its bytes before the NUL. *)

From S2P Require Import Prelude Core.
Import Core.Mem.

Definition digit (d : Z) : byte := byte.of_Z (48 + d).

Definition fmt_str (buf : list byte) (cap len : Z) (s : list byte) : list byte * Z :=
  if (len <? 0) || (cap <? len) then (buf, len) else
  let n := zlen s in
  if cap - len <? n then (buf, len) else
  (mem_copy buf len s 0 n, len + n).

(** [do { tmp[n++] = '0' + v % 10; v /= 10; } while (v > 0);] into a
    20-byte array, which holds the digits of any [uint64_t]; the digits come
    out lowest first. *)
Fixpoint digits_rev (fuel : nat) (v : Z) : list byte :=
  match fuel with
  | O => []
  | S fuel =>
      digit (v mod 10) :: (if 0 <? v / 10 then digits_rev fuel (v / 10) else [])
  end.

(** [while (n > 0) buf[len++] = tmp[--n];] *)
Fixpoint put_rev (buf : list byte) (len : Z) (tmp : list byte) (n : nat) : list byte * Z :=
  match n with
  | O => (buf, len)
  | S n => put_rev (zset buf len (nth n tmp Byte.x00)) (len + 1) tmp n
  end.

Definition fmt_u64 (buf : list byte) (cap len v : Z) : list byte * Z :=
  if (len <? 0) || (cap <? len) then (buf, len) else
  let tmp := digits_rev 20 v in
  if cap - len <? zlen tmp then (buf, len) else put_rev buf len tmp (length tmp).

(** The nine fraction digits, written backwards from [end_]. *)
Fixpoint put_frac (fuel : nat) (buf : list byte) (end_ i frac : Z) : list byte :=
  match fuel with
  | O => buf
  | S fuel =>
      put_frac fuel (zset buf (end_ - i) (digit (frac mod 10))) end_ (i + 1) (frac / 10)
  end.

Definition dot : list byte := bytes_of [46].

Definition fmt_ns_seconds (buf : list byte) (cap len ns : Z) : list byte * Z :=
  let frac := ns mod 1000000000 in
  let '(buf, len) := fmt_u64 buf cap len (ns / 1000000000) in
  let '(buf, len) := fmt_str buf cap len dot in
  if (len <? 0) || (cap <? len) || (cap - len <? 9) then (buf, len) else
  (put_frac 9 buf (len + 9) 1 frac, len + 9).

(** ** Reading the text back *)

(** The first [len] bytes of the buffer. *)
Definition text (buf : list byte) (len : Z) : list byte := sub 0 len buf.

Definition digit_val (b : byte) : Z := byte.unsigned b - 48.

(** The number a run of decimal digits denotes. *)
Definition dec_val (acc : Z) (bs : list byte) : Z :=
  fold_left (λ v b, v * 10 + digit_val b) bs acc.

Definition is_digit (b : byte) : Prop := 48 <= byte.unsigned b <= 57.

#[export] Instance is_digit_dec b : Decision (is_digit b).
Proof. unfold is_digit. apply _. Defined.

Lemma digit_val_digit d : 0 <= d < 10 → digit_val (digit d) = d.
Proof.
  intros. unfold digit_val, digit. rewrite byte.unsigned_of_Z. unfold byte.wrap.
  rewrite Z.mod_small; lia.
Qed.

Lemma digit_is_digit d : 0 <= d < 10 → is_digit (digit d).
Proof.
  intros. pose proof (digit_val_digit d). unfold digit_val, is_digit in *. lia.
Qed.

Lemma dec_val_app acc a b : dec_val acc (a ++ b) = dec_val (dec_val acc a) b.
Proof. apply fold_left_app. Qed.

Lemma dec_val_snoc acc a b : dec_val acc (a ++ [b]) = dec_val acc a * 10 + digit_val b.
Proof. by rewrite dec_val_app. Qed.

Lemma dec_val_cons v c s : dec_val v (c :: s) = dec_val (v * 10 + digit_val c) s.
Proof. done. Qed.

Lemma dec_val_grows v s : 0 <= v → Forall is_digit s → v <= dec_val v s.
Proof.
  revert v. induction s as [|c s IH]; intros v Hv Hs; [cbn; lia|].
  inversion Hs as [|? ? Hc Hs']; subst. unfold is_digit in Hc. rewrite dec_val_cons.
  assert (0 <= digit_val c) by (unfold digit_val; lia). specialize (IH (v * 10 + digit_val c)).
  etransitivity; [|apply IH; [lia|done]]. lia.
Qed.

(** The digits of [v], most significant first. *)
Definition decimal (v : Z) : list byte := reverse (digits_rev 20 v).

Lemma digits_rev_val fuel v :
  (0 < fuel)%nat → 0 <= v < 10 ^ Z.of_nat fuel →
  dec_val 0 (reverse (digits_rev fuel v)) = v ∧ Forall is_digit (digits_rev fuel v).
Proof.
  revert v. induction fuel as [|fuel IH]; intros v Hf Hv; [lia|].
  cbn [digits_rev]. rewrite reverse_cons, dec_val_snoc.
  pose proof (Z.mod_pos_bound v 10 ltac:(lia)).
  rewrite digit_val_digit by done.
  rewrite Nat2Z.inj_succ, Z.pow_succ_r in Hv by lia.
  destruct (Z.ltb_spec 0 (v / 10)) as [Hpos|Hpos].
  - destruct (decide (fuel = 0)%nat) as [->|].
    { cbn in Hv. exfalso. Z.div_mod_to_equations. lia. }
    destruct (IH (v / 10)) as [-> Hd]; [lia|Z.div_mod_to_equations; lia|].
    split; [Z.div_mod_to_equations; lia|]. constructor; [by apply digit_is_digit|done].
  - cbn. split; [Z.div_mod_to_equations; lia|]. repeat constructor; by apply digit_is_digit.
Qed.

Lemma digits_rev_length fuel v : (length (digits_rev fuel v) <= fuel)%nat.
Proof.
  revert v. induction fuel as [|fuel IH]; intros v; [done|]. cbn.
  case_match; cbn; [specialize (IH (v / 10)); lia|lia].
Qed.

Lemma digits_rev_nonempty v : (0 < length (digits_rev 20 v))%nat.
Proof. cbn. lia. Qed.

Lemma decimal_val v : 0 <= v < 2 ^ 64 → dec_val 0 (decimal v) = v.
Proof. intros. apply digits_rev_val; [lia|]. change (10 ^ Z.of_nat 20) with (10^20). lia. Qed.

Lemma decimal_digits v : 0 <= v < 2 ^ 64 → Forall is_digit (decimal v).
Proof.
  intros. apply Forall_reverse. apply digits_rev_val; [lia|].
  change (10 ^ Z.of_nat 20) with (10^20). lia.
Qed.

(** ** What each formatter leaves in the buffer *)

Lemma put_rev_blit n buf len tmp :
  (n <= length tmp)%nat → 0 <= len → len + Z.of_nat n <= zlen buf →
  put_rev buf len tmp n = (blit buf len (reverse (take n tmp)), len + Z.of_nat n).
Proof.
  revert buf len. induction n as [|n IH]; intros buf len Hn Hl Hc.
  { change (reverse (take 0 tmp)) with (@nil byte). by rewrite blit_nil, Z.add_0_r. }
  cbn [put_rev]. rewrite IH by (len; lia).
  destruct (lookup_lt_is_Some_2 tmp n) as [x Hx]; [lia|].
  rewrite (take_S_r tmp n x), reverse_app by done.
  change (reverse [x]) with [x]. cbn [app].
  rewrite (nth_lookup_Some _ _ _ _ Hx). f_equal; [|lia].
  apply blit_cons; [done|]. rewrite length_reverse. len.
Qed.

(** Appending to the text. *)
Lemma text_blit buf len s :
  0 <= len → len + zlen s <= zlen buf →
  text (blit buf len s) (len + zlen s) = text buf len ++ s.
Proof.
  intros. unfold text. rewrite sub_split, Z.add_0_l by lia.
  rewrite sub_blit_out by lia. by rewrite sub_blit_same by lia.
Qed.

(** The contract the three share: with room for [s] the text grows by [s],
    without it nothing changes. *)
Definition appends (buf : list byte) (cap len : Z) (s : list byte)
    (r : list byte * Z) : Prop :=
  if zlen s <=? cap - len
  then r.2 = len + zlen s ∧ text r.1 r.2 = text buf len ++ s ∧ length r.1 = length buf
  else r = (buf, len).

Lemma blit_appends buf cap len s :
  zlen buf = cap → 0 <= len → zlen s <= cap - len →
  appends buf cap len s (blit buf len s, len + zlen s).
Proof.
  intros Hb Hl Hs. unfold appends. rewrite (proj2 (Z.leb_le _ _)) by lia.
  split_and!; [done|apply text_blit; cbn; lia|apply length_blit; lia].
Qed.

Lemma fmt_str_appends buf cap len s :
  zlen buf = cap → 0 <= len <= cap → appends buf cap len s (fmt_str buf cap len s).
Proof.
  intros Hb Hl. unfold fmt_str. rewrite (proj2 (Z.ltb_ge len 0)), (proj2 (Z.ltb_ge cap len)) by lia.
  cbn [orb]. destruct (Z.ltb_spec (cap - len) (zlen s)) as [H|H].
  - unfold appends. by rewrite (proj2 (Z.leb_gt _ _)) by lia.
  - rewrite mem_copy_blit, sub_all by lia. by apply blit_appends; lia.
Qed.

Lemma fmt_u64_appends buf cap len v :
  zlen buf = cap → 0 <= len <= cap → appends buf cap len (decimal v) (fmt_u64 buf cap len v).
Proof.
  intros Hb Hl. unfold fmt_u64. rewrite (proj2 (Z.ltb_ge len 0)), (proj2 (Z.ltb_ge cap len)) by lia.
  cbn [orb]. unfold decimal. destruct (Z.ltb_spec (cap - len) (zlen (digits_rev 20 v))) as [H|H].
  - unfold appends. rewrite length_reverse. by rewrite (proj2 (Z.leb_gt _ _)) by lia.
  - rewrite put_rev_blit, take_ge by lia.
    replace (zlen (digits_rev 20 v)) with (zlen (reverse (digits_rev 20 v)))
      by by rewrite length_reverse.
    apply blit_appends; rewrite ?length_reverse; lia.
Qed.

(** Nine digits, zero-padded. *)
Fixpoint frac_digits (n : nat) (frac : Z) : list byte :=
  match n with
  | O => []
  | S n => frac_digits n (frac / 10) ++ [digit (frac mod 10)]
  end.

Lemma length_frac_digits n frac : length (frac_digits n frac) = n.
Proof. revert frac. induction n; intros; cbn; [done|]. rewrite length_app, IHn. cbn. lia. Qed.

Lemma frac_digits_val n frac acc :
  0 <= frac < 10 ^ Z.of_nat n →
  dec_val acc (frac_digits n frac) = acc * 10 ^ Z.of_nat n + frac.
Proof.
  revert frac acc. induction n as [|n IH]; intros frac acc Hf; cbn [frac_digits].
  { cbn in *. lia. }
  rewrite Nat2Z.inj_succ, Z.pow_succ_r in * by lia.
  pose proof (Z.mod_pos_bound frac 10 ltac:(lia)).
  rewrite dec_val_snoc, digit_val_digit, IH by (done || Z.div_mod_to_equations; lia).
  Z.div_mod_to_equations. nia.
Qed.

Lemma put_frac_blit n buf end_ i frac :
  1 <= i → i + Z.of_nat n - 1 <= end_ → end_ <= zlen buf →
  put_frac n buf end_ i frac = blit buf (end_ - i - Z.of_nat n + 1) (frac_digits n frac).
Proof.
  revert buf i frac. induction n as [|n IH]; intros buf i frac Hi Hn Hc.
  { cbn. by rewrite blit_nil. }
  cbn [put_frac frac_digits]. rewrite IH by (len; lia).
  pose proof (length_frac_digits n (frac / 10)) as Hfl. list_ext j.
  rewrite !lookup_blit by (len; lia). rewrite lookup_zset by lia. rewrite length_app, Hfl.
  cbn [length]. repeat case_decide; try lia; try done.
  - rewrite lookup_app_l by lia. f_equal. lia.
  - rewrite lookup_app_r by lia. by replace (j - _ - _)%nat with 0%nat by lia.
Qed.

(** ** Properties *)

Module FmtProps.

(** Decimal text: [fmt_u64] either appends digits that read back as the
    value it was given, or, when they do not fit, changes nothing; it never
    writes outside the room it was told about. *)
Theorem fmt_u64_roundtrip (buf : list byte) (cap len v : Z)
    (Hbuf : zlen buf = cap) (Hlen : 0 <= len <= cap) (Hv : 0 <= v < 2 ^ 64) :
  let '(buf', len') := fmt_u64 buf cap len v in
  length buf' = length buf ∧ len <= len' <= cap ∧
  ((buf', len') = (buf, len) ∧ cap - len < zlen (decimal v) ∨
   ∃ ds, text buf' len' = text buf len ++ ds ∧ Forall is_digit ds ∧ dec_val 0 ds = v).
Proof.
  pose proof (fmt_u64_appends buf cap len v Hbuf Hlen) as H. unfold appends in H.
  destruct (fmt_u64 buf cap len v) as [buf' len']. cbn [fst snd] in H.
  destruct (Z.leb_spec (zlen (decimal v)) (cap - len)).
  - destruct H as (-> & Ht & Hl). split_and!; [done|lia..|]. right. exists (decimal v).
    split_and!; [done|by apply decimal_digits|by apply decimal_val].
  - apply pair_equal_spec in H as [-> ->]. split_and!; [done|lia..|]. left. auto.
Qed.

Lemma fmt_u64_roundtrip_witness :
  ∃ ds, text (fmt_u64 (zeros 8) 8 2 7400).1 (fmt_u64 (zeros 8) 8 2 7400).2
        = text (zeros 8) 2 ++ ds ∧ Forall is_digit ds ∧ dec_val 0 ds = 7400.
Proof.
  pose proof (fmt_u64_roundtrip (zeros 8) 8 2 7400 ltac:(reflexivity) ltac:(lia) ltac:(lia)) as H.
  destruct (fmt_u64 (zeros 8) 8 2 7400) as [b l] eqn:E.
  destruct H as (_ & _ & [[H _]|H]); [|exact H].
  rewrite H in E. vm_compute in E. discriminate E.
Defined.

(** Nanoseconds as seconds: with room for it, [fmt_ns_seconds] appends the
    whole seconds, a point and exactly nine digits, and the number those
    digits make without the point is the nanosecond count: no digit is lost. *)
Theorem fmt_ns_seconds_exact (buf : list byte) (cap len ns : Z)
    (Hbuf : zlen buf = cap) (Hlen : 0 <= len)
    (Hroom : len + zlen (decimal (ns / 1000000000)) + 10 <= cap) (Hns : 0 <= ns < 2 ^ 64) :
  ∃ secs frac,
    let '(buf', len') := fmt_ns_seconds buf cap len ns in
    text buf' len' = text buf len ++ secs ++ dot ++ frac ∧
    length frac = 9%nat ∧ dec_val 0 (secs ++ frac) = ns.
Proof.
  exists (decimal (ns / 1000000000)), (frac_digits 9 (ns mod 1000000000)).
  unfold fmt_ns_seconds.
  pose proof (fmt_u64_appends buf cap len (ns / 1000000000) Hbuf ltac:(lia)) as H1.
  unfold appends in H1. rewrite (proj2 (Z.leb_le _ _)) in H1 by lia.
  destruct (fmt_u64 buf cap len _) as [b1 l1]. cbn [fst snd] in H1. destruct H1 as (-> & Ht1 & Hb1).
  set (d := decimal (ns / 1000000000)) in *.
  pose proof (fmt_str_appends b1 cap (len + zlen d) dot ltac:(lia) ltac:(lia)) as H2.
  unfold appends in H2. change (zlen dot) with 1 in *.
  rewrite (proj2 (Z.leb_le _ _)) in H2 by lia.
  destruct (fmt_str b1 cap _ dot) as [b2 l2]. cbn [fst snd] in H2.
  destruct H2 as (-> & Ht2 & Hb2).
  rewrite !(proj2 (Z.ltb_ge _ _)) by lia. cbn [orb].
  pose proof (length_frac_digits 9 (ns mod 1000000000)) as Hfl.
  rewrite put_frac_blit by lia. split_and!; [|done|].
  - replace (len + zlen d + 1 + 9 - 1 - Z.of_nat 9 + 1) with (len + zlen d + 1) by lia.
    pose proof (text_blit b2 (len + zlen d + 1) (frac_digits 9 (ns mod 1000000000))
                  ltac:(lia) ltac:(lia)) as Ht3.
    rewrite Hfl in Ht3. change (Z.of_nat 9) with 9 in Ht3. rewrite Ht3, Ht2, Ht1.
    by rewrite <-!app_assoc.
  - unfold d. rewrite dec_val_app, decimal_val by (Z.div_mod_to_equations; lia).
    rewrite frac_digits_val by (by apply Z.mod_pos_bound).
    change (10 ^ Z.of_nat 9) with 1000000000. Z.div_mod_to_equations. lia.
Qed.

Lemma fmt_ns_seconds_exact_witness :
  ∃ secs frac,
    let '(buf', len') := fmt_ns_seconds (zeros 16) 16 0 1000000007 in
    text buf' len' = text (zeros 16) 0 ++ secs ++ dot ++ frac ∧
    length frac = 9%nat ∧ dec_val 0 (secs ++ frac) = 1000000007.
Proof.
  apply (fmt_ns_seconds_exact (zeros 16) 16 0 1000000007); [reflexivity|lia|vm_compute; discriminate|lia].
Defined.

End FmtProps.
