(* ===== verification/Msg.v ===== *)
(** * The wire protocol (src/proto/msg.h)

    The 32-byte frame header and the fixed payload layouts, each with the
    codec the C code has: the bytes of the struct, copied.  A payload
    pointer that may be NULL is an [option]. *)

From S2P Require Import Prelude Core.

Definition MSG_MAGIC : Z := 0x4D534756.
Definition MSG_VERSION : Z := 2.
Definition MSG_VERSION_MIN : Z := 2.
Definition MSG_HEADER_SIZE : Z := 32.
Definition MSG_MAX_PAYLOAD : Z := 1024 * 1024.
Definition MSG_MAX_NAME : Z := 64.
Definition MSG_MAX_ERR_TEXT : Z := 64.

(** ** Verbs, record types, error codes and flags *)

Definition MSG_OP_WRITE : Z := 1.
Definition MSG_OP_READ : Z := 2.
Definition MSG_OP_DELETE : Z := 3.
Definition MSG_OP_SUBSCRIBE : Z := 4.
Definition MSG_OP_NOTIFY : Z := 5.
Definition MSG_OP_ACK : Z := 6.
Definition MSG_OP_ERR : Z := 7.
Definition MSG_OP_PING : Z := 8.
Definition MSG_OP_PONG : Z := 9.
Definition MSG_OP_HELLO : Z := 10.
Definition MSG_OP_REPL_START : Z := 11.
Definition MSG_OP_REPL_DATA : Z := 12.
Definition MSG_OP_REPL_ACK : Z := 13.
Definition MSG_OP_MIN : Z := MSG_OP_WRITE.
Definition MSG_OP_MAX : Z := MSG_OP_REPL_ACK.

Definition MSG_RECORD_NONE : Z := 0.

Definition MSG_ERR_OK : Z := 0.
Definition MSG_ERR_BAD_MAGIC : Z := 1.
Definition MSG_ERR_BAD_VERSION : Z := 2.
Definition MSG_ERR_BAD_OP : Z := 3.
Definition MSG_ERR_PAYLOAD_TOO_BIG : Z := 4.
Definition MSG_ERR_NOT_LEADER : Z := 5.
Definition MSG_ERR_BEHIND : Z := 6.
Definition MSG_ERR_NO_SESSION : Z := 7.
Definition MSG_ERR_SESSION_UNKNOWN : Z := 8.
Definition MSG_ERR_UNSUPPORTED : Z := 9.
Definition MSG_ERR_NO_REPLICAS : Z := 10.
Definition MSG_ERR_NO_HISTORY : Z := 11.
Definition MSG_ERR_STORAGE : Z := 12.

Definition MSG_FLAG_ACK_REQ : Z := 1.
Definition MSG_FLAG_SYNC : Z := 2.
Definition MSG_FLAG_REPLICATED : Z := 4.
Definition MSG_FLAG_ALLOW_DEGRADED : Z := 8.
Definition MSG_FLAG_DEGRADED : Z := 16.
Definition MSG_FLAG_LAST : Z := 32.
Definition MSG_FLAG_ALL_KEYS : Z := 64.

(** [flags & bit] as a condition. *)
Definition has_flag (flags bit : Z) : bool := negb (Z.land flags bit =? 0).

(** ** The header *)

Record msg_header_t := Header {
  h_magic : Z; h_version : Z; h_flags : Z; h_op : Z; h_record_type : Z;
  h_payload_len : Z; h_partition_key : Z; h_sequence : Z }.

(** Every field within its width. *)
Definition header_ok (h : msg_header_t) : Prop :=
  0 <= h_magic h < 2 ^ 32 ∧ 0 <= h_version h < 2 ^ 16 ∧ 0 <= h_flags h < 2 ^ 16 ∧
  0 <= h_op h < 2 ^ 16 ∧ 0 <= h_record_type h < 2 ^ 16 ∧ 0 <= h_payload_len h < 2 ^ 32 ∧
  0 <= h_partition_key h < 2 ^ 64 ∧ 0 <= h_sequence h < 2 ^ 64.

(** The struct's bytes, and the struct those bytes are. *)
Definition header_bytes (h : msg_header_t) : list byte :=
  le_split 4 (h_magic h) ++ le_split 2 (h_version h) ++ le_split 2 (h_flags h) ++
  le_split 2 (h_op h) ++ le_split 2 (h_record_type h) ++ le_split 4 (h_payload_len h) ++
  le_split 8 (h_partition_key h) ++ le_split 8 (h_sequence h).

Definition header_of (m : list byte) : msg_header_t :=
  Header (get 0 4 m) (get 4 2 m) (get 6 2 m) (get 8 2 m) (get 10 2 m) (get 12 4 m)
    (get 16 8 m) (get 24 8 m).

Definition msg_decode_header (buf : list byte) (buf_len : Z) : option msg_header_t :=
  if buf_len <? MSG_HEADER_SIZE then None else
  let hdr := header_of (sub 0 MSG_HEADER_SIZE buf) in
  if negb (h_magic hdr =? MSG_MAGIC) then None else Some hdr.

Definition msg_encode_header (buf : list byte) (buf_len : Z) (hdr : msg_header_t)
    : option (list byte) :=
  if buf_len <? MSG_HEADER_SIZE then None else Some (blit buf 0 (header_bytes hdr)).

Definition msg_header_new (op record_type flags payload_len partition_key sequence : Z)
    : msg_header_t :=
  Header MSG_MAGIC MSG_VERSION flags op record_type payload_len partition_key sequence.

Definition msg_header_valid (hdr : msg_header_t) : bool :=
  if negb (h_magic hdr =? MSG_MAGIC) then false else
  if (h_version hdr <? MSG_VERSION_MIN) || (MSG_VERSION <? h_version hdr) then false else
  if (h_op hdr <? MSG_OP_MIN) || (MSG_OP_MAX <? h_op hdr) then false else
  if MSG_MAX_PAYLOAD <? h_payload_len hdr then false else true.

Definition msg_complete_size (buf : list byte) (buf_len : Z) : Z :=
  match msg_decode_header buf buf_len with
  | None => 0
  | Some hdr =>
      let total := i32 (MSG_HEADER_SIZE + i32 (h_payload_len hdr)) in
      if buf_len <? total then 0 else total
  end.

(** The payload's offset from the start of the message. *)
Definition msg_payload_ptr (buf_len : Z) : option Z :=
  if buf_len <? MSG_HEADER_SIZE then None else Some MSG_HEADER_SIZE.

(** ** Payload layouts *)

Record msg_hello_t := Hello { he_session : Z; he_name_len : Z; he_pad0 : Z; he_pad1 : Z }.
Record msg_ack_t := Ack { ak_client_seq : Z }.
Record msg_err_payload_t := ErrPayload { ep_code : Z; ep_text_len : Z; ep_pad : Z }.
Record msg_read_t := ReadReq { rd_min_seq : Z }.
Record msg_subscribe_t := SubReq { sb_min_seq : Z; sb_from_seq : Z }.

Definition MSG_HELLO_SIZE : Z := 16.
Definition MSG_ACK_SIZE : Z := 8.
Definition MSG_ERR_SIZE : Z := 8.
Definition MSG_READ_SIZE : Z := 8.
Definition MSG_SUBSCRIBE_SIZE : Z := 16.

Definition msg_payload_get (buf : option (list byte)) (buf_len size : Z) : option (list byte) :=
  match buf with
  | None => None
  | Some b => if buf_len <? size then None else Some (sub 0 size b)
  end.

Definition msg_payload_put (buf : option (list byte)) (buf_len : Z) (inp : list byte)
    (size : Z) : option (list byte) :=
  match buf with
  | None => None
  | Some b => if buf_len <? size then None else Some (blit b 0 (sub 0 size inp))
  end.

Definition hello_bytes (h : msg_hello_t) : list byte :=
  le_split 8 (he_session h) ++ le_split 2 (he_name_len h) ++ le_split 2 (he_pad0 h) ++
  le_split 4 (he_pad1 h).
Definition ack_bytes (a : msg_ack_t) : list byte := le_split 8 (ak_client_seq a).
Definition err_bytes (p : msg_err_payload_t) : list byte :=
  le_split 2 (ep_code p) ++ le_split 2 (ep_text_len p) ++ le_split 4 (ep_pad p).
Definition read_bytes (r : msg_read_t) : list byte := le_split 8 (rd_min_seq r).
Definition subscribe_bytes (s : msg_subscribe_t) : list byte :=
  le_split 8 (sb_min_seq s) ++ le_split 8 (sb_from_seq s).

Definition msg_decode_hello (buf : option (list byte)) (buf_len : Z) : option msg_hello_t :=
  (λ m, Hello (get 0 8 m) (get 8 2 m) (get 10 2 m) (get 12 4 m))
    <$> msg_payload_get buf buf_len MSG_HELLO_SIZE.
Definition msg_encode_hello (buf : option (list byte)) (buf_len : Z) (h : msg_hello_t) :=
  msg_payload_put buf buf_len (hello_bytes h) MSG_HELLO_SIZE.

Definition msg_decode_ack (buf : option (list byte)) (buf_len : Z) : option msg_ack_t :=
  (λ m, Ack (get 0 8 m)) <$> msg_payload_get buf buf_len MSG_ACK_SIZE.
Definition msg_encode_ack (buf : option (list byte)) (buf_len : Z) (a : msg_ack_t) :=
  msg_payload_put buf buf_len (ack_bytes a) MSG_ACK_SIZE.

Definition msg_decode_err (buf : option (list byte)) (buf_len : Z) : option msg_err_payload_t :=
  (λ m, ErrPayload (get 0 2 m) (get 2 2 m) (get 4 4 m))
    <$> msg_payload_get buf buf_len MSG_ERR_SIZE.
Definition msg_encode_err (buf : option (list byte)) (buf_len : Z) (p : msg_err_payload_t) :=
  msg_payload_put buf buf_len (err_bytes p) MSG_ERR_SIZE.

Definition msg_decode_read (buf : option (list byte)) (buf_len : Z) : option msg_read_t :=
  (λ m, ReadReq (get 0 8 m)) <$> msg_payload_get buf buf_len MSG_READ_SIZE.
Definition msg_encode_read (buf : option (list byte)) (buf_len : Z) (r : msg_read_t) :=
  msg_payload_put buf buf_len (read_bytes r) MSG_READ_SIZE.

Definition msg_decode_subscribe (buf : option (list byte)) (buf_len : Z)
    : option msg_subscribe_t :=
  (λ m, SubReq (get 0 8 m) (get 8 8 m)) <$> msg_payload_get buf buf_len MSG_SUBSCRIBE_SIZE.
Definition msg_encode_subscribe (buf : option (list byte)) (buf_len : Z)
    (s : msg_subscribe_t) :=
  msg_payload_put buf buf_len (subscribe_bytes s) MSG_SUBSCRIBE_SIZE.

Definition msg_hello_valid (h : msg_hello_t) (payload_len : Z) : bool :=
  if payload_len <? MSG_HELLO_SIZE then false else
  if MSG_MAX_NAME <? he_name_len h then false else
  if negb (he_name_len h =? payload_len - MSG_HELLO_SIZE) then false else true.

(** The name's offset in the payload. *)
Definition msg_hello_name (payload : option (list byte)) (payload_len : Z) : option Z :=
  match payload with
  | None => None
  | Some _ => if payload_len <=? MSG_HELLO_SIZE then None else Some MSG_HELLO_SIZE
  end.

Definition msg_err_valid (p : msg_err_payload_t) (payload_len : Z) : bool :=
  if payload_len <? MSG_ERR_SIZE then false else
  if MSG_MAX_ERR_TEXT <? ep_text_len p then false else
  if negb (ep_text_len p =? payload_len - MSG_ERR_SIZE) then false else true.

Definition msg_err_text (payload : option (list byte)) (payload_len : Z) : option Z :=
  match payload with
  | None => None
  | Some _ => if payload_len <=? MSG_ERR_SIZE then None else Some MSG_ERR_SIZE
  end.

(** ** Lemmas *)

Lemma length_header_bytes h : length (header_bytes h) = 32%nat.
Proof. unfold header_bytes. len. Qed.
#[export] Hint Rewrite length_header_bytes : len.

Lemma header_of_bytes h m : header_ok h → header_of (header_bytes h ++ m) = h.
Proof.
  intros (?&?&?&?&?&?&?&?). unfold header_of, header_bytes. rewrite <-!app_assoc.
  destruct h as [a b c d e f g i]; cbn [h_magic h_version h_flags h_op h_record_type
    h_payload_len h_partition_key h_sequence] in *. f_equal; get_field.
Qed.

Lemma header_bytes_of m : length m = 32%nat → header_bytes (header_of m) = m.
Proof.
  intros Hl. unfold header_bytes, header_of. cbn [h_magic h_version h_flags h_op h_record_type
    h_payload_len h_partition_key h_sequence].
  change 8%nat with (Z.to_nat 8). change 4%nat with (Z.to_nat 4). change 2%nat with (Z.to_nat 2).
  rewrite !le_split_get by lia.
  transitivity (sub 0 (4 + (2 + (2 + (2 + (2 + (4 + (8 + 8))))))) m); [|apply sub_all; lia].
  rewrite !sub_split by lia. done.
Qed.

Lemma header_of_ok m : header_ok (header_of m).
Proof.
  unfold header_ok, header_of. cbn [h_magic h_version h_flags h_op h_record_type
    h_payload_len h_partition_key h_sequence].
  split_and!; first [apply (get_range _ 4); lia | apply (get_range _ 2); lia
    | apply (get_range _ 8); lia].
Qed.

Lemma header_of_app m r : (32 <= length m)%nat → header_of (m ++ r) = header_of m.
Proof. intros. unfold header_of. by rewrite !get_app_l by lia. Qed.

Lemma header_of_sub o l m : 0 <= o → 32 <= l → header_of (sub o l m) = header_of (sub o 32 m).
Proof. intros. unfold header_of. by rewrite !get_sub by lia. Qed.

Lemma decode_header_some buf buf_len h :
  msg_decode_header buf buf_len = Some h ↔
  32 <= buf_len ∧ h = header_of (sub 0 32 buf) ∧ h_magic h = MSG_MAGIC.
Proof.
  unfold msg_decode_header, MSG_HEADER_SIZE. destruct (Z.ltb_spec buf_len 32).
  { split; [done|lia]. }
  destruct (Z.eqb_spec (h_magic (header_of (sub 0 32 buf))) MSG_MAGIC); cbn [negb].
  - split; [intros [= <-]; done|]. by intros (_ & -> & _).
  - split; [done|]. by intros (_ & -> & ?).
Qed.

(** What a TRUE from the validator says. *)
Lemma header_valid_iff h :
  msg_header_valid h = true ↔
  h_magic h = MSG_MAGIC ∧ MSG_VERSION_MIN <= h_version h <= MSG_VERSION ∧
  MSG_OP_MIN <= h_op h <= MSG_OP_MAX ∧ h_payload_len h <= MSG_MAX_PAYLOAD.
Proof.
  unfold msg_header_valid. destruct (Z.eqb_spec (h_magic h) MSG_MAGIC); cbn [negb];
    [|by split; [|intros [? _]]].
  repeat match goal with
  | |- context [Z.ltb ?a ?b] => destruct (Z.ltb_spec a b); cbn [orb]
  end; split; first [done | intros (_ & ? & ? & ?); lia | intros _; split_and!; (done || lia)].
Qed.

Module MsgProps.

(** The header codec: what is encoded into a buffer decodes to itself, the
    rest of the buffer is untouched, and decoding loses nothing: the bytes of
    a decoded header are the bytes it was decoded from. *)
Theorem header_codec_roundtrip (buf : list byte) (h : msg_header_t)
    (Hok : header_ok h) (Hmagic : h_magic h = MSG_MAGIC) (Hlen : 32 <= zlen buf) :
  (∃ buf', msg_encode_header buf (zlen buf) h = Some buf' ∧
     length buf' = length buf ∧ sub 32 (zlen buf - 32) buf' = sub 32 (zlen buf - 32) buf ∧
     msg_decode_header buf' (zlen buf') = Some h) ∧
  ∀ h', msg_decode_header buf (zlen buf) = Some h' → header_bytes h' = sub 0 32 buf.
Proof.
  split.
  - exists (blit buf 0 (header_bytes h)). unfold msg_encode_header, MSG_HEADER_SIZE.
    rewrite (proj2 (Z.ltb_ge _ _)) by lia.
    assert (length (blit buf 0 (header_bytes h)) = length buf) as Hb
      by (apply length_blit; len; lia).
    split_and!; [done..| |].
    + apply sub_blit_out; len; lia.
    + apply decode_header_some. rewrite Hb. split; [done|].
      assert (sub 0 32 (blit buf 0 (header_bytes h)) = header_bytes h) as ->.
      { pose proof (sub_blit_same buf 0 (header_bytes h)) as Hs.
        rewrite length_header_bytes in Hs. apply Hs; lia. }
      pose proof (header_of_bytes h [] Hok) as He. rewrite app_nil_r in He. by rewrite He.
  - intros h' (Hl & -> & _)%decode_header_some. apply header_bytes_of. len.
Qed.

Lemma header_codec_roundtrip_witness :
  ∃ buf', msg_encode_header (zeros 40) 40 (msg_header_new MSG_OP_WRITE 0 3 5 7 9) = Some buf' ∧
    length buf' = 40%nat ∧ sub 32 8 buf' = sub 32 8 (zeros 40) ∧
    msg_decode_header buf' (zlen buf') = Some (msg_header_new MSG_OP_WRITE 0 3 5 7 9).
Proof.
  refine (proj1 (header_codec_roundtrip (zeros 40) (msg_header_new MSG_OP_WRITE 0 3 5 7 9) _ _ _)).
  - vm_compute. repeat split; first [reflexivity | discriminate].
  - reflexivity.
  - rewrite length_zeros. lia.
Defined.

(** A complete frame: on a header the validator accepts, the size reported
    is the frame's own, exactly when the buffer holds all of it. *)
Theorem complete_size_exact (buf : list byte) (buf_len : Z) (h : msg_header_t)
    (Hd : msg_decode_header buf buf_len = Some h) (Hv : msg_header_valid h = true) :
  msg_complete_size buf buf_len
  = if 32 + h_payload_len h <=? buf_len then 32 + h_payload_len h else 0.
Proof.
  unfold msg_complete_size. rewrite Hd. apply header_valid_iff in Hv as (_ & _ & _ & Hp).
  apply decode_header_some in Hd as (_ & -> & _).
  pose proof (header_of_ok (sub 0 32 buf)) as (_ & _ & _ & _ & _ & Hp0 & _).
  unfold MSG_HEADER_SIZE, MSG_MAX_PAYLOAD in *. rewrite (i32_id (h_payload_len _)) by lia.
  rewrite i32_id by lia. destruct (Z.ltb_spec buf_len (32 + h_payload_len (header_of (sub 0 32 buf))));
    [rewrite (proj2 (Z.leb_gt _ _))|rewrite (proj2 (Z.leb_le _ _))]; done || lia.
Qed.

Lemma complete_size_exact_witness :
  msg_complete_size (header_bytes (msg_header_new MSG_OP_PING 0 0 0 0 0)) 32 = 32.
Proof.
  rewrite (complete_size_exact _ _ (msg_header_new MSG_OP_PING 0 0 0 0 0));
    vm_compute; reflexivity.
Defined.

End MsgProps.

Module MsgFindings.

(** The size is computed from a length nothing has checked: a length whose
    top bit is set makes the frame shorter than its own header, so the
    function reports a complete message of 31 bytes. *)
Lemma complete_size_unchecked_length :
  msg_complete_size (header_bytes (msg_header_new MSG_OP_PING 0 0 (2 ^ 32 - 1) 0 0)) 32 = 31.
Proof. vm_compute. reflexivity. Qed.

End MsgFindings.
