(* ===== verification/Conn.v ===== *)
(** * The connection state machine (src/proto/conn.h, conn.c)

    Bytes in, frames and control actions out.  The receive buffer is the
    list of its [c_buf_cap] bytes and a frame action names its payload by
    the offset it has there, as the C pointer does, so that what compaction
    does to it can be stated.

    [Stream] is the abstract specification: a parser of the byte stream
    that knows nothing of buffers, capacities or batches.  [conn_feed]
    refines it whatever the sizes of the chunks the bytes arrive in and of
    the batches the actions are taken in. *)

From S2P Require Import Prelude Core Msg.
Import Core.Mem.

Definition CONN_MODE_CLIENT : Z := 0.
Definition CONN_MODE_INTERNAL : Z := 1.

Inductive conn_action_t :=
| CONN_ACTION_FRAME (header : msg_header_t) (payload : option Z) (payload_len : Z)
| CONN_ACTION_REPLY_ERR (code sequence : Z)
| CONN_ACTION_CLOSE.

Record conn_t := Conn {
  c_buf : list byte; c_buf_cap : Z; c_buf_len : Z; c_buf_off : Z;
  c_closed : bool; c_mode : Z; c_opened : bool }.

#[export] Instance eta_conn : Eta conn_t := λ c,
  Conn (c_buf c) (c_buf_cap c) (c_buf_len c) (c_buf_off c) (c_closed c) (c_mode c) (c_opened c).

Definition conn_init (buf : list byte) (buf_cap mode : Z) : conn_t :=
  Conn buf buf_cap 0 0 false mode false.

Definition conn_compact (c : conn_t) : conn_t :=
  if c_buf_off c <=? 0 then c else
  let tail := c_buf_len c - c_buf_off c in
  let buf := if 0 <? tail then mem_copy_within (c_buf c) 0 (c_buf_off c) tail else c_buf c in
  c <| c_buf := buf |> <| c_buf_len := tail |> <| c_buf_off := 0 |>.

Definition conn_recv_append (c : conn_t) (src : list byte) (n : Z) : Z * conn_t :=
  if c_closed c || (n <=? 0) then (0, c) else
  let c := conn_compact c in
  let space := c_buf_cap c - c_buf_len c in
  let take := if n <? space then n else space in
  if take <=? 0 then (0, c) else
  (take, c <| c_buf := mem_copy (c_buf c) (c_buf_len c) src 0 take |>
           <| c_buf_len := c_buf_len c + take |>).

Definition conn_recv_space (c : conn_t) : Z := c_buf_cap c - c_buf_len c.

(** The offset a receive reads into. *)
Definition conn_recv_ptr (c : conn_t) : Z := c_buf_len c.

Definition conn_recv_commit (c : conn_t) (n : Z) : Z * conn_t :=
  if c_closed c || (n <=? 0) then (0, c) else
  let space := c_buf_cap c - c_buf_len c in
  let n := if space <? n then space else n in
  (n, c <| c_buf_len := c_buf_len c + n |>).

(** [room] is how many actions the output still takes. *)
Definition emit_fatal (room : nat) (code echo_seq : Z) : list conn_action_t :=
  match room with
  | O => []
  | S O => [CONN_ACTION_REPLY_ERR code echo_seq]
  | S (S _) => [CONN_ACTION_REPLY_ERR code echo_seq; CONN_ACTION_CLOSE]
  end.

Definition opens (h : msg_header_t) : bool :=
  (h_op h =? MSG_OP_HELLO) || (h_op h =? MSG_OP_REPL_START).

(** The loop of [conn_feed].  It stops when [room] runs out, so the
    recursion is on it; the result is the actions and the connection with
    its parse position moved on. *)
Fixpoint feed_loop (room : nat) (c : conn_t) (cursor : Z) : list conn_action_t * conn_t :=
  let stop := ([], c <| c_buf_off := cursor |>) in
  let fatal code seq :=
    (emit_fatal room code seq, c <| c_closed := true |> <| c_buf_off := c_buf_len c |>) in
  match room with
  | O => stop
  | S room' =>
      let avail := c_buf_len c - cursor in
      if avail <? MSG_HEADER_SIZE then stop else
      let hdr := header_of (sub cursor MSG_HEADER_SIZE (c_buf c)) in
      if negb (h_magic hdr =? MSG_MAGIC) then fatal MSG_ERR_BAD_MAGIC 0 else
      if (h_version hdr <? MSG_VERSION_MIN) || (MSG_VERSION <? h_version hdr)
      then fatal MSG_ERR_BAD_VERSION (h_sequence hdr) else
      if (h_op hdr <? MSG_OP_MIN) || (MSG_OP_MAX <? h_op hdr)
      then fatal MSG_ERR_BAD_OP (h_sequence hdr) else
      if (MSG_MAX_PAYLOAD <? h_payload_len hdr)
         || (u32 (c_buf_cap c - MSG_HEADER_SIZE) <? h_payload_len hdr)
      then fatal MSG_ERR_PAYLOAD_TOO_BIG (h_sequence hdr) else
      if (c_mode c =? CONN_MODE_CLIENT)
         && ((opens hdr && c_opened c) || (negb (opens hdr) && negb (c_opened c)))
      then fatal MSG_ERR_NO_SESSION (h_sequence hdr) else
      let total := MSG_HEADER_SIZE + h_payload_len hdr in
      if avail <? total then stop else
      let frame := CONN_ACTION_FRAME hdr
        (if 0 <? h_payload_len hdr then Some (cursor + MSG_HEADER_SIZE) else None)
        (h_payload_len hdr) in
      let '(acts, c') :=
        feed_loop room' (if opens hdr then c <| c_opened := true |> else c) (cursor + total) in
      (frame :: acts, c')
  end.

Definition conn_feed (c : conn_t) (out_cap : Z) : list conn_action_t * conn_t :=
  if c_closed c || (out_cap <=? 0) then ([], c)
  else feed_loop (Z.to_nat out_cap) c (c_buf_off c).

(** ** The abstract stream parser *)

Module Stream.

(** What the front of the stream is. *)
Inductive verdict :=
| Need                                   (* more bytes decide *)
| Bad (code sequence : Z)
| Good (h : msg_header_t) (total : Z).

(** [cap] is the largest frame the receiver can hold, [ordered] whether the
    opening-frame rule applies, [opened] whether it has been satisfied. *)
Definition front (cap : Z) (ordered opened : bool) (bs : list byte) : verdict :=
  if zlen bs <? MSG_HEADER_SIZE then Need else
  let h := header_of bs in
  if negb (h_magic h =? MSG_MAGIC) then Bad MSG_ERR_BAD_MAGIC 0 else
  if (h_version h <? MSG_VERSION_MIN) || (MSG_VERSION <? h_version h)
  then Bad MSG_ERR_BAD_VERSION (h_sequence h) else
  if (h_op h <? MSG_OP_MIN) || (MSG_OP_MAX <? h_op h)
  then Bad MSG_ERR_BAD_OP (h_sequence h) else
  if (MSG_MAX_PAYLOAD <? h_payload_len h) || (cap <? MSG_HEADER_SIZE + h_payload_len h)
  then Bad MSG_ERR_PAYLOAD_TOO_BIG (h_sequence h) else
  if ordered && Bool.eqb (opens h) opened then Bad MSG_ERR_NO_SESSION (h_sequence h) else
  if zlen bs <? MSG_HEADER_SIZE + h_payload_len h then Need
  else Good h (MSG_HEADER_SIZE + h_payload_len h).

(** A delivered frame carries its payload's bytes. *)
Inductive event :=
| Frame (h : msg_header_t) (payload : list byte)
| Error (code sequence : Z).

(** State of the stream: open with the bytes not yet consumed, or dead. *)
Record st := St { s_rest : list byte; s_opened : bool; s_dead : bool }.

(** At most [n] events off the front. *)
Fixpoint parse (cap : Z) (ordered : bool) (n : nat) (s : st) : list event * st :=
  match n with
  | O => ([], s)
  | S n =>
      if s_dead s then ([], s) else
      match front cap ordered (s_opened s) (s_rest s) with
      | Need => ([], s)
      | Bad code q => ([Error code q], St [] (s_opened s) true)
      | Good h total =>
          let '(es, s') := parse cap ordered n
            (St (drop (Z.to_nat total) (s_rest s)) (s_opened s || opens h) false) in
          (Frame h (sub MSG_HEADER_SIZE (h_payload_len h) (s_rest s)) :: es, s')
      end
  end.

(** Everything the bytes at hand decide.  A frame uses up bytes and an error
    comes once, so this limit is never what stops it. *)
Definition parse_all (cap : Z) (ordered : bool) (s : st) : list event * st :=
  parse cap ordered (2 + length (s_rest s)) s.

(** More bytes arrive; a dead stream takes none. *)
Definition extend (s : st) (more : list byte) : st :=
  if s_dead s then s else St (s_rest s ++ more) (s_opened s) false.

End Stream.
Import Stream.

(** ** Lemmas on the specification *)

Section spec.
Context (cap : Z) (ordered : bool).

Abbreviation front := (front cap ordered).
Abbreviation parse := (parse cap ordered).

(** A verdict other than [Need] is settled by the bytes at hand. *)
Lemma front_ext opened bs more v :
  front opened bs = v → v ≠ Need → front opened (bs ++ more) = v.
Proof.
  unfold Stream.front, MSG_HEADER_SIZE. head_if as E0; [congruence|]. zb.
  rewrite (proj2 (Z.ltb_ge (zlen (bs ++ more)) 32)) by (len; lia).
  rewrite header_of_app by lia.
  do 5 (head_if as E; [done|clear E]). head_if as E; [congruence|]. zb.
  intros <- _. rewrite (proj2 (Z.ltb_ge _ _)) by (len; lia). done.
Qed.

Lemma front_good opened bs h total :
  front opened bs = Good h total →
  h = header_of bs ∧ total = 32 + h_payload_len h ∧ 0 <= h_payload_len h <= MSG_MAX_PAYLOAD ∧
  total <= cap ∧ total <= zlen bs ∧ msg_header_valid h = true ∧
  (ordered = true → opens h ≠ opened).
Proof.
  unfold Stream.front, MSG_HEADER_SIZE.
  head_if as E0; [done|]. head_if as E1; [done|]. head_if as E2; [done|].
  head_if as E3; [done|]. head_if as E4; [done|]. head_if as E5; [done|].
  head_if as E6; [done|].
  intros [= <- <-]. pose proof (header_of_ok bs) as (_ & _ & _ & _ & _ & Hp & _).
  zb. split_and!; try done; try lia.
  - apply header_valid_iff. lia.
  - intros ->. cbn [andb] in E5. by apply Bool.eqb_false_iff.
Qed.

Lemma parse_dead n s : s_dead s = true → parse n s = ([], s).
Proof. intros H. destruct n; cbn; [done|]. by rewrite H. Qed.

(** Taking [n] events and then [m] more is taking [n + m]. *)
Lemma parse_add n m s :
  parse (n + m) s =
    let '(e1, s1) := parse n s in let '(e2, s2) := parse m s1 in (e1 ++ e2, s2).
Proof.
  revert s. induction n as [|n IH]; intros s; cbn [Nat.add Stream.parse].
  { by destruct (parse m s). }
  destruct (s_dead s) eqn:Hd.
  { rewrite parse_dead by done. done. }
  destruct (front (s_opened s) (s_rest s)) eqn:Hf.
  - destruct m; cbn [Stream.parse]; [done|]. by rewrite Hd, Hf.
  - rewrite parse_dead by done. done.
  - rewrite IH. destruct (parse n _) as [e1 s1]. destruct (parse m s1) as [e2 s2]. done.
Qed.

(** Falling short of the limit means nothing more is decided. *)
Lemma parse_short n s es s' m :
  parse n s = (es, s') → (length es < n)%nat → parse m s' = ([], s').
Proof.
  revert s es. induction n as [|n IH]; intros s es; [intros _ H; lia|].
  cbn [Stream.parse]. destruct (s_dead s) eqn:Hd.
  { intros [= <- <-] _. by apply parse_dead. }
  destruct (front (s_opened s) (s_rest s)) eqn:Hf.
  - intros [= <- <-] _. destruct m; cbn; [done|]. by rewrite Hd, Hf.
  - intros [= <- <-] _. by apply parse_dead.
  - destruct (parse n _) as [e1 s1] eqn:Hp. intros [= <- <-] Hl. cbn in Hl.
    eapply IH; [done|lia].
Qed.

(** A frame uses up bytes, so no more events than bytes, and one error. *)
Lemma parse_bound n s :
  (length (parse n s).1 <= length (s_rest s) + (if s_dead s then 0 else 1))%nat.
Proof.
  revert s. induction n as [|n IH]; intros s; cbn [Stream.parse]; [cbn; lia|].
  destruct (s_dead s) eqn:Hd; [cbn; lia|].
  destruct (front (s_opened s) (s_rest s)) eqn:Hf; [cbn; lia..|].
  apply front_good in Hf as (-> & -> & Hp & _ & Hl & _).
  specialize (IH (St (drop (Z.to_nat (32 + h_payload_len (header_of (s_rest s)))) (s_rest s))
                    (s_opened s || opens (header_of (s_rest s))) false)).
  destruct (parse n _) as [es s']. cbn in *. len.
Qed.

Lemma parse_all_idle m s : parse m (parse_all cap ordered s).2 = ([], (parse_all cap ordered s).2).
Proof.
  unfold parse_all. pose proof (parse_bound (2 + length (s_rest s)) s) as Hb.
  destruct (parse _ s) as [es s'] eqn:Hp. cbn [fst snd] in *.
  apply (parse_short _ _ _ _ m Hp). destruct (s_dead s); lia.
Qed.

Lemma parse_all_enough n s :
  (2 + length (s_rest s) <= n)%nat → parse n s = parse_all cap ordered s.
Proof.
  intros Hn. pose proof (parse_all_idle (n - (2 + length (s_rest s))) s) as Hi.
  replace n with ((2 + length (s_rest s)) + (n - (2 + length (s_rest s))))%nat by lia.
  rewrite parse_add. unfold parse_all in *. destruct (parse (2 + length (s_rest s)) s) as [es s'].
  cbn [fst snd] in *. rewrite Hi. by rewrite app_nil_r.
Qed.

Lemma parse_extend n m s more e1 s1 :
  parse n s = (e1, s1) →
  parse (length e1 + m) (extend s more) =
    let '(e2, s2) := parse m (extend s1 more) in (e1 ++ e2, s2).
Proof.
  revert s e1. induction n as [|n IH]; intros s e1; cbn [Stream.parse].
  { intros [= <- <-]. cbn. by destruct (parse m (extend s more)). }
  destruct (s_dead s) eqn:Hd.
  { intros [= <- <-]. cbn. by destruct (parse m (extend s more)). }
  unfold extend at 1. rewrite Hd. destruct (front (s_opened s) (s_rest s)) as [|code q|h total] eqn:Hf.
  - intros [= <- <-]. unfold extend. rewrite Hd. cbn [length Nat.add app].
    by rewrite pair_eta.
  - intros [= <- <-]. cbn [length Nat.add Stream.parse s_dead s_opened s_rest].
    rewrite (front_ext _ _ more _ Hf) by done. unfold extend. cbn [s_dead].
    by rewrite parse_dead.
  - destruct (parse n _) as [es s'] eqn:Hp. intros [= <- <-].
    pose proof (front_good _ _ _ _ Hf) as (_ & -> & Hp0 & _ & Hl & _).
    cbn [length Nat.add Stream.parse s_dead s_opened s_rest].
    rewrite (front_ext _ _ more _ Hf) by done.
    specialize (IH _ _ Hp). unfold extend at 1 in IH. cbn [s_dead s_opened s_rest] in IH.
    rewrite drop_app_le by len. rewrite IH. destruct (parse m _) as [e2 s2].
    cbn [app]. do 2 f_equal. unfold MSG_HEADER_SIZE. f_equal. unfold sub.
    rewrite drop_app_le by len. rewrite take_app_le by len. done.
Qed.

Lemma parse_all_extend s more :
  parse_all cap ordered (extend s more) =
    let '(e1, s1) := parse_all cap ordered s in
    let '(e2, s2) := parse_all cap ordered (extend s1 more) in (e1 ++ e2, s2).
Proof.
  destruct (parse_all cap ordered s) as [e1 s1] eqn:H1. unfold parse_all in H1.
  set (m := (2 + length (s_rest (extend s1 more)) + (2 + length (s_rest (extend s more))))%nat).
  rewrite <-(parse_all_enough (length e1 + m)) by lia.
  rewrite <-(parse_all_enough m (extend s1 more)) by lia.
  by apply parse_extend with (m := m) (more := more) in H1.
Qed.

End spec.

(** ** The buffer *)

(** Between calls: the positions are in order and the buffer is the size it
    was given, at least one header and within an [int32_t]. *)
Definition conn_wf (c : conn_t) : Prop :=
  zlen (c_buf c) = c_buf_cap c ∧ 32 <= c_buf_cap c < 2 ^ 31 ∧
  0 <= c_buf_off c <= c_buf_len c ∧ c_buf_len c <= c_buf_cap c ∧
  (c_closed c = true → c_buf_off c = c_buf_len c).

(** The bytes received and not yet parsed. *)
Definition pending (c : conn_t) : list byte :=
  sub (c_buf_off c) (c_buf_len c - c_buf_off c) (c_buf c).

Definition abs (c : conn_t) : st := St (pending c) (c_opened c) (c_closed c).

Definition ordered (c : conn_t) : bool := c_mode c =? CONN_MODE_CLIENT.

(** What a batch of actions delivers, its payloads read out of the buffer. *)
Definition event_of (buf : list byte) (a : conn_action_t) : option event :=
  match a with
  | CONN_ACTION_FRAME h p n =>
      Some (Frame h (match p with Some off => sub off n buf | None => [] end))
  | CONN_ACTION_REPLY_ERR code q => Some (Error code q)
  | CONN_ACTION_CLOSE => None
  end.

Definition events (buf : list byte) (acts : list conn_action_t) : list event :=
  omap (event_of buf) acts.

(** One round of the loop is one verdict of the specification. *)
Lemma feed_loop_front room c cursor :
  zlen (c_buf c) = c_buf_cap c → 32 <= c_buf_cap c < 2 ^ 31 → 0 <= cursor <= c_buf_len c →
  c_buf_len c <= c_buf_cap c →
  feed_loop (S room) c cursor =
    match front (c_buf_cap c) (ordered c) (c_opened c)
            (sub cursor (c_buf_len c - cursor) (c_buf c)) with
    | Need => ([], c <| c_buf_off := cursor |>)
    | Bad code q =>
        (emit_fatal (S room) code q, c <| c_closed := true |> <| c_buf_off := c_buf_len c |>)
    | Good h total =>
        let '(acts, c') :=
          feed_loop room (if opens h then c <| c_opened := true |> else c) (cursor + total) in
        (CONN_ACTION_FRAME h
           (if 0 <? h_payload_len h then Some (cursor + MSG_HEADER_SIZE) else None)
           (h_payload_len h) :: acts, c')
    end.
Proof.
  intros Hb Hcap Hcur Hlen. cbn [feed_loop]. unfold front, MSG_HEADER_SIZE.
  assert (zlen (sub cursor (c_buf_len c - cursor) (c_buf c)) = c_buf_len c - cursor) as ->
    by (len; lia).
  destruct (Z.ltb_spec (c_buf_len c - cursor) 32); [done|].
  rewrite (header_of_sub cursor (c_buf_len c - cursor)) by lia.
  set (h := header_of (sub cursor 32 (c_buf c))).
  destruct (negb (h_magic h =? MSG_MAGIC)); [done|].
  destruct ((h_version h <? MSG_VERSION_MIN) || _); [done|].
  destruct ((h_op h <? MSG_OP_MIN) || _); [done|].
  rewrite u32_id by lia.
  replace (c_buf_cap c - 32 <? h_payload_len h) with (c_buf_cap c <? 32 + h_payload_len h)
    by (destruct (Z.ltb_spec (c_buf_cap c) (32 + h_payload_len h)),
          (Z.ltb_spec (c_buf_cap c - 32) (h_payload_len h)); done || lia).
  destruct ((MSG_MAX_PAYLOAD <? h_payload_len h) || _); [done|].
  replace ((opens h && c_opened c) || (negb (opens h) && negb (c_opened c)))
    with (Bool.eqb (opens h) (c_opened c)) by (by destruct (opens h), (c_opened c)).
  unfold ordered. destruct ((c_mode c =? CONN_MODE_CLIENT) && _); [done|].
  by destruct (c_buf_len c - cursor <? 32 + h_payload_len h).
Qed.

(** The loop refines the specification: as many events as there is room for
    actions, and the same state after. *)
Lemma feed_loop_parse room c cursor :
  zlen (c_buf c) = c_buf_cap c → 32 <= c_buf_cap c < 2 ^ 31 → 0 <= cursor <= c_buf_len c →
  c_buf_len c <= c_buf_cap c → c_closed c = false →
  let '(acts, c') := feed_loop room c cursor in
  (c_buf c' = c_buf c ∧ c_buf_cap c' = c_buf_cap c ∧ c_buf_len c' = c_buf_len c ∧
   c_mode c' = c_mode c ∧ conn_wf c') ∧
  parse (c_buf_cap c) (ordered c) room
    (St (sub cursor (c_buf_len c - cursor) (c_buf c)) (c_opened c) false)
  = (events (c_buf c) acts, abs c').
Proof.
  revert c cursor. induction room as [|room IH]; intros c cursor Hb Hcap Hcur Hlen Hcl.
  { cbn. split; [unfold conn_wf; cbn; split_and!; try done; try lia; congruence|].
    unfold abs, pending. cbn. by rewrite Hcl. }
  rewrite feed_loop_front by done. cbn [Stream.parse s_dead s_opened s_rest].
  destruct (front _ _ _ _) as [|code q|h total] eqn:Hf.
  - split; [unfold conn_wf; cbn; split_and!; try done; try lia; congruence|].
    unfold abs, pending. cbn. by rewrite Hcl.
  - split; [unfold conn_wf; cbn; split_and!; try done; lia|].
    unfold abs, pending. cbn. rewrite Z.sub_diag.
    by destruct room.
  - pose proof (front_good _ _ _ _ _ _ Hf) as (Hh & -> & Hp & Hfit & Hl & _).
    assert (zlen (sub cursor (c_buf_len c - cursor) (c_buf c)) = c_buf_len c - cursor) as Hz
      by (len; lia). rewrite Hz in Hl.
    set (c1 := if opens h then c <| c_opened := true |> else c).
    assert (c_buf c1 = c_buf c ∧ c_buf_cap c1 = c_buf_cap c ∧ c_buf_len c1 = c_buf_len c ∧
            c_mode c1 = c_mode c ∧ c_closed c1 = false ∧ c_opened c1 = c_opened c || opens h)
      as (E1 & E2 & E3 & E4 & E5 & E6).
    { unfold c1. destruct (opens h); cbn; rewrite ?orb_true_r, ?orb_false_r; done. }
    specialize (IH c1 (cursor + (32 + h_payload_len h))).
    rewrite E1, E2, E3, E4, E6 in IH. unfold ordered in *. rewrite E4 in IH.
    specialize (IH Hb Hcap ltac:(lia) Hlen E5).
    destruct (feed_loop room c1 _) as [acts c']. destruct IH as [Hk IH]. split; [exact Hk|].
    assert (drop (Z.to_nat (32 + h_payload_len h)) (sub cursor (c_buf_len c - cursor) (c_buf c))
            = sub (cursor + (32 + h_payload_len h))
                (c_buf_len c - (cursor + (32 + h_payload_len h))) (c_buf c)) as ->.
    { unfold sub. rewrite skipn_firstn_comm, drop_drop. f_equal; [lia|f_equal; lia]. }
    rewrite IH. cbn [events omap list_omap event_of]. do 2 f_equal.
    destruct (Z.ltb_spec 0 (h_payload_len h)).
    + unfold MSG_HEADER_SIZE. f_equal. apply sub_sub; lia.
    + replace (h_payload_len h) with 0 by lia. done.
Qed.

(** The parse position only moves forward. *)
Lemma feed_loop_off room c cursor :
  zlen (c_buf c) = c_buf_cap c → 32 <= c_buf_cap c < 2 ^ 31 → 0 <= cursor <= c_buf_len c →
  c_buf_len c <= c_buf_cap c →
  cursor <= c_buf_off (feed_loop room c cursor).2 <= c_buf_len c.
Proof.
  revert c cursor. induction room as [|room IH]; intros c cursor Hb Hcap Hcur Hlen; [cbn; lia|].
  rewrite feed_loop_front by done. destruct (front _ _ _ _) as [|code q|h total] eqn:Hf;
    [cbn; lia..|].
  pose proof (front_good _ _ _ _ _ _ Hf) as (_ & -> & Hp & _ & Hl & _).
  assert (zlen (sub cursor (c_buf_len c - cursor) (c_buf c)) = c_buf_len c - cursor) as Hz
    by (len; lia). rewrite Hz in Hl.
  set (c1 := if opens h then c <| c_opened := true |> else c).
  assert (c_buf c1 = c_buf c ∧ c_buf_cap c1 = c_buf_cap c ∧ c_buf_len c1 = c_buf_len c)
    as (E1 & E2 & E3) by (unfold c1; by destruct (opens h)).
  specialize (IH c1 (cursor + (32 + h_payload_len h))). rewrite E1, E2, E3 in IH.
  specialize (IH Hb Hcap ltac:(lia) Hlen). destruct (feed_loop room c1 _). cbn in *. lia.
Qed.

(** ** Operations against the abstract state *)

Lemma conn_feed_parse c out_cap :
  conn_wf c → 0 <= out_cap →
  let '(acts, c') := conn_feed c out_cap in
  (c_buf c' = c_buf c ∧ c_buf_cap c' = c_buf_cap c ∧ c_buf_len c' = c_buf_len c ∧
   c_mode c' = c_mode c ∧ conn_wf c') ∧
  parse (c_buf_cap c) (ordered c) (Z.to_nat out_cap) (abs c) = (events (c_buf c) acts, abs c').
Proof.
  intros Hwf Ho. pose proof Hwf as (Hb & Hcap & Hoff & Hlen & Hcl). unfold conn_feed.
  destruct (c_closed c) eqn:Hc; cbn [orb].
  { split; [done|]. by apply parse_dead. }
  destruct (Z.leb_spec out_cap 0).
  { split; [done|]. by replace (Z.to_nat out_cap) with 0%nat by lia. }
  pose proof (feed_loop_parse (Z.to_nat out_cap) c (c_buf_off c) Hb Hcap Hoff Hlen Hc) as H'.
  destruct (feed_loop _ _ _) as [acts c']. unfold abs at 1, pending. by rewrite Hc.
Qed.

(** Compaction moves the unparsed tail to the front and changes nothing
    else: its overlapping copy is forward, and so is safe. *)
Lemma conn_compact_spec c :
  conn_wf c →
  conn_wf (conn_compact c) ∧ abs (conn_compact c) = abs c ∧ c_buf_off (conn_compact c) = 0 ∧
  c_buf_cap (conn_compact c) = c_buf_cap c ∧ c_mode (conn_compact c) = c_mode c ∧
  c_buf_len (conn_compact c) = c_buf_len c - c_buf_off c.
Proof.
  intros Hwf. pose proof Hwf as (Hb & Hcap & Hoff & Hlen & Hcl). unfold conn_compact.
  destruct (Z.leb_spec (c_buf_off c) 0).
  { split_and!; try done; lia. }
  cbn. destruct (Z.ltb_spec 0 (c_buf_len c - c_buf_off c)) as [Ht|Ht].
  - rewrite mem_copy_within_blit by lia.
    set (tail := sub (c_buf_off c) (c_buf_len c - c_buf_off c) (c_buf c)).
    assert (zlen tail = c_buf_len c - c_buf_off c) as Htl by (unfold tail; len; lia).
    split_and!; try done.
    + unfold conn_wf; cbn. rewrite length_blit by lia. split_and!; try done; try lia.
      intros; specialize (Hcl ltac:(done)); lia.
    + unfold abs, pending; cbn. rewrite Z.sub_0_r, <-Htl, sub_blit_same by lia.
      by rewrite Htl.
  - split_and!; try done.
    + unfold conn_wf; cbn. split_and!; try done; lia.
    + unfold abs, pending; cbn. by replace (c_buf_len c - c_buf_off c) with 0 by lia.
Qed.

Lemma conn_append_spec c src :
  conn_wf c → c_closed c = false →
  conn_recv_append c src (zlen src) = (0, c) ∧ src = [] ∨
  let '(n, c') := conn_recv_append c src (zlen src) in
  conn_wf c' ∧ 0 <= n <= zlen src ∧ abs c' = extend (abs c) (take (Z.to_nat n) src) ∧
  c_buf_cap c' = c_buf_cap c ∧ c_mode c' = c_mode c ∧ n = Z.min (zlen src) (c_buf_cap c - zlen (pending c)).
Proof.
  intros Hwf Hc. destruct (conn_compact_spec c Hwf) as (Hwf1 & Habs & Hoff & Hcap & Hmode & Hlen).
  pose proof Hwf as (Hb0 & _ & Hoff0 & Hlen0 & _).
  unfold conn_recv_append. rewrite Hc. cbn [orb].
  destruct (Z.leb_spec (zlen src) 0).
  { left. split; [done|]. destruct src; cbn in *; [done|lia]. }
  right. set (c1 := conn_compact c) in *. pose proof Hwf1 as (Hb & Hc32 & _ & Hl1 & _).
  assert (zlen (pending c) = c_buf_len c1) as Hpl by (unfold pending; len; lia).
  assert (c_closed c1 = false) as Hcl1 by (apply (f_equal s_dead) in Habs; cbn in Habs; congruence).
  set (n := if zlen src <? c_buf_cap c1 - c_buf_len c1 then zlen src else c_buf_cap c1 - c_buf_len c1).
  assert (n = Z.min (zlen src) (c_buf_cap c1 - c_buf_len c1)) as Hn
    by (unfold n; case_match; zb; lia).
  destruct (Z.leb_spec n 0).
  - split_and!; try done; try lia. rewrite Habs. unfold extend. cbn. rewrite Hc.
    unfold abs. by rewrite Hc, app_nil_r.
  - rewrite mem_copy_blit by lia.
    assert (sub 0 n src = take (Z.to_nat n) src) as Hsub by (unfold sub; by rewrite drop_0).
    assert (zlen (sub 0 n src) = n) as Hsl by (len; lia).
    split_and!; cbn; try done; try lia.
    + unfold conn_wf; cbn. rewrite length_blit by lia. split_and!; try done; try lia. congruence.
    + rewrite <-Habs, <-Hsub. unfold abs, extend, pending; cbn. rewrite Hcl1, Hoff, !Z.sub_0_r.
      cbn. f_equal. rewrite (sub_split 0) by lia.
      rewrite sub_blit_out by lia. f_equal. rewrite Z.add_0_l.
      pose proof (sub_blit_same (c_buf c1) (c_buf_len c1) (sub 0 n src)) as Hs.
      rewrite Hsl in Hs. apply Hs; lia.
Qed.

(** ** The receive driver

    What the callers do with a chunk: append it, then call [conn_feed] with
    a batch of [out_cap] until it has nothing more to say. *)

Fixpoint drain (fuel : nat) (out_cap : Z) (c : conn_t) : list event * conn_t :=
  match fuel with
  | O => ([], c)
  | S fuel =>
      let '(acts, c1) := conn_feed c out_cap in
      match acts with
      | [] => ([], c1)
      | _ => let '(es, c2) := drain fuel out_cap c1 in (events (c_buf c1) acts ++ es, c2)
      end
  end.

(** A round that delivers anything parses bytes, so this is enough. *)
Definition drain_all (out_cap : Z) (c : conn_t) : list event * conn_t :=
  drain (3 + length (pending c)) out_cap c.

(** Chunks in order; [None] if an open connection does not take one whole.
    A closed one takes nothing, and what arrives on it is discarded. *)
Fixpoint receive (out_cap : Z) (c : conn_t) (chunks : list (list byte))
    : option (list event * conn_t) :=
  match chunks with
  | [] => Some ([], c)
  | ch :: chunks =>
      let '(n, c1) := conn_recv_append c ch (zlen ch) in
      if (n =? zlen ch) || c_closed c then
        let '(es, c2) := drain_all out_cap c1 in
        match receive out_cap c2 chunks with
        | Some (es', c3) => Some (es ++ es', c3)
        | None => None
        end
      else None
  end.

(** *** The driver delivers what the specification says *)

(** A batch with actions in it carries an event, except that it may be the
    [CLOSE] alone that follows nothing: [conn_feed] never emits that. *)
Lemma feed_events_nil c out_cap acts c' :
  conn_wf c → 0 < out_cap → conn_feed c out_cap = (acts, c') →
  events (c_buf c) acts = [] → acts = [] .
Proof.
  intros Hwf Ho. pose proof Hwf as (Hb & Hcap & Hoff & Hlen & _). unfold conn_feed.
  destruct (c_closed c); cbn [orb]; [by intros [= <- _]|].
  rewrite (proj2 (Z.leb_gt _ _)) by lia.
  destruct (Z.to_nat out_cap) as [|room] eqn:Hr; [lia|].
  rewrite feed_loop_front by done. destruct (front _ _ _ _).
  - by intros [= <- _].
  - intros [= <- _]. by destruct room.
  - destruct (feed_loop _ _ _). by intros [= <- _].
Qed.

(** One call takes its events off the front of what there is to deliver. *)
Lemma feed_takes c out_cap acts c1 :
  conn_wf c → 0 < out_cap → conn_feed c out_cap = (acts, c1) →
  conn_wf c1 ∧ c_buf c1 = c_buf c ∧ c_buf_cap c1 = c_buf_cap c ∧ c_mode c1 = c_mode c ∧
  (parse_all (c_buf_cap c) (ordered c) (abs c) =
    let '(e2, s2) := parse_all (c_buf_cap c1) (ordered c1) (abs c1) in
    (events (c_buf c) acts ++ e2, s2)) ∧
  if decide (acts = []) then parse_all (c_buf_cap c) (ordered c) (abs c) = ([], abs c1)
  else (0 < length (events (c_buf c) acts))%nat.
Proof.
  intros Hwf Ho Hcf. pose proof (conn_feed_parse c out_cap Hwf ltac:(lia)) as Hfeed.
  rewrite Hcf in Hfeed. destruct Hfeed as [(E1 & E2 & E3 & E4 & Hwf1) Hp].
  set (n := (2 + length (s_rest (abs c)) + (2 + length (s_rest (abs c1))))%nat).
  split_and!; try done.
  - rewrite <-(parse_all_enough _ _ (Z.to_nat out_cap + n)) by lia.
    rewrite parse_add, Hp. unfold ordered. rewrite E2, E4.
    by rewrite (parse_all_enough _ _ n) by lia.
  - destruct (decide (acts = [])) as [->|Hne].
    + rewrite <-(parse_all_enough _ _ (Z.to_nat out_cap + n)) by lia.
      rewrite parse_add, Hp.
      rewrite (parse_short _ _ _ _ _ _ n Hp) by (cbn; lia). done.
    + destruct (events (c_buf c) acts) eqn:He; [|cbn; lia].
      by apply (feed_events_nil c out_cap _ c1 Hwf Ho Hcf) in He.
Qed.

Lemma drain_parse fuel out_cap c :
  conn_wf c → 0 < out_cap →
  (length (parse_all (c_buf_cap c) (ordered c) (abs c)).1 < fuel)%nat →
  let '(es, c') := drain fuel out_cap c in
  conn_wf c' ∧ c_buf_cap c' = c_buf_cap c ∧ c_mode c' = c_mode c ∧
  parse_all (c_buf_cap c) (ordered c) (abs c) = (es, abs c').
Proof.
  revert c. induction fuel as [|fuel IH]; intros c Hwf Ho Hf; [lia|]. cbn [drain].
  destruct (conn_feed c out_cap) as [acts c1] eqn:Hcf.
  destruct (feed_takes _ _ _ _ Hwf Ho Hcf) as (Hwf1 & E1 & E2 & E4 & Hall & Hne).
  destruct acts as [|a acts]; [by split_and!|]. rewrite decide_False in Hne by done.
  rewrite Hall in Hf |- *. specialize (IH c1 Hwf1 Ho).
  destruct (parse_all (c_buf_cap c1) (ordered c1) (abs c1)) as [e2 s2]. cbn [fst] in *.
  rewrite length_app in Hf. specialize (IH ltac:(lia)).
  destruct (drain fuel out_cap c1) as [es c2]. destruct IH as (Hwf2 & Hc2 & Hm2 & [= -> ->]).
  rewrite E1. by split_and!; [|congruence..|].
Qed.

Lemma drain_all_parse out_cap c :
  conn_wf c → 0 < out_cap →
  let '(es, c') := drain_all out_cap c in
  conn_wf c' ∧ c_buf_cap c' = c_buf_cap c ∧ c_mode c' = c_mode c ∧
  parse_all (c_buf_cap c) (ordered c) (abs c) = (es, abs c').
Proof.
  intros Hwf Ho. apply drain_parse; [done..|]. unfold parse_all.
  pose proof (parse_bound (c_buf_cap c) (ordered c) (2 + length (s_rest (abs c))) (abs c)).
  cbn in *. case_match; lia.
Qed.

Definition idle (c : conn_t) : Prop :=
  parse_all (c_buf_cap c) (ordered c) (abs c) = ([], abs c).

Lemma drain_all_idle out_cap c es c' :
  conn_wf c → 0 < out_cap → drain_all out_cap c = (es, c') → idle c'.
Proof.
  intros Hwf Ho Hd. pose proof (drain_all_parse out_cap c Hwf Ho) as H. rewrite Hd in H.
  destruct H as (_ & Hc & Hm & Hp). unfold idle, ordered in *. rewrite Hc, Hm.
  pose proof (parse_all_idle (c_buf_cap c) (c_mode c =? CONN_MODE_CLIENT)
                (2 + length (s_rest (abs c'))) (abs c)) as Hi.
  rewrite Hp in Hi. exact Hi.
Qed.

Lemma extend_app s a b : extend s (a ++ b) = extend (extend s a) b.
Proof. unfold extend. destruct (s_dead s) eqn:Hd; [by rewrite Hd|]. cbn. by rewrite app_assoc. Qed.

Lemma receive_parse out_cap c chunks es c' :
  conn_wf c → 0 < out_cap → idle c → receive out_cap c chunks = Some (es, c') →
  conn_wf c' ∧ c_buf_cap c' = c_buf_cap c ∧ idle c' ∧
  parse_all (c_buf_cap c) (ordered c) (extend (abs c) (concat chunks)) = (es, abs c').
Proof.
  intros Hwf Ho. revert c es Hwf. induction chunks as [|ch chunks IH];
    intros c es Hwf Hidle; cbn [receive concat].
  { intros [= <- <-]. split_and!; try done.
    assert (extend (abs c) [] = abs c) as ->; [|exact Hidle].
    unfold extend, abs. cbn. destruct (c_closed c); [done|]. by rewrite app_nil_r. }
  assert (∃ c1, (conn_recv_append c ch (zlen ch)).2 = c1 ∧ conn_wf c1 ∧
    c_buf_cap c1 = c_buf_cap c ∧ c_mode c1 = c_mode c ∧
    ((conn_recv_append c ch (zlen ch)).1 = zlen ch ∨ c_closed c = true → abs c1 = extend (abs c) ch))
    as (c1 & E & Hwf1 & Hcap1 & Hm1 & Habs1).
  { destruct (c_closed c) eqn:Hc.
    - exists c. unfold conn_recv_append. rewrite Hc. cbn. split_and!; try done.
      intros _. unfold extend. cbn. by rewrite Hc.
    - destruct (conn_append_spec c ch Hwf Hc) as [[-> ->]|H].
      + exists c. cbn. split_and!; try done. intros _. unfold extend, abs. cbn.
        by rewrite Hc, app_nil_r.
      + destruct (conn_recv_append c ch (zlen ch)) as [n c1]. exists c1.
        destruct H as (Hw & Hn & Ha & Hcp & Hmd & _). split_and!; try done.
        cbn. intros [->|?]; [|done]. by rewrite Ha, take_ge by lia. }
  destruct (conn_recv_append c ch (zlen ch)) as [n c1'] eqn:Happ. cbn in E. subst c1'.
  destruct ((n =? zlen ch) || c_closed c) eqn:Htest; [|done].
  assert (abs c1 = extend (abs c) ch) as Ha1.
  { apply Habs1. apply orb_true_iff in Htest as [Ht%Z.eqb_eq|Ht]; auto. }
  pose proof (drain_all_parse out_cap c1 Hwf1 Ho) as Hd.
  destruct (drain_all out_cap c1) as [es1 c2] eqn:Hdr. destruct Hd as (Hwf2 & Hcap2 & Hm2 & Hp1).
  destruct (receive out_cap c2 chunks) as [[es2 c3]|] eqn:Hrec; [|done].
  intros [= <- <-].
  pose proof (drain_all_idle _ _ _ _ Hwf1 Ho Hdr) as Hidle2.
  destruct (IH c2 es2 Hwf2 Hidle2 Hrec) as (Hwf3 & Hcap3 & Hidle3 & Hp2).
  split_and!; [done|congruence|done|].
  rewrite extend_app, parse_all_extend, <-Ha1. unfold ordered in *.
  rewrite <-Hcap1, <-Hm1, Hp1, <-Hcap2, <-Hm2, Hp2. done.
Qed.

(** ** The opening-frame rule and room to go on *)

(** In an ordered stream that has not been opened the first frame opens it,
    and no later one does. *)
Definition is_open (e : event) : bool := match e with Frame h _ => opens h | Error _ _ => false end.

Definition frames_ordered (opened : bool) (es : list event) : Prop :=
  match es with
  | [] => True
  | e :: es' =>
      (match e with Frame h _ => opens h = negb opened | Error _ _ => es' = [] end) ∧
      Forall (λ e', is_open e' = false) es'
  end.

Lemma parse_opened_no_open cap n s :
  s_opened s = true → Forall (λ e, is_open e = false) (parse cap true n s).1.
Proof.
  revert s. induction n as [|n IH]; intros s Ho; cbn [Stream.parse]; [constructor|].
  destruct (s_dead s); [constructor|].
  destruct (front cap true (s_opened s) (s_rest s)) as [|code q|h total] eqn:Hf;
    [constructor|repeat constructor|].
  pose proof (front_good _ _ _ _ _ _ Hf) as (_ & _ & _ & _ & _ & _ & Hop).
  specialize (Hop eq_refl). rewrite Ho in Hop.
  specialize (IH (St (drop (Z.to_nat total) (s_rest s)) (s_opened s || opens h) false)
    (orb_true_intro _ _ (or_introl Ho))).
  destruct (parse cap true n _) as [es s']. constructor; [cbn; by destruct (opens h)|exact IH].
Qed.

Lemma parse_frames_ordered cap n s :
  frames_ordered (s_opened s) (parse cap true n s).1.
Proof.
  destruct n as [|n]; [done|]. cbn [Stream.parse]. destruct (s_dead s); [done|].
  destruct (front cap true (s_opened s) (s_rest s)) as [|code q|h total] eqn:Hf; [done|done|].
  pose proof (front_good _ _ _ _ _ _ Hf) as (_ & _ & _ & _ & _ & _ & Hop).
  specialize (Hop eq_refl).
  pose proof (parse_opened_no_open cap n
    (St (drop (Z.to_nat total) (s_rest s)) (s_opened s || opens h) false)) as Hno.
  destruct (parse cap true n _) as [es s']. cbn in *. split.
  - by destruct (opens h), (s_opened s).
  - apply Hno. by destruct (opens h), (s_opened s).
Qed.

(** An open connection with nothing decidable in it has room to read. *)
Lemma idle_has_room c :
  conn_wf c → idle c → c_closed c = false → zlen (pending c) < c_buf_cap c.
Proof.
  intros Hwf Hidle Hc. pose proof Hwf as (Hb & Hcap & Hoff & Hlen & _).
  destruct (Z.lt_ge_cases (zlen (pending c)) (c_buf_cap c)) as [|Hge]; [done|exfalso].
  unfold idle, parse_all in Hidle. cbn [Stream.parse Nat.add s_dead abs] in Hidle.
  rewrite Hc in Hidle. cbn [s_opened s_rest] in Hidle.
  assert (front (c_buf_cap c) (ordered c) (c_opened c) (pending c) ≠ Need) as Hn.
  { unfold front, MSG_HEADER_SIZE. rewrite (proj2 (Z.ltb_ge _ _)) by lia.
    destruct (negb _); [done|]. destruct ((h_version _ <? _) || _); [done|].
    destruct ((h_op _ <? _) || _); [done|].
    destruct ((MSG_MAX_PAYLOAD <? _) || _) eqn:E; [done|]. destruct (ordered c && _); [done|].
    zb. rewrite (proj2 (Z.ltb_ge _ _)) by lia. done. }
  destruct (front _ _ _ _) as [|code q|h total]; [done|discriminate|].
  repeat case_match; discriminate.
Qed.

(** ** What a batch is made of *)

(** Every frame of a batch is valid and names its payload in the bytes
    received. *)
(** Feeding moves the parse position forward, within what was received. *)
Lemma feed_position c c' out_cap acts :
  conn_wf c → conn_feed c out_cap = (acts, c') →
  c_buf_len c' = c_buf_len c ∧ c_buf_off c <= c_buf_off c' <= c_buf_len c.
Proof.
  intros Hwf. pose proof Hwf as (Hb & Hcap & Hoff & Hlen & Hcl). unfold conn_feed.
  destruct (c_closed c) eqn:Hc; cbn [orb]; [intros [= <- <-]; split; [done|lia]|].
  destruct (Z.leb_spec out_cap 0); [intros [= <- <-]; split; [done|lia]|]. intros Hf.
  pose proof (feed_loop_off (Z.to_nat out_cap) c (c_buf_off c) Hb Hcap Hoff Hlen) as Ho.
  pose proof (feed_loop_parse (Z.to_nat out_cap) c (c_buf_off c) Hb Hcap Hoff Hlen Hc) as Hp.
  rewrite Hf in *. by destruct Hp as [(_ & _ & ? & _) _].
Qed.

Lemma feed_frames c c' out_cap acts :
  conn_wf c → conn_feed c out_cap = (acts, c') →
  Forall (λ a, match a with
    | CONN_ACTION_FRAME h p n =>
        n = h_payload_len h ∧ msg_header_valid h = true ∧ 0 <= n <= c_buf_cap c - 32 ∧ header_ok h ∧
        match p with
        | Some off => 0 < n ∧ c_buf_off c + 32 <= off ∧ off + n <= c_buf_off c' ∧
                      h = header_of (sub (off - 32) 32 (c_buf c))
        | None => n = 0
        end
    | _ => True
    end) acts ∧ c_buf c' = c_buf c.
Proof.
  intros Hwf Hfeed. pose proof Hwf as (Hb & Hcap & Hoff & Hlen & _). revert Hfeed. unfold conn_feed.
  destruct (c_closed c); cbn [orb]; [intros [= <- <-]; split; [constructor|done]|].
  destruct (Z.leb_spec out_cap 0); [intros [= <- <-]; split; [constructor|done]|].
  generalize (Z.to_nat out_cap). intros room. clear Hwf H out_cap.
  set (cur := c_buf_off c) in *. clearbody cur.
  revert c cur Hb Hcap Hoff Hlen acts. induction room as [|room IH];
    intros c cur Hb Hcap Hoff Hlen acts.
  { cbn. intros [= <- <-]. split; [constructor|done]. }
  rewrite feed_loop_front by done.
  destruct (front _ _ _ _) as [|code q|h total] eqn:Hf.
  - intros [= <- <-]. split; [constructor|done].
  - intros [= <- <-]. split; [|done]. by destruct room; repeat constructor.
  - pose proof (front_good _ _ _ _ _ _ Hf) as (Eh & -> & Hp & Hfit & Hl & Hv & _).
    assert (zlen (sub cur (c_buf_len c - cur) (c_buf c)) = c_buf_len c - cur) as Hz
      by (len; lia). rewrite Hz in Hl.
    set (c1 := if opens h then c <| c_opened := true |> else c).
    assert (c_buf c1 = c_buf c ∧ c_buf_cap c1 = c_buf_cap c ∧ c_buf_len c1 = c_buf_len c)
      as (E1 & E2 & E3) by (unfold c1; by destruct (opens h)).
    specialize (IH c1 (cur + (32 + h_payload_len h))). rewrite E1, E2, E3 in IH.
    specialize (IH Hb Hcap ltac:(lia) Hlen).
    destruct (feed_loop room c1 _) as [as' c2] eqn:Hloop. intros [= <- <-].
    destruct (IH as' eq_refl) as [Hall Hbuf]. split; [|done].
    pose proof (feed_loop_off room c1 (cur + (32 + h_payload_len h))) as Hmono.
    rewrite E1, E2, E3, Hloop in Hmono. specialize (Hmono Hb Hcap ltac:(lia) Hlen).
    cbn [snd] in Hmono. constructor.
    + split_and!; try done; try lia; [rewrite Eh; apply header_of_ok|]. unfold MSG_HEADER_SIZE.
      destruct (Z.ltb_spec 0 (h_payload_len h)); [|lia]. split_and!; [lia..|].
      rewrite Eh at 1. rewrite (header_of_sub cur (c_buf_len c - cur)) by lia. do 2 f_equal. lia.
    + eapply Forall_impl; [exact Hall|]. intros [h' p' n'| |]; [|done..].
      intros (? & ? & ? & ? & Hpp). destruct p'; split_and!; try (done || lia). by destruct Hpp as (_ & _ & _ & ?).
Qed.

(** On a client connection the frame that opens it is the first of a batch,
    if it is in it, and whatever batch has a frame leaves it opened. *)
Definition greeting (a : conn_action_t) : bool :=
  match a with CONN_ACTION_FRAME h _ _ => opens h | _ => false end.
Definition is_frame (a : conn_action_t) : bool :=
  match a with CONN_ACTION_FRAME _ _ _ => true | _ => false end.

Record greeted (c : conn_t) (acts : list conn_action_t) (c' : conn_t) : Prop := {
  gr_mode : c_mode c' = c_mode c;
  gr_opened : c_opened c = true → c_opened c' = true;
  gr_first : c_opened c = true → Forall (λ a, greeting a = false) acts;
  gr_rest : Forall (λ a, greeting a = false) (tail acts);
  gr_frame : existsb is_frame acts = true → c_opened c' = true }.

Lemma emit_no_frame room a b :
  Forall (λ x, greeting x = false) (emit_fatal room a b) ∧ existsb is_frame (emit_fatal room a b) = false.
Proof. destruct room as [|[|room]]; cbn; by repeat constructor. Qed.

Lemma greeted_loop room c cursor :
  c_mode c = CONN_MODE_CLIENT →
  greeted c (feed_loop room c cursor).1 (feed_loop room c cursor).2.
Proof.
  revert c cursor. induction room as [|room IH]; intros c cursor Hm; [by constructor|].
  cbn [feed_loop]. set (h := header_of _).
  assert (∀ a b, greeted c (emit_fatal (S room) a b)
    (c <| c_closed := true |> <| c_buf_off := c_buf_len c |>)) as Hfatal.
  { intros a b. destruct (emit_no_frame (S room) a b) as [Hg Hf]. constructor; try done.
    - destruct room; cbn; [done|by repeat constructor].
    - by rewrite Hf. }
  cbv zeta. rewrite Hm, Z.eqb_refl. cbn [andb].
  do 5 match goal with |- context [if ?b then _ else _] =>
    destruct b; [first [apply Hfatal|by constructor]|] end.
  destruct (opens h) eqn:Ho, (c_opened c) eqn:Hc; cbn [negb andb orb]; try apply Hfatal;
    (destruct (_ <? _); [by constructor|]); cbv iota.
  - match goal with |- context [feed_loop room ?x ?y] =>
      specialize (IH x y Hm); destruct (feed_loop room x y) as [acts c'] end. destruct IH as [Hm' Hop Hf _ _].
    constructor; cbn [fst snd tail] in *; [exact Hm'|congruence..|by apply Hf|intros _; by apply Hop].
  - match goal with |- context [feed_loop room ?x ?y] =>
      specialize (IH x y Hm); destruct (feed_loop room x y) as [acts c'] end. destruct IH as [Hm' Hop Hf _ _].
    constructor; cbn [fst snd tail] in *; auto.
Qed.

Lemma greeted_feed c out_cap acts c' :
  c_mode c = CONN_MODE_CLIENT → conn_feed c out_cap = (acts, c') → greeted c acts c'.
Proof.
  intros Hm. unfold conn_feed. destruct (_ || _); [by intros [= <- <-]; constructor|].
  intros E. pose proof (greeted_loop (Z.to_nat out_cap) c (c_buf_off c) Hm) as Hg. by rewrite E in Hg.
Qed.

(** ** Properties *)

Module ConnProps.

(** C17. Framing does not depend on how the bytes arrive or on the batch size:
    for any division of the input into chunks the connection takes, and any
    batch capacity, what [conn_feed] delivers over all the calls is what the
    stream parser makes of the concatenated bytes, and the connection is left
    in the state the parser is left in. *)
Theorem feed_refines_stream (out_cap : Z) (c c' : conn_t) (chunks : list (list byte))
    (es : list event) (Hwf : conn_wf c) (Hout : 0 < out_cap) (Hidle : idle c)
    (Hrecv : receive out_cap c chunks = Some (es, c')) :
  conn_wf c' ∧
  parse_all (c_buf_cap c) (ordered c) (extend (abs c) (concat chunks)) = (es, abs c').
Proof. by destruct (receive_parse out_cap c chunks es c') as (? & _ & _ & ?). Qed.

Definition hello_frame : list byte :=
  header_bytes (msg_header_new MSG_OP_HELLO 0 0 2 0 0) ++ bytes_of [7; 8].
Definition ping_frame : list byte := header_bytes (msg_header_new MSG_OP_PING 0 0 0 0 5).

Lemma feed_refines_stream_witness :
  ∃ c', (parse_all 64 true (extend (St [] false false) (hello_frame ++ ping_frame))).1
        = [Frame (msg_header_new MSG_OP_HELLO 0 0 2 0 0) (bytes_of [7; 8]);
           Frame (msg_header_new MSG_OP_PING 0 0 0 0 5) []] ∧
  parse_all 64 true (extend (St [] false false) (hello_frame ++ ping_frame))
    = ((parse_all 64 true (extend (St [] false false) (hello_frame ++ ping_frame))).1, abs c').
Proof.
  set (c0 := conn_init (zeros 64) 64 CONN_MODE_CLIENT).
  set (chunks := [take 20 hello_frame; drop 20 hello_frame; ping_frame]).
  destruct (receive 1 c0 chunks) as [[es c']|] eqn:Hr; [|vm_compute in Hr; discriminate Hr].
  exists c'. split; [vm_compute; reflexivity|].
  assert (conn_wf c0) as Hwf.
  { unfold conn_wf, c0. cbn. split_and!; try reflexivity; try discriminate. }
  destruct (feed_refines_stream 1 c0 c' chunks es Hwf ltac:(reflexivity)
              ltac:(vm_compute; reflexivity) Hr) as [_ Hp].
  change (concat chunks) with (take 20 hello_frame ++ drop 20 hello_frame ++ ping_frame ++ []) in Hp.
  rewrite app_nil_r, app_assoc, take_drop in Hp.
  change (abs c0) with (St [] false false) in Hp. change (c_buf_cap c0) with 64 in Hp.
  change (ordered c0) with true in Hp. rewrite Hp. reflexivity.
Defined.

(** C40. Payload pointers: every frame of a batch names its payload right
    behind the header it was parsed from, inside the bytes received and
    in front of the new parse position, which feeding leaves in place until
    the buffer is compacted. *)
Theorem feed_payload_in_buffer (c c' : conn_t) (out_cap : Z) (acts : list conn_action_t)
    (Hwf : conn_wf c) (Hfeed : conn_feed c out_cap = (acts, c')) :
  Forall (λ a, match a with
    | CONN_ACTION_FRAME h p n =>
        n = h_payload_len h ∧ msg_header_valid h = true ∧ 0 <= n <= c_buf_cap c - 32 ∧
        match p with
        | Some off => 0 < n ∧ c_buf_off c + 32 <= off ∧ off + n <= c_buf_len c ∧
                      off + n <= c_buf_off c' ∧ h = header_of (sub (off - 32) 32 (c_buf c))
        | None => n = 0
        end
    | _ => True
    end) acts ∧ c_buf c' = c_buf c ∧ c_buf_len c' = c_buf_len c ∧
  c_buf_off c <= c_buf_off c' <= c_buf_len c.
Proof.
  destruct (feed_frames _ _ _ _ Hwf Hfeed) as [Hall Hb].
  destruct (feed_position _ _ _ _ Hwf Hfeed) as [Hl Ho].
  split_and!; [|done..|lia|lia]. eapply Forall_impl; [exact Hall|]. intros [h p n| |]; [|done..].
  intros (? & ? & ? & _ & Hp). destruct p; split_and!; done || lia || tauto.
Qed.

Lemma feed_payload_in_buffer_witness :
  ∃ c c' acts, conn_feed c 8 = (acts, c') ∧ (length acts = 2)%nat ∧ c_buf_off c' <= c_buf_len c.
Proof.
  set (c := Conn (hello_frame ++ ping_frame) 66 66 0 false CONN_MODE_CLIENT false).
  destruct (conn_feed c 8) as [acts c'] eqn:Hf. exists c, c', acts.
  split; [exact Hf|]. split.
  - vm_compute in Hf. apply (f_equal fst) in Hf. cbn in Hf. subst acts. reflexivity.
  - refine (proj2 (proj2 (proj2 (proj2 (feed_payload_in_buffer c c' 8 acts _ Hf))))).
    unfold conn_wf, c. cbn. split_and!; try reflexivity; try discriminate.
Defined.

(** C37. The opening frame: on a client connection, over any chunking, the
    first frame delivered is the one that opens it and no later frame opens
    it again; a stream that breaks the rule ends in an error. *)
Theorem opening_frame_first_and_once (out_cap : Z) (c c' : conn_t)
    (chunks : list (list byte)) (es : list event)
    (Hwf : conn_wf c) (Hout : 0 < out_cap) (Hidle : idle c) (Hmode : c_mode c = CONN_MODE_CLIENT)
    (Hrecv : receive out_cap c chunks = Some (es, c')) :
  frames_ordered (c_opened c) es.
Proof.
  destruct (receive_parse out_cap c chunks es c') as (_ & _ & _ & Hp); [done..|].
  unfold ordered in Hp. rewrite Hmode in Hp. cbn [Z.eqb CONN_MODE_CLIENT] in Hp.
  unfold parse_all in Hp.
  pose proof (parse_frames_ordered (c_buf_cap c) (2 + length (s_rest (extend (abs c) (concat chunks))))
    (extend (abs c) (concat chunks))) as Ho.
  rewrite Hp in Ho. cbn [fst] in Ho. unfold extend in Ho. by destruct (s_dead (abs c)).
Qed.

Lemma opening_frame_first_and_once_witness :
  ∃ es c', receive 8 (conn_init (zeros 64) 64 CONN_MODE_CLIENT) [hello_frame; hello_frame]
           = Some (es, c') ∧ length es = 2%nat ∧ frames_ordered false es.
Proof.
  destruct (receive 8 (conn_init (zeros 64) 64 CONN_MODE_CLIENT) [hello_frame; hello_frame])
    as [[es c']|] eqn:Hr; [|vm_compute in Hr; discriminate Hr].
  exists es, c'. split; [reflexivity|]. split.
  - apply (f_equal (fmap fst)) in Hr. vm_compute in Hr. injection Hr as <-. reflexivity.
  - refine (opening_frame_first_and_once 8 (conn_init (zeros 64) 64 CONN_MODE_CLIENT) c'
              [hello_frame; hello_frame] es _ _ _ _ Hr).
    + unfold conn_wf. cbn. split_and!; try reflexivity; try discriminate.
    + reflexivity.
    + vm_compute. reflexivity.
    + reflexivity.
Defined.

(** C38. No wedge: a connection that has been drained and is still open has
    room to receive once it is compacted, so a well-behaved peer is never
    dropped for want of buffer space. *)
Theorem drained_connection_has_room (out_cap : Z) (c c' : conn_t)
    (chunks : list (list byte)) (es : list event)
    (Hwf : conn_wf c) (Hout : 0 < out_cap) (Hidle : idle c)
    (Hrecv : receive out_cap c chunks = Some (es, c')) (Hopen : c_closed c' = false) :
  0 < conn_recv_space (conn_compact c') ∧ abs (conn_compact c') = abs c'.
Proof.
  destruct (receive_parse out_cap c chunks es c') as (Hwf' & Hcap & Hidle' & _); [done..|].
  destruct (conn_compact_spec c' Hwf') as (_ & Habs & _ & Hc & _ & Hl). split; [|done].
  pose proof (idle_has_room c' Hwf' Hidle' Hopen) as Hroom.
  unfold conn_recv_space. rewrite Hc, Hl. unfold pending in Hroom.
  destruct Hwf' as (Hb & _ & Hoff & Hlen & _). revert Hroom. len.
Qed.

Lemma drained_connection_has_room_witness :
  ∃ c', 0 < conn_recv_space (conn_compact c') ∧ c_buf_off c' = 34.
Proof.
  destruct (receive 8 (conn_init (zeros 64) 64 CONN_MODE_CLIENT)
              [hello_frame ++ take 30 ping_frame]) as [[es c']|] eqn:Hr;
    [|vm_compute in Hr; discriminate Hr].
  exists c'. assert (c_closed c' = false ∧ c_buf_off c' = 34) as [Hc Hoff].
  { apply (f_equal (fmap snd)) in Hr. vm_compute in Hr. injection Hr as <-. split; reflexivity. }
  split; [|exact Hoff].
  refine (proj1 (drained_connection_has_room 8 (conn_init (zeros 64) 64 CONN_MODE_CLIENT) c'
             [hello_frame ++ take 30 ping_frame] es _ _ _ Hr Hc)).
  - unfold conn_wf. cbn. split_and!; try reflexivity; try discriminate.
  - reflexivity.
  - vm_compute. reflexivity.
Defined.

End ConnProps.

Module ConnFindings.

(** With one place left in the batch a protocol error is emitted without the
    close that should follow it, and since the connection is now closed the
    next call emits nothing: the close is lost. *)
Lemma fatal_close_lost :
  let bad := Conn (bytes_of (repeat 0 32)) 32 32 0 false CONN_MODE_CLIENT false in
  let '(acts, c') := conn_feed bad 1 in
  acts = [CONN_ACTION_REPLY_ERR MSG_ERR_BAD_MAGIC 0] ∧ (conn_feed c' 8).1 = [].
Proof. vm_compute. done. Qed.

End ConnFindings.
