(* ===== verification/Record.v ===== *)
(** * WAL records (src/wal/record.h, record.c)

    The 56-byte record header, the padded size, and the encode, decode and
    verify routines.  [image] is the abstract form of a record on disk, and
    what the encoder is shown to produce. *)

From S2P Require Import Prelude Core Crc32c Msg.
Import Core.Mem.

Definition WAL_REC_HEADER_SIZE : Z := 56.
Definition WAL_MAX_PAYLOAD : Z := MSG_MAX_PAYLOAD.
Definition WAL_REC_MAX_SIZE : Z := WAL_REC_HEADER_SIZE + align8 WAL_MAX_PAYLOAD.
Definition CRC_OFFSET : Z := 4.

Record wal_rec_t := Rec {
  w_crc : Z; w_len : Z; w_term : Z; w_seq : Z; w_session : Z; w_client_seq : Z;
  w_record_type : Z; w_flags : Z; w_pad : Z; w_partition_key : Z }.

#[export] Instance eta_rec : Eta wal_rec_t := λ r,
  Rec (w_crc r) (w_len r) (w_term r) (w_seq r) (w_session r) (w_client_seq r)
    (w_record_type r) (w_flags r) (w_pad r) (w_partition_key r).

#[global] Instance rec_eq_dec : EqDecision wal_rec_t.
Proof. solve_decision. Defined.

Definition rec_ok (r : wal_rec_t) : Prop :=
  0 <= w_crc r < 2 ^ 32 ∧ 0 <= w_len r < 2 ^ 32 ∧ 0 <= w_term r < 2 ^ 64 ∧
  0 <= w_seq r < 2 ^ 64 ∧ 0 <= w_session r < 2 ^ 64 ∧ 0 <= w_client_seq r < 2 ^ 64 ∧
  0 <= w_record_type r < 2 ^ 16 ∧ 0 <= w_flags r < 2 ^ 16 ∧ 0 <= w_pad r < 2 ^ 32 ∧
  0 <= w_partition_key r < 2 ^ 64.

(** The struct after its checksum, and the whole struct. *)
Definition rec_body (r : wal_rec_t) : list byte :=
  le_split 4 (w_len r) ++ le_split 8 (w_term r) ++ le_split 8 (w_seq r) ++
  le_split 8 (w_session r) ++ le_split 8 (w_client_seq r) ++ le_split 2 (w_record_type r) ++
  le_split 2 (w_flags r) ++ le_split 4 (w_pad r) ++ le_split 8 (w_partition_key r).
Definition rec_bytes (r : wal_rec_t) : list byte := le_split 4 (w_crc r) ++ rec_body r.

Definition rec_of (m : list byte) : wal_rec_t :=
  Rec (get 0 4 m) (get 4 4 m) (get 8 8 m) (get 16 8 m) (get 24 8 m) (get 32 8 m)
    (get 40 2 m) (get 42 2 m) (get 44 4 m) (get 48 8 m).

Definition wal_rec_size (payload_len : Z) : Z :=
  if (payload_len <? 0) || (WAL_MAX_PAYLOAD <? payload_len) then 0
  else WAL_REC_HEADER_SIZE + align8 payload_len.

(** Bytes written, the buffer and the record as they are left.  The pointer
    arguments the code tests for NULL are values here, except [payload],
    which its callers do pass as NULL. *)
Definition wal_rec_encode (buf : list byte) (buf_len : Z) (r : wal_rec_t)
    (payload : option (list byte)) : Z * list byte * wal_rec_t :=
  let len := i32 (w_len r) in
  if (0 <? len) && bool_decide (payload = None) then (0, buf, r) else
  let total := wal_rec_size len in
  if (total =? 0) || (buf_len <? total) then (0, buf, r) else
  let padded := total - WAL_REC_HEADER_SIZE in
  let r := r <| w_crc := 0 |> <| w_pad := 0 |> in
  let buf := mem_copy buf 0 (rec_bytes r) 0 WAL_REC_HEADER_SIZE in
  let buf := if 0 <? len
             then mem_copy buf WAL_REC_HEADER_SIZE (default [] payload) 0 len else buf in
  let buf := if len <? padded
             then mem_zero buf (WAL_REC_HEADER_SIZE + len) (padded - len) else buf in
  let r := r <| w_crc := crc32c 0 (drop (Z.to_nat CRC_OFFSET) buf) (total - CRC_OFFSET) |> in
  let buf := mem_copy buf 0 (le_split 4 (w_crc r)) 0 4 in
  (total, buf, r).

Definition wal_rec_decode (buf : list byte) (buf_len : Z) : option wal_rec_t :=
  if buf_len <? WAL_REC_HEADER_SIZE then None
  else Some (rec_of (sub 0 WAL_REC_HEADER_SIZE buf)).

Definition wal_rec_is_end (r : wal_rec_t) : bool := w_seq r =? 0.

Definition wal_rec_verify (buf : list byte) (buf_len : Z) (r : wal_rec_t) : bool :=
  let total := wal_rec_size (i32 (w_len r)) in
  if (total =? 0) || (buf_len <? total) then false else
  crc32c 0 (drop (Z.to_nat CRC_OFFSET) buf) (total - CRC_OFFSET) =? w_crc r.

(** ** Sizes *)

Lemma rec_size_pos n : 0 <= n <= WAL_MAX_PAYLOAD → wal_rec_size n = 56 + align8 n.
Proof.
  intros. unfold wal_rec_size.
  by rewrite (proj2 (Z.ltb_ge _ _)), (proj2 (Z.ltb_ge _ _)) by lia.
Qed.

Lemma rec_size_cases n :
  wal_rec_size n = 0 ∧ (n < 0 ∨ WAL_MAX_PAYLOAD < n) ∨
  wal_rec_size n = 56 + align8 n ∧ 0 <= n <= WAL_MAX_PAYLOAD.
Proof.
  unfold wal_rec_size. destruct (Z.ltb_spec n 0), (Z.ltb_spec WAL_MAX_PAYLOAD n); cbn [orb];
    auto with lia.
Qed.

Lemma rec_size_nonzero n : wal_rec_size n ≠ 0 →
  wal_rec_size n = 56 + align8 n ∧ 0 <= n <= WAL_MAX_PAYLOAD ∧ 56 <= wal_rec_size n <= WAL_REC_MAX_SIZE.
Proof.
  intros Hn. destruct (rec_size_cases n) as [[? _]|[-> Hr]]; [done|].
  pose proof (align8_bounds n). rewrite align8_eq in *.
  unfold WAL_REC_MAX_SIZE, WAL_MAX_PAYLOAD, MSG_MAX_PAYLOAD, WAL_REC_HEADER_SIZE in *.
  rewrite align8_eq. split_and!; try done; try lia. Z.div_mod_to_equations. lia.
Qed.

(** A length read off disk goes through a cast to [int32_t]; whatever the 32
    bits were, the gate accepts exactly the lengths in range. *)
Lemma rec_size_cast l :
  0 <= l < 2 ^ 32 → wal_rec_size (i32 l) = if l <=? WAL_MAX_PAYLOAD then 56 + align8 l else 0.
Proof.
  intros Hl. destruct (Z.leb_spec l WAL_MAX_PAYLOAD) as [H|H];
    unfold WAL_MAX_PAYLOAD, MSG_MAX_PAYLOAD in H.
  - rewrite i32_id by lia. apply rec_size_pos.
    unfold WAL_MAX_PAYLOAD, MSG_MAX_PAYLOAD. lia.
  - destruct (rec_size_cases (i32 l)) as [[? _]|[_ Hr]]; [done|exfalso].
    unfold WAL_MAX_PAYLOAD, MSG_MAX_PAYLOAD in Hr.
    destruct (Z.lt_ge_cases l (2 ^ 31)); [rewrite i32_id in Hr|rewrite i32_wrap_neg in Hr]; lia.
Qed.

(** ** The struct codec *)

Lemma length_rec_body r : length (rec_body r) = 52%nat.
Proof. unfold rec_body. len. Qed.
Lemma length_rec_bytes r : length (rec_bytes r) = 56%nat.
Proof. unfold rec_bytes. rewrite length_app, length_rec_body. len. Qed.
#[export] Hint Rewrite length_rec_body length_rec_bytes : len.

Lemma rec_of_bytes r m : rec_ok r → rec_of (rec_bytes r ++ m) = r.
Proof.
  intros (?&?&?&?&?&?&?&?&?&?). unfold rec_of, rec_bytes, rec_body. rewrite <-!app_assoc.
  destruct r; cbn [w_crc w_len w_term w_seq w_session w_client_seq w_record_type w_flags
    w_pad w_partition_key] in *. f_equal; get_field.
Qed.

Lemma rec_of_ok m : rec_ok (rec_of m).
Proof.
  unfold rec_ok, rec_of. cbn [w_crc w_len w_term w_seq w_session w_client_seq w_record_type
    w_flags w_pad w_partition_key].
  split_and!; first [apply (get_range _ 4); lia | apply (get_range _ 2); lia
    | apply (get_range _ 8); lia].
Qed.

Lemma rec_bytes_of m : length m = 56%nat → rec_bytes (rec_of m) = m.
Proof.
  intros Hl. unfold rec_bytes, rec_body, rec_of. cbn [w_crc w_len w_term w_seq w_session
    w_client_seq w_record_type w_flags w_pad w_partition_key].
  change 8%nat with (Z.to_nat 8). change 4%nat with (Z.to_nat 4). change 2%nat with (Z.to_nat 2).
  rewrite !le_split_get by lia.
  transitivity (sub 0 (4 + (4 + (8 + (8 + (8 + (8 + (2 + (2 + (4 + 8))))))))) m);
    [|apply sub_all; lia].
  rewrite !sub_split by lia. done.
Qed.

Lemma rec_of_sub m : rec_of (sub 0 56 m) = rec_of m.
Proof. unfold rec_of. by rewrite !get_sub by lia. Qed.

Lemma rec_of_app m r : (56 <= length m)%nat → rec_of (m ++ r) = rec_of m.
Proof. intros. unfold rec_of. by rewrite !get_app_l by lia. Qed.

Lemma decode_eq buf n : 56 <= n → wal_rec_decode buf n = Some (rec_of buf).
Proof.
  intros. unfold wal_rec_decode, WAL_REC_HEADER_SIZE.
  rewrite (proj2 (Z.ltb_ge _ _)) by lia. by rewrite rec_of_sub.
Qed.

(** ** The record on disk *)

Definition pad_len (n : Z) : Z := align8 n - n.

(** What the checksum covers, and the whole record. *)
Definition covered (r : wal_rec_t) (payload : list byte) : list byte :=
  rec_body r ++ payload ++ zeros (pad_len (zlen payload)).
Definition image (r : wal_rec_t) (payload : list byte) : list byte :=
  le_split 4 (w_crc r) ++ covered r payload.

(** A record as it is stored: the fields in range, the length the payload's,
    the checksum right. *)
Definition stored (r : wal_rec_t) (payload : list byte) : Prop :=
  rec_ok r ∧ w_len r = zlen payload ∧ zlen payload <= WAL_MAX_PAYLOAD ∧
  w_crc r = crc32c_ref 0 (covered r payload).

Lemma length_covered r p : zlen (covered r p) = 52 + align8 (zlen p).
Proof.
  unfold covered, pad_len. pose proof (align8_bounds (zlen p)).
  rewrite !length_app, length_rec_body, length_zeros. lia.
Qed.

Lemma length_image r p : zlen (image r p) = 56 + align8 (zlen p).
Proof.
  unfold image. rewrite length_app, length_le_split, Nat2Z.inj_add, length_covered. lia.
Qed.

Lemma image_size r p :
  stored r p → wal_rec_size (i32 (w_len r)) = zlen (image r p).
Proof.
  intros (Hok & Hl & Hp & _). rewrite length_image, rec_size_cast by apply Hok.
  rewrite Hl. by rewrite (proj2 (Z.leb_le _ _)).
Qed.

Lemma image_bytes r p : image r p = rec_bytes r ++ p ++ zeros (pad_len (zlen p)).
Proof. unfold image, covered, rec_bytes. by rewrite <-app_assoc. Qed.

Lemma rec_of_image r p m : rec_ok r → rec_of (image r p ++ m) = r.
Proof. intros. rewrite image_bytes, <-app_assoc. by apply rec_of_bytes. Qed.

Lemma image_payload r p m : sub 56 (zlen p) (image r p ++ m) = p.
Proof.
  rewrite image_bytes, <-!app_assoc. rewrite sub_app_r by (rewrite length_rec_bytes; lia).
  rewrite length_rec_bytes. by apply sub_app_l.
Qed.

(** A verifier handed a stored record, and whatever follows it, accepts. *)
Lemma verify_image r p m n :
  stored r p → zlen (image r p) <= n → wal_rec_verify (image r p ++ m) n r = true.
Proof.
  intros Hs Hn. unfold wal_rec_verify. rewrite (image_size r p Hs).
  pose proof (length_image r p) as Hli. pose proof (align8_bounds (zlen p)).
  rewrite (proj2 (Z.eqb_neq _ _)), (proj2 (Z.ltb_ge _ _)) by lia. cbn [orb].
  apply Z.eqb_eq. destruct Hs as (_ & _ & _ & ->). unfold CRC_OFFSET.
  assert (drop (Z.to_nat 4) (image r p ++ m) = covered r p ++ m) as ->.
  { unfold image. rewrite <-app_assoc. apply drop_app_length'. by rewrite length_le_split. }
  pose proof (length_covered r p) as Hlc.
  rewrite crc32c_is_ref by (rewrite length_app; lia).
  f_equal. apply sub_app_l. lia.
Qed.

(** ** The encoder produces the image *)

Definition sealed (r : wal_rec_t) (payload : list byte) : wal_rec_t :=
  r <| w_pad := 0 |>
    <| w_crc := crc32c_ref 0 (covered (r <| w_pad := 0 |>) payload) |>.

Lemma sealed_stored r p :
  rec_ok r → w_len r = zlen p → zlen p <= WAL_MAX_PAYLOAD → stored (sealed r p) p.
Proof.
  intros Hok Hl Hp. unfold stored, sealed, rec_ok in *. cbn. destruct Hok as (?&?&?&?&?&?&?&?&?&?).
  split_and!; try done; try lia; apply crc32c_ref_range; lia.
Qed.

Lemma blit_app_here {A} (a b src : list A) :
  (length src <= length b)%nat → blit (a ++ b) (zlen a) src = a ++ src ++ drop (length src) b.
Proof.
  intros. unfold blit. rewrite Nat2Z.id, take_app_length. f_equal. f_equal.
  by rewrite drop_app_add.
Qed.

(** Laying a block down right after what is already written. *)
Lemma copy_here (a b src : list byte) n :
  n = zlen src → n <= zlen b →
  mem_copy (a ++ b) (zlen a) src 0 n = (a ++ src) ++ drop (Z.to_nat n) b.
Proof.
  intros -> ?. rewrite mem_copy_blit by (rewrite ?length_app; lia).
  rewrite sub_all, blit_app_here by lia. by rewrite <-app_assoc, Nat2Z.id.
Qed.

Lemma zero_here (a b : list byte) n :
  0 <= n <= zlen b →
  mem_zero (a ++ b) (zlen a) n = (a ++ zeros n) ++ drop (Z.to_nat n) b.
Proof.
  intros ?. rewrite mem_zero_blit by (rewrite ?length_app; lia).
  rewrite blit_app_here by (rewrite length_zeros; lia).
  by rewrite <-app_assoc, length_zeros.
Qed.

(** The buffer after the header, the payload and the padding. *)
Lemma encode_layout buf r p :
  56 + align8 (zlen p) <= zlen buf →
  let buf1 := mem_copy buf 0 (rec_bytes r) 0 56 in
  let buf2 := if 0 <? zlen p then mem_copy buf1 56 p 0 (zlen p) else buf1 in
  (if zlen p <? align8 (zlen p)
   then mem_zero buf2 (56 + zlen p) (align8 (zlen p) - zlen p) else buf2) =
  image r p ++ drop (Z.to_nat (56 + align8 (zlen p))) buf.
Proof.
  intros Hb buf1 buf2. pose proof (align8_bounds (zlen p)) as Ha.
  pose proof (length_rec_bytes r) as Hlr. rewrite image_bytes. unfold pad_len.
  assert (buf1 = rec_bytes r ++ drop 56 buf) as H1.
  { exact (copy_here [] buf (rec_bytes r) 56 ltac:(lia) ltac:(lia)). }
  assert (buf2 = (rec_bytes r ++ p) ++ drop (56 + length p) buf) as H2.
  { unfold buf2. rewrite H1. destruct (Z.ltb_spec 0 (zlen p)).
    - replace 56 with (zlen (rec_bytes r)) at 1 by lia.
      rewrite copy_here by (rewrite ?length_drop; lia). rewrite drop_drop. do 2 f_equal. lia.
    - destruct p; [|cbn in *; lia]. by rewrite app_nil_r, Nat.add_0_r. }
  rewrite H2. destruct (Z.ltb_spec (zlen p) (align8 (zlen p))).
  - replace (56 + zlen p) with (zlen (rec_bytes r ++ p)) by (rewrite length_app; lia).
    rewrite zero_here by (rewrite length_drop; lia).
    rewrite drop_drop, <-!app_assoc. do 4 f_equal. lia.
  - replace (align8 (zlen p) - zlen p) with 0 by lia.
    change (zeros 0) with (@nil byte). rewrite app_nil_r. do 2 f_equal. lia.
Qed.

Lemma encode_spec buf r payload :
  rec_ok r → w_len r = zlen (default [] payload) → zlen (default [] payload) <= WAL_MAX_PAYLOAD →
  56 + align8 (w_len r) <= zlen buf →
  wal_rec_encode buf (zlen buf) r payload =
    let p := default [] payload in
    (56 + align8 (w_len r),
     image (sealed r p) p ++ drop (Z.to_nat (56 + align8 (w_len r))) buf, sealed r p).
Proof.
  intros Hok Hl Hp Hb. set (p := default [] payload) in *.
  pose proof (align8_bounds (zlen p)) as Ha.
  unfold wal_rec_encode. fold p. rewrite Hl in *. unfold WAL_MAX_PAYLOAD, MSG_MAX_PAYLOAD in Hp.
  rewrite i32_id by lia.
  assert ((0 <? zlen p) && bool_decide (payload = None) = false) as ->.
  { apply andb_false_iff. destruct payload; [by right|left]. done. }
  rewrite rec_size_pos by (unfold WAL_MAX_PAYLOAD, MSG_MAX_PAYLOAD; lia).
  rewrite (proj2 (Z.eqb_neq _ _)), (proj2 (Z.ltb_ge _ _)) by lia. cbn [orb].
  unfold WAL_REC_HEADER_SIZE. replace (56 + align8 (zlen p) - 56) with (align8 (zlen p)) by lia.
  cbv zeta. rewrite (encode_layout buf (r <| w_crc := 0 |> <| w_pad := 0 |>) p Hb).
  set (rest := drop _ buf). set (r0 := r <| w_crc := 0 |> <| w_pad := 0 |>).
  assert (crc32c 0 (drop (Z.to_nat CRC_OFFSET) (image r0 p ++ rest)) (56 + align8 (zlen p) - 4)
          = w_crc (sealed r p)) as Hcrc.
  { pose proof (length_covered r0 p).
    assert (drop (Z.to_nat CRC_OFFSET) (image r0 p ++ rest) = covered r0 p ++ rest) as ->.
    { unfold image. rewrite <-app_assoc. apply drop_app_length'. by rewrite length_le_split. }
    rewrite crc32c_is_ref by (rewrite length_app; lia). rewrite sub_app_l by lia. done. }
  unfold CRC_OFFSET in *. rewrite Hcrc. do 2 f_equal.
Qed.

(** ** What the verifier accepts *)

Lemma crc_field m : w_crc (rec_of m) = le_combine (take 4 m).
Proof. unfold rec_of. cbn. unfold get, sub. by rewrite drop_0. Qed.

Lemma len_field m : w_len (rec_of m) = le_combine (take 4 (drop 4 m)).
Proof. done. Qed.

(** The verifier accepts a buffer exactly when the record it claims is there
    whole and the checksum it carries is that of the bytes behind it. *)
Lemma verify_true buf n r :
  0 <= w_len r < 2 ^ 32 → n <= zlen buf →
  wal_rec_verify buf n r = true ↔
  w_len r <= WAL_MAX_PAYLOAD ∧ 56 + align8 (w_len r) <= n ∧
  crc32c_ref 0 (sub 4 (52 + align8 (w_len r)) buf) = w_crc r.
Proof.
  intros Hl Hn. unfold wal_rec_verify. rewrite rec_size_cast by done.
  pose proof (align8_bounds (w_len r)) as Ha.
  destruct (Z.leb_spec (w_len r) WAL_MAX_PAYLOAD).
  2:{ cbn. split; [done|lia]. }
  rewrite (proj2 (Z.eqb_neq _ _)) by lia. cbn [orb].
  destruct (Z.ltb_spec n (56 + align8 (w_len r))); [split; [done|lia]|].
  rewrite crc32c_is_ref by (unfold CRC_OFFSET; rewrite length_drop; lia).
  assert (sub 0 (56 + align8 (w_len r) - CRC_OFFSET) (drop (Z.to_nat CRC_OFFSET) buf)
          = sub 4 (52 + align8 (w_len r)) buf) as ->.
  { unfold sub, CRC_OFFSET. rewrite drop_drop. do 2 f_equal; lia. }
  rewrite Z.eqb_eq. tauto.
Qed.

(** A block is the same before and behind the part of it that changed. *)
Lemma drop_past {A} n (pre w1 w2 post : list A) :
  length w1 = length w2 → (length pre + length w1 <= n)%nat →
  drop n (pre ++ w1 ++ post) = drop n (pre ++ w2 ++ post).
Proof.
  intros Hl Hn. rewrite (app_assoc pre w1), (app_assoc pre w2).
  rewrite (drop_app_ge (pre ++ w1)), (drop_app_ge (pre ++ w2)) by (rewrite length_app; lia).
  by rewrite !length_app, Hl.
Qed.

Lemma take_before {A} n (pre m1 m2 : list A) :
  (n <= length pre)%nat → take n (pre ++ m1) = take n (pre ++ m2).
Proof. intros. by rewrite !take_app_le. Qed.

Module RecordProps.

(** C26. Round trip: whatever the buffer held, encoding a record into it and
    reading it back gives the fields that were encoded with the checksum the
    encoder reported, the verifier accepts them, and the payload is the one
    given; the bytes behind the record are not touched. *)
Theorem record_roundtrip (buf : list byte) (r : wal_rec_t) (payload : list byte)
    (Hok : rec_ok r) (Hlen : w_len r = zlen payload) (Hmax : zlen payload <= WAL_MAX_PAYLOAD)
    (Hroom : wal_rec_size (zlen payload) <= zlen buf) :
  let '(n, buf', r') := wal_rec_encode buf (zlen buf) r (Some payload) in
  n = wal_rec_size (zlen payload) ∧ zlen buf' = zlen buf ∧
  wal_rec_decode buf' (zlen buf') = Some r' ∧
  (w_len r', w_term r', w_seq r', w_session r', w_client_seq r',
     w_record_type r', w_flags r', w_partition_key r') =
  (w_len r, w_term r, w_seq r, w_session r, w_client_seq r,
     w_record_type r, w_flags r, w_partition_key r) ∧
  wal_rec_verify buf' (zlen buf') r' = true ∧
  sub WAL_REC_HEADER_SIZE (zlen payload) buf' = payload ∧
  drop (Z.to_nat n) buf' = drop (Z.to_nat n) buf.
Proof.
  rewrite rec_size_pos in * by lia.
  rewrite encode_spec by (try done; rewrite Hlen; done). change (default [] (Some payload)) with payload. cbv beta iota zeta.
  rewrite Hlen. set (rest := drop _ buf).
  pose proof (sealed_stored r payload Hok Hlen Hmax) as Hs.
  pose proof (length_image (sealed r payload) payload) as Hli.
  pose proof (align8_bounds (zlen payload)).
  assert (zlen (image (sealed r payload) payload ++ rest) = zlen buf) as Hlb.
  { unfold rest. rewrite length_app, length_drop. lia. }
  rewrite Hlb. split_and!; try done.
  - rewrite decode_eq by lia. rewrite rec_of_image by apply Hs. done.
  - unfold sealed. cbn. by rewrite Hlen.
  - apply verify_image; [done|lia].
  - apply image_payload.
  - apply drop_app_length'. lia.
Qed.

Lemma record_roundtrip_witness :
  let r := Rec 0 3 1 7 5 2 1 0 0 9 in
  (let '(n, buf', r') := wal_rec_encode (zeros 80) 80 r (Some (bytes_of [1; 2; 3])) in
   n = 64 ∧ wal_rec_verify buf' 80 r' = true).
Proof.
  pose proof (record_roundtrip (zeros 80) (Rec 0 3 1 7 5 2 1 0 0 9) (bytes_of [1; 2; 3])
    ltac:(unfold rec_ok; cbn; lia) eq_refl ltac:(vm_compute; discriminate)
    ltac:(vm_compute; discriminate)) as H.
  cbv zeta. change (zlen (zeros 80)) with 80 in H.
  destruct (wal_rec_encode _ _ _ _) as [[n b] r']. destruct H as (Hn & Hb & _ & _ & Hv & _).
  rewrite Hb in Hv. split; [exact Hn|exact Hv].
Defined.

(** C27. A stored record damaged on disk is rejected: if at most four
    consecutive bytes of it change, none of them in the length field, the
    verifier refuses the header decoded from the damaged bytes. *)
Theorem damaged_record_rejected (r : wal_rec_t) (payload pre w1 w2 post tail : list byte)
    (Hst : stored r payload) (Himg : image r payload = pre ++ w1 ++ post)
    (Hlen : length w1 = length w2) (H4 : (length w1 <= 4)%nat) (Hne : w1 ≠ w2)
    (Hwhere : zlen pre + zlen w1 <= 4 ∨ 8 <= zlen pre) :
  let m := pre ++ w2 ++ post ++ tail in
  wal_rec_verify m (zlen m) (rec_of m) = false.
Proof.
  intros m. apply not_true_is_false. intros Hv. destruct Hst as (Hok & Hl & Hmax & Hcrc).
  pose proof (length_image r payload) as Hli. pose proof (align8_bounds (zlen payload)).
  rewrite Himg in Hli. rewrite !length_app in Hli.
  apply verify_true in Hv; [|apply rec_of_ok|lia]. destruct Hv as (_ & _ & Hv).
  assert (rec_of (image r payload) = r) as Hro.
  { rewrite <-(app_nil_r (image r payload)). by apply rec_of_image. }
  set (m0 := pre ++ w2 ++ post).
  assert (m = m0 ++ tail) as Hm by (unfold m, m0; by rewrite <-!app_assoc).
  assert (length m0 = length (pre ++ w1 ++ post)) as Hl0.
  { unfold m0. rewrite !length_app. lia. }
  rewrite !length_app in Hl0.
  assert (w_len (rec_of m) = zlen payload) as Hlm.
  { rewrite <-Hl, <-Hro, Hm, rec_of_app, !len_field, Himg by lia. f_equal. destruct Hwhere.
    - f_equal. symmetry. apply drop_past; lia.
    - rewrite !take_drop_commute. f_equal. apply take_before. lia. }
  rewrite Hlm in Hv.
  assert (covered r payload = drop 4 (pre ++ w1 ++ post)) as Hcov.
  { rewrite <-Himg. unfold image. symmetry. apply drop_app_length'. by rewrite length_le_split. }
  assert (sub 4 (52 + align8 (zlen payload)) m = drop 4 m0) as Hsub.
  { unfold sub. rewrite Hm, drop_app_le by lia.
    rewrite take_app_le by (rewrite length_drop; lia).
    apply take_ge. rewrite length_drop. lia. }
  rewrite Hsub in Hv. rewrite Hcov in Hcrc. rewrite <-Hro, Himg in Hcrc.
  rewrite Hm, rec_of_app in Hv by lia. rewrite crc_field in Hv, Hcrc. unfold m0 in Hv.
  destruct Hwhere.
  - (* the damage is in the checksum itself *)
    rewrite (drop_past 4 pre w2 w1), <-Hcrc in Hv by lia. apply (le_combine_inj' 4) in Hv;
      [|rewrite length_take, !length_app; lia..].
    assert (pre ++ w1 ++ post = pre ++ w2 ++ post) as Heq.
    { rewrite <-(take_drop 4 (pre ++ w1 ++ post)), <-(take_drop 4 (pre ++ w2 ++ post)), Hv.
      f_equal. apply drop_past; lia. }
    apply app_inv_head, app_inj_1 in Heq; [|done]. by apply Hne, Heq.
  - (* the damage is under the checksum *)
    rewrite (take_before 4 pre _ (w1 ++ post)), Hcrc in Hv by lia.
    rewrite !drop_app_le in Hv by lia.
    apply crc32c_ref_burst in Hv; [by apply Hne|lia..].
Qed.

Lemma damaged_record_rejected_witness :
  let r := sealed (Rec 0 1 1 7 5 2 1 0 0 9) (bytes_of [1]) in
  let img := image r (bytes_of [1]) in
  wal_rec_verify (take 20 img ++ bytes_of [1] ++ drop 21 img) 64
    (rec_of (take 20 img ++ bytes_of [1] ++ drop 21 img)) = false.
Proof.
  pose (r := sealed (Rec 0 1 1 7 5 2 1 0 0 9) (bytes_of [1])).
  pose (img := image r (bytes_of [1])).
  pose proof (damaged_record_rejected r (bytes_of [1]) (take 20 img) (take 1 (drop 20 img))
    (bytes_of [1]) (drop 21 img) []
    ltac:(apply sealed_stored; [unfold rec_ok; cbn; lia|done|vm_compute; discriminate])
    ltac:(vm_compute; reflexivity) ltac:(vm_compute; reflexivity) ltac:(vm_compute; lia)
    ltac:(vm_compute; intros E; discriminate E) ltac:(right; vm_compute; discriminate)) as H.
  cbv zeta in *. rewrite app_nil_r in H. exact H.
Defined.

(** The length gate: for every 32-bit length field read off disk the
    size is zero exactly when the length is above the payload limit (the ones
    the cast makes negative included), and otherwise it is a multiple of
    eight, at most [WAL_REC_MAX_SIZE], the header plus fewer than eight bytes
    of padding. *)
Theorem record_size_gate (l : Z) (Hl : 0 <= l < 2 ^ 32) :
  (wal_rec_size (i32 l) = 0 ↔ WAL_MAX_PAYLOAD < l) ∧
  (l <= WAL_MAX_PAYLOAD →
     wal_rec_size (i32 l) mod 8 = 0 ∧
     WAL_REC_HEADER_SIZE + l <= wal_rec_size (i32 l) < WAL_REC_HEADER_SIZE + l + 8 ∧
     wal_rec_size (i32 l) <= WAL_REC_MAX_SIZE).
Proof.
  pose proof (rec_size_cast l Hl) as Hc. pose proof (align8_bounds l).
  rewrite Hc. destruct (Z.leb_spec l WAL_MAX_PAYLOAD) as [Hm|Hm]; split.
  - lia.
  - intros _. unfold WAL_REC_HEADER_SIZE. split_and!; try lia.
    + rewrite Z.add_mod, align8_mod by lia. done.
    + rewrite <-(rec_size_pos l) by lia. apply rec_size_nonzero. rewrite rec_size_pos; lia.
  - lia.
  - lia.
Qed.

Lemma record_size_gate_witness : wal_rec_size (i32 (2 ^ 32 - 1)) = 0.
Proof. refine (proj2 (proj1 (record_size_gate (2 ^ 32 - 1) _)) _); by vm_compute. Defined.

End RecordProps.
