(* ===== verification/Index.v ===== *)
(** * The partition-key index (src/wal/index.h, index.c)

    The table that bounds a reader's walk for one key.  The abstract side is
    computed from the records themselves: the first [WAL_INDEX_KEYS] distinct
    keys in order of appearance, each with the first and last sequence that
    carries it and how many do. *)

From S2P Require Import Prelude Core Crc32c Msg Record.

Definition WAL_INDEX_KEYS : Z := 1024.

Record wal_index_key_t := IKey { ik_key : Z; ik_first : Z; ik_last : Z; ik_count : Z }.
#[export] Instance eta_ikey : Eta wal_index_key_t := λ k,
  IKey (ik_key k) (ik_first k) (ik_last k) (ik_count k).

(** [ix_keys] is the live prefix [keys[0..count)] of the array; the code reads
    no entry at or past [count], so [count] is the length of the list. *)
Record wal_index_t := Index { ix_keys : list wal_index_key_t; ix_unknown : Z }.
#[export] Instance eta_index : Eta wal_index_t := λ x, Index (ix_keys x) (ix_unknown x).

Definition ix_count (ix : wal_index_t) : Z := zlen (ix_keys ix).

Definition wal_index_init : wal_index_t := Index [] 0.

Definition find (ix : wal_index_t) (key : Z) : option (nat * wal_index_key_t) :=
  list_find (λ k, ik_key k = key) (ix_keys ix).

Definition wal_index_add (ix : wal_index_t) (r : wal_rec_t) : wal_index_t :=
  if w_seq r =? 0 then ix else
  let account k := k <| ik_last := w_seq r |> <| ik_count := u64 (ik_count k + 1) |> in
  match find ix (w_partition_key r) with
  | Some (i, k) => ix <| ix_keys := <[i := account k]> (ix_keys ix) |>
  | None =>
      if WAL_INDEX_KEYS <=? ix_count ix
      then ix <| ix_unknown := u64 (ix_unknown ix + 1) |>
      else ix <| ix_keys := ix_keys ix ++ [account (IKey (w_partition_key r) (w_seq r) 0 0)] |>
  end.

(** [Some (out_from, out_last)] where the code answers TRUE. *)
Definition wal_index_range (ix : wal_index_t) (key from : Z) : option (Z * Z) :=
  match find ix key with
  | Some (_, k) => Some (if from <? ik_first k then ik_first k else from, ik_last k)
  | None => None
  end.

Definition wal_index_complete (ix : wal_index_t) : bool := ix_unknown ix =? 0.

Definition wal_index_count (ix : wal_index_t) : Z := ix_count ix.

Definition wal_index_at (ix : wal_index_t) (i : Z) : option wal_index_key_t :=
  if (i <? 0) || (ix_count ix <=? i) then None else zget (ix_keys ix) i.

(** ** The reference *)

Definition logged (recs : list wal_rec_t) : list wal_rec_t :=
  filter (λ r, w_seq r ≠ 0) recs.

Definition of_key (key : Z) (recs : list wal_rec_t) : list wal_rec_t :=
  filter (λ r, w_partition_key r = key) recs.

(** The distinct keys, in order of first appearance. *)
Definition keys_seen (recs : list wal_rec_t) : list Z :=
  foldl (λ ks r, if decide (w_partition_key r ∈ ks) then ks else ks ++ [w_partition_key r])
    [] recs.

Definition summary (recs : list wal_rec_t) (key : Z) : wal_index_key_t :=
  IKey key (from_option w_seq 0 (head (of_key key recs)))
    (from_option w_seq 0 (last (of_key key recs))) (u64 (zlen (of_key key recs))).

Definition tracked (recs : list wal_rec_t) : list Z :=
  take (Z.to_nat WAL_INDEX_KEYS) (keys_seen recs).

Definition index_ref (recs : list wal_rec_t) : wal_index_t :=
  Index (summary recs <$> tracked recs)
    (u64 (zlen (filter (λ r, w_partition_key r ∉ tracked recs) recs))).

(** ** The table follows the reference *)

Lemma keys_seen_snoc recs r :
  keys_seen (recs ++ [r]) =
    if decide (w_partition_key r ∈ keys_seen recs) then keys_seen recs
    else keys_seen recs ++ [w_partition_key r].
Proof. unfold keys_seen. by rewrite foldl_app. Qed.

Lemma keys_seen_elem recs k :
  k ∈ keys_seen recs ↔ ∃ r, r ∈ recs ∧ w_partition_key r = k.
Proof.
  induction recs as [|r recs IH] using rev_ind.
  { split; [by intros ?%elem_of_nil|by intros (? & ?%elem_of_nil & _)]. }
  rewrite keys_seen_snoc. setoid_rewrite elem_of_app. setoid_rewrite list_elem_of_singleton.
  case_decide as Hin.
  - rewrite IH. naive_solver.
  - rewrite elem_of_app, list_elem_of_singleton, IH. naive_solver.
Qed.

Lemma keys_seen_nodup recs : NoDup (keys_seen recs).
Proof.
  induction recs as [|r recs IH] using rev_ind; [constructor|].
  rewrite keys_seen_snoc. case_decide; [done|].
  apply NoDup_app. split_and!; [done| |apply NoDup_singleton].
  intros x Hx ->%list_elem_of_singleton. done.
Qed.

Lemma of_key_snoc key recs r :
  of_key key (recs ++ [r]) =
    of_key key recs ++ (if decide (w_partition_key r = key) then [r] else []).
Proof. unfold of_key. rewrite filter_app. by rewrite filter_cons. Qed.

Lemma of_key_elem key recs r : r ∈ of_key key recs ↔ w_partition_key r = key ∧ r ∈ recs.
Proof. unfold of_key. by rewrite list_elem_of_filter. Qed.

Lemma of_key_nil key recs : of_key key recs = [] ↔ key ∉ keys_seen recs.
Proof.
  rewrite keys_seen_elem. split.
  - intros Hn (r & Hr & Hk). apply (not_elem_of_nil r). rewrite <-Hn. by apply of_key_elem.
  - intros Hn. apply filter_none. naive_solver.
Qed.

Lemma summary_other recs r key :
  w_partition_key r ≠ key → summary (recs ++ [r]) key = summary recs key.
Proof. intros. unfold summary. rewrite of_key_snoc, decide_False by done. by rewrite app_nil_r. Qed.

Lemma summary_again recs r :
  w_partition_key r ∈ keys_seen recs →
  summary (recs ++ [r]) (w_partition_key r) =
    (summary recs (w_partition_key r)) <| ik_last := w_seq r |>
      <| ik_count ::= λ c, u64 (c + 1) |>.
Proof.
  intros Hin. unfold summary. cbn. rewrite of_key_snoc, decide_True by done.
  unfold upd. cbn. rewrite last_snoc, length_app, u64_add_l. cbn.
  destruct (of_key _ recs) eqn:E; [by apply of_key_nil in E|]. cbn. do 2 f_equal. lia.
Qed.

Lemma summary_first recs r :
  w_partition_key r ∉ keys_seen recs →
  summary (recs ++ [r]) (w_partition_key r) =
    IKey (w_partition_key r) (w_seq r) (w_seq r) 1.
Proof.
  intros Hin%of_key_nil. unfold summary. by rewrite of_key_snoc, decide_True, Hin.
Qed.

Lemma find_None recs key : find (index_ref recs) key = None ↔ key ∉ tracked recs.
Proof.
  unfold find, index_ref. cbn. rewrite list_find_None, Forall_fmap, Forall_forall. cbn.
  split; [intros H Hin; by apply (H key)|intros H x Hx ->; done].
Qed.

Lemma find_Some recs key i k :
  find (index_ref recs) key = Some (i, k) →
  tracked recs !! i = Some key ∧ k = summary recs key.
Proof.
  unfold find, index_ref. cbn. rewrite list_find_Some. intros (Hi & Hk & _).
  apply list_lookup_fmap_Some in Hi as (x & -> & Hx). by cbn in Hk; subst.
Qed.

Lemma tracked_elem recs i key : tracked recs !! i = Some key → key ∈ keys_seen recs.
Proof. intros H%list_elem_of_lookup_2. by eapply elem_of_take in H as (? & ?%list_elem_of_lookup_2 & _). Qed.

(** Once the table is full the tracked keys no longer change. *)
Lemma tracked_snoc recs r :
  tracked (recs ++ [r]) =
    if decide (w_partition_key r ∈ keys_seen recs) then tracked recs
    else if decide (length (keys_seen recs) < 1024)%nat
         then tracked recs ++ [w_partition_key r] else tracked recs.
Proof.
  unfold tracked. rewrite keys_seen_snoc. case_decide; [done|].
  change (Z.to_nat WAL_INDEX_KEYS) with 1024%nat. case_decide.
  - by rewrite !take_ge by (rewrite ?length_app; cbn; lia).
  - by rewrite take_app_le by lia.
Qed.

(** A key seen and not tracked means the table is full. *)
Lemma untracked_full recs key :
  key ∈ keys_seen recs → key ∉ tracked recs → (1024 < length (keys_seen recs))%nat.
Proof.
  intros Hin Hn. apply Nat.lt_nge. intros Hle. apply Hn. unfold tracked.
  change (Z.to_nat WAL_INDEX_KEYS) with 1024%nat. by rewrite take_ge.
Qed.

Lemma length_tracked recs : zlen (tracked recs) = Z.min 1024 (zlen (keys_seen recs)).
Proof. unfold tracked. rewrite length_take. unfold WAL_INDEX_KEYS. lia. Qed.

(** Records of untracked keys, when the tracked keys are the same. *)
Lemma unknown_snoc recs r :
  tracked (recs ++ [r]) = tracked recs →
  ix_unknown (index_ref (recs ++ [r])) =
    if decide (w_partition_key r ∈ tracked recs) then ix_unknown (index_ref recs)
    else u64 (ix_unknown (index_ref recs) + 1).
Proof.
  intros Ht. unfold index_ref. cbn. rewrite Ht, filter_app, filter_cons, length_app.
  destruct (decide (w_partition_key r ∈ tracked recs)).
  - rewrite decide_False by naive_solver. cbn. by rewrite Nat.add_0_r.
  - rewrite decide_True by done. cbn. rewrite u64_add_l. f_equal. lia.
Qed.

(** While the table has room every key seen is tracked. *)
Lemma all_tracked recs :
  (length (keys_seen recs) <= 1024)%nat →
  filter (λ r, w_partition_key r ∉ tracked recs) recs = [].
Proof.
  intros Hle. unfold tracked. change (Z.to_nat WAL_INDEX_KEYS) with 1024%nat.
  rewrite take_ge by done. apply filter_none. intros r Hr Hn.
  apply Hn, keys_seen_elem. eauto.
Qed.

Lemma tracked_nodup recs : NoDup (tracked recs).
Proof. unfold tracked. eapply sublist_NoDup; [apply keys_seen_nodup|apply sublist_take]. Qed.

(** The entries of the keys a record does not carry are unchanged by it. *)
Lemma summaries_other recs r :
  w_partition_key r ∉ tracked recs →
  summary (recs ++ [r]) <$> tracked recs = summary recs <$> tracked recs.
Proof.
  intros Hn. apply list_fmap_ext. intros i x Hx. apply summary_other. intros Hk.
  apply Hn. rewrite Hk. by eapply list_elem_of_lookup_2.
Qed.

Lemma summaries_insert recs r i :
  tracked recs !! i = Some (w_partition_key r) →
  summary (recs ++ [r]) <$> tracked recs =
    <[i := summary (recs ++ [r]) (w_partition_key r)]> (summary recs <$> tracked recs).
Proof.
  intros Hi. list_ext j. destruct (decide (j = i)) as [->|Hj].
  - rewrite list_lookup_insert_eq by (rewrite length_fmap; by eapply lookup_lt_Some).
    by rewrite list_lookup_fmap, Hi.
  - rewrite list_lookup_insert_ne by done. rewrite !list_lookup_fmap.
    destruct (tracked recs !! j) as [x|] eqn:Hx; [|done]. cbn. f_equal.
    apply summary_other. intros <-. apply Hj. eapply NoDup_lookup; [apply tracked_nodup|done..].
Qed.

(** One record at a time, the table is the reference. *)
Lemma index_add_step recs r :
  w_seq r ≠ 0 → wal_index_add (index_ref recs) r = index_ref (recs ++ [r]).
Proof.
  intros Hs. unfold wal_index_add. rewrite (proj2 (Z.eqb_neq _ _)) by done.
  destruct (find (index_ref recs) (w_partition_key r)) as [[i k]|] eqn:Hf.
  - apply find_Some in Hf as [Hi ->]. pose proof (tracked_elem _ _ _ Hi) as Hin.
    assert (tracked (recs ++ [r]) = tracked recs) as Ht
      by (rewrite tracked_snoc; by rewrite decide_True).
    pose proof (unknown_snoc recs r Ht) as Hu.
    rewrite decide_True in Hu by (by eapply list_elem_of_lookup_2).
    unfold index_ref in *. cbn in *. rewrite Hu, Ht. f_equal.
    rewrite (summaries_insert _ _ _ Hi). by rewrite summary_again.
  - apply find_None in Hf. unfold ix_count, index_ref at 1.
    cbn [ix_keys]. rewrite length_fmap, length_tracked. unfold WAL_INDEX_KEYS.
    destruct (decide (w_partition_key r ∈ keys_seen recs)) as [Hin|Hin];
      [|destruct (decide (length (keys_seen recs) < 1024)%nat) as [Hlt|Hge]].
    + pose proof (untracked_full _ _ Hin Hf).
      assert (tracked (recs ++ [r]) = tracked recs) as Ht
        by (rewrite tracked_snoc; by rewrite decide_True).
      pose proof (unknown_snoc recs r Ht) as Hu. rewrite decide_False in Hu by done.
      rewrite (proj2 (Z.leb_le _ _)) by lia.
      unfold index_ref in *. cbn in *. rewrite Hu, Ht. f_equal. by rewrite summaries_other.
    + assert (tracked (recs ++ [r]) = tracked recs ++ [w_partition_key r]) as Ht
        by (rewrite tracked_snoc; by rewrite decide_False, decide_True).
      rewrite (proj2 (Z.leb_gt _ _)) by lia.
      unfold index_ref. rewrite (all_tracked (recs ++ [r])), all_tracked.
      2:{ lia. } 2:{ rewrite keys_seen_snoc, decide_False, length_app by done. cbn. lia. }
      rewrite Ht, fmap_app. cbn. rewrite summaries_other by done. by rewrite summary_first.
    + assert (tracked (recs ++ [r]) = tracked recs) as Ht
        by (rewrite tracked_snoc; by rewrite !decide_False).
      pose proof (unknown_snoc recs r Ht) as Hu. rewrite decide_False in Hu by done.
      rewrite (proj2 (Z.leb_le _ _)) by lia.
      unfold index_ref in *. cbn in *. rewrite Hu, Ht. f_equal. by rewrite summaries_other.
Qed.

Lemma index_add_end ix r : w_seq r = 0 → wal_index_add ix r = ix.
Proof. intros Hs. unfold wal_index_add. by rewrite Hs. Qed.

Lemma index_fold recs : foldl wal_index_add wal_index_init recs = index_ref (logged recs).
Proof.
  induction recs as [|r recs IH] using rev_ind; [done|].
  rewrite foldl_app. cbn. rewrite IH. unfold logged. rewrite filter_app, filter_cons. cbn.
  case_decide as Hs.
  - by apply index_add_step.
  - rewrite index_add_end by lia. by rewrite app_nil_r.
Qed.

(** ** Properties *)

(** Sequences rise along the log. *)
Definition ascending (recs : list wal_rec_t) : Prop :=
  StronglySorted (λ a b, w_seq a < w_seq b) recs.

Module IndexProps.

(** C30. The table built from any sequence of records, by a recovery scan or
    by appends, is exactly the summary of the first [WAL_INDEX_KEYS] distinct
    keys: per key the first sequence, the last and the number of records, and
    beside them the number of records of keys there was no room for. *)
Theorem index_is_summary (recs : list wal_rec_t) :
  foldl wal_index_add wal_index_init recs = index_ref (logged recs).
Proof. apply index_fold. Qed.

(** C29. A range skips nothing: the table answers a key with a start and an
    end such that every logged record of the key at or after [from] lies
    between them; the start is never before [from], and when it is later it
    is the key's own first record.  When the table is complete, a key it does
    not know is in no record at all. *)
Theorem index_range_sound (recs : list wal_rec_t) (key from : Z)
    (Hasc : ascending (logged recs)) (Hn : zlen recs < 2 ^ 64) :
  let ix := foldl wal_index_add wal_index_init recs in
  match wal_index_range ix key from with
  | Some (out_from, out_last) =>
      from <= out_from ∧
      (∀ r, r ∈ logged recs → w_partition_key r = key → from <= w_seq r →
            out_from <= w_seq r <= out_last) ∧
      (from < out_from → ∃ r, r ∈ recs ∧ w_partition_key r = key ∧ w_seq r = out_from)
  | None =>
      wal_index_complete ix = true → ∀ r, r ∈ logged recs → w_partition_key r ≠ key
  end.
Proof.
  intros ix. unfold ix, wal_index_range. rewrite index_fold. set (log := logged recs) in *.
  destruct (find (index_ref log) key) as [[i k]|] eqn:Hf.
  - apply find_Some in Hf as [Hi ->]. apply tracked_elem in Hi.
    assert (∀ r, r ∈ of_key key log → _) as Hb
      by exact (λ r, sorted_ends w_seq _ r (StronglySorted_filter _ _ _ Hasc)).
    change (filter (λ r, w_partition_key r = key) log) with (of_key key log) in Hb.
    assert (∃ r0, r0 ∈ of_key key log) as [r0 Hr0].
    { destruct (of_key key log) as [|a l] eqn:E; [by apply of_key_nil in E|]. exists a. by left. }
    destruct (Hb r0 Hr0) as (a & b & Ha & Hlast & _ & Hin).
    unfold summary. cbn [ik_first ik_last]. rewrite Ha, Hlast. cbn.
    split_and!; [case_match; zb; lia| |].
    + intros r Hr Hk Hfrom.
      destruct (Hb r) as (a' & b' & Ha' & Hb' & Hle & _); [by apply of_key_elem|].
      rewrite Ha in Ha'. rewrite Hlast in Hb'. simplify_eq. case_match; zb; lia.
    + intros Hlt. exists a. apply of_key_elem in Hin as [Hk Hin]. case_match; zb; [|lia].
      split_and!; [|done|done]. by apply list_elem_of_filter in Hin as [_ ?].
  - apply find_None in Hf. unfold wal_index_complete. intros Hc%Z.eqb_eq r Hr Hk.
    unfold index_ref in Hc. cbn in Hc. rewrite u64_id in Hc.
    2:{ split; [lia|]. eapply Z.le_lt_trans; [|exact Hn]. apply inj_le.
        etransitivity; [apply length_filter|]. apply length_filter. }
    apply (not_elem_of_nil r). rewrite <-(nil_length_inv (filter (λ r, w_partition_key r ∉ tracked log) log)) by lia.
    apply list_elem_of_filter. split; [by rewrite Hk|done].
Qed.

Lemma index_range_sound_witness :
  let rs := [Rec 0 0 1 1 7 1 1 0 0 5; Rec 0 0 1 2 7 2 1 0 0 6; Rec 0 0 1 3 7 3 1 0 0 5] in
  wal_index_complete (foldl wal_index_add wal_index_init rs) = true ∧
  ∀ r, r ∈ logged rs → w_partition_key r ≠ 9.
Proof.
  pose (rs := [Rec 0 0 1 1 7 1 1 0 0 5; Rec 0 0 1 2 7 2 1 0 0 6; Rec 0 0 1 3 7 3 1 0 0 5]).
  pose proof (index_range_sound rs 9 0
    ltac:(repeat constructor; cbn; lia) ltac:(cbn; lia)) as H.
  exact (conj eq_refl (H eq_refl)).
Defined.

End IndexProps.
