(* ===== verification/Os.v ===== *)
(** * Operating system interface (src/sys/os.h, the raw calls of syscall.h)

    The program talks to the kernel through raw system calls.  They are not
    its code, so they are the operations of a class, [Sys]; what the program
    relies on them for is [SysLaws], the documented behaviour of the calls on
    a view of the kernel's files and descriptors.  The [os_*] wrappers are
    definitions over the class, in the state monad [M].  [Sim] is a small
    kernel that satisfies the laws, in which the witnesses run. *)

From S2P Require Import Prelude Core.

#[export] Instance byte_eq_dec : EqDecision Byte.byte := Byte.byte_eq_dec.
#[export] Instance byte_countable : Countable Byte.byte :=
  inj_countable Byte.to_N Byte.of_N Byte.of_to_N.

(** ** The monad *)

Definition M (K A : Type) : Type := K → A * K.

#[export] Instance M_ret {K} : MRet (M K) := λ A x k, (x, k).
#[export] Instance M_bind {K} : MBind (M K) := λ A B f m k, let '(x, k') := m k in f x k'.

#[export] Instance M_fmap {K} : FMap (M K) := λ A B f m k, let '(x, k') := m k in (f x, k').

(** What a computation ends in, as a weakest precondition. *)
Definition wp {K A} (m : M K A) (Q : A → K → Prop) (k : K) : Prop := Q (m k).1 (m k).2.

Lemma wp_ret {K A} (x : A) (Q : A → K → Prop) k : Q x k → wp (mret x) Q k.
Proof. done. Qed.
Lemma wp_bind {K A B} (m : M K A) (f : A → M K B) Q k :
  wp m (λ x k', wp (f x) Q k') k → wp (m ≫= f) Q k.
Proof. unfold wp, mbind, M_bind. by destruct (m k). Qed.
Lemma wp_fmap {K A B} (m : M K A) (f : A → B) Q k :
  wp m (λ x k', Q (f x) k') k → wp (f <$> m) Q k.
Proof. unfold wp, fmap, M_fmap. by destruct (m k). Qed.
Lemma wp_mono {K A} (m : M K A) (P Q : A → K → Prop) k :
  wp m P k → (∀ x k', P x k' → Q x k') → wp m Q k.
Proof. unfold wp. eauto. Qed.
Lemma wp_elim {K A} (m : M K A) Q k : wp m Q k → ∃ x k', m k = (x, k') ∧ Q x k'.
Proof. unfold wp. destruct (m k) as [x k']. eauto. Qed.
Lemma wp_result {K A} (m : M K A) Q k x k' : wp m Q k → m k = (x, k') → Q x k'.
Proof. unfold wp. by intros Hm E; rewrite E in Hm. Qed.
Lemma wp_intro {K A} (m : M K A) (Q : A → K → Prop) k x k' : m k = (x, k') → Q x k' → wp m Q k.
Proof. unfold wp. by intros ->. Qed.

Lemma wp_both {K A} (m : M K A) (P Q : A → K → Prop) k :
  wp m P k → wp m Q k → wp m (λ x k', P x k' ∧ Q x k') k.
Proof. by unfold wp. Qed.

#[global] Opaque wp.

(** ** The raw calls

    Each returns the kernel's [long]; a call that fills a buffer also returns
    the bytes it put there.  A path is passed as the buffer that holds it.
    The [cpuid] instruction, whose answer is the machine's, is here too: it
    takes [eax] and [ecx] and gives the four registers. *)

Class Sys (K : Type) := {
  sys_openat : Z → list byte → Z → Z → M K Z;
  sys_close : Z → M K Z;
  sys_fsync : Z → M K Z;
  sys_fdatasync : Z → M K Z;
  sys_pread64 : Z → Z → Z → M K (Z * list byte);
  sys_pwrite64 : Z → list byte → Z → M K Z;
  sys_getdents64 : Z → Z → M K (Z * list byte);
  sys_unlinkat : Z → list byte → Z → M K Z;
  sys_fallocate : Z → Z → Z → Z → M K Z;
  sys_getrandom : Z → M K (Z * list byte);
  sys_clock_gettime : M K (Z * (Z * Z));
  sys_recvfrom : Z → Z → Z → M K (Z * list byte);
  sys_sendto : Z → list byte → Z → M K Z;
  sys_read : Z → Z → M K (Z * list byte);
  sys_epoll_ctl : Z → Z → Z → Z → Z → M K Z;
  sys_accept4 : Z → Z → M K Z;
  sys_socket : Z → Z → Z → M K Z;
  sys_connect : Z → Z → Z → M K Z;
  sys_getsockopt : Z → Z → Z → M K (Z * Z);
  sys_setsockopt : Z → Z → Z → Z → M K Z;
  sys_timerfd_settime : Z → Z → Z → Z → Z → M K Z;
  sys_timerfd_create : Z → Z → M K Z;
  sys_bind : Z → Z → Z → M K Z;
  sys_listen : Z → Z → M K Z;
  sys_getsockname : Z → M K (Z * Z);
  sys_epoll_create1 : Z → M K Z;
  sys_epoll_wait : Z → Z → Z → M K (Z * list (Z * Z));
  sys_write : Z → list byte → M K Z;
  sys_rt_sigprocmask : Z → Z → M K Z;
  sys_signalfd4 : Z → Z → Z → M K Z;
  cpuid : Z → Z → M K (Z * Z * Z * Z)
}.

Definition sys_is_err (ret : Z) : bool := (ret <? 0) && (-4095 <=? ret).
Definition sys_errno (ret : Z) : Z := if sys_is_err ret then i32 (- ret) else 0.

(** ** The wrappers *)

Definition O_RDONLY := 0x0.
Definition O_RDWR := 0x2.
Definition O_CREAT := 0x40.
Definition O_EXCL := 0x80.
Definition O_DIRECTORY := 0x10000.
Definition O_CLOEXEC := 0x80000.
Definition AT_FDCWD : Z := -100.
Definition MODE_0600 := 0x180.

Section wrappers.
Context {K : Type} `{Sys K}.

(** The ending the wrappers share: the error of a failed call, or success. *)
Definition sys_result (r : Z) : result_t :=
  if sys_is_err r then RESULT_ERR ERR_SYSCALL (sys_errno r) else RESULT_OK.

(** [fd_out] is the second component; a failure leaves the caller's value. *)
Definition os_openat (dir_fd : Z) (path : list byte) (flags mode fd_out : Z)
    : M K (result_t * Z) :=
  r ← sys_openat dir_fd path flags mode;
  mret (if sys_is_err r then (RESULT_ERR ERR_SYSCALL (sys_errno r), fd_out)
        else (RESULT_OK, i32 r)).

Definition os_close (fd : Z) : M K result_t :=
  r ← sys_close fd;
  mret (sys_result r).

Definition os_fsync (fd : Z) : M K result_t :=
  r ← sys_fsync fd;
  mret (sys_result r).

Definition os_fdatasync (fd : Z) : M K result_t :=
  r ← sys_fdatasync fd;
  mret (sys_result r).

(** Result, bytes read and the bytes. *)
Definition os_pread (fd count offset n_out : Z) : M K (result_t * Z * list byte) :=
  if (count <? 0) || (offset <? 0) then mret (RESULT_ERR ERR_INVALID 0, n_out, []) else
  '(r, bs) ← sys_pread64 fd count offset;
  mret (if sys_is_err r then (RESULT_ERR ERR_SYSCALL (sys_errno r), n_out, bs)
        else (RESULT_OK, i32 r, bs)).

(** The loop of [os_pread_full]; [acc] is [buf[0..done)]. *)
Fixpoint pread_loop (fuel : nat) (fd count offset : Z) (acc : list byte)
    : M K (result_t * Z * list byte) :=
  let done := zlen acc in
  match fuel with
  | O => mret (RESULT_OK, done, acc)
  | S fuel =>
      if count <=? done then mret (RESULT_OK, done, acc) else
      '(r, n, bs) ← os_pread fd (count - done) (offset + done) 0;
      if negb (result_ok r) then mret (r, 0, acc) else
      if n =? 0 then mret (RESULT_OK, done, acc) else
      pread_loop fuel fd count offset (acc ++ sub 0 n bs)
  end.

(** [n_out] starts as 0 in every caller and is only written on success. *)
Definition os_pread_full (fd count offset : Z) : M K (result_t * Z * list byte) :=
  pread_loop (Z.to_nat count) fd count offset [].

Fixpoint pwrite_loop (fuel : nat) (fd : Z) (buf : list byte) (count offset done : Z)
    : M K result_t :=
  match fuel with
  | O => mret RESULT_OK
  | S fuel =>
      if count <=? done then mret RESULT_OK else
      r ← sys_pwrite64 fd (sub done (count - done) buf) (offset + done);
      if sys_is_err r then mret (RESULT_ERR ERR_SYSCALL (sys_errno r)) else
      if r =? 0 then mret (RESULT_ERR ERR_STORAGE 0) else
      pwrite_loop fuel fd buf count offset (done + i32 r)
  end.

Definition os_pwrite_full (fd : Z) (buf : list byte) (count offset : Z) : M K result_t :=
  if (count <? 0) || (offset <? 0) then mret (RESULT_ERR ERR_INVALID 0) else
  pwrite_loop (Z.to_nat count) fd buf count offset 0.

Definition os_getdents64 (fd count n_out : Z) : M K (result_t * Z * list byte) :=
  '(r, bs) ← sys_getdents64 fd count;
  mret (if sys_is_err r then (RESULT_ERR ERR_SYSCALL (sys_errno r), n_out, bs)
        else (RESULT_OK, i32 r, bs)).

Definition os_unlinkat (dir_fd : Z) (path : list byte) (flags : Z) : M K result_t :=
  r ← sys_unlinkat dir_fd path flags;
  mret (sys_result r).

Definition os_fallocate (fd mode offset len : Z) : M K result_t :=
  r ← sys_fallocate fd mode offset len;
  mret (sys_result r).

Definition os_random_u64 : M K Z :=
  '(r, bs) ← sys_getrandom 8;
  mret (if sys_is_err r || negb (r =? 8) then 0 else le_combine (sub 0 8 bs)).

Definition os_now_ns : M K Z :=
  '(r, (sec, nsec)) ← sys_clock_gettime;
  mret (if sys_is_err r then 0 else u64 (u64 sec * 1000000000 + u64 nsec)).

(** The kernel's own answer, with the bytes it delivered. *)
Definition os_recv (fd len flags : Z) : M K (Z * list byte) :=
  '(r, bs) ← sys_recvfrom fd len flags;
  mret (i32 r, bs).

Definition os_send (fd : Z) (bytes : list byte) (flags : Z) : M K Z :=
  r ← sys_sendto fd bytes flags;
  mret (i32 r).

Definition os_epoll_ctl (epfd op fd events data : Z) : M K result_t :=
  r ← sys_epoll_ctl epfd op fd events data;
  mret (sys_result r).

Definition os_accept4 (fd flags fd_out : Z) : M K (result_t * Z) :=
  r ← sys_accept4 fd flags;
  mret (if sys_is_err r then (RESULT_ERR ERR_SYSCALL (sys_errno r), fd_out)
        else (RESULT_OK, i32 r)).

Definition os_socket (domain type protocol fd_out : Z) : M K (result_t * Z) :=
  r ← sys_socket domain type protocol;
  mret (if sys_is_err r then (RESULT_ERR ERR_SYSCALL (sys_errno r), fd_out)
        else (RESULT_OK, i32 r)).

(** The address is its port and IPv4 address, both in network order. *)
Definition os_connect (fd port addr : Z) : M K result_t :=
  r ← sys_connect fd port addr;
  mret (sys_result r).

Definition os_setsockopt (fd level optname optval : Z) : M K result_t :=
  r ← sys_setsockopt fd level optname optval;
  mret (sys_result r).

Definition os_getsockopt_int (fd level optname : Z) : M K (result_t * Z) :=
  '(r, v) ← sys_getsockopt fd level optname;
  mret (if sys_is_err r then (RESULT_ERR ERR_SYSCALL (sys_errno r), v) else (RESULT_OK, v)).

Definition os_read_raw (fd count : Z) : M K (Z * list byte) := sys_read fd count.

Definition os_timerfd_period (fd period_ns : Z) : M K result_t :=
  let sec := Z.quot period_ns 1000000000 in
  let nsec := Z.rem period_ns 1000000000 in
  r ← sys_timerfd_settime fd sec nsec sec nsec;
  mret (sys_result r).

Definition CLOCK_MONOTONIC : Z := 1.

Definition os_timerfd (flags fd_out : Z) : M K (result_t * Z) :=
  r ← sys_timerfd_create CLOCK_MONOTONIC flags;
  mret (if sys_is_err r then (RESULT_ERR ERR_SYSCALL (sys_errno r), fd_out)
        else (RESULT_OK, i32 r)).

Definition os_bind (fd port addr : Z) : M K result_t :=
  r ← sys_bind fd port addr;
  mret (sys_result r).

Definition os_listen (fd backlog : Z) : M K result_t :=
  r ← sys_listen fd backlog;
  mret (sys_result r).

(** The port bound, in network order; a failure leaves the caller's. *)
Definition os_getsockname (fd port : Z) : M K (result_t * Z) :=
  '(r, bound) ← sys_getsockname fd;
  mret (if sys_is_err r then (RESULT_ERR ERR_SYSCALL (sys_errno r), port) else (RESULT_OK, bound)).

Definition os_epoll_create (flags fd_out : Z) : M K (result_t * Z) :=
  r ← sys_epoll_create1 flags;
  mret (if sys_is_err r then (RESULT_ERR ERR_SYSCALL (sys_errno r), fd_out)
        else (RESULT_OK, i32 r)).

(** The events are pairs of the registered word and the ready bits. *)
Definition os_epoll_wait (epfd max timeout : Z) : M K (result_t * list (Z * Z)) :=
  '(r, evs) ← sys_epoll_wait epfd max timeout;
  mret (if sys_is_err r then (RESULT_ERR ERR_SYSCALL (sys_errno r), [])
        else (RESULT_OK, sub 0 (i32 r) evs)).

Definition os_write_raw (fd : Z) (bytes : list byte) : M K Z := sys_write fd bytes.

Definition SIG_BLOCK : Z := 0.

Definition os_sigblock (mask : Z) : M K result_t :=
  r ← sys_rt_sigprocmask SIG_BLOCK mask;
  mret (sys_result r).

Definition os_signalfd (mask flags fd_out : Z) : M K (result_t * Z) :=
  r ← sys_signalfd4 (-1) mask flags;
  mret (if sys_is_err r then (RESULT_ERR ERR_SYSCALL (sys_errno r), fd_out)
        else (RESULT_OK, i32 r)).

End wrappers.

(** *** Wrappers the server does not call *)

(** Their system calls; an address is the number it is. *)
Class SpareSys (K : Type) := {
  sys_ftruncate : Z → Z → M K Z;
  sys_mmap : Z → Z → Z → Z → Z → Z → M K Z;
  sys_munmap : Z → Z → M K Z;
  sys_eventfd2 : Z → Z → M K Z;
  sys_exit : Z → M K Z
}.

Section spare.
Context {K : Type} `{SpareSys K}.

Definition os_ftruncate (fd length : Z) : M K result_t :=
  r ← sys_ftruncate fd length;
  mret (sys_result r).

(** The address mapped; a failure leaves the caller's. *)
Definition os_mmap (addr length prot flags fd offset out : Z) : M K (result_t * Z) :=
  r ← sys_mmap addr length prot flags fd offset;
  mret (if sys_is_err r then (RESULT_ERR ERR_SYSCALL (sys_errno r), out) else (RESULT_OK, r)).

Definition os_munmap (addr length : Z) : M K result_t :=
  r ← sys_munmap addr length;
  mret (sys_result r).

Definition os_eventfd (initval flags fd_out : Z) : M K (result_t * Z) :=
  r ← sys_eventfd2 initval flags;
  mret (if sys_is_err r then (RESULT_ERR ERR_SYSCALL (sys_errno r), fd_out)
        else (RESULT_OK, i32 r)).

(** [None]: it does not come back, if need be by a loop without an end. *)
Definition os_exit (code : Z) : M K (option Empty_set) :=
  _ ← sys_exit code;
  mret None.

End spare.

(** ** The kernel's files

    One directory of regular files is enough for this program: every name it
    opens is in its log directory.  An inode carries beside its content what
    the device is known to hold: [Some b] for a byte a completed flush covers
    and nothing has overwritten since, [None] for one a crash may change. *)

Record inode := Inode { i_data : list byte; i_stable : list (option byte) }.

Inductive fdesc :=
| FFile (ino : nat)
| FDir (todo : list (list byte))
| FOther.

(** What the disk has of the directory: the names a crash cannot lose, and
    those removed since the directory was flushed, with the files they named,
    which a crash can bring back. *)
Record disk_dir := Disk { d_kept : gmap (list byte) nat; d_gone : list (list byte * nat) }.

Record fsys := Fsys {
  f_inodes : gmap nat inode; f_names : gmap (list byte) nat;
  f_disk : disk_dir; f_fds : gmap Z fdesc }.
#[export] Instance eta_fsys : Eta fsys := λ v,
  Fsys (f_inodes v) (f_names v) (f_disk v) (f_fds v).
Abbreviation f_kept v := (d_kept (f_disk v)).
Abbreviation f_gone v := (d_gone (f_disk v)).

Definition flush_names (v : fsys) : fsys := v <| f_disk := Disk (f_names v) [] |>.
Definition remove_name (n : list byte) (ino : nat) (v : fsys) : fsys :=
  v <| f_names ::= delete n |> <| f_disk ::= λ d, Disk (delete n (d_kept d)) ((n, ino) :: d_gone d) |>.

(** The string a buffer holds: its bytes up to the first NUL. *)
Fixpoint cstr (buf : list byte) : list byte :=
  match buf with
  | [] => []
  | b :: buf => if decide (b = Byte.x00) then [] else b :: cstr buf
  end.

Definition fd_file (v : fsys) (fd : Z) : option (nat * inode) :=
  match f_fds v !! fd with
  | Some (FFile ino) => pair ino <$> f_inodes v !! ino
  | _ => None
  end.
Definition fd_data (v : fsys) (fd : Z) : option (list byte) := i_data ∘ snd <$> fd_file v fd.

Definition set_inode (ino : nat) (i : inode) (v : fsys) : fsys :=
  v <| f_inodes ::= insert ino i |>.
Definition set_fd (fd : Z) (d : fdesc) (v : fsys) : fsys := v <| f_fds ::= insert fd d |>.
Definition del_fd (fd : Z) (v : fsys) : fsys := v <| f_fds ::= delete fd |>.

(** What a crash can leave of an inode: flushed bytes and a flushed length
    stay. *)
Definition crash_image (i : inode) (img : list byte) : Prop :=
  (length (i_stable i) <= length img)%nat ∧
  ∀ j b, i_stable i !! j = Some (Some b) → img !! j = Some b.

(** *** The documented behaviour of each call *)

Definition fresh_fd (v : fsys) (r : Z) : Prop := 0 <= r < 2 ^ 31 ∧ f_fds v !! r = None.
Definition failed (r : Z) : Prop := sys_is_err r = true.

Definition dots : list (list byte) := [[Byte.x2e]; [Byte.x2e; Byte.x2e]].

(** A directory is listed as the names in it and the two dot entries. *)
Definition listing (v : fsys) (todo : list (list byte)) : Prop :=
  NoDup todo ∧ ∀ n, n ∈ todo ↔ is_Some (f_names v !! n) ∨ n ∈ dots.

Definition openat_spec (v : fsys) (path : list byte) (flags r : Z) (v' : fsys) : Prop :=
  failed r ∧ v' = v ∨
  fresh_fd v r ∧
  (if negb (Z.land flags O_DIRECTORY =? 0) then
     ∃ todo, listing v todo ∧ v' = set_fd r (FDir todo) v
   else if negb (Z.land flags O_CREAT =? 0) then
     f_names v !! cstr path = None ∧
     ∃ ino, f_inodes v !! ino = None ∧
       v' = set_fd r (FFile ino)
              (set_inode ino (Inode [] []) (v <| f_names ::= insert (cstr path) ino |>))
   else
     ∃ ino i, f_names v !! cstr path = Some ino ∧ f_inodes v !! ino = Some i ∧
       v' = set_fd r (FFile ino) v).

(** The descriptor is gone whatever the call reports. *)
Definition close_spec (v : fsys) (fd : Z) (v' : fsys) : Prop := v' = del_fd fd v.

Definition fsync_spec (v : fsys) (fd r : Z) (v' : fsys) : Prop :=
  failed r ∧ v' = v ∨
  r = 0 ∧
  match f_fds v !! fd with
  | Some (FFile ino) =>
      ∃ i, f_inodes v !! ino = Some i ∧
        v' = set_inode ino (Inode (i_data i) (Some <$> i_data i)) v
  | Some (FDir _) => v' = flush_names v
  | _ => v' = v
  end.

Definition pread_spec (v : fsys) (fd count off r : Z) (bs : list byte) (v' : fsys) : Prop :=
  v' = v ∧
  (failed r ∨
   ∃ data, fd_data v fd = Some data ∧ r <= count ∧ bs = sub off r data ∧ zlen bs = r ∧
     (r = 0 → 0 < count → zlen data <= off)).

(** Bytes outside the range keep their value and their durability. *)
Definition same_outside (i i' : inode) (off n : Z) : Prop :=
  (length (i_data i') = length (i_data i) ∧ length (i_stable i') = length (i_stable i)) ∧
  ∀ j : nat, (Z.of_nat j < off ∨ off + n <= Z.of_nat j) →
    i_data i' !! j = i_data i !! j ∧ i_stable i' !! j = i_stable i !! j.

Definition pwrite_spec (v : fsys) (fd : Z) (bs : list byte) (off r : Z) (v' : fsys) : Prop :=
  (fd < 0 → failed r ∧ v' = v) ∧
  ∀ ino i, fd_file v fd = Some (ino, i) → off + zlen bs <= zlen (i_data i) →
    ∃ i', v' = set_inode ino i' v ∧ same_outside i i' off (zlen bs) ∧
      (failed r ∨ 0 <= r <= zlen bs ∧ sub off r (i_data i') = sub 0 r bs).

(** Allocation extends the file with zeros. *)
Definition fallocate_spec (v : fsys) (fd len r : Z) (v' : fsys) : Prop :=
  ∀ ino i, fd_file v fd = Some (ino, i) →
    ∃ i', v' = set_inode ino i' v ∧
      (failed r ∨ r = 0 ∧ i_data i' = i_data i ++ zeros (len - zlen (i_data i))).

(** A removal is not durable before the directory is flushed. *)
Definition unlinkat_spec (v : fsys) (path : list byte) (r : Z) (v' : fsys) : Prop :=
  failed r ∧ v' = v ∨
  r = 0 ∧ ∃ ino, f_names v !! cstr path = Some ino ∧ v' = remove_name (cstr path) ino v.

(** The records of a directory listing, as the kernel packs them: sixteen
    bytes, the record's length, the type, and the name with its NUL and
    padding. *)
Inductive dirents : list byte → list (list byte) → Prop :=
| dirents_nil : dirents [] []
| dirents_cons hdr type name pad rest names :
    length hdr = 16%nat → Byte.x00 ∉ name →
    20 + zlen name + zlen pad < 2 ^ 16 → dirents rest names →
    dirents (hdr ++ le_split 2 (20 + zlen name + zlen pad) ++ type :: name ++ Byte.x00 :: pad
               ++ rest) (name :: names).

Definition getdents_spec (v : fsys) (fd count r : Z) (bs : list byte) (v' : fsys) : Prop :=
  failed r ∧ v' = v ∨
  r = zlen bs ∧ r <= count ∧
  ∀ todo, f_fds v !! fd = Some (FDir todo) →
    ∃ a b, todo = a ++ b ∧ dirents bs a ∧ (a = [] → b = []) ∧ v' = set_fd fd (FDir b) v.

(** A call that opens a descriptor other than a file's. *)
Definition newfd_spec (v : fsys) (r : Z) (v' : fsys) : Prop :=
  failed r ∧ v' = v ∨ fresh_fd v r ∧ v' = set_fd r FOther v.

Class SysLaws (K : Type) `{Sys K} := {
  view : K → fsys;
  law_openat d path flags mode k :
    wp (sys_openat d path flags mode) (λ r k', openat_spec (view k) path flags r (view k')) k;
  law_close fd k : wp (sys_close fd) (λ _ k', close_spec (view k) fd (view k')) k;
  law_fsync fd k : wp (sys_fsync fd) (λ r k', fsync_spec (view k) fd r (view k')) k;
  law_fdatasync fd k : wp (sys_fdatasync fd) (λ r k', fsync_spec (view k) fd r (view k')) k;
  law_pread fd n off k : 0 <= n → 0 <= off →
    wp (sys_pread64 fd n off) (λ x k', pread_spec (view k) fd n off x.1 x.2 (view k')) k;
  law_pwrite fd bs off k : 0 <= off →
    wp (sys_pwrite64 fd bs off) (λ r k', pwrite_spec (view k) fd bs off r (view k')) k;
  law_getdents fd n k : 0 <= n →
    wp (sys_getdents64 fd n) (λ x k', getdents_spec (view k) fd n x.1 x.2 (view k')) k;
  law_unlinkat d path flags k :
    wp (sys_unlinkat d path flags) (λ r k', unlinkat_spec (view k) path r (view k')) k;
  law_fallocate fd len k : 0 < len →
    wp (sys_fallocate fd 0 0 len) (λ r k', fallocate_spec (view k) fd len r (view k')) k;
  law_getrandom n k : wp (sys_getrandom n) (λ _ k', view k' = view k) k;
  law_clock k : wp sys_clock_gettime (λ _ k', view k' = view k) k;
  law_recv fd n fl k :
    wp (sys_recvfrom fd n fl) (λ x k', view k' = view k ∧
      (failed x.1 ∨ 0 <= x.1 <= n ∧ zlen x.2 = x.1)) k;
  law_send fd bs fl k :
    wp (sys_sendto fd bs fl) (λ r k', view k' = view k ∧ (failed r ∨ 0 <= r <= zlen bs)) k;
  law_read fd n k : f_fds (view k) !! fd = Some FOther →
    wp (sys_read fd n) (λ _ k', view k' = view k) k;
  law_epoll_ctl ep op fd ev d k : wp (sys_epoll_ctl ep op fd ev d) (λ _ k', view k' = view k) k;
  law_accept fd fl k : wp (sys_accept4 fd fl) (λ r k', newfd_spec (view k) r (view k')) k;
  law_socket d t p k : wp (sys_socket d t p) (λ r k', newfd_spec (view k) r (view k')) k;
  law_connect fd p a k : wp (sys_connect fd p a) (λ _ k', view k' = view k) k;
  law_getsockopt fd l o k : wp (sys_getsockopt fd l o) (λ _ k', view k' = view k) k;
  law_setsockopt fd l o v k : wp (sys_setsockopt fd l o v) (λ _ k', view k' = view k) k;
  law_timer fd a b c d k : wp (sys_timerfd_settime fd a b c d) (λ _ k', view k' = view k) k;
  law_timerfd c fl k : wp (sys_timerfd_create c fl) (λ r k', newfd_spec (view k) r (view k')) k;
  law_bind fd p a k : wp (sys_bind fd p a) (λ _ k', view k' = view k) k;
  law_listen fd n k : wp (sys_listen fd n) (λ _ k', view k' = view k) k;
  law_getsockname fd k : wp (sys_getsockname fd) (λ _ k', view k' = view k) k;
  law_epoll_create fl k : wp (sys_epoll_create1 fl) (λ r k', newfd_spec (view k) r (view k')) k;
  law_epoll_wait ep n tm k :
    wp (sys_epoll_wait ep n tm) (λ x k', view k' = view k ∧
      (failed x.1 ∨ 0 <= x.1 <= n ∧ zlen x.2 = x.1)) k;
  law_write fd bs k : (∀ ino, f_fds (view k) !! fd ≠ Some (FFile ino)) →
    wp (sys_write fd bs) (λ _ k', view k' = view k) k;
  law_sigprocmask how mask k : wp (sys_rt_sigprocmask how mask) (λ _ k', view k' = view k) k;
  law_signalfd fd mask fl k :
    wp (sys_signalfd4 fd mask fl) (λ r k', newfd_spec (view k) r (view k')) k;
  law_cpuid a c k : wp (cpuid a c) (λ _ k', view k' = view k) k
}.

(** ** What the wrappers guarantee *)

Lemma wp_call {K A B} (m : M K A) (P Q : _ → K → Prop) (f : A → M K B) k :
  wp m P k → (∀ x k', P x k' → wp (f x) Q k') → wp (m ≫= f) Q k.
Proof. intros. apply wp_bind. by eapply wp_mono. Qed.

(** Run one call whose law, or lemma, is given. *)
Tactic Notation "call" uconstr(law) "as" simple_intropattern_list(pat) :=
  eapply wp_call; [apply law|cbv beta; intros pat].

Lemma failed_neg r : failed r → r < 0.
Proof. unfold failed, sys_is_err. intros. zb. lia. Qed.
Lemma not_failed r : 0 <= r → sys_is_err r = false.
Proof. intros. unfold sys_is_err. by rewrite (proj2 (Z.ltb_ge r 0)). Qed.

Lemma sys_result_failed r : failed r → result_ok (sys_result r) = false.
Proof. unfold sys_result. by intros ->. Qed.
Lemma sys_result_ok r : 0 <= r → sys_result r = RESULT_OK.
Proof. intros. unfold sys_result. by rewrite not_failed. Qed.

Lemma sub_extend {A} off n m (data : list A) :
  0 <= off → 0 <= n → 0 <= m → zlen (sub off n data) = n →
  sub off n data ++ sub (off + n) m data = sub off (n + m) data.
Proof. intros. by rewrite sub_split. Qed.

Lemma sub_past {A} off n m (data : list A) :
  0 <= off → 0 <= n → n <= m → zlen data <= off + n → sub off m data = sub off n data.
Proof. intros. unfold sub. rewrite !take_ge by (len; lia). done. Qed.

Lemma set_inode_twice ino i i' v : set_inode ino i (set_inode ino i' v) = set_inode ino i v.
Proof. destruct v. unfold set_inode, upd. cbn. f_equal. apply insert_insert_eq. Qed.

Lemma fd_file_lookup v fd ino i :
  fd_file v fd = Some (ino, i) ↔ f_fds v !! fd = Some (FFile ino) ∧ f_inodes v !! ino = Some i.
Proof.
  unfold fd_file. destruct (f_fds v !! fd) as [[n|?|]|]; [|split; naive_solver..].
  destruct (f_inodes v !! n) eqn:E; cbn; split; naive_solver.
Qed.

Lemma set_inode_same ino i v fd : fd_file v fd = Some (ino, i) → set_inode ino i v = v.
Proof.
  intros [_ Hi]%fd_file_lookup. destruct v. unfold set_inode, upd. cbn in *. f_equal.
  by apply insert_id.
Qed.

Lemma fd_file_set_inode v fd ino i i' :
  fd_file v fd = Some (ino, i) → fd_file (set_inode ino i' v) fd = Some (ino, i').
Proof.
  rewrite !fd_file_lookup. destruct v. cbn. intros [? _]. split; [done|]. apply lookup_insert_eq.
Qed.

Lemma same_outside_trans a b c off n off' n' :
  same_outside a b off n → off <= off' → off' + n' = off + n →
  same_outside b c off' n' → same_outside a c off n.
Proof.
  intros [[Hl1 Hs1] H1] ?? [[Hl2 Hs2] H2]. split; [split; congruence|]. intros j Hj.
  destruct (H1 j Hj), (H2 j ltac:(lia)). split; congruence.
Qed.

Lemma set_fd_twice fd d d' v : set_fd fd d (set_fd fd d' v) = set_fd fd d v.
Proof. destruct v. unfold set_fd, upd. cbn. f_equal. apply insert_insert_eq. Qed.
Lemma set_fd_same fd d v : f_fds v !! fd = Some d → set_fd fd d v = v.
Proof. destruct v. unfold set_fd, upd. cbn. intros. f_equal. by apply insert_id. Qed.

Section lemmas.
Context {K : Type} `{SysLaws K}.

Lemma wp_os_openat_code d path flags mode fd0 k :
  wp (os_openat d path flags mode fd0) (λ x k',
    if result_ok x.1 then openat_spec (view k) path flags x.2 (view k') ∧ fresh_fd (view k) x.2
    else view k' = view k ∧ r_code x.1 = ERR_SYSCALL) k.
Proof.
  unfold os_openat. call law_openat as r k' Hr. apply wp_ret.
  destruct Hr as [[Hf Hv]|[Hfr Hv]].
  - unfold failed in Hf. by rewrite Hf.
  - destruct Hfr as [??]. rewrite not_failed by lia. cbn. rewrite i32_id by lia.
    split; [|done]. right. done.
Qed.

Lemma wp_os_openat d path flags mode fd0 k :
  wp (os_openat d path flags mode fd0) (λ x k',
    if result_ok x.1 then openat_spec (view k) path flags x.2 (view k') ∧ fresh_fd (view k) x.2
    else view k' = view k) k.
Proof.
  eapply wp_mono; [apply wp_os_openat_code|]. cbv beta. intros x k' Hx. by case_match; destruct Hx.
Qed.

Lemma wp_os_close fd k :
  wp (os_close fd) (λ _ k', view k' = del_fd fd (view k)) k.
Proof. unfold os_close. call law_close as r k' Hr. by apply wp_ret. Qed.

Lemma wp_os_fsync fd k :
  wp (os_fsync fd) (λ x k',
    if result_ok x then fsync_spec (view k) fd 0 (view k') else view k' = view k) k.
Proof.
  unfold os_fsync. call law_fsync as r k' Hr. apply wp_ret.
  destruct Hr as [[Hf Hv]|[-> Hv]].
  - by rewrite sys_result_failed.
  - cbn. by right.
Qed.

Lemma wp_os_fdatasync fd k :
  wp (os_fdatasync fd) (λ x k',
    if result_ok x then fsync_spec (view k) fd 0 (view k') else view k' = view k) k.
Proof.
  unfold os_fdatasync. call law_fdatasync as r k' Hr. apply wp_ret.
  destruct Hr as [[Hf Hv]|[-> Hv]].
  - by rewrite sys_result_failed.
  - cbn. by right.
Qed.

(** Reading stops at the end of the file and nowhere else. *)
Lemma wp_pread_loop fuel fd count off acc data k :
  0 <= off → count < 2 ^ 31 → count - zlen acc <= Z.of_nat fuel →
  fd_data (view k) fd = Some data →
  acc = sub off (zlen acc) data → zlen acc <= Z.max 0 count →
  wp (pread_loop fuel fd count off acc) (λ x k', view k' = view k ∧
    (if result_ok x.1.1 then x.2 = sub off (Z.max 0 count) data ∧ x.1.2 = zlen x.2
     else r_code x.1.1 = ERR_SYSCALL)) k.
Proof.
  revert acc k. induction fuel as [|fuel IH]; intros acc k Hoff Hc Hfuel Hd Hacc Hlen; cbn.
  { apply wp_ret. cbn. split; [done|]. split; [|done].
    rewrite Hacc at 1. f_equal. lia. }
  destruct (Z.leb_spec count (zlen acc)).
  { apply wp_ret. cbn. split; [done|]. split; [|done].
    rewrite Hacc at 1. f_equal. lia. }
  eapply wp_call with (P := λ x k', view k' = view k ∧
    (if result_ok x.1.1 then ∃ r, x.1.2 = r ∧ x.2 = sub (off + zlen acc) r data ∧
       0 <= r <= count - zlen acc ∧ zlen x.2 = r ∧ (r = 0 → zlen data <= off + zlen acc)
     else r_code x.1.1 = ERR_SYSCALL)).
  { unfold os_pread. rewrite (proj2 (Z.ltb_ge _ _)), (proj2 (Z.ltb_ge _ _)) by lia. cbn [orb].
    call law_pread as [r bs] k' [Hv Hr]; [lia..|]. cbn [fst snd] in *. apply wp_ret.
    destruct Hr as [Hf|(data' & Hd' & Hrc & Hbs & Hzl & Hz)].
    - unfold failed in Hf. rewrite Hf. cbn. split; [done|]. done.
    - rewrite not_failed by lia. cbn. rewrite i32_id by lia. split; [done|].
      rewrite Hd in Hd'. simplify_eq. exists r. split_and!; try done; lia. }
  intros [[r n] bs] k' [Hv Hr]. cbn [fst snd] in *.
  destruct (result_ok r) eqn:Hok; cbn [negb].
  2:{ apply wp_ret. cbn. rewrite Hok. done. }
  destruct Hr as (n' & -> & -> & Hn & Hzl & Hz).
  destruct (Z.eqb_spec n' 0) as [->|Hn0].
  { apply wp_ret. cbn. split; [done|]. split; [|done]. specialize (Hz eq_refl).
    rewrite Hacc at 1. symmetry. apply sub_past; lia. }
  rewrite (sub_all (sub _ n' data)) by lia.
  assert (acc ++ sub (off + zlen acc) n' data = sub off (zlen acc + n') data) as Hnew.
  { rewrite Hacc at 1. apply sub_extend; try lia. by rewrite <-Hacc. }
  assert (zlen (acc ++ sub (off + zlen acc) n' data) = zlen acc + n') as Hl.
  { rewrite length_app. lia. }
  eapply wp_mono.
  - apply IH; [lia|lia|lia|by rewrite Hv|by rewrite Hl|lia].
  - cbn. intros x k'' [? ?]. split; [congruence|done].
Qed.

Lemma wp_os_pread_full fd count off data k :
  0 <= off → 0 <= count < 2 ^ 31 → fd_data (view k) fd = Some data →
  wp (os_pread_full fd count off) (λ x k', view k' = view k ∧
    (if result_ok x.1.1 then x.2 = sub off count data ∧ x.1.2 = zlen x.2
     else r_code x.1.1 = ERR_SYSCALL)) k.
Proof.
  intros. unfold os_pread_full. eapply wp_mono.
  - apply wp_pread_loop; try done; try (cbn; lia).
  - cbn. by rewrite Z.max_r by lia.
Qed.

(** Writing puts the bytes in place or fails, and touches nothing outside the
    range either way. *)
Lemma wp_pwrite_loop fuel fd buf count off done ino i i0 k :
  0 <= off → 0 <= done <= count → count < 2 ^ 31 → count <= zlen buf →
  count - done <= Z.of_nat fuel →
  fd_file (view k) fd = Some (ino, i) → off + count <= zlen (i_data i) →
  same_outside i0 i off count → sub off done (i_data i) = sub 0 done buf →
  wp (pwrite_loop fuel fd buf count off done) (λ r k', ∃ i',
    view k' = set_inode ino i' (view k) ∧ same_outside i0 i' off count ∧
    (result_ok r = true → sub off count (i_data i') = sub 0 count buf)) k.
Proof.
  revert done i k. induction fuel as [|fuel IH];
    intros done i k Hoff Hdn Hc Hb Hfuel Hfd Hend Hso Hsub; cbn.
  { apply wp_ret. exists i. split_and!; [by erewrite set_inode_same|done|].
    intros _. by replace count with done by lia. }
  destruct (Z.leb_spec count done).
  { apply wp_ret. exists i. split_and!; [by erewrite set_inode_same|done|].
    intros _. by replace count with done by lia. }
  call law_pwrite as r k' Hr; [lia|].
  assert (zlen (sub done (count - done) buf) = count - done) as Hzl by (len; lia).
  destruct (proj2 Hr ino i Hfd ltac:(lia)) as (i' & Hv & Hso' & Hres). rewrite Hzl in Hso', Hres.
  assert (same_outside i0 i' off count) as Hso2 by (eapply same_outside_trans; [done|..|exact Hso']; lia).
  destruct Hres as [Hf|[Hrn Hput]].
  { unfold failed in Hf. rewrite Hf. apply wp_ret. exists i'. done. }
  rewrite not_failed by lia. destruct (Z.eqb_spec r 0).
  { apply wp_ret. exists i'. done. }
  rewrite i32_id by lia. destruct Hso' as [[Hl' _] Hout].
  eapply wp_mono.
  - apply (IH _ i'); try done; try lia.
    + rewrite Hv. by eapply fd_file_set_inode.
    + rewrite !sub_split by lia. f_equal.
      * rewrite <-Hsub. list_ext j. rewrite !lookup_sub. case_decide; [|done].
        apply Hout. lia.
      * rewrite Hput. by rewrite sub_sub, Z.add_0_r, Z.add_0_l by lia.
  - cbn. intros x k'' (i'' & Hv'' & ?). exists i''. split; [|done].
    by rewrite Hv'', Hv, set_inode_twice.
Qed.

Lemma wp_os_pwrite_full fd buf count off ino i k :
  0 <= off → 0 <= count < 2 ^ 31 → count <= zlen buf →
  fd_file (view k) fd = Some (ino, i) → off + count <= zlen (i_data i) →
  wp (os_pwrite_full fd buf count off) (λ r k', ∃ i',
    view k' = set_inode ino i' (view k) ∧ same_outside i i' off count ∧
    (result_ok r = true → sub off count (i_data i') = sub 0 count buf)) k.
Proof.
  intros. unfold os_pwrite_full.
  rewrite (proj2 (Z.ltb_ge _ _)), (proj2 (Z.ltb_ge _ _)) by lia. cbn [orb].
  apply (wp_pwrite_loop _ _ _ _ _ _ _ i); try done; lia.
Qed.

(** A closed descriptor cannot be written to. *)
Lemma wp_os_pwrite_closed fd buf count off k :
  fd < 0 → 0 <= off → 0 < count →
  wp (os_pwrite_full fd buf count off) (λ r k', result_ok r = false ∧ view k' = view k) k.
Proof.
  intros Hfd Hoff Hc. unfold os_pwrite_full. rewrite (proj2 (Z.ltb_ge count 0)) by lia. cbn [orb].
  destruct (off <? 0) eqn:?; [zb; lia|]. destruct (Z.to_nat count) eqn:E; [lia|]. cbn [pwrite_loop].
  rewrite (proj2 (Z.leb_gt count 0)) by lia. call law_pwrite as r k' [Hr _]; [lia|].
  destruct (Hr Hfd) as [Hf Hv]. unfold failed in Hf. rewrite Hf. by apply wp_ret.
Qed.

Lemma wp_os_fallocate fd len ino i k :
  0 < len → fd_file (view k) fd = Some (ino, i) →
  wp (os_fallocate fd 0 0 len) (λ r k', ∃ i', view k' = set_inode ino i' (view k) ∧
    (result_ok r = true → i_data i' = i_data i ++ zeros (len - zlen (i_data i)))) k.
Proof.
  intros Hl Hfd. unfold os_fallocate. call law_fallocate as r k' Hr; [done|]. apply wp_ret.
  destruct (Hr ino i Hfd) as (i' & Hv & [Hf|[-> Hd]]); exists i'; (split; [done|]).
  - by rewrite sys_result_failed.
  - done.
Qed.

Lemma wp_os_unlinkat d path flags k :
  wp (os_unlinkat d path flags) (λ r k',
    if result_ok r then unlinkat_spec (view k) path 0 (view k') else view k' = view k) k.
Proof.
  unfold os_unlinkat. call law_unlinkat as r k' Hr. apply wp_ret.
  destruct Hr as [[Hf Hv]|[-> Hv]].
  - by rewrite sys_result_failed.
  - cbn. by right.
Qed.

Lemma wp_os_random k : wp os_random_u64 (λ r k', view k' = view k ∧ 0 <= r < 2 ^ 64) k.
Proof.
  unfold os_random_u64. call law_getrandom as [r bs] k' Hv. apply wp_ret. split; [done|].
  case_match; [lia|]. pose proof (le_combine_bound (sub 0 8 bs)) as [? Hb].
  split; [done|]. eapply Z.lt_le_trans; [exact Hb|]. apply Z.pow_le_mono_r; [lia|]. len.
Qed.

Lemma wp_os_now k : wp os_now_ns (λ r k', view k' = view k ∧ 0 <= r < 2 ^ 64) k.
Proof.
  unfold os_now_ns. call law_clock as [r [s n]] k' Hv. apply wp_ret. split; [done|].
  case_match; [lia|]. apply u64_range.
Qed.

End lemmas.

(** ** A kernel that satisfies the laws

    Deterministic and free of faults beyond refusing what it cannot do;
    descriptors and inodes are numbered in order, random numbers come from a
    list and the clock advances by one at each reading.  Its network delivers
    what a script says: the readiness reports one [epoll_wait] after another
    returns, and the bytes each descriptor has to be read. *)

Module Sim.

Record net := Net { n_events : list (list (Z * Z)); n_inbox : list (Z * list byte) }.

Record sim := MkSim {
  s_view : fsys; s_fd : Z; s_ino : nat; s_rand : list Z; s_clock : Z;
  s_sent : list (Z * list byte); s_net : net }.
#[export] Instance eta_sim : Eta sim := λ s,
  MkSim (s_view s) (s_fd s) (s_ino s) (s_rand s) (s_clock s) (s_sent s) (s_net s).

Definition boot (rand : list Z) : sim :=
  MkSim (Fsys ∅ ∅ (Disk ∅ []) ∅) 3 0 rand 1000 [] (Net [] []).

Definition EBADF : Z := 9.
Definition fail (e : Z) : M sim Z := λ s, (- e, s).

(** Hand out the next descriptor, when it is free. *)
Definition new_fd (d : fdesc) : M sim Z := λ s,
  if decide (0 <= s_fd s < 2 ^ 31 ∧ f_fds (s_view s) !! s_fd s = None)
  then (s_fd s, s <| s_view := set_fd (s_fd s) d (s_view s) |> <| s_fd := s_fd s + 1 |>)
  else (- EBADF, s).

Definition todo_of (v : fsys) : list (list byte) := dots ++ (map_to_list (f_names v)).*1.

Definition openat (d : Z) (path : list byte) (flags mode : Z) : M sim Z := λ s,
  let v := s_view s in
  if negb (Z.land flags O_DIRECTORY =? 0) then
    if decide (NoDup (todo_of v)) then new_fd (FDir (todo_of v)) s else (- EBADF, s)
  else if negb (Z.land flags O_CREAT =? 0) then
    if decide (f_names v !! cstr path = None ∧ f_inodes v !! s_ino s = None ∧
               0 <= s_fd s < 2 ^ 31 ∧ f_fds v !! s_fd s = None)
    then (s_fd s, s <| s_view := set_fd (s_fd s) (FFile (s_ino s))
              (set_inode (s_ino s) (Inode [] []) (v <| f_names ::= insert (cstr path) (s_ino s) |>)) |>
                <| s_fd := s_fd s + 1 |> <| s_ino := S (s_ino s) |>)
    else (- 17, s)
  else match f_names v !! cstr path with
       | Some ino => match f_inodes v !! ino with
                     | Some _ => new_fd (FFile ino) s
                     | None => (- 2, s) end
       | None => (- 2, s)
       end.

Definition fsync (fd : Z) : M sim Z := λ s,
  let v := s_view s in
  match f_fds v !! fd with
  | Some (FFile ino) =>
      match f_inodes v !! ino with
      | Some i => (0, s <| s_view := set_inode ino (Inode (i_data i) (Some <$> i_data i)) v |>)
      | None => (- EBADF, s) end
  | Some (FDir _) => (0, s <| s_view := flush_names v |>)
  | _ => (- EBADF, s)
  end.

Definition pread (fd count off : Z) : M sim (Z * list byte) := λ s,
  match fd_data (s_view s) fd with
  | Some data => ((zlen (sub off count data), sub off count data), s)
  | None => ((- EBADF, []), s)
  end.

(** A flushed byte that is overwritten is no longer known to be safe. *)
Definition unstable (off n : Z) (st : list (option byte)) : list (option byte) :=
  take (Z.to_nat off) st ++ ((λ _, None) <$> sub off n st) ++ drop (Z.to_nat off + Z.to_nat n) st.

Definition pwrite (fd : Z) (bs : list byte) (off : Z) : M sim Z := λ s,
  if fd <? 0 then (- EBADF, s) else
  match fd_file (s_view s) fd with
  | Some (ino, i) =>
      if decide (off + zlen bs <= zlen (i_data i))
      then (zlen bs, s <| s_view := set_inode ino
              (Inode (blit (i_data i) off bs) (unstable off (zlen bs) (i_stable i))) (s_view s) |>)
      else (- 28, s)
  | None => (- EBADF, s)
  end.

Definition dirent (name : list byte) : list byte :=
  zeros 16 ++ le_split 2 (20 + zlen name + 0) ++ Byte.x08 :: name ++ Byte.x00 :: [] ++ [].

Definition getdents (fd count : Z) : M sim (Z * list byte) := λ s,
  match f_fds (s_view s) !! fd with
  | Some (FDir []) => ((0, []), s)
  | Some (FDir (n :: todo)) =>
      if decide ((Byte.x00 ∉ n) ∧ 20 + zlen n + 0 < 2 ^ 16 ∧ zlen (dirent n) <= count)
      then ((zlen (dirent n), dirent n), s <| s_view := set_fd fd (FDir todo) (s_view s) |>)
      else ((- 22, []), s)
  | _ => ((- EBADF, []), s)
  end.

Definition unlinkat (d : Z) (path : list byte) (flags : Z) : M sim Z := λ s,
  match f_names (s_view s) !! cstr path with
  | Some ino => (0, s <| s_view ::= remove_name (cstr path) ino |>)
  | None => (- 2, s)
  end.

Definition fallocate (fd mode off len : Z) : M sim Z := λ s,
  match fd_file (s_view s) fd with
  | Some (ino, i) =>
      (0, s <| s_view := set_inode ino
         (Inode (i_data i ++ zeros (len - zlen (i_data i))) (i_stable i)) (s_view s) |>)
  | None => (- EBADF, s)
  end.

Definition getrandom (n : Z) : M sim (Z * list byte) := λ s,
  match s_rand s with
  | [] => ((- 11, []), s)
  | x :: xs => ((8, le_split 8 x), s <| s_rand := xs |>)
  end.

Definition clock_gettime : M sim (Z * (Z * Z)) := λ s,
  ((0, (s_clock s, 0)), s <| s_clock := s_clock s + 1 |>).

Fixpoint deliver (fd n : Z) (inbox : list (Z * list byte))
    : option (list byte * list (Z * list byte)) :=
  match inbox with
  | [] => None
  | (fd', bs) :: inbox =>
      if decide (fd = fd') then
        Some (sub 0 n bs, if decide (zlen bs <= n) then inbox
                          else (fd, drop (Z.to_nat n) bs) :: inbox)
      else '(got, rest) ← deliver fd n inbox; Some (got, (fd', bs) :: rest)
  end.

Definition recvfrom (fd n fl : Z) : M sim (Z * list byte) := λ s,
  match deliver fd n (n_inbox (s_net s)) with
  | Some (got, rest) =>
      if decide (zlen got <= n)
      then ((zlen got, got), s <| s_net := Net (n_events (s_net s)) rest |>) else ((-11, []), s)
  | None => ((-11, []), s)
  end.

Definition epoll_wait (ep n tm : Z) : M sim (Z * list (Z * Z)) := λ s,
  match n_events (s_net s) with
  | evs :: more =>
      if decide (zlen evs <= n)
      then ((zlen evs, evs), s <| s_net := Net more (n_inbox (s_net s)) |>) else ((-22, []), s)
  | [] => ((-4, []), s)
  end.

#[export] Instance sim_sys : Sys sim := {|
  sys_openat := openat;
  sys_close fd := λ s, (0, s <| s_view := del_fd fd (s_view s) |>);
  sys_fsync := fsync;
  sys_fdatasync := fsync;
  sys_pread64 := pread;
  sys_pwrite64 := pwrite;
  sys_getdents64 := getdents;
  sys_unlinkat := unlinkat;
  sys_fallocate := fallocate;
  sys_getrandom := getrandom;
  sys_clock_gettime := clock_gettime;
  sys_recvfrom := recvfrom;
  sys_sendto fd bs fl := λ s, (zlen bs, s <| s_sent := s_sent s ++ [(fd, bs)] |>);
  sys_read fd n := recvfrom fd n 0;
  sys_epoll_ctl _ _ _ _ _ := λ s, (0, s);
  sys_accept4 _ _ := new_fd FOther;
  sys_socket _ _ _ := new_fd FOther;
  sys_connect _ _ _ := λ s, (0, s);
  sys_getsockopt _ _ _ := λ s, ((0, 0), s);
  sys_setsockopt _ _ _ _ := λ s, (0, s);
  sys_timerfd_settime _ _ _ _ _ := λ s, (0, s);
  sys_timerfd_create _ _ := new_fd FOther;
  sys_bind _ _ _ := λ s, (0, s);
  sys_listen _ _ := λ s, (0, s);
  sys_getsockname _ := λ s, ((0, 0), s);
  sys_epoll_create1 _ := new_fd FOther;
  sys_epoll_wait := epoll_wait;
  sys_write fd bs := λ s, (zlen bs, s <| s_sent := s_sent s ++ [(fd, bs)] |>);
  sys_rt_sigprocmask _ _ := λ s, (0, s);
  sys_signalfd4 _ _ _ := new_fd FOther;
  cpuid _ _ := λ s, ((0, 0, Z.shiftl 1 20, 0), s) |}.

Lemma failed_neg' e : (0 <? e) && (e <=? 4095) = true → failed (- e).
Proof. intros. zb. unfold failed, sys_is_err. apply andb_true_iff. lia. Qed.

Lemma new_fd_spec d s :
  wp (new_fd d) (λ r s', failed r ∧ s_view s' = s_view s ∨
    fresh_fd (s_view s) r ∧ s_view s' = set_fd r d (s_view s)) s.
Proof.
  apply (wp_intro _ _ _ (new_fd d s).1 (new_fd d s).2); [by destruct (new_fd d s)|].
  unfold new_fd. case_decide; cbn; [by right|by left].
Qed.

Lemma todo_listing v : NoDup (todo_of v) → listing v (todo_of v).
Proof.
  intros Hn. split; [done|]. intros n. unfold todo_of. rewrite elem_of_app, list_elem_of_fmap.
  split.
  - intros [?|([x ino] & -> & Hin)]; [by right|left].
    apply elem_of_map_to_list in Hin. by exists ino.
  - intros [[ino Hi]|?]; [right|by left]. exists (n, ino). split; [done|].
    by apply elem_of_map_to_list.
Qed.

Ltac sim_run :=
  match goal with |- wp ?m ?Q ?s => refine (wp_intro m Q s _ _ (surjective_pairing (m s)) _) end.

Lemma sim_openat d path flags mode s :
  wp (openat d path flags mode) (λ r s', openat_spec (s_view s) path flags r (s_view s')) s.
Proof.
  unfold openat_spec. destruct (negb (Z.land flags O_DIRECTORY =? 0)) eqn:E1;
    [|destruct (negb (Z.land flags O_CREAT =? 0)) eqn:E2].
  - destruct (decide (NoDup (todo_of (s_view s)))) as [Hn|].
    + pose proof (new_fd_spec (FDir (todo_of (s_view s))) s) as (r & s' & Hr & Hs)%wp_elim.
      apply (wp_intro _ _ _ r s').
      { unfold openat. by rewrite E1, decide_True. }
      destruct Hs as [|[??]]; [by left|right]. split; [done|].
      exists (todo_of (s_view s)). split; [by apply todo_listing|done].
    + sim_run. unfold openat. rewrite E1, decide_False by done. by left.
  - sim_run. unfold openat. rewrite E1, E2.
    destruct (decide _) as [(Hn & Hi & Hf & Hd)|]; [|by left]. right.
    split; [done|]. split; [done|]. exists (s_ino s). done.
  - destruct (f_names (s_view s) !! cstr path) as [ino|] eqn:En.
    2:{ sim_run. unfold openat. rewrite E1, E2, En. by left. }
    destruct (f_inodes (s_view s) !! ino) as [i|] eqn:Ei.
    2:{ sim_run. unfold openat. rewrite E1, E2, En, Ei. by left. }
    pose proof (new_fd_spec (FFile ino) s) as (r & s' & Hr & Hs)%wp_elim.
    apply (wp_intro _ _ _ r s').
    { unfold openat. by rewrite E1, E2, En, Ei. }
    destruct Hs as [|[??]]; [by left|right]. eauto 10.
Qed.

Lemma sim_fsync fd s : wp (fsync fd) (λ r s', fsync_spec (s_view s) fd r (s_view s')) s.
Proof.
  sim_run. unfold fsync, fsync_spec.
  destruct (f_fds (s_view s) !! fd) as [[ino| |]|]; cbn; [|by right|by left|by left].
  destruct (f_inodes (s_view s) !! ino) eqn:E; cbn; [right|by left]. eauto.
Qed.

Lemma sim_pread fd n off s : 0 <= n → 0 <= off →
  wp (pread fd n off) (λ x s', pread_spec (s_view s) fd n off x.1 x.2 (s_view s')) s.
Proof.
  intros. sim_run. unfold pread, pread_spec.
  destruct (fd_data (s_view s) fd) as [data|]; cbn; (split; [done|]); [right|by left].
  exists data. split_and!; try done; try (rewrite length_sub; lia).
  by rewrite sub_clip.
Qed.

Lemma length_unstable off n st : length (unstable off n st) = length st.
Proof. unfold unstable, sub. len. Qed.

Lemma lookup_unstable off n st (j : nat) :
  0 <= off → Z.of_nat j < off ∨ off + n <= Z.of_nat j → unstable off n st !! j = st !! j.
Proof.
  intros Ho Hj. unfold unstable. destruct (decide (j < length st)%nat) as [Hl|Hl].
  2: { rewrite !lookup_ge_None_2; [done| |]; [lia|]. unfold sub. len. }
  destruct (decide (j < Z.to_nat off)%nat) as [Hb|Hb].
  - rewrite lookup_app_l by len. by rewrite lookup_take_lt.
  - rewrite lookup_app_r by len. rewrite lookup_app_r by (unfold sub; len).
    rewrite lookup_drop. f_equal. unfold sub. len.
Qed.

Lemma sim_pwrite fd bs off s : 0 <= off →
  wp (pwrite fd bs off) (λ r s', pwrite_spec (s_view s) fd bs off r (s_view s')) s.
Proof.
  intros. sim_run. unfold pwrite, pwrite_spec. destruct (Z.ltb_spec fd 0) as [Hneg|Hpos]; cbn.
  { split; [done|]. intros ino i Hf Hl. exists i. split; [symmetry; by eapply set_inode_same|].
    split; [done|by left]. }
  split; [lia|]. destruct (fd_file (s_view s) fd) as [[ino i]|]; cbn; [|done].
  destruct (decide _); cbn; intros ? ? [= <- <-] ?; [|lia].
  eexists. split; [done|]. split; [|right; split; [lia|]].
  - split; cbn; [split; [by apply length_blit|apply length_unstable]|]. intros j Hj. split.
    + rewrite lookup_blit by lia. rewrite decide_False by lia. done.
    + by apply lookup_unstable.
  - cbn. list_ext j. rewrite !lookup_sub. case_decide; [|done].
    rewrite lookup_blit by lia. rewrite decide_True by lia. f_equal. lia.
Qed.

Lemma sim_getdents fd n s : 0 <= n →
  wp (getdents fd n) (λ x s', getdents_spec (s_view s) fd n x.1 x.2 (s_view s')) s.
Proof.
  intros. sim_run. unfold getdents, getdents_spec.
  destruct (f_fds (s_view s) !! fd) as [[ino|[|x todo]|]|] eqn:E; cbn; try by left.
  - right. split; [done|]. split; [lia|]. intros todo [= <-]. exists [], [].
    split_and!; [done|constructor|done|]. symmetry. by apply set_fd_same.
  - destruct (decide _) as [(Hn & Hl & Hc)|]; cbn; [right|by left].
    split; [done|]. split; [done|]. intros todo' [= <-]. exists [x], todo.
    split_and!; [done| |done|done].
    apply (dirents_cons (zeros 16) Byte.x08 x [] [] []); try done. constructor.
Qed.


#[export] Instance sim_laws : SysLaws sim.
Proof.
  refine {| view := s_view |}; intros.
  - apply sim_openat.
  - by sim_run.
  - apply sim_fsync.
  - apply sim_fsync.
  - by apply sim_pread.
  - by apply sim_pwrite.
  - by apply sim_getdents.
  - sim_run. cbn. unfold unlinkat, unlinkat_spec.
    destruct (f_names (s_view k) !! cstr path) eqn:E; cbn; [right; eauto|by left].
  - sim_run. cbn. unfold fallocate, fallocate_spec.
    intros ino i Hi. rewrite Hi. cbn. eauto.
  - sim_run. cbn. unfold getrandom. by destruct (s_rand k).
  - by sim_run.
  - sim_run. cbn. unfold recvfrom. destruct (deliver _ _ _) as [[got rest]|]; [|by split; [|left]].
    destruct (decide _); cbn; (split; [done|]); [right; lia|by left].
  - sim_run. cbn. split; [done|right; lia].
  - sim_run. cbn. unfold recvfrom. destruct (deliver _ _ _) as [[got rest]|]; [|done].
    by destruct (decide _).
  - by sim_run.
  - apply new_fd_spec.
  - apply new_fd_spec.
  - by sim_run.
  - by sim_run.
  - by sim_run.
  - by sim_run.
  - apply new_fd_spec.
  - by sim_run.
  - by sim_run.
  - by sim_run.
  - apply new_fd_spec.
  - sim_run. cbn. unfold epoll_wait. destruct (n_events _) as [|evs more]; [by split; [|left]|].
    destruct (decide _); cbn; (split; [done|]); [right; lia|by left].
  - by sim_run.
  - by sim_run.
  - apply new_fd_spec.
  - by sim_run.
Defined.

End Sim.
