(* ===== verification/Session.v ===== *)
(** * The session table (src/server/session.h, session.c)

    The table deduplication is keyed on: at most [SESSION_MAX] sessions, the
    least recently seen one evicted to make room.  Its contract is a list of
    (id, mark) in the order of arrival, [lru], and the operations are shown
    to implement it; the arrival stamps are the table's own business. *)

From stdpp Require Import sorting.
From S2P Require Import Prelude Core Crc32c Msg Record Os.

Definition SESSION_MAX : Z := 1024.

Record session_t := Session { ss_id : Z; ss_last : Z; ss_seen : Z }.
#[export] Instance eta_session : Eta session_t := λ s, Session (ss_id s) (ss_last s) (ss_seen s).

(** [st_entries] is the live prefix [entries[0..count)]; a session_t pointer
    into the table is its index. *)
Record session_table_t := SessionTable {
  st_entries : list session_t; st_next_seen : Z; st_evicted : Z }.
#[export] Instance eta_table : Eta session_table_t := λ t,
  SessionTable (st_entries t) (st_next_seen t) (st_evicted t).

Definition st_count (t : session_table_t) : Z := zlen (st_entries t).

Definition session_table_init : session_table_t := SessionTable [] 1 0.

Definition session_lookup (t : session_table_t) (id : Z) : option nat :=
  if id =? 0 then None else fst <$> list_find (λ s, ss_id s = id) (st_entries t).

(** The scan of [oldest_index] over [entries[i..)], [lowest] so far. *)
Fixpoint oldest_loop (es : list session_t) (i lowest : nat) (seen : Z) : nat :=
  match es with
  | [] => lowest
  | s :: es =>
      if ss_seen s <? seen then oldest_loop es (S i) i (ss_seen s)
      else oldest_loop es (S i) lowest seen
  end.

Definition oldest_index (t : session_table_t) : nat :=
  match st_entries t with
  | [] => 0%nat
  | s :: es => oldest_loop es 1 0 (ss_seen s)
  end.

(** The bytes of a slot past [count] are what an earlier eviction or the
    zeroed table left; the caller sets the id before anything reads it. *)
Definition slot_for_new (t : session_table_t) : nat * session_table_t :=
  let stamp := st_next_seen t in
  if SESSION_MAX <=? st_count t then
    let i := oldest_index t in
    (i, t <| st_evicted := u64 (st_evicted t + 1) |>
          <| st_entries ::= alter (λ s, s <| ss_last := 0 |> <| ss_seen := stamp |>) i |>
          <| st_next_seen := u64 (stamp + 1) |>)
  else
    (length (st_entries t),
     t <| st_entries ::= λ es, es ++ [Session 0 0 stamp] |>
       <| st_next_seen := u64 (stamp + 1) |>).

Definition set_id (t : session_table_t) (i : nat) (id : Z) : session_table_t :=
  t <| st_entries ::= alter (λ s, s <| ss_id := id |>) i |>.

Definition session_touch (t : session_table_t) (i : nat) : session_table_t :=
  t <| st_entries ::= alter (λ s, s <| ss_seen := st_next_seen t |>) i |>
    <| st_next_seen := u64 (st_next_seen t + 1) |>.

Definition session_observe (t : session_table_t) (id client_seq : Z) : session_table_t :=
  if id =? 0 then t else
  let '(i, t) :=
    match session_lookup t id with
    | Some i => (i, t)
    | None => let '(i, t) := slot_for_new t in (i, set_id t i id)
    end in
  let t := t <| st_entries ::= alter (λ s,
    if ss_last s <? client_seq then s <| ss_last := client_seq |> else s) i |> in
  session_touch t i.

Definition session_from_record (t : session_table_t) (r : wal_rec_t) : session_table_t :=
  session_observe t (w_session r) (w_client_seq r).

Section create.
Context {K : Type} `{Sys K}.

(** Up to [tries] draws; 0 when none of them will do. *)
Fixpoint draw_id (tries : nat) (t : session_table_t) : M K Z :=
  match tries with
  | O => mret 0
  | S tries =>
      candidate ← os_random_u64;
      if negb (candidate =? 0) && bool_decide (session_lookup t candidate = None)
      then mret candidate else draw_id tries t
  end.

(** The new session's slot, or [None] where the code returns NULL. *)
Definition session_create (t : session_table_t) : M K (option nat * session_table_t) :=
  id ← draw_id 8 t;
  if id =? 0 then mret (None, t) else
  let '(i, t) := slot_for_new t in
  mret (Some i, set_id t i id).

End create.

(** ** The contract *)

(** Sessions with their marks, least recently seen first. *)
Abbreviation lru := (list (Z * Z)).

Fixpoint mark_of (id : Z) (l : lru) : option Z :=
  match l with
  | [] => None
  | (i, m) :: l => if decide (i = id) then Some m else mark_of id l
  end.

Definition lru_stamp (id mark : Z) (l : lru) : lru := filter (λ x, x.1 ≠ id) l ++ [(id, mark)].

Definition lru_admit (id : Z) (l : lru) : lru :=
  (if SESSION_MAX <=? zlen l then tail l else l) ++ [(id, 0)].

Definition lru_observe (id client_seq : Z) (l : lru) : lru :=
  if id =? 0 then l else
  let l := if decide (mark_of id l = None) then lru_admit id l else l in
  lru_stamp id (Z.max client_seq (default 0 (mark_of id l))) l.

Definition entry_of (s : session_t) : Z * Z := (ss_id s, ss_last s).

(** A table implements a list when its entries in the order of their stamps
    are the list's; the stamps are all different and below the next one. *)
Record in_order (es : list session_t) (t : session_table_t) (l : lru) : Prop := {
  io_perm : es ≡ₚ st_entries t;
  io_sorted : StronglySorted (λ a b, ss_seen a < ss_seen b) es;
  io_below : ∀ s, s ∈ es → ss_seen s < st_next_seen t;
  io_abs : entry_of <$> es = l;
  io_ids : NoDup l.*1;
  io_zero : 0 ∉ l.*1;
  io_room : zlen l <= SESSION_MAX }.

Definition implements (t : session_table_t) (l : lru) : Prop := ∃ es, in_order es t l.

(** ** Lookup *)

Lemma io_length es t l : in_order es t l → st_count t = zlen l.
Proof.
  intros Ho. unfold st_count. by rewrite <-(io_perm _ _ _ Ho), <-(io_abs _ _ _ Ho), length_fmap.
Qed.

Lemma io_elem es t l s : in_order es t l → s ∈ st_entries t → (ss_id s, ss_last s) ∈ l.
Proof.
  intros Ho Hs. rewrite <-(io_abs _ _ _ Ho). change (ss_id s, ss_last s) with (entry_of s).
  apply list_elem_of_fmap_2. by rewrite (io_perm _ _ _ Ho).
Qed.

Lemma nodup_keys {A B} (l : list (A * B)) a b b' :
  NoDup l.*1 → (a, b) ∈ l → (a, b') ∈ l → b = b'.
Proof.
  intros Hn [i Hi]%list_elem_of_lookup_1 [j Hj]%list_elem_of_lookup_1.
  assert (i = j) as ->.
  { eapply NoDup_lookup; [exact Hn|rewrite list_lookup_fmap, Hi; done|].
    by rewrite list_lookup_fmap, Hj. }
  by simplify_eq.
Qed.

Lemma mark_of_None id l : mark_of id l = None ↔ id ∉ l.*1.
Proof.
  induction l as [|[i m] l IH]; cbn; [split; [by intros _ ?%elem_of_nil|done]|].
  rewrite not_elem_of_cons. case_decide; naive_solver.
Qed.

Lemma mark_of_Some id m l : NoDup l.*1 → mark_of id l = Some m ↔ (id, m) ∈ l.
Proof.
  induction l as [|[i m'] l IH]; cbn; [split; [done|by intros ?%elem_of_nil]|].
  intros [Hi Hn]%NoDup_cons. rewrite elem_of_cons. case_decide as Hd.
  - subst. split; [intros [= ->]; by left|]. intros [[= ->]|Hin]; [done|].
    destruct Hi. apply list_elem_of_fmap. by exists (id, m).
  - rewrite IH by done. naive_solver.
Qed.

Lemma mark_of_app id l1 l2 :
  mark_of id (l1 ++ l2) = match mark_of id l1 with Some m => Some m | None => mark_of id l2 end.
Proof. induction l1 as [|[i m] l1 IH]; cbn; [done|]. by case_decide. Qed.

Lemma mark_of_stamp id id' m l :
  mark_of id (lru_stamp id' m l) = if decide (id = id') then Some m else mark_of id l.
Proof.
  unfold lru_stamp. rewrite mark_of_app. cbn.
  assert (mark_of id (filter (λ x, x.1 ≠ id') l) =
          if decide (id = id') then None else mark_of id l) as ->.
  { induction l as [|[i m'] l IH]; [by case_decide|]. rewrite filter_cons. cbn.
    destruct (decide (id = id')) as [->|Hne].
    - destruct (decide (i ≠ id')) as [Hi|Hi]; cbn; [by rewrite decide_False|done].
    - destruct (decide (i ≠ id')) as [Hi|Hi]; cbn; [by rewrite IH|].
      rewrite IH, decide_False; [done|]. intros ->. by apply Hi. }
  cbn. destruct (decide (id = id')) as [->|Hne]; [by rewrite decide_True|].
  rewrite decide_False by done. by destruct (mark_of id l).
Qed.

Lemma mark_of_is_Some id l : is_Some (mark_of id l) ↔ id ∈ l.*1.
Proof.
  rewrite <-not_eq_None_Some, mark_of_None. split; [apply dec_stable|naive_solver].
Qed.

Lemma stamp_ids id m l x : x ∈ (lru_stamp id m l).*1 ↔ x = id ∨ x ∈ l.*1.
Proof.
  rewrite <-!mark_of_is_Some, mark_of_stamp. case_decide; naive_solver.
Qed.

Lemma lookup_Some t id i :
  session_lookup t id = Some i → ∃ s, st_entries t !! i = Some s ∧ ss_id s = id ∧ id ≠ 0.
Proof.
  unfold session_lookup. destruct (Z.eqb_spec id 0); [done|].
  destruct (list_find _ _) as [[j s]|] eqn:E; [|done]. cbn. intros [= <-].
  apply list_find_Some in E as (? & ? & _). eauto.
Qed.

Lemma lookup_None t id : id ≠ 0 →
  session_lookup t id = None ↔ ∀ s, s ∈ st_entries t → ss_id s ≠ id.
Proof.
  intros. unfold session_lookup. rewrite (proj2 (Z.eqb_neq _ _)) by done.
  by rewrite fmap_None, list_find_None, Forall_forall.
Qed.

(** Looking a session up finds its mark in the list, or nothing in both. *)
Lemma lookup_implements t l id : implements t l →
  match session_lookup t id with
  | Some i => ∃ s, st_entries t !! i = Some s ∧ ss_id s = id ∧ mark_of id l = Some (ss_last s)
  | None => mark_of id l = None
  end.
Proof.
  intros [es Ho]. destruct (session_lookup t id) as [i|] eqn:E.
  - apply lookup_Some in E as (s & Hi & <- & _). exists s. split_and!; [done..|].
    apply mark_of_Some; [by apply Ho|]. eapply io_elem; [done|]. by eapply list_elem_of_lookup_2.
  - apply mark_of_None. destruct (decide (id = 0)) as [->|Hz]; [by apply Ho|].
    rewrite lookup_None in E by done. rewrite <-(io_abs _ _ _ Ho).
    intros (x & -> & (s & -> & Hs)%list_elem_of_fmap)%list_elem_of_fmap.
    apply (E s); [|done]. by rewrite <-(io_perm _ _ _ Ho).
Qed.

(** ** Stamping one entry *)

(** The entry at [i] is somewhere in the order; the rest of the order is the
    rest of the table. *)
Lemma io_split es t l i s :
  in_order es t l → st_entries t !! i = Some s →
  ∃ a b, es = a ++ s :: b ∧ a ++ b ≡ₚ delete i (st_entries t).
Proof.
  intros Ho Hi. pose proof (delete_Permutation _ _ _ Hi) as Hp.
  assert (s ∈ es) as (a & b & ->)%list_elem_of_split.
  { rewrite (io_perm _ _ _ Ho). by eapply list_elem_of_lookup_2. }
  exists a, b. split; [done|]. apply (Permutation_cons_inv (a:=s)).
  rewrite <-Hp, <-(io_perm _ _ _ Ho). apply Permutation_middle.
Qed.

Lemma alter_perm {A} (f : A → A) (l : list A) i x :
  l !! i = Some x → alter f i l ≡ₚ f x :: delete i l.
Proof.
  revert i. induction l as [|y l IH]; intros [|i] Hi; cbn in *; simplify_eq; [done|].
  rewrite (IH _ Hi). apply perm_swap.
Qed.

(** An arrival behind everything that stays. *)
Lemma arrive r s' t' next :
  StronglySorted (λ a b, ss_seen a < ss_seen b) r → (∀ s, s ∈ r → ss_seen s < next) →
  NoDup (entry_of <$> r).*1 → 0 ∉ (entry_of <$> r).*1 →
  ss_id s' ∉ (entry_of <$> r).*1 → ss_id s' ≠ 0 → ss_seen s' = next →
  st_entries t' ≡ₚ s' :: r → st_next_seen t' = next + 1 → zlen r < SESSION_MAX →
  in_order (r ++ [s']) t' ((entry_of <$> r) ++ [entry_of s']).
Proof.
  intros Hs Hb Hn Hz Hid Hid0 Hseen Hp Hnext Hroom. constructor.
  - rewrite Hp. symmetry. apply Permutation_cons_append.
  - apply StronglySorted_app_2; [|done|repeat constructor].
    intros x y Hx ->%list_elem_of_singleton. rewrite Hseen. by apply Hb.
  - intros x [Hx| ->%list_elem_of_singleton]%elem_of_app; [|lia]. specialize (Hb x Hx). lia.
  - by rewrite fmap_app.
  - rewrite fmap_app. apply NoDup_app. split_and!; [done| |apply NoDup_singleton].
    intros x Hx ->%list_elem_of_singleton. done.
  - rewrite fmap_app, elem_of_app. cbn. rewrite list_elem_of_singleton. naive_solver.
  - rewrite length_app, length_fmap. cbn. lia.
Qed.

Lemma StronglySorted_drop {A} (R : A → A → Prop) a x b :
  StronglySorted R (a ++ x :: b) → StronglySorted R (a ++ b).
Proof.
  induction a as [|y a IH]; cbn; intros Hs; apply StronglySorted_inv in Hs as [Hs Hf]; [done|].
  constructor; [by apply IH|]. rewrite Forall_app, Forall_cons in Hf. rewrite Forall_app. tauto.
Qed.

(** What is left of the order when one entry leaves it. *)
Lemma io_without a s b t l :
  in_order (a ++ s :: b) t l →
  StronglySorted (λ x y, ss_seen x < ss_seen y) (a ++ b) ∧
  (∀ x, x ∈ a ++ b → ss_seen x < st_next_seen t) ∧
  NoDup (entry_of <$> (a ++ b)).*1 ∧ (0 ∉ (entry_of <$> (a ++ b)).*1) ∧
  (ss_id s ∉ (entry_of <$> (a ++ b)).*1) ∧ ss_id s ≠ 0 ∧ zlen (a ++ b) < SESSION_MAX ∧
  entry_of <$> (a ++ b) = filter (λ x, x.1 ≠ ss_id s) l.
Proof.
  intros [Hp Hs Hb <- Hn Hz Hr].
  assert ((entry_of <$> (a ++ s :: b)).*1 ≡ₚ ss_id s :: (entry_of <$> (a ++ b)).*1) as Hperm.
  { rewrite <-Permutation_middle. done. }
  rewrite Hperm in Hn, Hz. apply NoDup_cons in Hn as [Hs1 Hn].
  split_and!; [by eapply StronglySorted_drop| |done| | done| | |].
  - intros x Hx. apply Hb. rewrite <-Permutation_middle. by right.
  - intros ?. apply Hz. by right.
  - intros Heq. apply Hz. rewrite Heq. by left.
  - rewrite length_fmap in Hr. rewrite length_app in *. cbn in Hr. lia.
  - rewrite !fmap_app, filter_app, fmap_cons, filter_cons, decide_False by (cbn; naive_solver).
    rewrite !fmap_app in Hs1. rewrite not_elem_of_app in Hs1. destruct Hs1 as [H1 H2].
    assert (∀ k : list (Z * Z), ss_id s ∉ k.*1 → filter (λ x, x.1 ≠ ss_id s) k = k) as Hf.
    { intros k Hk. apply filter_all. intros [u v] Huv Heq. cbn in Heq. subst.
      apply Hk. apply list_elem_of_fmap. by exists (ss_id s, v). }
    by rewrite !Hf.
Qed.

(** Stamping an entry moves its session to the end of the list. *)
Lemma stamp_implements t l i s m :
  implements t l → st_next_seen t + 1 < 2 ^ 64 → 0 <= st_next_seen t →
  st_entries t !! i = Some s →
  implements (session_touch (t <| st_entries ::= alter (λ s, s <| ss_last := m |>) i |>) i)
    (lru_stamp (ss_id s) m l).
Proof.
  intros [es Ho] Hnext H0 Hi. destruct (io_split _ _ _ _ _ Ho Hi) as (a & b & -> & Hp).
  destruct (io_without _ _ _ _ _ Ho) as (Hs & Hb & Hn & Hz & Hid & Hid0 & Hr & Hf).
  pose (s' := Session (ss_id s) m (st_next_seen t)).
  exists ((a ++ b) ++ [s']). unfold lru_stamp. rewrite <-Hf.
  apply (arrive (a ++ b) s' _ (st_next_seen t)); try done.
  - unfold session_touch. cbn. rewrite list_alter_alter_eq.
    rewrite (alter_perm _ _ _ _ Hi). cbn. by rewrite Hp.
  - unfold session_touch. cbn. apply u64_id. lia.
Qed.

(** ** A slot for a new session *)

Lemma oldest_loop_spec es L i lowest seen s0 :
  L = take i L ++ es → (i <= length L)%nat → L !! lowest = Some s0 → seen = ss_seen s0 →
  (∀ s, s ∈ take i L → seen <= ss_seen s) →
  ∃ s, L !! oldest_loop es i lowest seen = Some s ∧ ∀ s', s' ∈ L → ss_seen s <= ss_seen s'.
Proof.
  revert i lowest seen s0. induction es as [|x es IH]; intros i lowest seen s0 HL Hi Hlow -> Hall; cbn.
  { exists s0. split; [done|]. rewrite app_nil_r in HL. by rewrite <-HL in Hall. }
  assert (L !! i = Some x) as Hx.
  { rewrite HL, lookup_app_r by (rewrite length_take; lia).
    rewrite length_take. by replace (i - Nat.min i (length L))%nat with 0%nat by lia. }
  assert (take (S i) L = take i L ++ [x]) as Ht by (by apply take_S_r).
  assert (i < length L)%nat by (by eapply lookup_lt_Some).
  assert (L = take (S i) L ++ es) as HL' by (by rewrite Ht, <-app_assoc).
  assert (∀ s, s ∈ take (S i) L → Z.min (ss_seen s0) (ss_seen x) <= ss_seen s) as Hall'.
  { intros s. rewrite Ht, elem_of_app, list_elem_of_singleton. intros [Hs| ->]; [|lia].
    specialize (Hall s Hs). lia. }
  destruct (Z.ltb_spec (ss_seen x) (ss_seen s0)).
  - apply (IH (S i) i _ x); [done|lia|done|done|]. intros s Hs. specialize (Hall' s Hs). lia.
  - apply (IH (S i) lowest _ s0); [done|lia|done|done|]. intros s Hs. specialize (Hall' s Hs). lia.
Qed.

Lemma oldest_spec t s0 :
  s0 ∈ st_entries t →
  ∃ s, st_entries t !! oldest_index t = Some s ∧
    ∀ s', s' ∈ st_entries t → ss_seen s <= ss_seen s'.
Proof.
  unfold oldest_index. destruct (st_entries t) as [|s es] eqn:E; [by intros ?%elem_of_nil|].
  intros _. apply (oldest_loop_spec es (s :: es) 1 0 _ s); try done; [cbn; lia|].
  intros x. cbn. rewrite take_0, list_elem_of_singleton. by intros ->.
Qed.

(** The oldest entry is the head of the order. *)
Lemma oldest_head es t l s :
  in_order es t l → st_entries t !! oldest_index t = Some s →
  (∀ s', s' ∈ st_entries t → ss_seen s <= ss_seen s') →
  ∃ b, es = s :: b ∧ b ≡ₚ delete (oldest_index t) (st_entries t).
Proof.
  intros Ho Hi Hmin. destruct (io_split _ _ _ _ _ Ho Hi) as (a & b & -> & Hp).
  destruct a as [|x a]; [by exists b|]. exfalso.
  pose proof (io_sorted _ _ _ Ho) as Hs. cbn in Hs.
  apply StronglySorted_inv in Hs as [_ Hf]. rewrite Forall_forall in Hf.
  specialize (Hf s ltac:(rewrite elem_of_app, elem_of_cons; auto)).
  specialize (Hmin x). rewrite <-(io_perm _ _ _ Ho) in Hmin.
  specialize (Hmin ltac:(by left)). lia.
Qed.

(** The slot holds the new session, with the mark of one never seen. *)
Lemma slot_implements t l id i t' :
  implements t l → id ≠ 0 → id ∉ l.*1 → 0 <= st_next_seen t → st_next_seen t + 1 < 2 ^ 64 →
  slot_for_new t = (i, t') →
  implements (set_id t' i id) (lru_admit id l) ∧
  st_next_seen (set_id t' i id) = st_next_seen t + 1 ∧
  st_entries (set_id t' i id) !! i = Some (Session id 0 (st_next_seen t)).
Proof.
  intros [es Ho] Hid0 Hid Hn0 Hn. unfold slot_for_new.
  rewrite (io_length _ _ _ Ho). unfold lru_admit. pose (s' := Session id 0 (st_next_seen t)).
  destruct (Z.leb_spec SESSION_MAX (zlen l)) as [Hfull|Hroom]; intros [= <- <-].
  - assert (∃ s0, s0 ∈ st_entries t) as [s0 Hs0].
    { pose proof (io_length _ _ _ Ho) as Hl. unfold st_count, SESSION_MAX in *.
      destruct (st_entries t) as [|s0 ?]; [cbn in Hl; lia|]. exists s0. by left. }
    destruct (oldest_spec t s0 Hs0) as (s & Hi & Hmin).
    destruct (oldest_head _ _ _ _ Ho Hi Hmin) as (b & -> & Hp).
    destruct (io_without [] s b t l Ho) as (Hs & Hb & Hnd & Hz & _ & _ & Hr & _).
    cbn [app] in *.
    assert (st_entries (set_id (t <| st_evicted := u64 (st_evicted t + 1) |>
        <| st_entries ::= alter (λ s, s <| ss_last := 0 |> <| ss_seen := st_next_seen t |>)
             (oldest_index t) |> <| st_next_seen := u64 (st_next_seen t + 1) |>)
        (oldest_index t) id)
      = alter (λ _, s') (oldest_index t) (st_entries t)) as Hent.
    { unfold set_id. cbn. by rewrite list_alter_alter_eq. }
    assert (tail l = entry_of <$> b) as -> by (by rewrite <-(io_abs _ _ _ Ho)).
    split_and!.
    + exists (b ++ [s']). change (id, 0) with (entry_of s').
      apply (arrive b s' _ (st_next_seen t)); try done.
      * intros Hin. apply Hid. rewrite <-(io_abs _ _ _ Ho). cbn. by right.
      * rewrite Hent. rewrite (alter_perm _ _ _ _ Hi). by rewrite Hp.
      * cbn. apply u64_id. lia.
    + cbn. apply u64_id. lia.
    + rewrite Hent, list_lookup_alter_eq, Hi. done.
  - assert (st_entries (set_id (t <| st_entries ::= λ es, es ++ [Session 0 0 (st_next_seen t)] |>
        <| st_next_seen := u64 (st_next_seen t + 1) |>) (length (st_entries t)) id)
      = st_entries t ++ [s']) as Hent.
    { unfold set_id. cbn. rewrite alter_app_r_alt by lia. by rewrite Nat.sub_diag. }
    split_and!.
    + exists (es ++ [s']). rewrite <-(io_abs _ _ _ Ho). change (id, 0) with (entry_of s').
      apply (arrive es s' _ (st_next_seen t)); try done; rewrite ?(io_abs _ _ _ Ho).
      * apply Ho.
      * apply Ho.
      * apply Ho.
      * apply Ho.
      * done.
      * rewrite Hent, <-Permutation_cons_append. by rewrite (io_perm _ _ _ Ho).
      * cbn. apply u64_id. lia.
      * rewrite <-(length_fmap entry_of), (io_abs _ _ _ Ho). lia.
    + cbn. apply u64_id. lia.
    + rewrite Hent, lookup_app_r, Nat.sub_diag by lia. done.
Qed.

(** ** Observing and creating *)

Lemma admit_mark id l : NoDup l.*1 → id ∉ l.*1 → mark_of id (lru_admit id l) = Some 0.
Proof.
  intros Hn Hid. apply mark_of_Some; unfold lru_admit.
  - rewrite fmap_app. apply NoDup_app. split_and!; [|intros x Hx|apply NoDup_singleton].
    + case_match; [|done]. destruct l; [done|]. cbn in *. by apply NoDup_cons in Hn as [_ ?].
    + cbn. rewrite list_elem_of_singleton. intros ->. apply Hid. case_match; [|done].
      destruct l; [done|]. cbn in *. by right.
  - rewrite elem_of_app. right. by left.
Qed.

Lemma observe_implements t l id cs :
  implements t l → 0 <= st_next_seen t → st_next_seen t + 2 < 2 ^ 64 →
  implements (session_observe t id cs) (lru_observe id cs l).
Proof.
  intros Him Hn0 Hn. unfold session_observe, lru_observe.
  destruct (Z.eqb_spec id 0) as [|Hid0]; [done|].
  pose proof (lookup_implements t l id Him) as Hl.
  assert (∀ t1 l1 i s, implements t1 l1 → st_entries t1 !! i = Some s → ss_id s = id →
    0 <= st_next_seen t1 → st_next_seen t1 + 1 < 2 ^ 64 →
    implements (session_touch (t1 <| st_entries ::= alter (λ s,
      if ss_last s <? cs then s <| ss_last := cs |> else s) i |>) i)
      (lru_stamp id (Z.max cs (ss_last s)) l1)) as Hst.
  { intros t1 l1 i s Him1 Hi <- ??.
    pose proof (stamp_implements t1 l1 i s (Z.max cs (ss_last s)) Him1 ltac:(done) ltac:(done) Hi)
      as Himp.
    replace (t1 <| st_entries ::= alter _ i |>)
      with (t1 <| st_entries ::= alter (λ s0, s0 <| ss_last := Z.max cs (ss_last s) |>) i |>);
      [done|].
    destruct t1. unfold upd. cbn in *. f_equal. apply list_alter_ext; [|done].
    intros x Hx. rewrite Hi in Hx. simplify_eq. destruct x as [xi xl xs].
    unfold upd. cbn. destruct (Z.ltb_spec xl cs); f_equal; lia. }
  destruct (session_lookup t id) as [i|].
  - destruct Hl as (s & Hi & Hid & Hm). rewrite decide_False by (by rewrite Hm). rewrite Hm. cbn.
    apply Hst; try done. lia.
  - destruct (slot_for_new t) as [i t'] eqn:Hsl. rewrite decide_True by done.
    apply mark_of_None in Hl as Hid.
    destruct (slot_implements _ _ _ _ _ Him Hid0 Hid Hn0 ltac:(lia) Hsl) as (Him' & Hn' & Hi).
    destruct Him as [es Ho]. rewrite admit_mark by (done || apply Ho). cbn.
    apply (Hst _ _ _ _ Him' Hi); [done|lia|lia].
Qed.

Lemma init_implements : implements session_table_init [].
Proof.
  exists []. constructor; try done; try constructor; [by intros ? ?%elem_of_nil|by intros ?%elem_of_nil].
Qed.

Lemma observe_next t id cs :
  0 <= st_next_seen t → st_next_seen t + 2 < 2 ^ 64 →
  st_next_seen t <= st_next_seen (session_observe t id cs) <= st_next_seen t + 2.
Proof.
  intros. unfold session_observe. case_match; [lia|].
  destruct (session_lookup t id) as [i|].
  - cbn. rewrite u64_id; lia.
  - unfold slot_for_new. destruct (SESSION_MAX <=? st_count t); cbn;
      rewrite (u64_id (st_next_seen t + 1)), u64_id by lia; lia.
Qed.

Definition lru_of_log (recs : list wal_rec_t) : lru :=
  foldl (λ l r, lru_observe (w_session r) (w_client_seq r) l) [] recs.

Lemma replay_implements recs :
  2 * zlen recs + 1 < 2 ^ 64 →
  let t := foldl session_from_record session_table_init recs in
  implements t (lru_of_log recs) ∧ 0 <= st_next_seen t <= 2 * zlen recs + 1.
Proof.
  intros Hn t. unfold t, lru_of_log. clear t. induction recs as [|r recs IH] using rev_ind.
  { split; [apply init_implements|cbn; lia]. }
  rewrite length_app in Hn. cbn in Hn. destruct (IH ltac:(lia)) as [Him Hb].
  rewrite !foldl_app, length_app. cbn. unfold session_from_record at 1 3.
  split; [apply observe_implements; [done|lia|lia]|].
  pose proof (observe_next (foldl session_from_record session_table_init recs)
    (w_session r) (w_client_seq r) ltac:(lia) ltac:(lia)). unfold session_from_record in *. lia.
Qed.

(** The highest client sequence each session has in the log. *)
Definition high_water (id : Z) (recs : list wal_rec_t) : option Z :=
  foldl (λ m r, if decide (w_session r = id)
                then Some (Z.max (w_client_seq r) (default 0 m)) else m) None recs.

(** The sessions that appear in the log. *)
Definition sessions_in (recs : list wal_rec_t) : gset Z :=
  list_to_set (w_session <$> recs) ∖ {[0]}.

Lemma sessions_snoc recs r :
  sessions_in (recs ++ [r]) =
    if decide (w_session r = 0) then sessions_in recs else {[w_session r]} ∪ sessions_in recs.
Proof.
  unfold sessions_in. rewrite fmap_app, list_to_set_app_L. cbn. case_decide; set_solver.
Qed.

Lemma lru_observe_full id cs l :
  mark_of id l = None → id ≠ 0 → zlen l < SESSION_MAX →
  lru_observe id cs l = lru_stamp id (Z.max cs 0) (l ++ [(id, 0)]).
Proof.
  intros Hm Hid Hl. unfold lru_observe. rewrite (proj2 (Z.eqb_neq _ _)) by done.
  rewrite decide_True by done. unfold lru_admit. rewrite (proj2 (Z.leb_gt _ _)) by done.
  by rewrite mark_of_app, Hm; cbn; rewrite decide_True.
Qed.

(** With room for every session, the marks are the log's high waters. *)
Lemma replay_marks recs :
  2 * zlen recs + 1 < 2 ^ 64 → (size (sessions_in recs) <= 1024)%nat →
  (∀ id, id ∈ (lru_of_log recs).*1 ↔ id ∈ sessions_in recs) ∧
  (∀ id, id ≠ 0 → mark_of id (lru_of_log recs) = high_water id recs).
Proof.
  induction recs as [|r recs IH] using rev_ind; intros Hn Hs.
  { split; [|done]. intros id. cbn. unfold sessions_in. cbn. set_solver. }
  rewrite length_app in Hn. cbn in Hn.
  assert (sessions_in recs ⊆ sessions_in (recs ++ [r])) as Hsub
    by (rewrite sessions_snoc; case_decide; set_solver).
  pose proof (subseteq_size _ _ Hsub) as Hsz.
  destruct (IH ltac:(lia) ltac:(lia)) as [Hids Hm].
  destruct (replay_implements recs ltac:(lia)) as [[es Ho] _].
  unfold lru_of_log, high_water in *. rewrite !foldl_app. cbn.
  setoid_rewrite foldl_app. cbn.
  set (l := foldl _ [] recs) in *. rewrite sessions_snoc in *.
  destruct (decide (w_session r = 0)) as [H0|H0].
  { unfold lru_observe. rewrite H0. cbn. split; [done|]. intros id Hid.
    rewrite decide_False by done. by apply Hm. }
  destruct (mark_of (w_session r) l) as [m|] eqn:Em.
  - assert (lru_observe (w_session r) (w_client_seq r) l =
            lru_stamp (w_session r) (Z.max (w_client_seq r) m) l) as ->.
    { unfold lru_observe. rewrite (proj2 (Z.eqb_neq _ _)) by done.
      by rewrite decide_False, Em by (by rewrite Em). }
    assert (w_session r ∈ l.*1) by (apply mark_of_is_Some; by rewrite Em).
    split.
    + intros id. rewrite stamp_ids, Hids, elem_of_union, elem_of_singleton. tauto.
    + intros id Hid. rewrite mark_of_stamp. rewrite <-!Hm by done.
      destruct (decide (id = w_session r)) as [->|Hne].
      * by rewrite decide_True, Em.
      * by rewrite decide_False.
  - apply mark_of_None in Em as Hnin.
    assert (zlen l < SESSION_MAX) as Hroom.
    { assert (length l.*1 = size (list_to_set l.*1 : gset Z)) as Hlen
        by (symmetry; apply size_list_to_set, Ho).
      assert ((list_to_set l.*1 : gset Z) = sessions_in recs) as Heq by set_solver.
      rewrite Heq, length_fmap in Hlen. rewrite Hids in Hnin.
      rewrite size_union, size_singleton in Hs by set_solver. unfold SESSION_MAX. lia. }
    rewrite lru_observe_full by done.
    split.
    + intros id. rewrite stamp_ids, fmap_app, elem_of_app, Hids, elem_of_union, elem_of_singleton.
      cbn. rewrite list_elem_of_singleton. tauto.
    + intros id Hid. rewrite mark_of_stamp, mark_of_app. rewrite <-!Hm by done.
      destruct (decide (id = w_session r)) as [->|Hne].
      * by rewrite decide_True, Em.
      * rewrite decide_False by done. cbn. rewrite decide_False by done.
        by destruct (mark_of id l).
Qed.

Lemma wp_draw_id {K} `{SysLaws K} tries t (k : K) :
  wp (draw_id tries t) (λ id k', view k' = view k ∧ 0 <= id < 2 ^ 64 ∧
    (id ≠ 0 → session_lookup t id = None)) k.
Proof.
  revert k. induction tries as [|tries IH]; intros k; cbn; [by apply wp_ret|].
  call wp_os_random as c k' [Hv Hc].
  destruct (negb (c =? 0) && bool_decide (session_lookup t c = None)) eqn:E.
  - apply wp_ret. do 2 (split; [done|]). intros _. zb. by eapply bool_decide_eq_true_1.
  - eapply wp_mono; [apply IH|]. cbn. intros x k'' [Hv' ?]. split; [congruence|done].
Qed.

(** ** Properties *)

Module SessionProps.
Import Os.Sim.

(** C24. The table implements its contract, a list of at most 1024 sessions
    in the order they were last seen: lookup finds a session exactly when the
    list has it, with its mark; observing a record raises that session's mark
    and moves it to the recent end, admitting it first if it is new, at the
    cost of the least recently seen one when the list is full; touching moves
    without raising.  No stamp ever makes eviction pick another victim. *)
Theorem session_table_refines_lru (t : session_table_t) (l : lru) (id client_seq : Z)
    (Him : implements t l) (H0 : 0 <= st_next_seen t) (Hn : st_next_seen t + 2 < 2 ^ 64) :
  implements (session_observe t id client_seq) (lru_observe id client_seq l) ∧
  match session_lookup t id with
  | Some i => ∃ s, st_entries t !! i = Some s ∧ ss_id s = id ∧ mark_of id l = Some (ss_last s) ∧
                implements (session_touch t i) (lru_stamp id (ss_last s) l)
  | None => mark_of id l = None
  end.
Proof.
  split; [by apply observe_implements|].
  pose proof (lookup_implements t l id Him) as Hl.
  destruct (session_lookup t id) as [i|]; [|done].
  destruct Hl as (s & Hi & <- & Hm). exists s. split_and!; [done..|].
  pose proof (stamp_implements t l i s (ss_last s) Him ltac:(lia) H0 Hi) as Hst.
  replace (t <| st_entries ::= alter (λ s0, s0 <| ss_last := ss_last s |>) i |>) with t in Hst;
    [done|].
  destruct t as [es nx ev]. unfold upd. cbn in *. f_equal. symmetry.
  transitivity (alter (λ s0 : session_t, s0) i es); [|by apply list_alter_id].
  apply list_alter_ext; [|done]. intros x Hx. rewrite Hi in Hx. simplify_eq. by destruct x.
Qed.

Lemma session_table_refines_lru_witness :
  implements (session_observe (session_observe session_table_init 7 3) 9 1) [(7, 3); (9, 1)].
Proof.
  pose proof (session_table_refines_lru session_table_init [] 7 3 init_implements
    ltac:(cbn; lia) ltac:(cbn; lia)) as [H1 _].
  pose proof (session_table_refines_lru _ _ 9 1 H1 ltac:(vm_compute; discriminate)
    ltac:(vm_compute; reflexivity)) as [H2 _].
  exact H2.
Defined.

(** An issued id is nobody's: whatever the kernel answers, creating a
    session either gives none and leaves the table as it was, or gives a slot
    whose id is not zero and was not live, with a mark of zero, in a table
    that implements the list with that session admitted. *)
Theorem session_create_fresh {K : Type} `{SysLaws K} (t : session_table_t) (l : lru) (k : K)
    (Him : implements t l) (Hn0 : 0 <= st_next_seen t) (Hn : st_next_seen t + 1 < 2 ^ 64) :
  wp (session_create t) (λ x k', view k' = view k ∧
    match x with
    | (None, t') => t' = t
    | (Some i, t') => ∃ s, st_entries t' !! i = Some s ∧ ss_id s ≠ 0 ∧ ss_last s = 0 ∧
        mark_of (ss_id s) l = None ∧ implements t' (lru_admit (ss_id s) l)
    end) k.
Proof.
  unfold session_create. call wp_draw_id as id k' (Hv & _ & Hfree).
  destruct (Z.eqb_spec id 0) as [|Hid]; [by apply wp_ret|].
  specialize (Hfree Hid). pose proof (lookup_implements t l id Him) as Hl. rewrite Hfree in Hl.
  destruct (slot_for_new t) as [i t'] eqn:Hsl. apply wp_ret. split; [done|].
  destruct (slot_implements t l id i t' Him Hid ltac:(by apply mark_of_None) Hn0 Hn Hsl)
    as (Him' & _ & Hi).
  eexists. split; [exact Hi|]. cbn. done.
Qed.

Lemma session_create_fresh_witness :
  let s := Sim.boot [0; 7; 42] in
  let t := session_observe session_table_init 7 3 in
  wp (session_create t) (λ x k', view k' = view s ∧
    match x with
    | (None, t') => t' = t
    | (Some i, t') => ∃ s, st_entries t' !! i = Some s ∧ ss_id s ≠ 0 ∧ ss_last s = 0 ∧
        mark_of (ss_id s) [(7, 3)] = None ∧ implements t' (lru_admit (ss_id s) [(7, 3)])
    end) s ∧
  (session_create t s).1.1 = Some 1%nat.
Proof.
  pose (t := session_observe session_table_init 7 3).
  assert (implements t [(7, 3)]) as Him.
  { exact (observe_implements session_table_init [] 7 3 init_implements
      ltac:(cbn; lia) ltac:(cbn; lia)). }
  split; [|vm_compute; reflexivity].
  exact (session_create_fresh t [(7, 3)] (Sim.boot [0; 7; 42]) Him
    ltac:(vm_compute; discriminate) ltac:(vm_compute; reflexivity)).
Defined.

(** C25. Deduplication is rebuilt exactly: replaying a log that has records
    of at most 1024 sessions leaves a table in which a session is found
    exactly when the log has a record of it, and its mark is the highest
    client sequence the log has for it. *)
Theorem replay_rebuilds_marks (recs : list wal_rec_t) (id : Z)
    (Hn : 2 * zlen recs + 1 < 2 ^ 64) (Hs : (size (sessions_in recs) <= 1024)%nat) (Hid : id ≠ 0) :
  let t := foldl session_from_record session_table_init recs in
  match session_lookup t id with
  | Some i => ss_last <$> st_entries t !! i = high_water id recs
  | None => high_water id recs = None
  end.
Proof.
  intros t. destruct (replay_implements recs Hn) as [Him _].
  destruct (replay_marks recs Hn Hs) as [_ Hm]. specialize (Hm id Hid).
  pose proof (lookup_implements t _ id Him) as Hl.
  destruct (session_lookup t id) as [i|].
  - destruct Hl as (s & Hi & _ & Hmk). rewrite Hi, <-Hm. done.
  - by rewrite <-Hm.
Qed.

Lemma replay_rebuilds_marks_witness :
  let t := foldl session_from_record session_table_init
    [Rec 0 0 1 1 7 1 1 0 0 5; Rec 0 0 1 2 9 4 1 0 0 6; Rec 0 0 1 3 7 2 1 0 0 5] in
  match session_lookup t 7 with
  | Some i => ss_last <$> st_entries t !! i = Some 2
  | None => Some 2 = None
  end.
Proof.
  exact (replay_rebuilds_marks
    [Rec 0 0 1 1 7 1 1 0 0 5; Rec 0 0 1 2 9 4 1 0 0 6; Rec 0 0 1 3 7 2 1 0 0 5] 7
    ltac:(vm_compute; reflexivity) ltac:(vm_compute; lia) ltac:(discriminate)).
Defined.

End SessionProps.
