(* ===== verification/Segment.v ===== *)
(** * WAL segments (src/wal/segment.h, segment.c)

    One preallocated file of records: creating, opening, recovering,
    appending and flushing.  [scan] reads a whole file image in one pass and
    is what the blockwise recovery is shown to compute; [holds] says what a
    segment's file and its counters have to do with the records appended. *)

From S2P Require Import Prelude Core Crc32c Fmt Msg Record Os.

Definition WAL_SEG_DIGITS : nat := 20.
Definition WAL_SEG_NAME_MAX : Z := 25.

Record wal_seg_t := Seg {
  g_fd : Z; g_dir_fd : Z; g_base_seq : Z; g_next_seq : Z; g_durable_seq : Z;
  g_capacity : Z; g_write_off : Z; g_synced_off : Z }.
#[export] Instance eta_seg : Eta wal_seg_t := λ s,
  Seg (g_fd s) (g_dir_fd s) (g_base_seq s) (g_next_seq s) (g_durable_seq s)
    (g_capacity s) (g_write_off s) (g_synced_off s).

Record wal_seg_scan_t := Scan { sc_records : Z; sc_last_seq : Z; sc_end_off : Z; sc_torn : bool }.

(** ".seg" and the NUL. *)
Definition seg_suffix : list byte := bytes_of [46; 115; 101; 103; 0].

(** The digits of the name, filled from the last to the first. *)
Fixpoint name_digits (n : nat) (base_seq : Z) (acc : list byte) : list byte :=
  match n with
  | O => acc
  | S n => name_digits n (base_seq / 10) (digit (base_seq mod 10) :: acc)
  end.

Definition wal_seg_name (base_seq : Z) : list byte :=
  name_digits WAL_SEG_DIGITS base_seq [] ++ seg_suffix.

Definition seg_reset (fd dir_fd base_seq capacity : Z) : wal_seg_t :=
  Seg fd dir_fd base_seq base_seq (u64 (base_seq - 1)) capacity 0 0.

Section segment.
Context {K : Type} `{Sys K}.

(** The segment is the caller's own when the call fails. *)
Definition wal_seg_create (s : wal_seg_t) (dir_fd base_seq capacity : Z)
    : M K (result_t * wal_seg_t) :=
  if (base_seq =? 0) || (capacity <? WAL_REC_HEADER_SIZE)
  then mret (RESULT_ERR ERR_INVALID 0, s) else
  '(r, fd) ← os_openat dir_fd (wal_seg_name base_seq)
    (Z.lor (Z.lor (Z.lor O_RDWR O_CREAT) O_EXCL) O_CLOEXEC) MODE_0600 (-1);
  if negb (result_ok r) then mret (r, s) else
  r ← os_fallocate fd 0 0 capacity;
  if negb (result_ok r) then _ ← os_close fd; mret (r, s) else
  r ← os_fsync fd;
  if negb (result_ok r) then _ ← os_close fd; mret (r, s) else
  r ← os_fsync dir_fd;
  if negb (result_ok r) then _ ← os_close fd; mret (r, s) else
  mret (RESULT_OK, seg_reset fd dir_fd base_seq capacity).

Definition wal_seg_open (s : wal_seg_t) (dir_fd base_seq capacity : Z)
    : M K (result_t * wal_seg_t) :=
  if (base_seq =? 0) || (capacity <? WAL_REC_HEADER_SIZE)
  then mret (RESULT_ERR ERR_INVALID 0, s) else
  '(r, fd) ← os_openat dir_fd (wal_seg_name base_seq) (Z.lor O_RDWR O_CLOEXEC) 0 (-1);
  if negb (result_ok r) then mret (r, s) else
  mret (RESULT_OK, seg_reset fd dir_fd base_seq capacity).

Definition wal_seg_fits (s : wal_seg_t) (payload_len : Z) : bool :=
  let size := wal_rec_size payload_len in
  if size =? 0 then false else g_write_off s + size <=? g_capacity s.

(** Result, segment, the record as it was numbered and sealed, and the
    scratch buffer. *)
Definition wal_seg_append (s : wal_seg_t) (r : wal_rec_t) (payload : option (list byte))
    (scratch : list byte) : M K (result_t * wal_seg_t * wal_rec_t * list byte) :=
  let r := r <| w_seq := g_next_seq s |> in
  let '(total, scratch, r) := wal_rec_encode scratch (zlen scratch) r payload in
  if total =? 0 then mret (RESULT_ERR ERR_NOMEM 0, s, r, scratch) else
  if g_capacity s <? g_write_off s + total
  then mret (RESULT_ERR ERR_STORAGE 0, s, r, scratch) else
  res ← os_pwrite_full (g_fd s) scratch total (g_write_off s);
  if negb (result_ok res) then mret (res, s, r, scratch) else
  mret (RESULT_OK, s <| g_write_off := g_write_off s + total |>
                     <| g_next_seq := u64 (g_next_seq s + 1) |>, r, scratch).

Definition wal_seg_sync (s : wal_seg_t) : M K (result_t * wal_seg_t) :=
  if g_synced_off s =? g_write_off s then mret (RESULT_OK, s) else
  r ← os_fdatasync (g_fd s);
  if negb (result_ok r) then mret (r, s) else
  mret (RESULT_OK, s <| g_synced_off := g_write_off s |>
                     <| g_durable_seq := u64 (g_next_seq s - 1) |>).

Definition wal_seg_close (s : wal_seg_t) : M K (result_t * wal_seg_t) :=
  if g_fd s <? 0 then mret (RESULT_OK, s) else
  r ← os_close (g_fd s);
  mret (r, s <| g_fd := -1 |>).

(** *** Recovery

    [cb] is the callback with its context threaded through. *)

Context {C : Type} (cb : C → wal_rec_t → C).

(** How the walk of one block ends: more to read, the end of the log, or a
    record that is larger than can be read. *)
Inductive block_end :=
| Refill
| Finished (torn : bool)
| TooBig (size : Z).

(** The inner loop, over the [n] bytes just read: offset in the block, next
    sequence, records so far, context. *)
Fixpoint scan_block (fuel : nat) (capacity off : Z) (blk : list byte) (n pos expected records : Z)
    (ctx : C) : block_end * Z * Z * Z * C :=
  match fuel with
  | O => (Refill, pos, expected, records, ctx)
  | S fuel =>
      if n <? pos + WAL_REC_HEADER_SIZE then (Refill, pos, expected, records, ctx) else
      let buf := drop (Z.to_nat pos) blk in
      match wal_rec_decode buf (n - pos) with
      | None => (Refill, pos, expected, records, ctx)
      | Some rec =>
          if wal_rec_is_end rec then (Finished false, pos, expected, records, ctx) else
          let size := wal_rec_size (i32 (w_len rec)) in
          if (size =? 0) || (capacity <? off + pos + size)
          then (Finished true, pos, expected, records, ctx) else
          if n <? pos + size then
            (if pos =? 0 then TooBig size else Refill, pos, expected, records, ctx) else
          if negb (wal_rec_verify buf (n - pos) rec) || negb (w_seq rec =? expected)
          then (Finished true, pos, expected, records, ctx) else
          scan_block fuel capacity off blk n (pos + size) (u64 (expected + 1)) (u64 (records + 1))
            (cb ctx rec)
      end
  end.

(** The outer loop: end offset, next sequence, records, torn. *)
Fixpoint recover_loop (fuel : nat) (fd capacity scratch_len off expected records : Z) (ctx : C)
    : M K (result_t * (Z * Z * Z * bool) * C) :=
  match fuel with
  | O => mret (RESULT_OK, (off, expected, records, false), ctx)
  | S fuel =>
      if capacity <=? off then mret (RESULT_OK, (off, expected, records, false), ctx) else
      let want := if capacity - off <? scratch_len then i32 (capacity - off) else scratch_len in
      '(r, n, blk) ← os_pread_full fd want off;
      if negb (result_ok r) then mret (r, (off, expected, records, false), ctx) else
      if n <? WAL_REC_HEADER_SIZE
      then mret (RESULT_OK, (off, expected, records, false), ctx) else
      let '(e, pos, expected, records, ctx) :=
        scan_block (S (Z.to_nat n)) capacity off blk n 0 expected records ctx in
      match e with
      | TooBig size => mret (RESULT_ERR ERR_NOMEM size, (off, expected, records, false), ctx)
      | Finished torn => mret (RESULT_OK, (off + pos, expected, records, torn), ctx)
      | Refill =>
          if pos =? 0 then mret (RESULT_OK, (off + pos, expected, records, false), ctx)
          else recover_loop fuel fd capacity scratch_len (off + pos) expected records ctx
      end
  end.

(** The scratch buffer is its length here: what is read lands in it and is
    looked at before the next read. *)
Definition wal_seg_recover (s : wal_seg_t) (scratch_len : Z) (ctx : C)
    : M K (result_t * wal_seg_t * option wal_seg_scan_t * C) :=
  if scratch_len <? WAL_REC_HEADER_SIZE
  then mret (RESULT_ERR ERR_INVALID 0, s, None, ctx) else
  '(r, (off, expected, records, torn), ctx) ←
    recover_loop (S (Z.to_nat (g_capacity s))) (g_fd s) (g_capacity s) scratch_len 0
      (g_base_seq s) 0 ctx;
  if negb (result_ok r) then mret (r, s, None, ctx) else
  mret (RESULT_OK,
        s <| g_next_seq := expected |> <| g_durable_seq := u64 (expected - 1) |>
          <| g_write_off := off |> <| g_synced_off := off |>,
        Some (Scan records (u64 (expected - 1)) off torn), ctx).

End segment.


(** ** The reference scan *)

(** Why a scan stops: the log ends there, a record there is damaged or out
    of sequence, or a record of this size is there and cannot be read. *)
Inductive stop := Clean | Torn | Unreadable (size : Z).

#[export] Instance stop_dec : EqDecision stop.
Proof. solve_decision. Defined.

(** What stands at [off]: a record, or the end of the scan. *)
Definition look (capacity scratch_len : Z) (data : list byte) (off expected : Z)
    : wal_rec_t * Z + stop :=
  let avail := Z.min capacity (zlen data) in
  if avail <? off + WAL_REC_HEADER_SIZE then inr Clean else
  let m := drop (Z.to_nat off) data in
  let rec := rec_of m in
  let size := wal_rec_size (i32 (w_len rec)) in
  if wal_rec_is_end rec then inr Clean else
  if (size =? 0) || (capacity <? off + size) then inr Torn else
  if (scratch_len <? size) || (avail <? off + size) then inr (Unreadable size) else
  if negb (wal_rec_verify m size rec) || negb (w_seq rec =? expected) then inr Torn else
  inl (rec, size).

Fixpoint scan_fuel (fuel : nat) (capacity scratch_len : Z) (data : list byte) (off expected : Z)
    : list wal_rec_t * Z * stop :=
  match fuel with
  | O => ([], off, Clean)
  | S fuel =>
      match look capacity scratch_len data off expected with
      | inr s => ([], off, s)
      | inl (rec, size) =>
          let '(l, e, s) :=
            scan_fuel fuel capacity scratch_len data (off + size) (u64 (expected + 1)) in
          (rec :: l, e, s)
      end
  end.

(** The records of a file image from [off] on, where the scan ends and why. *)
Definition scan (capacity scratch_len : Z) (data : list byte) (off expected : Z) :=
  scan_fuel (S (length data)) capacity scratch_len data off expected.

Lemma look_record capacity slen data off expected rec size :
  look capacity slen data off expected = inl (rec, size) →
  rec = rec_of (drop (Z.to_nat off) data) ∧ w_seq rec = expected ∧ expected ≠ 0 ∧
  size = wal_rec_size (i32 (w_len rec)) ∧ 56 <= size ∧ size <= slen ∧
  off + size <= capacity ∧ off + size <= zlen data ∧
  wal_rec_verify (drop (Z.to_nat off) data) size rec = true.
Proof.
  unfold look. cbv zeta.
  repeat match goal with |- (if ?b then _ else _) = _ → _ => destruct b eqn:?; [done|] end.
  intros Heq. assert (rec = rec_of (drop (Z.to_nat off) data) ∧
    size = wal_rec_size (i32 (w_len (rec_of (drop (Z.to_nat off) data))))) as [-> ->]
    by (split; congruence).
  unfold wal_rec_is_end in *. zb.
  pose proof (rec_size_nonzero (i32 (w_len (rec_of (drop (Z.to_nat off) data))))
    ltac:(assumption)) as (_ & _ & ?).
  split_and!; try done; lia.
Qed.

(** The scan does not depend on its fuel, and unfolds. *)
Lemma scan_fuel_enough f1 f2 capacity slen data off expected :
  0 <= off → zlen data - off < Z.of_nat f1 → zlen data - off < Z.of_nat f2 →
  (0 < f1)%nat → (0 < f2)%nat →
  scan_fuel f1 capacity slen data off expected = scan_fuel f2 capacity slen data off expected.
Proof.
  revert f2 off expected. induction f1 as [|f1 IH]; intros [|f2] off expected H0 H1 H2 ? ?;
    [lia..|]. cbn. destruct (look capacity slen data off expected) as [[rec size]|] eqn:E; [|done].
  apply look_record in E as (_ & _ & _ & _ & ? & _ & _ & ? & _).
  by rewrite (IH f2) by lia.
Qed.

Lemma scan_unfold capacity slen data off expected :
  0 <= off →
  scan capacity slen data off expected =
    match look capacity slen data off expected with
    | inr s => ([], off, s)
    | inl (rec, size) =>
        let '(l, e, s) := scan capacity slen data (off + size) (u64 (expected + 1)) in
        (rec :: l, e, s)
    end.
Proof.
  intros. unfold scan at 1. cbn.
  destruct (look capacity slen data off expected) as [[rec size]|] eqn:E; [|done].
  apply look_record in E as (_ & _ & _ & _ & ? & _ & _ & ? & _).
  unfold scan. by rewrite (scan_fuel_enough (length data) (S (length data))) by lia.
Qed.

(** What the verifier says depends only on the record's own bytes. *)
Lemma verify_prefix b1 n1 b2 n2 r :
  0 <= w_len r < 2 ^ 32 →
  wal_rec_size (i32 (w_len r)) <= n1 <= zlen b1 → wal_rec_size (i32 (w_len r)) <= n2 <= zlen b2 →
  sub 0 (wal_rec_size (i32 (w_len r))) b1 = sub 0 (wal_rec_size (i32 (w_len r))) b2 →
  wal_rec_verify b1 n1 r = wal_rec_verify b2 n2 r.
Proof.
  intros Hl H1 H2 Heq. pose proof (align8_bounds (w_len r)).
  apply eq_true_iff_eq. rewrite !verify_true by lia.
  rewrite rec_size_cast in * by done. case_match; zb; [|intuition lia].
  assert (∀ b : list byte, sub 4 (52 + align8 (w_len r)) b = sub 4 (52 + align8 (w_len r))
    (sub 0 (56 + align8 (w_len r)) b)) as Hs.
  { intros b. by rewrite sub_sub by lia. }
  rewrite (Hs b1), (Hs b2), Heq. intuition lia.
Qed.

(** *** The walk of one block

    [blk] is what a read at [off] returned: [n] bytes, short only at the end
    of the segment, of the file or of the scratch buffer. *)
Section block.
Context {C : Type} (cb : C → wal_rec_t → C) (capacity slen : Z) (data : list byte).

Record block_ok (off n : Z) : Prop := {
  bk_off : 0 <= off; bk_n : 0 <= n; bk_cap : off + n <= capacity; bk_len : off + n <= zlen data;
  bk_scratch : n <= slen;
  bk_short : n = slen ∨ n = capacity - off ∨ n = zlen data - off }.

(** At a position in the block with a header in it, the block agrees with the
    scan, unless the record runs past the block. *)
Lemma look_in_block off n pos expected :
  block_ok off n → 0 <= pos → pos + 56 <= n →
  let buf := drop (Z.to_nat pos) (sub off n data) in
  let rec := rec_of buf in
  let size := wal_rec_size (i32 (w_len rec)) in
  look capacity slen data (off + pos) expected =
    if wal_rec_is_end rec then inr Clean else
    if (size =? 0) || (capacity <? off + pos + size) then inr Torn else
    if n <? pos + size then
      (if pos =? 0 then inr (Unreadable size) else look capacity slen data (off + pos) expected)
    else if negb (wal_rec_verify buf (n - pos) rec) || negb (w_seq rec =? expected)
    then inr Torn else inl (rec, size).
Proof.
  intros [Ho Hn Hc Hl Hs Hsh] Hp Hpn buf rec size.
  assert (zlen (sub off n data) = n) as Hzl by (len; lia).
  assert (buf = sub (off + pos) (n - pos) data) as Hbuf.
  { unfold buf. rewrite <-drop_sub, Hzl. unfold sub. list_ext i.
    rewrite !lookup_take, !lookup_drop, lookup_take, lookup_drop.
    repeat case_decide; try done; try lia; f_equal; lia. }
  assert (rec = rec_of (drop (Z.to_nat (off + pos)) data)) as Hrec.
  { unfold rec. rewrite Hbuf, <-rec_of_sub, sub_sub, Z.add_0_r by lia.
    by rewrite <-(rec_of_sub (drop _ data)). }
  unfold look. cbv zeta. unfold WAL_REC_HEADER_SIZE.
  rewrite (proj2 (Z.ltb_ge (Z.min capacity (zlen data)) (off + pos + 56))) by lia.
  rewrite <-Hrec. fold size. destruct (wal_rec_is_end rec); [done|].
  destruct ((size =? 0) || (capacity <? off + pos + size)) eqn:E1; [done|].
  destruct (Z.ltb_spec n (pos + size)).
  { destruct (Z.eqb_spec pos 0) as [->|]; [|done]. zb.
    assert ((slen <? size) || (Z.min capacity (zlen data) <? off + 0 + size) = true) as ->;
      [|done].
    apply orb_true_iff. rewrite !Z.ltb_lt. lia. }
  zb. rewrite (proj2 (Z.ltb_ge slen size)), (proj2 (Z.ltb_ge _ (off + pos + size))) by lia.
  cbn [orb]. rewrite (verify_prefix _ size buf (n - pos) rec); [done|rewrite Hrec; apply rec_of_ok|..];
    fold size.
  - rewrite length_drop. lia.
  - rewrite Hbuf, length_sub. lia.
  - rewrite Hbuf, sub_sub by lia. unfold sub. rewrite drop_0. do 2 f_equal. lia.
Qed.

(** The walk of a block is the scan, up to where the block runs out: there
    either no header is left in it or the record at hand starts past the
    front, so the next read makes progress. *)
Lemma scan_block_spec fuel off n pos expected records ctx e pos' expected' records' ctx' :
  block_ok off n → 0 <= pos <= n → n - pos < Z.of_nat fuel →
  0 <= expected < 2 ^ 64 → 0 <= records < 2 ^ 64 →
  scan_block cb fuel capacity off (sub off n data) n pos expected records ctx
    = (e, pos', expected', records', ctx') →
  ∃ l, pos <= pos' <= n ∧ ctx' = foldl cb ctx l ∧ records' = u64 (records + zlen l) ∧
    expected' = u64 (expected + zlen l) ∧
    scan capacity slen data (off + pos) expected =
      match e with
      | Refill => let '(l', x, s) := scan capacity slen data (off + pos') expected' in (l ++ l', x, s)
      | Finished t => (l, off + pos', if t then Torn else Clean)
      | TooBig size => (l, off + pos', Unreadable size)
      end ∧
    (e = Refill → pos' = 0 → n < 56).
Proof.
  intros Hbk. pose proof Hbk as [Ho Hn Hc Hl Hs Hsh]. assert (zlen (sub off n data) = n) as Hzl by (len; lia).
  revert pos expected records ctx.
  induction fuel as [|fuel IH]; intros pos expected records ctx Hp Hf He Hr; [lia|]. cbn [scan_block].
  assert (∀ e0, (∀ l x s, scan capacity slen data (off + pos) expected = (l, x, s) →
      (l, x, s) = match e0 with
      | Refill => (l, x, s)
      | Finished t => ([], off + pos, if t then Torn else Clean)
      | TooBig size => ([], off + pos, Unreadable size) end) →
    (e0 = Refill → pos = 0 → n < 56) →
    (e0, pos, expected, records, ctx) = (e, pos', expected', records', ctx') →
    ∃ l, pos <= pos' <= n ∧ ctx' = foldl cb ctx l ∧ records' = u64 (records + zlen l) ∧
      expected' = u64 (expected + zlen l) ∧
      scan capacity slen data (off + pos) expected =
        match e with
        | Refill => let '(l', x, s) := scan capacity slen data (off + pos') expected' in (l ++ l', x, s)
        | Finished t => (l, off + pos', if t then Torn else Clean)
        | TooBig size => (l, off + pos', Unreadable size)
        end ∧ (e = Refill → pos' = 0 → n < 56)) as Hstop.
  { intros e0 He0 Href [= <- <- <- <- <-]. exists []. cbn [length foldl].
    rewrite !Z.add_0_r, !u64_id by lia. split_and!; try done; try lia.
    destruct (scan capacity slen data (off + pos) expected) as [[l x] s] eqn:E.
    rewrite (He0 l x s eq_refl). by destruct e0. }
  unfold WAL_REC_HEADER_SIZE. destruct (Z.ltb_spec n (pos + 56)) as [Hend|Hhdr].
  { apply Hstop; [done|lia]. }
  rewrite decode_eq by lia.
  pose proof (look_in_block off n pos expected Hbk ltac:(lia) ltac:(lia)) as Hlook.
  cbv zeta in *. set (buf := drop (Z.to_nat pos) (sub off n data)) in *.
  set (rec := rec_of buf) in *. set (size := wal_rec_size (i32 (w_len rec))) in *.
  pose proof (scan_unfold capacity slen data (off + pos) expected ltac:(lia)) as Hun.
  destruct (wal_rec_is_end rec).
  { apply Hstop; [|done]. rewrite Hun, Hlook. congruence. }
  destruct ((size =? 0) || (capacity <? off + pos + size)) eqn:E1.
  { apply Hstop; [|done]. rewrite Hun, Hlook. congruence. }
  destruct (Z.ltb_spec n (pos + size)).
  { destruct (Z.eqb_spec pos 0) as [->|Hpos]; apply Hstop; try done.
    rewrite Hun, Hlook. congruence. }
  destruct (negb (wal_rec_verify buf (n - pos) rec) || negb (w_seq rec =? expected)).
  { apply Hstop; [|done]. rewrite Hun, Hlook. congruence. }
  clear Hstop. pose proof (look_record _ _ _ _ _ _ _ Hlook) as (_ & _ & _ & _ & ? & _).
  intros Hsb. apply IH in Hsb; [|lia|lia|apply u64_range|apply u64_range].
  destruct Hsb as (l & ? & -> & -> & -> & Hsc & Hz). exists (rec :: l). cbn [length foldl].
  rewrite !u64_add_l. rewrite Hun, Hlook. replace (off + pos + size) with (off + (pos + size)) by lia.
  rewrite Hsc, !u64_add_l. split_and!; try lia; try done; try (f_equal; lia).
  replace (expected + Z.of_nat (S (length l))) with (expected + 1 + zlen l) by lia.
  destruct e; try done.
  destruct (scan capacity slen data (off + pos') (u64 (expected + 1 + zlen l))) as [[l' x] s].
  reflexivity.
Qed.
End block.

(** *** The whole recovery *)

Section recover.
Context {K : Type} `{SysLaws K} {C : Type} (cb : C → wal_rec_t → C).

(** How the result of the recovery reads off the scan. *)
Definition recovered (cap slen : Z) (data : list byte) (off expected records : Z) (ctx : C)
    (x : result_t * (Z * Z * Z * bool) * C) : Prop :=
  let '(r, (off', expected', records', torn), ctx') := x in
  let '(l, e, s) := scan cap slen data off expected in
  match s with
  | Unreadable size => r = RESULT_ERR ERR_NOMEM size ∧ ctx' = foldl cb ctx l
  | _ => r = RESULT_OK ∧ off' = e ∧ expected' = u64 (expected + zlen l) ∧
         records' = u64 (records + zlen l) ∧ ctx' = foldl cb ctx l ∧
         torn = bool_decide (s = Torn)
  end.

Lemma scan_short cap slen data off expected :
  0 <= off → Z.min cap (zlen data) < off + 56 → scan cap slen data off expected = ([], off, Clean).
Proof.
  intros. rewrite scan_unfold by done. unfold look. cbv zeta. unfold WAL_REC_HEADER_SIZE.
  by rewrite (proj2 (Z.ltb_lt _ _)).
Qed.

Lemma recovered_short cap slen data off expected records ctx :
  0 <= off → Z.min cap (zlen data) < off + 56 →
  0 <= expected < 2 ^ 64 → 0 <= records < 2 ^ 64 →
  recovered cap slen data off expected records ctx
    (RESULT_OK, (off, expected, records, false), ctx).
Proof.
  intros. unfold recovered. rewrite scan_short by done. cbn [length].
  rewrite !Z.add_0_r, !u64_id by lia. done.
Qed.

(** Recovery from the point a block left off is recovery from its front. *)
Lemma recovered_next cap slen data off off' expected records ctx l x :
  (let '(l', e, s) := scan cap slen data off' (u64 (expected + zlen l)) in
   scan cap slen data off expected = (l ++ l', e, s)) →
  recovered cap slen data off' (u64 (expected + zlen l)) (u64 (records + zlen l)) (foldl cb ctx l) x →
  recovered cap slen data off expected records ctx x.
Proof.
  unfold recovered. destruct x as [[r [[[o ex] rs] t]] c].
  destruct (scan cap slen data off' _) as [[l' e] s]. intros ->.
  rewrite !u64_add_l, foldl_app, length_app.
  replace (expected + zlen l + zlen l') with (expected + Z.of_nat (length l + length l')) by lia.
  replace (records + zlen l + zlen l') with (records + Z.of_nat (length l + length l')) by lia.
  done.
Qed.

Lemma wp_recover_loop fuel fd cap slen data off expected records ctx (k : K) :
  56 <= slen < 2 ^ 31 → 0 <= off → cap - off < Z.of_nat fuel →
  0 <= expected < 2 ^ 64 → 0 <= records < 2 ^ 64 →
  fd_data (view k) fd = Some data →
  wp (recover_loop cb fuel fd cap slen off expected records ctx) (λ x k', view k' = view k ∧
    (r_code x.1.1 = ERR_SYSCALL ∨ recovered cap slen data off expected records ctx x)) k.
Proof.
  intros Hsl. revert off expected records ctx k.
  induction fuel as [|fuel IH]; intros off expected records ctx k Ho Hf He Hr Hd; cbn [recover_loop].
  { apply wp_ret. split; [done|right]. apply recovered_short; lia. }
  destruct (Z.leb_spec cap off).
  { apply wp_ret. split; [done|right]. apply recovered_short; lia. }
  cbv zeta. set (want := if cap - off <? slen then i32 (cap - off) else slen).
  assert (want = Z.min slen (cap - off)) as Hw.
  { unfold want. destruct (Z.ltb_spec (cap - off) slen); [rewrite i32_id by lia|]; lia. }
  clearbody want.
  call (wp_os_pread_full fd want off data) as [[r n] blk] k' [Hv Hx]; [lia|lia|done|].
  cbn [fst snd] in Hx. destruct (result_ok r) eqn:Hok; cbn [negb].
  2:{ apply wp_ret. split; [done|by left]. }
  destruct Hx as [-> ->]. pose proof (sub_clip off want data) as Hclip.
  set (n := zlen (sub off want data)) in *.
  assert (n = Z.max 0 (Z.min want (zlen data - off))) as Hn by (unfold n; len; lia).
  clearbody n. rewrite <-Hclip. unfold WAL_REC_HEADER_SIZE.
  destruct (Z.ltb_spec n 56).
  { apply wp_ret. split; [done|right]. apply recovered_short; lia. }
  assert (block_ok cap slen data off n) as Hbk by (constructor; lia).
  destruct (scan_block cb (S (Z.to_nat n)) cap off (sub off n data) n 0 expected records ctx)
    as [[[[e pos] ex] rs] c] eqn:Hsb.
  apply (scan_block_spec cb cap slen data _ off n) in Hsb; [|done|lia|lia|done|done].
  destruct Hsb as (l & Hpos & -> & -> & -> & Hsc & Hz). rewrite Z.add_0_r in Hsc.
  destruct e as [|torn|size].
  - specialize (Hz eq_refl). destruct (Z.eqb_spec pos 0) as [->|Hp0]; [lia|].
    eapply wp_mono; [apply IH; try apply u64_range; [lia|lia|by rewrite Hv]|].
    cbn. intros x k'' [Hv' Hx]. split; [congruence|]. destruct Hx as [|Hx]; [by left|right].
    eapply recovered_next; [|exact Hx]. rewrite Hsc.
    by destruct (scan cap slen data (off + pos) _) as [[l' x'] s].
  - apply wp_ret. split; [done|right]. unfold recovered. rewrite Hsc.
    by destruct torn.
  - apply wp_ret. split; [done|right]. unfold recovered. rewrite Hsc. done.
Qed.

(** What a finished recovery reports, given the scan of the file. *)
Definition recovers_to (s : wal_seg_t) (ctx : C) (found : list wal_rec_t * Z * stop)
    (x : result_t * wal_seg_t * option wal_seg_scan_t * C) : Prop :=
  let '(r, s', out, ctx') := x in
  let '(l, e, why) := found in
  match why with
  | Unreadable size => r = RESULT_ERR ERR_NOMEM size ∧ s' = s
  | _ =>
      let next := u64 (g_base_seq s + zlen l) in
      r = RESULT_OK ∧ ctx' = foldl cb ctx l ∧
      s' = Seg (g_fd s) (g_dir_fd s) (g_base_seq s) next (u64 (next - 1)) (g_capacity s) e e ∧
      out = Some (Scan (u64 (zlen l)) (u64 (next - 1)) e (bool_decide (why = Torn)))
  end.

(** The blockwise recovery computes the scan of the file, whatever the size
    of the scratch buffer and however the kernel cuts the reads. *)
Lemma wp_recover s slen data ctx (k : K) :
  56 <= slen < 2 ^ 31 → 0 <= g_base_seq s < 2 ^ 64 → fd_data (view k) (g_fd s) = Some data →
  wp (wal_seg_recover cb s slen ctx) (λ x k', view k' = view k ∧
    (r_code x.1.1.1 = ERR_SYSCALL ∧ x.1.1.2 = s ∨
     recovers_to s ctx (scan (g_capacity s) slen data 0 (g_base_seq s)) x)) k.
Proof.
  intros Hsl Hb Hd. unfold wal_seg_recover, WAL_REC_HEADER_SIZE.
  rewrite (proj2 (Z.ltb_ge _ _)) by lia.
  call wp_recover_loop as [[r [[[off ex] rs] torn]] c] k' [Hv Hx]; [lia|lia|lia|lia|lia|done|].
  cbn [fst snd] in Hx. unfold recovered, recovers_to in *.
  destruct (scan (g_capacity s) slen data 0 (g_base_seq s)) as [[l e] why].
  destruct Hx as [Hx|Hx].
  { destruct (result_ok r) eqn:Hok; cbn [negb].
    - apply Z.eqb_eq in Hok. rewrite Hx in Hok. done.
    - apply wp_ret. split; [done|]. by left. }
  destruct why as [| |size].
  3:{ destruct Hx as [-> ->]. cbn. apply wp_ret. split; [done|by right]. }
  all: destruct Hx as (-> & -> & -> & -> & -> & ->); cbn; apply wp_ret; split; [done|right].
  all: rewrite Z.add_0_l; by destruct s.
Qed.
End recover.

(** ** What a segment holds *)

Abbreviation entry := (wal_rec_t * list byte)%type.

(** The bytes of records laid down one after another. *)
Definition log_bytes (es : list entry) : list byte :=
  concat ((λ e, image e.1 e.2) <$> es).

(** Records as a segment starting at [base] has them: stored whole, and
    numbered without gaps. *)
Fixpoint chained (base : Z) (es : list entry) : Prop :=
  match es with
  | [] => True
  | (r, p) :: es => w_seq r = base ∧ stored r p ∧ chained (base + 1) es
  end.

Lemma log_bytes_app a b : log_bytes (a ++ b) = log_bytes a ++ log_bytes b.
Proof. unfold log_bytes. by rewrite fmap_app, concat_app. Qed.

Lemma log_bytes_one r p : log_bytes [(r, p)] = image r p.
Proof. unfold log_bytes. cbn. apply app_nil_r. Qed.

Lemma length_log_bytes_cons r p es :
  zlen (log_bytes ((r, p) :: es)) = zlen (image r p) + zlen (log_bytes es).
Proof. change ((r, p) :: es) with ([(r, p)] ++ es). rewrite log_bytes_app, log_bytes_one, length_app. lia. Qed.

Lemma log_bytes_nonempty es : zlen (log_bytes es) = 0 → es = [].
Proof.
  destruct es as [|[r p] es]; [done|]. rewrite length_log_bytes_cons, length_image.
  pose proof (align8_bounds (zlen p)). lia.
Qed.

Lemma chained_app base a b : chained base (a ++ b) ↔ chained base a ∧ chained (base + zlen a) b.
Proof.
  revert base. induction a as [|[r p] a IH]; intros base; cbn [app chained length].
  { rewrite Z.add_0_r. tauto. }
  rewrite IH. replace (base + 1 + zlen a) with (base + Z.of_nat (S (length a))) by lia. tauto.
Qed.

(** A record standing in the file is what the scan sees there. *)
Lemma look_image cap slen data off r p :
  0 <= off → stored r p → w_seq r ≠ 0 → WAL_REC_MAX_SIZE <= slen →
  sub off (zlen (image r p)) data = image r p → off + zlen (image r p) <= cap →
  look cap slen data off (w_seq r) = inl (r, zlen (image r p)).
Proof.
  intros Ho Hst Hs Hsl Hsub Hcap. pose proof (image_size r p Hst) as Hsz.
  pose proof (length_image r p) as Hli. pose proof (align8_bounds (zlen p)).
  assert (drop (Z.to_nat off) data = image r p ++ drop (length (image r p)) (drop (Z.to_nat off) data))
    as Hd.
  { rewrite <-Hsub at 1. unfold sub. by rewrite Nat2Z.id, take_drop. }
  assert (off + zlen (image r p) <= zlen data) as Hlen.
  { apply (f_equal length) in Hsub. rewrite length_sub in Hsub. lia. }
  unfold look. cbv zeta. unfold WAL_REC_HEADER_SIZE. rewrite (proj2 (Z.ltb_ge _ _)) by lia.
  rewrite Hd. rewrite rec_of_image by apply Hst. unfold wal_rec_is_end.
  rewrite (proj2 (Z.eqb_neq _ _)) by done. rewrite Hsz.
  assert (zlen (image r p) <= WAL_REC_MAX_SIZE).
  { rewrite <-Hsz. apply rec_size_nonzero. lia. }
  rewrite (proj2 (Z.eqb_neq _ _)), !(proj2 (Z.ltb_ge _ _)) by lia. cbn [orb].
  rewrite verify_image by (done || lia). by rewrite Z.eqb_refl.
Qed.

(** A run of records in the file is a run of the scan. *)
Lemma scan_log cap slen data es off base :
  0 <= off → chained base es → 0 < base → base + zlen es < 2 ^ 64 → WAL_REC_MAX_SIZE <= slen →
  sub off (zlen (log_bytes es)) data = log_bytes es → off + zlen (log_bytes es) <= cap →
  scan cap slen data off base =
    let '(l, e, s) := scan cap slen data (off + zlen (log_bytes es)) (base + zlen es) in
    (es.*1 ++ l, e, s).
Proof.
  revert off base. induction es as [|[r p] es IH]; intros off base Ho Hch Hb Hmax Hsl Hsub Hcap.
  { cbn [length log_bytes fmap list_fmap concat]. rewrite !Z.add_0_r.
    by destruct (scan cap slen data off base) as [[??]?]. }
  destruct Hch as (Hs & Hst & Hch). rewrite length_log_bytes_cons in *.
  change (log_bytes ((r, p) :: es)) with (image r p ++ log_bytes es) in Hsub.
  pose proof (length_image r p). pose proof (align8_bounds (zlen p)).
  rewrite sub_split in Hsub by lia. apply app_inj_1 in Hsub as [Hs1 Hs2].
  2:{ apply (f_equal length) in Hsub. rewrite !length_app in Hsub. rewrite !length_sub in *. lia. }
  rewrite scan_unfold by done. rewrite <-Hs at 1. rewrite (look_image _ _ _ _ r p) by (done || lia).
  cbn [length] in Hmax. rewrite u64_id by lia. rewrite (IH _ (base + 1)) by (done || lia).
  replace (off + zlen (image r p) + zlen (log_bytes es))
    with (off + (zlen (image r p) + zlen (log_bytes es))) by lia.
  cbn [length]. replace (base + 1 + zlen es) with (base + Z.of_nat (S (length es))) by lia.
  by destruct (scan cap slen data _ (base + Z.of_nat (S (length es)))) as [[l e] s].
Qed.

(** Unwritten space ends the scan cleanly. *)
Lemma scan_zeros cap slen data off base n :
  0 <= off → sub off 56 data = zeros n → scan cap slen data off base = ([], off, Clean).
Proof.
  intros Ho Hz. rewrite scan_unfold by done. unfold look. cbv zeta.
  destruct (Z.min cap (zlen data) <? off + WAL_REC_HEADER_SIZE) eqn:E; [done|]. zb.
  unfold WAL_REC_HEADER_SIZE in E.
  assert (wal_rec_is_end (rec_of (drop (Z.to_nat off) data)) = true) as ->; [|done].
  assert (rec_of (drop (Z.to_nat off) data) = rec_of (zeros 56)) as ->; [|by vm_compute].
  rewrite <-(rec_of_sub (drop _ data)). f_equal.
  change (sub 0 56 (drop (Z.to_nat off) data)) with (sub off 56 data). rewrite Hz. f_equal.
  apply (f_equal length) in Hz. rewrite length_zeros, length_sub in Hz. lia.
Qed.

(** A segment with durable records [a] and buffered records [b]. *)
Record seg_file (s : wal_seg_t) (i : inode) (a b : list entry) : Prop := {
  sf_len : g_capacity s <= zlen (i_data i);
  sf_data : sub 0 (g_write_off s) (i_data i) = log_bytes (a ++ b);
  sf_write : g_write_off s = zlen (log_bytes (a ++ b));
  sf_synced : g_synced_off s = zlen (log_bytes a);
  sf_stable : ∀ j : nat, Z.of_nat j < g_synced_off s → i_stable i !! j = (Some <$> i_data i) !! j;
  sf_room : g_write_off s <= g_capacity s < 2 ^ 62;
  sf_chain : chained (g_base_seq s) (a ++ b);
  sf_base : 0 < g_base_seq s ∧ g_base_seq s + zlen (a ++ b) < 2 ^ 64;
  sf_next : g_next_seq s = g_base_seq s + zlen (a ++ b);
  sf_durable : g_durable_seq s = g_base_seq s + zlen a - 1 }.

Definition holds (v : fsys) (s : wal_seg_t) (a b : list entry) : Prop :=
  ∃ ino i, fd_file v (g_fd s) = Some (ino, i) ∧ seg_file s i a b.

Lemma kept_front (bs img : list byte) :
  (∀ j x, bs !! j = Some x → img !! j = Some x) → sub 0 (zlen bs) img = bs.
Proof.
  intros Himg. list_ext j. rewrite lookup_sub. change (Z.to_nat 0 + j)%nat with j. case_decide as Hj.
  - destruct (lookup_lt_is_Some_2 bs j ltac:(lia)) as [x Hx]. rewrite Hx. by apply Himg.
  - symmetry. apply lookup_ge_None. lia.
Qed.

(** Records that are still there are found. *)
Lemma scan_kept cap slen img base es l e why :
  (∀ j x, log_bytes es !! j = Some x → img !! j = Some x) → zlen (log_bytes es) <= cap →
  chained base es → 0 < base → base + zlen es < 2 ^ 64 → WAL_REC_MAX_SIZE <= slen →
  scan cap slen img 0 base = (l, e, why) → ∃ l', l = es.*1 ++ l'.
Proof.
  intros Himg Hcap Hch Hb Hmax Hsl Hscan.
  pose proof (kept_front _ _ Himg).
  rewrite (scan_log _ _ _ es) in Hscan by (done || lia).
  destruct (scan _ _ _ (0 + _) _) as [[l' ?] ?]. simplify_eq. by exists l'.
Qed.

Lemma seg_file_stable s i a b :
  seg_file s i a b → zlen (log_bytes a) <= g_capacity s ∧
    ∀ j x, log_bytes a !! j = Some x → i_stable i !! j = Some (Some x).
Proof.
  intros [Hl Hd Hw Hs Hst Hr _ _ _ _]. rewrite log_bytes_app in Hd, Hw. rewrite length_app in Hw.
  split; [lia|]. intros j x Hx. pose proof (lookup_lt_Some _ _ _ Hx).
  rewrite Hst, list_lookup_fmap by lia.
  assert (i_data i !! j = Some x) as ->; [|done].
  transitivity (sub 0 (g_write_off s) (i_data i) !! j).
  - rewrite lookup_sub. change (Z.to_nat 0 + j)%nat with j. by rewrite decide_True by lia.
  - by rewrite Hd, lookup_app_l by lia.
Qed.

(** The records a reopened segment must find, from what a crash left. *)
Lemma crash_keeps s i a b img slen l e why :
  seg_file s i a b → crash_image i img → WAL_REC_MAX_SIZE <= slen →
  scan (g_capacity s) slen img 0 (g_base_seq s) = (l, e, why) →
  ∃ l', l = a.*1 ++ l'.
Proof.
  intros Hf Hc Hsl Hscan. destruct (seg_file_stable _ _ _ _ Hf) as [Hcap Hst].
  pose proof (sf_chain _ _ _ _ Hf) as [Hch _]%chained_app. pose proof (sf_base _ _ _ _ Hf) as [Hb Hmax].
  rewrite length_app in Hmax.
  eapply (scan_kept _ _ _ _ a); [|exact Hcap|done|done|lia|done|exact Hscan].
  intros j x Hx. by apply Hc, Hst.
Qed.

(** ** Appending and flushing *)

(** Writing at or behind the append point leaves what is held alone. *)
Lemma seg_file_outside s i i' a b n :
  seg_file s i a b → same_outside i i' (g_write_off s) n → seg_file s i' a b.
Proof.
  intros [Hl Hd Hw Hs Hst Hr Hc Hb Hn Hdu] [[Hlen _] Hout]. constructor; try done.
  - by rewrite Hlen.
  - rewrite <-Hd. list_ext j. rewrite !lookup_sub. case_decide; [|done]. apply Hout. lia.
  - intros j Hj. rewrite log_bytes_app, length_app in Hw.
    destruct (Hout j ltac:(lia)) as [H1 H2]. rewrite H2, Hst by done.
    rewrite !list_lookup_fmap. by rewrite H1.
Qed.

(** The segment after a record went in behind the rest. *)
Lemma seg_file_append s i a b r p :
  seg_file s i a b → stored r p → w_seq r = g_next_seq s → g_next_seq s + 1 < 2 ^ 64 →
  sub (g_write_off s) (zlen (image r p)) (i_data i) = image r p →
  g_write_off s + zlen (image r p) <= g_capacity s →
  seg_file (s <| g_write_off := g_write_off s + zlen (image r p) |>
              <| g_next_seq := u64 (g_next_seq s + 1) |>) i a (b ++ [(r, p)]).
Proof.
  intros [Hl Hd Hw Hs Hst Hr Hc Hb Hn Hdu] Hsto Hseq Hmax Hsub Hcap.
  assert (zlen (log_bytes (a ++ b ++ [(r, p)])) = g_write_off s + zlen (image r p)) as Hlen.
  { rewrite app_assoc, log_bytes_app, log_bytes_one, length_app. lia. }
  assert (zlen (a ++ b ++ [(r, p)]) = zlen (a ++ b) + 1) as Hcount.
  { rewrite !length_app. cbn. lia. }
  constructor; cbn; try done; try lia.
  - rewrite app_assoc, log_bytes_app, log_bytes_one, sub_split by lia.
    rewrite Hd. by rewrite Z.add_0_l, Hsub.
  - rewrite app_assoc. apply chained_app. split; [done|]. cbn.
    split_and!; [lia|done|done].
  - rewrite u64_id; lia.
Qed.

(** An encoder without room for the record writes nothing. *)
Lemma encode_no_room buf r payload :
  0 <= w_len r < 2 ^ 32 → zlen buf < 56 + align8 (w_len r) ∨ WAL_MAX_PAYLOAD < w_len r →
  wal_rec_encode buf (zlen buf) r payload = (0, buf, r).
Proof.
  intros Hl Hb. unfold wal_rec_encode. rewrite rec_size_cast by done. cbv zeta.
  destruct (_ && _); [done|].
  destruct (Z.leb_spec (w_len r) WAL_MAX_PAYLOAD); [|done].
  destruct Hb; [|lia]. rewrite (proj2 (Z.ltb_lt _ _)) by done. by rewrite orb_true_r.
Qed.

Section ops.
Context {K : Type} `{SysLaws K}.

(** What an append promises: the record is in, with the next sequence, or
    nothing is; other files are not touched either way. *)
Lemma wp_append s r payload scratch a b ino i (k : K) :
  let p := default [] payload in
  fd_file (view k) (g_fd s) = Some (ino, i) → seg_file s i a b →
  rec_ok r → w_len r = zlen p → zlen p <= WAL_MAX_PAYLOAD → g_next_seq s + 1 < 2 ^ 64 →
  wp (wal_seg_append s r payload scratch) (λ x k', ∃ i',
    let '(res, s', r', scratch') := x in
    view k' = set_inode ino i' (view k) ∧ zlen scratch' = zlen scratch ∧ w_seq r' = g_next_seq s ∧
    if result_ok res then
      r' = sealed (r <| w_seq := g_next_seq s |>) p ∧ stored r' p ∧
      seg_file s' i' a (b ++ [(r', p)]) ∧ same_outside i i' (g_write_off s) (zlen (image r' p)) ∧
      s' = s <| g_write_off := g_write_off s + zlen (image r' p) |>
             <| g_next_seq := u64 (g_next_seq s + 1) |>
    else s' = s ∧ seg_file s i' a b) k.
Proof.
  intros p Hfd Hsf Hok Hlen Hmax Hnext. unfold wal_seg_append.
  set (r1 := r <| w_seq := g_next_seq s |>).
  pose proof (sf_base _ _ _ _ Hsf) as [Hb1 Hb2]. pose proof (sf_next _ _ _ _ Hsf) as Hn.
  pose proof (sf_room _ _ _ _ Hsf) as Hr. pose proof (sf_len _ _ _ _ Hsf) as Hl.
  pose proof (sf_write _ _ _ _ Hsf) as Hw.
  assert (rec_ok r1) as Hok1 by (unfold rec_ok in *; cbn; intuition lia).
  assert (w_len r1 = zlen p) as Hl1 by done. pose proof (align8_bounds (zlen p)) as Ha.
  assert (view k = set_inode ino i (view k)) as Hsame by (symmetry; by eapply set_inode_same).
  destruct (Z.lt_ge_cases (zlen scratch) (56 + align8 (w_len r1))) as [Hsm|Hroom].
  { rewrite encode_no_room by (rewrite ?Hl1 in *; unfold WAL_MAX_PAYLOAD, MSG_MAX_PAYLOAD in *; lia).
    cbn. apply wp_ret. exists i. done. }
  rewrite encode_spec by done. cbv beta iota zeta. fold p. rewrite Hl1 in *.
  pose proof (sealed_stored r1 p Hok1 Hl1 Hmax) as Hst.
  pose proof (length_image (sealed r1 p) p) as Hli. rewrite <-Hli in *.
  rewrite (proj2 (Z.eqb_neq (zlen (image _ _)) 0)) by lia.
  set (scratch' := image (sealed r1 p) p ++ _).
  assert (zlen scratch' = zlen scratch) as Hls.
  { unfold scratch'. rewrite length_app, length_drop. lia. }
  destruct (Z.ltb_spec (g_capacity s) (g_write_off s + zlen (image (sealed r1 p) p))).
  { apply wp_ret. exists i. done. }
  unfold WAL_MAX_PAYLOAD, MSG_MAX_PAYLOAD in Hmax.
  call (wp_os_pwrite_full (g_fd s) scratch' _ (g_write_off s) ino i) as res k' (i' & Hv & Hso & Hput);
    [lia|lia|lia|done|lia|].
  pose proof (seg_file_outside _ _ _ _ _ _ Hsf Hso) as Hsf'.
  destruct (result_ok res) eqn:Hres; cbn [negb]; apply wp_ret; exists i'; cbn.
  2:{ by rewrite Hres. }
  specialize (Hput eq_refl). split_and!; try done.
  apply seg_file_append; try done.
  rewrite Hput. unfold scratch'. by rewrite sub_app_l.
Qed.

(** A flush that succeeds makes everything appended durable. *)
Lemma wp_sync s a b ino i (k : K) :
  fd_file (view k) (g_fd s) = Some (ino, i) → seg_file s i a b →
  wp (wal_seg_sync s) (λ x k', ∃ i', view k' = set_inode ino i' (view k) ∧
    (i' = i ∨ i' = Inode (i_data i) (Some <$> i_data i)) ∧
    if result_ok x.1 then seg_file x.2 i' (a ++ b) [] ∧
      x.2 = s <| g_synced_off := g_write_off s |> <| g_durable_seq := g_next_seq s - 1 |>
    else x.2 = s ∧ seg_file s i' a b) k.
Proof.
  intros Hfd Hsf. pose proof Hsf as [Hl Hd Hw Hs Hst Hr Hc Hb Hn Hdu]. unfold wal_seg_sync.
  assert (view k = set_inode ino i (view k)) as Hsame by (symmetry; by eapply set_inode_same).
  destruct (Z.eqb_spec (g_synced_off s) (g_write_off s)) as [He|Hne].
  { assert (b = []) as ->.
    { apply log_bytes_nonempty. rewrite log_bytes_app, length_app in Hw. lia. }
    rewrite app_nil_r in *. apply wp_ret. exists i. cbn.
    assert (s = s <| g_synced_off := g_write_off s |> <| g_durable_seq := g_next_seq s - 1 |>)
      as Heq.
    { destruct s. unfold upd. cbn in *. f_equal; lia. }
    split_and!; [done|by left|done|by rewrite <-Heq]. }
  call wp_os_fdatasync as r k' Hsync. destruct (result_ok r) eqn:Hok; cbn [negb]; apply wp_ret.
  2:{ exists i. cbn. rewrite Hok, Hsync. split_and!; by try left. }
  apply fd_file_lookup in Hfd as [Hf Hi].
  destruct Hsync as [[Hx _]|[_ Hx]]; [done|]. rewrite Hf in Hx. destruct Hx as (i0 & Hi0 & Hv).
  rewrite Hi in Hi0. simplify_eq. eexists. split; [exact Hv|]. split; [by right|]. cbn.
  rewrite u64_id by lia. split; [|done].
  constructor; cbn; rewrite ?app_nil_r; try done; try lia.
Qed.

(** A creation that fails may leave a file of any content under the name. *)
Definition left_over (name : list byte) (v v' : fsys) : Prop :=
  v' = v ∨ ∃ ino i, f_names v !! name = None ∧ f_inodes v !! ino = None ∧
    v' = set_inode ino i (v <| f_names ::= insert name ino |>).

(** A created segment is empty, allocated and named, and none of that can be
    lost in a crash. *)
Lemma wp_create s dir_fd base cap todo (k : K) :
  f_fds (view k) !! dir_fd = Some (FDir todo) → 0 < base < 2 ^ 64 → cap < 2 ^ 62 →
  wp (wal_seg_create s dir_fd base cap) (λ x k',
    if result_ok x.1 then
      ∃ fd ino, x.2 = seg_reset fd dir_fd base cap ∧ fresh_fd (view k) fd ∧
        f_inodes (view k) !! ino = None ∧ f_names (view k) !! cstr (wal_seg_name base) = None ∧
        fd_file (view k') fd = Some (ino, Inode (zeros cap) (Some <$> zeros cap)) ∧
        f_kept (view k') !! cstr (wal_seg_name base) = Some ino ∧
        f_names (view k') = <[cstr (wal_seg_name base) := ino]> (f_names (view k)) ∧
        f_fds (view k') = <[fd := FFile ino]> (f_fds (view k)) ∧
        (∀ ino', ino' ≠ ino → f_inodes (view k') !! ino' = f_inodes (view k) !! ino') ∧
        seg_file x.2 (Inode (zeros cap) (Some <$> zeros cap)) [] [] ∧
        f_disk (view k') = Disk (f_names (view k')) []
    else x.2 = s ∧ left_over (cstr (wal_seg_name base)) (view k) (view k')) k.
Proof.
  intros Hdir Hbase Hcap. unfold wal_seg_create, WAL_REC_HEADER_SIZE.
  rewrite (proj2 (Z.eqb_neq base 0)) by lia. cbn [orb].
  destruct (Z.ltb_spec cap 56); [apply wp_ret; cbn; by split; [|left]|].
  call wp_os_openat as [r fd] k1 Ho. cbn [fst snd] in Ho.
  destruct (result_ok r) eqn:Hr; cbn [negb]; [|apply wp_ret; cbn; rewrite Hr; by split; [|left]].
  destruct Ho as [[[Hfail _]|[_ Ho]] Hfresh].
  { apply failed_neg in Hfail. destruct Hfresh. lia. }
  cbn -[cstr wal_seg_name] in Ho. destruct Ho as (Hname & ino & Hino & Hv1).
  set (made i := set_fd fd (FFile ino)
    (set_inode ino i ((view k) <| f_names ::= insert (cstr (wal_seg_name base)) ino |>))).
  assert (∀ i, f_fds (made i) !! fd = Some (FFile ino) ∧ fd_file (made i) fd = Some (ino, i)) as Hmade.
  { intros i. assert (f_fds (made i) !! fd = Some (FFile ino)) by apply lookup_insert_eq.
    split; [done|]. apply fd_file_lookup. split; [done|]. apply lookup_insert_eq. }
  assert (∀ r' i k', result_ok r' = false → view k' = made i →
    wp (_ ← os_close fd; mret (r', s)) (λ x k', result_ok x.1 = false ∧ x.2 = s ∧
      left_over (cstr (wal_seg_name base)) (view k) (view k')) k') as Hfail.
  { intros r' i k' Hr' Hv. call wp_os_close as r2 k2 Hv2. apply wp_ret. split_and!; [done|done|].
    right. exists ino, i. split_and!; [done|done|]. unfold close_spec in Hv2. rewrite Hv2, Hv.
    unfold made, del_fd, set_fd. destruct (view k). destruct Hfresh as [_ Hf]. cbn in *. unfold upd. cbn.
    f_equal. by rewrite delete_insert_id. }
  assert (∀ (P : result_t * wal_seg_t → K → Prop) m k', wp m (λ x k', result_ok x.1 = false ∧ x.2 = s ∧
      left_over (cstr (wal_seg_name base)) (view k) (view k')) k' →
    wp m (λ x k', if result_ok x.1 then P x k' else x.2 = s ∧
      left_over (cstr (wal_seg_name base)) (view k) (view k')) k') as Hweak.
  { intros P m k' Hm. eapply wp_mono; [exact Hm|]. intros [r' s'] k2 (E & ? & ?). cbn [fst snd] in *.
    by rewrite E. }
  call (wp_os_fallocate fd cap ino (Inode [] [])) as r2 k2 (i2 & Hv2 & Hd2);
    [lia|rewrite Hv1; apply Hmade|].
  assert (view k2 = made i2) as E2.
  { rewrite Hv2, Hv1. unfold made, set_fd, set_inode. destruct (view k). unfold upd. cbn. f_equal.
    by rewrite insert_insert_eq. }
  destruct (result_ok r2) eqn:Hr2; cbn [negb]; [|apply Hweak; by eapply Hfail].
  specialize (Hd2 eq_refl). cbn in Hd2. rewrite Z.sub_0_r in Hd2.
  call wp_os_fsync as r3 k3 H3. destruct (result_ok r3) eqn:Hr3; cbn [negb].
  2:{ apply Hweak. eapply Hfail; [done|]. by rewrite H3. }
  destruct H3 as [[H3 _]|[_ H3]]; [done|]. rewrite E2, (proj1 (Hmade i2)) in H3.
  destruct H3 as (i3 & Hi3 & Hv3). cbn in Hi3. rewrite lookup_insert_eq in Hi3.
  assert (i3 = i2) as -> by congruence. rewrite Hd2 in Hv3.
  assert (view k3 = made (Inode (zeros cap) (Some <$> zeros cap))) as E3.
  { rewrite Hv3. unfold made, set_fd, set_inode. destruct (view k). unfold upd. cbn. f_equal.
    by rewrite insert_insert_eq. }
  call wp_os_fsync as r4 k4 H4. destruct (result_ok r4) eqn:Hr4; cbn [negb].
  2:{ apply Hweak. eapply Hfail; [done|]. by rewrite H4. }
  destruct H4 as [[H4 _]|[_ H4]]; [done|].
  assert (fd ≠ dir_fd) as Hne by (intros ->; destruct Hfresh; congruence).
  assert (f_fds (view k3) !! dir_fd = Some (FDir todo)) as Hd3.
  { rewrite E3. cbn. by rewrite lookup_insert_ne. }
  rewrite Hd3 in H4. apply wp_ret. cbn -[cstr wal_seg_name].
  exists fd, ino. rewrite H4, E3. unfold fd_file, made. cbn -[cstr wal_seg_name]. rewrite !lookup_insert_eq.
  split_and!; try done.
  - intros ino' Hi'. by rewrite !lookup_insert_ne by done.
  - constructor; cbn; try done; try lia.
    + rewrite length_zeros. lia.
    + rewrite u64_id; lia.
Qed.

(** Opening an existing segment leaves the files as they are. *)
Lemma wp_open s dir_fd base cap (k : K) :
  wp (wal_seg_open s dir_fd base cap) (λ x k',
    if result_ok x.1 then
      ∃ fd ino i, x.2 = seg_reset fd dir_fd base cap ∧ base ≠ 0 ∧ fresh_fd (view k) fd ∧
        f_names (view k) !! cstr (wal_seg_name base) = Some ino ∧
        f_inodes (view k) !! ino = Some i ∧ view k' = set_fd fd (FFile ino) (view k)
    else x.2 = s ∧ view k' = view k ∧
      (base ≠ 0 → WAL_REC_HEADER_SIZE <= cap → r_code x.1 = ERR_SYSCALL)) k.
Proof.
  unfold wal_seg_open. destruct (Z.eqb_spec base 0); [by apply wp_ret|]. cbn [orb].
  destruct (Z.ltb_spec cap WAL_REC_HEADER_SIZE); [apply wp_ret; cbn; split_and!; try done; lia|].
  call wp_os_openat_code as [r fd] k1 Ho. cbn [fst snd] in Ho.
  destruct (result_ok r) eqn:Hr; cbn [negb]; apply wp_ret; cbn; [|by destruct Ho; rewrite Hr].
  destruct Ho as [[[Hfail _]|[_ Ho]] Hfresh].
  { apply failed_neg in Hfail. destruct Hfresh. lia. }
  cbn in Ho. destruct Ho as (ino & i & ? & ? & ?). exists fd, ino, i. done.
Qed.
End ops.

(** ** A segment in use *)

Inductive seg_op :=
| Append (r : wal_rec_t) (payload : list byte)
| Sync.

Section use.
Context {K : Type} `{Sys K}.

(** Any mix of appends and flushes, failures of either kind included. *)
Fixpoint use_segment (ops : list seg_op) (s : wal_seg_t) (scratch : list byte) : M K wal_seg_t :=
  match ops with
  | [] => mret s
  | Append r p :: ops =>
      '(_, s, _, scratch) ← wal_seg_append s r (Some p) scratch;
      use_segment ops s scratch
  | Sync :: ops =>
      '(_, s) ← wal_seg_sync s;
      use_segment ops s scratch
  end.
End use.

Definition op_ok (o : seg_op) : Prop :=
  match o with
  | Append r p => rec_ok r ∧ w_len r = zlen p ∧ zlen p <= WAL_MAX_PAYLOAD
  | Sync => True
  end.

(** The file's content is the records appended, and whatever a crash makes of
    the file, a scan of it begins with every record counted as durable. *)
Definition survives (v : fsys) (s : wal_seg_t) (before : list entry) : Prop :=
  ∃ i ino a b, fd_file v (g_fd s) = Some (ino, i) ∧ seg_file s i a b ∧ before `prefix_of` a ∧
    g_durable_seq s = g_base_seq s + zlen a - 1 ∧
    ∀ img slen, crash_image i img → WAL_REC_MAX_SIZE <= slen →
      a.*1 `prefix_of` (scan (g_capacity s) slen img 0 (g_base_seq s)).1.1.

Lemma seg_file_survives v s i ino a b :
  fd_file v (g_fd s) = Some (ino, i) → seg_file s i a b → survives v s a.
Proof.
  intros Hf Hs. exists i, ino, a, b. split_and!; try done; [apply Hs|].
  intros img slen Hc Hsl. destruct (scan _ _ img _ _) as [[l e] why] eqn:E.
  destruct (crash_keeps _ _ _ _ _ _ _ _ _ Hs Hc Hsl E) as [l' ->]. by exists l'.
Qed.

Lemma use_segment_holds {K} `{SysLaws K} ops s scratch a b ino i (k : K) :
  fd_file (view k) (g_fd s) = Some (ino, i) → seg_file s i a b → Forall op_ok ops →
  g_next_seq s + zlen ops < 2 ^ 64 →
  wp (use_segment ops s scratch) (λ s' k', ∃ i' a' b',
    fd_file (view k') (g_fd s') = Some (ino, i') ∧ seg_file s' i' a' b' ∧
    a `prefix_of` a' ∧ g_base_seq s' = g_base_seq s ∧ g_capacity s' = g_capacity s) k.
Proof.
  revert s scratch a b i k. induction ops as [|o ops IH]; intros s scratch a b i k Hf Hs Hops Hn.
  { apply wp_ret. exists i, a, b. done. }
  cbn [length] in Hn. apply Forall_cons in Hops as [Ho Hops]. destruct o as [r p|]; cbn.
  - destruct Ho as (Hok & Hl & Hm).
    call (wp_append s r (Some p) scratch a b ino i) as [[[res s'] r'] scratch'] k'
      (i' & Hv & _ & _ & Hres); [done|done|done|done|done|lia|].
    assert (fd_file (view k') (g_fd s) = Some (ino, i')) as Hf'
      by (rewrite Hv; by eapply fd_file_set_inode).
    destruct (result_ok res).
    + destruct Hres as (-> & _ & Hs' & _ & Heq).
      assert (g_fd s' = g_fd s ∧ g_base_seq s' = g_base_seq s ∧ g_capacity s' = g_capacity s ∧
        g_next_seq s' = g_next_seq s + 1) as (Hfd & Hba & Hca & Hne).
      { rewrite Heq. cbn. rewrite u64_id; [done|].
        pose proof (sf_next _ _ _ _ Hs). pose proof (sf_base _ _ _ _ Hs). lia. }
      rewrite <-Hba, <-Hca. eapply IH; [rewrite Hfd; exact Hf'|done|done|lia].
    + destruct Hres as [-> Hs']. eapply IH; [done..|lia].
  - call (wp_sync s a b ino i) as [res s'] k' (i' & Hv & _ & Hres); [done|done|]. cbn in Hres.
    assert (fd_file (view k') (g_fd s) = Some (ino, i')) as Hf'
      by (rewrite Hv; by eapply fd_file_set_inode).
    destruct (result_ok res).
    + destruct Hres as [Hs' Heq].
      assert (g_fd s' = g_fd s ∧ g_base_seq s' = g_base_seq s ∧ g_capacity s' = g_capacity s ∧
        g_next_seq s' = g_next_seq s) as (Hfd & Hba & Hca & Hne) by (by rewrite Heq).
      rewrite <-Hba, <-Hca. eapply wp_mono.
      * eapply IH; [rewrite Hfd; exact Hf'|done|done|lia].
      * cbn. intros s2 k2 (i2 & a2 & b2 & ? & ? & Hp & ? & ?). exists i2, a2, b2.
        split_and!; try done. etransitivity; [|exact Hp]. by apply prefix_app_r.
    + destruct Hres as [-> Hs']. eapply IH; [done..|lia].
Qed.

(** ** Properties *)

Module SegmentProps.
Import Os.Sim.

(** A file of 256 unwritten bytes, open as descriptor 5. *)
Definition demo : sim :=
  MkSim (Fsys {[0%nat := Inode (zeros 256) (Some <$> zeros 256)]} ∅ (Disk ∅ []) {[5 := FFile 0]})
    6 1 [] 0 [] (Net [] []).
Definition demo_seg : wal_seg_t := seg_reset 5 4 1 256.
Definition demo_rec : wal_rec_t := Rec 0 3 1 0 7 5 1 0 0 9.

Lemma demo_file : seg_file demo_seg (Inode (zeros 256) (Some <$> zeros 256)) [] [].
Proof. constructor; cbn; try done; lia. Qed.

Lemma demo_fd : fd_file (view demo) 5 = Some (0%nat, Inode (zeros 256) (Some <$> zeros 256)).
Proof. by vm_compute. Qed.
Lemma demo_data : fd_data (view demo) 5 = Some (zeros 256).
Proof. by vm_compute. Qed.

(** No durable record is lost: through any mix of appends and flushes,
    each of which may fail or be cut short by the kernel, the segment keeps
    its records in order, those that were durable before among them, and
    from whatever a crash then leaves of the file a scan begins with every
    record the segment counted as durable. *)
Theorem durable_records_survive {K : Type} `{SysLaws K} (ops : list seg_op) (s : wal_seg_t)
    (scratch : list byte) (a b : list entry) (ino : nat) (i : inode) (k : K)
    (Hf : fd_file (view k) (g_fd s) = Some (ino, i)) (Hs : seg_file s i a b)
    (Hops : Forall op_ok ops) (Hn : g_next_seq s + zlen ops < 2 ^ 64) :
  wp (use_segment ops s scratch) (λ s' k', survives (view k') s' a) k.
Proof.
  eapply wp_mono; [by eapply use_segment_holds|].
  intros s' k' (i' & a' & b' & Hf' & Hs' & Hp & _ & _).
  destruct (seg_file_survives _ _ _ _ _ _ Hf' Hs') as (i2 & ino2 & a2 & b2 & ? & ? & ? & ? & ?).
  exists i2, ino2, a2, b2. split_and!; try done. by etransitivity.
Qed.

Lemma durable_records_survive_witness :
  let ops := [Append demo_rec (bytes_of [1; 2; 3]); Sync; Append demo_rec (bytes_of [4; 5; 6])] in
  wp (use_segment ops demo_seg (zeros 128)) (λ s' k', survives (view k') s' []) demo ∧
  g_durable_seq (use_segment ops demo_seg (zeros 128) demo).1 = 1.
Proof.
  split; [|vm_compute; reflexivity].
  exact (durable_records_survive [Append demo_rec (bytes_of [1; 2; 3]); Sync;
      Append demo_rec (bytes_of [4; 5; 6])] demo_seg (zeros 128) [] [] 0
    (Inode (zeros 256) (Some <$> zeros 256)) demo demo_fd demo_file
    ltac:(repeat constructor; vm_compute; discriminate) ltac:(vm_compute; reflexivity)).
Defined.

(** C15. Recovery reads the whole file: however the kernel cuts the reads and
    whatever the size of the scratch buffer, it ends with a kernel error and
    an untouched segment, or reports exactly what one pass over the file
    finds, the callback having seen those records in order; it never stops
    for any other reason, and it stops. *)
Theorem recover_is_scan {K C : Type} `{SysLaws K} (cb : C → wal_rec_t → C) (s : wal_seg_t)
    (slen : Z) (data : list byte) (ctx : C) (k : K)
    (Hsl : 56 <= slen < 2 ^ 31) (Hb : 0 <= g_base_seq s < 2 ^ 64)
    (Hd : fd_data (view k) (g_fd s) = Some data) :
  wp (wal_seg_recover cb s slen ctx) (λ x k', view k' = view k ∧
    (r_code x.1.1.1 = ERR_SYSCALL ∧ x.1.1.2 = s ∨
     recovers_to cb s ctx (scan (g_capacity s) slen data 0 (g_base_seq s)) x)) k.
Proof. by apply wp_recover. Qed.

Lemma recover_is_scan_witness :
  let cb := (λ (l : list wal_rec_t) r, r :: l) in
  wp (wal_seg_recover cb demo_seg 64 []) (λ x k', view k' = view demo ∧
    (r_code x.1.1.1 = ERR_SYSCALL ∧ x.1.1.2 = demo_seg ∨
     recovers_to cb demo_seg [] (scan 256 64 (zeros 256) 0 1) x)) demo.
Proof.
  exact (recover_is_scan (λ (l : list wal_rec_t) r, r :: l) demo_seg 64 (zeros 256) [] demo
    ltac:(lia) ltac:(cbn; lia) demo_data).
Defined.

(** What was appended comes back: scanning a file that holds records
    one after another and unwritten space behind them finds exactly those
    records, ends where they end, and calls the ending clean. *)
Theorem reopen_finds_appended (cap slen base : Z) (es : list entry) (data : list byte)
    (Hch : chained base es) (Hb : 0 < base) (Hmax : base + zlen es < 2 ^ 64)
    (Hsl : WAL_REC_MAX_SIZE <= slen) (Hcap : zlen (log_bytes es) <= cap)
    (Hdata : data = log_bytes es ++ zeros (cap - zlen (log_bytes es))) :
  scan cap slen data 0 base = (es.*1, zlen (log_bytes es), Clean).
Proof.
  rewrite (scan_log _ _ _ es) by (done || lia || (rewrite Hdata; by apply sub_app_l)).
  rewrite (scan_zeros _ _ _ _ _ (Z.min 56 (cap - zlen (log_bytes es)))); [|lia|].
  - rewrite app_nil_r. done.
  - rewrite Hdata, sub_app_r by lia.
    replace (0 + zlen (log_bytes es) - zlen (log_bytes es)) with 0 by lia.
    unfold sub, zeros. rewrite drop_0, take_replicate. f_equal. lia.
Qed.

Lemma reopen_finds_appended_witness :
  let r := sealed (demo_rec <| w_seq := 1 |>) (bytes_of [1; 2; 3]) in
  scan 256 WAL_REC_MAX_SIZE (image r (bytes_of [1; 2; 3]) ++ zeros 192) 0 1 = ([r], 64, Clean).
Proof.
  pose (r := sealed (demo_rec <| w_seq := 1 |>) (bytes_of [1; 2; 3])).
  assert (stored r (bytes_of [1; 2; 3])) as Hst.
  { apply sealed_stored; [unfold rec_ok; cbn; lia|done|vm_compute; discriminate]. }
  exact (reopen_finds_appended 256 WAL_REC_MAX_SIZE 1 [(r, bytes_of [1; 2; 3])]
    (image r (bytes_of [1; 2; 3]) ++ zeros 192)
    (conj eq_refl (conj Hst I)) ltac:(lia) ltac:(cbn; lia) ltac:(lia)
    ltac:(vm_compute; discriminate) ltac:(vm_compute; reflexivity)).
Defined.

(** C6. A segment that was created is there for good: when creation reports
    success the name was free, the file is new, its whole capacity is
    allocated and flushed, the directory with its name is flushed, it holds no
    records, and every other file, name and descriptor is as it was.  When it
    reports failure the caller's segment is as it was, no descriptor stays
    open, and nothing is changed but that a new file of any content may be left
    under the name. *)
Theorem create_is_durable {K : Type} `{SysLaws K} (s : wal_seg_t) (dir_fd base cap : Z)
    (todo : list (list byte)) (k : K)
    (Hdir : f_fds (view k) !! dir_fd = Some (FDir todo)) (Hb : 0 < base < 2 ^ 64)
    (Hc : cap < 2 ^ 62) :
  let name := cstr (wal_seg_name base) in
  wp (wal_seg_create s dir_fd base cap) (λ x k',
    if result_ok x.1 then
      ∃ fd ino, x.2 = seg_reset fd dir_fd base cap ∧ fresh_fd (view k) fd ∧
        f_inodes (view k) !! ino = None ∧ f_names (view k) !! name = None ∧
        fd_file (view k') fd = Some (ino, Inode (zeros cap) (Some <$> zeros cap)) ∧
        f_names (view k') = <[name := ino]> (f_names (view k)) ∧
        f_disk (view k') = Disk (f_names (view k')) [] ∧
        f_fds (view k') = <[fd := FFile ino]> (f_fds (view k)) ∧
        (∀ ino', ino' ≠ ino → f_inodes (view k') !! ino' = f_inodes (view k) !! ino') ∧
        seg_file x.2 (Inode (zeros cap) (Some <$> zeros cap)) [] []
    else x.2 = s ∧ left_over name (view k) (view k')) k.
Proof.
  intros name. eapply wp_mono; [by eapply wp_create|]. intros [r s'] k' Hx. cbn [fst snd] in *.
  destruct (result_ok r); [|exact Hx].
  destruct Hx as (fd & ino & ? & ? & ? & ? & ? & _ & ? & ? & ? & ? & ?). exists fd, ino. split_and!; assumption.
Qed.

Lemma create_is_durable_witness :
  let d := demo <| s_view := set_fd 4 (FDir []) (s_view demo) |> in
  wp (wal_seg_create demo_seg 4 1 128) (λ x k',
    result_ok x.1 = true → f_disk (view k') = Disk (f_names (view k')) [] ∧
      is_Some (f_names (view k') !! cstr (wal_seg_name 1))) d ∧
  result_ok (wal_seg_create demo_seg 4 1 128 d).1.1 = true.
Proof.
  split; [|vm_compute; reflexivity].
  pose proof (create_is_durable demo_seg 4 1 128 []
    (demo <| s_view := set_fd 4 (FDir []) (s_view demo) |>)
    ltac:(by vm_compute) ltac:(lia) ltac:(lia)) as Hc.
  cbv zeta in Hc. eapply wp_mono; [exact Hc|].
  cbv beta. intros x k' Hx Hok. rewrite Hok in Hx. destruct Hx as (fd & ino & _ & _ & _ & _ & _ & -> & -> & _).
  split; [done|]. by rewrite lookup_insert_eq.
Defined.

End SegmentProps.
