(* ===== verification/Wal.v ===== *)
(** * The write-ahead log (src/wal/wal.h, wal.c)

    A directory of segments, the last of them active: opening it, appending
    with rollover, flushing, and retention.  The read cursor is in Cursor.v. *)

From stdpp Require Import sorting.
From S2P Require Import Prelude Core Crc32c Fmt Msg Record Index Os Segment.

#[global] Arguments wal_seg_name : simpl never.

Definition WAL_MAX_SEGMENTS : Z := 1024.

(** [wl_seg_base] is the live prefix [seg_base[0..seg_count)]. *)
Record wal_t := Wal {
  wl_dir_fd : Z; wl_seg_capacity : Z; wl_active : wal_seg_t; wl_seg_base : list Z;
  wl_index : wal_index_t }.
#[export] Instance eta_wal : Eta wal_t := λ w,
  Wal (wl_dir_fd w) (wl_seg_capacity w) (wl_active w) (wl_seg_base w) (wl_index w).

Definition seg_count (w : wal_t) : Z := zlen (wl_seg_base w).

Record wal_open_t := Opened {
  op_segments : Z; op_created : bool; op_torn : bool;
  op_first_seq : Z; op_last_seq : Z; op_records : Z }.
#[export] Instance eta_open : Eta wal_open_t := λ o,
  Opened (op_segments o) (op_created o) (op_torn o) (op_first_seq o) (op_last_seq o) (op_records o).

(** ** The segment table *)

(** The digits of a name from position [i] on; [None] where the code answers
    FALSE. *)
Fixpoint parse_digits (n : nat) (name : list byte) (v : Z) : option (Z * list byte) :=
  match n with
  | O => Some (v, name)
  | S n =>
      match name with
      | [] => None
      | b :: name =>
          let c := byte.unsigned b in
          if (c <? 48) || (57 <? c) then None else
          if UINT64_MAX / 10 <? v then None else
          parse_digits n name (u64 (v * 10 + (c - 48)))
      end
  end.

(** [name] is the memory from the name on; a read past the end of the scratch
    buffer counts as a mismatch. *)
Definition seg_name_parse (name : list byte) (max : Z) : option Z :=
  if max <? WAL_SEG_NAME_MAX - 1 then None else
  match parse_digits WAL_SEG_DIGITS name 0 with
  | None => None
  | Some (v, rest) =>
      if negb (bool_decide (take 5 rest = seg_suffix)) then None else
      if v =? 0 then None else Some v
  end.

(** Position and shift of the insertion, over the ascending table. *)
Fixpoint table_insert (bases : list Z) (base : Z) : list Z :=
  match bases with
  | [] => [base]
  | x :: rest =>
      if x =? base then x :: rest else
      if base <? x then base :: x :: rest else x :: table_insert rest base
  end.

Definition seg_table_insert (bases : list Z) (base : Z) : option (list Z) :=
  if WAL_MAX_SEGMENTS <=? zlen bases then None else Some (table_insert bases base).

Definition DIRENT64_RECLEN_OFF : Z := 16.
Definition DIRENT64_NAME_OFF : Z := 19.

(** The records of one listing, from [off]. *)
Fixpoint walk_dirents (fuel : nat) (scratch : list byte) (n off : Z) (bases : list Z)
    : result_t * list Z :=
  match fuel with
  | O => (RESULT_OK, bases)
  | S fuel =>
      if n <=? off then (RESULT_OK, bases) else
      let reclen := get (off + DIRENT64_RECLEN_OFF) 2 scratch in
      if (reclen <? DIRENT64_NAME_OFF) || (n <? off + reclen)
      then (RESULT_ERR ERR_STORAGE 0, bases) else
      let name_max := reclen - DIRENT64_NAME_OFF in
      match seg_name_parse (drop (Z.to_nat (off + DIRENT64_NAME_OFF)) scratch) name_max with
      | Some base =>
          match seg_table_insert bases base with
          | None => (RESULT_ERR ERR_NOMEM (zlen bases), bases)
          | Some bases => walk_dirents fuel scratch n (off + reclen) bases
          end
      | None => walk_dirents fuel scratch n (off + reclen) bases
      end
  end.

Section wal.
Context {K : Type} `{Sys K}.

(** The loop asks for listings until the kernel gives an empty one; [None]
    is a loop still running after [rounds] of them. *)
Fixpoint table_load (rounds : nat) (dir_fd : Z) (scratch : list byte) (bases : list Z)
    : M K (option (result_t * list Z * list byte)) :=
  match rounds with
  | O => mret None
  | S rounds =>
      '(r, n, bs) ← os_getdents64 dir_fd (zlen scratch) 0;
      if negb (result_ok r) then mret (Some (r, bases, scratch)) else
      let scratch := blit scratch 0 bs in
      if n =? 0 then mret (Some (RESULT_OK, bases, scratch)) else
      let '(r, bases) := walk_dirents (S (Z.to_nat n)) scratch n 0 bases in
      if negb (result_ok r) then mret (Some (r, bases, scratch)) else
      table_load rounds dir_fd scratch bases
  end.

Definition seg_table_load (rounds : nat) (w : wal_t) (scratch : list byte)
    : M K (option (result_t * wal_t * list byte)) :=
  x ← table_load rounds (wl_dir_fd w) scratch [];
  mret ('(r, bases, scratch) ← x; Some (r, w <| wl_seg_base := bases |>, scratch)).

(** ** Opening *)

Section open.
Context {C : Type} (cb : C → wal_rec_t → C).

(** The scan's callback fills the index and then calls the caller's. *)
Definition wal_scan_record (ctx : wal_index_t * C) (r : wal_rec_t) : wal_index_t * C :=
  (wal_index_add ctx.1 r, cb ctx.2 r).

(** Close the directory and report [r]. *)
Definition open_fails (w : wal_t) (out : wal_open_t) (ctx : C) (r : result_t)
    : M K (result_t * wal_t * wal_open_t * C) :=
  _ ← os_close (wl_dir_fd w);
  mret (r, w <| wl_dir_fd := -1 |>, out, ctx).

(** The loop over the table; [expected] is where the next segment must start. *)
Fixpoint open_segments (bases : list Z) (expected records : Z) (scratch_len : Z) (w : wal_t)
    (out : wal_open_t) (ctx : C) : M K (result_t * wal_t * wal_open_t * C) :=
  match bases with
  | [] =>
      mret (RESULT_OK, w,
        out <| op_segments := seg_count w |>
            <| op_first_seq := default 0 (head (wl_seg_base w)) |>
            <| op_last_seq := u64 (expected - 1) |> <| op_records := records |>, ctx)
  | base :: rest =>
      if negb (base =? expected) then open_fails w out ctx (RESULT_ERR ERR_STORAGE 0) else
      '(r, seg) ← wal_seg_open (seg_reset (-1) 0 0 0) (wl_dir_fd w) base (wl_seg_capacity w);
      if negb (result_ok r) then open_fails w out ctx r else
      '(r, seg, scan, (ix, ctx)) ← wal_seg_recover wal_scan_record seg scratch_len (wl_index w, ctx);
      let w := w <| wl_index := ix |> in
      if negb (result_ok r) then _ ← wal_seg_close seg; open_fails w out ctx r else
      match scan with
      | None => mret (r, w, out, ctx)
      | Some scan =>
          let records := u64 (records + sc_records scan) in
          let expected := u64 (sc_last_seq scan + 1) in
          match rest with
          | [] => open_segments rest expected records scratch_len (w <| wl_active := seg |>)
                    (out <| op_torn := sc_torn scan |>) ctx
          | _ =>
              if sc_torn scan then
                _ ← wal_seg_close seg; open_fails w out ctx (RESULT_ERR ERR_STORAGE 0)
              else _ ← wal_seg_close seg;
                open_segments rest expected records scratch_len w out ctx
          end
      end
  end.

(** [w0] is the caller's struct, whose active segment keeps the fields the
    code does not set; [None] only when [rounds] listings did not reach the
    end of the directory. *)
Definition wal_open (rounds : nat) (w0 : wal_t) (dir_path : list byte) (seg_capacity : Z)
    (scratch : list byte) (ctx : C) : M K (option (result_t * wal_t * wal_open_t * C)) :=
  let out := Opened 0 false false 0 0 0 in
  if (seg_capacity <? WAL_REC_HEADER_SIZE) || (zlen scratch <? WAL_REC_HEADER_SIZE)
  then mret (Some (RESULT_ERR ERR_INVALID 0, w0, out, ctx)) else
  let w := Wal (-1) seg_capacity ((wl_active w0) <| g_fd := -1 |>) [] wal_index_init in
  '(r, fd) ← os_openat AT_FDCWD dir_path (Z.lor (Z.lor O_RDONLY O_DIRECTORY) O_CLOEXEC) 0
    (wl_dir_fd w);
  let w := w <| wl_dir_fd := fd |> in
  if negb (result_ok r) then mret (Some (r, w, out, ctx)) else
  x ← seg_table_load rounds w scratch;
  match x with
  | None => mret None
  | Some (r, w, scratch) =>
      Some <$> (if negb (result_ok r) then open_fails w out ctx r else
        match wl_seg_base w with
        | [] =>
            '(r, active) ← wal_seg_create (wl_active w) (wl_dir_fd w) 1 seg_capacity;
            let w := w <| wl_active := active |> in
            if negb (result_ok r) then open_fails w out ctx r else
            mret (RESULT_OK, w <| wl_seg_base := [1] |>,
              out <| op_segments := 1 |> <| op_created := true |> <| op_first_seq := 1 |>, ctx)
        | base :: _ => open_segments (wl_seg_base w) base 0 (zlen scratch) w out ctx
        end)
  end.
End open.

(** ** Appending and flushing *)

Definition wal_sync (w : wal_t) : M K (result_t * wal_t) :=
  '(r, active) ← wal_seg_sync (wl_active w);
  mret (r, w <| wl_active := active |>).

(** Roll over to a new segment: flush, close, create. *)
Definition wal_rollover (w : wal_t) : M K (result_t * wal_t) :=
  if WAL_MAX_SEGMENTS <=? seg_count w then mret (RESULT_ERR ERR_NOMEM (seg_count w), w) else
  '(res, w) ← wal_sync w;
  if negb (result_ok res) then mret (res, w) else
  let next_base := u64 (g_durable_seq (wl_active w) + 1) in
  '(res, active) ← wal_seg_close (wl_active w);
  let w := w <| wl_active := active |> in
  if negb (result_ok res) then mret (res, w) else
  '(res, active) ← wal_seg_create (wl_active w) (wl_dir_fd w) next_base (wl_seg_capacity w);
  let w := w <| wl_active := active |> in
  if negb (result_ok res) then mret (res, w) else
  mret (RESULT_OK, w <| wl_seg_base ::= λ l, l ++ [next_base] |>).

Definition wal_append (w : wal_t) (r : wal_rec_t) (payload : option (list byte))
    (scratch : list byte) : M K (result_t * wal_t * wal_rec_t * list byte) :=
  let size := wal_rec_size (i32 (w_len r)) in
  if (size =? 0) || (wl_seg_capacity w <? size)
  then mret (RESULT_ERR ERR_INVALID 0, w, r, scratch) else
  '(res, w) ← (if negb (wal_seg_fits (wl_active w) (i32 (w_len r)))
               then wal_rollover w else mret (RESULT_OK, w));
  if negb (result_ok res) then mret (res, w, r, scratch) else
  '(res, active, r, scratch) ← wal_seg_append (wl_active w) r payload scratch;
  let w := w <| wl_active := active |> in
  if result_ok res then mret (res, w <| wl_index ::= λ ix, wal_index_add ix r |>, r, scratch)
  else mret (res, w, r, scratch).

Definition wal_durable_seq (w : wal_t) : Z := g_durable_seq (wl_active w).
Definition wal_next_seq (w : wal_t) : Z := g_next_seq (wl_active w).
Definition wal_first_seq (w : wal_t) : Z :=
  match wl_seg_base w with base :: _ => base | [] => 0 end.
Definition wal_segments (w : wal_t) : Z := seg_count w.
Definition wal_seg_capacity (w : wal_t) : Z := wl_seg_capacity w.
Definition wal_index (w : wal_t) : wal_index_t := wl_index w.

Definition wal_append_at (w : wal_t) (r : wal_rec_t) (payload : option (list byte))
    (scratch : list byte) : M K (result_t * wal_t * wal_rec_t * list byte) :=
  let want := w_seq r in
  if negb (want =? wal_next_seq w) then mret (RESULT_ERR ERR_INVALID 0, w, r, scratch) else
  '(res, w, r, scratch) ← wal_append w r payload scratch;
  if negb (result_ok res) then mret (res, w, r, scratch) else
  if negb (w_seq r =? want) then mret (RESULT_ERR ERR_STORAGE 0, w, r, scratch) else
  mret (RESULT_OK, w, r, scratch).

Definition wal_close (w : wal_t) : M K (result_t * wal_t) :=
  '(r, w) ← (if 0 <=? g_fd (wl_active w)
             then '(r, active) ← wal_seg_close (wl_active w);
                  mret (r, w <| wl_active := active |>)
             else mret (RESULT_OK, w));
  if 0 <=? wl_dir_fd w
  then _ ← os_close (wl_dir_fd w); mret (r, w <| wl_dir_fd := -1 |>)
  else mret (r, w).

(** ** Retention *)

Definition wal_retain_mark (w : wal_t) (keep_segments : Z) : Z :=
  if (keep_segments <=? 0) || (seg_count w <=? keep_segments) then 0
  else default 0 (zget (wl_seg_base w) (seg_count w - keep_segments)).

(** How many leading segments end below [keep_from]. *)
Fixpoint retain_drop (bases : list Z) (keep_from : Z) : nat :=
  match bases with
  | _ :: (b :: _) as rest => if b <=? keep_from then S (retain_drop rest keep_from) else 0%nat
  | _ => 0%nat
  end.

(** Unlink the named segments in order; the count of those that went. *)
Fixpoint unlink_segments (dir_fd : Z) (bases : list Z) (i : nat) : M K (result_t * nat) :=
  match bases with
  | [] => mret (RESULT_OK, i)
  | base :: rest =>
      r ← os_unlinkat dir_fd (wal_seg_name base) 0;
      if negb (result_ok r) then mret (r, i) else unlink_segments dir_fd rest (S i)
  end.

(** Result, log and [removed_out]. *)
Definition wal_retain (w : wal_t) (keep_from : Z) : M K (result_t * wal_t * Z) :=
  let n := retain_drop (wl_seg_base w) keep_from in
  if Nat.eqb n 0 then mret (RESULT_OK, w, 0) else
  '(r, i) ← unlink_segments (wl_dir_fd w) (take n (wl_seg_base w)) 0;
  let w := w <| wl_seg_base ::= drop i |> in
  if negb (result_ok r) then mret (r, w, Z.of_nat i) else
  r ← os_fsync (wl_dir_fd w);
  if negb (result_ok r) then mret (r, w, 0) else
  mret (RESULT_OK, w, Z.of_nat n).

End wal.

(** ** Segment names *)

(** The [n] lowest decimal digits of [v], highest first. *)
Fixpoint dec_digits (n : nat) (v : Z) : list byte :=
  match n with
  | O => []
  | S n => dec_digits n (v / 10) ++ [digit (v mod 10)]
  end.

Lemma name_digits_eq n v acc : name_digits n v acc = dec_digits n v ++ acc.
Proof.
  revert v acc. induction n as [|n IH]; intros v acc; cbn; [done|].
  by rewrite IH, <-app_assoc.
Qed.

Lemma length_dec_digits n v : length (dec_digits n v) = n.
Proof. revert v. induction n as [|n IH]; intros v; cbn; [done|]. rewrite length_app, IH. cbn. lia. Qed.

Lemma dec_digits_first n v :
  0 <= v → dec_digits (S n) v = digit (v / 10 ^ Z.of_nat n mod 10) :: dec_digits n v.
Proof.
  revert v. induction n as [|n IH]; intros v Hv.
  { cbn. by rewrite Z.div_1_r. }
  change (dec_digits (S (S n)) v) with (dec_digits (S n) (v / 10) ++ [digit (v mod 10)]).
  rewrite IH by (apply Z.div_pos; lia). cbn [app dec_digits]. f_equal. f_equal.
  rewrite Z.div_div by lia. do 2 f_equal.
  rewrite Nat2Z.inj_succ, Z.pow_succ_r by lia. lia.
Qed.

Lemma digit_unsigned d : 0 <= d < 10 → byte.unsigned (digit d) = 48 + d.
Proof. intros. unfold digit. rewrite byte.unsigned_of_Z. apply Z.mod_small. cbn. lia. Qed.

Lemma parse_dec_digits n v acc rest :
  0 <= v → 0 <= acc → acc * 10 ^ Z.of_nat n + v mod 10 ^ Z.of_nat n < 2 ^ 64 →
  parse_digits n (dec_digits n v ++ rest) acc
    = Some (acc * 10 ^ Z.of_nat n + v mod 10 ^ Z.of_nat n, rest).
Proof.
  revert v acc. induction n as [|n IH]; intros v acc Hv Ha Hlt.
  { cbn. by rewrite Z.mod_1_r, Z.mul_1_r, Z.add_0_r. }
  rewrite dec_digits_first by done. cbn [app parse_digits].
  rewrite Nat2Z.inj_succ, Z.pow_succ_r in * by lia.
  set (p := 10 ^ Z.of_nat n) in *. assert (0 < p) by (apply Z.pow_pos_nonneg; lia).
  assert (v mod (10 * p) = v / p mod 10 * p + v mod p) as Hmod.
  { rewrite Z.mul_comm, Z.rem_mul_r by lia. lia. }
  pose proof (Z.mod_pos_bound (v / p) 10 ltac:(lia)) as Hd.
  pose proof (Z.mod_pos_bound v p ltac:(lia)).
  rewrite digit_unsigned by lia. rewrite Hmod in *.
  rewrite (proj2 (Z.ltb_ge _ _)), (proj2 (Z.ltb_ge _ _)) by lia. cbn [orb].
  assert (acc * 10 + v / p mod 10 < 2 ^ 64) by nia.
  rewrite (proj2 (Z.ltb_ge _ _)).
  2:{ unfold UINT64_MAX. apply Z.div_le_lower_bound; lia. }
  rewrite u64_id by lia.
  rewrite IH; [f_equal; f_equal; lia|done|lia|]. lia.
Qed.

Lemma parse_name base rest max :
  0 < base < 2 ^ 64 → 24 <= max → seg_name_parse (wal_seg_name base ++ rest) max = Some base.
Proof.
  intros Hb Hm. unfold seg_name_parse, WAL_SEG_NAME_MAX.
  rewrite (proj2 (Z.ltb_ge _ _)) by lia.
  unfold wal_seg_name. rewrite name_digits_eq, app_nil_r, <-app_assoc.
  assert (base mod 10 ^ Z.of_nat WAL_SEG_DIGITS = base) as Hmod.
  { apply Z.mod_small. change (10 ^ Z.of_nat WAL_SEG_DIGITS) with 100000000000000000000. lia. }
  rewrite parse_dec_digits by (rewrite ?Hmod; lia). rewrite Hmod, Z.mul_0_l, Z.add_0_l.
  rewrite take_app_length', bool_decide_eq_true_2 by done. cbn [negb].
  by rewrite (proj2 (Z.eqb_neq _ _)) by lia.
Qed.

Lemma cstr_app a b : Byte.x00 ∉ a → cstr (a ++ Byte.x00 :: b) = a.
Proof.
  induction a as [|x a IH]; cbn; [done|]. rewrite not_elem_of_cons. intros [Hx Ha].
  rewrite decide_False by done. by rewrite IH.
Qed.

Lemma dec_digits_range n v x : 0 <= v → x ∈ dec_digits n v → 48 <= byte.unsigned x <= 57.
Proof.
  revert v. induction n as [|n IH]; intros v Hv; cbn; [by intros ?%elem_of_nil|].
  intros [Hx| ->%list_elem_of_singleton]%elem_of_app.
  - apply (IH (v / 10)); [apply Z.div_pos; lia|done].
  - pose proof (Z.mod_pos_bound v 10 ltac:(lia)). rewrite digit_unsigned by lia. lia.
Qed.

(** The name without its NUL. *)
Definition seg_name (base : Z) : list byte := dec_digits WAL_SEG_DIGITS base ++ take 4 seg_suffix.

Lemma wal_seg_name_eq base : wal_seg_name base = seg_name base ++ [Byte.x00].
Proof. unfold wal_seg_name, seg_name. rewrite name_digits_eq, app_nil_r, <-app_assoc. done. Qed.

Lemma seg_name_no_nul base : 0 <= base → Byte.x00 ∉ seg_name base.
Proof.
  intros Hb. unfold seg_name. rewrite not_elem_of_app. split.
  - intros Hx%dec_digits_range; [|done]. vm_compute in Hx. destruct Hx as [Hx _]. by apply Hx.
  - cbn. rewrite !not_elem_of_cons. split_and!; try done. apply not_elem_of_nil.
Qed.

Lemma cstr_name base : 0 <= base → cstr (wal_seg_name base) = seg_name base.
Proof. intros. rewrite wal_seg_name_eq. by apply cstr_app, seg_name_no_nul. Qed.

Lemma seg_name_inj b1 b2 :
  0 < b1 < 2 ^ 64 → 0 < b2 < 2 ^ 64 → cstr (wal_seg_name b1) = cstr (wal_seg_name b2) → b1 = b2.
Proof.
  intros H1 H2. rewrite !cstr_name by lia. intros Heq.
  pose proof (parse_name b1 [] 24 H1 ltac:(lia)) as P1.
  pose proof (parse_name b2 [] 24 H2 ltac:(lia)) as P2.
  rewrite wal_seg_name_eq, Heq, <-wal_seg_name_eq, P2 in P1. by simplify_eq.
Qed.

(** ** The segment table *)

Lemma table_insert_elem bases base x :
  x ∈ table_insert bases base ↔ x = base ∨ x ∈ bases.
Proof.
  induction bases as [|y bases IH]; cbn; [set_solver|].
  destruct (Z.eqb_spec y base) as [->|]; [set_solver|].
  destruct (base <? y); set_solver.
Qed.

Lemma table_insert_sorted bases base :
  StronglySorted Z.lt bases → StronglySorted Z.lt (table_insert bases base).
Proof.
  induction 1 as [|y bases Hs IH Hy]; cbn; [repeat constructor|].
  destruct (Z.eqb_spec y base); [by constructor|].
  destruct (Z.ltb_spec base y).
  - constructor; [by constructor|]. constructor; [done|].
    eapply Forall_impl; [exact Hy|]. cbn. lia.
  - constructor; [done|]. rewrite Forall_forall in *. intros x [->|Hx]%table_insert_elem; [lia|auto].
Qed.

(** The base a directory entry stands for, if it is a segment's: twenty decimal
    digits and ".seg".  What twenty digits can hold beyond 64 bits is no base,
    but for the first four values the code's check against overflow does not
    reach: these wrap around. *)
Definition base_of_name (name : list byte) : option Z :=
  let ds := take WAL_SEG_DIGITS name in
  let v := dec_val 0 ds in
  if bool_decide (length ds = WAL_SEG_DIGITS ∧ Forall is_digit ds ∧ v < 2 ^ 64 + 4 ∧
       drop WAL_SEG_DIGITS name = take 4 seg_suffix ∧ u64 v ≠ 0)
  then Some (u64 v) else None.

Definition add_name (bases : list Z) (name : list byte) : list Z :=
  match base_of_name name with Some b => table_insert bases b | None => bases end.

Lemma is_digit_val c : is_digit c → 0 <= digit_val c < 10 ∧ digit (digit_val c) = c.
Proof.
  unfold is_digit, digit_val, digit. intros Hc. split; [lia|].
  replace (48 + (byte.unsigned c - 48)) with (byte.unsigned c) by lia. apply byte.of_Z_unsigned.
Qed.

(** The digits are read until one does not fit any more, which only the last
    of the twenty can fail to do. *)
Lemma parse_digits_spec n name v :
  (0 < n <= 20)%nat → 0 <= v < 10 ^ (20 - Z.of_nat n) →
  let ds := take n name in
  parse_digits n name v =
    if bool_decide (length ds = n ∧ Forall is_digit ds ∧ dec_val v ds < 2 ^ 64 + 4)
    then Some (u64 (dec_val v ds), drop n name) else None.
Proof.
  revert name v. induction n as [|n IH]; intros name v Hn Hv; [lia|]. cbn zeta.
  destruct name as [|c name]; cbn [take parse_digits].
  { rewrite bool_decide_eq_false_2; [done|]. by intros [? _]. }
  destruct ((_ <? 48) || _) eqn:Ec; zb.
  { rewrite bool_decide_eq_false_2; [done|]. intros (_ & Hf & _). apply Forall_inv in Hf.
    unfold is_digit in Hf. lia. }
  assert (is_digit c) as Hc by (unfold is_digit; lia). destruct (is_digit_val c Hc) as [Hd _].
  fold (digit_val c) in *. change (byte.unsigned c - 48) with (digit_val c).
  destruct (Z.ltb_spec (UINT64_MAX / 10) v) as [Hbig|Hsmall].
  { rewrite bool_decide_eq_false_2; [done|]. intros (_ & Hf & Hlt). apply Forall_inv_tail in Hf as Hf'.
    rewrite dec_val_cons in Hlt. pose proof (dec_val_grows (v * 10 + digit_val c) _ ltac:(lia) Hf').
    change (UINT64_MAX / 10) with 1844674407370955161 in Hbig. lia. }
  change (UINT64_MAX / 10) with 1844674407370955161 in Hsmall.
  destruct n as [|n].
  { cbn [parse_digits take drop]. rewrite bool_decide_eq_true_2; [done|].
    split_and!; [done|by repeat constructor|].
    change (dec_val v (c :: take 0 name)) with (v * 10 + digit_val c). lia. }
  assert (10 ^ (20 - Z.of_nat (S n)) = 10 * 10 ^ (20 - Z.of_nat (S (S n)))) as Hp.
  { rewrite <-Z.pow_succ_r by lia. f_equal. lia. }
  assert (10 ^ (20 - Z.of_nat (S n)) <= 10 ^ 19) by (apply Z.pow_le_mono_r; lia).
  assert (v * 10 + digit_val c < 10 ^ (20 - Z.of_nat (S n))) by lia.
  rewrite u64_id by lia. rewrite IH by lia. cbn [drop].
  rewrite dec_val_cons. erewrite bool_decide_ext; [done|].
  cbn [length take]. rewrite Forall_cons. naive_solver.
Qed.

(** Reading a name off the listing does not depend on what follows it, and is
    reading the number in it. *)
Lemma parse_entry name x max :
  Byte.x00 ∉ name → zlen name + 1 <= max →
  seg_name_parse (name ++ Byte.x00 :: x) max = base_of_name name.
Proof.
  intros Hn Hm. unfold base_of_name, seg_name_parse, WAL_SEG_NAME_MAX. cbv zeta.
  rewrite parse_digits_spec by (unfold WAL_SEG_DIGITS; lia). cbv zeta.
  destruct (decide (WAL_SEG_DIGITS <= length name)%nat) as [Hl|Hs].
  2: { rewrite !bool_decide_eq_false_2; [by case_match| |].
    - intros [Hx _]. rewrite length_take in Hx. lia.
    - intros (_ & Hx & _). rewrite take_app_ge in Hx by lia. apply Forall_app in Hx as [_ Hx].
      destruct (WAL_SEG_DIGITS - length name)%nat eqn:E; [lia|]. cbn in Hx. apply Forall_inv in Hx.
      vm_compute in Hx. destruct Hx as [Hx _]. by apply Hx. }
  rewrite take_app_le, drop_app_le by done.
  set (ds := take WAL_SEG_DIGITS name). set (tl := drop WAL_SEG_DIGITS name).
  assert (bool_decide (take 5 (tl ++ Byte.x00 :: x) = seg_suffix) = bool_decide (tl = take 4 seg_suffix)) as Hb.
  { apply bool_decide_ext. split.
    - intros Ht. assert (length tl = 4%nat) as Hl4.
      { destruct (decide (length tl = 4)%nat) as [|Hne]; [done|exfalso].
        destruct (decide (length tl < 4)%nat).
        - apply (f_equal (λ l, l !! length tl)) in Ht.
          rewrite lookup_take_lt in Ht by lia. rewrite list_lookup_middle in Ht by done.
          destruct (length tl) as [|[|[|[|]]]]; try discriminate; lia.
        - apply (f_equal (λ l, l !! 4%nat)) in Ht.
          rewrite lookup_take_lt, lookup_app_l in Ht by lia. cbn in Ht.
          apply Hn. unfold tl in Ht. rewrite lookup_drop in Ht. by eapply list_elem_of_lookup_2. }
      rewrite <-Ht. rewrite take_take. symmetry. by apply take_app_length'.
    - intros ->. done. }
  destruct (Z.ltb_spec max (25 - 1)) as [Hmax|Hmax].
  { rewrite bool_decide_eq_false_2; [done|]. intros (_ & _ & _ & Htl & _).
    apply (f_equal length) in Htl. unfold tl in Htl. rewrite length_drop in Htl. cbn in Htl.
    unfold WAL_SEG_DIGITS in *. lia. }
  destruct (bool_decide (length ds = _ ∧ _)) eqn:E1; apply bool_decide_eq_true in E1 || apply bool_decide_eq_false in E1.
  2: { rewrite bool_decide_eq_false_2; [done|]. tauto. }
  rewrite Hb. destruct (decide (tl = take 4 seg_suffix)) as [Ht|Ht].
  2: { rewrite !bool_decide_eq_false_2; [done|tauto..]. }
  rewrite (bool_decide_eq_true_2 (tl = _)) by done. cbn [negb].
  destruct (Z.eqb_spec (u64 (dec_val 0 ds)) 0).
  - rewrite bool_decide_eq_false_2; [done|]. tauto.
  - rewrite bool_decide_eq_true_2; [done|]. tauto.
Qed.

(** The names that are read are those the program gives to segments, and the
    three that wrap around. *)
Lemma dec_val_digits n v : 0 <= v → dec_val 0 (dec_digits n v) = v mod 10 ^ Z.of_nat n.
Proof.
  revert v. induction n as [|n IH]; intros v Hv; [by rewrite Z.mod_1_r|].
  cbn [dec_digits]. pose proof (Z.mod_pos_bound v 10 ltac:(lia)).
  rewrite dec_val_snoc, digit_val_digit, IH by (lia || apply Z.div_pos; lia).
  rewrite Nat2Z.inj_succ, Z.pow_succ_r, Z.rem_mul_r by lia. lia.
Qed.

Lemma dec_digits_val ds : Forall is_digit ds → dec_digits (length ds) (dec_val 0 ds) = ds.
Proof.
  induction ds as [|c ds IH] using rev_ind; [done|]. intros [Hf Hc]%Forall_app. apply Forall_inv in Hc.
  destruct (is_digit_val c Hc) as [Hd Hdc]. rewrite length_app, Nat.add_1_r, dec_val_snoc. cbn [dec_digits].
  rewrite Z.add_comm, Z.div_add, Z.div_small, Z.add_0_l, IH by (done || lia).
  by rewrite Z.mod_add, Z.mod_small, Hdc by lia.
Qed.

Lemma dec_digits_digits n v : 0 <= v → Forall is_digit (dec_digits n v).
Proof. intros Hv. apply Forall_forall. intros x Hx. by eapply dec_digits_range. Qed.

Lemma base_of_name_spec name b :
  base_of_name name = Some b ↔ ∃ v, 0 <= v < 2 ^ 64 + 4 ∧ name = seg_name v ∧ b = u64 v ∧ b ≠ 0.
Proof.
  unfold base_of_name. cbv zeta. case_bool_decide as Hx; split.
  - intros [= <-]. destruct Hx as (Hl & Hf & Hv & Ht & Hz). eexists. split_and!; [|done| |done|done].
    + by apply dec_val_grows.
    + unfold seg_name. rewrite <-Ht. pose proof (dec_digits_val _ Hf) as Hd. rewrite Hl in Hd.
      by rewrite Hd, take_drop.
  - intros (v & Hv & -> & -> & Hz). unfold seg_name in *.
    rewrite take_app_length' by (by rewrite length_dec_digits). rewrite dec_val_digits by lia.
    change (10 ^ Z.of_nat WAL_SEG_DIGITS) with (10 ^ 20). by rewrite Z.mod_small by lia.
  - done.
  - intros (v & Hv & -> & -> & Hz). destruct Hx. unfold seg_name in *.
    rewrite take_app_length', drop_app_length' by (by rewrite length_dec_digits). rewrite dec_val_digits by lia.
    change (10 ^ Z.of_nat WAL_SEG_DIGITS) with (10 ^ 20). rewrite Z.mod_small by lia.
    split_and!; [apply length_dec_digits|apply dec_digits_digits; lia|lia|done|done].
Qed.

Lemma base_of_seg_name base : 0 < base < 2 ^ 64 → base_of_name (seg_name base) = Some base.
Proof. intros Hb. apply base_of_name_spec. exists base. rewrite u64_id by lia. split_and!; done || lia. Qed.

(** A base is known by the program's own name for it, or by one that wraps. *)
Lemma named_base (names : list (list byte)) b :
  (∃ n, n ∈ names ∧ base_of_name n = Some b) ↔
  0 < b < 2 ^ 64 ∧ (seg_name b ∈ names ∨ b <= 3 ∧ seg_name (2 ^ 64 + b) ∈ names).
Proof.
  split.
  - intros (n & Hn & (v & Hv & -> & -> & Hz)%base_of_name_spec).
    destruct (Z.lt_ge_cases v (2 ^ 64)) as [Hs|Hs].
    + rewrite u64_id in * by lia. split; [lia|by left].
    + assert (u64 v = v - 2 ^ 64) as E.
      { unfold u64. replace v with (v - 2 ^ 64 + 1 * 2 ^ 64) at 1 by lia. rewrite Z.mod_add, Z.mod_small by lia. done. }
      rewrite E in *. split; [lia|]. right. split; [lia|]. by replace (2 ^ 64 + (v - 2 ^ 64)) with v by lia.
  - intros (Hb & [Hn|[Hb3 Hn]]); [exists (seg_name b)|exists (seg_name (2 ^ 64 + b))]; (split; [done|]).
    + by apply base_of_seg_name.
    + apply base_of_name_spec. exists (2 ^ 64 + b). split_and!; [lia|lia|done| |lia].
      unfold u64. rewrite Z.add_comm. replace (b + 2 ^ 64) with (b + 1 * 2 ^ 64) by lia.
      rewrite Z.mod_add, Z.mod_small by lia. done.
Qed.

Lemma add_names_elem names bases x :
  x ∈ foldl add_name bases names ↔ x ∈ bases ∨ ∃ n, n ∈ names ∧ base_of_name n = Some x.
Proof.
  revert bases. induction names as [|n names IH]; intros bases; cbn.
  { split; [by left|]. intros [?|(? & ?%elem_of_nil & _)]; done. }
  rewrite IH. unfold add_name. setoid_rewrite elem_of_cons.
  destruct (base_of_name n) as [b|] eqn:E; [rewrite table_insert_elem|]; naive_solver.
Qed.

Lemma add_names_sorted names bases :
  StronglySorted Z.lt bases → StronglySorted Z.lt (foldl add_name bases names).
Proof.
  revert bases. induction names as [|n names IH]; intros bases Hs; cbn; [done|].
  apply IH. unfold add_name. destruct (base_of_name n); [by apply table_insert_sorted|done].
Qed.

(** Walking a listing adds every name in it, unless the table fills up. *)
Lemma length_table_insert bases b : zlen bases <= zlen (table_insert bases b).
Proof. induction bases; cbn; repeat case_match; cbn [length]; lia. Qed.

Lemma add_names_length names bases : zlen bases <= zlen (foldl add_name bases names).
Proof.
  revert bases. induction names as [|n names IH]; intros bases; cbn; [lia|].
  specialize (IH (add_name bases n)). unfold add_name in *. destruct (base_of_name n) as [b|]; [|done].
  pose proof (length_table_insert bases b). lia.
Qed.

Lemma walk_dirents_spec fuel names bs pre post bases :
  dirents bs names → (length names < fuel)%nat →
  walk_dirents fuel (pre ++ bs ++ post) (zlen pre + zlen bs) (zlen pre) bases
    = (RESULT_OK, foldl add_name bases names) ∨
  ∃ full, WAL_MAX_SEGMENTS <= zlen full <= zlen (foldl add_name bases names) ∧
    walk_dirents fuel (pre ++ bs ++ post) (zlen pre + zlen bs) (zlen pre) bases
      = (RESULT_ERR ERR_NOMEM (zlen full), full).
Proof.
  intros Hd. revert fuel pre bases.
  induction Hd as [|hdr type name pad rest names Hh Hn Hlen Hd IH]; intros [|fuel] pre bases Hf;
    try (cbn in Hf; lia); cbn [walk_dirents foldl].
  { left. cbn [length]. rewrite (proj2 (Z.leb_le _ _)) by lia. done. }
  set (L := 20 + zlen name + zlen pad) in *.
  set (bs := hdr ++ le_split 2 L ++ type :: name ++ Byte.x00 :: pad ++ rest).
  assert (zlen bs = L + zlen rest) as Hbl.
  { unfold bs, L. repeat (rewrite length_app || rewrite length_le_split || cbn [length]). lia. }
  rewrite (proj2 (Z.leb_gt _ _)) by lia. unfold DIRENT64_RECLEN_OFF, DIRENT64_NAME_OFF.
  assert (get (zlen pre + 16) 2 (pre ++ bs ++ post) = L) as Hget.
  { rewrite get_skip by lia. replace (zlen pre + 16 - zlen pre) with 16 by lia.
    unfold bs. rewrite <-!app_assoc. rewrite get_skip, Hh by lia. change (16 - Z.of_nat 16) with 0.
    rewrite get_here by (by rewrite length_le_split). apply le_combine_split_id. cbn. lia. }
  rewrite Hget. rewrite !(proj2 (Z.ltb_ge _ _)) by lia. cbn [orb].
  assert (drop (Z.to_nat (zlen pre + 19)) (pre ++ bs ++ post)
          = name ++ Byte.x00 :: (pad ++ rest ++ post)) as ->.
  { rewrite drop_app_ge by lia. replace (Z.to_nat (zlen pre + 19) - length pre)%nat with 19%nat by lia.
    unfold bs. rewrite <-!app_assoc. rewrite drop_app_ge, Hh by lia.
    rewrite drop_app_ge by (rewrite length_le_split; lia). rewrite length_le_split.
    change (19 - 16 - 2)%nat with 1%nat. cbn [app drop]. rewrite <-app_assoc. cbn [app].
    by rewrite <-app_assoc. }
  rewrite parse_entry by (done || lia).
  assert (pre ++ bs ++ post = (pre ++ take (Z.to_nat L) bs) ++ rest ++ post) as Hsplit.
  { rewrite <-app_assoc. f_equal. rewrite app_assoc. f_equal.
    rewrite <-(take_drop (Z.to_nat L) bs) at 1. f_equal. unfold bs.
    replace (Z.to_nat L) with (length (hdr ++ le_split 2 L ++ type :: name ++ Byte.x00 :: pad)).
    - rewrite !app_comm_cons, !app_assoc. by rewrite <-!app_assoc, !app_assoc, drop_app_length.
    - unfold L. repeat (rewrite length_app || rewrite length_le_split || cbn [length]). lia. }
  assert (zlen (pre ++ take (Z.to_nat L) bs) = zlen pre + L) as Hpl.
  { rewrite length_app, length_take. lia. }
  cbn in Hf. change (add_name bases name) with
    (match base_of_name name with Some b => table_insert bases b | None => bases end).
  rewrite Hsplit, Hbl.
  replace (zlen pre + (L + zlen rest)) with (zlen (pre ++ take (Z.to_nat L) bs) + zlen rest) by lia.
  rewrite <-Hpl. destruct (base_of_name name) as [b|]; [|apply IH; lia].
  unfold seg_table_insert. destruct (Z.leb_spec WAL_MAX_SEGMENTS (zlen bases)); [|apply IH; lia].
  right. exists bases. split; [|done]. pose proof (length_table_insert bases b).
  pose proof (add_names_length names (table_insert bases b)). lia.
Qed.

Section laws.
Context {K : Type} `{SysLaws K}.

(** Loading the table from a directory still to be listed. *)
Lemma wp_table_load rounds dir_fd scratch bases todo (k : K) :
  f_fds (view k) !! dir_fd = Some (FDir todo) → (length todo < rounds)%nat →
  zlen scratch < 2 ^ 31 →
  wp (table_load rounds dir_fd scratch bases) (λ x k',
    (∃ todo', view k' = set_fd dir_fd (FDir todo') (view k)) ∧
    ∃ r bases' scratch', x = Some (r, bases', scratch') ∧ zlen scratch' = zlen scratch ∧
      (if result_ok r then bases' = foldl add_name bases todo
       else r_code r = ERR_SYSCALL ∨ WAL_MAX_SEGMENTS <= zlen (foldl add_name bases todo))) k.
Proof.
  revert scratch bases todo k. induction rounds as [|rounds IH]; intros scratch bases todo k Hd Hr Hs; [lia|].
  cbn [table_load]. unfold os_getdents64.
  assert (view k = set_fd dir_fd (FDir todo) (view k)) as Hsame by (symmetry; by apply set_fd_same).
  apply wp_bind. call law_getdents as [n bs] k' Hg; [lia|]. cbn [fst snd] in Hg. apply wp_ret.
  destruct Hg as [[Hf Hv]|(-> & Hn & Hg)].
  { unfold failed in Hf. rewrite Hf. cbn. apply wp_ret. split; [exists todo; congruence|].
    eexists _, _, _. split_and!; [done|done|]. cbn. by left. }
  destruct (Hg todo Hd) as (a & b & -> & Hda & Hab & Hv). clear Hg.
  rewrite not_failed, i32_id by lia. cbn [negb result_ok r_code Z.eqb RESULT_OK].
  assert (blit scratch 0 bs = [] ++ bs ++ drop (length bs) scratch) as Hbl by done.
  assert (zlen (blit scratch 0 bs) = zlen scratch) as Hlen by (rewrite length_blit; lia).
  destruct (Z.eqb_spec (zlen bs) 0) as [Hz|Hz].
  { apply wp_ret. split; [by exists b|]. eexists _, _, _. split; [done|]. split; [done|]. cbn.
    destruct Hda; [by rewrite Hab|]. rewrite !length_app in Hz. cbn in Hz. lia. }
  assert (a ≠ []) as Ha by (intros ->; inversion Hda; subst; done).
  rewrite length_app in Hr.
  pose proof (walk_dirents_spec (S (Z.to_nat (zlen bs))) a bs [] (drop (length bs) scratch) bases Hda) as Hw.
  assert (length a <= length bs)%nat as Hal.
  { clear -Hda. induction Hda; cbn; [lia|]. rewrite !length_app. cbn. rewrite !length_app. cbn.
    rewrite length_app. lia. }
  specialize (Hw ltac:(lia)). cbn [length] in Hw. rewrite Z.add_0_l in Hw. change (Z.of_nat 0) with 0 in Hw.
  rewrite <-Hbl in Hw.
  destruct Hw as [->|(full & Hfull & ->)]; cbn [negb result_ok r_code Z.eqb RESULT_OK RESULT_ERR ERR_NOMEM].
  - eapply wp_mono.
    + apply (IH _ _ b); [|destruct a; [done|cbn in *; lia]|lia].
      rewrite Hv. apply lookup_insert_eq.
    + cbn. intros x k2 ([todo' Hv2] & r & bases' & scratch' & -> & Hl & Hok).
      split; [exists todo'; rewrite Hv2, Hv; by rewrite set_fd_twice|].
      exists r, bases', scratch'. split_and!; [done|congruence|].
      by rewrite foldl_app.
  - apply wp_ret. split; [by exists b|]. eexists _, _, _. split_and!; [done|done|]. cbn. right.
    rewrite foldl_app. pose proof (add_names_length b (foldl add_name bases a)). lia.
Qed.
End laws.

(** ** What a log holds *)

(** A segment's records are in the file its name leads to, flushed. *)
Definition on_disk (v : fsys) (base : Z) (es : list entry) (ino : nat) : Prop :=
  ∃ i, f_names v !! cstr (wal_seg_name base) = Some ino ∧ f_inodes v !! ino = Some i ∧
    sub 0 (zlen (log_bytes es)) (i_data i) = log_bytes es ∧
    ∀ j : nat, Z.of_nat j < zlen (log_bytes es) → i_stable i !! j = (Some <$> i_data i) !! j.

(** Where the segment after these would start. *)
Definition next_base (segs : list (Z * list entry)) (tail_base : Z) : Z :=
  match segs with (base, _) :: _ => base | [] => tail_base end.

(** Closed segments follow one another without a gap up to the active one. *)
Fixpoint seg_chain (segs : list (Z * list entry)) (tail_base : Z) : Prop :=
  match segs with
  | [] => True
  | (base, es) :: rest =>
      0 < base ∧ es ≠ [] ∧ chained base es ∧ base + zlen es = next_base rest tail_base ∧
      seg_chain rest tail_base
  end.

(** The log of closed segments [segs] and an active one with durable records
    [a] and buffered records [b]. *)
Record wal_log (v : fsys) (w : wal_t) (segs : list (Z * list entry)) (a b : list entry)
    (ino : nat) (i : inode) : Prop := {
  wg_bases : wl_seg_base w = segs.*1 ++ [g_base_seq (wl_active w)];
  wg_chain : seg_chain segs (g_base_seq (wl_active w));
  wg_disk : ∀ base es, (base, es) ∈ segs → ∃ n, n ≠ ino ∧ on_disk v base es n;
  wg_file : fd_file v (g_fd (wl_active w)) = Some (ino, i);
  wg_seg : seg_file (wl_active w) i a b;
  wg_name : f_names v !! cstr (wal_seg_name (g_base_seq (wl_active w))) = Some ino;
  wg_cap : g_capacity (wl_active w) = wl_seg_capacity w;
  wg_dir : ∃ todo, f_fds v !! wl_dir_fd w = Some (FDir todo);
  wg_room : seg_count w <= WAL_MAX_SEGMENTS;
  wg_fd : 0 <= g_fd (wl_active w) }.

(** Every record of the log, oldest first. *)
Definition all_records (segs : list (Z * list entry)) (a b : list entry) : list entry :=
  concat segs.*2 ++ a ++ b.

Definition is_log (v : fsys) (w : wal_t) (es : list entry) : Prop :=
  ∃ segs a b ino i, wal_log v w segs a b ino i ∧ all_records segs a b = es.

Lemma on_disk_frame v v' base es n :
  on_disk v base es n → f_names v' !! cstr (wal_seg_name base) = f_names v !! cstr (wal_seg_name base) →
  f_inodes v' !! n = f_inodes v !! n → on_disk v' base es n.
Proof. intros (i & ? & ? & ?) Hn Hi. exists i. by rewrite Hn, Hi. Qed.

(** A change of the active segment and its file only. *)
Lemma wal_log_active v w segs a b ino i s' i' a' b' :
  wal_log v w segs a b ino i → seg_file s' i' a' b' →
  g_fd s' = g_fd (wl_active w) → g_base_seq s' = g_base_seq (wl_active w) →
  g_capacity s' = g_capacity (wl_active w) →
  wal_log (set_inode ino i' v) (w <| wl_active := s' |>) segs a' b' ino i'.
Proof.
  intros [Hb Hc Hd Hf Hs Hn Hcap Hdir Hr Hfd] Hs' Efd Eb Ec. constructor; cbn; rewrite ?Efd, ?Eb; try done.
  - intros base es Hin. destruct (Hd base es Hin) as (n & Hne & Ho). exists n. split; [done|].
    eapply on_disk_frame; [exact Ho|done|]. cbn. by rewrite lookup_insert_ne.
  - by eapply fd_file_set_inode.
  - congruence.
Qed.

Lemma wal_log_records v w segs a b ino i : wal_log v w segs a b ino i →
  0 < g_base_seq (wl_active w) ∧ wal_next_seq w = g_base_seq (wl_active w) + zlen (a ++ b) ∧
  wal_durable_seq w = g_base_seq (wl_active w) + zlen a - 1 ∧ wal_next_seq w < 2 ^ 64.
Proof.
  intros Hw. pose proof (wg_seg _ _ _ _ _ _ _ Hw) as Hs. unfold wal_next_seq, wal_durable_seq.
  rewrite (sf_next _ _ _ _ Hs), (sf_durable _ _ _ _ Hs).
  destruct (sf_base _ _ _ _ Hs). split_and!; try done; lia.
Qed.

Lemma seg_chain_snoc segs base es tail :
  seg_chain segs base → 0 < base → es ≠ [] → chained base es → base + zlen es = tail →
  seg_chain (segs ++ [(base, es)]) tail.
Proof.
  intros Hc Hb He Hch Ht. induction segs as [|[b0 es0] segs IH]; cbn; [done|].
  destruct Hc as (? & ? & ? & Hnx & Hc). split_and!; try done; [|by apply IH].
  rewrite Hnx. destruct segs as [|[??]?]; done.
Qed.

Section log.
Context {K : Type} `{SysLaws K}.

Lemma wp_wal_sync w segs a b ino i (k : K) :
  wal_log (view k) w segs a b ino i →
  wp (wal_sync w) (λ x k', ∃ i', view k' = set_inode ino i' (view k) ∧
    wl_index x.2 = wl_index w ∧ wl_seg_base x.2 = wl_seg_base w ∧ wal_next_seq x.2 = wal_next_seq w ∧
    if result_ok x.1 then wal_log (view k') x.2 segs (a ++ b) [] ino i' ∧
      wal_durable_seq x.2 = wal_next_seq w - 1
    else x.2 = w ∧ wal_log (view k') w segs a b ino i') k.
Proof.
  intros Hw. unfold wal_sync.
  call (wp_sync (wl_active w) a b ino i) as [r s'] k' (i' & Hv & _ & Hx); [apply Hw|apply Hw|].
  cbn [fst snd] in Hx. apply wp_ret. exists i'. cbn [fst snd]. rewrite Hv.
  destruct (result_ok r).
  - destruct Hx as [Hs' Heq].
    assert (wal_log (set_inode ino i' (view k)) (w <| wl_active := s' |>) segs (a ++ b) [] ino i')
      as Hl by (eapply wal_log_active; [done|done|by rewrite Heq..]).
    unfold wal_next_seq, wal_durable_seq. cbn. split_and!; try done; by rewrite Heq.
  - destruct Hx as [-> Hs']. destruct w. split_and!; try done.
    exact (wal_log_active _ _ _ _ _ _ _ _ _ _ _ Hw Hs' eq_refl eq_refl eq_refl).
Qed.

(** Rolling over closes the active segment with everything flushed and opens
    an empty one that starts at the next sequence; when it fails the log is
    as it was, or is left without an active segment. *)
Lemma wp_rollover w segs a b ino i (k : K) :
  wal_log (view k) w segs a b ino i → a ++ b ≠ [] →
  wp (wal_rollover w) (λ x k', wl_index x.2 = wl_index w ∧
    if result_ok x.1 then ∃ segs' ino' i', wal_log (view k') x.2 segs' [] [] ino' i' ∧
      concat segs'.*2 = all_records segs a b ∧ wal_next_seq x.2 = wal_next_seq w ∧
      wal_durable_seq x.2 = wal_next_seq w - 1
    else is_log (view k') x.2 (all_records segs a b) ∨ g_fd (wl_active x.2) < 0) k.
Proof.
  intros Hw Hne. unfold wal_rollover.
  destruct (Z.leb_spec WAL_MAX_SEGMENTS (seg_count w)).
  { apply wp_ret. cbn. split; [done|]. left. by exists segs, a, b, ino, i. }
  call (wp_wal_sync w segs a b ino i) as [r w1] k1 (i1 & Hv1 & Hix & Hsb & Hnx & Hx); [done|].
  cbn [fst snd] in *. destruct (result_ok r) eqn:Hr; cbn [negb].
  2:{ destruct Hx as [-> Hl]. apply wp_ret. cbn. rewrite Hr. split; [done|]. left.
      by exists segs, a, b, ino, i1. }
  destruct Hx as [Hl1 Hdu]. destruct (wal_log_records _ _ _ _ _ _ _ Hl1) as (Hb1 & Hn1 & _ & Hmax).
  pose proof Hl1 as [Hbs Hch Hdk Hf Hs Hnm Hcp [todo Hdir] Hrm Hfd].
  unfold wal_durable_seq, wal_next_seq in *. rewrite app_nil_r in *.
  rewrite u64_id by (rewrite length_app in *; lia).
  unfold wal_seg_close. rewrite (proj2 (Z.ltb_ge _ _)) by done. apply wp_bind.
  call wp_os_close as rc k2 Hv2. apply wp_ret. cbn [fst snd].
  destruct (result_ok rc) eqn:Hrc; cbn [negb].
  2:{ apply wp_ret. cbn. rewrite Hrc. split; [done|]. right. done. }
  assert (f_fds (view k2) !! wl_dir_fd w1 = Some (FDir todo)) as Hdir2.
  { rewrite Hv2. cbn. rewrite lookup_delete_ne; [done|]. intros Heq.
    apply fd_file_lookup in Hf as [Hf _]. congruence. }
  assert (f_names (view k2) = f_names (view k1)) as Hnm2 by (by rewrite Hv2).
  set (base' := g_durable_seq (wl_active w1) + 1).
  assert (base' = g_base_seq (wl_active w1) + zlen (a ++ b)) as Hb' by (unfold base'; lia).
  pose proof (sf_room _ _ _ _ Hs) as Hroom.
  call (wp_create _ (wl_dir_fd w1) base' (wl_seg_capacity w1) todo) as [r3 s3] k3 Hc;
    [done|lia|lia|]. cbn [fst snd] in Hc.
  destruct (result_ok r3) eqn:Hr3; cbn [negb].
  2:{ destruct Hc as [-> _]. apply wp_ret. cbn. rewrite Hr3. split; [done|]. right. done. }
  destruct Hc as (fd & n & -> & Hfresh & Hi2 & Hn2 & Hfile & _ & Hnames & Hfds & Hinos & Hsf & _).
  apply wp_ret. cbn [fst snd]. change (result_ok RESULT_OK) with true. cbv iota. split; [done|].
  assert (∀ base es m, on_disk (view k1) base es m → n ≠ m ∧ on_disk (view k3) base es m) as Hframe.
  { intros base es m (j & Hm & Hj & Hrest).
    assert (f_inodes (view k2) !! m = Some j) as Hj2 by (by rewrite Hv2).
    assert (n ≠ m) as Hnm' by (intros ->; congruence). split; [done|]. exists j. split.
    - rewrite Hnames, Hnm2, lookup_insert_ne; [done|]. intros Heq. rewrite Heq, Hnm2 in Hn2.
      congruence.
    - rewrite Hinos by done. done. }
  exists (segs ++ [(g_base_seq (wl_active w1), a ++ b)]), n, (Inode (zeros (wl_seg_capacity w1))
    (Some <$> zeros (wl_seg_capacity w1))).
  split_and!.
  - constructor; cbn; try done.
    + by rewrite fmap_app, Hbs.
    + apply seg_chain_snoc; try done. pose proof (sf_chain _ _ _ _ Hs) as Hcc.
      by rewrite app_nil_r in Hcc.
    + intros base es [Hin|[= -> ->]%list_elem_of_singleton]%elem_of_app.
      * destruct (Hdk base es Hin) as (m & _ & Ho). exists m.
        destruct (Hframe _ _ _ Ho). done.
      * exists ino. assert (on_disk (view k1) (g_base_seq (wl_active w1)) (a ++ b) ino) as Ho.
        { exists i1. apply fd_file_lookup in Hf as [_ Hi1]. split_and!; try done.
          - pose proof (sf_data _ _ _ _ Hs) as Hd. pose proof (sf_write _ _ _ _ Hs) as Hwr.
            rewrite app_nil_r in Hd, Hwr. by rewrite <-Hwr.
          - intros j Hj. apply (sf_stable _ _ _ _ Hs). rewrite (sf_synced _ _ _ _ Hs). done. }
        destruct (Hframe _ _ _ Ho). done.
    + rewrite Hnames. by rewrite lookup_insert_eq.
    + exists todo. rewrite Hfds, lookup_insert_ne; [done|]. intros ->.
      destruct Hfresh. congruence.
    + unfold seg_count in *. cbn. rewrite length_app. cbn. rewrite Hsb. lia.
    + apply Hfresh.
  - unfold all_records. rewrite fmap_app, concat_app. cbn. by rewrite app_nil_r.
  - cbn. lia.
  - cbn. rewrite u64_id; lia.
Qed.
End log.

Section append.
Context {K : Type} `{SysLaws K}.

(** Appending to the active segment of a log. *)
Lemma wp_append_active w segs a b ino i r payload scratch (k : K) :
  let p := default [] payload in
  wal_log (view k) w segs a b ino i → rec_ok r → w_len r = zlen p → zlen p <= WAL_MAX_PAYLOAD →
  wal_next_seq w + 1 < 2 ^ 64 →
  wp (wal_seg_append (wl_active w) r payload scratch) (λ x k',
    let '(res, s', r', scratch') := x in
    zlen scratch' = zlen scratch ∧ w_seq r' = wal_next_seq w ∧
    if result_ok res then
      r' = sealed (r <| w_seq := wal_next_seq w |>) p ∧ g_durable_seq s' = wal_durable_seq w ∧
      g_next_seq s' = wal_next_seq w + 1 ∧
      ∃ i', wal_log (view k') (w <| wl_active := s' |>) segs a (b ++ [(r', p)]) ino i'
    else s' = wl_active w ∧ ∃ i', wal_log (view k') w segs a b ino i') k.
Proof.
  intros p Hw Hok Hl Hm Hn.
  eapply wp_mono; [eapply (wp_append _ _ _ _ a b ino i); try done; apply Hw|].
  intros [[[res s'] r'] scratch'] k' (i' & Hv & Hsc & Hseq & Hx). split_and!; [done|done|].
  rewrite Hv. destruct (result_ok res).
  - destruct Hx as (-> & _ & Hs' & _ & Heq). split; [done|].
    destruct (wal_log_records _ _ _ _ _ _ _ Hw) as (? & ? & _).
    split; [by rewrite Heq|]. split; [rewrite Heq; cbn; rewrite u64_id; [done|unfold wal_next_seq in *; lia]|].
    exists i'. eapply wal_log_active; [done|done|by rewrite Heq..].
  - destruct Hx as [-> Hs']. split; [done|]. exists i'. destruct w.
    exact (wal_log_active _ _ _ _ _ _ _ _ _ _ _ Hw Hs' eq_refl eq_refl eq_refl).
Qed.

Lemma all_records_snoc segs a b e : all_records segs a (b ++ [e]) = all_records segs a b ++ [e].
Proof. unfold all_records. by rewrite <-!app_assoc. Qed.

(** A record that does not fit means the active segment has records. *)
Lemma no_fit_nonempty v w segs a b ino i n :
  wal_log v w segs a b ino i → 0 <= n < 2 ^ 32 → wal_rec_size (i32 n) ≠ 0 →
  wal_rec_size (i32 n) <= wl_seg_capacity w → wal_seg_fits (wl_active w) (i32 n) = false →
  a ++ b ≠ [].
Proof.
  intros Hw Hn Hs Hc Hf He. unfold wal_seg_fits in Hf.
  rewrite (proj2 (Z.eqb_neq _ _)) in Hf by done. zb.
  rewrite (sf_write _ _ _ _ (wg_seg _ _ _ _ _ _ _ Hw)), He, (wg_cap _ _ _ _ _ _ _ Hw) in Hf.
  cbn in Hf. lia.
Qed.

(** What the log is after an append of [r]: what it was and the record, which
    has the next sequence, or what it was. *)
Definition appended (w : wal_t) (es : list entry) (r : wal_rec_t) (p : list byte)
    (x : result_t * wal_t * wal_rec_t * list byte) (v' : fsys) : Prop :=
  let '(res, w', r', _) := x in
  if result_ok res then
    r' = sealed (r <| w_seq := wal_next_seq w |>) p ∧ is_log v' w' (es ++ [(r', p)]) ∧
    wal_next_seq w' = wal_next_seq w + 1 ∧
    wal_durable_seq w <= wal_durable_seq w' ∧
    wl_index w' = wal_index_add (wl_index w) r'
  else wl_index w' = wl_index w ∧ (is_log v' w' es ∨ g_fd (wl_active w') < 0).

Lemma wp_wal_append w es r payload scratch (k : K) :
  let p := default [] payload in
  is_log (view k) w es → rec_ok r → w_len r = zlen p → wal_next_seq w + 1 < 2 ^ 64 →
  wp (wal_append w r payload scratch) (λ x k', appended w es r p x (view k')) k.
Proof.
  intros p (segs & a & b & ino & i & Hw & <-) Hok Hl Hn. unfold wal_append.
  assert (0 <= w_len r < 2 ^ 32) as Hl32 by apply Hok.
  destruct (_ || _) eqn:Hbad.
  { apply wp_ret. cbn. split; [done|]. left. by exists segs, a, b, ino, i. }
  zb. assert (zlen p <= WAL_MAX_PAYLOAD) as Hm.
  { rewrite rec_size_cast in H1 by done. case_match; zb; [lia|done]. }
  assert (∀ w1 segs1 a1 b1 ino1 i1 k1, wal_log (view k1) w1 segs1 a1 b1 ino1 i1 →
    all_records segs1 a1 b1 = all_records segs a b → wal_next_seq w1 = wal_next_seq w →
    wal_durable_seq w <= wal_durable_seq w1 → wl_index w1 = wl_index w →
    wp ('(res, active, r0, scratch0) ← wal_seg_append (wl_active w1) r payload scratch;
        if result_ok res
        then mret (res, w1 <| wl_active := active |> <| wl_index ::= λ ix, wal_index_add ix r0 |>,
               r0, scratch0)
        else mret (res, w1 <| wl_active := active |>, r0, scratch0))
      (λ x k', appended w (all_records segs a b) r p x (view k')) k1) as Hgo.
  { intros w1 segs1 a1 b1 ino1 i1 k1 Hw1 Hall Hnx Hdu Hix.
    call (wp_append_active w1 segs1 a1 b1 ino1 i1) as [[[res s'] r'] sc] k2 (_ & _ & Hx);
      [done|done|done|done|lia|].
    destruct (result_ok res) eqn:Hres; apply wp_ret; cbn; rewrite Hres.
    - destruct Hx as (-> & Hdu' & Hnx' & i' & Hl'). rewrite Hnx in *. split_and!; try done.
      + exists segs1, a1. eexists _, ino1, i'. split; [|rewrite all_records_snoc, Hall; done].
        destruct Hl'. by constructor.
      + unfold wal_durable_seq at 2. cbn. lia.
      + by rewrite Hix.
    - destruct Hx as [-> [i' Hl']]. split; [done|]. left.
      exists segs1, a1, b1, ino1, i'. split; [|done]. by destruct w1. }
  cbv zeta. destruct (wal_seg_fits (wl_active w) (i32 (w_len r))) eqn:Hfits; cbn [negb].
  { apply wp_bind, wp_ret. cbn [negb result_ok r_code Z.eqb RESULT_OK].
    by eapply (Hgo w segs a b ino i). }
  pose proof (no_fit_nonempty _ _ _ _ _ _ _ _ Hw Hl32 ltac:(done) ltac:(done) Hfits) as Hne.
  call (wp_rollover w segs a b ino i) as [res w1] k1 [Hix Hx]; [done|done|]. cbn [fst snd] in *.
  destruct (result_ok res) eqn:Hres; cbn [negb].
  - destruct Hx as (segs' & ino' & i' & Hw1 & Hall & Hnx & Hdu).
    eapply Hgo; try done; [by rewrite <-Hall; unfold all_records; rewrite app_nil_r|].
    destruct (wal_log_records _ _ _ _ _ _ _ Hw) as (_ & Hn0 & Hd0 & _).
    rewrite length_app in Hn0. lia.
  - apply wp_ret. cbn. by rewrite Hres.
Qed.
End append.

(** Whatever the files hold: an append changes the table only at its end, and
    the index only by the record stored. *)
Section shape.
Context {K : Type} `{Sys K}.

Lemma wp_then {A B} (m : M K A) (f : A → M K B) Q k : (∀ x k', wp (f x) Q k') → wp (m ≫= f) Q k.
Proof. intros Hf. apply wp_bind. exact (Hf (m k).1 (m k).2). Qed.

Definition appends_only (w : wal_t) (x : result_t * wal_t * wal_rec_t * list byte) : Prop :=
  let '(res, w', r', _) := x in
  wl_seg_base w `prefix_of` wl_seg_base w' ∧
  wl_index w' = if result_ok res then wal_index_add (wl_index w) r' else wl_index w.

Lemma wp_rollover_shape w (k : K) :
  wp (wal_rollover w) (λ x _, wl_seg_base w `prefix_of` wl_seg_base x.2 ∧ wl_index x.2 = wl_index w) k.
Proof.
  unfold wal_rollover, wal_sync. case_match; [by apply wp_ret|]. apply wp_bind, wp_then. intros [r s] k1. apply wp_ret.
  case_match; [by apply wp_ret|]. apply wp_then. intros [r2 s2] k2. case_match; [by apply wp_ret|].
  apply wp_then. intros [r3 s3] k3. case_match; apply wp_ret; [done|]. split; [|done]. cbn. by apply prefix_app_r.
Qed.

Lemma wp_append_shape w r payload scratch (k : K) :
  wp (wal_append w r payload scratch) (λ x _, appends_only w x) k.
Proof.
  unfold wal_append, appends_only. cbv zeta. case_match; [by apply wp_ret|].
  assert (∀ w1 k1, wl_seg_base w `prefix_of` wl_seg_base w1 → wl_index w1 = wl_index w →
    wp ('(res, active, r, scratch) ← wal_seg_append (wl_active w1) r payload scratch;
        let w := w1 <| wl_active := active |> in
        if result_ok res then mret (res, w <| wl_index ::= λ ix, wal_index_add ix r |>, r, scratch)
        else mret (res, w, r, scratch)) (λ x _, appends_only w x) k1) as Hgo.
  { intros w1 k1 Hb Hi. apply wp_then. intros [[[res s] r'] sc] k2. unfold appends_only.
    destruct (result_ok res) eqn:E; apply wp_ret; rewrite E; cbn; by rewrite Hi. }
  destruct (negb _).
  - apply wp_bind. eapply wp_mono; [apply wp_rollover_shape|]. intros [res w1] k1 [Hb Hi]. cbn [fst snd] in *.
    destruct (result_ok res) eqn:E; cbn [negb]; [by apply Hgo|]. apply wp_ret. by rewrite E.
  - apply wp_bind, wp_ret. by apply Hgo.
Qed.

Lemma wp_append_at_shape w r payload scratch (k : K) :
  wp (wal_append_at w r payload scratch) (λ x _, wl_seg_base w `prefix_of` wl_seg_base x.1.1.2) k.
Proof.
  unfold wal_append_at. cbv zeta. case_match; [by apply wp_ret|]. apply wp_bind.
  eapply wp_mono; [apply wp_append_shape|]. intros [[[res w1] r'] sc] k1 [Hb _].
  repeat case_match; by apply wp_ret.
Qed.
End shape.

(** ** Retention *)

Lemma retain_drop_spec bases keep :
  bases ≠ [] →
  (retain_drop bases keep < length bases)%nat ∧
  ∀ j b, (j < retain_drop bases keep)%nat → bases !! S j = Some b → b <= keep.
Proof.
  induction bases as [|x [|y bases] IH]; intros Hn; [done|cbn; split; [lia|intros; lia]|].
  change (retain_drop (x :: y :: bases) keep)
    with (if y <=? keep then S (retain_drop (y :: bases) keep) else 0%nat).
  destruct (Z.leb_spec y keep); [|split; [cbn; lia|intros; lia]].
  destruct (IH ltac:(done)) as [Hl Hb]. split; [cbn in *; lia|].
  intros [|j] b Hj Hlk; [cbn in Hlk; by simplify_eq|]. apply (Hb j b); [lia|done].
Qed.

Lemma seg_chain_bound segs tail base es :
  seg_chain segs tail → (base, es) ∈ segs → 0 < base ∧ base < tail.
Proof.
  intros Hc. assert (next_base segs tail <= tail ∧
    ((base, es) ∈ segs → 0 < base ∧ base < tail)) as [_ ?]; [|done].
  induction segs as [|[b0 e0] segs IH]; cbn; [split; [lia|by intros ?%elem_of_nil]|].
  destruct Hc as (Hb & He & _ & Hnx & Hc). destruct (IH Hc) as [Hle Hin].
  assert (0 < zlen e0) by (destruct e0; [done|cbn; lia]). split; [lia|].
  intros [[= -> ->]|?]%elem_of_cons; [lia|by apply Hin].
Qed.

Lemma seg_chain_head base es segs tail b' es' :
  seg_chain ((base, es) :: segs) tail → (b', es') ∈ segs → base < b'.
Proof.
  revert base es. induction segs as [|[b0 e0] segs IH]; intros base es Hc Hin; [by apply elem_of_nil in Hin|].
  destruct Hc as (Hb & He & _ & Hnx & Hc). cbn in Hnx.
  assert (0 < zlen es) by (destruct es; [done|cbn; lia]).
  apply elem_of_cons in Hin as [[= -> ->]|Hin]; [lia|].
  pose proof (IH _ _ Hc Hin). lia.
Qed.

Lemma chained_seqs base es r p : chained base es → (r, p) ∈ es → base <= w_seq r < base + zlen es.
Proof.
  revert base. induction es as [|[r0 p0] es IH]; cbn; intros base Hc Hin; [by apply elem_of_nil in Hin|].
  destruct Hc as (Hs & _ & Hc). apply elem_of_cons in Hin as [[= -> ->]|Hin]; [lia|].
  specialize (IH _ Hc Hin). lia.
Qed.

(** The log without its oldest segment, once the name is gone. *)
Lemma wal_log_unlink v v' w base es segs a b ino i :
  wal_log v w ((base, es) :: segs) a b ino i → unlinkat_spec v (wal_seg_name base) 0 v' →
  wal_log v' (w <| wl_seg_base ::= drop 1 |>) segs a b ino i.
Proof.
  intros Hw [[Hf _]|(_ & gone & _ & Hv)]; [done|]. destruct (wal_log_records _ _ _ _ _ _ _ Hw) as (Hb0 & Hn & _ & Hmax).
  destruct Hw as [Hb Hc Hd Hf Hs Hn0 Hcap Hdir Hr Hfd].
  pose proof (seg_chain_bound _ _ base es Hc ltac:(by left)) as Hbb.
  assert (∀ b', base < b' < 2 ^ 64 →
    f_names v' !! cstr (wal_seg_name b') = f_names v !! cstr (wal_seg_name b')) as Hname.
  { intros b' Hb'. rewrite Hv. change (delete (cstr (wal_seg_name base)) (f_names v)
      !! cstr (wal_seg_name b') = f_names v !! cstr (wal_seg_name b')).
    rewrite lookup_delete_ne; [done|]. intros Heq. apply seg_name_inj in Heq; lia. }
  assert (f_inodes v' = f_inodes v ∧ f_fds v' = f_fds v) as [Hin Hfds] by (by rewrite Hv).
  rewrite length_app in Hn.
  constructor; cbn; try done.
  - rewrite Hb. done.
  - by destruct Hc as (_ & _ & _ & _ & ?).
  - intros b' es' Hin'. destruct (Hd b' es' ltac:(by right)) as (n & Hne & Ho). exists n.
    split; [done|]. pose proof (seg_chain_head _ _ _ _ _ _ Hc Hin').
    pose proof (seg_chain_bound _ _ b' es' Hc ltac:(by right)).
    eapply on_disk_frame; [exact Ho|apply Hname; lia|by rewrite Hin].
  - unfold fd_file in *. by rewrite Hfds, Hin.
  - rewrite Hname; [done|]. lia.
  - by rewrite Hfds.
  - unfold seg_count in *. cbn. rewrite length_drop. lia.
Qed.

Section retain.
Context {K : Type} `{SysLaws K}.

(** Removing segments leaves the descriptors alone. *)
Lemma wp_unlink_fds d bases i (k : K) :
  wp (unlink_segments d bases i) (λ _ k', f_fds (view k') = f_fds (view k)) k.
Proof.
  revert i k. induction bases as [|b bases IH]; intros i k; cbn [unlink_segments]; [by apply wp_ret|].
  call wp_os_unlinkat as r k1 Hr. destruct (result_ok r); cbn [negb]; [|apply wp_ret; by rewrite Hr].
  eapply wp_mono; [apply IH|]. intros _ k2 ->. by destruct Hr as [[? ->]|(_ & n & _ & ->)].
Qed.

Lemma wp_retain_fds w keep (k : K) :
  wp (wal_retain w keep) (λ _ k', f_fds (view k') = f_fds (view k)) k.
Proof.
  unfold wal_retain. destruct (Nat.eqb _ _); [by apply wp_ret|].
  call wp_unlink_fds as [r i] k1 E. destruct (result_ok r); cbn [negb]; [|by apply wp_ret].
  call wp_os_fsync as r2 k2 Hr2. assert (f_fds (view k2) = f_fds (view k)) as E2.
  { rewrite <-E. destruct (result_ok r2); [|by rewrite Hr2]. destruct Hr2 as [[_ ->]|[_ Hr2]]; [done|].
    destruct (f_fds (view k1) !! _) as [[ino|todo|]|]; [destruct Hr2 as (i0 & _ & ->)|..]; by rewrite ?Hr2. }
  by destruct (result_ok _); cbn [negb]; apply wp_ret.
Qed.

Lemma wp_unlink_segments n w segs a b ino i i0 (k : K) :
  wal_log (view k) w segs a b ino i → (n <= length segs)%nat →
  wp (unlink_segments (wl_dir_fd w) (take n (wl_seg_base w)) i0) (λ x k', ∃ m,
    x.2 = (i0 + m)%nat ∧ (m <= n)%nat ∧ (result_ok x.1 = true → m = n) ∧
    wal_log (view k') (w <| wl_seg_base ::= drop m |>) (drop m segs) a b ino i) k.
Proof.
  revert w segs i0 k. induction n as [|n IH]; intros w segs i0 k Hw Hn; cbn [take].
  { apply wp_ret. exists 0%nat. split_and!; [cbn; lia|lia|done|]. by destruct w. }
  destruct segs as [|[base es] segs]; [cbn in Hn; lia|].
  pose proof (wg_bases _ _ _ _ _ _ _ Hw) as Hb. cbn in Hb. rewrite Hb. cbn [take unlink_segments].
  call wp_os_unlinkat as r k' Hr. destruct (result_ok r) eqn:Hok; cbn [negb].
  2:{ apply wp_ret. exists 0%nat. cbn [fst snd]. rewrite Hok, Hr.
      split_and!; [lia|lia|done|]. destruct w. exact Hw. }
  pose proof (wal_log_unlink _ _ _ _ _ _ _ _ _ _ Hw Hr) as Hw'.
  eapply wp_mono.
  - pose proof (IH _ segs (S i0) k' Hw' ltac:(cbn in Hn; lia)) as Hgo. cbn in Hgo.
    rewrite Hb in Hgo. cbn in Hgo. rewrite drop_0 in Hgo. exact Hgo.
  - intros [r2 m2] k2 (m & Hm2 & Hle & Hok2 & Hl). exists (S m). cbn [fst snd] in *.
    split_and!; [lia|lia|intros Hr2; by rewrite Hok2|]. cbn [drop].
    replace (w <| wl_seg_base ::= drop (S m) |>)
      with (w <| wl_seg_base ::= drop 1 |> <| wl_seg_base ::= drop m |>); [done|].
    destruct w. unfold upd. cbn. f_equal. by rewrite drop_drop.
Qed.

Lemma wp_retain w keep segs a b ino i (k : K) :
  wal_log (view k) w segs a b ino i →
  wp (wal_retain w keep) (λ x k', ∃ m,
    wal_log (view k') x.1.2 (drop m segs) a b ino i ∧
    (∀ base es, (base, es) ∈ take m segs → base + zlen es <= keep) ∧
    (result_ok x.1.1 = true → x.2 = Z.of_nat m) ∧ wl_active x.1.2 = wl_active w) k.
Proof.
  intros Hw. unfold wal_retain. set (n := retain_drop (wl_seg_base w) keep).
  pose proof (wg_bases _ _ _ _ _ _ _ Hw) as Hb.
  destruct (retain_drop_spec (wl_seg_base w) keep) as [Hn Hle].
  { rewrite Hb. by destruct segs. }
  fold n in Hn, Hle. rewrite Hb, length_app, length_fmap in Hn. cbn in Hn.
  assert (∀ m, (m <= n)%nat → ∀ base es, (base, es) ∈ take m segs → base + zlen es <= keep) as Hgone.
  { intros m Hm base es (j & Hj & Hjm)%elem_of_take. 
    assert (∃ nb, wl_seg_base w !! S j = Some nb ∧ base + zlen es = nb) as (nb & Hnb & ->).
    { rewrite Hb. clear Hle Hb. pose proof (wg_chain _ _ _ _ _ _ _ Hw) as Hc.
      clear -Hc Hj. revert j Hj Hc. generalize (g_base_seq (wl_active w)).
      induction segs as [|[b0 e0] segs IH]; intros tail j Hj Hc; [done|].
      destruct Hc as (_ & _ & _ & Hnx & Hc). destruct j as [|j]; cbn in Hj.
      - simplify_eq. destruct segs as [|[b1 e1] segs]; cbn in *; eauto.
      - by apply (IH tail j Hj Hc). }
    apply (Hle j); [lia|done]. }
  destruct (Nat.eqb_spec n 0) as [Hz|Hz].
  { apply wp_ret. exists 0%nat. cbn. split_and!; try done. by intros ? ? ?%elem_of_nil. }
  call (wp_unlink_segments n w segs a b ino i) as [r j] k1 (m & Hj & Hm & Hok & Hl); [done|lia|].
  cbn [fst snd] in *. rewrite Nat.add_0_l in Hj. subst j.
  destruct (result_ok r) eqn:Hr; cbn [negb].
  2:{ apply wp_ret. exists m. cbn. rewrite Hr. split_and!; try done. by apply Hgone. }
  specialize (Hok eq_refl). subst m.
  call wp_os_fsync as r2 k2 Hx. destruct (result_ok r2) eqn:Hr2; cbn [negb]; apply wp_ret; exists n.
  2:{ cbn. rewrite Hr2, Hx. split_and!; try done. by apply Hgone. }
  cbn. split_and!; try done; [|by apply Hgone].
  destruct Hx as [[Hx _]|[_ Hx]]; [done|].
  destruct (wg_dir _ _ _ _ _ _ _ Hl) as [todo Hdir]. cbn in Hdir, Hx. rewrite Hdir in Hx.
  rewrite Hx. clear -Hl. destruct Hl. constructor; done.
Qed.
End retain.

Lemma chained_in segs tail base es : seg_chain segs tail → (base, es) ∈ segs → chained base es.
Proof.
  induction segs as [|[b0 e0] segs IH]; cbn; [by intros _ ?%elem_of_nil|].
  intros (_ & _ & ? & _ & Hc) [[= -> ->]|?]%elem_of_cons; [done|by apply IH].
Qed.

(** What is left of a log, and what went. *)
Lemma wp_retain_log {K : Type} `{SysLaws K} w es keep_from (k : K) :
  is_log (view k) w es →
  wp (wal_retain w keep_from) (λ x k', ∃ old recent,
    es = old ++ recent ∧ is_log (view k') x.1.2 recent ∧
    (∀ e, e ∈ old → w_seq e.1 < keep_from) ∧ wl_active x.1.2 = wl_active w) k.
Proof.
  intros Hlog.
  destruct Hlog as (segs & a & b & ino & i & Hw & <-).
  eapply wp_mono; [by eapply wp_retain|]. intros x k' (m & Hl & Hgone & _ & Hact).
  exists (concat (take m segs).*2), (all_records (drop m segs) a b). split_and!; [| | |done].
  - unfold all_records. rewrite <-(take_drop m segs) at 1.
    by rewrite fmap_app, concat_app, <-app_assoc.
  - by exists (drop m segs), a, b, ino, i.
  - intros [r p] Hin. apply list_elem_of_In, in_concat in Hin as (es & Hes & Hr).
    apply list_elem_of_In in Hes, Hr.
    apply list_elem_of_fmap in Hes as ([base es'] & -> & Hseg). cbn in Hr.
    pose proof (Hgone _ _ Hseg) as Hle.
    assert (chained base es') as Hc.
    { eapply chained_in; [apply Hw|]. apply elem_of_take in Hseg as (j & Hj & _).
      by eapply list_elem_of_lookup_2. }
    pose proof (chained_seqs _ _ _ _ Hc Hr). cbn. lia.
Qed.

(** ** Properties *)

Module WalProps.
Import Os.Sim.

(** A log of one empty segment of 256 bytes. *)
Definition demo : sim :=
  MkSim (Fsys {[0%nat := Inode (zeros 256) (Some <$> zeros 256)]}
    {[cstr (wal_seg_name 1) := 0%nat]} (Disk {[cstr (wal_seg_name 1) := 0%nat]} [])
    {[4 := FDir []; 5 := FFile 0]}) 6 1 [] 0 [] (Net [] []).
Definition demo_wal : wal_t := Wal 4 256 (seg_reset 5 4 1 256) [1] wal_index_init.
Definition demo_rec : wal_rec_t := Rec 0 3 1 0 7 5 1 0 0 9.

Lemma demo_log : wal_log (view demo) demo_wal [] [] [] 0 (Inode (zeros 256) (Some <$> zeros 256)).
Proof.
  constructor.
  - reflexivity.
  - exact I.
  - by intros ? ? ?%elem_of_nil.
  - by vm_compute.
  - constructor; cbn; try done; lia.
  - by vm_compute.
  - reflexivity.
  - exists []. by vm_compute.
  - by vm_compute.
  - by vm_compute.
Qed.

Lemma demo_is_log : is_log (view demo) demo_wal [].
Proof. exists [], [], []. eexists _, _. split; [apply demo_log|done]. Qed.

(** C14. A flush that reports success covers the whole log: the durable
    sequence becomes the last one assigned, every record of the log is then
    flushed, and no record is added, lost or renumbered; a flush that fails
    changes nothing. *)
Theorem sync_covers_log {K : Type} `{SysLaws K} (w : wal_t) (segs : list (Z * list entry))
    (a b : list entry) (ino : nat) (i : inode) (k : K)
    (Hlog : wal_log (view k) w segs a b ino i) :
  wp (wal_sync w) (λ x k', ∃ i', wal_next_seq x.2 = wal_next_seq w ∧
    if result_ok x.1 then wal_log (view k') x.2 segs (a ++ b) [] ino i' ∧
      wal_durable_seq x.2 = wal_next_seq w - 1
    else x.2 = w ∧ wal_log (view k') w segs a b ino i') k.
Proof.
  eapply wp_mono; [by eapply wp_wal_sync|]. intros x k' (i' & _ & _ & _ & Hn & Hx).
  exists i'. split; [exact Hn|exact Hx].
Qed.

Lemma sync_covers_log_witness :
  wp (wal_sync demo_wal) (λ x k', ∃ i', wal_next_seq x.2 = wal_next_seq demo_wal ∧
    if result_ok x.1 then wal_log (view k') x.2 [] ([] ++ []) [] 0 i' ∧
      wal_durable_seq x.2 = wal_next_seq demo_wal - 1
    else x.2 = demo_wal ∧ wal_log (view k') demo_wal [] [] [] 0 i') demo.
Proof. exact (sync_covers_log demo_wal [] [] [] 0 _ demo demo_log). Defined.

(** C19. Retention removes only what it was told it may: whether it succeeds
    or stops at an error, what is left is a log of the most recent records,
    contiguous up to the active segment, which is untouched; every record
    that went has a sequence below [keep_from]. *)
Theorem retain_keeps_recent {K : Type} `{SysLaws K} (w : wal_t) (es : list entry) (keep_from : Z)
    (k : K) (Hlog : is_log (view k) w es) :
  wp (wal_retain w keep_from) (λ x k', ∃ old recent,
    es = old ++ recent ∧ is_log (view k') x.1.2 recent ∧
    (∀ e, e ∈ old → w_seq e.1 < keep_from) ∧ wl_active x.1.2 = wl_active w) k.
Proof.
  by apply wp_retain_log.
Qed.

Lemma retain_keeps_recent_witness :
  wp (wal_retain demo_wal 9) (λ x k', ∃ old recent,
    [] = old ++ recent ∧ is_log (view k') x.1.2 recent ∧
    (∀ e, e ∈ old → w_seq e.1 < 9) ∧ wl_active x.1.2 = wl_active demo_wal) demo.
Proof. exact (retain_keeps_recent demo_wal [] 9 demo demo_is_log). Defined.

(** C36. The segment table is the directory: loading ends, and when it reports
    success the table is ascending and has exactly the bases whose segment
    name, in the form the program gives it (twenty digits and ".seg"), is in
    the directory, whatever else is there and however the kernel splits the
    listing.  The one exception is the code's: the check against overflow
    lets the names of 2^64 + 1 to 2^64 + 3 pass for segments 1 to 3. *)
Theorem table_is_directory {K : Type} `{SysLaws K} (rounds : nat) (w : wal_t)
    (scratch : list byte) (todo : list (list byte)) (k : K)
    (Hdir : f_fds (view k) !! wl_dir_fd w = Some (FDir todo))
    (Hrounds : (length todo < rounds)%nat) (Hs : zlen scratch < 2 ^ 31) :
  wp (seg_table_load rounds w scratch) (λ x _, ∃ r w' scratch', x = Some (r, w', scratch') ∧
    (result_ok r = true →
       StronglySorted Z.lt (wl_seg_base w') ∧
       ∀ b, b ∈ wl_seg_base w' ↔
         0 < b < 2 ^ 64 ∧ (seg_name b ∈ todo ∨ b <= 3 ∧ seg_name (2 ^ 64 + b) ∈ todo))) k.
Proof.
  unfold seg_table_load. call (wp_table_load rounds _ scratch [] todo) as x k' [_ Hx]; [done..|].
  destruct Hx as (r & bases & scratch' & -> & _ & Hok). apply wp_ret. cbn.
  eexists _, _, _. split; [done|]. intros Hr. cbn. rewrite Hr in Hok. rewrite Hok. split.
  - apply add_names_sorted. constructor.
  - intros b. rewrite add_names_elem, named_base, elem_of_nil. tauto.
Qed.

Lemma table_is_directory_witness :
  let d := demo <| s_view := set_fd 7 (FDir (todo_of (s_view demo))) (s_view demo) |> in
  let w := demo_wal <| wl_dir_fd := 7 |> in
  wp (seg_table_load 9 w (zeros 64)) (λ x _, ∃ r w' scratch', x = Some (r, w', scratch') ∧
    (result_ok r = true →
       StronglySorted Z.lt (wl_seg_base w') ∧
       ∀ b, b ∈ wl_seg_base w' ↔ 0 < b < 2 ^ 64 ∧
         (seg_name b ∈ todo_of (s_view demo) ∨ b <= 3 ∧ seg_name (2 ^ 64 + b) ∈ todo_of (s_view demo)))) d ∧
  (wl_seg_base <$> (snd ∘ fst <$> (seg_table_load 9 w (zeros 64) d).1)) = Some [1].
Proof.
  split; [|vm_compute; reflexivity].
  exact (table_is_directory 9 (demo_wal <| wl_dir_fd := 7 |>) (zeros 64) (todo_of (s_view demo))
    (demo <| s_view := set_fd 7 (FDir (todo_of (s_view demo))) (s_view demo) |>)
    ltac:(by vm_compute) ltac:(vm_compute; lia) ltac:(vm_compute; reflexivity)).
Defined.

End WalProps.

Module WalFindings.

(** The guard against overflow looks only at the value before the last digit:
    the name of 2^64 + 1 is taken for segment 1. *)
Lemma overflowing_name_accepted :
  seg_name_parse (bytes_of [49;56;52;52;54;55;52;52;48;55;51;55;48;57;53;53;49;54;49;55] ++ seg_suffix)
    25 = Some 1.
Proof. vm_compute. reflexivity. Qed.

End WalFindings.
