(* ===== verification/Cursor.v ===== *)
(** * Reading the log (src/wal/wal.h, wal.c: the cursor)

    A cursor stands in front of a record; seeking walks a segment's headers to
    find one, reading copies whole records out of the file. *)

From S2P Require Import Prelude Core Crc32c Fmt Msg Record Index Os Segment Wal.

Record wal_cursor_t := Cursor { cu_fd : Z; cu_seg_base : Z; cu_off : Z; cu_next_seq : Z }.
#[export] Instance eta_cursor : Eta wal_cursor_t := λ c,
  Cursor (cu_fd c) (cu_seg_base c) (cu_off c) (cu_next_seq c).

Definition wal_cursor_init : wal_cursor_t := Cursor (-1) 0 0 0.

(** The loop runs down from the last segment to the first whose base is not
    above [seq]; [None] stands for -1. *)
Definition seg_index_of (w : wal_t) (seq : Z) : option Z :=
  (fix down (n : nat) : option Z :=
     match n with
     | O => None
     | S n => match wl_seg_base w !! n with
              | Some base => if base <=? seq then Some base else down n
              | None => down n
              end
     end) (length (wl_seg_base w)).

Section cursor.
Context {K : Type} `{Sys K}.

Definition cursor_open_seg (w : wal_t) (c : wal_cursor_t) (base : Z)
    : M K (result_t * wal_cursor_t) :=
  '(r, fd) ← os_openat (wl_dir_fd w) (wal_seg_name base) (Z.lor O_RDONLY O_CLOEXEC) 0 (-1);
  if negb (result_ok r) then mret (r, c) else
  _ ← (if 0 <=? cu_fd c then os_close (cu_fd c) else mret RESULT_OK);
  mret (RESULT_OK, Cursor fd base 0 (cu_next_seq c)).

Definition wal_cursor_close (c : wal_cursor_t) : M K (result_t * wal_cursor_t) :=
  r ← (if 0 <=? cu_fd c then os_close (cu_fd c) else mret RESULT_OK);
  mret (r, wal_cursor_init).

(** The walk over the headers until [seq] is next. *)
Fixpoint seek_loop (fuel : nat) (c : wal_cursor_t) (seq : Z) : M K (result_t * wal_cursor_t) :=
  match fuel with
  | O => mret (RESULT_OK, c)
  | S fuel =>
      if seq <=? cu_next_seq c then mret (RESULT_OK, c) else
      '(r, got, scratch) ← os_pread_full (cu_fd c) WAL_REC_HEADER_SIZE (cu_off c);
      if negb (result_ok r) then mret (r, c) else
      match (if got <? WAL_REC_HEADER_SIZE then None else wal_rec_decode scratch got) with
      | None => mret (RESULT_ERR ERR_STORAGE 0, c)
      | Some rec =>
          if wal_rec_is_end rec then mret (RESULT_ERR ERR_STORAGE 0, c) else
          let size := wal_rec_size (i32 (w_len rec)) in
          if (size =? 0) || negb (w_seq rec =? cu_next_seq c)
          then mret (RESULT_ERR ERR_STORAGE 0, c) else
          seek_loop fuel (c <| cu_off ::= λ o, o + size |>
                            <| cu_next_seq ::= λ n, u64 (n + 1) |>) seq
      end
  end.

Definition wal_cursor_seek (w : wal_t) (c : wal_cursor_t) (seq scratch_len : Z)
    : M K (result_t * wal_cursor_t) :=
  if scratch_len <? WAL_REC_HEADER_SIZE then mret (RESULT_ERR ERR_INVALID 0, c) else
  if (seq <? wal_first_seq w) || (wal_next_seq w <? seq)
  then mret (RESULT_ERR ERR_INVALID 0, c) else
  match seg_index_of w seq with
  | None => mret (RESULT_ERR ERR_INVALID 0, c)
  | Some base =>
      '(r, c) ← cursor_open_seg w c base;
      if negb (result_ok r) then mret (r, c) else
      let c := c <| cu_next_seq := base |> in
      seek_loop (S (Z.to_nat (seq - base))) c seq
  end.

(** The walk over what one read brought: an error, or how far it got. *)
Fixpoint read_walk (fuel : nat) (buf : list byte) (got at_ next_seq limit_seq : Z)
    : result_t * Z * Z :=
  match fuel with
  | O => (RESULT_OK, at_, next_seq)
  | S fuel =>
      if got <=? at_ then (RESULT_OK, at_, next_seq) else
      match wal_rec_decode (drop (Z.to_nat at_) buf) (got - at_) with
      | None => (RESULT_OK, at_, next_seq)
      | Some rec =>
          if wal_rec_is_end rec then (RESULT_OK, at_, next_seq) else
          if negb (w_seq rec =? next_seq) then (RESULT_ERR ERR_STORAGE 0, at_, next_seq) else
          if limit_seq <? next_seq then (RESULT_OK, at_, next_seq) else
          let size := wal_rec_size (i32 (w_len rec)) in
          if size =? 0 then (RESULT_ERR ERR_STORAGE 0, at_, next_seq) else
          if got <? at_ + size then (RESULT_OK, at_, next_seq) else
          read_walk fuel buf got (at_ + size) (u64 (next_seq + 1)) limit_seq
      end
  end.

(** One attempt after another; [buf] is what the last read brought, cut at
    the bytes used. *)
Fixpoint read_attempts (attempts : nat) (w : wal_t) (c : wal_cursor_t) (limit_seq buf_len : Z)
    : M K (result_t * wal_cursor_t * list byte) :=
  match attempts with
  | O => mret (RESULT_OK, c, [])
  | S attempts =>
      '(r, got, buf) ← os_pread_full (cu_fd c) buf_len (cu_off c);
      if negb (result_ok r) then mret (r, c, []) else
      let '(r, used, next) := read_walk (S (Z.to_nat got)) buf got 0 (cu_next_seq c) limit_seq in
      let c := c <| cu_next_seq := next |> in
      if negb (result_ok r) then mret (r, c, []) else
      let c := c <| cu_off ::= λ o, o + used |> in
      if 0 <? used then mret (RESULT_OK, c, sub 0 used buf) else
      match seg_index_of w (cu_next_seq c) with
      | None => mret (RESULT_OK, c, [])
      | Some base =>
          if base =? cu_seg_base c then mret (RESULT_OK, c, []) else
          '(rr, c) ← cursor_open_seg w c base;
          if negb (result_ok rr) then mret (rr, c, []) else
          read_attempts attempts w c limit_seq buf_len
      end
  end.

(** Result, cursor and the bytes copied; [out_len] is their number. *)
Definition wal_cursor_read (w : wal_t) (c : wal_cursor_t) (limit_seq buf_len : Z)
    : M K (result_t * wal_cursor_t * list byte) :=
  if cu_fd c <? 0 then mret (RESULT_ERR ERR_INVALID 0, c, []) else
  if cu_next_seq c <? wal_first_seq w then mret (RESULT_ERR ERR_INVALID 0, c, []) else
  if limit_seq <? cu_next_seq c then mret (RESULT_OK, c, []) else
  read_attempts 2 w c limit_seq buf_len.

End cursor.

(** ** What a cursor stands on *)

(** Space no record has been written to. *)
Definition unwritten (tail : list byte) : Prop :=
  zlen tail < 56 ∨ wal_rec_is_end (rec_of tail) = true.

(** The segments of the log, the active one last: each file is its records
    and unwritten space, and they follow one another without a gap. *)
Record readable (v : fsys) (w : wal_t) (segs : list (Z * list entry)) : Prop := {
  rd_bases : wl_seg_base w = segs.*1;
  rd_chain : ∀ base es, (base, es) ∈ segs → 0 < base ∧ chained base es;
  rd_next : ∀ j base es base' es', segs !! j = Some (base, es) → segs !! S j = Some (base', es') →
              base + zlen es = base' ∧ es ≠ [];
  rd_room : ∀ base es, (base, es) ∈ segs → base + zlen es < 2 ^ 64;
  rd_file : ∀ base es, (base, es) ∈ segs → ∃ ino i tail,
    f_names v !! cstr (wal_seg_name base) = Some ino ∧ f_inodes v !! ino = Some i ∧
    i_data i = log_bytes es ++ tail ∧ unwritten tail }.

(** The cursor is in the segment at [j], behind [pre] and in front of
    [rest]. *)
Record standing (v : fsys) (segs : list (Z * list entry)) (c : wal_cursor_t) (j : nat)
    (pre rest : list entry) : Prop := {
  sd_seg : segs !! j = Some (cu_seg_base c, pre ++ rest);
  sd_fd : 0 <= cu_fd c;
  sd_off : cu_off c = zlen (log_bytes pre);
  sd_next : cu_next_seq c = cu_seg_base c + zlen pre;
  sd_file : ∃ tail, fd_data v (cu_fd c) = Some (log_bytes (pre ++ rest) ++ tail) ∧ unwritten tail }.

(** What the cursor has still to read. *)
Definition ahead (segs : list (Z * list entry)) (j : nat) (rest : list entry) : list entry :=
  rest ++ concat (drop (S j) segs).*2.

Lemma rec_of_take n m : 56 <= n → rec_of (take (Z.to_nat n) m) = rec_of m.
Proof.
  intros. rewrite <-rec_of_sub. rewrite <-(rec_of_sub m). f_equal.
  unfold sub. rewrite !drop_0, take_take. f_equal. lia.
Qed.

(** The walk over one read copies a run of whole records and stops only at
    the limit, at the end of what was read, or at the end of the records. *)
Lemma read_walk_spec fuel buf got at_ next limit rest tail :
  zlen buf = got → 0 <= at_ <= got → got - at_ < Z.of_nat fuel →
  drop (Z.to_nat at_) buf = take (Z.to_nat (got - at_)) (log_bytes rest ++ tail) →
  unwritten tail → chained next rest → 0 < next → next + zlen rest < 2 ^ 64 →
  ∃ run rest', rest = run ++ rest' ∧
    read_walk fuel buf got at_ next limit
      = (RESULT_OK, at_ + zlen (log_bytes run), next + zlen run) ∧
    at_ + zlen (log_bytes run) <= got ∧ (∀ e, e ∈ run → w_seq e.1 <= limit) ∧
    match rest' with
    | (r, p) :: _ => limit < w_seq r ∨ got < at_ + zlen (log_bytes run) + zlen (image r p)
    | [] => True
    end.
Proof.
  revert fuel at_ next. induction rest as [|[r p] rest IH]; intros [|fuel] at_ next Hb Ha Hf Hd Ht Hch Hn Hmax;
    try lia; cbn [read_walk].
  - exists [], []. cbn [length app log_bytes fmap list_fmap concat]. rewrite !Z.add_0_r.
    split_and!; try done; [|lia|by intros ? ?%elem_of_nil].
    destruct (Z.leb_spec got at_); [done|].
    destruct (Z.lt_ge_cases (got - at_) 56).
    { unfold wal_rec_decode, WAL_REC_HEADER_SIZE. by rewrite (proj2 (Z.ltb_lt _ _)). }
    rewrite decode_eq, Hd, rec_of_take by lia. cbn [log_bytes fmap list_fmap concat app].
    destruct Ht as [Hlt|Hend]; [|by rewrite Hend].
    apply (f_equal length) in Hd. rewrite length_drop, length_take in Hd. cbn in Hd. lia.
  - destruct Hch as (Hs & Hst & Hch). pose proof (length_image r p) as Hli.
    pose proof (align8_bounds (zlen p)).
    assert (∀ x, x = (RESULT_OK, at_, next) →
      (limit < w_seq r ∨ got < at_ + zlen (image r p)) →
      ∃ run rest', (r, p) :: rest = run ++ rest' ∧
        x = (RESULT_OK, at_ + zlen (log_bytes run), next + zlen run) ∧
        at_ + zlen (log_bytes run) <= got ∧ (∀ e, e ∈ run → w_seq e.1 <= limit) ∧
        match rest' with
        | (r, p) :: _ => limit < w_seq r ∨ got < at_ + zlen (log_bytes run) + zlen (image r p)
        | [] => True
        end) as Hstop.
    { intros x -> Hwhy. exists [], ((r, p) :: rest). cbn [length app log_bytes fmap list_fmap concat].
      rewrite !Z.add_0_r. split_and!; try done; [lia|by intros ? ?%elem_of_nil]. }
    destruct (Z.leb_spec got at_); [apply Hstop; [done|lia]|].
    destruct (Z.lt_ge_cases (got - at_) 56).
    { unfold wal_rec_decode, WAL_REC_HEADER_SIZE. rewrite (proj2 (Z.ltb_lt _ _)) by done.
      apply Hstop; [done|lia]. }
    rewrite decode_eq, Hd, rec_of_take by lia.
    change (log_bytes ((r, p) :: rest)) with (image r p ++ log_bytes rest) in *.
    rewrite <-app_assoc in *. rewrite rec_of_image by apply Hst.
    unfold wal_rec_is_end. rewrite (proj2 (Z.eqb_neq _ _)), Hs, Z.eqb_refl by lia. cbn [negb].
    destruct (Z.ltb_spec limit next); [apply Hstop; [done|lia]|].
    rewrite (image_size _ _ Hst), (proj2 (Z.eqb_neq _ _)) by lia.
    destruct (Z.ltb_spec got (at_ + zlen (image r p))); [apply Hstop; [done|lia]|].
    clear Hstop. cbn [length] in Hmax. rewrite u64_id by lia.
    destruct (IH fuel (at_ + zlen (image r p)) (next + 1)) as (run & rest' & -> & Hw & Hle & Hlim & Hwhy);
      try done; try lia.
    { rewrite Z2Nat.inj_add, <-drop_drop, Hd by lia. rewrite Nat2Z.id.
      rewrite skipn_firstn_comm, drop_app_length. f_equal. lia. }
    exists ((r, p) :: run), rest'.
    change ((r, p) :: run) with ([(r, p)] ++ run). rewrite log_bytes_app, log_bytes_one, !length_app.
    cbn [length]. split_and!; [done|rewrite Hw; f_equal; [f_equal|]; lia|lia| |].
    + intros e [->%list_elem_of_singleton|He]%elem_of_app; [cbn; lia|by apply Hlim].
    + rewrite Nat2Z.inj_add, Z.add_assoc. done.
Qed.

(** ** Where the table says a sequence is *)

Lemma seg_index_of_at w seq j b :
  wl_seg_base w !! j = Some b → b <= seq →
  (∀ j' b', (j < j')%nat → wl_seg_base w !! j' = Some b' → seq < b') →
  seg_index_of w seq = Some b.
Proof.
  intros Hj Hb Habove. unfold seg_index_of.
  assert (∀ n, (j < n)%nat → (n <= length (wl_seg_base w))%nat →
    (fix down (n : nat) : option Z :=
     match n with
     | O => None
     | S n => match wl_seg_base w !! n with
              | Some base => if base <=? seq then Some base else down n
              | None => down n
              end
     end) n = Some b) as Hdown.
  { induction n as [|n IH]; intros Hjn Hn; [lia|].
    destruct (decide (n = j)) as [->|]; [by rewrite Hj, (proj2 (Z.leb_le _ _))|].
    destruct (wl_seg_base w !! n) as [b'|] eqn:E; [|apply IH; lia].
    rewrite (proj2 (Z.leb_gt _ _)); [apply IH; lia|]. apply (Habove n); [lia|done]. }
  apply lookup_lt_Some in Hj as ?. by apply Hdown.
Qed.

Section readable_facts.
Variables (v : fsys) (w : wal_t) (segs : list (Z * list entry)).
Hypothesis R : readable v w segs.

Lemma rd_base j base es : segs !! j = Some (base, es) → wl_seg_base w !! j = Some base.
Proof. intros Hj. by rewrite (rd_bases _ _ _ R), list_lookup_fmap, Hj. Qed.

(** A later segment starts behind every record of an earlier one. *)
Lemma rd_order j j' base es base' es' :
  (j < j')%nat → segs !! j = Some (base, es) → segs !! j' = Some (base', es') →
  base + zlen es <= base' ∧ base < base'.
Proof.
  revert base' es'. induction j' as [|m IH]; intros base' es' Hlt Hj Hj'; [lia|].
  destruct (decide (j = m)) as [<-|].
  { destruct (rd_next _ _ _ R _ _ _ _ _ Hj Hj') as [<- ?]. destruct es; [done|cbn [length]]. lia. }
  destruct (lookup_lt_is_Some_2 segs m) as [[bm em] Hm].
  { apply lookup_lt_Some in Hj'. lia. }
  destruct (IH bm em ltac:(lia) Hj Hm). destruct (rd_next _ _ _ R _ _ _ _ _ Hm Hj'). lia.
Qed.

Lemma seg_index_of_in j base es seq :
  segs !! j = Some (base, es) → base <= seq →
  (seq < base + zlen es ∨ segs !! S j = None) → seg_index_of w seq = Some base.
Proof.
  intros Hj Hb Hin. apply (seg_index_of_at w seq j); [by eapply rd_base|done|].
  intros j' b' Hlt Hj'. rewrite (rd_bases _ _ _ R), list_lookup_fmap in Hj'.
  destruct (segs !! j') as [[b2 es']|] eqn:E; simplify_eq/=.
  destruct Hin as [?|Hn]; [destruct (rd_order _ _ _ _ _ _ Hlt Hj E); lia|].
  apply lookup_lt_Some in E. apply lookup_ge_None_1 in Hn. lia.
Qed.

Lemma rd_find j base es seq :
  segs !! j = Some (base, es) → base <= seq →
  ∃ j' base' es', segs !! j' = Some (base', es') ∧ base' <= seq ∧
    (seq < base' + zlen es' ∨ segs !! S j' = None).
Proof.
  remember (length segs - j)%nat as d eqn:Ed. revert j base es Ed.
  induction d as [|d IH]; intros j base es Ed Hj Hb; pose proof (lookup_lt_Some _ _ _ Hj); [lia|].
  destruct (segs !! S j) as [[b2 e2]|] eqn:E2; [|by exists j, base, es; auto].
  destruct (rd_next _ _ _ R _ _ _ _ _ Hj E2) as [Hbe _].
  destruct (Z.le_gt_cases b2 seq); [apply (IH (S j) b2 e2); [lia|done|lia]|].
  exists j, base, es. split_and!; [done|lia|left; lia].
Qed.

Lemma rd_first j base es : segs !! j = Some (base, es) → wal_first_seq w <= base.
Proof.
  intros Hj. unfold wal_first_seq. rewrite (rd_bases _ _ _ R).
  destruct j as [|j]; [destruct segs as [|[??] ?]; by simplify_eq/=|].
  destruct (lookup_lt_is_Some_2 segs 0) as [[b0 e0] H0]; [apply lookup_lt_Some in Hj; lia|].
  destruct (rd_order _ _ _ _ _ _ (Nat.lt_0_succ j) H0 Hj).
  destruct segs as [|[??] ?]; simplify_eq/=. lia.
Qed.

Lemma readable_frame v' : f_names v' = f_names v → f_inodes v' = f_inodes v → readable v' w segs.
Proof.
  intros En Ei. destruct R as [Rb Rc Rn Rr Rf]. constructor; [done..|].
  intros base es Hin. rewrite En, Ei. by apply Rf.
Qed.

End readable_facts.

Section opening.
Context {K : Type} `{SysLaws K}.

Definition fd_open (v : fsys) (c : wal_cursor_t) : Prop :=
  0 <= cu_fd c → is_Some (f_fds v !! cu_fd c).

Lemma standing_open v segs c j pre rest : standing v segs c j pre rest → fd_open v c.
Proof.
  intros [_ _ _ _ (tail & Hd & _)] _. unfold fd_data, fd_file in Hd.
  destruct (f_fds v !! cu_fd c); [by eexists|done].
Qed.

Lemma wp_cursor_open w segs c j base es (k : K) :
  readable (view k) w segs → segs !! j = Some (base, es) → fd_open (view k) c →
  wp (cursor_open_seg w c base) (λ x k',
    f_names (view k') = f_names (view k) ∧ f_inodes (view k') = f_inodes (view k) ∧
    if result_ok x.1 then standing (view k') segs (x.2 <| cu_next_seq := base |>) j [] es ∧
      cu_next_seq x.2 = cu_next_seq c
    else x.2 = c ∧ view k' = view k ∧ r_code x.1 = ERR_SYSCALL) k.
Proof.
  intros R Hj Hopen. unfold cursor_open_seg. call wp_os_openat_code as [r fd] k1 Ho.
  cbn [fst snd] in *. destruct (result_ok r) eqn:Hr; cbn [negb];
    [|apply wp_ret; cbn; rewrite Hr; destruct Ho as [-> ?]; by split_and!].
  destruct Ho as [[[Hfail _]|[_ Ho]] [Hge Hfr]]; [apply failed_neg in Hfail; lia|].
  destruct Ho as (ino & i & Hn & Hi & Hv).
  destruct (rd_file _ _ _ R base es) as (ino' & i' & tail & Hn' & Hi' & Hd & Ht);
    [by eapply list_elem_of_lookup_2|].
  simplify_eq.
  eapply (wp_call _ (λ _ k2, f_names (view k2) = f_names (view k) ∧
    f_inodes (view k2) = f_inodes (view k) ∧ f_fds (view k2) !! fd = Some (FFile ino))).
  { destruct (Z.leb_spec 0 (cu_fd c)).
    - eapply wp_mono; [apply wp_os_close|]. cbv beta. intros _ k2 ->. rewrite Hv.
      split_and!; [done..|]. cbn. rewrite lookup_delete_ne; [by rewrite lookup_insert_eq|].
      intros <-. destruct Hopen as [? Ho]; [done|congruence].
    - apply wp_ret. rewrite Hv. split_and!; [done..|]. cbn. by rewrite lookup_insert_eq. }
  cbv beta. intros _ k2 (En & Ei & Ef). apply wp_ret. cbn. split_and!; [done..| |done].
  constructor; cbn; [done|lia|done|lia|].
  exists tail. split; [|done]. unfold fd_data, fd_file. rewrite Ef, Ei, Hi. cbn. by rewrite Hd.
Qed.

(** The walk over what one read brought to a cursor. *)
Lemma walk_at v w segs c j pre rest tail limit buf_len :
  readable v w segs → standing v segs c j pre rest → 0 <= buf_len →
  unwritten tail →
  let buf := sub (cu_off c) buf_len (log_bytes (pre ++ rest) ++ tail) in
  ∃ run rest', rest = run ++ rest' ∧
    read_walk (S (Z.to_nat (zlen buf))) buf (zlen buf) 0 (cu_next_seq c) limit
      = (RESULT_OK, zlen (log_bytes run), cu_next_seq c + zlen run) ∧
    sub 0 (zlen (log_bytes run)) buf = log_bytes run ∧
    (∀ e, e ∈ run → w_seq e.1 <= limit) ∧ zlen (log_bytes run) <= buf_len ∧
    match rest' with
    | (r, p) :: _ => limit < w_seq r ∨ (run = [] → buf_len < zlen (image r p))
    | [] => True
    end.
Proof.
  intros R [Hseg Hfd Hoff Hnext _] Hb Ht.
  pose proof (list_elem_of_lookup_2 _ _ _ Hseg) as Hin.
  destruct (rd_chain _ _ _ R _ _ Hin) as [Hpos Hch]. pose proof (rd_room _ _ _ R _ _ Hin) as Hroom.
  rewrite length_app in Hroom. apply chained_app in Hch as [_ Hch].
  assert (sub (cu_off c) buf_len (log_bytes (pre ++ rest) ++ tail)
    = take (Z.to_nat buf_len) (log_bytes rest ++ tail)) as ->.
  { unfold sub. rewrite Hoff, log_bytes_app, <-app_assoc, Nat2Z.id. by rewrite drop_app_length. }
  set (buf := take _ _). cbv zeta.
  destruct (read_walk_spec (S (Z.to_nat (zlen buf))) buf (zlen buf) 0 (cu_next_seq c) limit rest tail)
    as (run & rest' & -> & Hw & Hle & Hlim & Hwhy); rewrite ?Hnext; try done; try lia.
  { rewrite drop_0, Z.sub_0_r, Nat2Z.id. unfold buf. rewrite length_take.
    by rewrite <-firstn_firstn, firstn_all. }
  exists run, rest'. rewrite Hnext in Hw. split_and!; [done|exact Hw| |done| |].
  - unfold buf, sub. rewrite drop_0, take_take, Nat2Z.id, Nat.min_l.
    + by rewrite log_bytes_app, <-app_assoc, take_app_length.
    + unfold buf in Hle. rewrite length_take in Hle. lia.
  - unfold buf in Hle. rewrite length_take in Hle. lia.
  - destruct rest' as [|[r p] rest']; [done|]. destruct Hwhy as [?|Hwhy]; [by left|right].
    intros ->. pose proof (length_log_bytes_cons r p rest'). unfold buf in Hwhy.
    rewrite length_take, length_app in Hwhy. cbn [app log_bytes fmap list_fmap concat length] in *. lia.
Qed.

(** One read: a run of records, the cursor moved behind it, or a reason why
    there is none. *)
Definition did_read (v : fsys) (segs : list (Z * list entry)) (left : list entry)
    (limit buf_len : Z) (x : result_t * wal_cursor_t * list byte) (v' : fsys) : Prop :=
  f_names v' = f_names v ∧ f_inodes v' = f_inodes v ∧
  ∃ run j pre rest, left = run ++ ahead segs j rest ∧ x.2 = log_bytes run ∧
    standing v' segs x.1.2 j pre rest ∧ (∀ e, e ∈ run → w_seq e.1 <= limit) ∧
    zlen x.2 <= buf_len ∧
    if result_ok x.1.1 then
      run = [] → match ahead segs j rest with
                 | (r, p) :: _ => limit < w_seq r ∨ buf_len < zlen (image r p)
                 | [] => True
                 end
    else run = [] ∧ r_code x.1.1 = ERR_SYSCALL.

Lemma standing_moved v segs c j pre run rest :
  standing v segs c j pre (run ++ rest) →
  standing v segs (c <| cu_next_seq := cu_next_seq c + zlen run |>
                     <| cu_off ::= λ o, o + zlen (log_bytes run) |>) j (pre ++ run) rest.
Proof.
  intros [Hseg Hfd Hoff Hnext Hd]. rewrite app_assoc in *. constructor; cbn; try done.
  - rewrite log_bytes_app, length_app. lia.
  - rewrite length_app. lia.
Qed.

(** What is next is the record with the cursor's sequence. *)
Lemma ahead_first v w segs c j pre rest e l :
  readable v w segs → standing v segs c j pre rest → ahead segs j rest = e :: l →
  w_seq e.1 = cu_next_seq c.
Proof.
  intros R [Hseg _ _ Hnext _] Hl.
  destruct (rd_chain _ _ _ R _ _ (list_elem_of_lookup_2 _ _ _ Hseg)) as [_ [_ Hch]%chained_app].
  destruct rest as [|[r p] rest]; [|unfold ahead in Hl; simplify_eq/=; destruct Hch; lia].
  unfold ahead in Hl. cbn in Hl. destruct (segs !! S j) as [[base es]|] eqn:E.
  2: { apply lookup_ge_None_1 in E. by rewrite drop_ge in Hl. }
  rewrite (drop_S _ _ _ E) in Hl. cbn in Hl.
  destruct (rd_next _ _ _ R _ _ _ _ _ Hseg E) as [Hb _]. rewrite app_nil_r in Hb.
  destruct (rd_chain _ _ _ R _ _ (list_elem_of_lookup_2 _ _ _ E)) as [_ Hch'].
  destruct es as [|[r p] es]; [|simplify_eq/=; destruct Hch'; lia].
  destruct (segs !! S (S j)) as [[b2 es2]|] eqn:E2.
  - by destruct (rd_next _ _ _ R _ _ _ _ _ E E2).
  - apply lookup_ge_None_1 in E2. by rewrite drop_ge in Hl.
Qed.

Lemma stays_here v w segs c j pre rest :
  readable v w segs → standing v segs c j pre rest → (rest ≠ [] ∨ segs !! S j = None) →
  seg_index_of w (cu_next_seq c) = Some (cu_seg_base c).
Proof.
  intros R [Hseg _ _ Hnext _] Hr. eapply seg_index_of_in; [done..|lia|].
  rewrite length_app. destruct Hr as [Hr|?]; [left|by right]. destruct rest; [done|cbn [length]; lia].
Qed.

(** One attempt, up to the move to the next segment. *)
Lemma wp_attempt n w segs c j pre rest limit buf_len (k : K) :
  readable (view k) w segs → standing (view k) segs c j pre rest → 0 <= buf_len < 2 ^ 31 →
  let Q x (k' : K) := did_read (view k) segs (ahead segs j rest) limit buf_len x (view k') in
  (∀ es k1, view k1 = view k → rest = [] → segs !! S j = Some (cu_next_seq c, es) →
     wp ('(rr, c) ← cursor_open_seg w c (cu_next_seq c);
         if negb (result_ok rr) then mret (rr, c, []) else read_attempts n w c limit buf_len) Q k1) →
  wp (read_attempts (S n) w c limit buf_len) Q k.
Proof.
  intros R S Hlen Q Hmove. cbn [read_attempts]. pose proof S as [Hseg Hfd Hoff Hnext (tail & Hd & Ht)].
  eapply wp_call; [apply wp_os_pread_full; [|exact Hlen|exact Hd]; lia|].
  cbv beta. intros [[r got] buf] k1 [Hv Hp]. cbn [fst snd] in *.
  destruct (result_ok r) eqn:Hr; cbn [negb].
  2: { apply wp_ret. unfold Q, did_read. rewrite Hv. cbn. rewrite Hr. split_and!; [done..|].
    exists [], j, pre, rest. split_and!; try done; [by intros ? ?%elem_of_nil|cbn; lia]. }
  destruct Hp as [-> ->].
  destruct (walk_at _ _ _ _ _ _ _ tail limit buf_len R S ltac:(lia) Ht)
    as (run & rest' & Erest & -> & Hsub & Hlim & Hle & Hwhy).
  subst rest. apply standing_moved in S as S'. rewrite <-Hv in S'. cbn [result_ok negb].
  destruct (Z.ltb_spec 0 (zlen (log_bytes run))) as [Hused|Hused].
  { apply wp_ret. unfold Q, did_read. rewrite Hv, Hsub in *. cbn [fst snd]. split_and!; [done..|].
    exists run, j, (pre ++ run), rest'. unfold ahead. rewrite <-app_assoc. split_and!; try done.
    cbn. intros ->. cbn in Hused. lia. }
  assert (run = []) as -> by (apply log_bytes_nonempty; lia). clear Hused Hsub.
  assert (c <|cu_next_seq := cu_next_seq c + zlen (@nil entry)|>
            <|cu_off ::= λ o, o + zlen (log_bytes [])|> = c)
    as Hc by (destruct c; unfold upd; cbn; by rewrite !Z.add_0_r).
  rewrite Hc in *. rewrite app_nil_r in *. cbn [app result_ok r_code negb RESULT_OK Z.eqb] in *.
  destruct (decide (rest' ≠ [] ∨ segs !! Datatypes.S j = None)) as [Hstay|Hgo].
  - rewrite (stays_here _ _ _ _ _ _ _ R S Hstay), Z.eqb_refl. apply wp_ret.
    unfold Q, did_read. rewrite Hv in *. split_and!; [done..|].
    exists [], j, pre, rest'. split_and!; try done. cbn. intros _.
    destruct rest' as [|[r' p] rest'].
    + destruct Hstay as [?|Hlast]; [done|]. unfold ahead. cbn.
      by rewrite drop_ge by (by apply lookup_ge_None_1).
    + cbn. destruct Hwhy as [?|Hwhy]; [by left|right; auto].
  - destruct rest' as [|e' rest']; [|by destruct Hgo; left].
    destruct (segs !! Datatypes.S j) as [[base es]|] eqn:Enext; [|by destruct Hgo; right].
    rewrite app_nil_r in *. destruct (rd_next _ _ _ R _ _ _ _ _ Hseg Enext) as [Hb Hne].
    pose proof (rd_order _ _ _ R j (Datatypes.S j) _ _ _ _ ltac:(lia) Hseg Enext) as [_ Hlt].
    assert (cu_next_seq c = base) as Hcb by lia.
    rewrite (seg_index_of_at w _ (Datatypes.S j) base);
      [|by eapply rd_base|lia|].
    + rewrite (proj2 (Z.eqb_neq _ _)) by lia. rewrite <-Hcb in *.
      by eapply Hmove.
    + intros j' b' Hlt' Hj'. rewrite (rd_bases _ _ _ R), list_lookup_fmap in Hj'.
      destruct (segs !! j') as [[b2 es']|] eqn:E; simplify_eq/=.
      pose proof (rd_order _ _ _ R _ _ _ _ _ _ Hlt' Enext E). lia.
Qed.

Lemma wp_read_attempts n w segs c j pre rest limit buf_len (k : K) :
  readable (view k) w segs → standing (view k) segs c j pre rest → 0 <= buf_len < 2 ^ 31 →
  (n ≠ 0%nat ∨ rest ≠ [] ∨ segs !! S j = None) →
  wp (read_attempts (S n) w c limit buf_len) (λ x k',
    did_read (view k) segs (ahead segs j rest) limit buf_len x (view k')) k.
Proof.
  revert c j pre rest k. induction n as [|n IH]; intros c j pre rest k R S Hlen Hn.
  all: apply (wp_attempt _ w segs c j pre rest limit buf_len k R S Hlen).
  all: intros es k1 Hv -> Hnext.
  { destruct Hn as [?|[?|?]]; [done..|congruence]. }
  rewrite <-Hv in *. apply standing_open in S as Hopen.
  call (wp_cursor_open w segs c _ _ _ _ R Hnext Hopen) as [rr c1] k2 (En & Ei & Hx).
  cbn [fst snd] in *. destruct (result_ok rr) eqn:Hrr; cbn [negb].
  - destruct Hx as [S1 Heq]. rewrite <-Heq in S1.
    assert (c1 <| cu_next_seq := cu_next_seq c1 |> = c1) as E1 by (by destruct c1). rewrite E1 in S1.
    assert (ahead segs j [] = ahead segs (Datatypes.S j) es) as ->.
    { unfold ahead. cbn [app]. by rewrite (drop_S _ _ _ Hnext). }
    eapply wp_mono; [eapply IH; try done; [by apply (readable_frame _ _ _ R)|]|].
    + destruct (segs !! Datatypes.S (Datatypes.S j)) as [[b2 e2]|] eqn:E2; [|by right; right].
      right. left. by eapply (rd_next _ _ _ R).
    + intros x k' (En' & Ei' & Hx). unfold did_read. rewrite En', Ei', En, Ei. done.
  - destruct Hx as (-> & Hv2 & Hc). apply wp_ret. unfold did_read. rewrite Hv2. cbn. rewrite Hrr.
    split_and!; [done..|]. exists [], j, pre, []. split_and!; try done; [by intros ? ?%elem_of_nil|cbn; lia].
Qed.

Lemma wp_cursor_read w segs c j pre rest limit buf_len (k : K) :
  readable (view k) w segs → standing (view k) segs c j pre rest → 0 <= buf_len < 2 ^ 31 →
  wp (wal_cursor_read w c limit buf_len) (λ x k',
    did_read (view k) segs (ahead segs j rest) limit buf_len x (view k')) k.
Proof.
  intros R S Hlen. pose proof S as [Hseg Hfd _ Hnext _]. unfold wal_cursor_read.
  pose proof (rd_first _ _ _ R _ _ _ Hseg).
  rewrite !(proj2 (Z.ltb_ge _ _)) by lia. destruct (Z.ltb_spec limit (cu_next_seq c)).
  2: { eapply wp_read_attempts; try done. by left. }
  apply wp_ret. unfold did_read. split_and!; [done..|]. exists [], j, pre, rest.
  split_and!; try done; [by intros ? ?%elem_of_nil|cbn; lia|]. cbn. intros _.
  destruct (ahead segs j rest) as [|[r p] l] eqn:Ea; [done|left].
  rewrite <-(ahead_first _ _ _ _ _ _ _ _ _ R S Ea) in *. cbn in *. lia.
Qed.

Lemma wp_seek_loop w segs j fuel c pre rest seq (k : K) :
  readable (view k) w segs → standing (view k) segs c j pre rest →
  cu_next_seq c <= seq <= cu_next_seq c + zlen rest → seq - cu_next_seq c < Z.of_nat fuel →
  wp (seek_loop fuel c seq) (λ x k', view k' = view k ∧
    (∃ pre rest, standing (view k) segs x.2 j pre rest) ∧
    if result_ok x.1 then cu_next_seq x.2 = seq else r_code x.1 = ERR_SYSCALL) k.
Proof.
  revert c pre rest k. induction fuel as [|fuel IH]; intros c pre rest k R S Hs Hf; [lia|].
  cbn [seek_loop]. destruct (Z.leb_spec seq (cu_next_seq c)).
  { apply wp_ret. cbn. split_and!; [done|by exists pre, rest|lia]. }
  pose proof S as [Hseg Hfd Hoff Hnext (tail & Hd & Ht)].
  eapply wp_call; [apply wp_os_pread_full; [| |exact Hd]; unfold WAL_REC_HEADER_SIZE; lia|].
  cbv beta. intros [[r got] scr] k1 [Hv Hp]. cbn [fst snd] in *.
  destruct (result_ok r) eqn:Hr; cbn [negb].
  2: { apply wp_ret. cbn. rewrite Hr. split_and!; [done|by exists pre, rest|done]. }
  destruct rest as [|[rec p] rest]; [cbn in Hs; lia|].
  pose proof (list_elem_of_lookup_2 _ _ _ Hseg) as Hin.
  destruct (rd_chain _ _ _ R _ _ Hin) as [Hpos Hch]. pose proof (rd_room _ _ _ R _ _ Hin) as Hroom.
  rewrite length_app in Hroom. apply chained_app in Hch as [_ (Hseq & Hst & _)].
  destruct Hp as [-> ->]. pose proof (length_image rec p). pose proof (align8_bounds (zlen p)).
  assert (sub (cu_off c) WAL_REC_HEADER_SIZE (log_bytes (pre ++ (rec, p) :: rest) ++ tail)
    = sub 0 56 (image rec p ++ log_bytes rest ++ tail)) as ->.
  { unfold sub. rewrite Hoff, log_bytes_app, <-app_assoc, Nat2Z.id, drop_app_length.
    change (log_bytes ((rec, p) :: rest)) with (image rec p ++ log_bytes rest). by rewrite <-app_assoc. }
  assert (zlen (sub 0 56 (image rec p ++ log_bytes rest ++ tail)) = 56) as ->.
  { rewrite length_sub, length_app. lia. }
  rewrite decode_eq, rec_of_sub, rec_of_image by (lia || apply Hst).
  change (56 <? WAL_REC_HEADER_SIZE) with false. cbv iota zeta. unfold wal_rec_is_end.
  cbn [length] in *. rewrite (image_size _ _ Hst), Hseq, <-Hnext, !(proj2 (Z.eqb_neq _ _)), Z.eqb_refl by lia.
  cbn [negb orb]. pose proof (standing_moved _ _ _ _ pre [(rec, p)] rest S) as S'.
  assert (c <| cu_off ::= λ o, o + zlen (image rec p) |> <| cu_next_seq ::= λ n, u64 (n + 1) |>
    = c <| cu_next_seq := cu_next_seq c + zlen [(rec, p)] |>
        <| cu_off ::= λ o, o + zlen (log_bytes [(rec, p)]) |>) as ->.
  { rewrite log_bytes_one. destruct c. unfold upd. cbn in *. by rewrite u64_id by lia. }
  rewrite <-Hv in *.
  eapply wp_mono; [eapply (IH _ (pre ++ [(rec, p)]) rest); [done|done|cbn; lia..]|].
  intros x k' (Hv' & Hst' & Hx). by rewrite Hv'.
Qed.

(** Seeking leaves the cursor on the sequence, or fails as a system call
    does. *)
Lemma wp_cursor_seek w segs c seq slen (k : K) :
  readable (view k) w segs → segs ≠ [] → fd_open (view k) c → WAL_REC_HEADER_SIZE <= slen →
  (∀ base es, last segs = Some (base, es) → wal_next_seq w = base + zlen es) →
  wal_first_seq w <= seq <= wal_next_seq w →
  wp (wal_cursor_seek w c seq slen) (λ x k',
    f_names (view k') = f_names (view k) ∧ f_inodes (view k') = f_inodes (view k) ∧
    if result_ok x.1 then
      ∃ j pre rest, standing (view k') segs x.2 j pre rest ∧ cu_next_seq x.2 = seq
    else r_code x.1 = ERR_SYSCALL) k.
Proof.
  intros R Hne Hopen Hs Hlast Hseq. unfold wal_cursor_seek.
  rewrite !(proj2 (Z.ltb_ge _ _)) by lia. cbn [orb].
  destruct segs as [|[b0 e0] segs'] eqn:Esegs; [done|]. rewrite <-Esegs in *. clear Hne.
  assert (segs !! 0%nat = Some (b0, e0)) as Hzero by (by rewrite Esegs).
  destruct (rd_find _ _ _ R 0 b0 e0 seq Hzero) as (j & base & es & Hj & Hb & Hin).
  { unfold wal_first_seq in Hseq. rewrite (rd_bases _ _ _ R), Esegs in Hseq. cbn in Hseq. lia. }
  rewrite (seg_index_of_in _ _ _ R _ _ _ _ Hj Hb Hin).
  assert (seq <= base + zlen es) as Hmax.
  { destruct Hin as [?|Hend]; [lia|]. rewrite <-(Hlast base es); [lia|].
    rewrite last_lookup, <-Hj. f_equal. apply lookup_lt_Some in Hj. apply lookup_ge_None_1 in Hend. lia. }
  call (wp_cursor_open w segs c j base es _ R Hj Hopen) as [r c1] k1 (En & Ei & Hx). cbn [fst snd] in *.
  destruct (result_ok r) eqn:Hr; cbn [negb].
  2: { apply wp_ret. cbn. rewrite Hr. destruct Hx as (_ & _ & ?). done. }
  destruct Hx as [S _].
  eapply wp_mono; [eapply (wp_seek_loop w segs j _ _ [] es seq);
    [by apply (readable_frame _ _ _ R)|exact S|cbn; lia..]|].
  cbv beta. intros [r' c'] k' (Hv' & (pre & rest & S') & Hx). cbn [fst snd] in *.
  rewrite Hv'. split_and!; [done..|]. case_match; [|done]. by exists j, pre, rest.
Qed.
End opening.

(** ** What a cursor does with descriptors

    Whatever the log's files hold: a cursor has at most one, and no call on
    it touches another. *)

Definition file_at (v : fsys) (fd : Z) : Prop := 0 <= fd → ∃ ino, f_fds v !! fd = Some (FFile ino).

Record cursor_moves (v v' : fsys) (c c' : wal_cursor_t) : Prop := {
  cm_files : f_names v' = f_names v ∧ f_disk v' = f_disk v ∧ f_inodes v' = f_inodes v;
  cm_others : ∀ fd d, 0 <= fd → fd ≠ cu_fd c → f_fds v !! fd = Some d → f_fds v' !! fd = Some d;
  cm_fd : cu_fd c' = cu_fd c ∨ cu_fd c' < 0 ∨ f_fds v !! cu_fd c' = None;
  cm_file : file_at v (cu_fd c) → file_at v' (cu_fd c') }.

Lemma cursor_moves_same v c c' : cu_fd c' = cu_fd c → cursor_moves v v c c'.
Proof. intros E. constructor; rewrite ?E; auto. Qed.

Lemma cursor_moves_trans v1 v2 v3 c1 c2 c3 :
  cursor_moves v1 v2 c1 c2 → cursor_moves v2 v3 c2 c3 → cursor_moves v1 v3 c1 c3.
Proof.
  intros [(N1 & K1 & I1) O1 A1 F1] [(N2 & K2 & I2) O2 A2 F2].
  constructor; [split_and!; congruence| | |auto].
  - intros fd d H0 Hne Hfd. apply O2; [done| |by apply O1]. intros ->.
    destruct A1 as [?|[?|?]]; [congruence|lia|congruence].
  - destruct A2 as [->|[?|Hn]]; [done|auto|].
    destruct (decide (cu_fd c3 = cu_fd c1)); [by left|right].
    destruct (Z.lt_ge_cases (cu_fd c3) 0); [by left|right].
    destruct (f_fds v1 !! cu_fd c3) as [d|] eqn:E; [|done]. by rewrite (O1 _ d) in Hn.
Qed.

Section fds.
Context {K : Type} `{SysLaws K}.

Lemma wp_pread_same fd count off (k : K) :
  wp (os_pread_full fd count off) (λ _ k', view k' = view k) k.
Proof.
  unfold os_pread_full. generalize (@nil byte). generalize (Z.to_nat count). intros fuel acc.
  revert acc k. induction fuel as [|fuel IH]; intros acc k; cbn [pread_loop]; [by apply wp_ret|].
  destruct (_ <=? _); [by apply wp_ret|].
  eapply (wp_call _ (λ _ k', view k' = view k)).
  { unfold os_pread. destruct (_ || _) eqn:Hb; [by apply wp_ret|]. zb.
    call law_pread as [r bs] k1 [Hv _]; [lia..|]. by apply wp_ret. }
  cbv beta. intros [[r n] bs] k1 Hv. destruct (negb _); [by apply wp_ret|].
  destruct (_ =? _); [by apply wp_ret|]. eapply wp_mono; [apply IH|]. cbv beta. congruence.
Qed.

Lemma moves_open_seg w c base (k : K) :
  wp (cursor_open_seg w c base) (λ x k', cursor_moves (view k) (view k') c x.2) k.
Proof.
  unfold cursor_open_seg. call wp_os_openat as [r fd] k1 Ho. cbn [fst snd] in Ho.
  destruct (result_ok r); cbn [negb]; [|apply wp_ret; rewrite Ho; by apply cursor_moves_same].
  destruct Ho as [[[Hf _]|[_ (ino & i & _ & _ & Hv)]] [Hfd Hfr]]; [apply failed_neg in Hf; lia|].
  eapply (wp_call _ (λ _ k2, view k2 = if 0 <=? cu_fd c then del_fd (cu_fd c) (view k1) else view k1)).
  { destruct (0 <=? cu_fd c); [apply wp_os_close|by apply wp_ret]. }
  cbv beta. intros _ k2 Hv2. apply wp_ret. cbn [snd].
  assert (∀ d, f_fds (view k) !! cu_fd c = Some d → cu_fd c ≠ fd) as Hne by congruence.
  assert (f_fds (view k2) = if 0 <=? cu_fd c then delete (cu_fd c) (<[fd := FFile ino]> (f_fds (view k)))
    else <[fd := FFile ino]> (f_fds (view k))) as Ef.
  { rewrite Hv2, Hv. by destruct (0 <=? cu_fd c). }
  constructor; cbn [cu_fd]; rewrite ?Ef.
  - rewrite Hv2, Hv. by destruct (0 <=? cu_fd c).
  - intros fd' d _ Hn Hd. destruct (0 <=? cu_fd c); rewrite ?lookup_delete_ne, lookup_insert_ne; congruence.
  - by right; right.
  - intros Hfile _. exists ino. rewrite Ef. destruct (Z.leb_spec 0 (cu_fd c)); [|by rewrite lookup_insert_eq].
    destruct Hfile as [? Hc]; [done|].
    rewrite lookup_delete_ne, lookup_insert_eq; [done|by eapply Hne].
Qed.

Lemma moves_seek_loop fuel c seq (k : K) :
  wp (seek_loop fuel c seq) (λ x k', view k' = view k ∧ cu_fd x.2 = cu_fd c) k.
Proof.
  revert c k. induction fuel as [|fuel IH]; intros c k; cbn [seek_loop]; [by apply wp_ret|].
  destruct (_ <=? _); [by apply wp_ret|]. call wp_pread_same as [[r got] bs] k1 Hv.
  destruct (negb _); [by apply wp_ret|].
  destruct (if got <? _ then None else _) as [rec|]; [|by apply wp_ret].
  destruct (wal_rec_is_end rec); [by apply wp_ret|]. cbv zeta.
  destruct (_ || _); [by apply wp_ret|].
  eapply wp_mono; [apply IH|]. cbv beta. intros x k2 [-> ->]. by split.
Qed.

Lemma moves_seek w c seq n (k : K) :
  wp (wal_cursor_seek w c seq n) (λ x k', cursor_moves (view k) (view k') c x.2) k.
Proof.
  unfold wal_cursor_seek. do 2 (destruct (_ : bool); [apply wp_ret; by apply cursor_moves_same|]).
  destruct (seg_index_of w seq) as [base|]; [|apply wp_ret; by apply cursor_moves_same].
  call moves_open_seg as [r c1] k1 Hm. cbn [snd] in Hm. destruct (negb _); [by apply wp_ret|].
  eapply wp_mono; [apply moves_seek_loop|]. cbv beta. intros x k2 [Hv Hfd].
  eapply cursor_moves_trans; [exact Hm|]. rewrite Hv. by apply cursor_moves_same.
Qed.

Lemma moves_read_attempts n w c limit len (k : K) :
  wp (read_attempts n w c limit len) (λ x k', cursor_moves (view k) (view k') c x.1.2) k.
Proof.
  revert c k. induction n as [|n IH]; intros c k; cbn [read_attempts].
  { apply wp_ret. by apply cursor_moves_same. }
  call wp_pread_same as [[r got] buf] k1 Hv. rewrite <-Hv.
  assert (∀ c', cu_fd c' = cu_fd c → cursor_moves (view k1) (view k1) c c') as Hsame
    by (intros; by apply cursor_moves_same).
  destruct (negb _); [apply wp_ret; by apply Hsame|].
  destruct (read_walk _ _ _ _ _ _) as [[r1 used] next]. cbv zeta.
  destruct (negb _); [apply wp_ret; by apply Hsame|].
  destruct (_ <? _); [apply wp_ret; by apply Hsame|].
  destruct (seg_index_of _ _) as [base|]; [|apply wp_ret; by apply Hsame].
  destruct (_ =? _); [apply wp_ret; by apply Hsame|].
  call moves_open_seg as [rr c1] k2 Hm. cbn [snd] in Hm.
  assert (cursor_moves (view k1) (view k2) c c1) as Hm'.
  { eapply cursor_moves_trans; [|exact Hm]. by apply Hsame. }
  destruct (negb _); [by apply wp_ret|].
  eapply wp_mono; [apply IH|]. cbv beta. intros x k3 Hm3. by eapply cursor_moves_trans.
Qed.

Lemma moves_read w c limit len (k : K) :
  wp (wal_cursor_read w c limit len) (λ x k', cursor_moves (view k) (view k') c x.1.2) k.
Proof.
  unfold wal_cursor_read.
  do 3 (destruct (_ : bool); [apply wp_ret; by apply cursor_moves_same|]). apply moves_read_attempts.
Qed.

Lemma wp_cursor_close c (k : K) :
  wp (wal_cursor_close c) (λ x k', x.2 = wal_cursor_init ∧
    view k' = if 0 <=? cu_fd c then del_fd (cu_fd c) (view k) else view k) k.
Proof.
  unfold wal_cursor_close. eapply (wp_call _ (λ _ k2, view k2 =
    if 0 <=? cu_fd c then del_fd (cu_fd c) (view k) else view k)).
  { destruct (0 <=? cu_fd c); [apply wp_os_close|by apply wp_ret]. }
  cbv beta. intros r k2 Hv. by apply wp_ret.
Qed.
End fds.

Module CursorProps.
Import Os.Sim.

(** Two segments, the first of one record, the second of one record and free
    space. *)
Definition demo_a : entry := (sealed (Rec 0 3 1 1 7 5 1 0 0 9) (bytes_of [1; 2; 3]), bytes_of [1; 2; 3]).
Definition demo_b : entry := (sealed (Rec 0 2 1 2 7 6 1 0 0 9) (bytes_of [4; 5]), bytes_of [4; 5]).
Definition demo_segs : list (Z * list entry) := [(1, [demo_a]); (2, [demo_b])].
Definition demo_file (es : list entry) : inode :=
  let m := log_bytes es ++ zeros 64 in Inode m (Some <$> m).
Definition demo_names : gmap (list byte) nat :=
  {[cstr (wal_seg_name 1) := 0%nat; cstr (wal_seg_name 2) := 1%nat]}.
Definition demo : sim :=
  MkSim (Fsys {[0%nat := demo_file [demo_a]; 1%nat := demo_file [demo_b]]}
    demo_names (Disk demo_names []) {[4 := FDir []; 5 := FFile 1; 6 := FFile 0]}) 7 2 [] 0 [] (Net [] []).
Definition demo_wal : wal_t :=
  Wal 4 256 ((seg_reset 5 4 2 256) <| g_next_seq := 3 |>) [1; 2] wal_index_init.
Definition demo_cursor : wal_cursor_t := Cursor 6 1 (zlen (log_bytes [demo_a])) 2.

Lemma demo_unwritten : unwritten (zeros 64).
Proof. right. by vm_compute. Qed.

Lemma demo_readable : readable (view demo) demo_wal demo_segs.
Proof.
  assert (∀ base es, (base, es) ∈ demo_segs → base = 1 ∧ es = [demo_a] ∨ base = 2 ∧ es = [demo_b]) as Hin.
  { intros base es [E|[E|[]%elem_of_nil]%elem_of_cons]%elem_of_cons; simplify_eq; auto. }
  constructor.
  - done.
  - intros base es [[-> ->]|[-> ->]]%Hin; (split; [lia|]); unfold demo_a, demo_b; cbn [chained];
      (split; [done|split; [|done]]); (apply sealed_stored;
        [unfold rec_ok; cbn; lia|done|by vm_compute]).
  - intros j base es base' es' Hj Hj'. destruct j as [|[|]]; by simplify_eq/=.
  - intros base es [[-> ->]|[-> ->]]%Hin; cbn; lia.
  - intros base es [[-> ->]|[-> ->]]%Hin.
    + exists 0%nat, (demo_file [demo_a]), (zeros 64). split_and!; [by vm_compute..|apply demo_unwritten].
    + exists 1%nat, (demo_file [demo_b]), (zeros 64). split_and!; [by vm_compute..|apply demo_unwritten].
Qed.

Lemma demo_standing : standing (view demo) demo_segs demo_cursor 0 [demo_a] [].
Proof.
  constructor; [by vm_compute..|]. exists (zeros 64). split; [by vm_compute|apply demo_unwritten].
Qed.

(** C16. Reading through a cursor is iterating over the log: the bytes handed
    out are the images of the next records in front of the cursor, whole and
    in sequence, across segment boundaries, none above the limit, and the
    cursor then stands behind exactly these; nothing is handed out only when
    the log ends, the limit is reached or the next record does not fit the
    buffer. On a sound log it fails only as a system call does, and then has
    skipped nothing. *)
Theorem cursor_read_iterates {K : Type} `{SysLaws K} (w : wal_t) (segs : list (Z * list entry))
    (c : wal_cursor_t) (j : nat) (pre rest : list entry) (limit buf_len : Z) (k : K)
    (R : readable (view k) w segs) (S : standing (view k) segs c j pre rest)
    (Hlen : 0 <= buf_len < 2 ^ 31) :
  wp (wal_cursor_read w c limit buf_len) (λ x k',
    did_read (view k) segs (ahead segs j rest) limit buf_len x (view k')) k.
Proof. by apply (wp_cursor_read w segs c j pre). Qed.

Lemma cursor_read_iterates_witness :
  wp (wal_cursor_read demo_wal demo_cursor 9 4096) (λ x k',
    did_read (view demo) demo_segs (ahead demo_segs 0 []) 9 4096 x (view k')) demo ∧
  (wal_cursor_read demo_wal demo_cursor 9 4096 demo).1.2 = log_bytes [demo_b].
Proof.
  split; [|vm_compute; reflexivity].
  exact (cursor_read_iterates demo_wal demo_segs demo_cursor 0 [demo_a] [] 9 4096 demo
    demo_readable demo_standing ltac:(lia)).
Defined.

(** C39. Seeking to any sequence of the log, or to the one after its last,
    opens the right segment and leaves the cursor in front of the record with
    that sequence; on a sound log it fails only as a system call does, and it
    walks no further than the sequence asked for. *)
Theorem cursor_seek_stands_at {K : Type} `{SysLaws K} (w : wal_t) (segs : list (Z * list entry))
    (c : wal_cursor_t) (seq slen : Z) (k : K)
    (R : readable (view k) w segs) (Hne : segs ≠ []) (Hopen : fd_open (view k) c)
    (Hs : WAL_REC_HEADER_SIZE <= slen)
    (Hlast : ∀ base es, last segs = Some (base, es) → wal_next_seq w = base + zlen es)
    (Hseq : wal_first_seq w <= seq <= wal_next_seq w) :
  wp (wal_cursor_seek w c seq slen) (λ x k',
    f_names (view k') = f_names (view k) ∧ f_inodes (view k') = f_inodes (view k) ∧
    if result_ok x.1 then
      ∃ j pre rest, standing (view k') segs x.2 j pre rest ∧ cu_next_seq x.2 = seq
    else r_code x.1 = ERR_SYSCALL) k.
Proof. by apply wp_cursor_seek. Qed.

Lemma cursor_seek_stands_at_witness :
  wp (wal_cursor_seek demo_wal wal_cursor_init 2 64) (λ x k',
    f_names (view k') = f_names (view demo) ∧ f_inodes (view k') = f_inodes (view demo) ∧
    if result_ok x.1 then
      ∃ j pre rest, standing (view k') demo_segs x.2 j pre rest ∧ cu_next_seq x.2 = 2
    else r_code x.1 = ERR_SYSCALL) demo ∧
  (wal_cursor_seek demo_wal wal_cursor_init 2 64 demo).1.2 = Cursor 7 2 0 2.
Proof.
  split; [|vm_compute; reflexivity].
  refine (cursor_seek_stands_at demo_wal demo_segs wal_cursor_init 2 64 demo demo_readable
    ltac:(done) _ ltac:(done) _ ltac:(vm_compute; split; discriminate)).
  - by intros ?.
  - intros base es [= <- <-]. reflexivity.
Defined.

End CursorProps.
