(* ===== verification/Reopen.v ===== *)
(** * Opening a log that is on disk

    What [wal_open] makes of a directory that holds a log: the table is the
    chain of its segments, every record of it passes once through the scan's
    callback, and the open log is one that can be appended to. *)

From S2P Require Import Prelude Core Crc32c Fmt Msg Conn Record Index Os Session Segment Wal Cursor.

(** ** What a log looks like to a process that starts *)

(** A segment's file, flushed: its records, and where a scan of it stops. *)
Definition seg_at (v : fsys) (cap slen : Z) (base : Z) (es : list entry) (why : stop) (ino : nat) : Prop :=
  ∃ i, f_names v !! cstr (wal_seg_name base) = Some ino ∧ f_inodes v !! ino = Some i ∧
    i_stable i = Some <$> i_data i ∧ cap <= zlen (i_data i) ∧ zlen (log_bytes es) <= cap ∧
    sub 0 (zlen (log_bytes es)) (i_data i) = log_bytes es ∧
    scan cap slen (i_data i) (zlen (log_bytes es)) (base + zlen es) = ([], zlen (log_bytes es), why).

(** A directory that holds the closed segments [segs] and a last one that
    starts at [base]: they follow one another, only the last may end in a
    torn tail, and no other name is a segment's. *)
Record stored_log (v : fsys) (cap slen : Z) (segs : list (Z * list entry)) (base : Z)
    (last_es : list entry) (why : stop) : Prop := {
  sl_chain : seg_chain segs base;
  sl_base : 0 < base ∧ chained base last_es ∧ base + zlen last_es < 2 ^ 64;
  sl_closed : ∀ b es, (b, es) ∈ segs → ∃ ino, seg_at v cap slen b es Clean ino;
  sl_last : ∃ ino, seg_at v cap slen base last_es why ino;
  sl_stop : why = Clean ∨ why = Torn;
  sl_names : ∀ n b, is_Some (f_names v !! n) → base_of_name n = Some b → b ∈ segs.*1 ++ [base];
  sl_apart : ∀ n n' ino, f_names v !! n = Some ino → f_names v !! n' = Some ino → n = n';
  sl_few : zlen segs + 1 < WAL_MAX_SEGMENTS;
  sl_cap : WAL_REC_HEADER_SIZE <= cap < 2 ^ 62;
  sl_scratch : WAL_REC_MAX_SIZE <= slen < 2 ^ 31 }.

(** Only descriptors have changed. *)
Definition same_files (v v' : fsys) : Prop := f_names v' = f_names v ∧ f_inodes v' = f_inodes v.

Lemma seg_at_frame v v' cap slen base es why ino :
  same_files v v' → seg_at v cap slen base es why ino → seg_at v' cap slen base es why ino.
Proof. intros [En Ei] (i & Hn & Hi & Hx). exists i. by rewrite En, Ei. Qed.

Lemma same_files_trans v1 v2 v3 : same_files v1 v2 → same_files v2 v3 → same_files v1 v3.
Proof. intros [E1 E2] [E3 E4]. split; congruence. Qed.

(** ** The table *)

(** Ascending lists with the same elements are the same. *)
Lemma ascending_unique (l1 l2 : list Z) :
  StronglySorted Z.lt l1 → StronglySorted Z.lt l2 → (∀ x, x ∈ l1 ↔ x ∈ l2) → l1 = l2.
Proof.
  intros H1. revert l2. induction H1 as [|x l1 Hs IH Hx]; intros l2 H2 He.
  { destruct l2 as [|y l2]; [done|]. assert (y ∈ []) as Hn by (apply He; left). by apply elem_of_nil in Hn. }
  destruct H2 as [|y l2 Hs2 Hy].
  { assert (x ∈ []) as Hn by (apply He; left). by apply elem_of_nil in Hn. }
  rewrite Forall_forall in Hx, Hy.
  assert (x = y) as <-.
  { assert (x ∈ y :: l2) as Hx' by (apply He; left). assert (y ∈ x :: l1) as Hy' by (apply He; left).
    apply elem_of_cons in Hx' as [?|Hx']; [done|]. apply elem_of_cons in Hy' as [?|Hy']; [done|].
    specialize (Hy _ Hx'). specialize (Hx _ Hy'). lia. }
  f_equal. apply IH; [done|]. intros z. specialize (He z). rewrite !elem_of_cons in He. split; intros Hz.
  - destruct (proj1 He (or_intror Hz)) as [->|?]; [|done]. specialize (Hx _ Hz). lia.
  - destruct (proj2 He (or_intror Hz)) as [->|?]; [|done]. specialize (Hy _ Hz). lia.
Qed.

Lemma chain_ascending segs base :
  seg_chain segs base → StronglySorted Z.lt (segs.*1 ++ [base]) ∧ ∀ b es, (b, es) ∈ segs → 0 < b < base.
Proof.
  induction segs as [|[b es] segs IH]; cbn.
  { intros _. split; [repeat constructor|]. by intros ? ? ?%elem_of_nil. }
  intros (Hb & He & _ & Hnx & Hc). destruct (IH Hc) as [Hs Hin].
  assert (b < next_base segs base) as Hlt by (destruct es; [done|cbn in Hnx; lia]).
  assert (∀ x, x ∈ segs.*1 ++ [base] → b < x) as Hall.
  { intros x Hx. destruct segs as [|[b2 es2] segs]; cbn in *.
    - apply list_elem_of_singleton in Hx. lia.
    - apply elem_of_cons in Hx as [->|Hx]; [lia|].
      inversion Hs as [|? ? _ Hf]; subst. rewrite Forall_forall in Hf. specialize (Hf _ Hx). lia. }
  assert (b < base) by (apply Hall, elem_of_app; right; by left).
  split; [constructor; [done|by apply Forall_forall]|].
  intros b' es' [[= -> ->]|Hx]%elem_of_cons; [lia|by eapply Hin].
Qed.

(** A listing gives the table of the segments named in the directory. *)
Lemma listed_table v l todo :
  listing v todo → StronglySorted Z.lt l →
  (∀ n b, is_Some (f_names v !! n) → base_of_name n = Some b → b ∈ l) →
  (∀ b, b ∈ l → 0 < b < 2 ^ 64 ∧ is_Some (f_names v !! cstr (wal_seg_name b))) →
  foldl add_name [] todo = l.
Proof.
  intros [_ Hl] Hs Hall Hin. apply ascending_unique; [apply add_names_sorted; constructor|done|].
  intros b. rewrite add_names_elem. split.
  - intros [[]%elem_of_nil|(n & Hn & Hb)]. apply Hl in Hn as [Hn|Hn]; [by eapply Hall|].
    exfalso. repeat (apply elem_of_cons in Hn as [->|Hn]; [by vm_compute in Hb|]). by apply elem_of_nil in Hn.
  - intros Hb. right. destruct (Hin b Hb) as [Hr Hx].
    exists (seg_name b). rewrite cstr_name in Hx by lia. split; [apply Hl; by left|by apply base_of_seg_name].
Qed.

Lemma stored_table v cap slen segs base es why todo :
  stored_log v cap slen segs base es why → listing v todo →
  foldl add_name [] todo = segs.*1 ++ [base].
Proof.
  intros S Hl. destruct (chain_ascending _ _ (sl_chain _ _ _ _ _ _ _ S)) as [Hs Hin].
  apply (listed_table v); [done|done|apply (sl_names _ _ _ _ _ _ _ S)|].
  destruct (sl_base _ _ _ _ _ _ _ S) as (Hpos & _ & Hmax). intros b Hb.
  apply elem_of_app in Hb as [Hb| ->%list_elem_of_singleton].
  - apply list_elem_of_fmap in Hb as ([b' es'] & -> & Hb). specialize (Hin _ _ Hb). split; [cbn; lia|].
    destruct (sl_closed _ _ _ _ _ _ _ S _ _ Hb) as (ino & i & Hn & _). by exists ino.
  - split; [lia|]. destruct (sl_last _ _ _ _ _ _ _ S) as (ino & i & Hn & _). by exists ino.
Qed.

Lemma listing_length v todo : listing v todo → (length todo <= size (f_names v) + 2)%nat.
Proof.
  intros [Hnd Hl]. rewrite <-length_map_to_list, <-(length_fmap fst).
  transitivity (length (((map_to_list (f_names v)).*1) ++ dots)); [|rewrite length_app; done].
  apply submseteq_length, NoDup_submseteq; [done|]. intros n Hn%Hl. apply elem_of_app.
  destruct Hn as [[ino Hn]|Hn]; [left|by right]. apply list_elem_of_fmap. exists (n, ino).
  by rewrite elem_of_map_to_list.
Qed.

(** ** One segment *)

Section open.
Context {K : Type} `{SysLaws K} {C : Type} (cb : C → wal_rec_t → C).

Lemma fold_scan_record l ix c :
  foldl (wal_scan_record cb) (ix, c) l = (foldl wal_index_add ix l, foldl cb c l).
Proof. revert ix c. induction l as [|r l IH]; intros ix c; [done|]. cbn. apply IH. Qed.

(** Nothing but the directory [d] is open that was not in [v]. *)
Definition opened (v : fsys) (d : Z) (v' : fsys) : Prop :=
  fresh_fd v d ∧ ∃ todo, v' = set_fd d (FDir todo) v.

(** Nor anything but the directory [d] and the file [ino] at [fd]. *)
Definition holding (v : fsys) (d fd : Z) (ino : nat) (v' : fsys) : Prop :=
  ∃ v1, opened v d v1 ∧ fresh_fd v1 fd ∧ v' = set_fd fd (FFile ino) v1.

Lemma del_set_fd v fd x : f_fds v !! fd = None → del_fd fd (set_fd fd x v) = v.
Proof.
  intros Hf. unfold del_fd, set_fd. destruct v. cbn in *. unfold upd. cbn. f_equal.
  by rewrite delete_insert_id.
Qed.

Lemma opened_same v d v' : opened v d v' → same_files v v'.
Proof. by intros [_ [todo ->]]. Qed.

Lemma opened_closed v d v' : opened v d v' → del_fd d v' = v.
Proof. intros [[_ Hd] [todo ->]]. by apply del_set_fd. Qed.

Lemma holding_same v d fd ino v' : holding v d fd ino v' → same_files v v'.
Proof. intros (v1 & Ho & _ & ->). by apply opened_same in Ho. Qed.

Lemma holding_closed v d fd ino v' : holding v d fd ino v' → opened v d (del_fd fd v').
Proof. intros (v1 & Ho & [_ Hf] & ->). by rewrite del_set_fd. Qed.

Lemma holding_fds v d fd ino v' : holding v d fd ino v' →
  0 <= fd ∧ fd ≠ d ∧ f_fds v' !! fd = Some (FFile ino) ∧ ∃ todo, f_fds v' !! d = Some (FDir todo).
Proof.
  intros (v1 & [Hd [todo ->]] & [Hr Hf] & ->).
  assert (fd ≠ d) by (intros ->; cbn in Hf; by rewrite lookup_insert_eq in Hf).
  split_and!; [lia|done|apply lookup_insert_eq|]. exists todo. cbn.
  rewrite lookup_insert_ne by done. apply lookup_insert_eq.
Qed.

(** The open segment of [seg_at]. *)
Definition seg_open_at (v v' : fsys) (cap slen d base : Z) (es : list entry) (why : stop) (ino : nat)
    (fd : Z) : Prop :=
  holding v d fd ino v' ∧ seg_at v cap slen base es why ino.

Lemma seg_open_file v v' cap slen d base es why ino fd :
  seg_open_at v v' cap slen d base es why ino fd →
  ∃ i, fd_file v' fd = Some (ino, i) ∧ f_inodes v !! ino = Some i.
Proof.
  intros [Hh (i & _ & Hi & _)]. destruct (holding_fds _ _ _ _ _ Hh) as (_ & _ & Hfd & _).
  exists i. split; [|done]. unfold fd_file. rewrite Hfd.
  destruct (holding_same _ _ _ _ _ Hh) as [_ ->]. cbn. by rewrite Hi.
Qed.

Lemma wp_open_at v d s cap slen base es why ino (k : K) :
  opened v d (view k) → seg_at v cap slen base es why ino → 0 < base → WAL_REC_HEADER_SIZE <= cap →
  wp (wal_seg_open s d base cap) (λ x k',
    if result_ok x.1 then ∃ fd, x.2 = seg_reset fd d base cap ∧
      seg_open_at v (view k') cap slen d base es why ino fd
    else r_code x.1 = ERR_SYSCALL ∧ opened v d (view k')) k.
Proof.
  intros Ho Hat Hb Hc. unfold wal_seg_open.
  rewrite (proj2 (Z.eqb_neq _ _)), (proj2 (Z.ltb_ge _ _)) by lia. cbn [orb].
  call wp_os_openat_code as [r fd] k1 Hx. cbn [fst snd] in Hx.
  destruct (result_ok r) eqn:Hr; cbn [negb]; apply wp_ret; cbn [fst snd]; rewrite ?Hr; cbn [result_ok r_code RESULT_OK Z.eqb].
  2: { destruct Hx as [-> ?]. done. }
  destruct Hx as [[[Hfail _]|[_ Hx]] Hfresh].
  { apply failed_neg in Hfail. destruct Hfresh. lia. }
  cbn in Hx. destruct Hx as (ino' & i & Hn & Hi & Hv). exists fd. split; [done|].
  pose proof Hat as (i2 & Hn2 & _). destruct (opened_same _ _ _ Ho) as [En _].
  assert (ino' = ino) as -> by congruence.
  split; [|done]. by exists (view k).
Qed.

(** What its recovery finds. *)
Lemma wp_recover_at v cap slen d base es why ino fd ix ctx (k : K) :
  seg_open_at v (view k) cap slen d base es why ino fd → why = Clean ∨ why = Torn →
  chained base es → 0 < base → base + zlen es < 2 ^ 64 → WAL_REC_MAX_SIZE <= slen < 2 ^ 31 →
  wp (wal_seg_recover (wal_scan_record cb) (seg_reset fd d base cap) slen (ix, ctx)) (λ x k',
    view k' = view k ∧
    let '(r, s', out, (ix', ctx')) := x in
    let next := base + zlen es in
    r_code r = ERR_SYSCALL ∧ s' = seg_reset fd d base cap ∨
    r = RESULT_OK ∧ ix' = foldl wal_index_add ix es.*1 ∧ ctx' = foldl cb ctx es.*1 ∧
    s' = Seg fd d base next (next - 1) cap (zlen (log_bytes es)) (zlen (log_bytes es)) ∧
    out = Some (Scan (zlen es) (next - 1) (zlen (log_bytes es)) (bool_decide (why = Torn)))) k.
Proof.
  intros Hop Hwhy Hch Hb Hmax Hsl. destruct (seg_open_file _ _ _ _ _ _ _ _ _ _ Hop) as (i & Hf & Hi).
  destruct Hop as [_ (i2 & _ & Hi2 & _ & Hcap & Hlb & Hsub & Hsc)].
  assert (i2 = i) as -> by congruence.
  assert (56 <= WAL_REC_MAX_SIZE) by (by vm_compute).
  eapply wp_mono; [apply (wp_recover _ _ slen (i_data i)); [lia|cbn; lia|]|].
  { unfold fd_data. cbn. by rewrite Hf. }
  cbn [g_capacity g_base_seq seg_reset]. rewrite (scan_log cap slen (i_data i) es 0 base), Z.add_0_l, Hsc by (try done; lia).
  rewrite app_nil_r. intros [[[r s'] out] [ix' ctx']] k' [Hv Hx]. split; [done|]. cbn [fst snd] in Hx.
  destruct Hx as [[? ?]|Hx]; [by left|right]. unfold recovers_to in Hx. rewrite length_fmap in Hx.
  assert (u64 (base + zlen es) = base + zlen es ∧ u64 (base + zlen es - 1) = base + zlen es - 1 ∧
    u64 (zlen es) = zlen es) as (E1 & E2 & E3) by (rewrite !u64_id by lia; done).
  cbn [g_base_seq g_fd g_dir_fd g_capacity seg_reset] in Hx. rewrite E1, E2, E3 in Hx.
  destruct Hwhy as [-> | ->].
  all: destruct Hx as (-> & Hc & -> & ->); rewrite fold_scan_record in Hc; injection Hc as -> ->; done.
Qed.

(** ** The table's segments, one after another *)

(** What opening the rest of the table leads to: the last segment is the
    active one, and every record has passed through the callback. *)
Definition all_opened (v : fsys) (cap slen d : Z) (base : Z) (es : list entry) (why : stop)
    (recs : list wal_rec_t) (records : Z) (w : wal_t) (ctx : C)
    (x : result_t * wal_t * wal_open_t * C) (v' : fsys) : Prop :=
  let '(r, w', out, ctx') := x in
  if result_ok r then
    (∃ ino fd, seg_open_at v v' cap slen d base es why ino fd ∧
      wl_active w' = Seg fd d base (base + zlen es) (base + zlen es - 1) cap
                       (zlen (log_bytes es)) (zlen (log_bytes es))) ∧
    wl_dir_fd w' = d ∧ wl_seg_capacity w' = cap ∧ wl_seg_base w' = wl_seg_base w ∧
    wl_index w' = foldl wal_index_add (wl_index w) recs ∧ ctx' = foldl cb ctx recs ∧
    op_records out = u64 (records + zlen recs) ∧ op_last_seq out = base + zlen es - 1 ∧
    op_torn out = bool_decide (why = Torn)
  else r_code r = ERR_SYSCALL ∧ v' = v.

Lemma wp_open_fails v w out (c : C) r (k : K) :
  opened v (wl_dir_fd w) (view k) →
  wp (open_fails w out c r) (λ (x : result_t * wal_t * wal_open_t * C) k', view k' = v ∧ x.1.1.1 = r) k.
Proof.
  intros Hs. unfold open_fails. call wp_os_close as r2 k2 Hv. apply wp_ret.
  rewrite Hv. split; [by apply opened_closed|done].
Qed.

Lemma syscall_not_ok r : r_code r = ERR_SYSCALL → result_ok r = false.
Proof. unfold result_ok. by intros ->. Qed.

Lemma failed_open v cap slen d base es why recs records w ctx w2 out2 ctx2 r (k : K) :
  opened v (wl_dir_fd w2) (view k) → r_code r = ERR_SYSCALL →
  wp (open_fails w2 out2 ctx2 r) (λ x k',
    all_opened v cap slen d base es why recs records w ctx x (view k')) k.
Proof.
  intros Hs Hr. eapply wp_mono; [by apply (wp_open_fails v)|]. cbv beta.
  intros [[[r' w'] o'] c'] k' [Hs' Er]. cbn [fst] in Er. subst r'. unfold all_opened.
  rewrite (syscall_not_ok _ Hr). done.
Qed.

(** One segment: opened and scanned, or the call failed. *)
Lemma wp_open_step v d cap slen base es why ino rest records w out ctx
    (Q : result_t * wal_t * wal_open_t * C → fsys → Prop) (k : K) :
  opened v d (view k) → seg_at v cap slen base es why ino → why = Clean ∨ why = Torn →
  chained base es → 0 < base → base + zlen es < 2 ^ 64 → WAL_REC_MAX_SIZE <= slen < 2 ^ 31 →
  WAL_REC_HEADER_SIZE <= cap → wl_dir_fd w = d → wl_seg_capacity w = cap →
  (∀ w2 out2 ctx2 r k2, opened v (wl_dir_fd w2) (view k2) → r_code r = ERR_SYSCALL →
     wp (open_fails w2 out2 ctx2 r) (λ x k', Q x (view k')) k2) →
  (∀ fd k1,
     let w1 := w <| wl_index := foldl wal_index_add (wl_index w) es.*1 |> in
     let ctx1 := foldl cb ctx es.*1 in
     let seg := Seg fd d base (base + zlen es) (base + zlen es - 1) cap
                  (zlen (log_bytes es)) (zlen (log_bytes es)) in
     seg_open_at v (view k1) cap slen d base es why ino fd →
     wp (match rest with
         | [] => open_segments cb rest (base + zlen es) (u64 (records + zlen es)) slen
                   (w1 <| wl_active := seg |>) (out <| op_torn := bool_decide (why = Torn) |>) ctx1
         | _ => if bool_decide (why = Torn)
                then _ ← wal_seg_close seg; open_fails w1 out ctx1 (RESULT_ERR ERR_STORAGE 0)
                else _ ← wal_seg_close seg;
                     open_segments cb rest (base + zlen es) (u64 (records + zlen es)) slen w1 out ctx1
         end) (λ x k', Q x (view k')) k1) →
  wp (open_segments cb (base :: rest) base records slen w out ctx) (λ x k', Q x (view k')) k.
Proof.
  intros Ho Hat Hwhy Hch Hb Hmax Hsl Hcap Hd Hc Hfail Hgo. cbn [open_segments].
  rewrite Z.eqb_refl. cbn [negb]. rewrite Hd, Hc.
  call (wp_open_at v d _ cap slen base es why ino) as [r seg] k1 Hx; [done..|]. cbn [fst snd] in Hx.
  destruct (result_ok r); cbn [negb]; [|apply Hfail; [rewrite Hd|]; apply Hx].
  destruct Hx as (fd & -> & Hopen).
  eapply wp_call; [by apply (wp_recover_at v cap slen d base es why ino)|].
  cbv beta. intros [[[r2 seg2] scan] [ix2 ctx2]] k2 [Hv2 Hx]. cbv beta iota zeta in Hx |- *.
  destruct Hx as [[Hr2 ->]|(-> & -> & -> & -> & ->)].
  - rewrite (syscall_not_ok _ Hr2). cbn [negb]. unfold wal_seg_close. cbn [g_fd seg_reset].
    destruct (holding_fds _ _ _ _ _ (proj1 Hopen)) as (Hfd & _). rewrite (proj2 (Z.ltb_ge _ _)) by done.
    apply wp_bind. call wp_os_close as r3 k3 Hv3. apply wp_ret. apply Hfail; [|done].
    unfold close_spec in Hv3. rewrite Hv3, Hv2. cbn. rewrite Hd. by eapply holding_closed, Hopen.
  - cbn [result_ok r_code RESULT_OK Z.eqb negb sc_records sc_last_seq sc_torn].
    replace (u64 (base + zlen es - 1 + 1)) with (base + zlen es) by (rewrite u64_id; lia).
    rewrite <-Hv2 in *. specialize (Hgo fd k2 Hopen). by destruct rest.
Qed.

Lemma wp_open_segments v d cap slen segs base es why records w out ctx (k : K) :
  opened v d (view k) → seg_chain segs base → 0 < base → chained base es → base + zlen es < 2 ^ 64 →
  (∀ b es, (b, es) ∈ segs → ∃ ino, seg_at v cap slen b es Clean ino) →
  (∃ ino, seg_at v cap slen base es why ino) → why = Clean ∨ why = Torn →
  WAL_REC_MAX_SIZE <= slen < 2 ^ 31 → WAL_REC_HEADER_SIZE <= cap →
  wl_dir_fd w = d → wl_seg_capacity w = cap →
  wp (open_segments cb (segs.*1 ++ [base]) (next_base segs base) records slen w out ctx) (λ x k',
    all_opened v cap slen d base es why (concat segs.*2 ++ es).*1 records w ctx x (view k')) k.
Proof.
  revert records w out ctx k. induction segs as [|[b0 es0] segs IH];
    intros records w out ctx k Ho Hc Hb Hch Hmax Hcl [ino Hlast] Hwhy Hsl Hcap Hd Hwc.
  - cbn [fmap list_fmap concat app next_base].
    eapply (wp_open_step v d cap slen base es why ino); try done; [intros; by apply failed_open|].
    intros fd k1 w1 ctx1 seg Hopen. cbn [open_segments]. apply wp_ret. unfold all_opened.
    cbn [result_ok r_code RESULT_OK Z.eqb]. split; [by exists ino, fd|]. cbn. rewrite length_fmap, (u64_id (base + zlen es - 1)) by lia.
    by split_and!.
  - destruct Hc as (Hb0 & He0 & Hch0 & Hnx & Hc). destruct (chain_ascending _ _ Hc) as [_ Hlt].
    assert (b0 + zlen es0 <= base) as Hle.
    { rewrite Hnx. destruct segs as [|[b1 e1] segs]; cbn [next_base]; [lia|].
      specialize (Hlt b1 e1 ltac:(left)). lia. }
    destruct (Hcl b0 es0 ltac:(left)) as [ino0 Hat0].
    cbn [fmap list_fmap concat app next_base fst snd].
    eapply (wp_open_step v d cap slen b0 es0 Clean ino0); try done; [by left|lia|intros; by apply failed_open|].
    intros fd k1 w1 ctx1 seg Hopen. destruct (segs.*1 ++ [base]) as [|b1 bs] eqn:Ebs; [by destruct segs|].
    cbn [bool_decide]. rewrite bool_decide_eq_false_2 by done. unfold wal_seg_close. cbn [g_fd seg].
    destruct (holding_fds _ _ _ _ _ (proj1 Hopen)) as (Hfd & _). rewrite (proj2 (Z.ltb_ge _ _)) by done.
    apply wp_bind. call wp_os_close as r3 k3 Hv3. apply wp_ret. rewrite Hnx.
    eapply wp_mono; [apply (IH (u64 (records + zlen es0)) w1); try done|].
    + unfold close_spec in Hv3. rewrite Hv3. by eapply holding_closed, Hopen.
    + intros b' es' Hin. apply Hcl. by right.
    + by exists ino.
    + cbv beta. intros [[[r w'] out'] ctx'] k'. unfold all_opened. intros Hx.
      destruct (result_ok r); [|done].
      destruct Hx as (Hact & ? & ? & ? & Hix & Hctx & Hrec & ? & ?).
      rewrite <-(app_assoc es0), fmap_app. set (tail := (concat segs.*2 ++ es).*1) in *.
      rewrite Hix, Hctx, Hrec. unfold w1, ctx1. cbn. rewrite !foldl_app, u64_add_l.
      split_and!; try done. f_equal. rewrite length_app, length_fmap. lia.
Qed.

(** ** The whole of [wal_open] *)

(** The open segment and the table make a log. *)
Lemma opened_is_log v v' cap slen d segs base es why fd ino w :
  stored_log v cap slen segs base es why → seg_open_at v v' cap slen d base es why ino fd →
  wl_active w = Seg fd d base (base + zlen es) (base + zlen es - 1) cap
                  (zlen (log_bytes es)) (zlen (log_bytes es)) →
  wl_dir_fd w = d → wl_seg_capacity w = cap → wl_seg_base w = segs.*1 ++ [base] →
  wal_log v' w segs es [] ino (default (Inode [] []) (f_inodes v' !! ino)).
Proof.
  intros S Hop Ha Hd Hc Hb. destruct (seg_open_file _ _ _ _ _ _ _ _ _ _ Hop) as (i & Hf & Hi0).
  destruct Hop as [Hh Hat0]. pose proof Hat0 as (i2 & Hn & Hi & Hst & Hcap & Hlb & Hsub & _).
  destruct (holding_same _ _ _ _ _ Hh) as [En Ei], (holding_fds _ _ _ _ _ Hh) as (Hfd & _ & _ & Hdir).
  destruct (sl_base _ _ _ _ _ _ _ S) as (Hpos & Hch & Hmax).
  assert (i2 = i) as -> by congruence. rewrite Ei, Hi, ?En. cbn [default from_option id].
  pose proof (sl_cap _ _ _ _ _ _ _ S).
  constructor; rewrite ?Ha; cbn [g_base_seq g_fd g_capacity]; try done.
  - apply (sl_chain _ _ _ _ _ _ _ S).
  - intros b es' Hin. destruct (sl_closed _ _ _ _ _ _ _ S _ _ Hin) as (n & j & Hjn & Hji & Hjs & _ & _ & Hjsub & _).
    exists n. split.
    + intros ->. destruct Hat0 as (i0 & Hn0 & _).
      pose proof (sl_apart _ _ _ _ _ _ _ S _ _ _ Hjn Hn0) as He.
      destruct (chain_ascending _ _ (sl_chain _ _ _ _ _ _ _ S)) as [_ Hlt]. specialize (Hlt _ _ Hin).
      apply seg_name_inj in He; lia.
    + exists j. rewrite En, Ei. split_and!; try done. intros x _. by rewrite Hjs.
  - constructor; cbn [g_capacity g_write_off g_synced_off g_base_seq g_next_seq g_durable_seq];
      rewrite ?app_nil_r; try done; [by intros x _; rewrite Hst|lia].
  - by rewrite En.
  - by rewrite Hd.
  - unfold seg_count. rewrite Hb, length_app, length_fmap. cbn.
    pose proof (sl_few _ _ _ _ _ _ _ S). lia.
Qed.

(** A log opened: what it holds is what the directory held. *)
Definition log_opened (v : fsys) (cap : Z) (segs : list (Z * list entry)) (base : Z) (es : list entry)
    (why : stop) (ctx : C) (x : result_t * wal_t * wal_open_t * C) (v' : fsys) : Prop :=
  let '(r, w, out, ctx') := x in
  let all := concat segs.*2 ++ es in
  (∃ ino i, holding v (wl_dir_fd w) (g_fd (wl_active w)) ino v' ∧ wal_log v' w segs es [] ino i) ∧
  is_log v' w all ∧ wal_seg_capacity w = cap ∧ wal_next_seq w = base + zlen es ∧ wal_durable_seq w = base + zlen es - 1 ∧
  wl_index w = foldl wal_index_add wal_index_init all.*1 ∧ ctx' = foldl cb ctx all.*1 ∧
  op_records out = u64 (zlen all) ∧ op_last_seq out = base + zlen es - 1 ∧
  op_torn out = bool_decide (why = Torn).

(** Up to the segments: the directory is opened and its table loaded, or the
    open fails with nothing changed. *)
Lemma wp_open_listed rounds w0 path cap scratch ctx base bases
    (P : result_t * wal_t * wal_open_t * C → fsys → Prop) (k : K) :
  (∀ todo, listing (view k) todo → foldl add_name [] todo = base :: bases) →
  (size (f_names (view k)) + 2 < rounds)%nat → WAL_REC_HEADER_SIZE <= cap →
  WAL_REC_HEADER_SIZE <= zlen scratch < 2 ^ 31 →
  (∀ y, r_code y.1.1.1 = ERR_SYSCALL ∨
     result_ok y.1.1.1 = false ∧ WAL_MAX_SEGMENTS <= zlen (base :: bases) → P y (view k)) →
  (∀ d active out k1, opened (view k) d (view k1) →
     wp (open_segments cb (base :: bases) base 0 (zlen scratch)
           (Wal d cap active (base :: bases) wal_index_init) out ctx)
        (λ y k', P y (view k')) k1) →
  wp (wal_open cb rounds w0 path cap scratch ctx) (λ x k', ∃ y, x = Some y ∧ P y (view k')) k.
Proof.
  intros Htable Hrounds Hcap Hsl Hfail Hgo. unfold wal_open.
  rewrite !(proj2 (Z.ltb_ge _ _)) by lia. cbn [orb]. cbv zeta.
  call wp_os_openat_code as [r d] k1 Hx. cbn [fst snd] in Hx.
  destruct (result_ok r) eqn:Hr; cbn [negb].
  2: { apply wp_ret. destruct Hx as [Hv Hx]. eexists. split; [done|]. rewrite Hv. apply Hfail. by left. }
  destruct Hx as [[[Hneg _]|[_ Hx]] Hfresh].
  { apply failed_neg in Hneg. destruct Hfresh. lia. }
  cbn in Hx. destruct Hx as (todo & Hl & Hv1).
  assert (f_fds (view k1) !! d = Some (FDir todo)) as Hd1 by (rewrite Hv1; apply lookup_insert_eq).
  unfold seg_table_load. apply wp_bind. apply wp_bind.
  eapply wp_mono; [apply (wp_table_load rounds d scratch [] todo);
    [done|pose proof (listing_length _ _ Hl); lia|lia]|].
  cbv beta. intros x k2 ([todo2 Hv2] & r2 & bases2 & scr2 & -> & Hlen & Hb).
  rewrite (Htable _ Hl) in Hb. apply wp_ret.
  cbn [mbind option_bind fmap option_fmap option_map].
  assert (opened (view k) d (view k2)) as Ho.
  { split; [done|]. exists todo2. by rewrite Hv2, Hv1, set_fd_twice. }
  apply wp_fmap. destruct (result_ok r2) eqn:Hr2; cbn [negb].
  - subst bases2. cbn [wl_seg_base]. rewrite <-Hlen in Hgo.
    eapply wp_mono; [by apply Hgo|]. intros y k3 HP. by exists y.
  - eapply wp_mono; [apply (wp_open_fails (view k)); exact Ho|]. cbv beta.
    intros y k3 [Hv3 Ey]. exists y. split; [done|]. rewrite Hv3. apply Hfail. rewrite Ey.
    destruct Hb; [by left|by right].
Qed.

Lemma wp_wal_open rounds w0 path cap scratch ctx segs base es why (k : K) :
  stored_log (view k) cap (zlen scratch) segs base es why →
  (size (f_names (view k)) + 2 < rounds)%nat →
  wp (wal_open cb rounds w0 path cap scratch ctx) (λ x k', ∃ y, x = Some y ∧
      if result_ok y.1.1.1 then log_opened (view k) cap segs base es why ctx y (view k')
      else r_code y.1.1.1 = ERR_SYSCALL ∧ view k' = view k) k.
Proof.
  intros S Hrounds. pose proof S as [Hchain (Hpos & Hch & Hmax) Hcl [ino Hlast] Hwhy _ _ Hfew Hcap Hsl].
  assert (WAL_REC_HEADER_SIZE <= WAL_REC_MAX_SIZE) by (by vm_compute).
  destruct (segs.*1 ++ [base]) as [|b0 bs] eqn:Eb; [by destruct segs|].
  assert (b0 = next_base segs base) as ->.
  { destruct segs as [|[b1 e1] segs']; cbn in Eb; by injection Eb. }
  apply (wp_open_listed rounds w0 path cap scratch ctx (next_base segs base) bs
    (λ y v', if result_ok y.1.1.1 then log_opened (view k) cap segs base es why ctx y v'
      else r_code y.1.1.1 = ERR_SYSCALL ∧ v' = view k)); [|done|lia|lia|..].
  { intros todo Hl. rewrite (stored_table _ _ _ _ _ _ _ _ S Hl). done. }
  { intros y [Hy|[_ Hy]]; [by rewrite (syscall_not_ok _ Hy)|].
    apply (f_equal (λ l, zlen l)) in Eb. rewrite length_app, length_fmap in Eb. cbn in Eb, Hy. lia. }
  intros d active out k1 Ho. rewrite <-Eb.
  eapply wp_mono; [apply (wp_open_segments (view k) d cap (zlen scratch) segs base es why); try done; first [by exists ino|lia|by vm_compute]|].
  cbv beta. intros [[[r3 w3] out3] ctx3] k3. unfold all_opened. intros Hx.
  cbn [fst snd]. destruct (result_ok r3); [|done].
  destruct Hx as ((ino' & fd & Hopen & Hact) & Hwd & Hwc & Hwb & Hix & Hctx & Hrec & Hlst & Htorn).
  assert (ino' = ino) as ->.
  { destruct Hopen as [_ (i2 & Hn & _)]. destruct Hlast as (i3 & Hn3 & _). congruence. }
  assert (wal_log (view k3) w3 segs es [] ino (default (Inode [] []) (f_inodes (view k3) !! ino))) as L
    by (by eapply opened_is_log).
  unfold log_opened. cbv zeta. split_and!; try done.
  - exists ino. eexists. split; [rewrite Hwd, Hact; apply Hopen|exact L].
  - exists segs, es, [], ino. eexists. split; [exact L|unfold all_records; by rewrite app_nil_r].
  - unfold wal_next_seq. by rewrite Hact.
  - unfold wal_durable_seq. by rewrite Hact.
  - by rewrite Hrec, length_fmap.
Qed.

(** A directory without a segment becomes an empty log that starts at 1. *)
Lemma wp_wal_open_new rounds w0 path cap scratch ctx (k : K) :
  (∀ n, is_Some (f_names (view k) !! n) → base_of_name n = None) →
  (size (f_names (view k)) + 2 < rounds)%nat → WAL_REC_HEADER_SIZE <= cap < 2 ^ 62 →
  WAL_REC_HEADER_SIZE <= zlen scratch < 2 ^ 31 →
  wp (wal_open cb rounds w0 path cap scratch ctx) (λ x k', ∃ r w out ctx',
    x = Some (r, w, out, ctx') ∧ ctx' = ctx ∧
      (result_ok r = true → is_log (view k') w [] ∧ wal_next_seq w = 1 ∧ op_created out = true ∧
         wl_index w = wal_index_init ∧ ∃ d fd todo ino, w = Wal d cap (seg_reset fd d 1 cap) [1] wal_index_init ∧
         0 <= fd ∧ f_fds (view k') !! d = Some (FDir todo) ∧ 0 <= d ∧ f_fds (view k) ⊆ f_fds (view k') ∧
         fd_file (view k') fd = Some (ino, Inode (zeros cap) (Some <$> zeros cap)) ∧
         f_names (view k') = <[cstr (wal_seg_name 1) := ino]> (f_names (view k)) ∧
         f_disk (view k') = Disk (f_names (view k')) [])) k.
Proof.
  intros Hnone Hrounds Hcap Hsl. unfold wal_open. rewrite !(proj2 (Z.ltb_ge _ _)) by lia. cbn [orb]. cbv zeta.
  call wp_os_openat_code as [r d] k1 Hx. cbn [fst snd] in Hx.
  destruct (result_ok r) eqn:Hr; cbn [negb].
  2: { apply wp_ret. eexists _, _, _, _. split_and!; [done|done|]. congruence. }
  destruct Hx as [[[Hfail _]|[_ Hx]] Hfresh].
  { apply failed_neg in Hfail. destruct Hfresh. lia. }
  cbn in Hx. destruct Hx as (todo & Hl & Hv1).
  assert (f_fds (view k1) !! d = Some (FDir todo)) as Hd1 by (rewrite Hv1; apply lookup_insert_eq).
  assert (foldl add_name [] todo = []) as Hempty.
  { apply elem_of_nil_inv. intros b [[]%elem_of_nil|(n & Hn & Hb)]%add_names_elem.
    destruct Hl as [_ Hl]. apply Hl in Hn as [Hn|Hn]; [by rewrite Hnone in Hb|].
    repeat (apply elem_of_cons in Hn as [->|Hn]; [by vm_compute in Hb|]). by apply elem_of_nil in Hn. }
  unfold seg_table_load. apply wp_bind. apply wp_bind.
  eapply wp_mono; [apply (wp_table_load rounds d scratch [] todo);
    [done|pose proof (listing_length _ _ Hl); lia|lia]|].
  cbv beta. intros x k2 ([todo2 Hv2] & r2 & bases & scr2 & -> & Hlen & Hb).
  rewrite Hempty in Hb. apply wp_ret. cbn [mbind option_bind]. apply wp_fmap.
  destruct (result_ok r2) eqn:Hr2; cbn [negb].
  2: { unfold open_fails. call wp_os_close as r3 k3 _. apply wp_ret. eexists _, _, _, _.
       split_and!; [done|done|]. congruence. }
  subst bases. cbn.
  assert (f_fds (view k2) !! d = Some (FDir todo2)) as Hd2 by (rewrite Hv2; apply lookup_insert_eq).
  call (wp_create ((wl_active w0) <| g_fd := -1 |>) d 1 cap todo2) as [r3 s3] k3 Hx; [done|done|lia|].
  cbn [fst snd] in Hx. destruct (result_ok r3) eqn:Hr3; cbn [negb].
  2: { unfold open_fails. call wp_os_close as r4 k4 _. apply wp_ret. eexists _, _, _, _.
       split_and!; [done|done|]. congruence. }
  destruct Hx as (fd & ino & -> & Hf & _ & _ & Hfile & _ & Hnm & Hfds & _ & Hseg & Hkept).
  assert (f_fds (view k3) !! d = Some (FDir todo2)) as Hd3.
  { rewrite Hfds, lookup_insert_ne; [done|]. intros ->. destruct Hf. congruence. }
  assert (f_names (view k2) = f_names (view k)) as En by (by rewrite Hv2, Hv1). rewrite En in Hnm.
  apply wp_ret. eexists _, _, _, _. split_and!; [done|done|]. intros _. split_and!; try done.
  2: { exists d, fd, todo2, ino. split; [done|]. split; [apply Hf|]. split; [done|]. split; [apply Hfresh|].
       split; [|by split_and!]. rewrite Hfds. destruct Hf as [_ Hf].
       transitivity (f_fds (view k2)); [|by apply insert_subseteq].
       rewrite Hv2, Hv1, set_fd_twice. apply insert_subseteq, Hfresh. }
  exists [], [], [], ino, (Inode (zeros cap) (Some <$> zeros cap)). split; [|done].
  constructor; try done.
  - by intros ? ? ?%elem_of_nil.
  - cbn. by rewrite Hnm, lookup_insert_eq.
  - by exists todo2.
  - apply Hf.
Qed.
End open.

(** ** Properties *)

Module ReopenProps.
Import Os.Sim.

(** The two segments of [CursorProps.demo]; the scan's callback keeps the
    sequences it was shown. *)
Definition demo_cb (seen : list Z) (r : wal_rec_t) : list Z := seen ++ [w_seq r].

Lemma demo_stored :
  stored_log (view CursorProps.demo) 128 WAL_REC_MAX_SIZE [(1, [CursorProps.demo_a])] 2
    [CursorProps.demo_b] Clean.
Proof.
  assert (stored CursorProps.demo_a.1 CursorProps.demo_a.2) as Ha.
  { apply sealed_stored; [unfold rec_ok; cbn; lia|done|by vm_compute]. }
  assert (stored CursorProps.demo_b.1 CursorProps.demo_b.2) as Hb.
  { apply sealed_stored; [unfold rec_ok; cbn; lia|done|by vm_compute]. }
  constructor.
  - by split_and!.
  - by split_and!.
  - intros b es [[= -> ->]|[]%elem_of_nil]%elem_of_cons. exists 0%nat, (CursorProps.demo_file [CursorProps.demo_a]).
    split_and!; by vm_compute.
  - exists 1%nat, (CursorProps.demo_file [CursorProps.demo_b]). split_and!; by vm_compute.
  - by left.
  - intros n b Hn Hb'. assert (n = cstr (wal_seg_name 1) ∨ n = cstr (wal_seg_name 2)) as [-> | ->].
    { change (f_names (view CursorProps.demo)) with CursorProps.demo_names in Hn.
      unfold CursorProps.demo_names in Hn. destruct Hn as [ino Hn].
      apply lookup_insert_Some in Hn as [[<- _]|[_ Hn]]; [by left|].
      apply lookup_singleton_Some in Hn as [<- _]. by right. }
    + rewrite cstr_name, base_of_seg_name in Hb' by lia. injection Hb' as <-. by left.
    + rewrite cstr_name, base_of_seg_name in Hb' by lia. injection Hb' as <-. by right; left.
  - intros n n' ino Hn Hn'. change (f_names (view CursorProps.demo)) with CursorProps.demo_names in *.
    unfold CursorProps.demo_names in *.
    apply lookup_insert_Some in Hn as [[<- <-]|[_ Hn]]; apply lookup_insert_Some in Hn' as [[<- E]|[_ Hn']];
      rewrite ?lookup_singleton_Some in *; naive_solver.
  - done.
  - by vm_compute.
  - by vm_compute.
Qed.

(** C5. Opening a log is recovering it: on a directory that holds a log
    whose last segment may end in a torn tail, [wal_open] either fails as a
    system call does, leaving the files as they are and no descriptor open,
    or changes no file, opens the directory and the last segment, and gives a log of
    exactly the records there, all of them durable, with the next sequence
    after the last, an index of exactly these records, and a context the
    callback has seen every record once and in order. *)
Theorem open_recovers_log {K C : Type} `{SysLaws K} (cb : C → wal_rec_t → C) (rounds : nat)
    (w0 : wal_t) (path : list byte) (cap : Z) (scratch : list byte) (ctx : C)
    (segs : list (Z * list entry)) (base : Z) (es : list entry) (why : stop) (k : K)
    (Hstored : stored_log (view k) cap (zlen scratch) segs base es why)
    (Hrounds : (size (f_names (view k)) + 2 < rounds)%nat) :
  wp (wal_open cb rounds w0 path cap scratch ctx) (λ x k', ∃ y, x = Some y ∧
      if result_ok y.1.1.1 then log_opened cb (view k) cap segs base es why ctx y (view k')
      else r_code y.1.1.1 = ERR_SYSCALL ∧ view k' = view k) k.
Proof. by apply wp_wal_open. Qed.

Lemma open_recovers_log_witness :
  wp (wal_open demo_cb 9 CursorProps.demo_wal [Byte.x2e; Byte.x00] 128 (zeros WAL_REC_MAX_SIZE) [])
    (λ x k', ∃ y, x = Some y ∧
      if result_ok y.1.1.1
      then log_opened demo_cb (view CursorProps.demo) 128 [(1, [CursorProps.demo_a])] 2 [CursorProps.demo_b]
             Clean [] y (view k')
      else r_code y.1.1.1 = ERR_SYSCALL ∧ view k' = view CursorProps.demo) CursorProps.demo ∧
  (λ y, (result_ok y.1.1.1, wal_next_seq y.1.1.2, y.2)) <$>
    (wal_open demo_cb 9 CursorProps.demo_wal [Byte.x2e; Byte.x00] 128 (zeros 256) []
       CursorProps.demo).1 = Some (true, 3, [1; 2]).
Proof.
  split; [|vm_compute; reflexivity].
  refine (open_recovers_log demo_cb 9 CursorProps.demo_wal [Byte.x2e; Byte.x00] 128
    (zeros WAL_REC_MAX_SIZE) [] [(1, [CursorProps.demo_a])] 2 [CursorProps.demo_b] Clean
    CursorProps.demo _ ltac:(apply Nat.ltb_lt; vm_compute; reflexivity)).
  rewrite length_zeros, Z2Nat.id by (vm_compute; discriminate). exact demo_stored.
Defined.

End ReopenProps.

Module ReopenFindings.
Import Os.Sim.

(** A segment whose second record was torn by a crash: its header is there,
    its payload is not what the header's checksum covers. *)
Definition torn_bytes : list byte :=
  log_bytes [CursorProps.demo_a] ++ rec_bytes (Rec 1 104 1 2 7 6 1 0 0 9)
    ++ replicate 104 Byte.xff ++ zeros 32.
Definition torn : sim :=
  MkSim (Fsys {[0%nat := Inode torn_bytes (Some <$> torn_bytes)]}
    {[cstr (wal_seg_name 1) := 0%nat]} (Disk {[cstr (wal_seg_name 1) := 0%nat]} []) ∅) 3 1 [] 0 [] (Net [] []).

Definition small : wal_rec_t := Rec 0 3 1 0 7 6 1 0 0 9.
Definition large : wal_rec_t := Rec 0 100 1 0 7 7 1 0 0 9.

Definition reopen : M sim (option (result_t * wal_t * wal_open_t * unit)) :=
  wal_open (λ c _, c) 9 (Wal 0 0 (seg_reset 0 0 0 0) [] wal_index_init) [Byte.x2e; Byte.x00] 256 (zeros 256) tt.

(** Open the log, append a small record, flush. *)
Definition append_small : M sim (option (result_t * wal_open_t * result_t * result_t * wal_t)) :=
  x ← reopen;
  match x with
  | None => mret None
  | Some (r, w, out, _) =>
      '(r1, w, _, _) ← wal_append w small (Some (bytes_of [1; 2; 3])) (zeros 256);
      '(r2, w) ← wal_sync w;
      mret (Some (r, out, r1, r2, w))
  end.

(** Then read the log from its start, as a subscriber does. *)
Definition read_back : M sim (option (result_t * result_t * list byte)) :=
  x ← append_small;
  match x with
  | None => mret None
  | Some (_, _, _, _, w) =>
      '(r, c) ← wal_cursor_seek w wal_cursor_init 1 256;
      '(r', _, data) ← wal_cursor_read w c (wal_durable_seq w) 1024;
      mret (Some (r, r', data))
  end.

(** Or store a record that needs a new segment, flush, and open again. *)
Definition roll_over : M sim (option (result_t * result_t * option result_t)) :=
  x ← append_small;
  match x with
  | None => mret None
  | Some (_, _, _, _, w) =>
      '(r1, w, _, _) ← wal_append w large (Some (zeros 100)) (zeros 256);
      '(r2, w) ← wal_sync w;
      _ ← wal_close w;
      y ← reopen;
      mret (Some (r1, r2, (λ y, y.1.1.1) <$> y))
  end.

(** A torn tail is dropped but not cleared.  Once a shorter record has been
    stored over it, what is left of it stands behind the log's last record:
    a cursor reading the flushed log fails on it with [ERR_STORAGE] instead
    of handing out the two records in front of it. *)
Lemma torn_tail_breaks_reads :
  (λ y, (result_ok y.1.1.1.1, op_torn y.1.1.1.2, result_ok y.1.1.2, result_ok y.1.2,
         wal_durable_seq y.2)) <$> (append_small torn).1 = Some (true, true, true, true, 2) ∧
  (λ y, (result_ok y.1.1, r_code y.1.2, y.2)) <$> (read_back torn).1 = Some (true, ERR_STORAGE, []).
Proof. split; vm_compute; reflexivity. Qed.

(** And once a rollover has closed that segment, the log does not open any
    more: what was left is taken for damage that is not a crash's. *)
Lemma torn_tail_then_rollover_refused :
  (λ y, (result_ok y.1.1, result_ok y.1.2, option_map r_code y.2)) <$> (roll_over torn).1
    = Some (true, true, Some ERR_STORAGE).
Proof. vm_compute. reflexivity. Qed.

End ReopenFindings.
