(* ===== verification/Crash.v ===== *)
(** * What a crash leaves of a log

    A crash loses every descriptor, may lose every name and every byte that
    was not flushed, may bring back every name whose removal was not, and
    keeps the rest ([crash]).  [lasting] says which records of a log can
    therefore not be lost; from a crash [wal_open] finds these records in
    order, behind what a removal that was not flushed lets come back and in
    front of what else survived, or it refuses. *)

From stdpp Require Import sorting.
From S2P Require Import Prelude Core Crc32c Fmt Msg Conn Record Index Os Session Segment Wal Cursor Reopen.

(** ** Crashes *)

(** A flushed name is there afterwards, one that was never flushed may be,
    and so may one that was removed and the directory not flushed since.  Each
    file holds an image of what it held, and what is there is on the disk. *)
Record crash (v vc : fsys) : Prop := {
  cr_fds : f_fds vc = ∅;
  cr_kept : f_kept v ⊆ f_names vc;
  cr_names : ∀ n ino, f_names vc !! n = Some ino → f_names v !! n = Some ino ∨ (n, ino) ∈ f_gone v;
  cr_disk : f_disk vc = Disk (f_names vc) [];
  cr_files : ∀ ino i, f_inodes v !! ino = Some i →
    ∃ img, f_inodes vc !! ino = Some (Inode img (Some <$> img)) ∧ crash_image i img }.

(** The records [es] stand at the front of the segment's file, and neither
    they nor the file's name can be lost. *)
Definition lasts_at (v : fsys) (cap base : Z) (es : list entry) : Prop :=
  zlen (log_bytes es) <= cap ∧
  ∃ ino i, f_names v !! cstr (wal_seg_name base) = Some ino ∧
    f_kept v !! cstr (wal_seg_name base) = Some ino ∧ f_inodes v !! ino = Some i ∧
    ∀ j x, log_bytes es !! j = Some x → i_stable i !! j = Some (Some x).

(** The segments named in the directory are among [bases]. *)
Definition names_in (v : fsys) (bases : list Z) : Prop :=
  ∀ n b, is_Some (f_names v !! n) → base_of_name n = Some b → n = cstr (wal_seg_name b) ∧ b ∈ bases.

(** A segment a crash can bring back starts below [first]. *)
Definition removed_below (v : fsys) (first : Z) : Prop :=
  ∀ n ino b, (n, ino) ∈ f_gone v → base_of_name n = Some b → n = cstr (wal_seg_name b) ∧ 0 < b < first.

(** No removed segment can come back. *)
Definition removals_kept (v : fsys) : Prop := ∀ n ino, (n, ino) ∈ f_gone v → base_of_name n = None.

Lemma removals_flushed v names : f_disk v = Disk names [] → removals_kept v.
Proof. intros E n ino. rewrite E. by intros ?%elem_of_nil. Qed.

Lemma flushed_below v names first : f_disk v = Disk names [] → removed_below v first.
Proof. intros E n ino b. rewrite E. by intros ?%elem_of_nil. Qed.

(** The records that last: those of the closed segments [segs] and [a] of the
    last one, at [base].  The only other segments there may be are the one a
    rollover left unfinished and, after a crash, removed ones. *)
Record lasting (v : fsys) (cap : Z) (segs : list (Z * list entry)) (base : Z) (a : list entry) : Prop := {
  ls_chain : seg_chain segs base;
  ls_base : 0 < base ∧ chained base a ∧ base + zlen a < 2 ^ 64;
  ls_closed : ∀ b es, (b, es) ∈ segs → lasts_at v cap b es;
  ls_last : lasts_at v cap base a;
  ls_names : names_in v (segs.*1 ++ [base; base + zlen a]);
  ls_gone : removed_below v (next_base segs base);
  ls_cap : WAL_REC_HEADER_SIZE <= cap < 2 ^ 62 }.

Definition lasting_records (segs : list (Z * list entry)) (a : list entry) : list wal_rec_t :=
  (concat segs.*2 ++ a).*1.

(** ** Scanning what is left *)

Lemma scan_count cap slen data off expected l e why :
  scan cap slen data off expected = (l, e, why) → 0 <= off → zlen l <= Z.max 0 (cap - off).
Proof.
  unfold scan. generalize (S (length data)). intros fuel.
  revert off expected l e why. induction fuel as [|fuel IH]; intros off expected l e why; cbn.
  { intros [= <- <- <-] ?. cbn. lia. }
  destruct (look cap slen data off expected) as [[rec size]|] eqn:E; [|intros [= <- <- <-] ?; cbn; lia].
  apply look_record in E as (_ & _ & _ & _ & Hs & _ & Hcap & _ & _).
  destruct (scan_fuel fuel cap slen data (off + size) (u64 (expected + 1))) as [[l' e'] s'] eqn:Es.
  intros [= <- <- <-] Ho. pose proof (IH _ _ _ _ _ Es ltac:(lia)). cbn. lia.
Qed.

(** What one segment's scan finds in the directory [v]. *)
Definition seg_found (v : fsys) (cap slen base : Z) (l : list wal_rec_t) : Prop :=
  ∃ ino i e why, f_names v !! cstr (wal_seg_name base) = Some ino ∧ f_inodes v !! ino = Some i ∧
    scan cap slen (i_data i) 0 base = (l, e, why).

(** The segments [bases] are found to follow one another from [expected] to
    [next], with the records [rs]. *)
Fixpoint found (v : fsys) (cap slen expected : Z) (bases : list Z) (rs : list (list wal_rec_t))
    (next : Z) : Prop :=
  match bases, rs with
  | [], [] => next = expected
  | b :: bases, l :: rs =>
      b = expected ∧ seg_found v cap slen b l ∧ found v cap slen (u64 (b + zlen l)) bases rs next
  | _, _ => False
  end.

Lemma found_next v cap slen expected bases rs next :
  0 <= expected < 2 ^ 64 → found v cap slen expected bases rs next →
  next = u64 (expected + zlen (concat rs)).
Proof.
  revert expected rs. induction bases as [|b bases IH]; intros expected [|l rs]; cbn; try done.
  { intros ? ->. rewrite Z.add_0_r, u64_id; lia. }
  intros He (-> & _ & Hf). apply IH in Hf as ->; [|unfold u64; apply Z.mod_pos_bound; lia].
  rewrite u64_add_l. f_equal. rewrite length_app. lia.
Qed.

(** The file behind a lasting name. *)
Lemma lasts_image v vc cap base es ino i :
  lasts_at v cap base es → crash v vc → f_names vc !! cstr (wal_seg_name base) = Some ino →
  f_inodes vc !! ino = Some i →
  ∃ j, f_names v !! cstr (wal_seg_name base) = Some ino ∧ f_inodes v !! ino = Some j ∧
    crash_image j (i_data i) ∧ ∀ n x, log_bytes es !! n = Some x → i_data i !! n = Some x.
Proof.
  intros (_ & n & j & Hn & Hk & Hj & Hst) Hcr Hin Hi.
  pose proof (lookup_weaken _ _ _ _ Hk (cr_kept _ _ Hcr)) as Hk'. assert (ino = n) as -> by congruence.
  destruct (cr_files _ _ Hcr _ _ Hj) as (img & Himg & Hc).
  assert (i = Inode img (Some <$> img)) as -> by congruence.
  exists j. split_and!; [done|done|done|]. intros m x Hx. by apply Hc, Hst.
Qed.

(** What lasts is what the scan finds first. *)
Lemma lasts_found v vc cap slen base es l :
  lasts_at v cap base es → crash v vc → chained base es → 0 < base → base + zlen es < 2 ^ 64 →
  WAL_REC_MAX_SIZE <= slen → seg_found vc cap slen base l → ∃ l', l = es.*1 ++ l'.
Proof.
  intros Hla Hcr Hch Hb Hmax Hsl (ino & i & e & why & Hn & Hi & Hsc).
  destruct (lasts_image _ _ _ _ _ _ _ Hla Hcr Hn Hi) as (_ & _ & _ & _ & Hfront).
  eapply (scan_kept _ _ _ _ es); [exact Hfront|apply Hla|done|done|done|done|exact Hsc].
Qed.

Lemma found_head v cap slen expected segs base ext rs next :
  found v cap slen expected (segs.*1 ++ base :: ext) rs next → next_base segs base = expected.
Proof. destruct segs as [|[b es] segs], rs as [|l rs]; cbn; try done; by intros [-> _]. Qed.

(** The count of a segment's records is what the next one starts at, so
    nothing comes between what lasts. *)
Lemma found_segs v vc cap slen segs base a ext rs expected next :
  lasting v cap segs base a → crash v vc → WAL_REC_MAX_SIZE <= slen →
  found vc cap slen expected (segs.*1 ++ base :: ext) rs next →
  lasting_records segs a `prefix_of` concat rs.
Proof.
  intros [Hc (Hb & Hch & Hmax) Hcl Hla _ _ Hcap] Hcr Hsl. revert rs expected Hc Hcl.
  unfold lasting_records. induction segs as [|[b es] segs IH]; intros [|l rs] expected Hc Hcl Hf; try done.
  - destruct Hf as (_ & Hf & _).
    destruct (lasts_found v vc cap slen base a l) as [l' ->]; try done. cbn.
    exists (l' ++ concat rs). by rewrite <-!app_assoc.
  - destruct Hf as (_ & Hfl & Hf). cbn [fmap list_fmap app fst] in Hf. pose proof Hfl as (ino & i & e & why & _ & _ & Hsc).
    pose proof (found_head _ _ _ _ _ _ _ _ _ Hf) as Hnext.
    destruct Hc as (Hb0 & He0 & Hch0 & Hnx & Hc).
    assert (next_base segs base <= base) as Hle.
    { destruct segs as [|[b1 e1] segs]; cbn; [lia|].
      pose proof (seg_chain_bound _ _ b1 e1 Hc ltac:(by left)). lia. }
    destruct (lasts_found v vc cap slen b es l) as [l' ->]; try done; [apply Hcl; by left|lia|].
    pose proof (scan_count _ _ _ _ _ _ _ _ Hsc ltac:(done)) as Hn.
    rewrite length_app, length_fmap in Hnext, Hn. rewrite <-Hnx in Hnext. unfold u64 in Hnext.
    assert (l' = []) as ->.
    { destruct l' as [|x l']; [done|exfalso]. cbn [length] in *.
      assert (b + zlen es = (b + zlen es + Z.of_nat (S (length l'))) mod 2 ^ 64) as Hm by (rewrite Hnext at 1; f_equal; lia).
      Z.div_mod_to_equations. nia. }
    rewrite app_nil_r. cbn. rewrite <-app_assoc, fmap_app.
    apply prefix_app. eapply IH; [done| |exact Hf]. intros b' es' Hin. apply Hcl. by right.
Qed.

Lemma found_app v cap slen expected l1 l2 rs next :
  found v cap slen expected (l1 ++ l2) rs next → ∃ rs1 rs2 mid,
    rs = rs1 ++ rs2 ∧ found v cap slen expected l1 rs1 mid ∧ found v cap slen mid l2 rs2 next.
Proof.
  revert expected rs. induction l1 as [|b l1 IH]; intros expected rs Hf; [by exists [], rs, expected|].
  destruct rs as [|l rs]; [done|]. destruct Hf as (-> & Hs & Hf).
  destruct (IH _ _ Hf) as (rs1 & rs2 & mid & -> & Hf1 & Hf2). by exists (l :: rs1), rs2, mid.
Qed.

(** What stands in front of what lasts ends where that begins. *)
Lemma found_back v cap slen back rs expected mid :
  0 <= cap < 2 ^ 62 → found v cap slen expected back rs mid → StronglySorted Z.lt (back ++ [mid]) →
  Forall (λ b, 0 < b < 2 ^ 64) (back ++ [mid]) → mid = expected + zlen (concat rs).
Proof.
  intros Hcap. revert rs expected. induction back as [|b back IH]; intros [|l rs] expected Hf Hs Hb; try done.
  { cbn in Hf. cbn. lia. }
  destruct Hf as (<- & (ino & i & e & why & _ & _ & Hsc) & Hf).
  apply StronglySorted_inv in Hs as [Hs Hlt]. apply Forall_cons in Hb as [Hb Hbs].
  assert (u64 (b + zlen l) ∈ back ++ [mid]) as Hin.
  { destruct back as [|b2 back], rs as [|l2 rs]; try done; [cbn in Hf; subst; by left|].
    destruct Hf as [-> _]. by left. }
  rewrite Forall_forall in Hlt. pose proof (Hlt _ Hin) as Hgt.
  pose proof (scan_count _ _ _ _ _ _ _ _ Hsc ltac:(done)) as Hn.
  assert (u64 (b + zlen l) = b + zlen l) as E.
  { unfold u64 in *. Z.div_mod_to_equations. nia. }
  rewrite E in Hf. rewrite (IH _ _ Hf Hs Hbs). cbn [concat]. rewrite length_app. lia.
Qed.

Lemma found_lasting v vc cap slen back segs base a ext rs expected next :
  lasting v cap segs base a → crash v vc → WAL_REC_MAX_SIZE <= slen →
  StronglySorted Z.lt (back ++ [next_base segs base]) →
  Forall (λ b, 0 < b < 2 ^ 64) (back ++ [next_base segs base]) →
  found vc cap slen expected (back ++ segs.*1 ++ base :: ext) rs next →
  ∃ older more, concat rs = older ++ lasting_records segs a ++ more ∧
    expected + zlen older = next_base segs base ∧ (back = [] → older = []).
Proof.
  intros L Hcr Hsl Hs Hb (rs1 & rs2 & mid & -> & Hf1 & Hf2)%found_app.
  pose proof (found_head _ _ _ _ _ _ _ _ _ Hf2) as Hmid. rewrite Hmid in *.
  destruct (found_segs _ _ _ _ _ _ _ _ _ _ _ L Hcr Hsl Hf2) as [more Hm].
  exists (concat rs1), more. split_and!.
  - by rewrite concat_app, Hm.
  - symmetry. pose proof (ls_cap _ _ _ _ _ L). unfold WAL_REC_HEADER_SIZE in *.
    eapply found_back; [|exact Hf1|done|done]. lia.
  - intros ->. by destruct rs1.
Qed.

(** The segments [bases] can all be read, one after another from [expected]
    on, and only the last one ends in a torn tail. *)
Definition readable (why : stop) (last : Prop) : Prop :=
  match why with Clean => True | Torn => last | Unreadable _ => False end.

Fixpoint opens (v : fsys) (cap slen expected : Z) (bases : list Z) : Prop :=
  match bases with
  | [] => True
  | b :: rest => b = expected ∧ ∀ ino i l e why,
      f_names v !! cstr (wal_seg_name b) = Some ino → f_inodes v !! ino = Some i →
      scan cap slen (i_data i) 0 b = (l, e, why) →
      readable why (rest = []) ∧ opens v cap slen (u64 (b + zlen l)) rest
  end.

Lemma scan_readable cap slen data off expected l e why :
  WAL_REC_MAX_SIZE <= slen → cap <= zlen data → scan cap slen data off expected = (l, e, why) →
  readable why True.
Proof.
  intros Hsl Hcap. unfold scan. generalize (S (length data)). intros fuel.
  revert off expected l e why. induction fuel as [|fuel IH]; intros off expected l e why; cbn; [by intros [= <- <- <-]|].
  destruct (look cap slen data off expected) as [[rec size]|s] eqn:E.
  - destruct (scan_fuel fuel cap slen data (off + size) (u64 (expected + 1))) as [[l' e'] s'] eqn:Es.
    intros [= <- <- <-]. by eapply IH.
  - intros [= <- <- <-]. unfold look in E. cbv zeta in E.
    repeat (case_match; try done; try by injection E as <-). exfalso. zb.
    destruct (rec_size_nonzero (i32 (w_len (rec_of (drop (Z.to_nat off) data))))) as (_ & _ & ?); lia.
Qed.

(** Nothing was written, or is waiting to be, behind the records [es]. *)
Definition clean_tail (cap n : Z) (i : inode) : Prop :=
  cap <= zlen (i_stable i) ∧
  ∀ j : nat, n <= Z.of_nat j < cap →
    i_data i !! j = Some Byte.x00 ∧ i_stable i !! j = Some (Some Byte.x00).

Definition clean_at (v : fsys) (cap base : Z) (es : list entry) : Prop :=
  ∃ ino i, f_names v !! cstr (wal_seg_name base) = Some ino ∧ f_inodes v !! ino = Some i ∧
    clean_tail cap (zlen (log_bytes es)) i.

(** A log without damage: closed segments [segs], the last one's records
    [all], and no other segment. *)
Definition undamaged (v : fsys) (cap : Z) (segs : list (Z * list entry)) (base : Z) (all : list entry) : Prop :=
  (∀ b es, (b, es) ∈ segs ++ [(base, all)] → clean_at v cap b es) ∧ names_in v (segs.*1 ++ [base]).

Lemma clean_scan v vc cap slen base es ino i l e why :
  lasts_at v cap base es → clean_at v cap base es → crash v vc →
  chained base es → 0 < base → base + zlen es < 2 ^ 64 → WAL_REC_MAX_SIZE <= slen →
  f_names vc !! cstr (wal_seg_name base) = Some ino → f_inodes vc !! ino = Some i →
  scan cap slen (i_data i) 0 base = (l, e, why) → l = es.*1 ∧ why = Clean.
Proof.
  intros Hla (n' & j' & Hn' & Hj' & _ & Hcl) Hcr Hch Hb Hmax Hsl Hin Hi Hsc.
  destruct (lasts_image _ _ _ _ _ _ _ Hla Hcr Hin Hi) as (j & Hn & Hj & [_ Hc] & Hfront).
  assert (n' = ino) as -> by congruence. assert (j' = j) as -> by congruence.
  destruct Hla as [Hcap _]. pose proof (kept_front _ _ Hfront).
  rewrite (scan_log _ _ _ es) in Hsc by (done || lia). rewrite Z.add_0_l in Hsc.
  destruct (Z.lt_ge_cases cap (zlen (log_bytes es) + 56)) as [Hs|Hs].
  { rewrite scan_short in Hsc by lia. injection Hsc as <- _ <-. by rewrite app_nil_r. }
  rewrite (scan_zeros _ _ _ _ _ 56) in Hsc; [injection Hsc as <- _ <-; by rewrite app_nil_r|lia|].
  list_ext x. rewrite lookup_sub. unfold zeros. case_decide as Hx.
  - rewrite lookup_replicate_2 by lia. apply Hc. apply Hcl. lia.
  - symmetry. apply lookup_replicate_None. lia.
Qed.

(** ** Opening what is left *)

Section open.
Context {K : Type} `{SysLaws K} {C : Type} (cb : C → wal_rec_t → C).

(** An outcome of opening a log: [P] when it succeeds; otherwise nothing has
    changed, and if all was [fine] it was a system call that failed. *)
Definition ends_in (v : fsys) (fine : Prop) (P : result_t * wal_t * wal_open_t * C → Prop)
    (x : result_t * wal_t * wal_open_t * C) (v' : fsys) : Prop :=
  if result_ok x.1.1.1 then P x else v' = v ∧ (fine → r_code x.1.1.1 = ERR_SYSCALL).

Lemma wp_fails_found v fine w out (c : C) r P (k : K) :
  opened v (wl_dir_fd w) (view k) → result_ok r = false → (fine → r_code r = ERR_SYSCALL) →
  wp (open_fails w out c r) (λ x k', ends_in v fine P x (view k')) k.
Proof.
  intros Ho Hr Hc. eapply wp_mono; [by apply (wp_open_fails v)|]. cbv beta. intros x k' [Hv Hx].
  unfold ends_in. by rewrite Hx, Hr.
Qed.

Lemma wp_close_found {B} v d fd ino s (f : result_t * wal_seg_t → M K B) Q (k : K) :
  holding v d fd ino (view k) → g_fd s = fd →
  (∀ y k', opened v d (view k') → wp (f y) Q k') → wp (wal_seg_close s ≫= f) Q k.
Proof.
  intros Hh Hs Hf. destruct (holding_fds _ _ _ _ _ Hh) as (Hfd & _). unfold wal_seg_close.
  rewrite Hs, (proj2 (Z.ltb_ge _ _)) by done. apply wp_bind.
  call wp_os_close as r k' Hv. apply wp_ret. apply Hf. rewrite Hv. by eapply holding_closed.
Qed.

(** What is found when all of the segments were opened. *)
Definition all_found (v : fsys) (cap slen expected : Z) (bases : list Z) (w : wal_t) (ctx : C)
    (x : result_t * wal_t * wal_open_t * C) : Prop :=
  ∃ rs next, found v cap slen expected bases rs next ∧
    wl_index x.1.1.2 = foldl wal_index_add (wl_index w) (concat rs) ∧
    x.2 = foldl cb ctx (concat rs) ∧ wal_next_seq x.1.1.2 = next ∧
    wl_seg_base x.1.1.2 = wl_seg_base w.

(** Whatever the segments hold: opening them finds them to follow one another,
    or fails and leaves everything as it was. *)
Lemma wp_open_found v d cap slen bases expected records w out ctx (k : K) :
  opened v d (view k) → bases ≠ [] → Forall (λ b, 0 < b < 2 ^ 64) bases →
  WAL_REC_HEADER_SIZE <= slen < 2 ^ 31 → WAL_REC_HEADER_SIZE <= cap →
  wl_dir_fd w = d → wl_seg_capacity w = cap →
  wp (open_segments cb bases expected records slen w out ctx) (λ x k',
    ends_in v (opens v cap slen expected bases) (all_found v cap slen expected bases w ctx) x (view k')) k.
Proof.
  intros Ho Hne Hbs Hsl Hc Hd Hcap. revert expected records w out ctx k Ho Hd Hcap Hne.
  induction Hbs as [|b bases Hb Hbs IH]; intros expected records w out ctx k Ho Hd Hcap Hne; [done|].
  cbn [open_segments]. destruct (Z.eqb_spec b expected) as [<-|]; cbn [negb];
    [|apply wp_fails_found; [by rewrite Hd|done|by intros []]].
  call wp_open as [r seg] k1 Hx. cbn [fst snd] in Hx. rewrite Hd, Hcap in Hx.
  destruct (result_ok r) eqn:Hr; cbn [negb];
    [|destruct Hx as (_ & Hv & Hcode); apply wp_fails_found; [by rewrite Hd, Hv|done|intros _; apply Hcode; lia]].
  destruct Hx as (fd & ino & i & -> & _ & Hfresh & Hn & Hi & Hv1).
  destruct (opened_same _ _ _ Ho) as [En Ei]. rewrite En in Hn. rewrite Ei in Hi.
  assert (holding v d fd ino (view k1)) as Hh by (by exists (view k)).
  eapply wp_call; [apply (wp_recover (wal_scan_record cb) _ slen (i_data i)); [done|cbn; lia|]|].
  { assert (fd_file (view k1) fd = Some (ino, i)) as Hfd.
    { apply fd_file_lookup. rewrite Hv1. split; [apply lookup_insert_eq|by rewrite <-Hi, <-Ei]. }
    unfold fd_data. cbn [g_fd seg_reset]. by rewrite Hfd. }
  cbv beta. intros [[[r2 seg2] scn] [ix2 ctx2]] k2 [Hv2 Hx]. cbn [fst snd] in Hx. rewrite <-Hv2 in Hh.
  destruct (scan _ _ _ _ _) as [[l e] why] eqn:Es. cbn [g_capacity g_base_seq seg_reset] in Es.
  assert (seg_found v cap slen b l) as Hfound by (exists ino, i, e, why; done).
  assert (opens v cap slen b (b :: bases) → readable why (bases = []) ∧
    opens v cap slen (u64 (b + zlen l)) bases) as Hopens.
  { intros [_ Hx']. by eapply Hx'. }
  assert (result_ok r2 = false ∧ seg2 = seg_reset fd d b cap ∧
      (readable why (bases = []) → r_code r2 = ERR_SYSCALL) ∨ r2 = RESULT_OK ∧
    (ix2, ctx2) = foldl (wal_scan_record cb) (wl_index w, ctx) l ∧
    seg2 = Seg fd d b (u64 (b + zlen l)) (u64 (u64 (b + zlen l) - 1)) cap e e ∧
    scn = Some (Scan (u64 (zlen l)) (u64 (u64 (b + zlen l) - 1)) e (bool_decide (why = Torn)))) as Hy.
  { destruct Hx as [[Hcode ->]|Hx]; [left; split_and!; [by apply syscall_not_ok|done|done]|].
    unfold recovers_to in Hx. cbn [g_capacity g_base_seq g_fd g_dir_fd seg_reset] in Hx.
    destruct why; [right; intuition..|left]. destruct Hx as [-> ->]. done. }
  clear Hx. destruct Hy as [(Hr2 & -> & Hcode)|(-> & Hctx & -> & ->)].
  { rewrite Hr2. cbn [negb]. eapply wp_close_found; [done..|]. intros y k3 Ho3.
    apply wp_fails_found; [cbn; by rewrite Hd|done|]. intros [Hre _]%Hopens. by apply Hcode. }
  cbn [result_ok r_code RESULT_OK Z.eqb negb sc_records sc_last_seq sc_torn].
  rewrite fold_scan_record in Hctx. injection Hctx as -> ->.
  assert (u64 (u64 (u64 (b + zlen l) - 1) + 1) = u64 (b + zlen l)) as ->.
  { rewrite u64_add_l. replace (u64 (b + zlen l) - 1 + 1) with (u64 (b + zlen l)) by lia.
    apply u64_id, u64_range. }
  destruct bases as [|b2 bases].
  - apply wp_ret. unfold ends_in. cbn [fst snd result_ok r_code RESULT_OK Z.eqb]. exists [l]. eexists.
    cbn [found concat]. rewrite app_nil_r. split_and!; done.
  - case_bool_decide as Ht.
    { eapply wp_close_found; [done..|]. intros y k3 Ho3. apply wp_fails_found; [cbn; by rewrite Hd|done|].
      intros [Hre _]%Hopens. by rewrite Ht in Hre. }
    eapply wp_close_found; [done..|]. intros y k3 Ho3.
    eapply wp_mono; [by apply IH|]. cbv beta. intros x k4 Hx. unfold ends_in in *.
    destruct (result_ok x.1.1.1).
    + destruct Hx as (rs & next & Hf & Hix & Hctx & Hn2 & Hb2).
      exists (l :: rs), next. cbn [found concat]. rewrite !foldl_app. cbn in Hix. by rewrite Hix, Hctx.
    + destruct Hx as [Hv Hx]. split; [done|]. intros [_ Ho4]%Hopens. by apply Hx.
Qed.

(** What [wal_open] gives after a crash: a log in which everything that lasts
    comes in order from [first] on, with nothing in front of it if what was
    removed cannot come back ([flushed]); or a failure that changes nothing
    and, if all was [fine], is a system call's. *)
Definition reopened (fine flushed : Prop) (v : fsys) (first : Z) (durable : list wal_rec_t) (ctx : C)
    (x : result_t * wal_t * wal_open_t * C) (v' : fsys) : Prop :=
  let '(r, w, _, ctx') := x in
  if result_ok r then ∃ older more, let recs := older ++ durable ++ more in
    ctx' = foldl cb ctx recs ∧ wl_index w = foldl wal_index_add wal_index_init recs ∧
    wal_first_seq w + zlen older = first ∧ wal_next_seq w = u64 (first + zlen (durable ++ more)) ∧
    (flushed → older = [])
  else v' = v ∧ (fine → r_code r = ERR_SYSCALL).

Lemma lasts_named v vc cap base es :
  lasts_at v cap base es → crash v vc → is_Some (f_names vc !! cstr (wal_seg_name base)).
Proof.
  intros (_ & ino & _ & _ & Hk & _) Hc. exists ino. by apply (lookup_weaken _ _ _ _ Hk (cr_kept _ _ Hc)).
Qed.

(** The removed segments that a crash brought back. *)
Definition back_again (vc : fsys) (first : Z) : list Z :=
  filter (λ b, b < first) (foldl add_name [] (map_to_list (f_names vc)).*1).

Lemma back_elem vc first b :
  b ∈ back_again vc first ↔ b < first ∧ ∃ n, is_Some (f_names vc !! n) ∧ base_of_name n = Some b.
Proof.
  unfold back_again. rewrite list_elem_of_filter, add_names_elem, elem_of_nil.
  setoid_rewrite list_elem_of_fmap. split.
  - intros (Hlt & [[]|(n & ([n' ino] & -> & Hn) & Hb)]). apply elem_of_map_to_list in Hn. split; [done|].
    exists n'. split; [by exists ino|done].
  - intros (Hlt & n & [ino Hn] & Hb). split; [done|]. right. exists n. split; [|done]. exists (n, ino).
    by rewrite elem_of_map_to_list.
Qed.

(** The names of segments there are after a crash. *)
Lemma crash_name v vc cap segs base a n b :
  lasting v cap segs base a → crash v vc → is_Some (f_names vc !! n) → base_of_name n = Some b →
  n = cstr (wal_seg_name b) ∧
  (b ∈ segs.*1 ++ [base; base + zlen a] ∧ is_Some (f_names v !! n) ∨
   ¬ removals_kept v ∧ 0 < b < next_base segs base).
Proof.
  intros L Hcr [ino Hn] Hb. destruct (cr_names _ _ Hcr _ _ Hn) as [Hv|Hg].
  - destruct (ls_names _ _ _ _ _ L n b (ex_intro _ ino Hv) Hb) as [? Hin]. split; [done|]. left. eauto.
  - destruct (ls_gone _ _ _ _ _ L _ _ _ Hg Hb) as [? Hlt]. split; [done|]. right. split; [|done].
    intros Hk. specialize (Hk _ _ Hg). congruence.
Qed.

Lemma lasting_first v cap segs base a :
  lasting v cap segs base a → 0 < next_base segs base <= base ∧ next_base segs base ∈ segs.*1 ++ [base].
Proof.
  intros L. destruct segs as [|[b es] segs]; cbn; [split; [|by left]; pose proof (ls_base _ _ _ _ _ L); lia|].
  split; [|by left]. pose proof (seg_chain_bound _ _ b es (ls_chain _ _ _ _ _ L) ltac:(by left)). lia.
Qed.

Lemma lasting_ascends v cap segs base a b :
  lasting v cap segs base a → b ∈ segs.*1 ++ [base] → next_base segs base <= b <= base.
Proof.
  intros L Hb. destruct (chain_ascending _ _ (ls_chain _ _ _ _ _ L)) as [Hs Hin]. split.
  - destruct segs as [|[b0 es] segs]; cbn in *; [apply list_elem_of_singleton in Hb; lia|].
    apply StronglySorted_inv in Hs as [_ Hs]. rewrite Forall_forall in Hs.
    apply elem_of_cons in Hb as [->|Hb]; [lia|]. specialize (Hs _ Hb). lia.
  - apply elem_of_app in Hb as [Hb| ->%list_elem_of_singleton]; [|lia].
    apply list_elem_of_fmap in Hb as ([b' es'] & -> & Hb). specialize (Hin _ _ Hb). cbn. lia.
Qed.

(** The table after a crash: the segments that last, in front of them removed
    ones that came back, and behind them perhaps one more. *)
Lemma crash_table v vc cap segs base a :
  lasting v cap segs base a → crash v vc → ∃ back ext,
    Forall (λ b, 0 < b < 2 ^ 64) (back ++ segs.*1 ++ base :: ext) ∧
    StronglySorted Z.lt (back ++ [next_base segs base]) ∧
    (∀ todo, listing vc todo → foldl add_name [] todo = back ++ segs.*1 ++ base :: ext) ∧
    (removals_kept v → back = []) ∧ (names_in v (segs.*1 ++ [base]) → ext = []).
Proof.
  intros L Hcr. pose proof L as [Hc (Hb & Hch & Hmax) Hcl Hla Hnm Hgone Hcap].
  destruct (chain_ascending _ _ Hc) as [Hs Hin]. destruct (lasting_first _ _ _ _ _ L) as [Hfst _].
  pose proof (λ b, lasting_ascends _ _ _ _ _ b L) as Hle. pose proof (λ n b, crash_name _ _ _ _ _ _ n b L Hcr) as Hnames.
  set (first := next_base segs base) in *. set (next := base + zlen a) in *.
  set (back := back_again vc first). set (there := f_names vc !! cstr (wal_seg_name next)).
  set (ext := match a, there with _ :: _, Some _ => [next] | _, _ => [] end).
  assert (∀ b, b ∈ ext → b = next ∧ base < next ∧ is_Some there) as Hext.
  { intros b Hx. unfold ext in Hx. destruct a as [|e a], there; try by apply elem_of_nil in Hx.
    apply list_elem_of_singleton in Hx as ->. unfold next. cbn [length]. split_and!; [done|lia|done]. }
  assert (∀ b, b ∈ back → ¬ removals_kept v ∧ 0 < b < first ∧ is_Some (f_names vc !! cstr (wal_seg_name b))) as Hback.
  { intros b (Hlt & n & Hn & Hbn)%back_elem. destruct (Hnames _ _ Hn Hbn) as [-> [[Hx _]|[Hk Hx]]]; [|done].
    exfalso. assert (first <= b); [|lia]. apply elem_of_app in Hx as [Hx|[->|[->|[]%elem_of_nil]%elem_of_cons]%elem_of_cons].
    - apply Hle, elem_of_app. by left.
    - lia.
    - unfold next. lia. }
  assert (∀ b, b ∈ segs.*1 ++ [base] → is_Some (f_names vc !! cstr (wal_seg_name b))) as Hthere.
  { intros b [Hx| ->%list_elem_of_singleton]%elem_of_app; [|by eapply lasts_named].
    apply list_elem_of_fmap in Hx as ([b' es'] & -> & Hx). eapply lasts_named; [by apply Hcl|done]. }
  assert (∀ b, b ∈ back ++ segs.*1 ++ base :: ext → 0 < b < 2 ^ 64 ∧ is_Some (f_names vc !! cstr (wal_seg_name b))) as Hall.
  { intros b. rewrite (app_assoc _ [base] ext : segs.*1 ++ base :: ext = _). 
    intros [Hx|[Hx|Hx]%elem_of_app]%elem_of_app.
    - destruct (Hback _ Hx) as (_ & ? & ?). split; [lia|done].
    - specialize (Hle _ Hx). split; [lia|by apply Hthere].
    - destruct (Hext _ Hx) as (-> & ? & ?). split; [lia|done]. }
  exists back, ext. split; [apply Forall_forall; intros b Hx; by destruct (Hall b Hx)|].
  assert (StronglySorted Z.lt back) as Hsb.
  { apply StronglySorted_filter, add_names_sorted. constructor. }
  split.
  { apply StronglySorted_app. split_and!; [|done|repeat constructor].
    intros x y Hx ->%list_elem_of_singleton. destruct (Hback _ Hx). lia. }
  split; [|split].
  - intros todo Hl. apply (listed_table vc); [done| | |done].
    + rewrite (app_assoc _ [base] ext : segs.*1 ++ base :: ext = _).
      apply StronglySorted_app. split_and!; [|done|apply StronglySorted_app; split_and!; [|done|]].
      * intros x y Hx [Hy|Hy]%elem_of_app; destruct (Hback _ Hx) as (_ & ? & _); [specialize (Hle _ Hy); lia|].
        destruct (Hext _ Hy) as (-> & ? & _). lia.
      * intros x y Hx (-> & ? & _)%Hext. specialize (Hle _ Hx). lia.
      * unfold ext. destruct a, there; repeat constructor.
    + intros n b Hn Hbn. destruct (Hnames _ _ Hn Hbn) as [-> [[Hx _]|[_ Hx]]].
      * apply elem_of_app. right. apply elem_of_app in Hx as [?|Hx]; apply elem_of_app; [by left|right].
        apply elem_of_cons in Hx as [->|Hx]; [by left|]. apply list_elem_of_singleton in Hx as ->.
        fold next in Hn. destruct Hn as [ino Hn]. unfold ext, there. rewrite Hn. destruct a as [|e a]; [|by right; left].
        unfold next. cbn. rewrite Z.add_0_r. by left.
      * apply elem_of_app. left. apply back_elem. split; [lia|]. eauto.
  - intros Hk. destruct back as [|b back'] eqn:E; [done|]. by destruct (Hback b ltac:(by left)).
  - intros Hstrict. destruct ext as [|b ext'] eqn:Ee; [done|]. exfalso.
    destruct (Hext b ltac:(by left)) as (-> & Hlt & Hn).
    assert (base_of_name (cstr (wal_seg_name next)) = Some next) as Hbn
      by (rewrite cstr_name by lia; apply base_of_seg_name; lia).
    destruct (Hnames _ _ Hn Hbn) as [_ [[_ Hv]|[_ Hx]]]; [|lia].
    destruct (Hstrict _ _ Hv Hbn) as [_ Hx]. specialize (Hle _ Hx). lia.
Qed.

Lemma crash_opens v vc cap slen segs base a b :
  lasting v cap segs base a → undamaged v cap segs base (a ++ b) → crash v vc →
  WAL_REC_MAX_SIZE <= slen → opens vc cap slen (next_base segs base) (segs.*1 ++ [base]).
Proof.
  intros [Hc (Hb & Hch & Hmax) Hcl Hla _ _ Hcap] [Hun _] Hcr Hsl.
  induction segs as [|[b0 es] segs IH].
  - split; [done|]. intros ino i l e why Hn Hi Hsc. split; [|done].
    destruct (lasts_image _ _ _ _ _ _ _ Hla Hcr Hn Hi) as (j & Hn' & Hj & [Hlen _] & _).
    destruct (Hun base (a ++ b) ltac:(by left)) as (n & j' & Hn2 & Hj2 & Hl2 & _).
    assert (n = ino) as -> by congruence. assert (j' = j) as -> by congruence.
    assert (cap <= zlen (i_data i)) as Hl by lia.
    pose proof (scan_readable _ _ _ _ _ _ _ _ Hsl Hl Hsc) as Hr. by destruct why.
  - destruct Hc as (Hb0 & He0 & Hch0 & Hnx & Hc). split; [done|]. intros ino i l e why Hn Hi Hsc.
    assert (next_base segs base <= base) as Hle.
    { destruct segs as [|[b1 e1] segs]; cbn; [lia|].
      pose proof (seg_chain_bound _ _ b1 e1 Hc ltac:(by left)). lia. }
    destruct (clean_scan v vc cap slen b0 es ino i l e why) as [-> ->]; try done;
      [apply Hcl; by left|apply Hun; by left|lia|]. split; [done|].
    cbn [fst]. rewrite length_fmap, u64_id by lia. rewrite Hnx.
    apply IH; [done| |]; intros b' es' Hin; [apply Hcl|apply Hun]; by right.
Qed.

Lemma wp_open_lasting rounds w0 path cap scratch ctx v segs base a b (k : K) :
  lasting v cap segs base a → crash v (view k) → (size (f_names (view k)) + 2 < rounds)%nat →
  WAL_REC_MAX_SIZE <= zlen scratch < 2 ^ 31 →
  wp (wal_open cb rounds w0 path cap scratch ctx) (λ x k', ∃ y, x = Some y ∧
    reopened (undamaged v cap segs base (a ++ b) ∧ removals_kept v ∧ zlen segs + 1 < WAL_MAX_SEGMENTS)
      (removals_kept v) (view k) (next_base segs base) (lasting_records segs a) ctx y (view k')) k.
Proof.
  intros L Hcr Hrounds Hsl.
  destruct (crash_table _ _ _ _ _ _ L Hcr) as (back & ext & Hbs & Hsort & Htable & Hback & Hext).
  assert (WAL_REC_HEADER_SIZE <= WAL_REC_MAX_SIZE) by (by vm_compute).
  destruct (back ++ segs.*1 ++ base :: ext) as [|b0 bs] eqn:Eb; [by destruct back, segs|].
  assert (back = [] → b0 = next_base segs base) as Hb0.
  { intros ->. destruct segs as [|[b1 e1] segs']; cbn in Eb; by injection Eb. }
  pose proof (ls_cap _ _ _ _ _ L).
  apply (wp_open_listed cb rounds w0 path cap scratch ctx b0 bs); [done|done|lia|lia|..].
  { intros [[[r w] out] c] Hy. cbn in Hy |- *. destruct Hy as [Hy|[Hy Hmany]]; [by rewrite (syscall_not_ok _ Hy)|].
    rewrite Hy. split; [done|]. intros ([_ ->%Hext] & ->%Hback & Hfew). exfalso.
    apply (f_equal (λ l, zlen l)) in Eb. rewrite !length_app, length_fmap in Eb. cbn in Eb. lia. }
  intros d active out k1 Ho.
  eapply wp_mono; [apply (wp_open_found (view k) d cap); try done; lia|].
  cbv beta. intros [[[r w] out'] ctx'] k2. unfold ends_in. cbn [fst snd reopened]. destruct (result_ok r).
  - intros (rs & next & Hf & Hix & Hctx & Hnx & Hb). cbn [fst snd] in *.
    assert (next = u64 (b0 + zlen (concat rs))) as Hnext.
    { eapply found_next; [|exact Hf]. apply Forall_inv in Hbs. lia. }
    rewrite <-Eb in Hf, Hbs.
    destruct (found_lasting v (view k) cap (zlen scratch) back segs base a ext rs b0 next) as (older & more & Hrs & Hlen & Hold);
      [done|done|lia|done| |done|].
    { apply Forall_app in Hbs as [Hbk Hbs]. apply Forall_app. split; [done|]. constructor; [|done].
      destruct segs as [|[b1 e1] segs']; by apply Forall_inv in Hbs. }
    exists older, more. cbv zeta. rewrite <-Hrs. split_and!; try done.
    + unfold wal_first_seq. by rewrite Hb.
    + rewrite Hnx, Hnext, Hrs, <-Hlen, !length_app. f_equal. lia.
    + intros Hk. by apply Hold, Hback.
  - intros [Hv Hcode]. split; [done|]. intros (Hun & Hk & _). apply Hcode. rewrite <-Eb, (Hb0 (Hback Hk)).
    rewrite (Hext (proj2 Hun)), (Hback Hk). eapply crash_opens; [done|exact Hun|done|lia].
Qed.
End open.

(** ** Changes that keep what lasts *)

Lemma lasts_frame v v' cap base es :
  lasts_at v cap base es →
  f_names v' !! cstr (wal_seg_name base) = f_names v !! cstr (wal_seg_name base) →
  (f_names v !! cstr (wal_seg_name base) = f_kept v !! cstr (wal_seg_name base) →
   f_kept v' !! cstr (wal_seg_name base) = f_names v !! cstr (wal_seg_name base)) →
  (∀ ino, f_names v !! cstr (wal_seg_name base) = Some ino → is_Some (f_inodes v !! ino) →
     f_inodes v' !! ino = f_inodes v !! ino) →
  lasts_at v' cap base es.
Proof.
  intros (Hc & ino & i & Hn & Hk & Hi & Hst) En Ek Ei. split; [done|]. exists ino, i.
  rewrite En, Ek, Ei by (congruence || eauto). done.
Qed.

Lemma names_in_insert v v' l base ino :
  names_in v l → 0 < base < 2 ^ 64 → f_names v' = <[cstr (wal_seg_name base) := ino]> (f_names v) →
  names_in v' (l ++ [base]).
Proof.
  intros Hnm Hb En n b Hn Hbn. rewrite En in Hn. destruct Hn as [j Hj].
  apply lookup_insert_Some in Hj as [[<- _]|[_ Hj]].
  - rewrite cstr_name, base_of_seg_name in Hbn by lia. injection Hbn as <-. split; [done|].
    apply elem_of_app. right. by left.
  - destruct (Hnm n b ltac:(by exists j) Hbn). split; [done|]. apply elem_of_app. by left.
Qed.

Lemma names_in_mono v l l' : names_in v l → l ⊆ l' → names_in v l'.
Proof. intros Hn Hl n b Hx Hb. destruct (Hn n b Hx Hb). split; [done|by apply Hl]. Qed.

Lemma names_in_unlink v v' b l :
  names_in v (b :: l) → f_names v' = delete (cstr (wal_seg_name b)) (f_names v) → names_in v' l.
Proof.
  intros Hnm En n b' Hn Hbn. rewrite En in Hn. destruct Hn as [j Hj].
  apply lookup_delete_Some in Hj as [Hne Hj].
  destruct (Hnm n b' ltac:(by exists j) Hbn) as [-> Hin]. split; [done|].
  by apply elem_of_cons in Hin as [->|Hin].
Qed.

(** Nothing that lasts is touched by a file made under a new name. *)
Lemma lasts_new_file v v' cap name ino base es :
  lasts_at v cap base es → f_names v !! name = None → f_inodes v !! ino = None →
  f_names v' = <[name := ino]> (f_names v) → (f_kept v' = f_kept v ∨ f_kept v' = f_names v') →
  (∀ n, n ≠ ino → f_inodes v' !! n = f_inodes v !! n) →
  lasts_at v' cap base es ∧ cstr (wal_seg_name base) ≠ name.
Proof.
  intros Hla Hn Hi En Ek Ei.
  assert (cstr (wal_seg_name base) ≠ name) as Hne.
  { destruct Hla as (_ & j & _ & Hj & _). intros He. congruence. }
  split; [|done].
  assert (f_names v' !! cstr (wal_seg_name base) = f_names v !! cstr (wal_seg_name base)) as Hsame.
  { rewrite En. by rewrite lookup_insert_ne. }
  eapply lasts_frame; [done|done| |].
  - intros Hk. destruct Ek as [-> | ->]; [congruence|done].
  - intros j Hj Hs. apply Ei. intros ->. destruct Hs. congruence.
Qed.

Lemma lasting_left v v' cap segs base a :
  lasting v cap segs base a → left_over (cstr (wal_seg_name (base + zlen a))) v v' →
  lasting v' cap segs base a ∧ f_fds v' = f_fds v.
Proof.
  intros L [-> |(ino & i & Hn & Hi & ->)]; [done|]. split; [|done].
  destruct L as [Hc Hb Hcl Hla Hnm Hgone Hcap].
  assert (∀ b es, lasts_at v cap b es → lasts_at (set_inode ino i
    (v <| f_names ::= insert (cstr (wal_seg_name (base + zlen a))) ino |>)) cap b es) as Hfr.
  { intros b es Hl. eapply lasts_new_file; try done; [by left|]. intros n Hne. cbn.
    by rewrite lookup_insert_ne. }
  constructor; try done; [intros; by apply Hfr, Hcl|by apply Hfr|].
  eapply names_in_mono; [eapply (names_in_insert v _ _ (base + zlen a) ino); [done|lia|done]|].
  intros b. rewrite !elem_of_app, !elem_of_cons. tauto.
Qed.

(** A segment that was created continues what lasts. *)
Lemma lasting_next v v' cap segs base a ino :
  let next := base + zlen a in
  lasting v cap segs base a → f_names v !! cstr (wal_seg_name next) = None → f_inodes v !! ino = None →
  f_names v' = <[cstr (wal_seg_name next) := ino]> (f_names v) → f_disk v' = Disk (f_names v') [] →
  (∀ n, n ≠ ino → f_inodes v' !! n = f_inodes v !! n) → is_Some (f_inodes v' !! ino) →
  lasting v' cap (segs ++ [(base, a)]) next [] ∧ names_in v' ((segs ++ [(base, a)]).*1 ++ [next]) ∧
  ∀ b es, (b, es) ∈ segs ++ [(base, a)] → f_names v' !! cstr (wal_seg_name b) ≠ Some ino.
Proof.
  intros next [Hc (Hb0 & Hch & Hmax) Hcl Hla Hnm _ Hcap] Hnone Hi En Ed Ei [i Hi'].
  assert (f_kept v' = f_names v') as Ek by (by rewrite Ed).
  fold next in Hnm, Hmax.
  assert (∀ b es, (b, es) ∈ segs ++ [(base, a)] → lasts_at v cap b es) as Hall.
  { intros b es [Hin|[= -> ->]%list_elem_of_singleton]%elem_of_app; [by apply Hcl|done]. }
  assert (names_in v' ((segs ++ [(base, a)]).*1 ++ [next])) as Hnm'.
  { eapply names_in_insert; [|lia|done]. intros n b Hn Hbn. destruct (Hnm n b Hn Hbn) as [-> Hin].
    split; [done|]. rewrite fmap_app. apply elem_of_app in Hin as [?|Hin]; apply elem_of_app; [by left|right].
    apply elem_of_cons in Hin as [->|Hin]; [by left|]. apply list_elem_of_singleton in Hin as ->.
    rewrite Hnone in Hn. by destruct Hn. }
  assert (a ≠ []) as Hne.
  { intros ->. destruct Hla as (_ & j & _ & Hj & _). unfold next in Hnone. cbn in Hnone.
    rewrite Z.add_0_r in Hnone. congruence. }
  split_and!; [|done|].
  - constructor; try done; [by apply seg_chain_snoc|cbn; split_and!; [lia|done|lia]| | | |by eapply flushed_below].
    + intros b es Hin. eapply lasts_new_file; eauto.
    + split; [unfold WAL_REC_HEADER_SIZE in Hcap; cbn; lia|]. exists ino, i. rewrite Ek, En, lookup_insert_eq. split_and!; try done.
    + eapply names_in_mono; [exact Hnm'|]. rewrite Z.add_0_r. intros b.
      rewrite !elem_of_app, !elem_of_cons. tauto.
  - intros b es Hin. destruct (lasts_new_file v v' cap _ ino b es (Hall _ _ Hin) Hnone Hi En) as [_ Hx];
      [by right|done|].
    destruct (Hall _ _ Hin) as (_ & m & j & Hm & _ & Hj & _).
    rewrite En, lookup_insert_ne, Hm by done. intros [= ->]. congruence.
Qed.

(** ** Changes that do no damage *)

Lemma clean_frame v v' cap base es :
  clean_at v cap base es →
  f_names v' !! cstr (wal_seg_name base) = f_names v !! cstr (wal_seg_name base) →
  (∀ ino, f_names v !! cstr (wal_seg_name base) = Some ino → is_Some (f_inodes v !! ino) →
     f_inodes v' !! ino = f_inodes v !! ino) →
  clean_at v' cap base es.
Proof.
  intros (ino & i & Hn & Hi & Hcl) En Ei. exists ino, i. rewrite En, Ei by eauto. done.
Qed.

Lemma undamaged_frame v v' cap segs base all :
  f_names v' = f_names v → f_inodes v' = f_inodes v →
  undamaged v cap segs base all → undamaged v' cap segs base all.
Proof.
  intros En Ei [Hcl Hnm]. split.
  - intros b es Hin. eapply clean_frame; [by apply Hcl|by rewrite En|by rewrite Ei].
  - intros n b. rewrite En. apply Hnm.
Qed.

Lemma undamaged_active v cap segs base all all' ino i i' :
  undamaged v cap segs base all → f_inodes v !! ino = Some i →
  f_names v !! cstr (wal_seg_name base) = Some ino →
  (∀ b es, (b, es) ∈ segs → f_names v !! cstr (wal_seg_name b) ≠ Some ino) →
  (clean_tail cap (zlen (log_bytes all)) i → clean_tail cap (zlen (log_bytes all')) i') →
  undamaged (set_inode ino i' v) cap segs base all'.
Proof.
  intros [Hcl Hnm] Hi Hn Hne Htail. split; [|exact Hnm].
  intros b es [Hin|[= -> ->]%list_elem_of_singleton]%elem_of_app.
  - eapply clean_frame; [apply Hcl, elem_of_app; by left|done|]. intros n Hn' _. cbn.
    rewrite lookup_insert_ne; [done|]. intros <-. by eapply Hne.
  - destruct (Hcl base all) as (n & j & Hn' & Hj & Hx); [apply elem_of_app; right; by left|].
    assert (n = ino) as -> by congruence. assert (j = i) as -> by congruence.
    exists ino, i'. cbn. rewrite lookup_insert_eq. split_and!; [done|done|by apply Htail].
Qed.

Lemma undamaged_next v v' cap segs base a ino :
  let next := base + zlen a in
  undamaged v cap segs base a → names_in v' ((segs ++ [(base, a)]).*1 ++ [next]) →
  f_names v !! cstr (wal_seg_name next) = None → f_inodes v !! ino = None →
  f_names v' = <[cstr (wal_seg_name next) := ino]> (f_names v) →
  (∀ n, n ≠ ino → f_inodes v' !! n = f_inodes v !! n) →
  f_inodes v' !! ino = Some (Inode (zeros cap) (Some <$> zeros cap)) → 0 <= cap →
  undamaged v' cap (segs ++ [(base, a)]) next [].
Proof.
  intros next [Hcl _] Hnm Hnone Hi En Ei Hi' Hcap. split; [|done].
  intros b es [Hin|[= -> ->]%list_elem_of_singleton]%elem_of_app.
  - pose proof (Hcl _ _ Hin) as Hx. pose proof Hx as (n & j & Hn & Hj & _). eapply clean_frame; [exact Hx| |].
    + rewrite En. rewrite lookup_insert_ne; [done|]. intros He. congruence.
    + intros m Hm [? Hm']. apply Ei. intros ->. congruence.
  - exists ino. eexists. rewrite En, lookup_insert_eq. split_and!; [done|exact Hi'|].
    split; [cbn; rewrite length_fmap, length_zeros; lia|]. intros x Hx. cbn [i_data i_stable].
    rewrite list_lookup_fmap. unfold zeros. rewrite lookup_replicate_2 by lia. done.
Qed.

Lemma undamaged_unlink v v' cap b0 es0 segs base all :
  undamaged v cap ((b0, es0) :: segs) base all →
  f_names v' = delete (cstr (wal_seg_name b0)) (f_names v) → f_inodes v' = f_inodes v →
  (∀ b es, (b, es) ∈ segs ++ [(base, all)] → cstr (wal_seg_name b0) ≠ cstr (wal_seg_name b)) →
  undamaged v' cap segs base all.
Proof.
  intros [Hcl Hnm] En Ei Hne. split; [|by eapply (names_in_unlink v _ b0)].
  intros b es Hin. eapply clean_frame; [apply Hcl; by right| |by rewrite Ei].
  rewrite En, lookup_delete_ne; [done|]. by eapply Hne.
Qed.

Lemma clean_tail_outside cap n m i i' :
  clean_tail cap n i → same_outside i i' n m → 0 <= m → clean_tail cap (n + m) i'.
Proof.
  intros [Hl Hc] [[_ Es] Hout] Hm. split; [lia|]. intros j Hj.
  destruct (Hout j ltac:(lia)) as [-> ->]. apply Hc. lia.
Qed.

Lemma clean_tail_flushed cap n i :
  clean_tail cap n i → cap <= zlen (i_data i) → clean_tail cap n (Inode (i_data i) (Some <$> i_data i)).
Proof.
  intros [Hl Hc] Hd. split; [cbn; by rewrite length_fmap|]. intros j Hj. destruct (Hc j Hj) as [Hx _].
  cbn. by rewrite list_lookup_fmap, Hx.
Qed.
