(* ===== verification/Durable.v ===== *)
(** * A log in use, up to a crash

    [log_at cap t] ties the log in memory to the files: which records were given
    to it, which of them it still holds, which are buffered and which last.
    Every operation keeps it, whichever of its calls fails, a rollover that
    leaves the log without an active file included. *)

From S2P Require Import Prelude Core Crc32c Fmt Msg Conn Record Index Os Session Segment Wal Cursor Reopen Crash.

(** ** The state *)

(** The active segment with durable records [a] and buffered ones [b]: in its
    file, or without a file after a rollover that failed. *)
Inductive active_at (v : fsys) (s : wal_seg_t) (segs : list (Z * list entry)) (a b : list entry) : Prop :=
| at_file ino i :
    0 <= g_fd s → fd_file v (g_fd s) = Some (ino, i) → seg_file s i a b →
    f_names v !! cstr (wal_seg_name (g_base_seq s)) = Some ino →
    (∀ base es, (base, es) ∈ segs → f_names v !! cstr (wal_seg_name base) ≠ Some ino) →
    names_in v (segs.*1 ++ [g_base_seq s]) → active_at v s segs a b
| at_none :
    g_fd s < 0 → b = [] → g_write_off s = zlen (log_bytes a) → g_synced_off s = g_write_off s →
    g_next_seq s = g_base_seq s + zlen a → g_durable_seq s = g_next_seq s - 1 → active_at v s segs a b.

(** The log holds the end of its history: what is in front of it was removed. *)
Definition holds_end (hist : list entry) (segs : list (Z * list entry)) (base : Z) (a b : list entry) : Prop :=
  ∃ b0 old, 0 < b0 ∧ chained b0 hist ∧ hist = old ++ all_records segs a b ∧
    next_base segs base = b0 + zlen old.

(** [tidy] says that nothing has gone wrong so far, in a directory that was
    without damage: there is none now, and no removed segment can come back. *)
Record log_at (cap : Z) (tidy : bool) (v : fsys) (w : wal_t) (hist : list entry)
    (segs : list (Z * list entry)) (a b : list entry) : Prop := {
  lg_last : lasting v (wl_seg_capacity w) segs (g_base_seq (wl_active w)) a;
  lg_bases : wl_seg_base w = segs.*1 ++ [g_base_seq (wl_active w)];
  lg_dir : ∃ todo, f_fds v !! wl_dir_fd w = Some (FDir todo);
  lg_cap : g_capacity (wl_active w) = wl_seg_capacity w ∧ wl_seg_capacity w = cap;
  lg_active : active_at v (wl_active w) segs a b;
  lg_hist : holds_end hist segs (g_base_seq (wl_active w)) a b;
  lg_tidy : tidy = true → undamaged v cap segs (g_base_seq (wl_active w)) (a ++ b) ∧ removals_kept v }.
#[global] Arguments lg_last {_ _ _ _ _ _ _ _} _.
#[global] Arguments lg_bases {_ _ _ _ _ _ _ _} _.
#[global] Arguments lg_dir {_ _ _ _ _ _ _ _} _.
#[global] Arguments lg_cap {_ _ _ _ _ _ _ _} _.
#[global] Arguments lg_active {_ _ _ _ _ _ _ _} _.
#[global] Arguments lg_hist {_ _ _ _ _ _ _ _} _.
#[global] Arguments lg_tidy {_ _ _ _ _ _ _ _} _.

Definition in_use (cap : Z) (tidy : bool) (v : fsys) (w : wal_t) (hist : list entry) : Prop :=
  ∃ segs a b, log_at cap tidy v w hist segs a b.

Section state.
Context {cap : Z} {t : bool}.

Lemma log_untidy v w hist segs a b : log_at cap t v w hist segs a b → log_at cap false v w hist segs a b.
Proof. intros []. by constructor. Qed.

Lemma untidy v w hist : in_use cap t v w hist → in_use cap false v w hist.
Proof. intros (segs & a & b & L). exists segs, a, b. by apply log_untidy. Qed.

Lemma tidy_and v w hist ok : in_use cap t v w hist → in_use cap (t && ok) v w hist.
Proof. destruct ok; [by rewrite andb_true_r|rewrite andb_false_r; apply untidy]. Qed.

(** *** What it says of the sequences *)

Lemma seg_chain_total segs base : seg_chain segs base → next_base segs base + zlen (concat segs.*2) = base.
Proof.
  induction segs as [|[b es] segs IH]; cbn; [lia|]. intros (_ & _ & _ & Hn & Hc).
  rewrite length_app. specialize (IH Hc). lia.
Qed.

Lemma active_next v s segs a b :
  active_at v s segs a b → g_next_seq s = g_base_seq s + zlen (a ++ b) ∧
    g_durable_seq s = g_base_seq s + zlen a - 1.
Proof.
  intros [ino i _ _ Hs _ _ _|_ -> _ _ -> ->]; [|rewrite app_nil_r; split; lia].
  split; [by rewrite (sf_next _ _ _ _ Hs)|by rewrite (sf_durable _ _ _ _ Hs)].
Qed.

Lemma hist_next hist segs base a b :
  holds_end hist segs base a b → seg_chain segs base →
  ∃ b0, 0 < b0 ∧ chained b0 hist ∧ b0 + zlen hist = base + zlen (a ++ b).
Proof.
  intros (b0 & old & Hb & Hc & -> & Hn) Hch%seg_chain_total. exists b0. split_and!; [done|done|].
  unfold all_records. rewrite !length_app in *. lia.
Qed.

Lemma in_use_next v w hist :
  in_use cap t v w hist → ∃ b0, 0 < b0 ∧ chained b0 hist ∧ b0 + zlen hist = wal_next_seq w.
Proof.
  intros (segs & a & b & [L _ _ _ Ha Hh _]). destruct (hist_next _ _ _ _ _ Hh (ls_chain _ _ _ _ _ L)) as (b0 & ? & ? & E).
  exists b0. split_and!; [done..|]. unfold wal_next_seq. by destruct (active_next _ _ _ _ _ Ha) as [-> _].
Qed.

(** What is appended to the table leaves its first segment the first. *)
Lemma in_use_first v w w' hist :
  in_use cap t v w hist → wl_seg_base w `prefix_of` wl_seg_base w' → wal_first_seq w' = wal_first_seq w.
Proof.
  intros (segs & a & b & L) [tl E]. unfold wal_first_seq. rewrite E, (lg_bases L). by destruct segs as [|[??]?].
Qed.

Lemma holds_end_snoc hist segs base a b r p :
  holds_end hist segs base a b → seg_chain segs base → w_seq r = base + zlen (a ++ b) → stored r p →
  holds_end (hist ++ [(r, p)]) segs base a (b ++ [(r, p)]).
Proof.
  intros (b0 & old & Hb0 & Hc & -> & Hnb) Hch%seg_chain_total Hs Hst. exists b0, old.
  split_and!; [done| |by rewrite <-app_assoc, all_records_snoc|done].
  apply chained_app. split; [done|]. cbn. split_and!; [|done|done].
  rewrite Hs. unfold all_records. rewrite !length_app in *. lia.
Qed.

(** The lasting records are those of the history from the first sequence the
    log holds to the last it counts as durable. *)
Definition held (first last : Z) (hist : list entry) : list wal_rec_t :=
  filter (λ r, first <= w_seq r <= last) hist.*1.

Lemma held_none first last b es :
  chained b es → last < b ∨ b + zlen es <= first → held first last es = [].
Proof.
  intros Hc Hr. unfold held. revert b Hc Hr. induction es as [|[r p] es IH]; intros b Hc Hr; [done|].
  destruct Hc as (Hs & _ & Hc). cbn [length] in Hr. rewrite fmap_cons, filter_cons, decide_False by (cbn; lia).
  apply (IH _ Hc). lia.
Qed.

Lemma held_all first last b es :
  chained b es → first <= b → b + zlen es <= last + 1 → held first last es = es.*1.
Proof.
  intros Hc Hf Hl. unfold held. revert b Hc Hf Hl. induction es as [|[r p] es IH]; intros b Hc Hf Hl; [done|].
  destruct Hc as (Hs & _ & Hc). cbn [length] in Hl. rewrite !fmap_cons, filter_cons, decide_True by (cbn; lia).
  f_equal. apply (IH _ Hc); lia.
Qed.

Lemma held_app first last x y : held first last (x ++ y) = held first last x ++ held first last y.
Proof. unfold held. by rewrite fmap_app, filter_app. Qed.

Lemma held_lasting v w hist segs a b :
  log_at cap t v w hist segs a b →
  wal_first_seq w = next_base segs (g_base_seq (wl_active w)) ∧
  held (wal_first_seq w) (wal_durable_seq w) hist = lasting_records segs a.
Proof.
  intros [L Hb _ _ Ha (b0 & old & Hb0 & Hc & -> & Hn)].
  assert (wal_first_seq w = next_base segs (g_base_seq (wl_active w))) as Hfirst.
  { unfold wal_first_seq. rewrite Hb. by destruct segs as [|[??]?]. }
  split; [done|]. rewrite Hfirst, Hn. unfold wal_durable_seq, lasting_records.
  destruct (active_next _ _ _ _ _ Ha) as [_ ->].
  pose proof (seg_chain_total _ _ (ls_chain _ _ _ _ _ L)) as Ht.
  unfold all_records in *. rewrite (app_assoc _ a b) in *. rewrite !chained_app in Hc.
  destruct Hc as (Hc1 & Hc2 & Hc3). rewrite !held_app.
  rewrite (held_none _ _ _ old Hc1), (held_none _ _ _ b Hc3) by (rewrite ?length_app; lia).
  rewrite <-held_app, (held_all _ _ _ _ (proj2 (chained_app _ _ _) Hc2)) by (rewrite ?length_app; lia).
  by rewrite app_nil_r.
Qed.

(** *** Changes of the files that keep it *)

(** A change of the active segment and its file. *)
Lemma state_active v w hist hist' segs a b ino i s' i' a' b' :
  log_at cap t v w hist segs a b → 
  fd_file v (g_fd (wl_active w)) = Some (ino, i) →
  f_names v !! cstr (wal_seg_name (g_base_seq (wl_active w))) = Some ino →
  (∀ base es, (base, es) ∈ segs → f_names v !! cstr (wal_seg_name base) ≠ Some ino) →
  names_in v (segs.*1 ++ [g_base_seq (wl_active w)]) → 0 <= g_fd (wl_active w) →
  seg_file s' i' a' b' → g_fd s' = g_fd (wl_active w) →
  g_base_seq s' = g_base_seq (wl_active w) → g_capacity s' = g_capacity (wl_active w) →
  holds_end hist' segs (g_base_seq (wl_active w)) a' b' →
  (t = true → clean_tail cap (zlen (log_bytes (a ++ b))) i → clean_tail cap (zlen (log_bytes (a' ++ b'))) i') →
  log_at cap t (set_inode ino i' v) (w <| wl_active := s' |>) hist' segs a' b'.
Proof.
  intros [[Hc [Hb0 _] Hcl Hla Hnm Hgone Hcap] Hb Hdir [Hcp Hcapw] _ _ Ht] Hf Hn Hne Hstrict Hfd Hs' Efd Eb Ec Hh Htail.
  pose proof (seg_file_stable _ _ _ _ Hs') as [Hlen Hst].
  pose proof (sf_base _ _ _ _ Hs') as [_ Hmax]. pose proof (sf_chain _ _ _ _ Hs') as Hch.
  rewrite chained_app in Hch. rewrite length_app in Hmax. rewrite Eb in Hmax, Hch.
  constructor; cbn; rewrite ?Eb, ?Ec; try done.
  - constructor; try done; [split_and!; [done|apply Hch|lia]| | |].
    + intros base es Hin. eapply lasts_frame; [by apply Hcl|done|done|]. intros n Hn' _. cbn.
      rewrite lookup_insert_ne; [done|]. intros <-. by eapply Hne.
    + destruct Hla as (_ & n & j & Hn' & Hk & _). split; [lia|]. exists ino, i'. cbn.
      rewrite lookup_insert_eq. split_and!; [done|congruence|done|done].
    + intros n base' Hx Hbn. destruct (Hstrict n base' Hx Hbn) as [? Hin]. split; [done|].
      apply elem_of_app in Hin as [?| ->%list_elem_of_singleton]; apply elem_of_app; [by left|right; by left].
  - eapply at_file; rewrite ?Efd, ?Eb; try done. by eapply fd_file_set_inode.
  - intros Et. destruct (Ht Et) as [Hun Hk]. split; [|exact Hk]. apply fd_file_lookup in Hf as [_ Hi].
    eapply undamaged_active; [exact Hun|done|done|done|by apply Htail].
Qed.

(** A log does not depend on its index. *)
Lemma state_index v w hist segs a b f :
  log_at cap t v w hist segs a b → log_at cap t v (w <| wl_index ::= f |>) hist segs a b.
Proof. intros []. by constructor. Qed.

Lemma state_same v w hist segs a b s :
  log_at cap t v w hist segs a b → s = wl_active w → log_at cap t v (w <| wl_active := s |>) hist segs a b.
Proof. intros [] ->. by constructor. Qed.

(** Flushing the directory: what was removed stays so. *)
Lemma state_flushed v w hist segs a b :
  log_at cap false v w hist segs a b →
  (t = true → undamaged v cap segs (g_base_seq (wl_active w)) (a ++ b)) →
  log_at cap t (flush_names v) w hist segs a b.
Proof.
  intros [[Hc Hb Hcl Hla Hnm Hgone Hcap] Hbs Hdir [Hcp Hcapw] Ha Hh _] Ht.
  assert (∀ c base es, lasts_at v c base es → lasts_at (flush_names v) c base es) as Hfr.
  { intros c base es Hl. by eapply lasts_frame. }
  constructor; try done.
  - constructor; try done; [intros; by apply Hfr, Hcl|by apply Hfr|by eapply flushed_below].
  - destruct Ha; [by eapply at_file|by apply at_none].
  - intros Et. split; [|by eapply removals_flushed]. by eapply undamaged_frame; [..|by apply Ht].
Qed.

End state.

(** What a call on the log does with descriptors and with what is durable:
    other open descriptors stay as they are, the active segment's is the same,
    none, or one that was free, and nothing stops being durable. *)
Record log_moves (v v' : fsys) (w w' : wal_t) : Prop := {
  lm_dir : wl_dir_fd w' = wl_dir_fd w;
  lm_others : ∀ fd d, 0 <= fd → fd ≠ g_fd (wl_active w) → f_fds v !! fd = Some d → f_fds v' !! fd = Some d;
  lm_active : g_fd (wl_active w') = g_fd (wl_active w) ∨ g_fd (wl_active w') < 0 ∨
                f_fds v !! g_fd (wl_active w') = None;
  lm_durable : wal_durable_seq w <= wal_durable_seq w' }.

Lemma moves_same v v' w w' :
  f_fds v' = f_fds v → wl_dir_fd w' = wl_dir_fd w → g_fd (wl_active w') = g_fd (wl_active w) →
  wal_durable_seq w <= wal_durable_seq w' → log_moves v v' w w'.
Proof. intros E ? ? ?. constructor; rewrite ?E; auto. Qed.

Lemma moves_refl v w : log_moves v v w w.
Proof. by apply moves_same. Qed.

Lemma moves_trans v1 v2 v3 w1 w2 w3 : log_moves v1 v2 w1 w2 → log_moves v2 v3 w2 w3 → log_moves v1 v3 w1 w3.
Proof.
  intros [D1 O1 A1 L1] [D2 O2 A2 L2]. constructor; [congruence| | |lia].
  - intros fd d H0 Hne Hfd. apply O2; [done| |by apply O1]. intros ->.
    destruct A1 as [?|[?|?]]; [congruence|lia|congruence].
  - destruct A2 as [->|[?|Hn]]; [done|auto|].
    destruct (decide (g_fd (wl_active w3) = g_fd (wl_active w1))); [by left|right].
    destruct (Z.lt_ge_cases (g_fd (wl_active w3)) 0); [by left|right].
    destruct (f_fds v1 !! g_fd (wl_active w3)) as [d|] eqn:E; [|done].
    by rewrite (O1 _ d) in Hn.
Qed.

(** After a call that stores a record: it is the next of the history, or the
    history is what it was and something went wrong. *)
Definition stored_next (cap : Z) (t : bool) (v : fsys) (w : wal_t) (hist : list entry) (r : wal_rec_t)
    (p : list byte) (x : result_t * wal_t * wal_rec_t * list byte) (v' : fsys) : Prop :=
  let '(res, w', r', _) := x in
  log_moves v v' w w' ∧
  if result_ok res then in_use cap t v' w' (hist ++ [(r', p)]) ∧
    r' = sealed (r <| w_seq := wal_next_seq w |>) p ∧ wal_next_seq w' = wal_next_seq w + 1
  else in_use cap false v' w' hist ∧ wal_next_seq w' = wal_next_seq w.

Section ops.
Context {K : Type} `{SysLaws K} {cap : Z} {t : bool}.

(** *** Flushing *)

Lemma state_sync w hist segs a b (k : K) :
  log_at cap t (view k) w hist segs a b →
  wp (wal_sync w) (λ x k', wal_next_seq x.2 = wal_next_seq w ∧ log_moves (view k) (view k') w x.2 ∧
    if result_ok x.1 then log_at cap t (view k') x.2 hist segs (a ++ b) []
    else log_at cap t (view k') x.2 hist segs a b) k.
Proof.
  intros L. unfold wal_sync. destruct (lg_active L) as [ino i Hfd Hf Hs Hn Hne Hst|Hfd -> _ Hsy _ _].
  - call (wp_sync (wl_active w) a b ino i) as [r s'] k' (i' & Hv & Hi' & Hx); [done|done|].
    cbn [fst snd] in Hx. apply wp_ret. cbn [fst snd]. rewrite Hv.
    assert (holds_end hist segs (g_base_seq (wl_active w)) (a ++ b) []) as Hh.
    { destruct (lg_hist L) as (b0 & old & ? & ? & -> & ?). exists b0, old.
      unfold all_records in *. by rewrite app_nil_r. }
    assert (∀ n, t = true → clean_tail cap n i → clean_tail cap n i') as Htail.
    { intros n _ Hcl. destruct Hi' as [-> | ->]; [done|]. apply clean_tail_flushed; [done|].
      destruct (lg_cap L) as [Hc1 Hc2]. pose proof (sf_len _ _ _ _ Hs). lia. }
    destruct (result_ok r); destruct Hx as [Hs' Heq].
    + split; [unfold wal_next_seq; cbn; by rewrite Heq|]. split.
      { apply moves_same; try done; unfold wal_durable_seq; cbn; rewrite Heq; cbn; [done|].
        rewrite (sf_durable _ _ _ _ Hs), (sf_next _ _ _ _ Hs), length_app. lia. }
      eapply (state_active _ _ hist); try done; try (by rewrite Heq). rewrite app_nil_r. by apply Htail.
    + subst s'. split; [done|]. split; [by apply moves_same|].
      eapply state_active; try done; [apply L|apply Htail].
  - unfold wal_seg_sync. rewrite Hsy, Z.eqb_refl. apply wp_bind, wp_ret, wp_ret. cbn [fst snd].
    change (result_ok RESULT_OK) with true. rewrite app_nil_r. split; [done|].
    split; [by apply moves_same|by apply state_same].
Qed.

(** *** Appending to the active segment *)

Lemma append_closed s r payload scratch (k : K) :
  g_fd s < 0 → 0 <= g_write_off s → 0 <= g_next_seq s < 2 ^ 64 → rec_ok r → w_len r = zlen (default [] payload) →
  zlen (default [] payload) <= WAL_MAX_PAYLOAD → 
  wp (wal_seg_append s r payload scratch) (λ x k',
    let '(res, s', r', scratch') := x in result_ok res = false ∧ s' = s ∧ view k' = view k) k.
Proof.
  intros Hfd Hw Hseq Hok Hl Hm. unfold wal_seg_append.
  set (r1 := r <| w_seq := g_next_seq s |>). pose proof (align8_bounds (w_len r1)) as Ha.
  assert (0 <= w_len r1) by (cbn; lia).
  destruct (Z.lt_ge_cases (zlen scratch) (56 + align8 (w_len r1))) as [Hsm|Hroom].
  { rewrite encode_no_room by (cbn in *; unfold WAL_MAX_PAYLOAD, MSG_MAX_PAYLOAD in *; lia).
    by apply wp_ret. }
  assert (rec_ok r1) as Hok1 by (unfold rec_ok in *; cbn; intuition lia).
  rewrite encode_spec by done. cbv beta iota zeta.
  rewrite (proj2 (Z.eqb_neq (56 + _) 0)) by lia.
  destruct (Z.ltb_spec (g_capacity s) (g_write_off s + (56 + align8 (w_len r1)))); [by apply wp_ret|].
  call wp_os_pwrite_closed as res k' [Hr Hv]; [done|lia|lia|]. rewrite Hr. by apply wp_ret.
Qed.

Lemma state_append w hist segs a b r payload scratch (k : K) :
  let p := default [] payload in
  log_at cap t (view k) w hist segs a b → rec_ok r → w_len r = zlen p → zlen p <= WAL_MAX_PAYLOAD →
  wal_next_seq w + 1 < 2 ^ 64 →
  wp (wal_seg_append (wl_active w) r payload scratch) (λ x k', let '(res, s', r', _) := x in
    log_moves (view k) (view k') w (w <| wl_active := s' |>) ∧
    if result_ok res then
      r' = sealed (r <| w_seq := wal_next_seq w |>) p ∧ g_next_seq s' = wal_next_seq w + 1 ∧
      log_at cap t (view k') (w <| wl_active := s' |>) (hist ++ [(r', p)]) segs a (b ++ [(r', p)])
    else log_at cap false (view k') (w <| wl_active := s' |>) hist segs a b ∧ s' = wl_active w) k.
Proof.
  intros p L Hok Hl Hm Hnx. destruct (active_next _ _ _ _ _ (lg_active L)) as [Hn0 _].
  destruct (hist_next _ _ _ _ _ (lg_hist L) (ls_chain _ _ _ _ _ (lg_last L))) as (b1 & Hb1 & Hc1 & Hlen).
  destruct (lg_active L) as [ino i Hfd Hf Hs Hn Hne Hst|Hfd -> Hw _ _ _].
  - eapply wp_mono; [by apply (wp_append _ _ _ _ a b ino i)|].
    intros [[[res s'] r'] scratch'] k' (i' & Hv & _ & Hseq & Hx). rewrite Hv. destruct (result_ok res).
    + destruct Hx as (Hr' & Hsto & Hs' & Hso & Heq). fold p in Hr', Hsto, Hs'.
      assert (g_next_seq s' = g_next_seq (wl_active w) + 1) as Hnext.
      { rewrite Heq. cbn. apply u64_id. unfold wal_next_seq in Hnx. pose proof (sf_base _ _ _ _ Hs). lia. }
      split; [apply moves_same; try done; unfold wal_durable_seq; cbn; by rewrite Heq|].
      split; [done|]. split; [done|].
      eapply (state_active _ _ hist); try done; try (by rewrite Heq).
      * apply (holds_end_snoc _ _ _ _ _ _ _ (lg_hist L)); [apply (lg_last L)| |done]. by rewrite Hseq, <-Hn0.
      * intros _ Hcl. rewrite app_assoc, log_bytes_app, log_bytes_one, length_app, Nat2Z.inj_add.
        rewrite (sf_write _ _ _ _ Hs) in Hso. eapply clean_tail_outside; [done|done|lia].
    + destruct Hx as [-> Hs']. split; [by apply moves_same|]. split; [|done].
      eapply (state_active (t := false)); try done; [exact (log_untidy _ _ _ _ _ _ L)|apply L].
  - eapply wp_mono; [apply append_closed; try done; unfold wal_next_seq in *; lia|].
    intros [[[res s'] r'] scratch'] k' (-> & -> & ->). split; [by apply moves_same|]. split; [|done].
    apply state_same; [exact (log_untidy _ _ _ _ _ _ L)|done].
Qed.

(** *** Rolling over *)

Lemma state_close w hist segs a (k : K) :
  log_at cap t (view k) w hist segs a [] →
  wp (wal_seg_close (wl_active w)) (λ x k',
    log_at cap t (view k') (w <| wl_active := x.2 |>) hist segs a [] ∧
    log_moves (view k) (view k') w (w <| wl_active := x.2 |>) ∧ g_fd x.2 < 0 ∧
    g_next_seq x.2 = wal_next_seq w ∧ g_durable_seq x.2 = wal_durable_seq w) k.
Proof.
  intros L. unfold wal_seg_close. destruct (lg_active L) as [ino i Hfd Hf Hs Hn Hne Hst|Hfd _ _ _ _ _].
  - rewrite (proj2 (Z.ltb_ge _ _)) by done. call wp_os_close as r k' Hv. apply wp_ret. cbn [fst snd].
    split_and!; [| |done|done|done].
    2: { constructor; cbn; [done| |by right; left|done]. intros fd d _ Hx Hd. rewrite Hv. cbn.
         by rewrite lookup_delete_ne. }
    destruct L as [[Hc Hb Hcl Hla Hnm Hgone Hcap] Hbs [todo Hdir] [Hcp Hcapw] _ Hh Ht].
    assert (∀ base es, lasts_at (view k) (wl_seg_capacity w) base es →
      lasts_at (view k') (wl_seg_capacity w) base es) as Hfr.
    { intros base es Hx. rewrite Hv. by eapply lasts_frame. }
    constructor; cbn; try done.
    + constructor; try done; [intros; by apply Hfr, Hcl|by apply Hfr|by rewrite Hv|by rewrite Hv].
    + exists todo. rewrite Hv. cbn. rewrite lookup_delete_ne; [done|]. intros Heq.
      apply fd_file_lookup in Hf as [Hf _]. congruence.
    + pose proof (sf_write _ _ _ _ Hs). pose proof (sf_synced _ _ _ _ Hs).
      destruct (active_next (view k) (wl_active w) segs a []) as [Hx Hy]; [by eapply at_file|].
      rewrite app_nil_r in *. apply at_none; cbn; try done; congruence || lia.
    + intros Et. destruct (Ht Et) as [Hun Hk]. split; [eapply undamaged_frame; [..|exact Hun]; by rewrite Hv|].
      by rewrite Hv.
  - rewrite (proj2 (Z.ltb_lt _ _)) by done. apply wp_ret. split_and!; try done; [by apply state_same|].
    by apply moves_same.
Qed.

Lemma state_create w hist segs a (k : K) :
  log_at cap t (view k) w hist segs a [] → g_fd (wl_active w) < 0 →
  wp (wal_seg_create (wl_active w) (wl_dir_fd w) (u64 (wal_durable_seq w + 1)) (wl_seg_capacity w))
    (λ x k',
      let w' := w <| wl_active := x.2 |> in log_moves (view k) (view k') w w' ∧
      if result_ok x.1 then g_next_seq x.2 = wal_next_seq w ∧
        log_at cap t (view k') (w' <| wl_seg_base ::= λ l, l ++ [u64 (wal_durable_seq w + 1)] |>) hist
          (segs ++ [(g_base_seq (wl_active w), a)]) [] []
      else x.2 = wl_active w ∧ log_at cap false (view k') w' hist segs a []) k.
Proof.
  intros L Hfd. destruct (active_next _ _ _ _ _ (lg_active L)) as [Hnx Hdu].
  rewrite app_nil_r in Hnx. pose proof L as [Ls Hbs [todo Hdir] [Hcp Hcapw] Ha Hh Ht].
  pose proof Ls as [Hc (Hb0 & Hch & Hmax) _ _ _ _ Hcap].
  set (base := g_base_seq (wl_active w)) in *. set (next := base + zlen a) in *.
  assert (u64 (wal_durable_seq w + 1) = next) as ->.
  { unfold wal_durable_seq. rewrite Hdu, u64_id; unfold next in *; lia. }
  eapply wp_mono; [apply (wp_create (wl_active w) (wl_dir_fd w) next (wl_seg_capacity w) todo);
    [done|unfold next in *; lia|lia]|].
  intros [r s'] k' Hx. cbn [fst snd] in *. cbv zeta. destruct (result_ok r).
  - destruct Hx as (fd & ino & -> & Hfresh & Hi & Hnone & Hfile & _ & En & Efd & Ei & Hsf & Ek).
    split.
    { constructor; cbn; [done| |right; right; apply Hfresh|].
      - intros fd' d _ _ Hd. rewrite Efd, lookup_insert_ne; [done|]. intros ->. destruct Hfresh. congruence.
      - unfold wal_durable_seq. cbn. rewrite Hdu. fold next. rewrite u64_id; unfold next in *; lia. }
    split; [by unfold wal_next_seq|].
    destruct (lasting_next (view k) (view k') _ _ _ _ ino Ls Hnone Hi En Ek Ei) as (Ls' & Hnm & Hne).
    { apply fd_file_lookup in Hfile as [_ ->]. eauto. }
    apply fd_file_lookup in Hfile as Hino.
    constructor; cbn; try done.
    + by rewrite Hbs, fmap_app.
    + exists todo. rewrite Efd, lookup_insert_ne; [done|]. intros ->. destruct Hfresh. congruence.
    + eapply at_file; try done; [apply Hfresh|]. cbn. by rewrite En, lookup_insert_eq.
    + destruct Hh as (b0 & old & ? & ? & -> & Hn). exists b0, old. split_and!; try done.
      * unfold all_records. rewrite fmap_app, concat_app. cbn. by rewrite !app_nil_r.
      * rewrite <-Hn. by destruct segs as [|[??]?].
    + intros Et. rewrite <-Hcapw in *. unfold WAL_REC_HEADER_SIZE in Hcap. rewrite app_nil_r in Ht.
      split; [|by eapply removals_flushed]. eapply undamaged_next; [by apply Ht|done|done|done|done|done|by destruct Hino|lia].
  - destruct Hx as [-> Hx]. destruct (lasting_left _ _ _ _ _ _ Ls Hx) as [Ls' Efd].
    split; [by apply moves_same|]. split; [done|]. constructor; cbn; try done.
    + exists todo. by rewrite Efd.
    + destruct Ha as [ino i Hpos|]; [lia|by apply at_none].
Qed.

(** Whatever fails on the way, the log stays one. *)
Lemma state_rollover w hist segs a b (k : K) :
  log_at cap t (view k) w hist segs a b →
  wp (wal_rollover w) (λ x k', in_use cap (t && result_ok x.1) (view k') x.2 hist ∧
    wal_next_seq x.2 = wal_next_seq w ∧ log_moves (view k) (view k') w x.2) k.
Proof.
  intros L. unfold wal_rollover.
  destruct (Z.leb_spec WAL_MAX_SEGMENTS (seg_count w)).
  { apply wp_ret. split; [apply tidy_and; by exists segs, a, b|]. by split; [|apply moves_refl]. }
  call (state_sync w hist segs a b) as [r w1] k1 (Hnx1 & M1 & L1); [done|]. cbn [fst snd] in *.
  destruct (result_ok r); cbn [negb]; [|apply wp_ret; split; [apply tidy_and; by exists segs, a, b|done]].
  call (state_close w1 hist segs (a ++ b)) as [r2 s2] k2 (L2 & M2 & Hfd2 & Hnx2 & Hdu2); [done|].
  cbn [fst snd] in *. pose proof (moves_trans _ _ _ _ _ _ M1 M2) as M12. destruct (result_ok r2); cbn [negb].
  2: { apply wp_ret. split; [apply tidy_and; by exists segs, (a ++ b), []|]. split; [|done].
       unfold wal_next_seq in *; cbn; congruence. }
  set (w2 := w1 <| wl_active := s2 |>) in *.
  change (g_durable_seq (wl_active w1)) with (wal_durable_seq w1). rewrite <-Hdu2.
  change (g_durable_seq s2) with (wal_durable_seq w2).
  eapply wp_call; [apply (state_create w2 hist segs (a ++ b)); done|]. cbv beta zeta.
  intros [r3 s3] k3 [M3 Hx]. cbn [fst snd] in *. pose proof (moves_trans _ _ _ _ _ _ M12 M3) as M.
  destruct (result_ok r3) eqn:Hr3; cbn [negb]; apply wp_ret; cbn [fst snd].
  - destruct Hx as [Hnx3 L3]. split; [apply tidy_and; by eexists _, _, _|]. split; [|by destruct M].
    unfold wal_next_seq in *; cbn in *; congruence.
  - destruct Hx as [Hs L3]. rewrite Hr3, andb_false_r. split; [by eexists _, _, _|]. split; [|done].
    unfold wal_next_seq in *; cbn in *; congruence.
Qed.

(** *** Storing a record *)

Lemma state_wal_append w hist r payload scratch (k : K) :
  let p := default [] payload in
  in_use cap t (view k) w hist → rec_ok r → w_len r = zlen p → wal_next_seq w + 1 < 2 ^ 64 →
  wp (wal_append w r payload scratch) (λ x k', stored_next cap t (view k) w hist r p x (view k')) k.
Proof.
  intros p Hw Hok Hl Hn. unfold wal_append.
  assert (0 <= w_len r < 2 ^ 32) as Hl32 by apply Hok.
  assert (in_use cap false (view k) w hist) as Hw' by (by eapply untidy).
  destruct (_ || _) eqn:Hbad; [apply wp_ret; by split; [apply moves_refl|]|].
  zb. assert (zlen p <= WAL_MAX_PAYLOAD) as Hm.
  { rewrite rec_size_cast in H1 by done. case_match; zb; [lia|done]. }
  assert (∀ w1 k1, in_use cap t (view k1) w1 hist → wal_next_seq w1 = wal_next_seq w →
    log_moves (view k) (view k1) w w1 →
    wp ('(res, active, r0, scratch0) ← wal_seg_append (wl_active w1) r payload scratch;
        if result_ok res
        then mret (res, w1 <| wl_active := active |> <| wl_index ::= λ ix, wal_index_add ix r0 |>,
               r0, scratch0)
        else mret (res, w1 <| wl_active := active |>, r0, scratch0))
      (λ x k', stored_next cap t (view k) w hist r p x (view k')) k1) as Hgo.
  { intros w1 k1 (segs & a & b & L) Hnx Hm1.
    call (state_append w1 hist segs a b) as [[[res s'] r'] sc] k2 [Hm2 Hx]; [done|done|done|done|lia|].
    pose proof (moves_trans _ _ _ _ _ _ Hm1 Hm2) as Hmv.
    destruct (result_ok res) eqn:Hres; apply wp_ret; unfold stored_next; rewrite Hres.
    - destruct Hx as (Hseq & Hnx' & L'). split; [by destruct Hmv|].
      split_and!; [|by rewrite <-Hnx|unfold wal_next_seq in *; cbn; lia].
      exists segs, a. eexists. by apply state_index.
    - destruct Hx as [L' ->]. split; [done|]. split; [by exists segs, a, b|]. by rewrite <-Hnx. }
  cbv zeta. destruct (wal_seg_fits (wl_active w) (i32 (w_len r))); cbn [negb].
  { apply wp_bind, wp_ret. apply Hgo; [done|done|apply moves_refl]. }
  destruct Hw as (segs & a & b & L). call (state_rollover w hist segs a b) as [res w1] k1 (L1 & Hnx & Hmv); [done|].
  cbn [fst snd] in *. destruct (result_ok res) eqn:Hres; cbn [negb].
  - rewrite andb_true_r in L1. by apply Hgo.
  - rewrite andb_false_r in L1. apply wp_ret. unfold stored_next. by rewrite Hres.
Qed.

Lemma state_append_at w hist r payload scratch (k : K) :
  let p := default [] payload in
  in_use cap t (view k) w hist → rec_ok r → w_len r = zlen p → wal_next_seq w + 1 < 2 ^ 64 →
  wp (wal_append_at w r payload scratch) (λ x k', stored_next cap t (view k) w hist r p x (view k')) k.
Proof.
  intros p Hw Hok Hl Hn. unfold wal_append_at.
  destruct (Z.eqb_spec (w_seq r) (wal_next_seq w)) as [He|]; cbn [negb];
    [|apply wp_ret; split; [apply moves_refl|]; split; [by eapply untidy|done]].
  call (state_wal_append w hist r payload scratch) as [[[res w'] r'] sc] k' Hx; [done..|].
  fold p in Hx. unfold stored_next in Hx. destruct (result_ok res) eqn:Hres; cbn [negb].
  - destruct Hx as (Hmv & Hx & Hr' & Hnx). assert (w_seq r' = w_seq r) as -> by (rewrite Hr'; cbn; congruence).
    rewrite Z.eqb_refl. by apply wp_ret.
  - apply wp_ret. unfold stored_next. by rewrite Hres.
Qed.

(** *** Retention *)

(** The oldest segment goes; until the directory is flushed a crash can bring
    it back. *)
Lemma state_unlink v v' w hist b0 es0 segs a b :
  let base := g_base_seq (wl_active w) in
  log_at cap false v w hist ((b0, es0) :: segs) a b → unlinkat_spec v (wal_seg_name b0) 0 v' →
  log_at cap false v' (w <| wl_seg_base ::= drop 1 |>) hist segs a b ∧
  (undamaged v cap ((b0, es0) :: segs) base (a ++ b) → undamaged v' cap segs base (a ++ b)).
Proof.
  intros base [[Hc [Hb Hx] Hcl Hla Hnm Hgone Hcap] Hbs [todo Hdir] [Hcp Hcapw] Ha Hh _] [[Hf _]|(_ & ino0 & _ & Hv)]; [done|].
  fold base in Hc, Hb, Hx, Hla, Hnm, Hgone, Hbs, Hh.
  assert (f_names v' = delete (cstr (wal_seg_name b0)) (f_names v) ∧
    f_kept v' = delete (cstr (wal_seg_name b0)) (f_kept v) ∧ f_inodes v' = f_inodes v ∧ f_fds v' = f_fds v ∧
    f_gone v' = (cstr (wal_seg_name b0), ino0) :: f_gone v) as (En & Ek & Ei & Efd & Eg) by (by rewrite Hv).
  assert (∀ b', b0 < b' < 2 ^ 64 → cstr (wal_seg_name b0) ≠ cstr (wal_seg_name b')) as Hne.
  { intros b' Hb' Heq. destruct Hc as (? & _). apply seg_name_inj in Heq; lia. }
  destruct (seg_chain_bound _ _ b0 es0 Hc ltac:(by left)).
  assert (∀ b' es', (b', es') ∈ segs → b0 < b' < 2 ^ 64) as Hlater.
  { intros b' es' Hin. pose proof (seg_chain_head _ _ _ _ _ _ Hc Hin).
    pose proof (seg_chain_bound _ _ b' es' Hc ltac:(by right)). lia. }
  assert (∀ b' es', b0 < b' < 2 ^ 64 → lasts_at v (wl_seg_capacity w) b' es' →
    lasts_at v' (wl_seg_capacity w) b' es') as Hfr.
  { intros b' es' Hb' Hl. eapply lasts_frame; [exact Hl|..]; rewrite ?En, ?Ek, ?Ei, ?lookup_delete_ne by auto;
      done. }
  assert (b0 < next_base segs base) as Hnext.
  { destruct segs as [|[b1 es1] segs']; [done|]. cbn. specialize (Hlater b1 es1 ltac:(by left)). lia. }
  split.
  2: { intros Hun. eapply undamaged_unlink; [exact Hun|done|done|].
    intros b' es' [Hin|[= -> ->]%list_elem_of_singleton]%elem_of_app; apply Hne; [by eapply Hlater|lia]. }
  constructor; cbn; try done.
  - constructor; try done; [by destruct Hc as (_ & _ & _ & _ & ?)| | | |].
    + intros b' es' Hin. apply Hfr; [by eapply Hlater|apply Hcl; by right].
    + apply Hfr; [lia|done].
    + eapply names_in_unlink; [exact Hnm|done].
    + intros n ino b'. rewrite Eg. intros [[-> ->]%pair_eq|Hg]%elem_of_cons Hbn.
      * rewrite cstr_name, base_of_seg_name in Hbn by lia. injection Hbn as <-. split; [done|]. fold base. lia.
      * destruct (Hgone _ _ _ Hg Hbn) as [-> Hlt]. split; [done|]. cbn in Hlt. fold base. lia.
  - by rewrite Hbs.
  - exists todo. by rewrite Efd.
  - destruct Ha as [ino i Hfd Hf Hs Hn Hapart Hst|]; [|by apply at_none].
    eapply at_file; try done; rewrite ?En.
    + unfold fd_file in *. by rewrite Efd, Ei.
    + rewrite lookup_delete_ne; [done|]. apply Hne. fold base. lia.
    + intros b' es' Hin. rewrite lookup_delete_ne by (apply Hne; by eapply Hlater).
      apply (Hapart _ es'). by right.
    + eapply names_in_unlink; [exact Hst|done].
  - destruct Hh as (c & old & ? & ? & -> & Hn). exists c, (old ++ es0). cbn in Hn.
    split_and!; [done|done|by unfold all_records; cbn; rewrite <-!app_assoc|].
    destruct Hc as (_ & _ & _ & Hnb & _). rewrite length_app. fold base. lia.
Qed.

Lemma state_unlinks n w hist segs a b i0 (k : K) :
  let base := g_base_seq (wl_active w) in
  log_at cap false (view k) w hist segs a b → (n <= length segs)%nat →
  wp (unlink_segments (wl_dir_fd w) (take n (wl_seg_base w)) i0) (λ x k', ∃ m,
    x.2 = (i0 + m)%nat ∧ log_at cap false (view k') (w <| wl_seg_base ::= drop m |>) hist (drop m segs) a b ∧
    (undamaged (view k) cap segs base (a ++ b) → undamaged (view k') cap (drop m segs) base (a ++ b))) k.
Proof.
  revert w segs i0 k. induction n as [|n IH]; intros w segs i0 k base L Hn; cbn [take].
  { apply wp_ret. exists 0%nat. split; [cbn; lia|]. by destruct w. }
  destruct segs as [|[b0 es] segs]; [cbn in Hn; lia|].
  pose proof (lg_bases L) as Hb. cbn in Hb. rewrite Hb. cbn [take unlink_segments].
  call wp_os_unlinkat as r k' Hr. destruct (result_ok r); cbn [negb].
  2:{ apply wp_ret. exists 0%nat. rewrite Hr. split; [cbn; lia|]. by destruct w. }
  destruct (state_unlink _ _ _ _ _ _ _ _ _ L Hr) as [L' Hu].
  pose proof (IH _ segs (S i0) k' L' ltac:(cbn in Hn; lia)) as Hgo.
  cbn in Hgo. rewrite Hb in Hgo. cbn in Hgo. rewrite drop_0 in Hgo.
  eapply wp_mono; [exact Hgo|]. intros [r2 m2] k2 (m & Hm & Hl & Hu2). exists (S m).
  split; [cbn in *; lia|]. cbn [drop]. split; [|tauto].
  destruct w. unfold upd in *. cbn in *. by rewrite drop_drop in Hl.
Qed.

Lemma state_retain w hist keep (k : K) :
  in_use cap t (view k) w hist →
  wp (wal_retain w keep) (λ x k', in_use cap (t && result_ok x.1.1) (view k') x.1.2 hist ∧
    wal_next_seq x.1.2 = wal_next_seq w ∧ log_moves (view k) (view k') w x.1.2) k.
Proof.
  intros Hw.
  eapply (wp_mono _ (λ x k', (in_use cap (t && result_ok x.1.1) (view k') x.1.2 hist ∧
    wl_active x.1.2 = wl_active w ∧ wl_dir_fd x.1.2 = wl_dir_fd w) ∧ f_fds (view k') = f_fds (view k))).
  2: { intros [[r w'] n] k' ((Hin & Ha & Hd) & Ef). cbn [fst snd] in *. unfold wal_next_seq. rewrite Ha.
       split; [done|]. split; [done|]. apply moves_same; unfold wal_durable_seq; rewrite ?Ha; done. }
  apply wp_both; [|apply wp_retain_fds]. 
  unfold wal_retain. set (n := retain_drop (wl_seg_base w) keep).
  destruct (Nat.eqb_spec n 0); [apply wp_ret; split; [by apply tidy_and|done]|].
  destruct Hw as (segs & a & b & L). pose proof (lg_bases L) as Hb.
  destruct (retain_drop_spec (wl_seg_base w) keep) as [Hn _]; [rewrite Hb; by destruct segs|].
  fold n in Hn. rewrite Hb, length_app, length_fmap in Hn. cbn in Hn.
  call (state_unlinks n w hist segs a b) as [r j] k1 (m & Hj & L1 & Hu); [by eapply log_untidy|lia|].
  cbn [fst snd] in *. rewrite Nat.add_0_l in Hj. subst j.
  destruct (result_ok r) eqn:Hr; cbn [negb].
  2: { apply wp_ret. cbn [fst snd]. rewrite Hr, andb_false_r. split; [by eexists _, _, _|done]. }
  call wp_os_fsync as r2 k2 Hx. destruct (result_ok r2) eqn:Hr2; cbn [negb]; apply wp_ret; cbn [fst snd].
  - rewrite andb_true_r. split; [|done]. exists (drop m segs), a, b.
    destruct Hx as [[Hf _]|[_ Hx]]; [done|].
    destruct (lg_dir L1) as [todo Hdir]. cbn in Hdir, Hx. rewrite Hdir in Hx. rewrite Hx.
    apply state_flushed; [done|]. intros Et. apply Hu. by apply (lg_tidy L).
  - rewrite Hr2, andb_false_r, Hx. split; [by exists (drop m segs), a, b|done].
Qed.
End ops.

(** ** From a directory *)

(** A directory [wal_open] can start from: one without segments, or one with
    a log, flushed, and without damage if it is to be [tidy].  [hist] is what
    is there, [next] the sequence after it. *)
Inductive directory (tidy : bool) (v : fsys) (cap slen : Z) : list entry → Z → Prop :=
| dir_new :
    names_in v [] → WAL_REC_HEADER_SIZE <= cap < 2 ^ 62 → WAL_REC_HEADER_SIZE <= slen < 2 ^ 31 →
    directory tidy v cap slen [] 1
| dir_log segs base es why :
    stored_log v cap slen segs base es why → f_disk v = Disk (f_names v) [] → names_in v (segs.*1 ++ [base]) →
    (tidy = true → undamaged v cap segs base es) →
    directory tidy v cap slen (concat segs.*2 ++ es) (base + zlen es).

Lemma stored_lasts v v' cap slen base es why ino :
  seg_at v cap slen base es why ino → f_kept v = f_names v → f_names v' = f_names v →
  f_kept v' = f_kept v → f_inodes v' = f_inodes v → lasts_at v' cap base es.
Proof.
  intros (i & Hn & Hi & Hst & _ & Hlen & Hsub & _) Hk En Ek Ei. split; [done|]. exists ino, i.
  rewrite Ek, Hk, En, Ei. split_and!; try done. intros j x Hx. rewrite Hst, list_lookup_fmap.
  pose proof (lookup_lt_Some _ _ _ Hx). assert (i_data i !! j = Some x) as ->; [|done].
  rewrite <-Hx, <-Hsub, lookup_sub, decide_True by (rewrite ?Hsub; lia). done.
Qed.

Lemma chained_closed segs base es :
  seg_chain segs base → chained base es → chained (next_base segs base) (concat segs.*2 ++ es).
Proof.
  intros Hc Hes. revert Hc. induction segs as [|[b es0] segs IH]; cbn; [done|].
  intros (_ & _ & Hch & Hn & Hc). rewrite <-app_assoc. apply chained_app. split; [done|].
  rewrite Hn. by apply IH.
Qed.

Lemma stored_state t v v' cap slen segs base es why w i ino :
  stored_log v cap slen segs base es why → f_disk v = Disk (f_names v) [] → names_in v (segs.*1 ++ [base]) →
  holding v (wl_dir_fd w) (g_fd (wl_active w)) ino v' → wal_log v' w segs es [] ino i →
  wl_seg_capacity w = cap → wal_next_seq w = base + zlen es →
  (t = true → undamaged v cap segs base es) → log_at cap t v' w (concat segs.*2 ++ es) segs es [].
Proof.
  intros S Hdk Hnm Hh L Hcap Hnx Ht. assert (f_kept v = f_names v) as Hk by (by rewrite Hdk). destruct (wal_log_records _ _ _ _ _ _ _ L) as (_ & Hn & _).
  rewrite app_nil_r in Hn. assert (g_base_seq (wl_active w) = base) as Eb by lia.
  assert (f_names v' = f_names v ∧ f_disk v' = f_disk v ∧ f_inodes v' = f_inodes v) as (En & Ed & Ei)
    by (destruct Hh as (v1 & [_ [todo ->]] & _ & ->); done).
  assert (f_kept v' = f_kept v) as Ek by (by rewrite Ed). rewrite Hdk in Ed.
  assert (names_in v' (segs.*1 ++ [base])) as Hnm' by (intros n b; rewrite En; apply Hnm).
  destruct S as [Hc (Hb & Hch & Hmax) Hcl [ino' Hla] _ _ Hap _ Hc62 _].
  constructor; rewrite ?Eb, ?Hcap.
  - constructor; try done.
    + intros b' es' Hin. destruct (Hcl _ _ Hin) as [n Hn']. by eapply stored_lasts.
    + by eapply stored_lasts.
    + eapply names_in_mono; [exact Hnm'|]. intros b'. rewrite !elem_of_app, !elem_of_cons. tauto.
    + by eapply flushed_below.
  - rewrite (wg_bases _ _ _ _ _ _ _ L). by rewrite Eb.
  - apply L.
  - split; [|done]. rewrite <-Hcap. apply L.
  - eapply at_file; rewrite ?Eb; try done; try apply L; [rewrite <-Eb; apply L|].
    intros b' es' Hin Heq. pose proof (wg_name _ _ _ _ _ _ _ L) as Hn'. rewrite Eb in Hn'.
    rewrite En in Heq, Hn'. pose proof (Hap _ _ _ Heq Hn') as He.
    destruct (chain_ascending _ _ Hc) as [_ Hlt]. specialize (Hlt _ _ Hin). apply seg_name_inj in He; lia.
  - exists (next_base segs base), []. unfold all_records. rewrite app_nil_r, Z.add_0_r.
    split_and!; [|by apply chained_closed|done|done].
    destruct segs as [|[b0 es0] segs]; [done|]. by destruct Hc.
  - intros Et. rewrite app_nil_r. split; [eapply undamaged_frame; [exact En|exact Ei|by apply Ht]|].
    by eapply removals_flushed.
Qed.

Lemma new_state t v v' cap d fd todo ino :
  names_in v [] → WAL_REC_HEADER_SIZE <= cap < 2 ^ 62 → 0 <= fd → f_fds v' !! d = Some (FDir todo) →
  fd_file v' fd = Some (ino, Inode (zeros cap) (Some <$> zeros cap)) →
  f_names v' = <[cstr (wal_seg_name 1) := ino]> (f_names v) → f_disk v' = Disk (f_names v') [] →
  log_at cap t v' (Wal d cap (seg_reset fd d 1 cap) [1] wal_index_init) [] [] [] [].
Proof.
  intros Hnm Hcap Hfd Hd Hf En Ed. assert (f_kept v' = f_names v') as Ek by (by rewrite Ed).
  pose proof (names_in_insert v v' [] 1 ino Hnm ltac:(lia) En) as Hnm'. cbn [app] in Hnm'.
  assert (f_names v' !! cstr (wal_seg_name 1) = Some ino) as Hn by (rewrite En; apply lookup_insert_eq).
  assert (seg_file (seg_reset fd d 1 cap) (Inode (zeros cap) (Some <$> zeros cap)) [] []) as Hs.
  { unfold WAL_REC_HEADER_SIZE in Hcap. constructor; cbn; try done; try lia.
    rewrite length_zeros. lia. }
  constructor; cbn; try done; [..|by exists todo| |by exists 1, []|].
  - constructor; cbn; try done; [by intros ? ? ?%elem_of_nil| | |by eapply flushed_below].
    + split; [unfold WAL_REC_HEADER_SIZE in Hcap; cbn; lia|]. eexists ino, _. rewrite Ek.
      split_and!; [done|done|by apply fd_file_lookup in Hf as [_ Hf]|done].
    + eapply names_in_mono; [exact Hnm'|]. by intros b ->%list_elem_of_singleton; left.
  - eapply at_file; try done. by intros ? ? ?%elem_of_nil.
  - intros _. split; [|by eapply removals_flushed]. split; [|exact Hnm']. intros b es [= -> ->]%list_elem_of_singleton.
    apply fd_file_lookup in Hf as [_ Hf]. exists ino. eexists. split_and!; [done|exact Hf|].
    split; [cbn; rewrite length_fmap, length_zeros; lia|]. intros j Hj. cbn [i_data i_stable].
    rewrite list_lookup_fmap. unfold zeros. rewrite lookup_replicate_2 by lia. done.
Qed.

(** A log just opened: in use, with everything in it durable and shown to the
    callback, and what was open before still is. *)
Record opens_as {C} (cb : C → wal_rec_t → C) (cap : Z) (t : bool) (ctx : C) (hist : list entry) (next : Z)
    (v : fsys) (w : wal_t) (ctx' : C) (v' : fsys) : Prop := {
  oa_use : in_use cap t v' w hist;
  oa_log : is_log v' w hist;
  oa_next : wal_next_seq w = next;
  oa_durable : wal_durable_seq w = next - 1;
  oa_ctx : ctx' = foldl cb ctx hist.*1;
  oa_dir : 0 <= wl_dir_fd w;
  oa_fds : f_fds v ⊆ f_fds v' }.

Section run.
Context {K : Type} `{SysLaws K} {C : Type} (cb : C → wal_rec_t → C).

Lemma wp_open_in_use t rounds w0 path cap scratch ctx hist next (k : K) :
  directory t (view k) cap (zlen scratch) hist next → (size (f_names (view k)) + 2 < rounds)%nat →
  wp (wal_open cb rounds w0 path cap scratch ctx) (λ x k', ∃ y, x = Some y ∧
    (result_ok y.1.1.1 = true → opens_as cb cap t ctx hist next (view k) y.1.1.2 y.2 (view k'))) k.
Proof.
  intros [Hnm Hcap Hsl|segs base es why S Hk Hnm Ht] Hr.
  - eapply wp_mono; [apply wp_wal_open_new; try done|].
    { intros n Hn. destruct (base_of_name n) as [b|] eqn:E; [|done].
      by destruct (Hnm n b Hn E) as [_ []%elem_of_nil]. }
    cbv beta. intros x k' (r & w & out & ctx' & -> & -> & Hx). eexists. split; [done|]. cbn [fst snd].
    intros Hok. destruct (Hx Hok) as (? & Hnx & _ & _ & d & fd & todo & ino & -> & ? & ? & ? & ? & ? & ? & ?).
    constructor; try done. exists [], [], []. by eapply new_state.
  - eapply wp_mono; [by apply wp_wal_open|]. cbv beta. intros x k' ([[[r w] out] ctx'] & -> & Hx).
    eexists. split; [done|]. cbn [fst snd] in *. intros Hok. rewrite Hok in Hx.
    destruct Hx as ((ino & i & Hh & L) & Hlog & Hc & Hnx & Hd & _ & Hctx & _).
    constructor; try done; [exists segs, es, []; by eapply stored_state|..];
      destruct Hh as (v1 & [Hdir [todo ->]] & Hf & Hv); [apply Hdir|].
    rewrite Hv. transitivity (f_fds (set_fd (wl_dir_fd w) (FDir todo) (view k))); apply insert_subseteq; [apply Hdir|apply Hf].
Qed.
End run.

(** ** In use *)

(** What the server does with its log. *)
Inductive log_op :=
| Store (r : wal_rec_t) (p : list byte)
| Copy (r : wal_rec_t) (p : list byte)
| Flush
| Remove (keep_from : Z).

Definition log_op_ok (o : log_op) : Prop :=
  match o with Store r p | Copy r p => rec_ok r ∧ w_len r = zlen p | _ => True end.

Section use.
Context {K : Type} `{Sys K}.

(** Any of it, whatever each call reports; [stored] collects the records
    whose storing was reported a success, and [good] is whether all of them
    and all removals were. *)
Fixpoint use_log (ops : list log_op) (w : wal_t) (scratch : list byte) (stored : list entry) (good : bool)
    : M K (wal_t * list entry * bool) :=
  match ops with
  | [] => mret (w, stored, good)
  | Store r p :: ops =>
      '(res, w, r, scratch) ← wal_append w r (Some p) scratch;
      use_log ops w scratch (if result_ok res then stored ++ [(r, p)] else stored) (good && result_ok res)
  | Copy r p :: ops =>
      '(res, w, r, scratch) ← wal_append_at w r (Some p) scratch;
      use_log ops w scratch (if result_ok res then stored ++ [(r, p)] else stored) (good && result_ok res)
  | Flush :: ops => '(_, w) ← wal_sync w; use_log ops w scratch stored good
  | Remove keep_from :: ops =>
      '(res, w, _) ← wal_retain w keep_from; use_log ops w scratch stored (good && result_ok res)
  end.

(** A log opened in a directory and used; nothing when the opening failed. *)
Definition open_and_use (ops : list log_op) (rounds : nat) (w0 : wal_t) (path : list byte) (cap : Z)
    (scratch : list byte) (before : list entry) (tidy : bool) : M K (option (wal_t * list entry * bool)) :=
  x ← wal_open (λ (_ : unit) _, tt) rounds w0 path cap scratch tt;
  match x with
  | Some (r, w, _, _) =>
      if result_ok r then y ← use_log ops w scratch before tidy; mret (Some y) else mret None
  | None => mret None
  end.
End use.

(** The history cut at the bases of the table: the records of each segment. *)
Fixpoint parts (hist : list entry) (bases : list Z) : list (Z * list entry) :=
  match bases with
  | [] => []
  | b :: rest => (b, filter (λ e, b <= w_seq e.1 < default (2 ^ 64) (head rest)) hist) :: parts hist rest
  end.

(** A log without damage: behind the records of each of its segments there are
    only zeros, the directory has no other segment, and none that was removed
    can come back. *)
Definition healthy (v : fsys) (cap : Z) (w : wal_t) (hist : list entry) : Prop :=
  (∀ b es, (b, es) ∈ parts hist (wl_seg_base w) → clean_at v cap b es) ∧
  names_in v (wl_seg_base w) ∧ removals_kept v.

(** After a crash, whatever it left: opening the log finds, in order, the
    records from the first it holds to the last it counts as durable, in front
    of whatever else survived and behind nothing but what a removal whose
    flush failed lets come back; or it fails and changes nothing, which in a
    log without damage that is not full only a system call can do. *)
Definition outlives {K : Type} `{SysLaws K} (v : fsys) (cap : Z) (w : wal_t) (stored : list entry) : Prop :=
  ∀ (C : Type) (cb : C → wal_rec_t → C) (rounds : nat) (w0 : wal_t) (path scratch : list byte) (ctx : C)
    (kc : K),
    crash v (view kc) → (size (f_names (view kc)) + 2 < rounds)%nat →
    WAL_REC_MAX_SIZE <= zlen scratch < 2 ^ 31 →
    wp (wal_open cb rounds w0 path cap scratch ctx) (λ x k', ∃ y, x = Some y ∧
      reopened cb (healthy v cap w stored ∧ wal_segments w < WAL_MAX_SEGMENTS) (removals_kept v) (view kc)
        (wal_first_seq w) (held (wal_first_seq w) (wal_durable_seq w) stored) ctx y (view k')) kc.

(** *** The parts of a log in use *)

Lemma filter_kept {A} (P : A → Prop) `{∀ x, Decision (P x)} l : Forall P l → filter P l = l.
Proof. rewrite Forall_forall. apply filter_all. Qed.

Lemma filter_dropped {A} (P : A → Prop) `{∀ x, Decision (P x)} l : Forall (λ x, ¬ P x) l → filter P l = [].
Proof. rewrite Forall_forall. apply filter_none. Qed.

Lemma chained_range base es : chained base es → Forall (λ e, base <= w_seq e.1 < base + zlen es) es.
Proof. intros Hc. apply Forall_forall. intros [r p] Hx. by eapply chained_seqs. Qed.

Lemma parts_segs old segs base es :
  seg_chain segs base → 0 < base → chained base es → base + zlen es < 2 ^ 64 →
  Forall (λ e, w_seq e.1 < next_base segs base) old →
  parts (old ++ concat segs.*2 ++ es) (segs.*1 ++ [base]) = segs ++ [(base, es)].
Proof.
  intros Hc Hb Hes Hmax. revert old Hc. induction segs as [|[b es0] segs IH]; intros old Hc Hold; cbn.
  { do 3 f_equal. rewrite filter_app, filter_dropped, filter_kept; [done|..].
    - eapply Forall_impl; [by apply chained_range|]. cbn. lia.
    - eapply Forall_impl; [exact Hold|]. cbn. lia. }
  destruct Hc as (Hb0 & He0 & Hch0 & Hnx & Hc). pose proof (chained_closed _ _ _ Hc Hes) as Hrest.
  assert (head (segs.*1 ++ [base]) = Some (next_base segs base)) as -> by (by destruct segs as [|[??]?]).
  cbn [default from_option id]. rewrite <-!app_assoc. f_equal.
  - f_equal. rewrite (filter_app _ old), (filter_app _ es0), (filter_dropped _ old), (filter_kept _ es0), filter_dropped;
      [by rewrite app_nil_r|..].
    + eapply Forall_impl; [by apply chained_range|]. cbn. lia.
    + eapply Forall_impl; [by apply chained_range|]. cbn. lia.
    + eapply Forall_impl; [exact Hold|]. cbn in *. lia.
  - rewrite (app_assoc old). apply IH; [done|]. apply Forall_app. split.
    + destruct segs as [|[b1 e1] segs']; cbn in *.
      * eapply Forall_impl; [exact Hold|]. cbn. intros e He. assert (0 < zlen es0) by (destruct es0; [done|cbn; lia]). lia.
      * eapply Forall_impl; [exact Hold|]. cbn. intros e He. assert (0 < zlen es0) by (destruct es0; [done|cbn; lia]). lia.
    + eapply Forall_impl; [by apply chained_range|]. cbn. lia.
Qed.

Lemma log_parts cap t v w hist segs a b :
  log_at cap t v w hist segs a b → parts hist (wl_seg_base w) = segs ++ [(g_base_seq (wl_active w), a ++ b)].
Proof.
  intros [[Hc (Hb & Hch & Hmax) _ _ _ _ _] -> _ _ Ha (b0 & old & Hb0 & Hho & -> & Hn) _].
  unfold all_records in *. apply chained_app in Hho as [Hold _].
  assert (chained (g_base_seq (wl_active w)) (a ++ b) ∧ g_base_seq (wl_active w) + zlen (a ++ b) < 2 ^ 64) as [Hab Hlt].
  { destruct Ha as [ino i _ _ Hs _ _ _|_ -> _ _ _ _]; [|by rewrite app_nil_r].
    split; [apply (sf_chain _ _ _ _ Hs)|apply (sf_base _ _ _ _ Hs)]. }
  apply parts_segs; try done. eapply Forall_impl; [by apply chained_range|]. cbn. lia.
Qed.

Lemma log_healthy cap v w hist : in_use cap true v w hist → healthy v cap w hist.
Proof.
  intros (segs & a & b & L). destruct (lg_tidy L eq_refl) as [[Hcl Hnm] Hk]. unfold healthy.
  by rewrite (log_parts _ _ _ _ _ _ _ _ L), (lg_bases L).
Qed.

Lemma healthy_undamaged cap t v w hist segs a b :
  log_at cap t v w hist segs a b → healthy v cap w hist →
  undamaged v cap segs (g_base_seq (wl_active w)) (a ++ b) ∧ removals_kept v.
Proof.
  intros L (Hcl & Hnm & Hk). rewrite (log_parts _ _ _ _ _ _ _ _ L) in Hcl. rewrite (lg_bases L) in Hnm. done.
Qed.

Section survive.
Context {K : Type} `{SysLaws K}.

Lemma in_use_outlives v cap t w hist : in_use cap t v w hist → outlives (K := K) v cap w hist.
Proof.
  intros (segs & a & b & L) C cb rounds w0 path scratch ctx kc Hc Hr Hs.
  destruct (held_lasting _ _ _ _ _ _ L) as [Hf Hh]. rewrite Hh, Hf.
  pose proof (healthy_undamaged _ _ _ _ _ _ _ _ L) as Hun. destruct (lg_cap L) as [_ Ecap]. rewrite <-Ecap in *.
  eapply wp_mono; [eapply (wp_open_lasting _ _ _ _ _ _ _ _ _ _ _ b); [apply L|done|done|done]|].
  cbv beta. intros x k' ([[[r w'] out] ctx'] & -> & Hx). eexists. split; [done|].
  unfold reopened in *. destruct (result_ok r); [done|]. destruct Hx as [Hv Hx]. split; [done|].
  intros [Hok Hfew]. destruct (Hun Hok) as [? ?]. apply Hx. split_and!; [done..|].
  unfold wal_segments, seg_count in Hfew. rewrite (lg_bases L), length_app, length_fmap in Hfew.
  cbn in Hfew. lia.
Qed.

Lemma use_log_in_use cap t ops w scratch hist (k : K) :
  in_use cap t (view k) w hist → Forall log_op_ok ops → wal_next_seq w + zlen ops < 2 ^ 64 →
  wp (use_log ops w scratch hist t) (λ x k', let '(w', hist', t') := x in
    in_use cap t' (view k') w' hist' ∧ hist `prefix_of` hist') k.
Proof.
  revert t w scratch hist k. induction ops as [|o ops IH]; intros t w scratch hist k Hw Hops Hn.
  { by apply wp_ret. }
  apply Forall_cons in Hops as [Ho Hops]. cbn [length] in Hn.
  assert (∀ r p x k', stored_next cap t (view k) w hist r p x (view k') →
    let '(res, w', r', scratch') := x in
    wp (use_log ops w' scratch' (if result_ok res then hist ++ [(r', p)] else hist) (t && result_ok res))
      (λ x k', let '(w', hist', t') := x in
        in_use cap t' (view k') w' hist' ∧ hist `prefix_of` hist') k') as Hstored.
  { intros r p [[[res w'] r'] scratch'] k' [_ Hx]. destruct (result_ok res).
    - destruct Hx as ( Hu & _ & Hnx). rewrite andb_true_r. eapply wp_mono; [apply IH; [done|done|lia]|].
      intros [[w2 h2] t2] k2 [? Hp]. split; [done|]. etransitivity; [|exact Hp]. by apply prefix_app_r.
    - destruct Hx as (Hu & Hnx). rewrite andb_false_r. apply IH; [done|done|lia]. }
  destruct o as [r p|r p| |keep]; cbn [use_log].
  - destruct Ho as [Hok Hl].
    eapply wp_call; [apply (state_wal_append (cap := cap) (t := t) w hist r (Some p)); [exact Hw|done|done|lia]|].
    cbv beta. intros [[[res w'] r'] scratch'] k' Hx. exact (Hstored r p _ _ Hx).
  - destruct Ho as [Hok Hl].
    eapply wp_call; [apply (state_append_at (cap := cap) (t := t) w hist r (Some p)); [exact Hw|done|done|lia]|].
    cbv beta. intros [[[res w'] r'] scratch'] k' Hx. exact (Hstored r p _ _ Hx).
  - destruct Hw as (segs & a & b & L). call (state_sync (cap := cap) (t := t) w hist segs a b) as [r w'] k' (Hnx & _ & Hx); [done|].
    cbn [fst snd] in *. apply IH; [|done|lia]. destruct (result_ok r); by eexists _, _, _.
  - call (state_retain (cap := cap) (t := t) w hist keep) as [[r w'] n] k' (Hx & Hnx & _); [done|]. cbn [fst snd] in *.
    apply IH; [done|done|lia].
Qed.
End survive.

(** ** Properties *)

Module DurableProps.
Import Os.Sim.

(** What a crash makes of the simulated kernel: unflushed names are lost and
    every byte that was not flushed is overwritten. *)
Definition crashed (s : sim) : sim :=
  MkSim (Fsys ((λ i, Inode (default Byte.xff <$> i_stable i) (Some <$> (default Byte.xff <$> i_stable i)))
                 <$> f_inodes (s_view s)) (f_kept (s_view s)) (Disk (f_kept (s_view s)) []) ∅)
    (s_fd s) (s_ino s) (s_rand s) (s_clock s) [] (Net [] []).

Lemma crashed_crash s : f_kept (s_view s) ⊆ f_names (s_view s) → crash (view s) (view (crashed s)).
Proof.
  intros Hk. constructor; cbn; try done; [by intros n ino Hn; left; eapply lookup_weaken|].
  intros ino i Hi. rewrite lookup_fmap, Hi. cbn.
  eexists. split; [done|]. split; [by rewrite length_fmap|]. intros j b Hj. by rewrite list_lookup_fmap, Hj.
Qed.

Definition demo_ops : list log_op :=
  let r := SegmentProps.demo_rec in let p := bytes_of [1; 2; 3] in
  [Store r p; Store r p; Store r p; Remove 3; Store r p; Flush; Store r p].

(** The demo's log, and the sequences a scan sees after the crash. *)
Definition demo_run : option (wal_t * list entry * bool) * sim :=
  open_and_use demo_ops 9 CursorProps.demo_wal [Byte.x2e; Byte.x00] 128 (zeros 256) [] true (boot []).
Definition demo_reopen : option (bool * list Z) :=
  (λ y, (result_ok y.1.1.1, y.2)) <$>
    (wal_open ReopenProps.demo_cb 9 CursorProps.demo_wal [Byte.x2e; Byte.x00] 128 (zeros 256) []
       (crashed demo_run.2)).1.

(** C2. What was made durable is found again: open a log in a directory that
    has none or holds one, store records, copy a leader's, flush, remove old
    segments, in any order, each of the calls below failing or cut short as
    it may, rollovers that leave the log without a file included; then crash
    at that point, and open what the crash left.  The callback sees, in order,
    the stored records from the first sequence the log held to the last one it
    counted as durable, in front of whatever else survived, or the opening
    fails without changing anything.  Only a removal whose flush of the
    directory failed lets records below the first come back in front of them.
    If the directory was without damage and every store and every removal was
    a success, the log is without damage: then nothing comes back, and unless
    the table is full the opening fails only when a system call does. *)
Theorem durable_log_survives {K : Type} `{SysLaws K} (ops : list log_op) (rounds : nat) (w0 : wal_t)
    (path scratch : list byte) (cap : Z) (before : list entry) (next : Z) (tidy : bool) (k : K)
    (Hdir : directory tidy (view k) cap (zlen scratch) before next)
    (Hrounds : (size (f_names (view k)) + 2 < rounds)%nat)
    (Hops : Forall log_op_ok ops) (Hnext : next + zlen ops < 2 ^ 64) :
  wp (open_and_use ops rounds w0 path cap scratch before tidy) (λ y k',
    match y with
    | Some (w, stored, good) =>
        before `prefix_of` stored ∧ outlives (K := K) (view k') cap w stored ∧
        (good = true → healthy (view k') cap w stored)
    | None => True
    end) k.
Proof.
  unfold open_and_use.
  eapply wp_call; [by apply wp_open_in_use|]. cbv beta. intros x k1 ([[[r w] out] u] & -> & Hu).
  cbn [fst snd] in Hu. destruct (result_ok r); [|by apply wp_ret]. destruct (Hu eq_refl) as [Hw _ Hnx _ _ _ _].
  eapply wp_call; [apply (use_log_in_use cap tidy ops w scratch before); [done|done|lia]|].
  cbv beta. intros [[w' stored] good] k2 [Hin Hp]. apply wp_ret. split; [done|].
  split; [by eapply in_use_outlives|]. intros ->. by apply log_healthy.
Qed.

Lemma durable_log_survives_witness :
  wp (open_and_use demo_ops 9 CursorProps.demo_wal [Byte.x2e; Byte.x00] 128 (zeros 256) [] true)
    (λ y k', match y with
             | Some (w, stored, good) =>
                 [] `prefix_of` stored ∧ outlives (K := sim) (view k') 128 w stored ∧
                 (good = true → healthy (view k') 128 w stored)
             | None => True
             end) (boot []) ∧
  option_map (λ y, (wal_first_seq y.1.1, wal_durable_seq y.1.1, w_seq <$> y.1.2.*1, y.2)) demo_run.1
    = Some (3, 4, [1; 2; 3; 4; 5], true) ∧
  demo_reopen = Some (true, [3; 4]).
Proof.
  split; [|split; vm_compute; reflexivity].
  refine (durable_log_survives demo_ops 9 CursorProps.demo_wal [Byte.x2e; Byte.x00] (zeros 256) 128 [] 1 true
    (boot []) (dir_new _ _ _ _ _ _ _) ltac:(apply Nat.ltb_lt; vm_compute; reflexivity) _
    ltac:(vm_compute; reflexivity)).
  - intros n b [ino Hn]. by vm_compute in Hn.
  - by vm_compute.
  - by vm_compute.
  - repeat constructor; by vm_compute.
Defined.

(** C10. Appending extends the log by exactly one record, or leaves it as it
    was: on success the history is what it was and, behind it, the record with
    the next sequence and a right checksum, in the active segment or in a new
    one, and the index has accounted for it; on failure, a rollover that cost
    the log its active file included, it has the records it had, on disk and
    buffered, the same next sequence and the same index.  Either way it begins
    where it began, nothing durable is lost, and no other descriptor moves. *)
Theorem append_extends_log {K : Type} `{SysLaws K} (cap : Z) (t : bool) (w : wal_t) (hist : list entry)
    (r : wal_rec_t) (p scratch : list byte) (k : K)
    (Hlog : in_use cap t (view k) w hist) (Hok : rec_ok r) (Hlen : w_len r = zlen p)
    (Hn : wal_next_seq w + 1 < 2 ^ 64) :
  wp (wal_append w r (Some p) scratch) (λ x k', let '(res, w', r', _) := x in
    log_moves (view k) (view k') w w' ∧ wal_first_seq w' = wal_first_seq w ∧
    if result_ok res then
      r' = sealed (r <| w_seq := wal_next_seq w |>) p ∧ in_use cap t (view k') w' (hist ++ [(r', p)]) ∧
      wal_next_seq w' = wal_next_seq w + 1 ∧ wl_index w' = wal_index_add (wl_index w) r'
    else in_use cap false (view k') w' hist ∧ wal_next_seq w' = wal_next_seq w ∧
      wl_index w' = wl_index w) k.
Proof.
  eapply wp_mono; [apply wp_both; [by apply (state_wal_append (cap := cap) (t := t) w hist r (Some p))|apply wp_append_shape]|].
  cbv beta. intros [[[res w'] r'] sc] k' [[Hm Hx] [Hb Hix]]. split; [done|].
  split; [by eapply in_use_first|]. destruct (result_ok res); [|tauto]. destruct Hx as (? & ? & ?). done.
Qed.

Lemma demo_log_in_use : in_use 256 true (view WalProps.demo) WalProps.demo_wal [].
Proof.
  exists [], [], []. apply (new_state true (Fsys ∅ ∅ (Disk ∅ []) ∅) _ 256 4 5 [] 0); try done.
  intros n b [ino Hn]. by vm_compute in Hn.
Qed.

Lemma append_extends_log_witness :
  let w := WalProps.demo_wal in let r := WalProps.demo_rec in
  wp (wal_append w r (Some (bytes_of [1; 2; 3])) (zeros 128)) (λ x k', let '(res, w', r', _) := x in
    log_moves (view WalProps.demo) (view k') w w' ∧ wal_first_seq w' = wal_first_seq w ∧
    if result_ok res then
      r' = sealed (r <| w_seq := wal_next_seq w |>) (bytes_of [1; 2; 3]) ∧
      in_use 256 true (view k') w' ([] ++ [(r', bytes_of [1; 2; 3])]) ∧
      wal_next_seq w' = wal_next_seq w + 1 ∧ wl_index w' = wal_index_add (wl_index w) r'
    else in_use 256 false (view k') w' [] ∧ wal_next_seq w' = wal_next_seq w ∧
      wl_index w' = wl_index w) WalProps.demo ∧
  wal_next_seq (wal_append w r (Some (bytes_of [1; 2; 3])) (zeros 128) WalProps.demo).1.1.1.2 = 2.
Proof.
  split; [|vm_compute; reflexivity].
  exact (append_extends_log 256 true WalProps.demo_wal [] WalProps.demo_rec (bytes_of [1; 2; 3]) (zeros 128)
    WalProps.demo demo_log_in_use ltac:(unfold rec_ok; cbn; lia) ltac:(reflexivity) ltac:(vm_compute; reflexivity)).
Defined.

End DurableProps.
