(* ===== verification/LoopState.v ===== *)
(** * The event loop's state (src/server/loop.h, loop.c)

    The record [loop_t], its slots, the staging of replies and the
    bookkeeping of owed acknowledgements: everything of the loop that makes
    no decision about the log.  The static buffers of loop.c are part of the
    state they serve: a slot's receive buffer is the [c_buf] of its
    connection and outlives [slot_reset]; a send buffer is the list of the
    bytes staged in it. *)

From Stdlib Require Import String.
From S2P Require Import Prelude Core Crc32c Fmt Msg Conn Record Index Os Session Segment Wal Cursor.

Open Scope Z_scope.

(** A C string's bytes. *)
Definition txt (s : string) : list byte := list_byte_of_string s.

Definition OP_LISTEN : Z := 1.
Definition OP_CONN : Z := 2.
Definition OP_SIGNAL : Z := 3.
Definition OP_TIMER : Z := 4.
Definition OP_STREAM : Z := 5.
Definition OP_METRICS : Z := 6.
Definition OP_SCRAPE : Z := 7.

Definition UD_MAKE (op slot : Z) : Z := Z.lor (u64 (Z.shiftl op 56)) (u32 slot).
Definition UD_OP (ud : Z) : Z := i32 (Z.shiftr ud 56).
Definition UD_SLOT (ud : Z) : Z := i32 (Z.land ud 0xFFFFFFFF).

Definition LOOP_MAX_CONNS : nat := 64.
Definition LOOP_RECV_CAP : Z := 8192.
Definition LOOP_SEND_CAP : Z := 8192.
Definition LOOP_MAX_REPLICAS : nat := 2.
Definition LOOP_REPL_CAP : Z := 16384.
Definition LOOP_TICK_NS : Z := 100 * 1000 * 1000.
Definition LOOP_REPL_DEADLINE_TICKS : Z := 10.
Definition LOOP_REDIAL_TICKS : Z := 5.
Definition LOOP_SUB_DEADLINE_TICKS : Z := 5.
Definition LOOP_MAX_SCRAPES : nat := 4.
Definition LOOP_SCRAPE_CAP : Z := 4096.
Definition LOOP_METRICS_CAP : Z := 16384.
Definition LOOP_FSYNC_BUCKETS : nat := 7.

Definition LOOP_REFUSED_NOT_LEADER : nat := 0.
Definition LOOP_REFUSED_NO_REPLICAS : nat := 1.
Definition LOOP_REFUSED_BEHIND : nat := 2.
Definition LOOP_REFUSED_NO_HISTORY : nat := 3.
Definition LOOP_REFUSED_STORAGE : nat := 4.
Definition LOOP_REFUSED_OTHER : nat := 5.
Definition LOOP_REFUSED_KINDS : nat := 6.

Definition EPOLL_CTL_ADD : Z := 1.
Definition EPOLL_CTL_DEL : Z := 2.
Definition EPOLL_CTL_MOD : Z := 3.
Definition EPOLLIN : Z := 0x1.
Definition EPOLLOUT : Z := 0x4.
Definition EPOLLERR : Z := 0x8.
Definition EPOLLHUP : Z := 0x10.
Definition EAGAIN : Z := 11.
Definition EIO : Z := 5.
Definition EINPROGRESS : Z := 115.

(** An acknowledgement owed to a client. *)
Record loop_ack_t := OwedAck {
  oa_client_seq : Z; oa_wal_seq : Z; oa_deadline : Z; oa_flags : Z;
  oa_due : bool; oa_degradable : bool }.
#[export] Instance eta_owed : Eta loop_ack_t := λ a,
  OwedAck (oa_client_seq a) (oa_wal_seq a) (oa_deadline a) (oa_flags a) (oa_due a)
    (oa_degradable a).

Record loop_sub_t := Sub {
  su_cursor : wal_cursor_t; su_key : Z; su_min_seq : Z; su_deadline : Z; su_until : Z;
  su_active : bool; su_waiting : bool; su_all_keys : bool; su_once : bool }.
#[export] Instance eta_sub : Eta loop_sub_t := λ s,
  Sub (su_cursor s) (su_key s) (su_min_seq s) (su_deadline s) (su_until s) (su_active s)
    (su_waiting s) (su_all_keys s) (su_once s).

(** [cn_staged] is [send_buf[0..send_len)]. *)
Record loop_conn_t := LConn {
  cn_conn : conn_t; cn_fd : Z; cn_staged : list byte; cn_send_cap : Z; cn_replica : Z;
  cn_session : Z; cn_ack_local : loop_ack_t; cn_ack_repl : loop_ack_t; cn_sub : loop_sub_t;
  cn_in_use : bool; cn_want_out : bool; cn_closing : bool }.
#[export] Instance eta_lconn : Eta loop_conn_t := λ c,
  LConn (cn_conn c) (cn_fd c) (cn_staged c) (cn_send_cap c) (cn_replica c) (cn_session c)
    (cn_ack_local c) (cn_ack_repl c) (cn_sub c) (cn_in_use c) (cn_want_out c) (cn_closing c).

(** [sc_in] is [scrape_in[i][0..in_len)] and [sc_out] the response built;
    it is empty until there is one. *)
Record loop_scrape_t := Scrape {
  sc_fd : Z; sc_in : list byte; sc_out : list byte; sc_sent : Z; sc_answering : bool;
  sc_opened_ns : Z }.
#[export] Instance eta_scrape : Eta loop_scrape_t := λ s,
  Scrape (sc_fd s) (sc_in s) (sc_out s) (sc_sent s) (sc_answering s) (sc_opened_ns s).

(** What the leader knows of one replica: an entry of the [peer_] arrays. *)
Record loop_peer_t := Peer {
  pe_live : bool; pe_durable : Z; pe_cursor : wal_cursor_t; pe_ack_ns : Z }.
#[export] Instance eta_peer : Eta loop_peer_t := λ p,
  Peer (pe_live p) (pe_durable p) (pe_cursor p) (pe_ack_ns p).

(** The follower's stream from the leader: the [repl_] fields. *)
Record loop_stream_t := Stream_ {
  rs_connecting : bool; rs_want_out : bool; rs_closing : bool; rs_fd : Z;
  rs_staged : list byte; rs_next_dial : Z; rs_conn : conn_t; rs_acked : Z; rs_last_err : Z }.
#[export] Instance eta_stream : Eta loop_stream_t := λ s,
  Stream_ (rs_connecting s) (rs_want_out s) (rs_closing s) (rs_fd s) (rs_staged s)
    (rs_next_dial s) (rs_conn s) (rs_acked s) (rs_last_err s).

(** The [retain_] fields and [replicas_want]. *)
Record loop_retain_t := Retain {
  rt_segments : Z; rt_want : Z; rt_floor : Z; rt_seen_segs : Z; rt_failed : bool }.
#[export] Instance eta_retain : Eta loop_retain_t := λ r,
  Retain (rt_segments r) (rt_want r) (rt_floor r) (rt_seen_segs r) (rt_failed r).

Record loop_counts_t := Counts {
  ct_accepted : Z; ct_closed : Z; ct_writes : Z; ct_dedup_hits : Z; ct_flushes : Z;
  ct_repl_records : Z; ct_repl_degraded : Z; ct_notified : Z; ct_retain_removed : Z;
  ct_retain_errors : Z; ct_scrapes_served : Z; ct_scrapes_refused : Z; ct_acks_append : Z;
  ct_acks_sync : Z; ct_acks_repl : Z; ct_refused : list Z; ct_fsync_ns_total : Z;
  ct_fsync_bucket : list Z }.
#[export] Instance eta_counts : Eta loop_counts_t := λ c,
  Counts (ct_accepted c) (ct_closed c) (ct_writes c) (ct_dedup_hits c) (ct_flushes c)
    (ct_repl_records c) (ct_repl_degraded c) (ct_notified c) (ct_retain_removed c)
    (ct_retain_errors c) (ct_scrapes_served c) (ct_scrapes_refused c) (ct_acks_append c)
    (ct_acks_sync c) (ct_acks_repl c) (ct_refused c) (ct_fsync_ns_total c) (ct_fsync_bucket c).

(** The log and the session table are the caller's; the loop is the only one
    to use them while it runs, so they are held here by value. *)
Record loop_t := Loop {
  l_epoll_fd : Z; l_wal : wal_t; l_listen_fd : Z; l_signal_fd : Z; l_port : Z; l_stop : bool;
  l_conns : list loop_conn_t; l_sessions : session_table_t; l_wal_dirty : bool;
  l_progress : bool; l_is_follower : bool; l_timer_fd : Z; l_tick : Z;
  l_leader_text : list byte; l_leader_addr : Z * Z; l_stream : loop_stream_t;
  l_peers : list loop_peer_t; l_retain : loop_retain_t; l_metrics_fd : Z; l_metrics_port : Z;
  l_scrapes : list loop_scrape_t; l_counts : loop_counts_t }.
#[export] Instance eta_loop : Eta loop_t := λ l,
  Loop (l_epoll_fd l) (l_wal l) (l_listen_fd l) (l_signal_fd l) (l_port l) (l_stop l)
    (l_conns l) (l_sessions l) (l_wal_dirty l) (l_progress l) (l_is_follower l) (l_timer_fd l)
    (l_tick l) (l_leader_text l) (l_leader_addr l) (l_stream l) (l_peers l) (l_retain l)
    (l_metrics_fd l) (l_metrics_port l) (l_scrapes l) (l_counts l).

(** A counter moves on. *)
Definition inc (n : Z) : Z := u64 (n + 1).

(** ** Slots *)

Definition ack_none : loop_ack_t := OwedAck 0 0 0 0 false false.
Definition sub_none : loop_sub_t := Sub wal_cursor_init 0 0 0 0 false false false false.

(** A slot after [slot_reset]; [buf] is its receive buffer. *)
Definition slot_free (buf : list byte) : loop_conn_t :=
  LConn (conn_init buf 0 CONN_MODE_CLIENT) (-1) [] LOOP_SEND_CAP (-1) 0 ack_none ack_none sub_none
    false false false.

Definition scrape_free : loop_scrape_t := Scrape (-1) [] [] 0 false 0.
Definition peer_free : loop_peer_t := Peer false 0 wal_cursor_init 0.

Definition slot (l : loop_t) (i : nat) : loop_conn_t := default (slot_free []) (l_conns l !! i).
Definition on_slot (i : nat) (f : loop_conn_t → loop_conn_t) (l : loop_t) : loop_t :=
  l <| l_conns ::= alter f i |>.
Definition peer (l : loop_t) (i : nat) : loop_peer_t := default peer_free (l_peers l !! i).
Definition on_peer (i : nat) (f : loop_peer_t → loop_peer_t) (l : loop_t) : loop_t :=
  l <| l_peers ::= alter f i |>.
Definition scrape (l : loop_t) (i : nat) : loop_scrape_t := default scrape_free (l_scrapes l !! i).
Definition on_scrape (i : nat) (f : loop_scrape_t → loop_scrape_t) (l : loop_t) : loop_t :=
  l <| l_scrapes ::= alter f i |>.

Definition slot_alloc (l : loop_t) : option nat :=
  fst <$> list_find (λ c, cn_in_use c = false) (l_conns l).

Definition slot_reset (l : loop_t) (i : nat) : loop_t :=
  on_slot i (λ c, slot_free (c_buf (cn_conn c))) l.

Definition loop_live_conns (l : loop_t) : Z :=
  zlen (filter (λ c, cn_in_use c = true) (l_conns l)).

Section slots.
Context {K : Type} `{Sys K}.

(** A message is its lines, each ended by a newline. *)
Definition say (lines : list string) : M K unit :=
  _ ← os_write_raw 2 (concat ((λ s, txt s ++ [Byte.x0a]) <$> lines)); mret tt.

Definition replica_release (l : loop_t) (idx : Z) : M K loop_t :=
  if (idx <? 0) || (Z.of_nat LOOP_MAX_REPLICAS <=? idx) then mret l else
  let i := Z.to_nat idx in
  '(_, cur) ← wal_cursor_close (pe_cursor (peer l i));
  mret (on_peer i (λ _, Peer false 0 cur 0) l).

Definition slot_release (l : loop_t) (i : nat) : M K loop_t :=
  let c := slot l i in
  if negb (cn_in_use c) then mret l else
  l ← (if 0 <=? cn_replica c then replica_release l (cn_replica c) else mret l);
  _ ← (if 0 <=? cu_fd (su_cursor (cn_sub c))
       then fst <$> wal_cursor_close (su_cursor (cn_sub c)) else mret RESULT_OK);
  _ ← (if 0 <=? cn_fd c
       then _ ← os_epoll_ctl (l_epoll_fd l) EPOLL_CTL_DEL (cn_fd c) 0 0; os_close (cn_fd c)
       else mret RESULT_OK);
  mret ((slot_reset l i) <| l_counts ::= λ n, n <| ct_closed ::= inc |> |>).

End slots.

(** ** Staging replies *)

Definition room (c : loop_conn_t) : Z := cn_send_cap c - zlen (cn_staged c).

(** Whether it fitted, and the connection. *)
Definition reply (c : loop_conn_t) (op flags sequence : Z) (payload : list byte)
    : bool * loop_conn_t :=
  if room c <? MSG_HEADER_SIZE + zlen payload then (false, c) else
  let h := msg_header_new op MSG_RECORD_NONE flags (u32 (zlen payload)) 0 sequence in
  (true, c <| cn_staged ::= λ s, s ++ header_bytes h ++ payload |>).

(** [payload] is the memory at the record's payload. *)
Definition reply_record (c : loop_conn_t) (r : wal_rec_t) (payload : list byte)
    : bool * loop_conn_t :=
  let len := i32 (w_len r) in
  if room c <? MSG_HEADER_SIZE + len then (false, c) else
  let h := msg_header_new MSG_OP_NOTIFY (w_record_type r) 0 (u32 len) (w_partition_key r)
             (w_seq r) in
  (true, c <| cn_staged ::= λ s, s ++ header_bytes h ++ sub 0 len payload |>).

Definition refused_kind (code : Z) : nat :=
  if code =? MSG_ERR_NOT_LEADER then LOOP_REFUSED_NOT_LEADER else
  if code =? MSG_ERR_NO_REPLICAS then LOOP_REFUSED_NO_REPLICAS else
  if code =? MSG_ERR_BEHIND then LOOP_REFUSED_BEHIND else
  if code =? MSG_ERR_NO_HISTORY then LOOP_REFUSED_NO_HISTORY else
  if code =? MSG_ERR_STORAGE then LOOP_REFUSED_STORAGE else LOOP_REFUSED_OTHER.

Definition text_len (s : list byte) : Z := zlen s.

(** The replies to a slot: what the code does with [c = &l->conns[slot]].
    None of the callers looks at whether it fitted. *)
Definition reply_to (i : nat) (op flags sequence : Z) (payload : list byte) (l : loop_t) : loop_t :=
  on_slot i (λ c, (reply c op flags sequence payload).2) l.

Definition reply_err_text (i : nat) (code sequence : Z) (text : list byte) (l : loop_t) : loop_t :=
  let n := if MSG_MAX_ERR_TEXT <? text_len text then MSG_MAX_ERR_TEXT else text_len text in
  let l := l <| l_counts ::= λ k, k <| ct_refused ::= alter inc (refused_kind code) |> |> in
  reply_to i MSG_OP_ERR 0 sequence (err_bytes (ErrPayload code n 0) ++ sub 0 n text) l.

Definition reply_err (i : nat) (code sequence : Z) (l : loop_t) : loop_t :=
  reply_err_text i code sequence [] l.

Definition reply_ack (i : nat) (flags sequence client_seq : Z) (l : loop_t) : loop_t :=
  reply_to i MSG_OP_ACK flags sequence (ack_bytes (Ack client_seq)) l.

Definition close_slot (i : nat) (l : loop_t) : loop_t :=
  on_slot i (λ c, c <| cn_closing := true |>) l.

(** ** Owed acknowledgements *)

Definition ack_clear (a : loop_ack_t) : loop_ack_t := ack_none.

Definition ack_stage (a : loop_ack_t) (flags : Z) (degradable : bool)
    (client_seq wal_seq deadline : Z) : loop_ack_t :=
  OwedAck (if oa_client_seq a <? client_seq then client_seq else oa_client_seq a)
    (if oa_wal_seq a <? wal_seq then wal_seq else oa_wal_seq a)
    (if oa_due a then oa_deadline a else deadline)
    (Z.lor (oa_flags a) flags) true (oa_degradable a || degradable).

Definition repl_live (l : loop_t) : bool := existsb pe_live (l_peers l).

Definition repl_best (l : loop_t) : Z :=
  foldl (λ best p, if pe_live p && (best <? pe_durable p) then pe_durable p else best) 0
    (l_peers l).

Definition retain_floor_update (l : loop_t) : loop_t :=
  if rt_want (l_retain l) <=? 0 then l else
  let '(lowest, live) :=
    foldl (λ '(lowest, live) p,
        if negb (pe_live p) then (lowest, live) else
        (if (live =? 0) || (pe_durable p <? lowest) then pe_durable p else lowest, live + 1))
      (0, 0) (l_peers l) in
  if live <? rt_want (l_retain l) then l else
  if rt_floor (l_retain l) <? lowest
  then l <| l_retain ::= λ r, r <| rt_floor := lowest |> |> else l.

Definition ack_write (i : nat) (ack_flags : Z) (wants_repl degradable : bool)
    (client_seq wal_seq : Z) (l : loop_t) : loop_t :=
  if negb wants_repl then
    on_slot i (λ c, c <| cn_ack_local ::= λ a, ack_stage a ack_flags false client_seq wal_seq 0 |>) l
  else if negb (repl_live l) then
    (on_slot i (λ c, c <| cn_ack_local ::= λ a,
      ack_stage a (Z.lor ack_flags MSG_FLAG_DEGRADED) true client_seq wal_seq 0 |>) l)
    <| l_counts ::= λ k, k <| ct_repl_degraded ::= inc |> |>
  else
    on_slot i (λ c, c <| cn_ack_repl ::= λ a,
      ack_stage a ack_flags degradable client_seq wal_seq
        (u32 (l_tick l + LOOP_REPL_DEADLINE_TICKS)) |>) l.

Definition ack_count (flags : Z) (l : loop_t) : loop_t :=
  l <| l_counts ::= λ k,
    if has_flag flags MSG_FLAG_REPLICATED && negb (has_flag flags MSG_FLAG_DEGRADED)
    then k <| ct_acks_repl ::= inc |>
    else if has_flag flags MSG_FLAG_SYNC then k <| ct_acks_sync ::= inc |>
    else k <| ct_acks_append ::= inc |> |>.
