(* ===== verification/Tiny.v ===== *)
(** * The stand-alone programs (src/server/tiny.c, tinye.c)

    Two programs the build makes beside the server: one that greets, and one
    that greets and prints an error stack of three frames.  Both end in
    [os_exit]; [None] is a process that does not come back from there. *)

From S2P Require Import Prelude Core Fmt Os LoopState.
Import Core.Err.

(** ** The greeting *)

Definition msg : list byte := txt "hello world" ++ [Byte.x0a].

Section tiny.
Context {K : Type} `{Sys K} `{SpareSys K}.

Definition tiny_start : M K (option Empty_set) :=
  _ ← os_write_raw 1 msg;
  os_exit 0.

End tiny.

(** ** Numbers *)

(** [while (u) { buf[--i] = '0' + u % 10; u /= 10; }]; a [uint64_t] has at
    most twenty digits. *)
Fixpoint put_digits (fuel : nat) (buf : list byte) (i u : Z) : list byte * Z :=
  match fuel with
  | O => (buf, i)
  | S fuel => if u =? 0 then (buf, i) else put_digits fuel (zset buf (i - 1) (digit (u mod 10))) (i - 1) (u / 10)
  end.

(** What [write_i64] makes of its array, and where the text starts in it. *)
Definition put_i64 (buf : list byte) (v : Z) : list byte * Z :=
  let neg := v <? 0 in
  let u := if neg then u64 (u64 (- (v + 1)) + 1) else u64 v in
  let '(buf, i) := if u =? 0 then (zset buf (24 - 1) (digit 0), 24 - 1) else put_digits 20 buf 24 u in
  if neg then (zset buf (i - 1) Byte.x2d, i - 1) else (buf, i).

(** ** The error stack *)

Section tinye.
Context {K : Type} `{Sys K} `{SpareSys K}.

Definition write_str (s : list byte) : M K unit := _ ← os_write_raw 1 s; mret tt.

(** The array is not initialised; what it holds is never written out. *)
Definition write_i64 (v : Z) : M K unit :=
  let '(buf, i) := put_i64 (zeros 24) v in
  _ ← os_write_raw 1 (sub i (24 - i) buf); mret tt.

Definition write_detail (d : err_detail_t) : M K unit :=
  match d with
  | ERR_DTL_ERRNO n => _ ← write_str (txt " errno="); write_i64 n
  | ERR_DTL_FD n => _ ← write_str (txt " fd="); write_i64 n
  | ERR_DTL_INT n => _ ← write_str (txt " val="); write_i64 n
  | _ => mret tt
  end.

(** One turn of the loop.  The names of a frame that was pushed are there. *)
Definition print_frame (i : nat) (f : err_frame_t) : M K unit :=
  _ ← write_str (txt "  [");
  _ ← write_i64 (Z.of_nat i);
  _ ← write_str (txt "] ");
  _ ← write_str (txt (default EmptyString (f_file f)));
  _ ← write_str (txt ":");
  _ ← write_i64 (f_line f);
  _ ← write_str (txt " ");
  _ ← write_str (txt (default EmptyString (f_func f)));
  _ ← write_str (txt "() code=");
  _ ← write_i64 (f_code f);
  _ ← write_detail (f_detail f);
  write_str [Byte.x0a].

Fixpoint print_frames (e : err_t) (todo : list nat) : M K unit :=
  match todo with
  | [] => mret tt
  | i :: todo =>
      _ ← match err_frame_at e i with Some f => print_frame i f | None => mret tt end;
      print_frames e todo
  end.

Definition print_err (e : err_t) : M K unit :=
  if negb (err_has_error e) then write_str (txt "[err] (none)" ++ [Byte.x0a]) else
  _ ← write_str (txt "[err] ");
  _ ← write_i64 (Z.of_nat (err_frame_count e));
  _ ← write_str (txt " frames:" ++ [Byte.x0a]);
  print_frames e (seq 0 (err_frame_count e)).

(** The frames of the demonstration; the path is the one the build gives the
    compiler. *)
Definition here (line code : Z) (d : err_detail_t) : err_frame_t :=
  Frame (Some "src/server/tinye.c"%string) (Some "_start"%string) line code d.

Definition tinye_start : M K (option Empty_set) :=
  _ ← os_write_raw 1 msg;
  let err := err_push_frame err_init (here 105 ERR_SYSCALL (ERR_DTL_ERRNO 28)) in
  let err := err_push_frame err (here 106 ERR_STORAGE (ERR_DTL_FD 7)) in
  let err := err_push_frame err (here 107 ERR_INVALID (ERR_DTL_INT 1234)) in
  _ ← print_err err;
  os_exit 0.

End tinye.

(** ** What they print *)

(** The text of a number. *)
Definition signed (v : Z) : list byte := (if v <? 0 then [Byte.x2d] else []) ++ decimal (Z.abs v).

(** A byte that is put in front of what is there. *)
Lemma put_front (buf : list byte) i b :
  0 < i <= zlen buf → drop (Z.to_nat (i - 1)) (zset buf (i - 1) b) = b :: drop (Z.to_nat i) buf.
Proof.
  intros Hi. unfold zset. rewrite (proj2 (Z.ltb_ge _ _)) by lia.
  rewrite (drop_S _ b) by (apply list_lookup_insert_eq; lia). f_equal.
  rewrite drop_insert_lt by lia. f_equal. lia.
Qed.

Lemma put_digits_text fuel buf i u :
  0 < u < 10 ^ Z.of_nat fuel → Z.of_nat fuel <= i <= zlen buf →
  let '(buf', i') := put_digits fuel buf i u in
  i' = i - zlen (digits_rev fuel u) ∧ zlen buf' = zlen buf ∧
  drop (Z.to_nat i') buf' = reverse (digits_rev fuel u) ++ drop (Z.to_nat i) buf.
Proof.
  revert buf i u. induction fuel as [|fuel IH]; intros buf i u Hu Hi; [cbn in *; lia|].
  cbn [put_digits digits_rev]. rewrite (proj2 (Z.eqb_neq u 0)) by lia.
  rewrite Nat2Z.inj_succ, Z.pow_succ_r in Hu by lia.
  set (b := digit (u mod 10)). assert (zlen (zset buf (i - 1) b) = zlen buf) as Hl by (by rewrite length_zset).
  pose proof (put_front buf i b ltac:(lia)) as Hd.
  destruct (Z.ltb_spec 0 (u / 10)) as [Hpos|Hz].
  - specialize (IH (zset buf (i - 1) b) (i - 1) (u / 10)).
    destruct (put_digits fuel _ _ _) as [buf' i']. destruct IH as (-> & -> & ->); [Z.div_mod_to_equations; lia|lia|].
    cbn [length]. split_and!; [lia|done|]. by rewrite Hd, reverse_cons, <-app_assoc.
  - assert (u / 10 = 0) as -> by (Z.div_mod_to_equations; lia).
    assert (put_digits fuel (zset buf (i - 1) b) (i - 1) 0 = (zset buf (i - 1) b, i - 1)) as -> by (by destruct fuel).
    cbn [length]. split_and!; [lia|done|]. by rewrite Hd.
Qed.

Lemma sub_tail {A} i (l : list A) : 0 <= i <= zlen l → sub i (zlen l - i) l = drop (Z.to_nat i) l.
Proof. intros Hi. unfold sub. rewrite take_ge; [done|]. rewrite length_drop. lia. Qed.

Lemma put_magnitude (buf : list byte) u :
  0 <= u < 2 ^ 64 → zlen buf = 24 →
  let '(buf', i) := if u =? 0 then (zset buf (24 - 1) (digit 0), 24 - 1) else put_digits 20 buf 24 u in
  4 <= i < 24 ∧ zlen buf' = 24 ∧ drop (Z.to_nat i) buf' = decimal u.
Proof.
  intros Hu Hb. assert (drop (Z.to_nat 24) buf = []) as Hend by (apply drop_ge; lia).
  destruct (Z.eqb_spec u 0) as [->|Hne].
  - split_and!; [lia|lia|by rewrite length_zset|]. rewrite put_front, Hend by lia. done.
  - pose proof (put_digits_text 20 buf 24 u) as Hp. destruct (put_digits _ _ _ _) as [buf' i].
    destruct Hp as (-> & -> & ->); [change (10 ^ Z.of_nat 20) with (10 ^ 20); lia|lia|].
    pose proof (digits_rev_length 20 u). pose proof (digits_rev_nonempty u).
    rewrite Hend, app_nil_r. split_and!; (done || lia).
Qed.

Module TinyProps.
Import Os.Sim.

(** A number is written as it is, [INT64_MIN] included, and inside the
    array, whatever that held. *)
Theorem write_i64_exact (buf : list byte) (v : Z)
    (Hv : - 2 ^ 63 <= v < 2 ^ 63) (Hbuf : zlen buf = 24) :
  let '(buf', i) := put_i64 buf v in
  3 <= i < 24 ∧ zlen buf' = 24 ∧ sub i (24 - i) buf' = signed v.
Proof.
  unfold put_i64, signed. cbv zeta.
  assert ((if v <? 0 then u64 (u64 (- (v + 1)) + 1) else u64 v) = Z.abs v) as ->.
  { destruct (Z.ltb_spec v 0); [rewrite (u64_id (- (v + 1))) by lia|]; rewrite u64_id; lia. }
  pose proof (put_magnitude buf (Z.abs v) ltac:(lia) Hbuf) as Hm.
  destruct (if Z.abs v =? 0 then _ else _) as [buf' i]. destruct Hm as (Hi & Hl & Hd).
  destruct (v <? 0).
  - split_and!; [lia|lia|by rewrite length_zset|].
    assert (zlen (zset buf' (i - 1) Byte.x2d) = 24) as Hl2 by (by rewrite length_zset).
    rewrite <-Hl2, sub_tail, put_front, Hd by lia. done.
  - split_and!; [lia..|done|]. by rewrite <-Hl, sub_tail by lia.
Qed.

Lemma write_i64_exact_witness :
  (let '(buf', i) := put_i64 (zeros 24) (- 2 ^ 63) in
   3 <= i < 24 ∧ zlen buf' = 24 ∧ sub i (24 - i) buf' = signed (- 2 ^ 63)) ∧
  signed (- 2 ^ 63) = txt "-9223372036854775808".
Proof.
  split; [|vm_compute; reflexivity].
  exact (write_i64_exact (zeros 24) (- 2 ^ 63) ltac:(vm_compute; split; [discriminate|reflexivity]) eq_refl).
Defined.

#[local] Instance spare_sim : SpareSys sim := {
  sys_ftruncate _ _ := fail 38; sys_mmap _ _ _ _ _ _ := fail 38; sys_munmap _ _ := fail 38;
  sys_eventfd2 _ _ := fail 38; sys_exit _ := λ s, (0, s) }.

(** All that a run writes to standard output. *)
Definition output (m : M sim (option Empty_set)) : list byte :=
  concat (omap (λ x : Z * list byte, if x.1 =? 1 then Some x.2 else None) (s_sent (m (boot [])).2)).

(** The first program prints the greeting, the second one the greeting and
    its three frames, the most recent first. *)
Theorem tiny_programs_print :
  output tiny_start = msg ∧ output tinye_start = msg ++ concat ((λ s, txt s ++ [Byte.x0a]) <$>
    ["[err] 3 frames:";
     "  [0] src/server/tinye.c:107 _start() code=-4 val=1234";
     "  [1] src/server/tinye.c:106 _start() code=-7 fd=7";
     "  [2] src/server/tinye.c:105 _start() code=-1 errno=28"]%string).
Proof. split; vm_compute; reflexivity. Qed.

End TinyProps.
