(* ===== verification/LoopFrames.v ===== *)
(** * What the loop does with a frame (src/server/loop.c: the handlers)

    One definition per handler of a client's or a replica's frame, and the
    application of a leader's records on a follower.  A handler gets the
    payload as the framing layer hands it over, [None] when there is none,
    and returns the loop's new state. *)

From Stdlib Require Import String.
From S2P Require Import Prelude Core Crc32c Fmt Msg Conn Record Index Os Session Segment Wal Cursor.
From S2P Require Import LoopState.

Open Scope Z_scope.

Section frames.
Context {K : Type} `{Sys K}.

Definition TFD_CLOEXEC : Z := 0x80000.
Definition TFD_NONBLOCK : Z := 0x800.

Definition arm_timer_now (l : loop_t) : M K loop_t :=
  if 0 <=? l_timer_fd l then mret l else
  '(r, fd) ← os_timerfd (Z.lor TFD_CLOEXEC TFD_NONBLOCK) (l_timer_fd l);
  if negb (result_ok r) then mret (l <| l_timer_fd := -1 |>) else
  let fails := _ ← os_close fd; mret (l <| l_timer_fd := -1 |>) in
  r ← os_timerfd_period fd LOOP_TICK_NS;
  if negb (result_ok r) then fails else
  r ← os_epoll_ctl (l_epoll_fd l) EPOLL_CTL_ADD fd EPOLLIN (UD_MAKE OP_TIMER 0);
  if negb (result_ok r) then fails else
  mret (l <| l_timer_fd := fd |>).

Definition handle_hello (l : loop_t) (i : nat) (h : msg_header_t) (payload : option (list byte))
    (payload_len : Z) : M K loop_t :=
  let too_big := close_slot i (reply_err i MSG_ERR_PAYLOAD_TOO_BIG (h_sequence h) l) in
  match msg_decode_hello payload payload_len with
  | None => mret too_big
  | Some hello =>
      if negb (msg_hello_valid hello payload_len) then mret too_big else
      let welcome l s :=
        match st_entries (l_sessions l) !! s with
        | None => l
        | Some s =>
            reply_ack i MSG_FLAG_ACK_REQ (ss_id s) (ss_last s)
              (on_slot i (λ c, c <| cn_session := ss_id s |>) l)
        end in
      if he_session hello =? 0 then
        '(s, t) ← session_create (l_sessions l);
        let l := l <| l_sessions := t |> in
        match s with
        | None => mret (close_slot i (reply_err i MSG_ERR_SESSION_UNKNOWN (h_sequence h) l))
        | Some s => mret (welcome l s)
        end
      else
        match session_lookup (l_sessions l) (he_session hello) with
        | None => mret (reply_err i MSG_ERR_SESSION_UNKNOWN (h_sequence h) l)
        | Some s => mret (welcome l s)
        end
  end.

(** The record a write asks for; the log numbers and seals it. *)
Definition rec_of_write (session : Z) (h : msg_header_t) (payload_len : Z) : wal_rec_t :=
  Rec 0 (u32 payload_len) 1 0 session (h_sequence h) (h_record_type h) (h_flags h) 0
    (h_partition_key h).

Definition handle_write (l : loop_t) (i : nat) (h : msg_header_t) (payload : option (list byte))
    (payload_len : Z) (scratch : list byte) : M K loop_t :=
  match session_lookup (l_sessions l) (cn_session (slot l i)) with
  | None => mret (close_slot i (reply_err i MSG_ERR_NO_SESSION (h_sequence h) l))
  | Some s =>
      if l_is_follower l
      then mret (reply_err_text i MSG_ERR_NOT_LEADER (h_sequence h) (l_leader_text l) l) else
      let wants_repl := has_flag (h_flags h) MSG_FLAG_REPLICATED in
      let degradable := has_flag (h_flags h) MSG_FLAG_ALLOW_DEGRADED in
      if wants_repl && negb (repl_live l) && negb degradable
      then mret (reply_err i MSG_ERR_NO_REPLICAS (h_sequence h) l) else
      let ack_flags := Z.land (h_flags h)
        (Z.lor (Z.lor MSG_FLAG_ACK_REQ MSG_FLAG_SYNC) MSG_FLAG_REPLICATED) in
      let wants_ack := has_flag (h_flags h) MSG_FLAG_ACK_REQ in
      let last := from_option ss_last 0 (st_entries (l_sessions l) !! s) in
      if h_sequence h <=? last then
        let l := l <| l_counts ::= λ k, k <| ct_dedup_hits ::= inc |> |> in
        mret (if wants_ack
              then ack_write i ack_flags wants_repl degradable last (wal_durable_seq (l_wal l)) l
              else l)
      else
        let rec := rec_of_write (cn_session (slot l i)) h payload_len in
        '(r, w, rec, _) ← wal_append (l_wal l) rec payload scratch;
        let l := l <| l_wal := w |> in
        if negb (result_ok r) then
          mret (reply_err i (if r_code r =? ERR_INVALID then MSG_ERR_PAYLOAD_TOO_BIG
                             else MSG_ERR_STORAGE) (h_sequence h) l)
        else
          let l := l <| l_counts ::= λ k, k <| ct_writes ::= inc |> |>
                     <| l_wal_dirty := true |>
                     <| l_sessions ::= λ t, session_touch
                          (t <| st_entries ::= alter (λ s, s <| ss_last := h_sequence h |>) s |>) s |> in
          mret (if wants_ack
                then ack_write i ack_flags wants_repl degradable (h_sequence h) (w_seq rec) l
                else l)
  end.

Definition on_sub (i : nat) (f : loop_sub_t → loop_sub_t) (l : loop_t) : loop_t :=
  on_slot i (λ c, c <| cn_sub ::= f |>) l.

Definition handle_subscribe (l : loop_t) (i : nat) (h : msg_header_t)
    (payload : option (list byte)) (payload_len scratch_len : Z) : M K loop_t :=
  match msg_decode_subscribe payload payload_len with
  | None => mret (close_slot i (reply_err i MSG_ERR_PAYLOAD_TOO_BIG (h_sequence h) l))
  | Some req =>
      let sub := cn_sub (slot l i) in
      if su_active sub || su_waiting sub
      then mret (reply_err i MSG_ERR_UNSUPPORTED (h_sequence h) l) else
      let from := if sb_from_seq req =? 0 then wal_next_seq (l_wal l) else sb_from_seq req in
      let all_keys := has_flag (h_flags h) MSG_FLAG_ALL_KEYS in
      let from :=
        if negb all_keys then
          match wal_index_range (wal_index (l_wal l)) (h_partition_key h) from with
          | Some (key_from, _) => key_from
          | None => from
          end
        else from in
      '(r, cur) ← wal_cursor_seek (l_wal l) wal_cursor_init from scratch_len;
      let l := on_sub i (λ s, s <| su_cursor := cur |>) l in
      if negb (result_ok r)
      then mret (reply_err i MSG_ERR_NO_HISTORY (h_sequence h) l) else
      let l := on_sub i (λ s, s <| su_key := h_partition_key h |> <| su_all_keys := all_keys |>
                                <| su_min_seq := sb_min_seq req |>) l in
      if wal_durable_seq (l_wal l) <? sb_min_seq req then
        arm_timer_now (on_sub i (λ s, s <| su_waiting := true |>
          <| su_deadline := u32 (l_tick l + LOOP_SUB_DEADLINE_TICKS) |>) l)
      else
        mret (reply_to i MSG_OP_ACK 0 from [] (on_sub i (λ s, s <| su_active := true |>) l))
  end.

Definition handle_read (l : loop_t) (i : nat) (h : msg_header_t)
    (payload : option (list byte)) (payload_len scratch_len : Z) : M K loop_t :=
  match msg_decode_read payload payload_len with
  | None => mret (close_slot i (reply_err i MSG_ERR_PAYLOAD_TOO_BIG (h_sequence h) l))
  | Some req =>
      let sub := cn_sub (slot l i) in
      if su_active sub || su_waiting sub
      then mret (reply_err i MSG_ERR_UNSUPPORTED (h_sequence h) l) else
      let all_keys := has_flag (h_flags h) MSG_FLAG_ALL_KEYS in
      let until := wal_durable_seq (l_wal l) in
      let from := wal_first_seq (l_wal l) in
      let l := on_sub i (λ s, s <| su_key := h_partition_key h |> <| su_all_keys := all_keys |>
        <| su_min_seq := rd_min_seq req |> <| su_once := true |> <| su_until := until |>) l in
      let range := if negb all_keys
                   then wal_index_range (wal_index (l_wal l)) (h_partition_key h) from else None in
      if negb all_keys && bool_decide (range = None) && wal_index_complete (wal_index (l_wal l))
      then mret (reply_to i MSG_OP_ACK 0 0 []
             (on_sub i (λ s, s <| su_until := 0 |> <| su_cursor ::= λ c, c <| cu_next_seq := 1 |> |>
                               <| su_active := true |>) l))
      else
      let '(from, until) :=
        match range with
        | Some (key_from, key_last) => (key_from, if key_last <? until then key_last else until)
        | None => (from, until)
        end in
      let l := on_sub i (λ s, s <| su_until := until |>) l in
      '(r, cur) ← wal_cursor_seek (l_wal l) wal_cursor_init from scratch_len;
      let l := on_sub i (λ s, s <| su_cursor := cur |>) l in
      if negb (result_ok r)
      then mret (reply_err i MSG_ERR_NO_HISTORY (h_sequence h) l) else
      if until <? rd_min_seq req then
        arm_timer_now (on_sub i (λ s, s <| su_waiting := true |>
          <| su_deadline := u32 (l_tick l + LOOP_SUB_DEADLINE_TICKS) |>) l)
      else
        mret (reply_to i MSG_OP_ACK 0 (cu_next_seq cur) []
                (on_sub i (λ s, s <| su_active := true |>) l))
  end.

(** ** Replication: the leader's side *)

Definition handle_repl_start (l : loop_t) (i : nat) (h : msg_header_t) (scratch_len : Z)
    : M K loop_t :=
  if l_is_follower l then
    mret (close_slot i (reply_err_text i MSG_ERR_NOT_LEADER (h_sequence h) (l_leader_text l) l))
  else
  match list_find (λ p, pe_live p = false) (l_peers l) with
  | None => mret (close_slot i (reply_err i MSG_ERR_NO_REPLICAS (h_sequence h) l))
  | Some (idx, _) =>
      '(r, cur) ← wal_cursor_seek (l_wal l) wal_cursor_init (h_sequence h) scratch_len;
      let l := on_peer idx (λ p, p <| pe_cursor := cur |>) l in
      if negb (result_ok r)
      then mret (close_slot i (reply_err i MSG_ERR_NO_HISTORY (h_sequence h) l)) else
      let l := on_slot i (λ c, c <| cn_replica := Z.of_nat idx |> <| cn_send_cap := LOOP_REPL_CAP |>
                                 <| cn_staged := [] |>) l in
      now ← os_now_ns;
      let l := on_peer idx (λ p, p <| pe_live := true |> <| pe_durable := u64 (h_sequence h - 1) |>
                                   <| pe_ack_ns := now |>) l in
      arm_timer_now (retain_floor_update l)
  end.

(** ** Replication: the follower's side *)

Definition MAX_STREAM_SEND : Z := MSG_HEADER_SIZE * 2.

Definition stream_frame (op sequence : Z) (s : loop_stream_t) : loop_stream_t :=
  if MAX_STREAM_SEND - zlen (rs_staged s) <? MSG_HEADER_SIZE then s else
  s <| rs_staged ::= λ b, b ++ header_bytes (msg_header_new op MSG_RECORD_NONE 0 0 0 sequence) |>.

Definition close_stream (l : loop_t) : loop_t := l <| l_stream ::= λ s, s <| rs_closing := true |> |>.

(** The loop of [repl_apply]; [at_] moves by at least one record's size, so
    the length of the payload bounds it. *)
Fixpoint apply_loop (fuel : nat) (l : loop_t) (p : list byte) (n at_ : Z) (scratch : list byte)
    : M K loop_t :=
  match fuel with
  | O => mret l
  | S fuel =>
      if n <=? at_ then mret l else
      let here := drop (Z.to_nat at_) p in
      match wal_rec_decode here (n - at_) with
      | None => mret (close_stream l)
      | Some rec =>
          let size := wal_rec_size (i32 (w_len rec)) in
          if (size =? 0) || (n <? at_ + size) || negb (wal_rec_verify here (n - at_) rec)
             || negb (w_seq rec =? wal_next_seq (l_wal l))
          then mret (close_stream l) else
          '(r, w, rec, scratch) ← wal_append_at (l_wal l) rec
            (Some (drop (Z.to_nat WAL_REC_HEADER_SIZE) here)) scratch;
          let l := l <| l_wal := w |> in
          if negb (result_ok r) then mret (close_stream l) else
          let l := l <| l_sessions ::= λ t, session_from_record t rec |>
                     <| l_stream ::= λ s, s <| rs_last_err := 0 |> |>
                     <| l_wal_dirty := true |>
                     <| l_counts ::= λ k, k <| ct_repl_records ::= inc |> |> in
          apply_loop fuel l p n (at_ + size) scratch
      end
  end.

Definition repl_apply (l : loop_t) (p : option (list byte)) (n : Z) (scratch : list byte)
    : M K loop_t :=
  apply_loop (S (Z.to_nat n)) l (default [] p) n 0 scratch.

Definition on_stream_frame (l : loop_t) (h : msg_header_t) (payload : option (list byte))
    (payload_len : Z) (scratch : list byte) : M K loop_t :=
  if h_op h =? MSG_OP_REPL_DATA then repl_apply l payload payload_len scratch
  else if h_op h =? MSG_OP_ERR then
    let code := from_option ep_code 0 (msg_decode_err payload payload_len) in
    if negb (code =? rs_last_err (l_stream l)) then
      _ ← (if code =? MSG_ERR_NO_HISTORY then
             say ["msgsrvd: the leader does not hold the sequence this node asked for.";
                  "Its log has to be replaced with a copy of the leader's; streaming cannot repair it."]
           else if code =? MSG_ERR_NOT_LEADER then
             say ["msgsrvd: the node named as leader is a replica itself."]
           else if code =? MSG_ERR_NO_REPLICAS then
             say ["msgsrvd: the leader has no room for another replica."]
           else say ["msgsrvd: the leader refused the replication stream."]);
      mret (close_stream (l <| l_stream ::= λ s, s <| rs_last_err := code |> |>))
    else mret (close_stream l)
  else mret (close_stream l).

(** ** Dispatch *)

Definition handle_frame (l : loop_t) (i : nat) (h : msg_header_t) (payload : option (list byte))
    (payload_len : Z) (scratch : list byte) : M K loop_t :=
  let op := h_op h in
  if op =? MSG_OP_HELLO then handle_hello l i h payload payload_len
  else if op =? MSG_OP_WRITE then handle_write l i h payload payload_len scratch
  else if op =? MSG_OP_PING then mret (reply_to i MSG_OP_PONG 0 (h_sequence h) [] l)
  else if op =? MSG_OP_REPL_START then handle_repl_start l i h (zlen scratch)
  else if op =? MSG_OP_REPL_ACK then
    let idx := cn_replica (slot l i) in
    if 0 <=? idx then
      let l := on_peer (Z.to_nat idx) (λ p, p <| pe_durable := h_sequence h |>) l in
      now ← os_now_ns;
      mret (retain_floor_update (on_peer (Z.to_nat idx) (λ p, p <| pe_ack_ns := now |>) l))
    else mret l
  else if op =? MSG_OP_SUBSCRIBE then handle_subscribe l i h payload payload_len (zlen scratch)
  else if op =? MSG_OP_READ then handle_read l i h payload payload_len (zlen scratch)
  else if op =? MSG_OP_DELETE then mret (reply_err i MSG_ERR_UNSUPPORTED (h_sequence h) l)
  else mret (close_slot i (reply_err i MSG_ERR_BAD_OP (h_sequence h) l)).

End frames.
