(* ===== verification/LoopServe.v ===== *)
(** * What a pass does after its flush (src/server/loop.c)

    Acknowledgements, the replicas' streams, the subscribers, the report to
    the leader and retention: the part of [loop_tick] that follows the
    flush. *)

From Stdlib Require Import String.
From S2P Require Import Prelude Core Crc32c Fmt Msg Conn Record Index Os Session Segment Wal Cursor.
From S2P Require Import LoopState LoopFrames.

Open Scope Z_scope.

(** The slots a scan of [conns] visits. *)
Definition slots : list nat := seq 0 LOOP_MAX_CONNS.

(** ** Acknowledgements *)

(** One slot of [acks_emit]; [best] and [live] are taken before the scan. *)
Definition ack_emit (best : Z) (live : bool) (l : loop_t) (i : nat) : loop_t :=
  if negb (cn_in_use (slot l i)) then l else
  let a := cn_ack_local (slot l i) in
  let l :=
    if oa_due a then
      on_slot i (λ c, c <| cn_ack_local ::= ack_clear |>)
        (ack_count (oa_flags a) (reply_ack i (oa_flags a) (oa_wal_seq a) (oa_client_seq a) l))
    else l in
  let a := cn_ack_repl (slot l i) in
  let clear := on_slot i (λ c, c <| cn_ack_repl ::= ack_clear |>) in
  if negb (oa_due a) then l else
  if (oa_wal_seq a <=? best) && (oa_wal_seq a <=? wal_durable_seq (l_wal l)) then
    clear (ack_count (oa_flags a) (reply_ack i (oa_flags a) (oa_wal_seq a) (oa_client_seq a) l))
  else if live && (l_tick l <? oa_deadline a) then l
  else if oa_degradable a then
    let flags := Z.lor (oa_flags a) MSG_FLAG_DEGRADED in
    clear ((ack_count flags (reply_ack i flags (oa_wal_seq a) (oa_client_seq a) l))
             <| l_counts ::= λ k, k <| ct_repl_degraded ::= inc |> |>)
  else clear (reply_err i MSG_ERR_NO_REPLICAS (oa_client_seq a) l).

Definition acks_emit (l : loop_t) : loop_t :=
  foldl (ack_emit (repl_best l) (repl_live l)) l slots.

(** ** The follower's report *)

Definition stream_report (l : loop_t) : loop_t :=
  let s := l_stream l in
  if (rs_fd s <? 0) || rs_connecting s || rs_closing s then l else
  let durable := wal_durable_seq (l_wal l) in
  if durable <=? rs_acked s then l else
  if 0 <? zlen (rs_staged s) then l else
  l <| l_stream ::= λ s, (stream_frame MSG_OP_REPL_ACK durable s) <| rs_acked := durable |> |>.

(** ** Flush latency *)

Definition fsync_bound_ns : list Z :=
  [500000; 1000000; 2000000; 5000000; 10000000; 20000000; 50000000].

(** The bucket a flush of [ns] lands in. *)
Definition fsync_bucket_of (ns : Z) : nat :=
  from_option fst LOOP_FSYNC_BUCKETS (list_find (λ b, ns <= b) fsync_bound_ns).

Section serve.
Context {K : Type} `{Sys K}.

Definition fsync_observe (l : loop_t) (began_ns : Z) : M K loop_t :=
  ns ← (if 0 <? began_ns
        then now ← os_now_ns; mret (if began_ns <? now then now - began_ns else 0)
        else mret 0);
  mret (l <| l_counts ::= λ k,
          k <| ct_fsync_ns_total ::= λ t, u64 (t + ns) |>
            <| ct_fsync_bucket ::= alter inc (fsync_bucket_of ns) |> |>).

(** ** The replicas' streams *)

(** One slot of [repl_stream]. *)
Definition stream_one (limit : Z) (l : loop_t) (i : nat) : M K loop_t :=
  let c := slot l i in
  if negb (cn_in_use c) || cn_closing c || (cn_replica c <? 0) then mret l else
  if 0 <? zlen (cn_staged c) then mret l else
  let idx := Z.to_nat (cn_replica c) in
  let first := cu_next_seq (pe_cursor (peer l idx)) in
  '(r, cur, data) ← wal_cursor_read (l_wal l) (pe_cursor (peer l idx)) limit
    (cn_send_cap c - MSG_HEADER_SIZE);
  let l := on_peer idx (λ p, p <| pe_cursor := cur |>) l in
  if negb (result_ok r) then mret (close_slot i l) else
  if zlen data =? 0 then mret l else
  let h := msg_header_new MSG_OP_REPL_DATA MSG_RECORD_NONE 0 (u32 (zlen data)) 0 first in
  mret ((on_slot i (λ c, c <| cn_staged := header_bytes h ++ data |>) l)
          <| l_progress := true |>
          <| l_counts ::= λ k, k <| ct_repl_records ::= λ n, u64 (n + u64 (cu_next_seq cur - first)) |> |>).

Fixpoint stream_slots (todo : list nat) (limit : Z) (l : loop_t) : M K loop_t :=
  match todo with
  | [] => mret l
  | i :: todo => l ← stream_one limit l i; stream_slots todo limit l
  end.

Definition repl_stream (l : loop_t) : M K loop_t :=
  stream_slots slots (wal_durable_seq (l_wal l)) l.

(** ** The subscribers *)

(** The walk over the records one read brought: the connection, and how many
    were offered to it. *)
Fixpoint notify_loop (fuel : nat) (c : loop_conn_t) (buf : list byte) (got at_ n : Z)
    : loop_conn_t * Z :=
  match fuel with
  | O => (c, n)
  | S fuel =>
      if got <=? at_ then (c, n) else
      let here := drop (Z.to_nat at_) buf in
      match wal_rec_decode here (got - at_) with
      | None => (c, n)
      | Some rec =>
          let size := wal_rec_size (i32 (w_len rec)) in
          if (size =? 0) || (got <? at_ + size) then (c, n) else
          if su_all_keys (cn_sub c) || (w_partition_key rec =? su_key (cn_sub c)) then
            notify_loop fuel (reply_record c rec (drop (Z.to_nat WAL_REC_HEADER_SIZE) here)).2
              buf got (at_ + size) (inc n)
          else notify_loop fuel c buf got (at_ + size) n
      end
  end.

(** One slot of [subs_push]; the second result is [durable], which the code
    lowers for a read and goes on with. *)
Definition push_one (durable : Z) (scratch_len : Z) (l : loop_t) (i : nat) : M K (loop_t * Z) :=
  let c := slot l i in
  let sub := cn_sub c in
  if negb (cn_in_use c) || cn_closing c then mret (l, durable) else
  if su_waiting sub then
    if su_min_seq sub <=? durable then
      let l := on_sub i (λ s, s <| su_waiting := false |> <| su_active := true |>
        <| su_until := if su_once s then durable else su_until s |>) l in
      mret ((reply_to i MSG_OP_ACK 0 (cu_next_seq (su_cursor sub)) [] l) <| l_progress := true |>,
            durable)
    else if su_deadline sub <=? l_tick l then
      let l := reply_err i MSG_ERR_BEHIND (su_min_seq sub)
        (on_sub i (λ s, s <| su_waiting := false |>) l) in
      '(_, cur) ← wal_cursor_close (su_cursor sub);
      mret (on_sub i (λ s, s <| su_cursor := cur |>) l, durable)
    else mret (l, durable)
  else
  if negb (su_active sub) || cn_want_out c then mret (l, durable) else
  if room c <? MSG_HEADER_SIZE then mret (l, durable) else
  let n := if scratch_len <? room c then scratch_len else room c in
  if su_once sub && (su_until sub <? cu_next_seq (su_cursor sub)) then
    let l := on_sub i (λ s, s <| su_active := false |>)
      (reply_to i MSG_OP_NOTIFY MSG_FLAG_LAST (su_until sub) [] l) in
    '(_, cur) ← wal_cursor_close (su_cursor sub);
    mret (on_sub i (λ s, s <| su_cursor := cur |>) l, durable)
  else
  let durable := if su_once sub && (su_until sub <? durable) then su_until sub else durable in
  '(r, cur, data) ← wal_cursor_read (l_wal l) (su_cursor sub) durable n;
  let l := on_sub i (λ s, s <| su_cursor := cur |>) l in
  if negb (result_ok r) then
    mret (close_slot i (reply_err i MSG_ERR_NO_HISTORY (cu_next_seq cur) l), durable)
  else
  let l := if 0 <? zlen data then l <| l_progress := true |> else l in
  let '(c, sent) := notify_loop (S (length data)) (slot l i) data (zlen data) 0 0 in
  mret ((on_slot i (λ _, c) l) <| l_counts ::= λ k, k <| ct_notified ::= λ m, u64 (m + sent) |> |>,
        durable).

Fixpoint push_slots (todo : list nat) (durable scratch_len : Z) (l : loop_t) : M K loop_t :=
  match todo with
  | [] => mret l
  | i :: todo =>
      '(l, durable) ← push_one durable scratch_len l i; push_slots todo durable scratch_len l
  end.

Definition subs_push (l : loop_t) (scratch_len : Z) : M K loop_t :=
  push_slots slots (wal_durable_seq (l_wal l)) scratch_len l.

(** ** Retention *)

Definition retain_pass (l : loop_t) : M K loop_t :=
  let rt := l_retain l in
  if rt_segments rt <=? 0 then mret l else
  let segments := wal_segments (l_wal l) in
  if rt_failed rt && (segments =? rt_seen_segs rt) then mret l else
  let l := l <| l_retain ::= λ r, r <| rt_failed := false |> <| rt_seen_segs := segments |> |> in
  let keep_from := wal_retain_mark (l_wal l) (rt_segments rt) in
  if keep_from =? 0 then mret l else
  let floor := u64 (rt_floor rt + 1) in
  let keep_from := if (0 <? rt_want rt) && (floor <? keep_from) then floor else keep_from in
  if keep_from <=? wal_first_seq (l_wal l) then mret l else
  '(r, w, removed) ← wal_retain (l_wal l) keep_from;
  let l := l <| l_wal := w |> in
  l ← (if negb (result_ok r) then
         _ ← say ["msgsrvd: retention could not remove a segment"];
         mret (l <| l_counts ::= λ k, k <| ct_retain_errors ::= inc |> |>
                 <| l_retain ::= λ r, r <| rt_failed := true |> |>)
       else mret l);
  mret (l <| l_counts ::= λ k, k <| ct_retain_removed ::= λ n, u64 (n + u64 removed) |> |>).

End serve.
