(* ===== verification/Metrics.v ===== *)
(** * The metrics endpoint (src/server/loop.c: the document and the scrapes)

    The document is built by appending to a bounded buffer; an appender that
    does not fit leaves the buffer as it is.  A scrape is read to its blank
    line, answered once, and closed. *)

From Stdlib Require Import String.
From S2P Require Import Prelude Core Fmt Msg Conn Record Index Os Session Segment Wal Cursor.
From S2P Require Import LoopState.

Open Scope Z_scope.

(** The buffer and the text length, [buf] and [at] of the code. *)
Abbreviation doc := (list byte * Z)%type.

Section doc.
Variable cap : Z.

Definition put (s : list byte) (d : doc) : doc := fmt_str d.1 cap d.2 s.
Definition put_u64 (v : Z) (d : doc) : doc := fmt_u64 d.1 cap d.2 v.
Definition put_seconds (ns : Z) (d : doc) : doc := fmt_ns_seconds d.1 cap d.2 ns.

(** Run appenders in order. *)
Definition all (fs : list (doc → doc)) (d : doc) : doc := foldl (λ d f, f d) d fs.

Definition nl : list byte := [Byte.x0a].
Definition quote : list byte := [Byte.x22].

Definition m_type (name type : string) : doc → doc :=
  all [put (txt "# TYPE "); put (txt name); put (txt " "); put (txt type); put nl].

Definition m_one (name type : string) (v : Z) : doc → doc :=
  all [put (txt "# TYPE "); put (txt name); put (txt " "); put (txt type); put nl;
       put (txt name); put (txt " "); put_u64 v; put nl].

Definition m_label (name label value : string) (v : Z) : doc → doc :=
  all [put (txt name); put (txt "{"); put (txt label); put (txt "=" ++ quote); put (txt value);
       put (quote ++ txt "} "); put_u64 v; put nl].

Definition slot_text : list string := ["0"; "1"].
Definition refused_text : list string :=
  ["not_leader"; "no_replicas"; "behind"; "no_history"; "storage"; "other"].
Definition fsync_bound_text : list string :=
  ["0.0005"; "0.001"; "0.002"; "0.005"; "0.01"; "0.02"; "0.05"].

Definition flag (b : bool) : Z := if b then 1 else 0.

(** How long since the replica last reported. *)
Definition ack_age (now : Z) (p : loop_peer_t) : Z :=
  if (0 <? pe_ack_ns p) && (pe_ack_ns p <? now) then now - pe_ack_ns p else 0.

(** The buckets so far, counted up to and including each. *)
Fixpoint cumulative (acc : Z) (bs : list Z) : list Z :=
  match bs with
  | [] => []
  | b :: bs => u64 (acc + b) :: cumulative (u64 (acc + b)) bs
  end.

Definition m_replication (l : loop_t) (now : Z) : doc → doc :=
  let k := l_counts l in
  if l_is_follower l then
    all [m_one "msgsrvd_leader_connected" "gauge"
           (flag ((0 <=? rs_fd (l_stream l)) && negb (rs_connecting (l_stream l))));
         m_one "msgsrvd_repl_applied_total" "counter" (ct_repl_records k)]
  else
    all ([m_type "msgsrvd_follower_live" "gauge"]
      ++ zip_with (λ s p, m_label "msgsrvd_follower_live" "slot" s (flag (pe_live p)))
           slot_text (l_peers l)
      ++ [m_type "msgsrvd_follower_durable_seq" "gauge"]
      ++ zip_with (λ s p, m_label "msgsrvd_follower_durable_seq" "slot" s (pe_durable p))
           slot_text (l_peers l)
      ++ [m_type "msgsrvd_follower_ack_age_seconds" "gauge"]
      ++ zip_with (λ s p, all [put (txt "msgsrvd_follower_ack_age_seconds{slot=" ++ quote);
             put (txt s); put (quote ++ txt "} "); put_seconds (ack_age now p); put nl])
           slot_text (l_peers l)
      ++ [m_one "msgsrvd_repl_records_total" "counter" (ct_repl_records k)]).

Definition m_fsync (k : loop_counts_t) : doc → doc :=
  let cum := cumulative 0 (ct_fsync_bucket k) in
  let total := default 0 (last cum) in
  all ([m_type "msgsrvd_fsync_seconds" "histogram"]
    ++ zip_with (λ s c, m_label "msgsrvd_fsync_seconds_bucket" "le" s c)
         (fsync_bound_text ++ ["+Inf"]) cum
    ++ [put (txt "msgsrvd_fsync_seconds_sum "); put_seconds (ct_fsync_ns_total k); put nl;
        put (txt "msgsrvd_fsync_seconds_count "); put_u64 total; put nl]).

Definition m_document (l : loop_t) (now : Z) : doc → doc :=
  let w := l_wal l in
  let k := l_counts l in
  all
    [m_type "msgsrvd_role" "gauge";
     m_label "msgsrvd_role" "role" "leader" (flag (negb (l_is_follower l)));
     m_label "msgsrvd_role" "role" "follower" (flag (l_is_follower l));
     m_one "msgsrvd_first_seq" "gauge" (wal_first_seq w);
     m_one "msgsrvd_durable_seq" "gauge" (wal_durable_seq w);
     m_one "msgsrvd_next_seq" "gauge" (wal_next_seq w);
     m_one "msgsrvd_segments" "gauge" (u64 (wal_segments w));
     m_one "msgsrvd_segment_bytes" "gauge" (u64 (wal_seg_capacity w));
     m_one "msgsrvd_wal_bytes" "gauge" (u64 (u64 (wal_segments w) * u64 (wal_seg_capacity w)));
     m_one "msgsrvd_retain_segments" "gauge" (u64 (rt_segments (l_retain l)));
     m_one "msgsrvd_replicas_expected" "gauge" (u64 (rt_want (l_retain l)));
     m_one "msgsrvd_retain_floor" "gauge" (rt_floor (l_retain l));
     m_one "msgsrvd_retain_removed_total" "counter" (ct_retain_removed k);
     m_one "msgsrvd_retain_errors_total" "counter" (ct_retain_errors k);
     m_one "msgsrvd_connections" "gauge" (u64 (loop_live_conns l));
     m_one "msgsrvd_sessions" "gauge" (u64 (st_count (l_sessions l)));
     m_one "msgsrvd_sessions_evicted_total" "counter" (st_evicted (l_sessions l));
     m_one "msgsrvd_accepted_total" "counter" (ct_accepted k);
     m_one "msgsrvd_closed_total" "counter" (ct_closed k);
     m_replication l now;
     m_one "msgsrvd_writes_total" "counter" (ct_writes k);
     m_one "msgsrvd_dedup_hits_total" "counter" (ct_dedup_hits k);
     m_type "msgsrvd_acks_total" "counter";
     m_label "msgsrvd_acks_total" "durability" "append" (ct_acks_append k);
     m_label "msgsrvd_acks_total" "durability" "sync" (ct_acks_sync k);
     m_label "msgsrvd_acks_total" "durability" "replicated" (ct_acks_repl k);
     m_one "msgsrvd_acks_degraded_total" "counter" (ct_repl_degraded k);
     m_type "msgsrvd_refused_total" "counter";
     all (zip_with (λ s v, m_label "msgsrvd_refused_total" "reason" s v) refused_text (ct_refused k));
     m_one "msgsrvd_notified_total" "counter" (ct_notified k);
     m_fsync k;
     m_one "msgsrvd_flushes_total" "counter" (ct_flushes k);
     m_one "msgsrvd_scrapes_total" "counter" (ct_scrapes_served k);
     m_one "msgsrvd_scrapes_refused_total" "counter" (ct_scrapes_refused k)].
End doc.

Section scrapes.
Context {K : Type} `{Sys K}.

(** The buffer and its length, 0 when the document did not fit. *)
Definition loop_metrics (l : loop_t) (buf : list byte) (cap : Z) : M K (list byte * Z) :=
  now ← os_now_ns;
  if cap <=? 0 then mret (buf, 0) else
  let '(buf, at_) := m_document cap l now (buf, 0) in
  mret (buf, if (at_ <=? 0) || (cap <=? at_) then 0
             else if negb (bool_decide (zget buf (at_ - 1) = Some Byte.x0a)) then 0 else at_).

Definition crlf : list byte := [Byte.x0d; Byte.x0a].

Definition metrics_head : list byte :=
  txt "HTTP/1.0 200 OK" ++ crlf
  ++ txt "Content-Type: text/plain; version=0.0.4; charset=utf-8" ++ crlf
  ++ txt "Connection: close" ++ crlf ++ crlf.

Definition metrics_oops : list byte :=
  txt "HTTP/1.0 503 Service Unavailable" ++ crlf
  ++ txt "Content-Type: text/plain" ++ crlf ++ txt "Connection: close" ++ crlf ++ crlf.

Definition scrape_release (l : loop_t) (i : nat) : M K loop_t :=
  let sc := scrape l i in
  if sc_fd sc <? 0 then mret l else
  _ ← os_epoll_ctl (l_epoll_fd l) EPOLL_CTL_DEL (sc_fd sc) 0 0;
  _ ← os_close (sc_fd sc);
  mret (on_scrape i (λ _, scrape_free) l).

Definition scrape_answering (l : loop_t) (i : nat) : M K loop_t :=
  let sc := scrape l i in
  if (sc_fd sc <? 0) || sc_answering sc then mret l else
  r ← os_epoll_ctl (l_epoll_fd l) EPOLL_CTL_MOD (sc_fd sc) EPOLLOUT (UD_MAKE OP_SCRAPE (Z.of_nat i));
  mret (if result_ok r then on_scrape i (λ s, s <| sc_answering := true |>) l else l).

Definition MSG_DONTWAIT : Z := 0x40.
Definition MSG_NOSIGNAL : Z := 0x4000.

Definition refuse_scrape (l : loop_t) (i : nat) : M K loop_t :=
  scrape_release (l <| l_counts ::= λ k, k <| ct_scrapes_refused ::= inc |> |>) i.

Definition scrape_send (l : loop_t) (i : nat) : M K loop_t :=
  let sc := scrape l i in
  if (sc_fd sc <? 0) || (zlen (sc_out sc) <=? sc_sent sc) then mret l else
  res ← os_send (sc_fd sc) (drop (Z.to_nat (sc_sent sc)) (sc_out sc))
    (Z.lor MSG_NOSIGNAL MSG_DONTWAIT);
  if res =? - EAGAIN then scrape_answering l i else
  if res <=? 0 then scrape_release l i else
  let l := on_scrape i (λ s, s <| sc_sent ::= λ n, n + res |>) l in
  if zlen (sc_out sc) <=? sc_sent sc + res then
    scrape_release (l <| l_counts ::= λ k, k <| ct_scrapes_served ::= inc |> |>) i
  else scrape_answering l i.

(** [out] is the slot's buffer.  What an earlier answer left in it does not
    matter, since only bytes written here are sent. *)
Definition scrape_answer (l : loop_t) (i : nat) (out : list byte) : M K loop_t :=
  let head := zlen metrics_head in
  '(buf, body) ← loop_metrics l (drop (Z.to_nat head) out) (LOOP_METRICS_CAP - head);
  let l :=
    if body <=? 0 then
      (on_scrape i (λ s, s <| sc_out := metrics_oops |>) l)
        <| l_counts ::= λ k, k <| ct_scrapes_refused ::= inc |> |>
    else on_scrape i (λ s, s <| sc_out := metrics_head ++ sub 0 body buf |>) l in
  scrape_send (on_scrape i (λ s, s <| sc_sent := 0 |>) l) i.

(** Whether the byte at [at_] ends a blank line; a carriage return counts from
    the fourth byte on. *)
Definition ends_head (bs : list byte) (at_ : nat) : bool :=
  bool_decide (bs !! at_ = Some Byte.x0a) &&
  (bool_decide (bs !! (at_ - 1)%nat = Some Byte.x0a)
   || (3 <=? Z.of_nat at_) && bool_decide (bs !! (at_ - 1)%nat = Some Byte.x0d)
      && bool_decide (bs !! (at_ - 2)%nat = Some Byte.x0a)).

Definition head_ends (bs : list byte) : bool := existsb (ends_head bs) (seq 1 (length bs - 1)).

Definition scrape_recv (l : loop_t) (i : nat) : M K loop_t :=
  let sc := scrape l i in
  if sc_fd sc <? 0 then mret l else
  if 0 <? zlen (sc_out sc) then mret l else
  if LOOP_SCRAPE_CAP <=? zlen (sc_in sc) then refuse_scrape l i else
  '(res, bs) ← os_recv (sc_fd sc) (LOOP_SCRAPE_CAP - zlen (sc_in sc)) MSG_DONTWAIT;
  if res =? - EAGAIN then mret l else
  if res <=? 0 then scrape_release l i else
  let seen := sc_in sc ++ sub 0 res bs in
  let l := on_scrape i (λ s, s <| sc_in := seen |>) l in
  if head_ends seen then scrape_answer l i (zeros LOOP_METRICS_CAP)
  else if LOOP_SCRAPE_CAP <=? zlen seen then refuse_scrape l i else mret l.

(** The slot to give up when all are busy: the first that arrived earliest. *)
Definition scrape_oldest (l : loop_t) : nat :=
  from_option fst 0%nat
    (foldl (λ best '(i, s),
        match best with
        | Some (_, ns) => if sc_opened_ns s <? ns then Some (i, sc_opened_ns s) else best
        | None => Some (i, sc_opened_ns s)
        end) None (imap pair (l_scrapes l))).

Definition SOCK_STREAM : Z := 1.
Definition SOCK_NONBLOCK : Z := 0x800.
Definition SOCK_CLOEXEC : Z := 0x80000.

Definition scrape_accept (l : loop_t) : M K loop_t :=
  if l_stop l || (l_metrics_fd l <? 0) then mret l else
  '(r, fd) ← os_accept4 (l_metrics_fd l) (Z.lor SOCK_NONBLOCK SOCK_CLOEXEC) (-1);
  if negb (result_ok r) then mret l else
  '(i, l) ← (match list_find (λ s, sc_fd s < 0) (l_scrapes l) with
             | Some (i, _) => mret (i, l)
             | None => let i := scrape_oldest l in l ← refuse_scrape l i; mret (i, l)
             end);
  r ← os_epoll_ctl (l_epoll_fd l) EPOLL_CTL_ADD fd EPOLLIN (UD_MAKE OP_SCRAPE (Z.of_nat i));
  if negb (result_ok r) then _ ← os_close fd; mret l else
  now ← os_now_ns;
  mret (on_scrape i (λ _, scrape_free <| sc_fd := fd |> <| sc_opened_ns := now |>) l).

End scrapes.
