(* ===== verification/LoopTick.v ===== *)
(** * One pass of the event loop (src/server/loop.c)

    Readiness reports turned into calls, the handlers of their results, the
    arm phase, and [loop_tick] itself: dispatch, one flush, then everything
    that may only happen after it.  Starting and stopping the loop are here
    too. *)

From S2P Require Import Prelude Core Crc32c Fmt Msg Conn Record Index Os Session Segment Wal Cursor.
From S2P Require Import LoopState LoopFrames LoopServe Metrics.

Section tick.
Context {K : Type} `{Sys K}.

(** ** Accepting *)

Definition on_accept (l : loop_t) (res : Z) : M K loop_t :=
  if res <? 0 then mret l else
  match slot_alloc l with
  | None => _ ← os_close res; mret l
  | Some i =>
      r ← os_epoll_ctl (l_epoll_fd l) EPOLL_CTL_ADD res EPOLLIN (UD_MAKE OP_CONN (Z.of_nat i));
      if negb (result_ok r) then _ ← os_close res; mret l else
      mret ((on_slot i (λ c, c <| cn_in_use := true |> <| cn_fd := res |>
              <| cn_conn := conn_init (c_buf (cn_conn c)) LOOP_RECV_CAP CONN_MODE_CLIENT |>)
              (slot_reset l i)) <| l_counts ::= λ k, k <| ct_accepted ::= inc |> |>)
  end.

Definition do_accept (l : loop_t) : M K loop_t :=
  if l_stop l then mret l else
  '(r, fd) ← os_accept4 (l_listen_fd l) (Z.lor SOCK_NONBLOCK SOCK_CLOEXEC) (-1);
  if negb (result_ok r) then mret l else on_accept l fd.

(** ** Receiving *)

(** The payload an action points at. *)
Definition payload_at (buf : list byte) (p : option Z) (n : Z) : option (list byte) :=
  (λ off, sub off n buf) <$> p.

Definition do_action (l : loop_t) (i : nat) (scratch : list byte) (a : conn_action_t) : M K loop_t :=
  match a with
  | CONN_ACTION_FRAME h p n =>
      handle_frame l i h (payload_at (c_buf (cn_conn (slot l i))) p n) n scratch
  | CONN_ACTION_REPLY_ERR code sequence => mret (reply_err i code sequence l)
  | CONN_ACTION_CLOSE => mret (close_slot i l)
  end.

Fixpoint do_actions (l : loop_t) (i : nat) (scratch : list byte) (acts : list conn_action_t)
    : M K loop_t :=
  match acts with
  | [] => mret l
  | a :: acts => l ← do_action l i scratch a; do_actions l i scratch acts
  end.

(** Batches of actions until there is none.  A batch that is not empty takes
    at least one byte or closes the connection, so as many batches as the
    buffer has bytes are enough. *)
Fixpoint recv_loop (fuel : nat) (l : loop_t) (i : nat) (scratch : list byte) : M K loop_t :=
  match fuel with
  | O => mret l
  | S fuel =>
      let '(acts, conn) := conn_feed (cn_conn (slot l i)) 8 in
      let l := on_slot i (λ c, c <| cn_conn := conn |>) l in
      match acts with
      | [] => mret l
      | _ =>
          l ← do_actions l i scratch acts;
          if cn_closing (slot l i) then mret l else recv_loop fuel l i scratch
      end
  end.

Definition on_recv (l : loop_t) (i : nat) (res : Z) (scratch : list byte) : M K loop_t :=
  if negb (cn_in_use (slot l i)) then mret l else
  if res <=? 0 then mret (close_slot i l) else
  let l := on_slot i (λ c, c <| cn_conn ::= λ k, (conn_recv_commit k res).2 |>) l in
  recv_loop (2 + Z.to_nat LOOP_RECV_CAP) l i scratch.

(** What [os_recv] put into a connection's buffer. *)
Definition conn_receive (res : Z) (bs : list byte) (c : conn_t) : conn_t :=
  c <| c_buf ::= λ b, blit b (conn_recv_ptr c) (sub 0 res bs) |>.

Definition do_recv (l : loop_t) (i : nat) (scratch : list byte) : M K loop_t :=
  let c := slot l i in
  if negb (cn_in_use c) || (cn_fd c <? 0) then mret l else
  let space := conn_recv_space (cn_conn c) in
  if space <=? 0 then mret l else
  '(res, bs) ← os_recv (cn_fd c) space MSG_DONTWAIT;
  if res =? - EAGAIN then mret l else
  on_recv (on_slot i (λ c, c <| cn_conn ::= conn_receive res bs |>) l) i res scratch.

(** ** Sending *)

Definition loop_send_done (l : loop_t) (i : nat) (res : Z) : loop_t :=
  let c := slot l i in
  if negb (cn_in_use c) then l else
  if res <=? 0 then on_slot i (λ c, c <| cn_closing := true |> <| cn_staged := [] |>) l else
  on_slot i (λ c, c <| cn_staged ::= λ s, if res <? zlen s then drop (Z.to_nat res) s else [] |>) l.

Definition conn_want_out (l : loop_t) (i : nat) (want : bool) : M K loop_t :=
  let c := slot l i in
  if (cn_fd c <? 0) || Bool.eqb (cn_want_out c) want then mret l else
  r ← os_epoll_ctl (l_epoll_fd l) EPOLL_CTL_MOD (cn_fd c)
        (if want then Z.lor EPOLLIN EPOLLOUT else EPOLLIN) (UD_MAKE OP_CONN (Z.of_nat i));
  mret (if negb (result_ok r) then close_slot i l
        else on_slot i (λ c, c <| cn_want_out := want |>) l).

Definition conn_send (l : loop_t) (i : nat) : M K loop_t :=
  let c := slot l i in
  res ← os_send (cn_fd c) (cn_staged c) (Z.lor MSG_NOSIGNAL MSG_DONTWAIT);
  if res =? - EAGAIN then conn_want_out l i true else
  let l := loop_send_done l i res in
  conn_want_out l i (0 <? zlen (cn_staged (slot l i))).

Definition do_send (l : loop_t) (i : nat) : M K loop_t :=
  let c := slot l i in
  if negb (cn_in_use c) || (cn_fd c <? 0) then mret l else
  if zlen (cn_staged c) <=? 0 then conn_want_out l i false else conn_send l i.

(** ** The follower's stream *)

Definition on_stream (f : loop_stream_t → loop_stream_t) (l : loop_t) : loop_t :=
  l <| l_stream ::= f |>.

Definition redial (l : loop_t) : loop_t :=
  on_stream (λ s, s <| rs_next_dial := u32 (l_tick l + LOOP_REDIAL_TICKS) |>) l.

Definition on_repl_dial (l : loop_t) (res : Z) : M K loop_t :=
  let l := on_stream (λ s, s <| rs_connecting := false |>) l in
  let fd := rs_fd (l_stream l) in
  if res <? 0 then
    _ ← (if 0 <=? fd
         then _ ← os_epoll_ctl (l_epoll_fd l) EPOLL_CTL_DEL fd 0 0; os_close fd
         else mret RESULT_OK);
    mret (redial (on_stream (λ s, s <| rs_fd := -1 |>) l))
  else
    let l := on_stream (λ s, s <| rs_want_out := false |>) l in
    r ← os_epoll_ctl (l_epoll_fd l) EPOLL_CTL_MOD fd EPOLLIN (UD_MAKE OP_STREAM 0);
    if negb (result_ok r) then mret (close_stream l) else
    mret (on_stream (λ s,
      stream_frame MSG_OP_REPL_START (wal_next_seq (l_wal l))
        (s <| rs_conn := conn_init (c_buf (rs_conn s)) LOOP_REPL_CAP CONN_MODE_INTERNAL |>
           <| rs_staged := [] |> <| rs_closing := false |>
           <| rs_acked := wal_durable_seq (l_wal l) |>)) l).

Definition stream_action (l : loop_t) (scratch : list byte) (a : conn_action_t) : M K loop_t :=
  match a with
  | CONN_ACTION_FRAME h p n =>
      on_stream_frame l h (payload_at (c_buf (rs_conn (l_stream l))) p n) n scratch
  | _ => mret (close_stream l)
  end.

Fixpoint stream_actions (l : loop_t) (scratch : list byte) (acts : list conn_action_t)
    : M K loop_t :=
  match acts with
  | [] => mret l
  | a :: acts => l ← stream_action l scratch a; stream_actions l scratch acts
  end.

Fixpoint stream_recv_loop (fuel : nat) (l : loop_t) (scratch : list byte) : M K loop_t :=
  match fuel with
  | O => mret l
  | S fuel =>
      let '(acts, conn) := conn_feed (rs_conn (l_stream l)) 4 in
      let l := on_stream (λ s, s <| rs_conn := conn |>) l in
      match acts with
      | [] => mret l
      | _ =>
          l ← stream_actions l scratch acts;
          if rs_closing (l_stream l) then mret l else stream_recv_loop fuel l scratch
      end
  end.

Definition on_repl_recv (l : loop_t) (res : Z) (scratch : list byte) : M K loop_t :=
  if rs_fd (l_stream l) <? 0 then mret l else
  if res <=? 0 then mret (close_stream l) else
  let l := on_stream (λ s, s <| rs_conn ::= λ k, (conn_recv_commit k res).2 |>) l in
  stream_recv_loop (2 + Z.to_nat LOOP_REPL_CAP) l scratch.

Definition on_repl_send (l : loop_t) (res : Z) : loop_t :=
  if rs_fd (l_stream l) <? 0 then l else
  if res <? 0 then close_stream l else
  on_stream (λ s, s <| rs_staged ::= λ b, if res <? zlen b then drop (Z.to_nat res) b else [] |>) l.

Definition stream_want_out (l : loop_t) (want : bool) : M K loop_t :=
  let s := l_stream l in
  if (rs_fd s <? 0) || Bool.eqb (rs_want_out s) want then mret l else
  r ← os_epoll_ctl (l_epoll_fd l) EPOLL_CTL_MOD (rs_fd s)
        (if want then Z.lor EPOLLIN EPOLLOUT else EPOLLIN) (UD_MAKE OP_STREAM 0);
  mret (if negb (result_ok r) then close_stream l
        else on_stream (λ s, s <| rs_want_out := want |>) l).

Definition SOL_SOCKET : Z := 1.
Definition SO_REUSEADDR : Z := 2.
Definition SO_ERROR : Z := 4.

Definition do_repl_dial (l : loop_t) : M K loop_t :=
  '(r, so_err) ← os_getsockopt_int (rs_fd (l_stream l)) SOL_SOCKET SO_ERROR;
  on_repl_dial l (if negb (result_ok r) then - EIO else - so_err).

Definition do_repl_recv (l : loop_t) (scratch : list byte) : M K loop_t :=
  let s := l_stream l in
  if (rs_fd s <? 0) || rs_closing s then mret l else
  let space := conn_recv_space (rs_conn s) in
  if space <=? 0 then mret l else
  '(res, bs) ← os_recv (rs_fd s) space MSG_DONTWAIT;
  if res =? - EAGAIN then mret l else
  on_repl_recv (on_stream (λ s, s <| rs_conn ::= conn_receive res bs |>) l) res scratch.

Definition stream_send (l : loop_t) : M K loop_t :=
  let s := l_stream l in
  res ← os_send (rs_fd s) (rs_staged s) (Z.lor MSG_NOSIGNAL MSG_DONTWAIT);
  if res =? - EAGAIN then stream_want_out l true else
  let l := on_repl_send l res in
  stream_want_out l (0 <? zlen (rs_staged (l_stream l))).

Definition do_repl_send (l : loop_t) : M K loop_t :=
  let s := l_stream l in
  if (rs_fd s <? 0) || rs_closing s then mret l else
  if zlen (rs_staged s) <=? 0 then stream_want_out l false else stream_send l.

Definition stream_release (l : loop_t) : M K loop_t :=
  let s := l_stream l in
  if (rs_fd s <? 0) || rs_connecting s then mret l else
  _ ← os_epoll_ctl (l_epoll_fd l) EPOLL_CTL_DEL (rs_fd s) 0 0;
  _ ← os_close (rs_fd s);
  mret (redial (on_stream (λ s, s <| rs_fd := -1 |> <| rs_closing := false |>
          <| rs_want_out := false |> <| rs_staged := [] |>) l)).

Definition AF_INET : Z := 2.

Definition repl_dial (l : loop_t) : M K loop_t :=
  let s := l_stream l in
  if negb (l_is_follower l) || l_stop l then mret l else
  if (0 <=? rs_fd s) || rs_connecting s then mret l else
  if l_tick l <? rs_next_dial s then mret l else
  '(r, fd) ← os_socket AF_INET (Z.lor (Z.lor SOCK_STREAM SOCK_NONBLOCK) SOCK_CLOEXEC) 0 (-1);
  if negb (result_ok r) then mret (redial l) else
  r ← os_epoll_ctl (l_epoll_fd l) EPOLL_CTL_ADD fd EPOLLOUT (UD_MAKE OP_STREAM 0);
  if negb (result_ok r) then _ ← os_close fd; mret (redial l) else
  let l := on_stream (λ s, s <| rs_fd := fd |> <| rs_connecting := true |>) l in
  r ← os_connect fd (l_leader_addr l).1 (l_leader_addr l).2;
  if result_ok r then on_repl_dial l 0
  else if negb (r_detail r =? EINPROGRESS) then on_repl_dial l (- r_detail r)
  else mret l.

Definition arm_stream (l : loop_t) : M K loop_t :=
  let s := l_stream l in
  if (rs_fd s <? 0) || rs_connecting s || l_stop l then mret l else
  if rs_closing s then stream_release l else
  l ← (if (0 <? zlen (rs_staged s)) && negb (rs_want_out s) then stream_send l else mret l);
  if rs_closing (l_stream l) then mret l else
  let l := on_stream (λ s, s <| rs_conn ::= conn_compact |>) l in
  mret (if conn_recv_space (rs_conn (l_stream l)) <=? 0 then close_stream l else l).

(** ** The other descriptors *)

Definition SIGNALFD_SIGINFO_SIZE : Z := 128.
Definition TIMERFD_READ_SIZE : Z := 8.

Definition do_signal (l : loop_t) : M K loop_t :=
  if l_signal_fd l <? 0 then mret l else
  '(n, _) ← os_read_raw (l_signal_fd l) SIGNALFD_SIGINFO_SIZE;
  mret (if 0 <? n then l <| l_stop := true |> else l).

Definition do_timer (l : loop_t) : M K loop_t :=
  if l_timer_fd l <? 0 then mret l else
  '(n, bs) ← os_read_raw (l_timer_fd l) TIMERFD_READ_SIZE;
  mret (if n =? TIMERFD_READ_SIZE
        then l <| l_tick ::= λ t, u32 (t + u32 (le_combine (sub 0 8 bs))) |> else l).

Definition EV_READABLE : Z := Z.lor (Z.lor EPOLLIN EPOLLERR) EPOLLHUP.

Definition tick_event (l : loop_t) (scratch : list byte) (user_data events : Z) : M K loop_t :=
  let i := Z.to_nat (UD_SLOT user_data) in
  let op := UD_OP user_data in
  let readable := has_flag events EV_READABLE in
  let writable := has_flag events EPOLLOUT in
  if op =? OP_LISTEN then do_accept l
  else if op =? OP_CONN then
    l ← (if readable then do_recv l i scratch else mret l);
    if writable then do_send l i else mret l
  else if op =? OP_SIGNAL then do_signal l
  else if op =? OP_TIMER then do_timer l
  else if op =? OP_STREAM then
    if rs_connecting (l_stream l) then do_repl_dial l else
    l ← (if readable then do_repl_recv l scratch else mret l);
    if writable then do_repl_send l else mret l
  else if op =? OP_METRICS then scrape_accept l
  else if op =? OP_SCRAPE then
    l ← (if readable then scrape_recv l i else mret l);
    if writable then scrape_send l i else mret l
  else mret l.

Fixpoint tick_events (l : loop_t) (scratch : list byte) (evs : list (Z * Z)) : M K loop_t :=
  match evs with
  | [] => mret l
  | (data, events) :: evs => l ← tick_event l scratch data events; tick_events l scratch evs
  end.

(** ** The arm phase *)

Definition arm_conn (l : loop_t) (i : nat) : M K loop_t :=
  let c := slot l i in
  if negb (cn_in_use c) then mret l else
  l ← (if (0 <? zlen (cn_staged c)) && negb (cn_want_out c) && (0 <=? cn_fd c)
       then conn_send l i else mret l);
  if cn_closing (slot l i) then slot_release l i else
  let l := on_slot i (λ c, c <| cn_conn ::= conn_compact |>) l in
  if conn_recv_space (cn_conn (slot l i)) <=? 0 then slot_release (close_slot i l) i else mret l.

Fixpoint arm_slots (todo : list nat) (l : loop_t) : M K loop_t :=
  match todo with
  | [] => mret l
  | i :: todo => l ← arm_conn l i; arm_slots todo l
  end.

Definition arm_conns (l : loop_t) : M K loop_t := arm_slots slots l.

(** ** The pass *)

Definition arm_all (l : loop_t) : M K loop_t :=
  l ← repl_dial l; l ← arm_conns l; arm_stream l.

(** The one flush for everything the pass appended. *)
Definition tick_flush (l : loop_t) : M K (result_t * loop_t) :=
  if negb (l_wal_dirty l) then mret (RESULT_OK, l) else
  began ← os_now_ns;
  '(r, w) ← wal_sync (l_wal l);
  let l := l <| l_wal := w |> in
  if negb (result_ok r) then mret (r, l) else
  l ← fsync_observe (l <| l_counts ::= λ k, k <| ct_flushes ::= inc |> |>) began;
  mret (RESULT_OK, l).

(** What the flush has made true, and only then. *)
Definition tick_serve (l : loop_t) (scratch_len : Z) : M K loop_t :=
  let l := acks_emit l in
  l ← (if l_is_follower l then mret (stream_report l) else repl_stream l);
  l ← subs_push l scratch_len;
  retain_pass l.

Definition MAX_EVENTS : Z := Z.of_nat (LOOP_MAX_CONNS + LOOP_MAX_SCRAPES + 5).

Definition loop_tick (l : loop_t) (wait : bool) (scratch : list byte) : M K (result_t * loop_t) :=
  l ← arm_all l;
  let timeout := if wait && negb (l_progress l) then -1 else 0 in
  let l := l <| l_progress := false |> in
  '(r, evs) ← os_epoll_wait (l_epoll_fd l) MAX_EVENTS timeout;
  if negb (result_ok r) then mret (r, l) else
  l ← tick_events (l <| l_wal_dirty := false |>) scratch evs;
  '(r, l) ← tick_flush l;
  if negb (result_ok r) then mret (r, l) else
  l ← tick_serve l (zlen scratch);
  l ← arm_all l;
  mret (RESULT_OK, l).

(** [None] is a loop still running after [passes]. *)
Fixpoint loop_run (passes : nat) (l : loop_t) (scratch : list byte)
    : M K (option (result_t * loop_t)) :=
  if l_stop l then mret (Some (RESULT_OK, l)) else
  match passes with
  | O => mret None
  | S passes =>
      '(r, l) ← loop_tick l true scratch;
      if negb (result_ok r) then mret (Some (r, l)) else loop_run passes l scratch
  end.

(** ** Starting and stopping *)

Definition bswap16 (v : Z) : Z := u16 (Z.lor (Z.shiftr v 8) (Z.shiftl v 8)).
Definition bswap32 (v : Z) : Z :=
  Z.lor (Z.lor (Z.land (Z.shiftr v 24) 0xFF) (Z.land (Z.shiftr v 8) 0xFF00))
    (Z.lor (Z.land (Z.shiftl v 8) 0xFF0000) (Z.land (Z.shiftl v 24) 0xFF000000)).

(** The loop before any call; the static receive buffers start as zeros. *)
Definition loop_zero (w : wal_t) (t : session_table_t) : loop_t :=
  Loop (-1) w (-1) (-1) 0 false
    (replicate LOOP_MAX_CONNS (slot_free (zeros LOOP_RECV_CAP))) t false false false (-1) 0 [] (0, 0)
    (Stream_ false false false (-1) [] 0 (conn_init (zeros LOOP_REPL_CAP) 0 CONN_MODE_CLIENT) 0 0)
    (replicate LOOP_MAX_REPLICAS peer_free) (Retain 0 0 0 0 false) (-1) 0
    (replicate LOOP_MAX_SCRAPES scrape_free)
    (Counts 0 0 0 0 0 0 0 0 0 0 0 0 0 0 0 (replicate LOOP_REFUSED_KINDS 0) 0
       (replicate (S LOOP_FSYNC_BUCKETS) 0)).

(** Bind, listen and register the socket [fd]; the port bound, or [old] when
    that was not learnt. *)
Definition start_listening (epfd fd bind_ip port backlog data old : Z) : M K (result_t * Z) :=
  _ ← os_setsockopt fd SOL_SOCKET SO_REUSEADDR 1;
  r ← os_bind fd (bswap16 port) (bswap32 bind_ip);
  if negb (result_ok r) then mret (r, old) else
  r ← os_listen fd backlog;
  if negb (result_ok r) then mret (r, old) else
  '(r, bound) ← os_getsockname fd (bswap16 port);
  if negb (result_ok r) then mret (r, old) else
  r ← os_epoll_ctl epfd EPOLL_CTL_ADD fd EPOLLIN data;
  mret (r, bswap16 bound).

Definition loop_init (w : wal_t) (t : session_table_t) (bind_ip port : Z) : M K (result_t * loop_t) :=
  let l := loop_zero w t in
  '(r, epfd) ← os_epoll_create SOCK_CLOEXEC (-1);
  let l := l <| l_epoll_fd := epfd |> in
  if negb (result_ok r) then mret (r, l) else
  '(r, fd) ← os_socket AF_INET (Z.lor (Z.lor SOCK_STREAM SOCK_NONBLOCK) SOCK_CLOEXEC) 0 (-1);
  let l := l <| l_listen_fd := fd |> in
  if negb (result_ok r) then _ ← os_close epfd; mret (r, l <| l_epoll_fd := -1 |>) else
  '(r, bound) ← start_listening epfd fd bind_ip port 128 (UD_MAKE OP_LISTEN 0) 0;
  let l := l <| l_port := bound |> in
  if negb (result_ok r) then
    _ ← os_close fd; _ ← os_close epfd;
    mret (r, l <| l_listen_fd := -1 |> <| l_epoll_fd := -1 |>)
  else mret (RESULT_OK, l).

Definition loop_set_leader (l : loop_t) (addr : Z * Z) (text : list byte) : M K (result_t * loop_t) :=
  l ← arm_timer_now (l <| l_is_follower := true |> <| l_leader_addr := addr |>
        <| l_leader_text := text |> <| l_stream ::= λ s, s <| rs_next_dial := 0 |> |>);
  mret (if l_timer_fd l <? 0 then RESULT_ERR ERR_SYSCALL 0 else RESULT_OK, l).

Definition loop_set_signal_fd (l : loop_t) (fd : Z) : M K loop_t :=
  let l := l <| l_signal_fd := fd |> in
  _ ← (if 0 <=? fd then os_epoll_ctl (l_epoll_fd l) EPOLL_CTL_ADD fd EPOLLIN (UD_MAKE OP_SIGNAL 0)
       else mret RESULT_OK);
  mret l.

Definition loop_set_retention (l : loop_t) (keep_segments replicas : Z) : loop_t :=
  let keep := if keep_segments <? 0 then 0 else keep_segments in
  let want := if replicas <? 0 then 0
              else if Z.of_nat LOOP_MAX_REPLICAS <? replicas then Z.of_nat LOOP_MAX_REPLICAS
              else replicas in
  l <| l_retain := Retain keep want 0 0 false |>.

Definition loop_set_metrics_port (l : loop_t) (bind_ip port : Z) : M K (result_t * loop_t) :=
  '(r, fd) ← os_socket AF_INET (Z.lor (Z.lor SOCK_STREAM SOCK_NONBLOCK) SOCK_CLOEXEC) 0
    (l_metrics_fd l);
  let l := l <| l_metrics_fd := fd |> in
  if negb (result_ok r) then mret (r, l) else
  '(r, bound) ← start_listening (l_epoll_fd l) fd bind_ip port 8 (UD_MAKE OP_METRICS 0)
    (l_metrics_port l);
  let l := l <| l_metrics_port := bound |> in
  if negb (result_ok r) then _ ← os_close fd; mret (r, l <| l_metrics_fd := -1 |>) else
  mret (RESULT_OK, l).

(** Close a descriptor the loop may not have. *)
Definition close_fd (fd : Z) : M K unit := if 0 <=? fd then _ ← os_close fd; mret tt else mret tt.

Fixpoint shut_slots (todo : list nat) (l : loop_t) : M K loop_t :=
  match todo with
  | [] => mret l
  | i :: todo =>
      let c := slot l i in
      l ← (if cn_in_use c && (0 <=? cn_fd c)
           then _ ← os_close (cn_fd c); mret (slot_reset l i) else mret l);
      shut_slots todo l
  end.

Fixpoint shut_scrapes (scs : list loop_scrape_t) : M K (list loop_scrape_t) :=
  match scs with
  | [] => mret []
  | s :: scs =>
      _ ← close_fd (sc_fd s);
      scs ← shut_scrapes scs;
      mret ((if 0 <=? sc_fd s then s <| sc_fd := -1 |> else s) :: scs)
  end.

Fixpoint shut_peers (ps : list loop_peer_t) : M K (list loop_peer_t) :=
  match ps with
  | [] => mret []
  | p :: ps =>
      '(_, cur) ← wal_cursor_close (pe_cursor p);
      ps ← shut_peers ps;
      mret (p <| pe_cursor := cur |> <| pe_live := false |> :: ps)
  end.

Definition shut (fd : Z) : Z := if 0 <=? fd then -1 else fd.

Definition loop_shutdown (l : loop_t) : M K loop_t :=
  let l := l <| l_stop := true |> in
  scs ← shut_scrapes (l_scrapes l);
  _ ← close_fd (l_metrics_fd l);
  l ← shut_slots slots (l <| l_scrapes := scs |> <| l_metrics_fd ::= shut |>);
  ps ← shut_peers (l_peers l);
  _ ← close_fd (rs_fd (l_stream l));
  _ ← close_fd (l_timer_fd l);
  _ ← close_fd (l_listen_fd l);
  _ ← close_fd (l_signal_fd l);
  _ ← close_fd (l_epoll_fd l);
  mret (l <| l_peers := ps |> <| l_stream ::= λ s, s <| rs_fd ::= shut |> |>
          <| l_timer_fd ::= shut |> <| l_listen_fd ::= shut |> <| l_signal_fd ::= shut |>
          <| l_epoll_fd ::= shut |>).

End tick.
