(* ===== verification/LoopSpec.v ===== *)
(** * What the loop promises about acknowledgements

    The invariant that carries an acknowledgement from the handler that owes
    it to the pass that sends it, and the proof that no step of a pass breaks
    it.  Of the kernel only one thing is used, that epoll reports no more events
    than it was asked for: the lemmas on single steps hold for every
    implementation of the calls. *)

From S2P Require Import Prelude Core Crc32c Fmt Msg Conn Record Index Os Session Segment Wal Cursor.
From S2P Require Import LoopState LoopFrames LoopServe Metrics LoopTick.

(** A call whose answer does not matter. *)
Lemma wp_any {K A} (m : M K A) k : wp m (λ _ _, True) k.
Proof. destruct (m k) as [x k'] eqn:E. by apply (wp_intro _ _ _ x k'). Qed.

(** ** The log's counters *)

(** How the log's counters stand to each other, whatever its files hold. *)
Record wal_sane (w : wal_t) : Prop := {
  ws_next : 0 < wal_next_seq w < 2 ^ 64;
  ws_durable : wal_durable_seq w <= wal_next_seq w - 1;
  ws_synced : g_synced_off (wl_active w) <= g_write_off (wl_active w);
  ws_clean : g_synced_off (wl_active w) = g_write_off (wl_active w) →
             wal_durable_seq w = wal_next_seq w - 1 }.

Section wal.
Context {K : Type} `{Sys K}.

Lemma sane_seg w s :
  wal_sane w → g_next_seq s = wal_next_seq w → g_durable_seq s = wal_durable_seq w →
  g_synced_off s = g_synced_off (wl_active w) → g_write_off s = g_write_off (wl_active w) →
  wal_sane (w <| wl_active := s |>).
Proof.
  intros [? ? ? ?] En Ed Es Ew. unfold wal_next_seq, wal_durable_seq in *.
  constructor; unfold wal_next_seq, wal_durable_seq; cbn; rewrite ?En, ?Ed, ?Es, ?Ew; done.
Qed.

(** After a flush the last record assigned is durable. *)
Lemma wp_sync_sane w k :
  wal_sane w → wp (wal_sync w) (λ x _, wal_sane x.2 ∧ wal_next_seq x.2 = wal_next_seq w ∧
    wal_durable_seq w <= wal_durable_seq x.2 ∧
    (result_ok x.1 = true → wal_durable_seq x.2 = wal_next_seq w - 1) ∧
    (result_ok x.1 = false → x.2 = w)) k.
Proof.
  intros S. destruct (S) as [Hn Hd Hs Hc]. unfold wal_sync, wal_seg_sync.
  destruct (Z.eqb_spec (g_synced_off (wl_active w)) (g_write_off (wl_active w))) as [E|E].
  { apply wp_bind, wp_ret, wp_ret. cbn. split_and!; [by apply sane_seg|done|done|auto|done]. }
  apply wp_bind. eapply wp_call; [apply wp_any|intros r k' _].
  destruct (result_ok r) eqn:Hr; cbn [negb]; apply wp_ret, wp_ret; cbn.
  - unfold wal_next_seq, wal_durable_seq in *. rewrite u64_id by lia. cbn.
    split; [constructor|split_and!]; unfold wal_next_seq, wal_durable_seq; cbn; try done; lia.
  - split_and!; [by apply sane_seg|done|done|congruence|by destruct w].
Qed.

Lemma wp_rollover_sane w k :
  wal_sane w → wp (wal_rollover w) (λ x _, wal_sane x.2 ∧ wal_next_seq x.2 = wal_next_seq w ∧
    wal_durable_seq w <= wal_durable_seq x.2) k.
Proof.
  intros S. unfold wal_rollover. destruct (_ <=? _); [by apply wp_ret|].
  call wp_sync_sane as [r w1] k1 (S1 & Hn1 & Hd1 & Hok & _); [done|]. cbn [fst snd] in *.
  destruct (result_ok r); cbn [negb]; [|by apply wp_ret].
  specialize (Hok eq_refl). destruct (S1) as [Hr1 _ _ _]. unfold wal_seg_close.
  set (nb := u64 (g_durable_seq (wl_active w1) + 1)).
  assert (nb = wal_next_seq w) as Hnb.
  { unfold nb. unfold wal_durable_seq in Hok. rewrite Hok, u64_id; lia. }
  eapply (wp_call _ (λ x _, ∃ fd, x.2 = (wl_active w1) <| g_fd := fd |>)).
  { destruct (_ <? 0); [apply wp_ret; exists (g_fd (wl_active w1)); cbn; by destruct (wl_active w1)|].
    eapply wp_call; [apply wp_any|intros ? ? _]. apply wp_ret. by exists (-1). }
  cbv beta. intros [r2 s2] k2 [fd Hs2]. cbn [fst snd] in *. subst s2.
  set (w2 := w1 <| wl_active := _ |>).
  assert (wal_sane w2) as S2 by (by apply sane_seg).
  destruct (result_ok r2); cbn [negb]; [|by apply wp_ret].
  eapply (wp_call _ (λ x _, x.2 = wl_active w2 ∨
    ∃ fd, x.2 = seg_reset fd (wl_dir_fd w2) nb (wl_seg_capacity w2) ∧ result_ok x.1 = true)).
  { unfold wal_seg_create. destruct (_ || _); [apply wp_ret; by left|].
    eapply wp_call; [apply wp_any|intros [? ?] ? _]. destruct (result_ok _); cbn [negb]; [|apply wp_ret; by left].
    do 3 (eapply wp_call; [apply wp_any|intros ? ? _]; destruct (result_ok _); cbn [negb];
      [|eapply wp_call; [apply wp_any|intros ? ? _]; apply wp_ret; by left]).
    apply wp_ret. right. by eexists. }
  cbv beta. intros [r3 s3] k3 Hs3. cbn [fst snd] in *.
  destruct Hs3 as [->|(fd3 & -> & ->)].
  - assert (w2 <| wl_active := wl_active w2 |> = w2) as -> by (by destruct w2).
    destruct (result_ok r3); cbn [negb]; apply wp_ret; cbn; split_and!; try done.
    destruct S2 as [? ? ? ?]. by constructor.
  - cbn [negb]. apply wp_ret. cbn. unfold wal_next_seq, wal_durable_seq in *. cbn.
    rewrite Hnb, u64_id by lia. split_and!; [|done|lia].
    constructor; unfold wal_next_seq, wal_durable_seq; cbn; rewrite ?u64_id; lia.
Qed.

Lemma encode_total buf n r p : 0 <= (wal_rec_encode buf n r p).1.1.
Proof.
  unfold wal_rec_encode. destruct (_ && _); [done|].
  destruct (rec_size_cases (i32 (w_len r))) as [[-> _]|[-> ?]]; [done|].
  pose proof (align8_bounds (i32 (w_len r))). destruct (_ || _); cbn; lia.
Qed.

(** An append numbers its record with the next sequence or leaves the count
    alone. *)
Lemma wp_append_sane w r p scr k :
  wal_sane w → wal_next_seq w + 1 < 2 ^ 64 →
  wp (wal_append w r p scr) (λ x _, let '(res, w', r', _) := x in
    wal_sane w' ∧ wal_durable_seq w <= wal_durable_seq w' ∧
    if result_ok res then w_seq r' = wal_next_seq w ∧ wal_next_seq w' = wal_next_seq w + 1
    else wal_next_seq w' = wal_next_seq w) k.
Proof.
  intros S Hmax. unfold wal_append. destruct (_ || _); [by apply wp_ret|].
  eapply (wp_call _ (λ x _, wal_sane x.2 ∧ wal_next_seq x.2 = wal_next_seq w ∧
    wal_durable_seq w <= wal_durable_seq x.2)).
  { destruct (negb _); [by apply wp_rollover_sane|by apply wp_ret]. }
  cbv beta. intros [res w1] k1 (S1 & Hn1 & Hd1). cbn [fst snd] in *.
  destruct (result_ok res) eqn:Hres; cbn [negb]; [|apply wp_ret; by rewrite Hres].
  unfold wal_seg_append. apply wp_bind.
  destruct (wal_rec_encode scr _ _ _) as [[total scr'] r'] eqn:He.
  pose proof (f_equal (λ x, x.1.1) He) as Ht. cbn [fst] in Ht.
  match type of Ht with (wal_rec_encode ?b ?n ?q ?p).1.1 = _ => pose proof (encode_total b n q p) end.
  assert (w1 <| wl_active := wl_active w1 |> = w1) as Ew1 by (by destruct w1).
  destruct (Z.eqb_spec total 0) as [E0|E0]; [apply wp_ret, wp_ret; rewrite Ew1; by cbn|].
  destruct (_ <? _); [apply wp_ret, wp_ret; rewrite Ew1; by cbn|].
  eapply wp_call; [apply wp_any|intros res2 k2 _]. destruct (result_ok res2) eqn:Hr2; cbn [negb].
  2: { apply wp_ret. rewrite Hr2. apply wp_ret. rewrite Ew1. by rewrite Hr2. }
  apply wp_ret. cbn. apply wp_ret. cbn.
  destruct S1 as [? ? ? ?]. unfold wal_next_seq, wal_durable_seq in *. rewrite u64_id by lia.
  cbn. split_and!; [|done| |lia].
  - constructor; unfold wal_next_seq, wal_durable_seq; cbn; lia.
  - assert (w_seq r' = g_next_seq (wl_active w1)) as ->; [|lia].
    unfold wal_rec_encode in He. destruct (_ && _); [by simplify_eq/=|].
    destruct (_ || _); [by simplify_eq/=|]. by injection He as _ _ <-.
Qed.

End wal.

(** ** What most of a pass leaves alone

    The steps that neither write to the log nor owe an acknowledgement keep
    the active segment's counters, the role of the node, and every owed
    acknowledgement; a slot given up or taken into use owes nothing. *)

Definition acks (c : loop_conn_t) : loop_ack_t * loop_ack_t * bool :=
  (cn_ack_local c, cn_ack_repl c, cn_in_use c).
Definition blank (c : loop_conn_t) : Prop := cn_ack_local c = ack_none ∧ cn_ack_repl c = ack_none.

Record keeps (l l' : loop_t) : Prop := {
  kp_wal : wl_active (l_wal l') = wl_active (l_wal l);
  kp_dirty : l_wal_dirty l' = l_wal_dirty l;
  kp_role : l_is_follower l' = l_is_follower l;
  kp_stream : l_stream l' = l_stream l;
  kp_acks : ∀ i c', l_conns l' !! i = Some c' → ∃ c, l_conns l !! i = Some c ∧
              (acks c' = acks c ∨ blank c') }.

#[export] Instance keeps_preorder : PreOrder keeps.
Proof.
  split.
  - intros l. constructor; eauto.
  - intros a b c [? ? ? ? Hab] [? ? ? ? Hbc]. constructor; [congruence..|].
    intros i c3 (c2 & H2 & Hc2)%Hbc. destruct (Hab _ _ H2) as (c1 & H1 & Hc1).
    exists c1. split; [done|]. destruct Hc2 as [Hc2|]; [|by right].
    destruct Hc1 as [Hc1|[H1l H1r]]; [left; congruence|right].
    injection Hc2 as E1 E2 E3. split; congruence.
Qed.

Lemma keeps_same l l' :
  wl_active (l_wal l') = wl_active (l_wal l) → l_wal_dirty l' = l_wal_dirty l →
  l_is_follower l' = l_is_follower l → l_stream l' = l_stream l → l_conns l' = l_conns l → keeps l l'.
Proof. intros ? ? ? ? E. constructor; [done..|]. intros i c'. rewrite E. eauto. Qed.

Lemma keeps_slot l0 l i f :
  keeps l0 l → (∀ c, acks (f c) = acks c ∨ blank (f c)) →
  keeps l0 (on_slot i f l).
Proof.
  intros Hl Hf. etrans; [exact Hl|]. constructor; [done..|]. intros j c' Hc.
  unfold on_slot in Hc. cbn in Hc. rewrite list_lookup_alter in Hc. case_decide; [|eauto].
  apply fmap_Some in Hc as (c & Hc & ->). exists c. split; [by subst|apply Hf].
Qed.

Lemma keeps_put l0 l i c' :
  keeps l0 l → acks c' = acks (slot l i) → keeps l0 (on_slot i (λ _, c') l).
Proof.
  intros Hl Ha. etrans; [exact Hl|]. constructor; [done..|]. intros j c2 Hc.
  unfold on_slot in Hc. cbn in Hc. rewrite list_lookup_alter in Hc. case_decide; [|eauto].
  apply fmap_Some in Hc as (c & Hc & ->). subst j. exists c. split; [done|left].
  rewrite Ha. unfold slot. by rewrite Hc.
Qed.

Lemma acks_reply c op flags q p : acks (reply c op flags q p).2 = acks c.
Proof. unfold reply. by destruct (_ <? _). Qed.
Lemma acks_reply_record c r p : acks (reply_record c r p).2 = acks c.
Proof. unfold reply_record. by destruct (_ <? _). Qed.

Lemma keeps_reply_to l0 l i op flags q p : keeps l0 l → keeps l0 (reply_to i op flags q p l).
Proof. intros. apply keeps_slot; [done|]. intros c. left. apply acks_reply. Qed.
Lemma keeps_err_text l0 l i code q t : keeps l0 l → keeps l0 (reply_err_text i code q t l).
Proof. intros. apply keeps_reply_to. etrans; [eassumption|]. by apply keeps_same. Qed.
Lemma keeps_err l0 l i code q : keeps l0 l → keeps l0 (reply_err i code q l).
Proof. apply keeps_err_text. Qed.
Lemma keeps_close_slot l0 l i : keeps l0 l → keeps l0 (close_slot i l).
Proof. intros. apply keeps_slot; [done|]. by left. Qed.
Lemma keeps_on_sub l0 l i f : keeps l0 l → keeps l0 (on_sub i f l).
Proof. intros. apply keeps_slot; [done|]. by left. Qed.
Lemma keeps_slot_reset l0 l i : keeps l0 l → keeps l0 (slot_reset l i).
Proof. intros. apply keeps_slot; [done|]. by right. Qed.
(** A slot taken into use starts from a reset one. *)
Lemma keeps_taken l0 l i f :
  keeps l0 l → (∀ buf, blank (f (slot_free buf))) → keeps l0 (on_slot i f (slot_reset l i)).
Proof.
  intros Hl Hf. etrans; [exact Hl|]. constructor; [done..|]. intros j c' Hc.
  unfold slot_reset, on_slot in Hc. cbn in Hc. rewrite !list_lookup_alter in Hc.
  case_decide; [|eauto]. subst j. rewrite decide_True in Hc by done.
  apply fmap_Some in Hc as (c1 & Hc & ->). apply fmap_Some in Hc as (c & Hc & ->).
  exists c. split; [done|]. right. apply Hf.
Qed.
Lemma keeps_reply_ack l0 l i f q s : keeps l0 l → keeps l0 (reply_ack i f q s l).
Proof. apply keeps_reply_to. Qed.
Lemma keeps_floor l0 l : keeps l0 l → keeps l0 (retain_floor_update l).
Proof.
  intros. etrans; [eassumption|]. unfold retain_floor_update. destruct (_ <=? _); [done|].
  destruct (foldl _ _ _). do 2 (destruct (_ <? _); [try done; by apply keeps_same|]). done.
Qed.

Create HintDb keeps.
#[export] Hint Resolve keeps_reply_to keeps_err_text keeps_err keeps_close_slot keeps_on_sub
  keeps_slot_reset keeps_reply_ack keeps_floor : keeps.
Ltac keep_field :=
  lazymatch goal with
  | |- keeps ?a (@upd _ _ _ _ _ ?l) => transitivity l; [|apply keeps_same; reflexivity]
  | |- keeps ?a (on_peer _ _ ?l) => transitivity l; [|apply keeps_same; reflexivity]
  | |- keeps ?a (on_scrape _ _ ?l) => transitivity l; [|apply keeps_same; reflexivity]
  | |- keeps ?a (if ?b then _ else _) => destruct b
  end.
#[export] Hint Extern 1 (keeps _ _) => keep_field : keeps.
#[export] Hint Extern 2 (keeps _ (on_slot _ _ _)) =>
  (apply keeps_slot; [|intros ?; (left; reflexivity) || (right; split; reflexivity)]) : keeps.
#[export] Hint Extern 0 (keeps ?l ?l) => reflexivity : keeps.

(** Run a computation to its end, splitting on every condition; the calls
    that return a loop are looked up in the database.  The relation [R l0] to
    the loop [l0] at the start is [keeps], or another one with hints there. *)
Ltac keep_step :=
  lazymatch goal with
  | |- wp (mret _) _ _ => apply wp_ret; cbv beta iota; cbn [fst snd]
  | |- wp (if ?b then _ else _) _ _ => destruct b
  | |- wp (match ?x with _ => _ end) _ _ => destruct x eqn:?
  | |- wp (@mbind _ _ loop_t _ ?f ?m) (λ x _, ?R ?l0 _) _ =>
      eapply (wp_call _ (λ l' _, R l0 l')); [|cbv beta; intros ? ? ?]
  | |- wp (@mbind _ _ (nat * loop_t) _ ?f ?m) (λ l' _, ?R ?l0 l') _ =>
      eapply (wp_call _ (λ x _, R l0 x.2)); [|cbv beta; intros [? ?] ? ?; cbn [fst snd] in *]
  | |- wp (@mbind _ _ (loop_t * Z) _ ?f ?m) (λ l' _, ?R ?l0 l') _ =>
      eapply (wp_call _ (λ x _, R l0 x.1)); [|cbv beta; intros [? ?] ? ?; cbn [fst snd] in *]
  | |- wp (@mbind _ _ _ _ ?f ?m) _ _ => eapply wp_call; [apply wp_any|intros ? ? _]
  | |- wp _ _ _ => solve [eauto 20 with keeps]
  | |- ?R _ (if ?b then _ else _) => destruct b
  | |- ?R _ (match ?x with _ => _ end) => destruct x
  | |- _ => solve [eauto 20 with keeps]
  end.
Ltac keep_all := repeat (cbv zeta; keep_step).

Section keeping.
Context {K : Type} `{Sys K}.

Lemma wp_arm_timer l0 l (k : K) : keeps l0 l → wp (arm_timer_now l) (λ l' _, keeps l0 l') k.
Proof. intros. unfold arm_timer_now. keep_all. Qed.
Hint Resolve wp_arm_timer : keeps.

Lemma wp_hello l0 l i h p n (k : K) :
  keeps l0 l → wp (handle_hello l i h p n) (λ l' _, keeps l0 l') k.
Proof. intros. unfold handle_hello. keep_all. Qed.

Lemma wp_subscribe l0 l i h p n s (k : K) :
  keeps l0 l → wp (handle_subscribe l i h p n s) (λ l' _, keeps l0 l') k.
Proof. intros. unfold handle_subscribe. keep_all. Qed.

Lemma wp_read l0 l i h p n s (k : K) :
  keeps l0 l → wp (handle_read l i h p n s) (λ l' _, keeps l0 l') k.
Proof. intros. unfold handle_read. keep_all. Qed.

Lemma wp_repl_start l0 l i h s (k : K) :
  keeps l0 l → wp (handle_repl_start l i h s) (λ l' _, keeps l0 l') k.
Proof. intros. unfold handle_repl_start. keep_all. Qed.

Hint Resolve wp_hello wp_subscribe wp_read wp_repl_start : keeps.

Lemma wp_replica_release l0 l i (k : K) :
  keeps l0 l → wp (replica_release l i) (λ l' _, keeps l0 l') k.
Proof. intros. unfold replica_release. keep_all. Qed.
Hint Resolve wp_replica_release : keeps.

Lemma wp_slot_release l0 l i (k : K) :
  keeps l0 l → wp (slot_release l i) (λ l' _, keeps l0 l') k.
Proof. intros. unfold slot_release. keep_all. Qed.
Hint Resolve wp_slot_release : keeps.

Lemma wp_want_out l0 l i b (k : K) : keeps l0 l → wp (conn_want_out l i b) (λ l' _, keeps l0 l') k.
Proof. intros. unfold conn_want_out. keep_all. Qed.
Hint Resolve wp_want_out : keeps.

Lemma keeps_send_done l0 l i r : keeps l0 l → keeps l0 (loop_send_done l i r).
Proof. intros. unfold loop_send_done. keep_all. Qed.
Hint Resolve keeps_send_done : keeps.

Lemma wp_conn_send l0 l i (k : K) : keeps l0 l → wp (conn_send l i) (λ l' _, keeps l0 l') k.
Proof. intros. unfold conn_send. keep_all. Qed.
Hint Resolve wp_conn_send : keeps.

Lemma wp_do_send l0 l i (k : K) : keeps l0 l → wp (do_send l i) (λ l' _, keeps l0 l') k.
Proof. intros. unfold do_send. keep_all. Qed.

Lemma wp_on_accept l0 l r (k : K) : keeps l0 l → wp (on_accept l r) (λ l' _, keeps l0 l') k.
Proof.
  intros Hl. unfold on_accept. cbv zeta. destruct (_ <? _); [by apply wp_ret|].
  destruct (slot_alloc l) as [i|]; [|keep_all].
  eapply wp_call; [apply wp_any|intros r1 k1 _]. destruct (negb _); [keep_all|].
  apply wp_ret. keep_field. apply keeps_taken; [done|]. intros. by split.
Qed.
Hint Resolve wp_do_send wp_on_accept : keeps.

Lemma wp_do_accept l0 l (k : K) : keeps l0 l → wp (do_accept l) (λ l' _, keeps l0 l') k.
Proof. intros. unfold do_accept. keep_all. Qed.

Lemma wp_do_signal l0 l (k : K) : keeps l0 l → wp (do_signal l) (λ l' _, keeps l0 l') k.
Proof. intros. unfold do_signal. keep_all. Qed.

Lemma wp_do_timer l0 l (k : K) : keeps l0 l → wp (do_timer l) (λ l' _, keeps l0 l') k.
Proof. intros. unfold do_timer. keep_all. Qed.
Hint Resolve wp_do_accept wp_do_signal wp_do_timer : keeps.

Lemma wp_scrape_release l0 l i (k : K) :
  keeps l0 l → wp (scrape_release l i) (λ l' _, keeps l0 l') k.
Proof. intros. unfold scrape_release. keep_all. Qed.
Hint Resolve wp_scrape_release : keeps.

Lemma wp_refuse_scrape l0 l i (k : K) :
  keeps l0 l → wp (refuse_scrape l i) (λ l' _, keeps l0 l') k.
Proof. intros. unfold refuse_scrape. keep_all. Qed.

Lemma wp_scrape_answering l0 l i (k : K) :
  keeps l0 l → wp (scrape_answering l i) (λ l' _, keeps l0 l') k.
Proof. intros. unfold scrape_answering. keep_all. Qed.
Hint Resolve wp_refuse_scrape wp_scrape_answering : keeps.

Lemma wp_scrape_send l0 l i (k : K) : keeps l0 l → wp (scrape_send l i) (λ l' _, keeps l0 l') k.
Proof. intros. unfold scrape_send. keep_all. Qed.
Hint Resolve wp_scrape_send : keeps.

Lemma wp_scrape_answer l0 l i out (k : K) :
  keeps l0 l → wp (scrape_answer l i out) (λ l' _, keeps l0 l') k.
Proof. intros. unfold scrape_answer. keep_all. Qed.
Hint Resolve wp_scrape_answer : keeps.

Lemma wp_scrape_recv l0 l i (k : K) : keeps l0 l → wp (scrape_recv l i) (λ l' _, keeps l0 l') k.
Proof. intros. unfold scrape_recv. keep_all. Qed.

Lemma wp_scrape_accept l0 l (k : K) : keeps l0 l → wp (scrape_accept l) (λ l' _, keeps l0 l') k.
Proof. intros. unfold scrape_accept. keep_all. Qed.
Hint Resolve wp_scrape_recv wp_scrape_accept : keeps.

Lemma wp_arm_conn l0 l i (k : K) : keeps l0 l → wp (arm_conn l i) (λ l' _, keeps l0 l') k.
Proof. intros. unfold arm_conn. keep_all. Qed.
Hint Resolve wp_arm_conn : keeps.

Lemma wp_arm_slots l0 todo l (k : K) : keeps l0 l → wp (arm_slots todo l) (λ l' _, keeps l0 l') k.
Proof. revert l k. induction todo as [|i todo IH]; intros l k Hl; cbn [arm_slots]; keep_all. Qed.

Lemma kept_stream_one l0 limit l i (k : K) :
  keeps l0 l → wp (stream_one limit l i) (λ l' _, keeps l0 l') k.
Proof. intros. unfold stream_one. keep_all. Qed.
Hint Resolve wp_arm_slots kept_stream_one : keeps.

Lemma wp_stream_slots l0 todo limit l (k : K) :
  keeps l0 l → wp (stream_slots todo limit l) (λ l' _, keeps l0 l') k.
Proof. revert l k. induction todo as [|i todo IH]; intros l k Hl; cbn [stream_slots]; keep_all. Qed.

Lemma wp_fsync_observe l0 l b (k : K) : keeps l0 l → wp (fsync_observe l b) (λ l' _, keeps l0 l') k.
Proof. intros. unfold fsync_observe. keep_all. Qed.
Hint Resolve wp_stream_slots wp_fsync_observe : keeps.

Lemma notify_acks fuel c buf got at_ n : acks (notify_loop fuel c buf got at_ n).1 = acks c.
Proof.
  revert c at_ n. induction fuel as [|fuel IH]; intros c at_ n; cbn [notify_loop]; [done|].
  destruct (_ <=? _); [done|]. destruct (wal_rec_decode _ _); [|done]. cbv zeta.
  destruct (_ || _); [done|]. destruct (_ || _); rewrite IH; [apply acks_reply_record|done].
Qed.

Lemma kept_push_one l0 d n l i (k : K) :
  keeps l0 l → wp (push_one d n l i) (λ x _, keeps l0 x.1) k.
Proof.
  intros. unfold push_one. cbv zeta. keep_all; cbn [fst]; keep_all.
  all: match goal with E : notify_loop ?f ?c ?b ?g ?a ?n = _ |- _ =>
         pose proof (notify_acks f c b g a n) as Hn; rewrite E in Hn end.
  all: keep_field; apply keeps_put; [|exact Hn]; eauto 20 with keeps.
Qed.
Hint Resolve kept_push_one : keeps.

Lemma wp_push_slots l0 todo d n l (k : K) :
  keeps l0 l → wp (push_slots todo d n l) (λ l' _, keeps l0 l') k.
Proof.
  revert d l k. induction todo as [|i todo IH]; intros d l k Hl; cbn [push_slots]; [by apply wp_ret|].
  eapply wp_call; [by apply kept_push_one|]. cbv beta. intros [l' d'] k' Hl'. by apply IH.
Qed.

Lemma wp_wal_retain_active w kf (k : K) :
  wp (wal_retain w kf) (λ x _, wl_active x.1.2 = wl_active w) k.
Proof.
  unfold wal_retain. destruct (Nat.eqb _ _); [by apply wp_ret|].
  eapply wp_call; [apply wp_any|intros [r i] k1 _]. cbv zeta.
  destruct (result_ok r); cbn [negb]; [|by apply wp_ret].
  eapply wp_call; [apply wp_any|intros r2 k2 _].
  by destruct (result_ok r2); cbn [negb]; apply wp_ret.
Qed.

Lemma kept_retain_pass l0 l (k : K) : keeps l0 l → wp (retain_pass l) (λ l' _, keeps l0 l') k.
Proof.
  intros. unfold retain_pass. cbv zeta.
  destruct (_ <=? 0); [by apply wp_ret|]. destruct (_ && _); [by apply wp_ret|].
  do 2 (destruct (_ : bool); [apply wp_ret; solve [eauto with keeps]|]).
  eapply wp_call; [apply wp_wal_retain_active|]. cbv beta. intros [[r w] n] k1 Hw. cbn [fst snd] in Hw.
  match goal with |- context [if negb (result_ok r) then _ else mret ?l1] =>
    assert (keeps l0 l1) as Hl1 by (etrans; [eassumption|by apply keeps_same]) end.
  keep_all.
Qed.

End keeping.

#[export] Hint Resolve wp_arm_timer wp_hello wp_subscribe wp_read wp_repl_start wp_replica_release
  wp_slot_release wp_want_out keeps_send_done wp_conn_send wp_do_send wp_on_accept wp_do_accept
  wp_do_signal wp_do_timer wp_scrape_release wp_refuse_scrape wp_scrape_answering wp_scrape_send
  wp_scrape_answer wp_scrape_recv wp_scrape_accept wp_arm_conn wp_arm_slots kept_stream_one
  wp_stream_slots wp_fsync_observe kept_push_one wp_push_slots kept_retain_pass : keeps.

(** ** What a pass owes *)

(** The last sequence assigned, which the coming flush will have made
    durable. *)
Definition settled (l : loop_t) : Z := wal_next_seq (l_wal l) - 1.

(** A due acknowledgement names a sequence at most [m]; one that is not due
    is blank. *)
Definition owed_below (m : Z) (a : loop_ack_t) : Prop :=
  if oa_due a then oa_wal_seq a <= m else a = ack_none.

(** An acknowledgement the local flush answers does not claim a second
    copy. *)
Definition one_copy (a : loop_ack_t) : Prop :=
  has_flag (oa_flags a) MSG_FLAG_REPLICATED = true → has_flag (oa_flags a) MSG_FLAG_DEGRADED = true.

Record owes (l : loop_t) : Prop := {
  ow_wal : wal_sane (l_wal l);
  ow_leader : l_is_follower l = false;
  ow_stream : rs_fd (l_stream l) < 0 ∧ rs_connecting (l_stream l) = false;
  ow_flushed : l_wal_dirty l = false → wal_durable_seq (l_wal l) = settled l;
  ow_slots : ∀ i c, l_conns l !! i = Some c → (i < LOOP_MAX_CONNS)%nat;
  ow_acks : ∀ i c, l_conns l !! i = Some c →
    owed_below (settled l) (cn_ack_local c) ∧ one_copy (cn_ack_local c) ∧
    owed_below (settled l) (cn_ack_repl c) }.

(** A step that takes at most [n] records keeps the books, while the
    sequences last. *)
Definition adv (n : Z) (l l' : loop_t) : Prop :=
  owes l → wal_next_seq (l_wal l) + n < 2 ^ 64 →
  owes l' ∧ wal_next_seq (l_wal l) <= wal_next_seq (l_wal l') <= wal_next_seq (l_wal l) + n.

Lemma owed_none m : owed_below m ack_none.
Proof. done. Qed.
Lemma one_copy_none : one_copy ack_none.
Proof. done. Qed.

Lemma owed_mono m m' a : m <= m' → owed_below m a → owed_below m' a.
Proof. unfold owed_below. case_match; [lia|done]. Qed.

Lemma settled_pos l : wal_sane (l_wal l) → 0 <= settled l.
Proof. intros [? ? ? ?]. unfold settled. lia. Qed.

Lemma sane_active w w' : wl_active w' = wl_active w → wal_sane w → wal_sane w'.
Proof.
  intros E [? ? ? ?]. unfold wal_next_seq, wal_durable_seq in *.
  constructor; unfold wal_next_seq, wal_durable_seq; rewrite E; done.
Qed.

Lemma keeps_owes l l' :
  keeps l l' → owes l → owes l' ∧ wal_next_seq (l_wal l') = wal_next_seq (l_wal l).
Proof.
  intros [Ew Ed Er Es Ea] [Hw Hl Hs Hp Hm Ha].
  assert (wal_next_seq (l_wal l') = wal_next_seq (l_wal l)) as E2 by (unfold wal_next_seq; by rewrite Ew).
  assert (wal_durable_seq (l_wal l') = wal_durable_seq (l_wal l)) as E3
    by (unfold wal_durable_seq; by rewrite Ew).
  assert (settled l' = settled l) as E1 by (unfold settled; by rewrite E2).
  split; [|done]. constructor; rewrite ?E1, ?E3, ?Es, ?Ed; try done;
    [by eapply sane_active|congruence|intros i c' (c & Hc & _)%Ea; by eapply Hm|].
  intros i c' (c & Hc & Hacks)%Ea. destruct (Ha i c Hc) as (? & ? & ?).
  destruct Hacks as [[= -> -> _]|[-> ->]]; by split_and!.
Qed.

Lemma keeps_adv l l' : keeps l l' → adv 0 l l'.
Proof. intros Hk Ho _. destruct (keeps_owes l l' Hk Ho). split; [done|lia]. Qed.

Lemma adv_trans n m a b c : 0 <= m → adv n a b → adv m b c → adv (n + m) a c.
Proof.
  intros Hm Hab Hbc Ho Hn. destruct Hab as [Hb ?]; [done|lia|]. destruct Hbc; [done|lia|]. split; [done|lia].
Qed.

Lemma adv_weak n m a b : n <= m → adv n a b → adv m a b.
Proof. intros Hnm Hab Ho Hm. destruct Hab; [done|lia|]. split; [done|lia]. Qed.

(** Staging: the slot keeps what it owed and owes the new sequence too. *)
Lemma owed_stage m a flags d cs ws dl :
  owed_below m a → 0 <= m → ws <= m → owed_below m (ack_stage a flags d cs ws dl).
Proof.
  unfold owed_below, ack_stage. cbn. intros Ha Hm Hw. destruct (oa_due a).
  - case_match; lia.
  - subst a. cbn. case_match; lia.
Qed.

Lemma has_flag_lor a b f : has_flag (Z.lor a b) f = has_flag a f || has_flag b f.
Proof.
  unfold has_flag. rewrite Z.land_lor_distr_l.
  generalize (Z.land a f), (Z.land b f). intros x y.
  pose proof (Z.lor_eq_0_iff x y).
  destruct (Z.eqb_spec (Z.lor x y) 0), (Z.eqb_spec x 0), (Z.eqb_spec y 0); cbn; tauto.
Qed.

Lemma one_copy_stage a flags d cs ws dl :
  one_copy a → (has_flag flags MSG_FLAG_REPLICATED = true → has_flag flags MSG_FLAG_DEGRADED = true) →
  one_copy (ack_stage a flags d cs ws dl).
Proof.
  unfold one_copy, ack_stage. cbn. rewrite !has_flag_lor. intros Ha Hf [?|?]%orb_true_iff;
    apply orb_true_iff; auto.
Qed.

#[local] Arguments ack_stage : simpl never.
#[local] Arguments wal_next_seq : simpl never.
#[local] Arguments wal_durable_seq : simpl never.

Lemma owes_slot l i f :
  owes l →
  (∀ c, owed_below (settled l) (cn_ack_local c) → one_copy (cn_ack_local c) →
        owed_below (settled l) (cn_ack_repl c) →
        owed_below (settled l) (cn_ack_local (f c)) ∧ one_copy (cn_ack_local (f c)) ∧
        owed_below (settled l) (cn_ack_repl (f c))) →
  owes (on_slot i f l).
Proof.
  intros [Hw Hl Hs Hp Hm Ha] Hf. constructor; try done.
  { intros j c Hc. unfold on_slot in Hc. cbn in Hc. rewrite list_lookup_alter in Hc.
    case_decide; [|by eapply Hm]. apply fmap_Some in Hc as (? & ? & _). subst. by eapply Hm. }
  intros j c Hc. unfold on_slot in Hc. cbn in Hc.
  rewrite list_lookup_alter in Hc. case_decide; [|by apply (Ha j)].
  apply fmap_Some in Hc as (c0 & Hc & ->). 
  destruct (Ha _ _ Hc) as (? & ? & ?). by apply Hf.
Qed.

Lemma owes_ack_write i flags wants deg cs ws l :
  owes l → ws <= settled l →
  (wants = false → has_flag flags MSG_FLAG_REPLICATED = false) → owes (ack_write i flags wants deg cs ws l).
Proof.
  intros Ho Hw Hf. pose proof (settled_pos l (ow_wal _ Ho)).
  unfold ack_write. destruct wants; cbn [negb]; [destruct (repl_live l); cbn [negb]|].
  - apply owes_slot; [done|]. intros c ? ? ?. cbn. split_and!; [done..|]. apply owed_stage; [done|lia..].
  - assert (owes (on_slot i (λ c, c <| cn_ack_local ::= λ a,
      ack_stage a (Z.lor flags MSG_FLAG_DEGRADED) true cs ws 0 |>) l)) as Ho'.
    { apply owes_slot; [done|]. intros c ? ? ?. cbn. split_and!; [|apply one_copy_stage|]; try done.
      - by apply owed_stage.
      - intros _. rewrite has_flag_lor. apply orb_true_iff. by right. }
    eapply keeps_owes; [|exact Ho']. by apply keeps_same.
  - apply owes_slot; [done|]. intros c ? ? ?. cbn. split_and!; [|apply one_copy_stage|]; try done.
    + by apply owed_stage.
    + intros Hr. by rewrite Hf in Hr.
Qed.

Section writing.
Context {K : Type} `{Sys K}.

Lemma owes_wal l w :
  owes l → wal_sane w → wal_next_seq w = wal_next_seq (l_wal l) →
  wal_durable_seq (l_wal l) <= wal_durable_seq w → owes (l <| l_wal := w |>).
Proof.
  intros Ho Hw En Ed. destruct Ho as [Hw0 Hl Hs Hp Hm Ha].
  assert (settled (l <| l_wal := w |>) = settled l) as E by (unfold settled; by rewrite <-En).
  constructor; [exact Hw|exact Hl|exact Hs| |exact Hm|].
  - intros Hd. rewrite E. change (wal_durable_seq w = settled l). specialize (Hp Hd).
    pose proof (ws_durable _ Hw). unfold settled in *. lia.
  - intros i c Hc. rewrite E. by apply (Ha i).
Qed.

Lemma durable_settled l : wal_sane (l_wal l) → wal_durable_seq (l_wal l) <= settled l.
Proof. intros [? ? ? ?]. unfold settled. lia. Qed.

(** A record appended: the pass is dirty and settles one sequence more. *)
Lemma owes_appended l l' w :
  owes l → wal_sane w → wal_next_seq w = wal_next_seq (l_wal l) + 1 →
  l_wal l' = w → l_wal_dirty l' = true → l_conns l' = l_conns l →
  l_is_follower l' = l_is_follower l → l_stream l' = l_stream l → owes l'.
Proof.
  intros Ho Hw En Ew Ed Ec Er Es. destruct Ho as [Hw0 Hl Hs Hp Hm Ha].
  assert (settled l <= settled l') by (unfold settled; rewrite Ew; lia).
  constructor; [by rewrite Ew|congruence|by rewrite Es|congruence|by rewrite Ec|].
  intros i c Hc. rewrite Ec in Hc. destruct (Ha i c Hc) as (? & ? & ?).
  split_and!; [by eapply owed_mono|done|by eapply owed_mono].
Qed.

Lemma mask_replicated flags :
  has_flag (Z.land flags (Z.lor (Z.lor MSG_FLAG_ACK_REQ MSG_FLAG_SYNC) MSG_FLAG_REPLICATED))
    MSG_FLAG_REPLICATED = has_flag flags MSG_FLAG_REPLICATED.
Proof. unfold has_flag. by rewrite <-Z.land_assoc. Qed.

Lemma wp_write_adv l i h p n scr (k : K) :
  wp (handle_write l i h p n scr) (λ l' _, adv 1 l l') k.
Proof.
  assert (∀ l', keeps l l' → adv 1 l l') as Hk.
  { intros l' Hl. by eapply adv_weak; [|apply keeps_adv]. }
  unfold handle_write. destruct (session_lookup _ _) as [s|]; [|apply wp_ret, Hk; eauto with keeps].
  destruct (l_is_follower l); [apply wp_ret, Hk; eauto with keeps|]. cbv zeta.
  destruct (_ && _ && _); [apply wp_ret, Hk; eauto with keeps|].
  set (flags := Z.land (h_flags h) _).
  set (wants := has_flag (h_flags h) MSG_FLAG_REPLICATED).
  set (deg := has_flag (h_flags h) MSG_FLAG_ALLOW_DEGRADED).
  assert (wants = false → has_flag flags MSG_FLAG_REPLICATED = false) as Hflags.
  { unfold flags. by rewrite mask_replicated. }
  destruct (_ <=? _).
  { apply wp_ret. destruct (has_flag _ MSG_FLAG_ACK_REQ); [|apply Hk; eauto with keeps].
    intros Ho Hn. split; [|unfold ack_write; destruct wants; cbn [negb]; [destruct (repl_live _)|]; cbn; lia].
    apply owes_ack_write; [|apply durable_settled|done].
    - eapply keeps_owes; [|exact Ho]. by apply keeps_same.
    - apply Ho. }
  destruct (wal_append (l_wal l) (rec_of_write (cn_session (slot l i)) h n) p scr k) as [[[[r w] rec] scr'] k'] eqn:Ea.
  eapply (wp_call _ (λ x _, x = (r, w, rec, scr'))); [by eapply wp_intro|].
  cbv beta. intros ? k2 ->. cbv beta iota.
  assert (∀ Q, owes l → wal_next_seq (l_wal l) + 1 < 2 ^ 64 → (
    wal_sane w ∧ wal_durable_seq (l_wal l) <= wal_durable_seq w ∧
    (if result_ok r then w_seq rec = wal_next_seq (l_wal l) ∧ wal_next_seq w = wal_next_seq (l_wal l) + 1
     else wal_next_seq w = wal_next_seq (l_wal l)) → Q : Prop) → Q) as Happ.
  { intros Q Ho Hn HQ. apply HQ.
    pose proof (wp_append_sane (l_wal l) (rec_of_write (cn_session (slot l i)) h n) p scr k
      (ow_wal _ Ho) Hn) as (x & k3 & E & Hx)%wp_elim.
    rewrite Ea in E. injection E as <- <-. exact Hx. }
  destruct (result_ok r) eqn:Hr; cbn [negb]; apply wp_ret; intros Ho Hn; apply (Happ _ Ho Hn);
    intros (Hw & Hd & Hx).
  - destruct Hx as [Hseq Hnext].
    match goal with |- context [if has_flag _ MSG_FLAG_ACK_REQ then ack_write _ _ _ _ _ _ ?l1 else _] =>
      assert (owes l1) as Ho1 by (eapply owes_appended; try done) end.
    destruct (has_flag _ MSG_FLAG_ACK_REQ); [|split; [done|cbn; lia]].
    split; [|unfold ack_write; destruct wants; cbn [negb]; [destruct (repl_live _)|]; cbn; lia].
    apply owes_ack_write; [done| |done]. unfold settled. cbn. lia.
  - assert (owes (l <| l_wal := w |>)) as Ho1 by (by apply owes_wal).
    split; [|cbn; lia]. eapply keeps_owes; [|exact Ho1]. eauto with keeps.
Qed.

End writing.

(** ** A whole pass *)

Section pass.
Context {K : Type} `{Sys K}.

Lemma wp_adv_bind n m (l : loop_t) (p : M K loop_t) (f : loop_t → M K loop_t) k :
  0 <= m → wp p (λ l1 _, adv n l l1) k → (∀ l1 k1, wp (f l1) (λ l2 _, adv m l1 l2) k1) →
  wp (p ≫= f) (λ l2 _, adv (n + m) l l2) k.
Proof.
  intros Hm Hp Hf. eapply wp_call; [exact Hp|]. cbv beta. intros l1 k1 H1.
  eapply wp_mono; [apply Hf|]. intros l2 k2 H2. by eapply adv_trans.
Qed.

Lemma wp_keeps_adv n l (p : M K loop_t) k :
  0 <= n → wp p (λ l1 _, keeps l l1) k → wp p (λ l1 _, adv n l l1) k.
Proof.
  intros Hn Hp. eapply wp_mono; [exact Hp|]. intros l1 k1 H1.
  by eapply adv_weak; [|apply keeps_adv].
Qed.

Lemma adv_refl n l : 0 <= n → adv n l l.
Proof. intros. by eapply adv_weak; [|apply keeps_adv]. Qed.

Lemma wp_frame_adv l i h p n scr (k : K) : wp (handle_frame l i h p n scr) (λ l' _, adv 1 l l') k.
Proof.
  unfold handle_frame. cbv zeta.
  destruct (_ =? _); [apply wp_keeps_adv; [lia|by apply wp_hello]|].
  destruct (_ =? _); [apply wp_write_adv|].
  apply wp_keeps_adv; [lia|].
  destruct (_ =? _); [apply wp_ret; eauto with keeps|].
  destruct (_ =? _); [by apply wp_repl_start|].
  destruct (_ =? _); [keep_all|].
  destruct (_ =? _); [by apply wp_subscribe|].
  destruct (_ =? _); [by apply wp_read|].
  destruct (_ =? _); apply wp_ret; eauto with keeps.
Qed.

Lemma wp_action_adv l i scr a (k : K) : wp (do_action l i scr a) (λ l' _, adv 1 l l') k.
Proof.
  destruct a; cbn [do_action]; [apply wp_frame_adv|..];
    apply wp_keeps_adv; try lia; apply wp_ret; eauto with keeps.
Qed.

Lemma wp_actions_adv acts l i scr (k : K) :
  wp (do_actions l i scr acts) (λ l' _, adv (zlen acts) l l') k.
Proof.
  revert l k. induction acts as [|a acts IH]; intros l k; cbn [do_actions].
  { apply wp_ret. by apply adv_refl. }
  replace (zlen (a :: acts)) with (1 + zlen acts) by (cbn [length]; lia).
  apply wp_adv_bind; [lia|apply wp_action_adv|intros; apply IH].
Qed.

Lemma feed_loop_length room c cur : (length (feed_loop room c cur).1 <= room)%nat.
Proof.
  assert (∀ r a b, (length (emit_fatal r a b) <= r)%nat) as He by (by intros [|[|r]] a b; cbn; lia).
  revert c cur. induction room as [|room IH]; intros c cur; cbn [feed_loop]; [done|].
  destruct (_ <? _); [cbn; lia|]. do 5 (destruct (_ : bool); [apply He|]).
  destruct (_ <? _); [cbn; lia|]. cbv zeta.
  match goal with |- context [feed_loop room ?c' ?n] => specialize (IH c' n); destruct (feed_loop room c' n) end.
  cbn in *. lia.
Qed.

Lemma feed_length c n : 0 <= n → zlen (conn_feed c n).1 <= n.
Proof.
  intros. unfold conn_feed. destruct (_ || _); [cbn; lia|].
  pose proof (feed_loop_length (Z.to_nat n) c (c_buf_off c)). lia.
Qed.

Lemma wp_recv_loop_adv fuel l i scr (k : K) :
  wp (recv_loop fuel l i scr) (λ l' _, adv (8 * Z.of_nat fuel) l l') k.
Proof.
  revert l k. induction fuel as [|fuel IH]; intros l k; cbn [recv_loop].
  { apply wp_ret. by apply adv_refl. }
  pose proof (feed_length (cn_conn (slot l i)) 8 ltac:(lia)) as Hl.
  destruct (conn_feed _ _) as [acts c]. cbn [fst] in Hl.
  assert (keeps l (on_slot i (λ x, x <| cn_conn := c |>) l)) as Hk by eauto with keeps.
  set (l1 := on_slot i _ l) in *.
  assert (adv 0 l l1) as H1 by (by apply keeps_adv).
  replace (8 * Z.of_nat (S fuel)) with (0 + (8 + 8 * Z.of_nat fuel)) by lia.
  destruct acts as [|a acts].
  { apply wp_ret. eapply adv_trans; [lia|exact H1|apply adv_refl; lia]. }
  eapply wp_mono; [|intros l' k' H2; eapply adv_trans; [|exact H1|exact H2]; lia].
  apply wp_adv_bind; [lia| |].
  - eapply wp_mono; [apply wp_actions_adv|]. cbv beta. intros l2 k2 H2. by eapply adv_weak; [exact Hl|].
  - intros l2 k2. destruct (cn_closing _); [apply wp_ret, adv_refl; lia|apply IH].
Qed.

(** The records one readiness report can bring. *)
Definition EVENT_RECORDS : Z := 8 * (2 + LOOP_RECV_CAP).

Lemma wp_recv_adv l i r scr (k : K) : wp (on_recv l i r scr) (λ l' _, adv EVENT_RECORDS l l') k.
Proof.
  unfold on_recv. destruct (negb _); [apply wp_ret; by apply adv_refl|].
  destruct (_ <=? _); [apply wp_keeps_adv; [done|]; apply wp_ret; eauto with keeps|]. cbv zeta.
  match goal with |- wp (recv_loop _ ?l1 _ _) _ _ => assert (keeps l l1) as Hk by eauto with keeps end.
  eapply wp_mono; [apply wp_recv_loop_adv|]. cbv beta. intros l' k' Hl.
  change EVENT_RECORDS with (0 + EVENT_RECORDS). eapply adv_trans; [done|by apply keeps_adv|].
  eapply adv_weak; [|exact Hl]. unfold EVENT_RECORDS, LOOP_RECV_CAP. lia.
Qed.
Lemma wp_do_recv_adv l i scr (k : K) : wp (do_recv l i scr) (λ l' _, adv EVENT_RECORDS l l') k.
Proof.
  unfold do_recv. cbv zeta. destruct (_ || _); [apply wp_ret; by apply adv_refl|].
  destruct (_ <=? _); [apply wp_ret; by apply adv_refl|].
  eapply wp_call; [apply wp_any|intros [res bs] k1 _].
  destruct (_ =? _); [apply wp_ret; by apply adv_refl|].
  eapply wp_mono; [apply wp_recv_adv|]. cbv beta. intros l' k' Hl.
  change EVENT_RECORDS with (0 + EVENT_RECORDS). eapply adv_trans; [done| |exact Hl].
  apply keeps_adv. eauto with keeps.
Qed.

(** A leader has no stream for an event to be about. *)
Lemma wp_no_stream l scr ev (k : K) :
  wp (if rs_connecting (l_stream l) then do_repl_dial l else
      l ← (if has_flag ev EV_READABLE then do_repl_recv l scr else mret l);
      if has_flag ev EPOLLOUT then do_repl_send l else mret l) (λ l' _, adv 0 l l') k.
Proof.
  destruct (decide (rs_fd (l_stream l) < 0 ∧ rs_connecting (l_stream l) = false)) as [[Hfd ->]|Hno].
  - unfold do_repl_recv, do_repl_send. rewrite (proj2 (Z.ltb_lt _ _) Hfd). cbn [orb].
    eapply (wp_call _ (λ l' _, l' = l)); [destruct (has_flag _ _); by apply wp_ret|].
    cbv beta. intros ? k' ->. rewrite (proj2 (Z.ltb_lt _ _) Hfd). cbn [orb].
    destruct (has_flag _ _); apply wp_ret; by apply adv_refl.
  - eapply wp_mono; [apply wp_any|]. intros l' k' _ Ho. by destruct Hno, Ho.
Qed.

Lemma wp_event_adv l scr d ev (k : K) :
  wp (tick_event l scr d ev) (λ l' _, adv EVENT_RECORDS l l') k.
Proof.
  unfold tick_event. cbv zeta.
  destruct (_ =? _); [apply wp_keeps_adv; [done|]; by apply wp_do_accept|].
  destruct (_ =? _).
  { replace EVENT_RECORDS with (EVENT_RECORDS + 0) by lia. apply wp_adv_bind; [done| |].
    - destruct (has_flag _ _); [apply wp_do_recv_adv|apply wp_ret; by apply adv_refl].
    - intros l1 k1. destruct (has_flag _ _); [apply wp_keeps_adv; [done|by apply wp_do_send]|].
      apply wp_ret. by apply adv_refl. }
  destruct (_ =? _); [apply wp_keeps_adv; [done|]; by apply wp_do_signal|].
  destruct (_ =? _); [apply wp_keeps_adv; [done|]; by apply wp_do_timer|].
  destruct (_ =? _).
  { eapply wp_mono; [apply wp_no_stream|]. cbv beta. intros l' k' Hl. eapply adv_weak; [|exact Hl]. done. }
  apply wp_keeps_adv; [done|].
  destruct (_ =? _); [by apply wp_scrape_accept|].
  destruct (_ =? _); [|by apply wp_ret].
  keep_all.
Qed.

Lemma wp_events_adv evs l scr (k : K) :
  wp (tick_events l scr evs) (λ l' _, adv (EVENT_RECORDS * zlen evs) l l') k.
Proof.
  revert l k. induction evs as [|[d ev] evs IH]; intros l k; cbn [tick_events].
  { apply wp_ret. by apply adv_refl. }
  replace (EVENT_RECORDS * zlen ((d, ev) :: evs))
    with (EVENT_RECORDS + EVENT_RECORDS * zlen evs) by (cbn [length]; lia).
  apply wp_adv_bind; [unfold EVENT_RECORDS, LOOP_RECV_CAP; lia|apply wp_event_adv|intros; apply IH].
Qed.

(** The log is flushed and nothing is owed beyond it. *)
Definition books_settled (l : loop_t) : Prop :=
  owes l ∧ wal_durable_seq (l_wal l) = wal_next_seq (l_wal l) - 1.

Lemma wp_tick_flush l (k : K) :
  owes l → wp (tick_flush l) (λ x _, result_ok x.1 = true →
    books_settled x.2 ∧ wal_next_seq (l_wal x.2) = wal_next_seq (l_wal l)) k.
Proof.
  intros Ho. unfold tick_flush. destruct (l_wal_dirty l) eqn:Hd; cbn [negb].
  2: { apply wp_ret. intros _. split; [split; [done|]|done]. by apply (ow_flushed _ Ho). }
  eapply wp_call; [apply wp_any|intros began k1 _].
  call wp_sync_sane as [r w] k2 (Hw & Hn & Hdur & Hok & _); [apply Ho|]. cbn [fst snd] in *. cbv zeta.
  destruct (result_ok r) eqn:Hr; cbn [negb]; [|apply wp_ret; cbn; congruence].
  specialize (Hok eq_refl). assert (owes (l <| l_wal := w |>)) as Ho1 by (by apply owes_wal).
  eapply (wp_call _ (λ l' _, keeps (l <| l_wal := w |>) l')).
  { apply wp_fsync_observe. by apply keeps_same. }
  cbv beta. intros l' k3 Hl'. apply wp_ret. intros _. cbn [fst snd].
  destruct (keeps_owes _ _ Hl' Ho1) as [Ho' En]. pose proof (kp_wal _ _ Hl') as Ea.
  split; [split; [done|]|by rewrite En].
  unfold wal_next_seq, wal_durable_seq in *. rewrite Ea. cbn. lia.
Qed.

End pass.

(** ** What is said *)

(** The frames the loop answers a write with. *)
Inductive answer :=
| SaidAck (flags sequence client_seq : Z)
| SaidNoReplicas (client_seq : Z).

Definition answer_bytes (a : answer) : list byte :=
  match a with
  | SaidAck flags q cs =>
      header_bytes (msg_header_new MSG_OP_ACK MSG_RECORD_NONE flags MSG_ACK_SIZE 0 q)
        ++ ack_bytes (Ack cs)
  | SaidNoReplicas cs =>
      header_bytes (msg_header_new MSG_OP_ERR MSG_RECORD_NONE 0 MSG_ERR_SIZE 0 cs)
        ++ err_bytes (ErrPayload MSG_ERR_NO_REPLICAS 0 0)
  end.

(** An acknowledgement is true when its record is flushed here and, if it
    reports a second copy, some attached replica has confirmed it. *)
Definition is_true (l : loop_t) (a : answer) : Prop :=
  match a with
  | SaidAck flags q _ =>
      q <= wal_durable_seq (l_wal l) ∧
      (has_flag flags MSG_FLAG_REPLICATED = true → has_flag flags MSG_FLAG_DEGRADED = false →
       0 < q → ∃ p, p ∈ l_peers l ∧ pe_live p = true ∧ q <= pe_durable p)
  | SaidNoReplicas _ => True
  end.

Lemma repl_best_from l : ∃ ps, ps = l_peers l ∧ ∀ x, 0 < x → x <= repl_best l →
  ∃ p, p ∈ ps ∧ pe_live p = true ∧ x <= pe_durable p.
Proof.
  exists (l_peers l). split; [done|]. unfold repl_best. intros x Hx Hb.
  assert (∀ ps b, x <= foldl (λ best p, if pe_live p && (best <? pe_durable p) then pe_durable p else best) b ps →
    x <= b ∨ ∃ p, p ∈ ps ∧ pe_live p = true ∧ x <= pe_durable p) as Hgen.
  { induction ps as [|p ps IH]; intros b; cbn; [by left|]. intros [Hc|(q & ? & ? & ?)]%IH.
    - destruct (pe_live p) eqn:Hl; cbn [andb] in Hc; [|by left].
      destruct (_ <? _); [|by left]. right. exists p. split; [by left|done].
    - right. exists q. split; [by right|done]. }
  destruct (Hgen _ _ Hb) as [?|?]; [lia|done].
Qed.

(** It is about the write that was owed one. *)
Definition is_owed (c : loop_conn_t) (a : answer) : Prop :=
  match a with
  | SaidAck _ _ cs => cs = oa_client_seq (cn_ack_local c) ∨ cs = oa_client_seq (cn_ack_repl c)
  | SaidNoReplicas cs => cs = oa_client_seq (cn_ack_repl c)
  end.

Definition is_right (l : loop_t) (c : loop_conn_t) (a : answer) : Prop := is_true l a ∧ is_owed c a.

(** What one slot is answered. *)
Definition answered (l : loop_t) (c c' : loop_conn_t) : Prop :=
  ∃ out, cn_staged c' = cn_staged c ++ concat (answer_bytes <$> out) ∧ Forall (is_right l c) out ∧
    cn_in_use c' = cn_in_use c ∧ (cn_in_use c = true → cn_ack_local c' = ack_none) ∧
    (cn_ack_repl c' = cn_ack_repl c ∨ cn_ack_repl c' = ack_none) ∧
    (cn_ack_local c' = cn_ack_local c ∨ cn_ack_local c' = ack_none).

Lemma reply_staged c op flags q p :
  (∃ b : bool, (reply c op flags q p) = (b, c <| cn_staged ::= λ s, s ++
     if b then header_bytes (msg_header_new op MSG_RECORD_NONE flags (u32 (zlen p)) 0 q) ++ p else [] |>)).
Proof.
  unfold reply. destruct (_ <? _).
  - exists false. f_equal. destruct c. unfold upd. cbn. by rewrite app_nil_r.
  - by exists true.
Qed.

Lemma staged_ack c flags q cs : ∃ out, (reply c MSG_OP_ACK flags q (ack_bytes (Ack cs))).2
    = c <| cn_staged ::= λ s, s ++ concat (answer_bytes <$> out) |> ∧
  (out = [] ∨ out = [SaidAck flags q cs]).
Proof.
  destruct (reply_staged c MSG_OP_ACK flags q (ack_bytes (Ack cs))) as [[] ->].
  - exists [SaidAck flags q cs]. split; [|by right]. cbn. by rewrite app_nil_r.
  - exists []. split; [done|by left].
Qed.

Lemma staged_refusal c cs : ∃ out,
  (reply c MSG_OP_ERR 0 cs (err_bytes (ErrPayload MSG_ERR_NO_REPLICAS 0 0) ++ sub 0 0 [])).2
    = c <| cn_staged ::= λ s, s ++ concat (answer_bytes <$> out) |> ∧
  (out = [] ∨ out = [SaidNoReplicas cs]).
Proof.
  rewrite app_nil_r.
  destruct (reply_staged c MSG_OP_ERR 0 cs (err_bytes (ErrPayload MSG_ERR_NO_REPLICAS 0 0))) as [[] ->].
  - exists [SaidNoReplicas cs]. split; [|by right]. cbn. by rewrite app_nil_r.
  - exists []. split; [done|by left].
Qed.

(** A state that differs in slot [i], which is [c], and in its counters. *)
Record only_slot (l : loop_t) (i : nat) (c : loop_conn_t) (l' : loop_t) : Prop := {
  os_conns : l_conns l' = <[i := c]> (l_conns l);
  os_wal : l_wal l' = l_wal l;
  os_peers : l_peers l' = l_peers l;
  os_tick : l_tick l' = l_tick l;
  os_role : l_is_follower l' = l_is_follower l;
  os_stream : l_stream l' = l_stream l;
  os_dirty : l_wal_dirty l' = l_wal_dirty l }.

Lemma only_slot_on l i c l' f :
  (i < length (l_conns l))%nat → only_slot l i c l' → only_slot l i (f c) (on_slot i f l').
Proof.
  intros Hi [Hc ? ? ? ? ? ?]. constructor; try done. unfold on_slot.
  change (alter f i (l_conns l') = <[i:=f c]> (l_conns l)). rewrite Hc.
  list_ext j. rewrite list_lookup_alter, !list_lookup_insert. repeat case_decide; naive_solver.
Qed.

Lemma only_slot_lookup l i c l' :
  (i < length (l_conns l))%nat → only_slot l i c l' → slot l' i = c.
Proof. intros Hi [Hc _ _ _ _ _ _]. unfold slot. by rewrite Hc, list_lookup_insert_eq. Qed.

Lemma only_slot_counts l i c l' f :
  only_slot l i c l' → only_slot l i c (l' <| l_counts ::= f |>).
Proof. by intros [? ? ? ? ? ? ?]. Qed.

(** What is staged for a slot, and what is owed to it from then on. *)
Definition saying (c : loop_conn_t) (out : list answer) (a b : loop_ack_t) : loop_conn_t :=
  c <| cn_staged ::= λ s, s ++ concat (answer_bytes <$> out) |> <| cn_ack_local := a |>
    <| cn_ack_repl := b |>.

Lemma saying_nil c : saying c [] (cn_ack_local c) (cn_ack_repl c) = c.
Proof. destruct c. unfold saying, upd. cbn. by rewrite app_nil_r. Qed.

Lemma saying_more c o1 o2 a b a' b' :
  saying (saying c o1 a b) o2 a' b' = saying c (o1 ++ o2) a' b'.
Proof. destruct c. unfold saying, upd. cbn. by rewrite fmap_app, concat_app, app_assoc. Qed.

Section emit.
Variables (l : loop_t) (i : nat).
Hypothesis Hi : (i < length (l_conns l))%nat.

Lemma say_ack c l' flags q cs :
  only_slot l i c l' → ∃ out, (∀ P : answer → Prop, P (SaidAck flags q cs) → Forall P out) ∧
    only_slot l i (saying c out (cn_ack_local c) (cn_ack_repl c))
      (ack_count flags (reply_ack i flags q cs l')).
Proof.
  intros Hl. destruct (staged_ack c flags q cs) as (out & E & Hout). exists out. split.
  - intros P HP. destruct Hout as [-> | ->]; [by apply Forall_nil|by apply Forall_singleton].
  - apply only_slot_counts. unfold reply_ack, reply_to.
    apply (only_slot_on l i c l' (λ c, (reply c MSG_OP_ACK flags q (ack_bytes (Ack cs))).2)) in Hl; [|done].
    cbv beta in Hl. rewrite E in Hl. unfold saying.
    match goal with |- only_slot _ _ ?x _ => match type of Hl with only_slot _ _ ?y _ =>
      replace x with y by (by destruct c) end end. exact Hl.
Qed.

Lemma say_refusal c l' cs :
  only_slot l i c l' → ∃ out, (∀ P : answer → Prop, P (SaidNoReplicas cs) → Forall P out) ∧
    only_slot l i (saying c out (cn_ack_local c) (cn_ack_repl c))
      (reply_err i MSG_ERR_NO_REPLICAS cs l').
Proof.
  intros Hl. destruct (staged_refusal c cs) as (out & E & Hout). exists out. split.
  - intros P HP. destruct Hout as [-> | ->]; [by apply Forall_nil|by apply Forall_singleton].
  - unfold reply_err, reply_err_text, reply_to.
    apply (only_slot_counts _ _ _ _ (λ k, k <| ct_refused ::= alter inc (refused_kind MSG_ERR_NO_REPLICAS) |>)) in Hl.
    apply (only_slot_on l i c _ (λ c, (reply c MSG_OP_ERR 0 cs
      (err_bytes (ErrPayload MSG_ERR_NO_REPLICAS 0 0) ++ sub 0 0 [])).2)) in Hl; [|done].
    cbv beta in Hl. rewrite E in Hl. unfold saying.
    match goal with |- only_slot _ _ ?x _ => match type of Hl with only_slot _ _ ?y _ =>
      replace x with y by (by destruct c) end end. exact Hl.
Qed.

End emit.

(** One slot's answers are true and leave nothing owed at the local level. *)
Lemma ack_emit_slot best live l i c :
  l_conns l !! i = Some c → wal_durable_seq (l_wal l) = settled l →
  best = repl_best l →
  owed_below (settled l) (cn_ack_local c) → one_copy (cn_ack_local c) →
  owed_below (settled l) (cn_ack_repl c) →
  ∃ c', only_slot l i c' (ack_emit best live l i) ∧ answered l c c'.
Proof.
  intros Hc Hd Hb Hlo Hone Hre. pose proof (lookup_lt_Some _ _ _ Hc) as Hi.
  assert (only_slot l i c l) as H0 by (constructor; [by rewrite list_insert_id|done..]).
  unfold ack_emit. rewrite (only_slot_lookup _ _ _ _ Hi H0).
  destruct (cn_in_use c) eqn:Huse; cbn [negb].
  2: { exists c. split; [done|]. exists []. rewrite Huse. split_and!; try done; auto. by rewrite app_nil_r. }
  assert (∃ l1 out, l1 = (if oa_due (cn_ack_local c) then
      on_slot i (λ c, c <| cn_ack_local ::= ack_clear |>)
        (ack_count (oa_flags (cn_ack_local c)) (reply_ack i (oa_flags (cn_ack_local c))
           (oa_wal_seq (cn_ack_local c)) (oa_client_seq (cn_ack_local c)) l)) else l) ∧
    Forall (is_right l c) out ∧ only_slot l i (saying c out ack_none (cn_ack_repl c)) l1)
    as (l1 & o1 & <- & Ho1 & Hl1).
  { unfold owed_below in Hlo. destruct (oa_due (cn_ack_local c)) eqn:Hdue.
    - destruct (say_ack l i Hi c l (oa_flags (cn_ack_local c)) (oa_wal_seq (cn_ack_local c))
        (oa_client_seq (cn_ack_local c)) H0) as (out & Ho & Hl1).
      eexists _, out. split; [done|]. split.
      { apply Ho. split; [|by left]. split; [lia|]. intros Hr Hn. by rewrite Hone in Hn. }
      apply (only_slot_on l i _ _ (λ c, c <| cn_ack_local ::= ack_clear |>) Hi) in Hl1. exact Hl1.
    - exists l, []. split; [done|]. split; [by apply Forall_nil|]. rewrite <-Hlo. by rewrite saying_nil. }
  rewrite (only_slot_lookup _ _ _ _ Hi Hl1). set (c1 := saying c o1 ack_none (cn_ack_repl c)) in *.
  change (cn_ack_repl c1) with (cn_ack_repl c).
  assert (∀ l2 o2, Forall (is_right l c) o2 → only_slot l i (saying c1 o2 ack_none (cn_ack_repl c)) l2 →
    ∃ c', only_slot l i c' (on_slot i (λ c, c <| cn_ack_repl ::= ack_clear |>) l2) ∧ answered l c c')
    as Hdone.
  { intros l2 o2 Ho2 Hl2. apply (only_slot_on l i _ _ (λ c, c <| cn_ack_repl ::= ack_clear |>) Hi) in Hl2.
    eexists. split; [exact Hl2|]. exists (o1 ++ o2).
    unfold c1. rewrite saying_more. cbn. split_and!; auto. by apply Forall_app. }
  assert (∃ c', only_slot l i c' l1 ∧ answered l c c') as Hsame.
  { exists c1. split; [done|]. exists o1. cbn. split_and!; auto. }
  destruct (oa_due (cn_ack_repl c)) eqn:Hdue; cbn [negb]; [|done].
  unfold owed_below in Hre. rewrite Hdue in Hre. rewrite (os_wal _ _ _ _ Hl1), (os_tick _ _ _ _ Hl1).
  destruct ((_ <=? best) && _) eqn:Hcov.
  { destruct (say_ack l i Hi c1 l1 (oa_flags (cn_ack_repl c)) (oa_wal_seq (cn_ack_repl c))
      (oa_client_seq (cn_ack_repl c)) Hl1) as (o2 & Ho2 & Hl2).
    eapply Hdone; [apply Ho2|exact Hl2]. split; [|by right]. zb. split; [lia|]. intros _ _ Hpos. destruct (repl_best_from l) as (ps & -> & Hps). apply Hps; lia. }
  destruct (live && _); [done|]. destruct (oa_degradable _).
  - destruct (say_ack l i Hi c1 l1 (Z.lor (oa_flags (cn_ack_repl c)) MSG_FLAG_DEGRADED)
      (oa_wal_seq (cn_ack_repl c)) (oa_client_seq (cn_ack_repl c)) Hl1) as (o2 & Ho2 & Hl2).
    eapply (only_slot_counts _ _ _ _ (λ k, k <| ct_repl_degraded ::= inc |>)) in Hl2.
    eapply Hdone; [apply Ho2|exact Hl2]. split; [|by right].
    split; [lia|]. intros _ Hn. by rewrite has_flag_lor, orb_true_r in Hn.
  - destruct (say_refusal l i Hi c1 l1 (oa_client_seq (cn_ack_repl c)) Hl1) as (o2 & Ho2 & Hl2).
    eapply Hdone; [by apply Ho2|exact Hl2].
Qed.

(** Two states that differ in their slots and counters only. *)
Record same (l l' : loop_t) : Prop := {
  sm_wal : l_wal l' = l_wal l;
  sm_peers : l_peers l' = l_peers l;
  sm_tick : l_tick l' = l_tick l;
  sm_role : l_is_follower l' = l_is_follower l;
  sm_stream : l_stream l' = l_stream l;
  sm_dirty : l_wal_dirty l' = l_wal_dirty l }.

Lemma answered_same l l' c c' : same l l' → answered l' c c' → answered l c c'.
Proof.
  intros [Ew Ep _ _ _ _] (out & Hs & Hf & Hrest). exists out. split; [done|]. split; [|done].
  eapply Forall_impl; [exact Hf|]. intros a [Ht ?]. split; [|done].
  revert Ht. destruct a; cbn; [|done]. by rewrite Ew, Ep.
Qed.

Lemma acks_fold best live l0 todo l :
  owes l0 → wal_durable_seq (l_wal l0) = settled l0 → best = repl_best l0 →
  NoDup todo → same l0 l → (∀ i, i ∈ todo → l_conns l !! i = l_conns l0 !! i) →
  same l0 (foldl (ack_emit best live) l todo) ∧
  (∀ i, i ∉ todo → l_conns (foldl (ack_emit best live) l todo) !! i = l_conns l !! i) ∧
  (∀ i c, i ∈ todo → l_conns l0 !! i = Some c → ∃ c',
     l_conns (foldl (ack_emit best live) l todo) !! i = Some c' ∧ answered l0 c c').
Proof.
  intros Ho Hd Hb. revert l. induction todo as [|i todo IH]; intros l Hnd Hsm Heq; cbn [foldl].
  { split_and!; [done..|]. by intros i c ?%elem_of_nil. }
  apply NoDup_cons in Hnd as [Hi Hnd].
  assert (same l0 (ack_emit best live l i) ∧
    (∀ j, j ≠ i → l_conns (ack_emit best live l i) !! j = l_conns l !! j) ∧
    (∀ c, l_conns l0 !! i = Some c → ∃ c', l_conns (ack_emit best live l i) !! i = Some c' ∧
       answered l0 c c')) as (Hsm' & Hoth & Hthis).
  { destruct (l_conns l !! i) as [c|] eqn:Hc.
    - assert (l_conns l0 !! i = Some c) as Hc0 by (rewrite <-Heq; [done|by left]).
      destruct (ow_acks _ Ho _ _ Hc0) as (? & ? & ?).
      assert (settled l = settled l0) as Es by (unfold settled; by rewrite (sm_wal _ _ Hsm)).
      assert (repl_best l = repl_best l0) as Eb by (unfold repl_best; by rewrite (sm_peers _ _ Hsm)).
      destruct (ack_emit_slot best live l i c) as (c' & [Hcs Hw Hp Ht Hr Hst Hdy] & Hans);
        rewrite ?Es, ?Eb, ?(sm_wal _ _ Hsm); try done.
      split; [|split].
      + destruct Hsm. constructor; congruence.
      + intros j Hj. by rewrite Hcs, list_lookup_insert_ne.
      + intros c2 Hc2. rewrite Hc0 in Hc2. injection Hc2 as <-. exists c'.
        split; [|by eapply answered_same]. rewrite Hcs, list_lookup_insert_eq; [done|by eapply lookup_lt_Some].
    - assert (ack_emit best live l i = l) as ->.
      { unfold ack_emit, slot. by rewrite Hc. }
      split_and!; [done..|]. intros c Hc0. rewrite <-Heq, Hc in Hc0 by (by left). done. }
  destruct (IH (ack_emit best live l i)) as (Hs2 & Ho2 & Ha2); [done..| |].
  { intros j Hj. rewrite Hoth; [apply Heq; by right|by intros ->]. }
  split_and!; [done| |].
  - intros j [Hj ?]%not_elem_of_cons. rewrite Ho2 by done. by apply Hoth.
  - intros j c [->|Hj]%elem_of_cons Hc; [|by apply Ha2].
    rewrite Ho2 by done. by apply Hthis.
Qed.

(** All the slots: each has been told the truth, and nothing more. *)
Lemma acks_emit_true l :
  books_settled l → same l (acks_emit l) ∧
  ∀ i c, l_conns l !! i = Some c → ∃ c',
    l_conns (acks_emit l) !! i = Some c' ∧ answered l c c'.
Proof.
  intros [Ho Hd]. destruct (acks_fold (repl_best l) (repl_live l) l slots l) as (Hs & _ & Ha);
    try done; [apply NoDup_seq|].
  split; [done|]. intros i c Hc. apply Ha; [|done].
  apply (ow_slots _ Ho) in Hc. apply elem_of_seq. lia.
Qed.

(** ** Between passes *)

(** The log is flushed, and no connection in use is owed anything at the
    local level. *)
Record at_rest (l : loop_t) : Prop := {
  ar_books : books_settled l;
  ar_said : ∀ i c, l_conns l !! i = Some c → cn_in_use c = true → cn_ack_local c = ack_none }.

Lemma keeps_books l l' : keeps l l' → books_settled l → books_settled l'.
Proof.
  intros Hk [Ho Hd]. destruct (keeps_owes _ _ Hk Ho) as [Ho' En]. split; [done|].
  rewrite En. unfold wal_durable_seq in *. by rewrite (kp_wal _ _ Hk).
Qed.

Lemma keeps_rest l l' : keeps l l' → at_rest l → at_rest l'.
Proof.
  intros Hk [Hb Hl]. constructor; [by eapply keeps_books|..].
  - intros i c' (c & Hc & Ha)%(kp_acks _ _ Hk) Hu. destruct Ha as [[= -> _ Hu']|[? _]]; [|done].
    eapply Hl; [done|congruence].
Qed.

Lemma answered_owed l c c' m :
  answered l c c' → owed_below m (cn_ack_local c) → one_copy (cn_ack_local c) →
  owed_below m (cn_ack_repl c) →
  owed_below m (cn_ack_local c') ∧ one_copy (cn_ack_local c') ∧ owed_below m (cn_ack_repl c').
Proof. intros (_ & _ & _ & _ & _ & [-> | ->] & [-> | ->]) ? ? ?; by split_and!. Qed.

Lemma same_settled l l' : same l l' → settled l' = settled l.
Proof. intros Hs. unfold settled. by rewrite (sm_wal _ _ Hs). Qed.

(** The slots after the answers come from the slots before them. *)
Lemma acks_emit_conns l i c' : l_conns (acks_emit l) !! i = Some c' → ∃ c, l_conns l !! i = Some c.
Proof.
  unfold acks_emit. generalize (repl_best l), (repl_live l). intros b v.
  assert (∀ todo l, l_conns (foldl (ack_emit b v) l todo) !! i = Some c' → is_Some (l_conns l !! i)) as Hf.
  { induction todo as [|j todo IH]; intros l1; cbn; [eauto|]. intros Hc%IH. revert Hc.
    unfold ack_emit. intros Hc.
    assert (∀ f l2, is_Some (l_conns (on_slot j f l2) !! i) → is_Some (l_conns l2 !! i)) as Hon.
    { intros f l2. unfold on_slot. cbn. rewrite list_lookup_alter. case_decide; [subst|done].
      by rewrite fmap_is_Some. }
    destruct (negb (cn_in_use _)); [done|].
    destruct (oa_due (cn_ack_local _)).
    all: repeat match goal with
      | H : context [if ?b then _ else _] |- _ => destruct b
      | H : is_Some (l_conns (on_slot _ _ _) !! _) |- _ => apply Hon in H
      | H : is_Some (l_conns (ack_count _ _) !! _) |- _ => unfold ack_count in H
      | H : is_Some (l_conns (reply_ack _ _ _ _ _) !! _) |- _ => unfold reply_ack, reply_to in H
      | H : is_Some (l_conns (reply_err _ _ _ _) !! _) |- _ =>
          unfold reply_err, reply_err_text, reply_to in H
      | H : is_Some (l_conns (upd l_counts _ ?l2) !! ?x) |- _ => change (is_Some (l_conns l2 !! x)) in H
      end; done. }
  intros Hc. by apply Hf in Hc as [c ?]; exists c.
Qed.

Lemma emit_rest l : books_settled l → at_rest (acks_emit l).
Proof.
  intros Hb. destruct (acks_emit_true l Hb) as [Hsm Ha]. destruct Hb as [Ho Hd].
  pose proof (same_settled _ _ Hsm) as Es.
  assert (∀ i c', l_conns (acks_emit l) !! i = Some c' → ∃ c, l_conns l !! i = Some c ∧ answered l c c') as Hfrom.
  { intros i c' Hc'. destruct (acks_emit_conns _ _ _ Hc') as [c Hc]. exists c. split; [done|].
    destruct (Ha i c Hc) as (c2 & Hc2 & ?). congruence. }
  constructor.
  - split; [|by rewrite (sm_wal _ _ Hsm)].
    constructor; rewrite ?Es, ?(sm_wal _ _ Hsm), ?(sm_role _ _ Hsm), ?(sm_stream _ _ Hsm), ?(sm_dirty _ _ Hsm);
      try apply Ho.
    { intros i c' (c & Hc & _)%Hfrom. by eapply (ow_slots _ Ho). }
    intros i c' (c & Hc & Hans)%Hfrom. destruct (ow_acks _ Ho _ _ Hc) as (? & ? & ?).
    by eapply answered_owed.
  - intros i c' (c & Hc & (_ & _ & _ & Hu & Hl & _))%Hfrom Hin. apply Hl. congruence.
Qed.

Section whole.
Context {K : Type} `{Sys K}.

Lemma rest_owes l : at_rest l → owes (l <| l_wal_dirty := false |>).
Proof. intros [[[Hw Hl Hs Hp Hm Ha] Hd] _]. constructor; try done. Qed.

(** Events and the flush, from a state at rest. *)
Lemma wp_gather l scr evs (k : K) :
  at_rest l → wal_next_seq (l_wal l) + EVENT_RECORDS * zlen evs < 2 ^ 64 →
  wp (l1 ← tick_events (l <| l_wal_dirty := false |>) scr evs; tick_flush l1)
    (λ x _, result_ok x.1 = true → books_settled x.2) k.
Proof.
  intros Hr Hn. eapply wp_call; [apply wp_events_adv|]. cbv beta. intros l1 k1 H1.
  destruct H1 as [Ho _]; [by apply rest_owes|done|].
  eapply wp_mono; [by apply wp_tick_flush|]. intros x k2 Hx Hok. by apply Hx.
Qed.

(** A leader's arm phase touches slots only. *)
Lemma wp_arm_all l (k : K) :
  owes l → wp (arm_all l) (λ l' _, keeps l l') k.
Proof.
  intros Ho. unfold arm_all.
  eapply (wp_call _ (λ l' _, l' = l)).
  { unfold repl_dial. rewrite (ow_leader _ Ho). by apply wp_ret. }
  cbv beta. intros ? k1 ->. eapply wp_call; [by apply wp_arm_slots|]. cbv beta. intros l2 k2 H2.
  unfold arm_stream. rewrite (kp_stream _ _ H2).
  rewrite (proj2 (Z.ltb_lt _ _) (proj1 (ow_stream _ Ho))). by apply wp_ret.
Qed.

Lemma keeps_next l l' : keeps l l' → wal_next_seq (l_wal l') = wal_next_seq (l_wal l).
Proof. intros Hk. unfold wal_next_seq. by rewrite (kp_wal _ _ Hk). Qed.

Lemma wp_tick_serve l n (k : K) :
  books_settled l →
  wp (tick_serve l n) (λ l' _, at_rest l' ∧ wal_next_seq (l_wal l') = wal_next_seq (l_wal l)) k.
Proof.
  intros Hb. pose proof (emit_rest _ Hb) as Hr. unfold tick_serve.
  rewrite (ow_leader _ (proj1 (ar_books _ Hr))).
  eapply (wp_call _ (λ l' _, keeps (acks_emit l) l')); [by apply wp_stream_slots|].
  cbv beta. intros l1 k1 H1.
  eapply (wp_call _ (λ l' _, keeps (acks_emit l) l')); [by apply wp_push_slots|].
  cbv beta. intros l2 k2 H2.
  eapply wp_mono; [by apply kept_retain_pass|].
  cbv beta. intros l3 k3 H3. split; [by eapply keeps_rest|].
  rewrite (keeps_next _ _ H3). unfold wal_next_seq. by rewrite (sm_wal _ _ (proj1 (acks_emit_true _ Hb))).
Qed.

End whole.

(** The most records one pass can append. *)
Definition PASS_RECORDS : Z := EVENT_RECORDS * MAX_EVENTS.

Section passes.
Context {K : Type} `{SysLaws K}.

Lemma wp_tick_rest l wait scratch (k : K) :
  at_rest l → wal_next_seq (l_wal l) + PASS_RECORDS < 2 ^ 64 →
  wp (loop_tick l wait scratch) (λ x _, result_ok x.1 = true → at_rest x.2 ∧
    wal_next_seq (l_wal l) <= wal_next_seq (l_wal x.2) <= wal_next_seq (l_wal l) + PASS_RECORDS) k.
Proof.
  intros Hrest Hroom. unfold PASS_RECORDS in *.
  unfold loop_tick. eapply wp_call; [apply wp_arm_all, Hrest|]. cbv beta. intros l1 k1 H1.
  apply (keeps_rest _ _ H1) in Hrest as Hr1. pose proof (keeps_next _ _ H1) as En.
  cbv zeta. unfold os_epoll_wait. apply wp_bind.
  call law_epoll_wait as [r evs] k2 [_ Hev]. apply wp_ret. cbn [fst snd] in Hev.
  destruct (sys_is_err r) eqn:Herr; [apply wp_ret; done|]. cbn [result_ok r_code RESULT_OK Z.eqb negb].
  assert (zlen (sub 0 (i32 r) evs) <= MAX_EVENTS) as Hlen.
  { destruct Hev as [Hf|[Hr Hl]]; [unfold failed in Hf; congruence|].
    rewrite length_sub. unfold MAX_EVENTS in *. cbn in Hr |- *. lia. }
  set (l2 := l1 <| l_progress := false |>).
  assert (at_rest l2) as Hr2 by (eapply keeps_rest; [|exact Hr1]; by apply keeps_same).
  assert (EVENT_RECORDS * zlen (sub 0 (i32 r) evs) <= EVENT_RECORDS * MAX_EVENTS) as Hm.
  { apply Z.mul_le_mono_nonneg_l; [unfold EVENT_RECORDS, LOOP_RECV_CAP; lia|done]. }
  eapply wp_call; [apply wp_events_adv|]. cbv beta. intros l3 k3 H3.
  change (l_wal (l2 <| l_wal_dirty := false |>)) with (l_wal l1) in H3. unfold adv in H3.
  change (l_wal (l2 <| l_wal_dirty := false |>)) with (l_wal l1) in H3. rewrite En in H3.
  destruct H3 as [Ho3 Hn3]; [by apply rest_owes|lia|].
  eapply wp_call; [by apply wp_tick_flush|]. cbv beta. intros [r4 l4] k4 H4. cbn [fst snd] in H4.
  destruct (result_ok r4) eqn:Hr4; cbn [negb]; [|apply wp_ret; cbn; congruence].
  destruct H4 as [Hb4 Hn4]; [done|].
  eapply wp_call; [by apply wp_tick_serve|]. cbv beta. intros l5 k5 [H5 Hn5].
  eapply wp_call; [apply wp_arm_all, H5|]. cbv beta. intros l6 k6 H6.
  apply wp_ret. intros _. cbn [fst snd]. split; [by eapply keeps_rest|].
  rewrite (keeps_next _ _ H6). lia.
Qed.

Lemma wp_run_rest passes l scratch (k : K) :
  at_rest l → wal_next_seq (l_wal l) + Z.of_nat passes * PASS_RECORDS < 2 ^ 64 →
  wp (loop_run passes l scratch) (λ x _, ∀ r l', x = Some (r, l') → result_ok r = true →
    at_rest l' ∧ wal_next_seq (l_wal l) <= wal_next_seq (l_wal l')) k.
Proof.
  revert l k. induction passes as [|passes IH]; intros l k Hr Hn; cbn [loop_run];
    (destruct (l_stop l); [apply wp_ret; intros ? ? [= <- <-] _; split; [done|lia]|]).
  { by apply wp_ret. }
  assert (0 <= PASS_RECORDS) by (unfold PASS_RECORDS, EVENT_RECORDS, LOOP_RECV_CAP, MAX_EVENTS; lia).
  eapply wp_call; [apply (wp_tick_rest l); [done|nia]|]. cbv beta. intros [r1 l1] k1 Hx. cbn [fst snd] in Hx.
  destruct (result_ok r1) eqn:Hr1; cbn [negb]; [|apply wp_ret; intros ? ? [= <- <-]; congruence].
  destruct Hx as [Hr1' Hn1]; [done|]. eapply wp_mono; [apply IH; [done|nia]|].
  cbv beta. intros x k2 Hx r' l' E Hok. destruct (Hx r' l' E Hok). split; [done|lia].
Qed.

End passes.

Module LoopProps.
Import Os.Sim.

(** A leader with one segment and one client, whose handshake and first write
    are waiting to be read. *)
Definition demo_wal : wal_t := Wal 4 512 (seg_reset 5 4 1 512) [1] wal_index_init.

Definition demo_frames : list byte :=
  header_bytes (msg_header_new MSG_OP_HELLO MSG_RECORD_NONE 0 16 0 0) ++ hello_bytes (Hello 0 0 0 0)
  ++ header_bytes (msg_header_new MSG_OP_WRITE 1 (Z.lor MSG_FLAG_ACK_REQ MSG_FLAG_SYNC) 3 7 1)
  ++ bytes_of [1; 2; 3].

Definition demo_events : list (Z * Z) := [(UD_MAKE OP_CONN 0, EPOLLIN)].

Definition demo : sim :=
  MkSim (Fsys {[0%nat := Inode (zeros 512) (Some <$> zeros 512)]}
    {[cstr (wal_seg_name 1) := 0%nat]} (Disk {[cstr (wal_seg_name 1) := 0%nat]} [])
    {[4 := FDir []; 5 := FFile 0; 9 := FOther]}) 10 1 [77] 0 []
    (Net [demo_events] [(9, demo_frames)]).

Definition demo_loop : loop_t :=
  (loop_zero demo_wal session_table_init) <| l_conns ::= alter (λ c,
    c <| cn_in_use := true |> <| cn_fd := 9 |>
      <| cn_conn := conn_init (zeros LOOP_RECV_CAP) LOOP_RECV_CAP CONN_MODE_CLIENT |>) 0%nat |>.

Lemma demo_at_rest : at_rest demo_loop.
Proof.
  assert (∀ i c, l_conns demo_loop !! i = Some c →
    (i < LOOP_MAX_CONNS)%nat ∧ cn_ack_local c = ack_none ∧ cn_ack_repl c = ack_none) as Hc.
  { intros i c Hi. change (alter (λ c, c <| cn_in_use := true |> <| cn_fd := 9 |>
      <| cn_conn := conn_init (zeros LOOP_RECV_CAP) LOOP_RECV_CAP CONN_MODE_CLIENT |>) 0%nat
      (replicate LOOP_MAX_CONNS (slot_free (zeros LOOP_RECV_CAP))) !! i = Some c) in Hi.
    rewrite list_lookup_alter in Hi. case_decide.
    - subst i. split; [unfold LOOP_MAX_CONNS; lia|]. by injection Hi as <-.
    - apply lookup_replicate in Hi as [-> ?]. done. }
  constructor; [split; [constructor|]|]; try done.
  - intros i c Hi. by apply (Hc i c).
  - intros i c Hi. destruct (Hc i c Hi) as (_ & -> & ->). done.
  - intros i c Hi _. by apply (Hc i c).
Qed.

(** C7. An acknowledgement is never sent before it is true: when a pass of a
    leader has handled its events and flushed, every acknowledgement it then
    stages for a connection names a sequence the log has made durable, and one
    that reports a second copy names a sequence an attached replica has
    confirmed; nothing but such acknowledgements and refusals is staged. *)
Theorem acks_are_true {K : Type} `{Sys K} (l : loop_t) (scratch : list byte)
    (evs : list (Z * Z)) (k : K)
    (Hrest : at_rest l) (Hroom : wal_next_seq (l_wal l) + EVENT_RECORDS * zlen evs < 2 ^ 64) :
  wp (l1 ← tick_events (l <| l_wal_dirty := false |>) scratch evs; tick_flush l1)
    (λ x _, result_ok x.1 = true →
       ∀ i c, l_conns x.2 !! i = Some c → ∃ c' out,
         l_conns (acks_emit x.2) !! i = Some c' ∧
         cn_staged c' = cn_staged c ++ concat (answer_bytes <$> out) ∧
         Forall (is_true x.2) out) k.
Proof.
  eapply wp_mono; [by apply wp_gather|]. intros x k' Hx Hok i c Hc.
  destruct (acks_emit_true _ (Hx Hok)) as [_ Ha].
  destruct (Ha i c Hc) as (c' & Hc' & (out & ? & Hr & _)). exists c', out. split_and!; [done..|].
  eapply Forall_impl; [exact Hr|]. by intros a [? _].
Qed.

Lemma acks_are_true_witness :
  wp (l1 ← tick_events (demo_loop <| l_wal_dirty := false |>) (zeros 256) demo_events; tick_flush l1)
    (λ x _, result_ok x.1 = true →
       ∀ i c, l_conns x.2 !! i = Some c → ∃ c' out,
         l_conns (acks_emit x.2) !! i = Some c' ∧
         cn_staged c' = cn_staged c ++ concat (answer_bytes <$> out) ∧
         Forall (is_true x.2) out) demo ∧
  (let '((r, l), _) := (l1 ← tick_events (demo_loop <| l_wal_dirty := false |>) (zeros 256) demo_events;
                        tick_flush l1) demo in
   result_ok r && bool_decide (cn_staged (slot (acks_emit l) 0) =
     cn_staged (slot l 0) ++ answer_bytes (SaidAck 3 1 1))) = true.
Proof.
  split; [|vm_compute; reflexivity].
  exact (acks_are_true demo_loop (zeros 256) demo_events demo demo_at_rest
    ltac:(vm_compute; reflexivity)).
Defined.

(** C18. A pass leaves nothing unsaid: from a leader at rest a whole pass,
    whatever the kernel reports and however its calls fail, ends in an error
    or in a state at rest again, where the log is flushed to its last record,
    no connection in use is owed an answer its own flush could give, and what
    is owed for a second copy names a record of the log. *)
Theorem pass_ends_at_rest {K : Type} `{SysLaws K} (l : loop_t) (wait : bool)
    (scratch : list byte) (k : K)
    (Hrest : at_rest l)
    (Hroom : wal_next_seq (l_wal l) + PASS_RECORDS < 2 ^ 64) :
  wp (loop_tick l wait scratch) (λ x _, result_ok x.1 = true → at_rest x.2) k.
Proof. eapply wp_mono; [by apply wp_tick_rest|]. intros x k' Hx Hok. by apply Hx. Qed.

Lemma pass_ends_at_rest_witness :
  wp (loop_tick demo_loop true (zeros 256)) (λ x _, result_ok x.1 = true → at_rest x.2) demo ∧
  (let '((r, l), s) := loop_tick demo_loop true (zeros 256) demo in
   result_ok r && (wal_durable_seq (l_wal l) =? 1) && (length (s_sent s) =? 1)%nat) = true.
Proof.
  split; [|vm_compute; reflexivity].
  exact (pass_ends_at_rest demo_loop true (zeros 256) demo demo_at_rest ltac:(vm_compute; reflexivity)).
Defined.

End LoopProps.
