(* ===== verification/LoopRecv.v ===== *)
(** * What the server makes of the bytes it receives

    The composition of the framing layer and the handlers: after a receive
    the loop runs its handlers over the frames the stream parser finds in the
    bytes, in order and once each, touches the slot of that connection only,
    and comes to an end. *)

From S2P Require Import Prelude Core Crc32c Fmt Msg Conn Record Index Os Session Segment Wal Cursor.
From S2P Require Import LoopState LoopFrames LoopServe Metrics LoopTick LoopSpec.
Import Stream.

(** ** One connection's slot *)

(** Only slot [i] differs, and not in its connection. *)
Record fed (i : nat) (l l' : loop_t) : Prop := {
  fd_conn : cn_conn <$> l_conns l' !! i = cn_conn <$> l_conns l !! i;
  fd_others : ∀ j, j ≠ i → l_conns l' !! j = l_conns l !! j }.

#[export] Instance fed_preorder i : PreOrder (fed i).
Proof.
  split; [by constructor|]. intros a b c [? Hab] [? Hbc]. constructor; [congruence|].
  intros j Hj. by rewrite Hbc, Hab.
Qed.

Lemma fed_same i l0 l l' : l_conns l' = l_conns l → fed i l0 l → fed i l0 l'.
Proof. intros E Hl. etrans; [exact Hl|]. by constructor; intros; rewrite E. Qed.

Lemma fed_slot i l0 l f :
  (∀ c, cn_conn (f c) = cn_conn c) → fed i l0 l → fed i l0 (on_slot i f l).
Proof.
  intros Hf Hl. etrans; [exact Hl|]. unfold on_slot. constructor; cbn.
  - rewrite list_lookup_alter, decide_True by done. destruct (l_conns l !! i); [|done]. cbn. by rewrite Hf.
  - intros j Hj. by rewrite list_lookup_alter, decide_False by done.
Qed.

Lemma conn_reply c op flags q p : cn_conn (reply c op flags q p).2 = cn_conn c.
Proof. unfold reply. by destruct (_ <? _). Qed.

Lemma fed_reply_to i l0 l op flags q p : fed i l0 l → fed i l0 (reply_to i op flags q p l).
Proof. apply fed_slot. intros. apply conn_reply. Qed.
Lemma fed_err_text i l0 l code q t : fed i l0 l → fed i l0 (reply_err_text i code q t l).
Proof. intros. apply fed_reply_to. by eapply fed_same; [|eassumption]. Qed.
Lemma fed_err i l0 l code q : fed i l0 l → fed i l0 (reply_err i code q l).
Proof. apply fed_err_text. Qed.
Lemma fed_close_slot i l0 l : fed i l0 l → fed i l0 (close_slot i l).
Proof. by apply fed_slot. Qed.
Lemma fed_on_sub i l0 l f : fed i l0 l → fed i l0 (on_sub i f l).
Proof. by apply fed_slot. Qed.
Lemma fed_reply_ack i l0 l f q s : fed i l0 l → fed i l0 (reply_ack i f q s l).
Proof. apply fed_reply_to. Qed.
Lemma fed_floor i l0 l : fed i l0 l → fed i l0 (retain_floor_update l).
Proof.
  apply fed_same. unfold retain_floor_update. destruct (_ <=? _); [done|].
  destruct (foldl _ _ _) as [live floor]. by repeat case_match.
Qed.
Lemma fed_ack_write i l0 l flags wants deg cs ws :
  fed i l0 l → fed i l0 (ack_write i flags wants deg cs ws l).
Proof.
  intros. unfold ack_write. destruct (negb wants); [by apply fed_slot|].
  destruct (negb _); [|by apply fed_slot].
  match goal with |- fed _ _ (upd _ _ ?l1) => apply (fed_same i l0 l1); [done|] end. by apply fed_slot.
Qed.

#[export] Hint Resolve fed_reply_to fed_err_text fed_err fed_close_slot fed_on_sub fed_reply_ack
  fed_floor fed_ack_write : keeps.
#[export] Hint Extern 1 (fed _ _ _) =>
  lazymatch goal with
  | |- fed ?i ?a (@upd _ _ _ _ _ ?l) => apply (fed_same i a l); [reflexivity|]
  | |- fed ?i ?a (on_peer _ _ ?l) => apply (fed_same i a l); [reflexivity|]
  | |- fed _ _ (if ?b then _ else _) => destruct b
  end : keeps.
#[export] Hint Extern 2 (fed _ _ (on_slot _ _ _)) => (apply fed_slot; [intros; reflexivity|]) : keeps.
#[export] Hint Extern 0 (fed _ ?l ?l) => reflexivity : keeps.

Section fed.
Context {K : Type} `{Sys K}.
Variables (i : nat) (l0 : loop_t).

Lemma fed_arm_timer l (k : K) : fed i l0 l → wp (arm_timer_now l) (λ l' _, fed i l0 l') k.
Proof. intros. unfold arm_timer_now. keep_all. Qed.
Hint Resolve fed_arm_timer : keeps.

Lemma fed_hello l h p n (k : K) : fed i l0 l → wp (handle_hello l i h p n) (λ l' _, fed i l0 l') k.
Proof. intros. unfold handle_hello. keep_all. Qed.

Lemma fed_write l h p n scr (k : K) :
  fed i l0 l → wp (handle_write l i h p n scr) (λ l' _, fed i l0 l') k.
Proof. intros. unfold handle_write. keep_all. Qed.

Lemma fed_subscribe l h p n s (k : K) :
  fed i l0 l → wp (handle_subscribe l i h p n s) (λ l' _, fed i l0 l') k.
Proof. intros. unfold handle_subscribe. keep_all. Qed.

Lemma fed_read l h p n s (k : K) : fed i l0 l → wp (handle_read l i h p n s) (λ l' _, fed i l0 l') k.
Proof. intros. unfold handle_read. keep_all. Qed.

Lemma fed_repl_start l h s (k : K) :
  fed i l0 l → wp (handle_repl_start l i h s) (λ l' _, fed i l0 l') k.
Proof. intros. unfold handle_repl_start. keep_all. Qed.
Hint Resolve fed_hello fed_write fed_subscribe fed_read fed_repl_start : keeps.

Lemma fed_frame l h p n scr (k : K) :
  fed i l0 l → wp (handle_frame l i h p n scr) (λ l' _, fed i l0 l') k.
Proof. intros. unfold handle_frame. keep_all. Qed.
Hint Resolve fed_frame : keeps.

Lemma fed_action l scr a (k : K) : fed i l0 l → wp (do_action l i scr a) (λ l' _, fed i l0 l') k.
Proof. intros. unfold do_action. keep_all. Qed.
Hint Resolve fed_action : keeps.

Lemma fed_actions acts l scr (k : K) :
  fed i l0 l → wp (do_actions l i scr acts) (λ l' _, fed i l0 l') k.
Proof. revert l k. induction acts as [|a acts IH]; intros l k Hl; cbn [do_actions]; keep_all. Qed.

End fed.

(** ** A receive as steps *)

Section serve.
Context {K : Type} `{Sys K} (i : nat) (scratch : list byte).

(** [acts] are the actions the handlers are run on, one after another; in
    between the connection's parse position moves, its bytes do not. *)
Inductive served : list conn_action_t → loop_t → K → loop_t → K → Prop :=
| served_end l k : served [] l k l k
| served_parse acts conn l k l' k' :
    c_buf conn = c_buf (cn_conn (slot l i)) →
    served acts (on_slot i (λ c, c <| cn_conn := conn |>) l) k l' k' → served acts l k l' k'
| served_act a acts l k l1 k1 l' k' :
    do_action l i scratch a k = (l1, k1) → served acts l1 k1 l' k' → served (a :: acts) l k l' k'.

Lemma served_acts acts more l k l1 k1 l' k' :
  do_actions l i scratch acts k = (l1, k1) → served more l1 k1 l' k' →
  served (acts ++ more) l k l' k'.
Proof.
  revert l k. induction acts as [|a acts IH]; intros l k; cbn [do_actions app].
  { by intros [= <- <-]. }
  intros Hd Hs. unfold mbind, M_bind in Hd. destruct (do_action l i scratch a k) as [l2 k2] eqn:Ha.
  eapply served_act; [exact Ha|]. by eapply IH.
Qed.

Lemma slot_at l : (i < length (l_conns l))%nat → l_conns l !! i = Some (slot l i).
Proof. intros Hi. apply lookup_lt_is_Some_2 in Hi as [c Hc]. unfold slot. by rewrite Hc. Qed.

Lemma fed_slot_conn l l' :
  (i < length (l_conns l))%nat → fed i l l' →
  (i < length (l_conns l'))%nat ∧ cn_conn (slot l' i) = cn_conn (slot l i).
Proof.
  intros Hi [Hc _]. rewrite (slot_at l Hi) in Hc. cbn in Hc.
  destruct (l_conns l' !! i) as [c|] eqn:E; [|done]. cbn in Hc.
  split; [by eapply lookup_lt_Some|]. unfold slot at 1. rewrite E. cbn. congruence.
Qed.

Lemma slot_on_self l f : (i < length (l_conns l))%nat → slot (on_slot i f l) i = f (slot l i).
Proof.
  intros Hi. unfold slot, on_slot. cbn. rewrite list_lookup_alter, decide_True by done.
  by rewrite (slot_at l Hi).
Qed.

(** The events still to come from a connection, and what it is left as. *)
Definition upcoming (c : conn_t) : list event * st := parse_all (c_buf_cap c) (ordered c) (abs c).

Lemma recv_loop_serves fuel l (k : K) :
  (i < length (l_conns l))%nat → conn_wf (cn_conn (slot l i)) →
  (length (upcoming (cn_conn (slot l i))).1 < fuel)%nat →
  ∃ acts rest l' k',
    recv_loop fuel l i scratch k = (l', k') ∧ served acts l k l' k' ∧
    (∀ j, j ≠ i → l_conns l' !! j = l_conns l !! j) ∧
    (upcoming (cn_conn (slot l i))).1 = events (c_buf (cn_conn (slot l i))) acts ++ rest ∧
    (cn_closing (slot l' i) = true ∨
     rest = [] ∧ abs (cn_conn (slot l' i)) = (upcoming (cn_conn (slot l i))).2).
Proof.
  revert l k. induction fuel as [|fuel IH]; intros l k Hi Hwf Hf; [lia|]. cbn [recv_loop].
  set (c := cn_conn (slot l i)) in *.
  destruct (conn_feed c 8) as [acts c1] eqn:Hfeed.
  destruct (feed_takes c 8 acts c1 Hwf ltac:(lia) Hfeed) as (Hwf1 & E1 & E2 & E4 & Hall & Hne).
  set (l1 := on_slot i (λ c, c <| cn_conn := c1 |>) l).
  assert (i < length (l_conns l1))%nat as Hi1 by (unfold l1, on_slot; cbn; by rewrite length_alter).
  assert (cn_conn (slot l1 i) = c1) as Hs1 by (unfold l1; by rewrite slot_on_self).
  assert (∀ j, j ≠ i → l_conns l1 !! j = l_conns l !! j) as Ho1.
  { intros j Hj. unfold l1, on_slot. cbn. by rewrite list_lookup_alter, decide_False. }
  destruct acts as [|a acts].
  { rewrite decide_True in Hne by done. exists [], [], l1, k. split_and!; [done| |done| |].
    - apply served_parse with c1; [done|]. apply served_end.
    - unfold upcoming. by rewrite Hne.
    - right. split; [done|]. unfold upcoming. by rewrite Hs1, Hne. }
  rewrite decide_False in Hne by done. set (as_ := a :: acts) in *. clearbody as_.
  pose proof (fed_actions i l1 as_ l1 scratch k ltac:(reflexivity)) as (l2 & k2 & Hd & Hfed)%wp_elim.
  destruct (fed_slot_conn l1 l2 Hi1 Hfed) as [Hi2 Hs2]. rewrite Hs1 in Hs2.
  assert (∀ j, j ≠ i → l_conns l2 !! j = l_conns l !! j) as Ho2.
  { intros j Hj. rewrite (fd_others _ _ _ Hfed) by done. by apply Ho1. }
  unfold mbind, M_bind. rewrite Hd.
  unfold upcoming in Hf |- *. rewrite Hall in Hf |- *.
  destruct (parse_all (c_buf_cap c1) (ordered c1) (abs c1)) as [e2 s2] eqn:Hp1. cbn [fst snd] in *.
  rewrite length_app in Hf.
  destruct (cn_closing (slot l2 i)) eqn:Hcl.
  { exists as_, e2, l2, k2. split_and!; [done| |done|done|by left].
    apply served_parse with c1; [done|]. rewrite <-(app_nil_r as_).
    eapply served_acts; [exact Hd|apply served_end]. }
  destruct (IH l2 k2) as (more & rest & l' & k' & Hrun & Hserved & Ho & Hev & Hend).
  { done. }
  { by rewrite Hs2. }
  { unfold upcoming. rewrite Hs2, Hp1. cbn. lia. }
  unfold upcoming in Hev, Hend. rewrite Hs2, Hp1 in Hev, Hend. cbn [fst snd] in Hev, Hend.
  exists (as_ ++ more), rest, l', k'. split_and!; [done| | | |done].
  - apply served_parse with c1; [done|]. by eapply served_acts.
  - intros j Hj. by rewrite Ho, Ho2.
  - rewrite Hev, E1, app_assoc. f_equal. unfold events. by rewrite omap_app.
Qed.

End serve.

(** ** From the socket to the handlers *)

(** What was received follows what was pending. *)
Lemma commit_received c res bs :
  conn_wf c → 0 < res <= conn_recv_space c → zlen bs = res →
  let c1 := (conn_recv_commit (conn_receive res bs c) res).2 in
  conn_wf c1 ∧ c_buf_cap c1 = c_buf_cap c ∧ c_mode c1 = c_mode c ∧ abs c1 = extend (abs c) bs.
Proof.
  intros (Hb & Hcap & Hoff & Hlen & Hcl) Hres Hbs. unfold conn_recv_space in Hres.
  unfold conn_recv_commit, conn_receive, conn_recv_ptr. cbn.
  rewrite (sub_all bs) by lia. rewrite (proj2 (Z.leb_gt _ _)), orb_false_r by lia.
  assert (∀ len, len <= c_buf_len c → c_buf_off c <= len →
    sub (c_buf_off c) (len - c_buf_off c) (blit (c_buf c) (c_buf_len c) bs)
      = sub (c_buf_off c) (len - c_buf_off c) (c_buf c)) as Hkeep.
  { intros len Hl Ho. apply sub_blit_out; lia. }
  destruct (c_closed c) eqn:Hc; cbn.
  - split_and!; try done.
    + unfold conn_wf; cbn. rewrite length_blit by lia. split_and!; try done; try lia.
    + unfold abs, extend, pending; cbn. rewrite Hc. cbn. by rewrite Hkeep by lia.
  - rewrite (proj2 (Z.ltb_ge _ _)) by lia. cbn. split_and!; try done.
    + unfold conn_wf; cbn. rewrite length_blit by lia. split_and!; try done; try lia. congruence.
    + unfold abs, extend, pending; cbn. rewrite Hc. cbn. f_equal.
      replace (c_buf_len c + res - c_buf_off c) with (c_buf_len c - c_buf_off c + res) by lia.
      rewrite sub_split by lia. rewrite Hkeep by lia. f_equal.
      replace (c_buf_off c + (c_buf_len c - c_buf_off c)) with (c_buf_len c) by lia.
      rewrite <-Hbs. apply sub_blit_same; lia.
Qed.

Lemma upcoming_idle c : idle c ↔ upcoming c = ([], abs c).
Proof. done. Qed.

(** Few enough to be delivered before the fuel is spent. *)
Lemma upcoming_few c : conn_wf c → (length (upcoming c).1 <= 1 + Z.to_nat (c_buf_cap c))%nat.
Proof.
  intros (Hb & Hcap & Hoff & Hlen & _). unfold upcoming, parse_all.
  pose proof (parse_bound (c_buf_cap c) (ordered c) (2 + length (s_rest (abs c))) (abs c)) as Hp.
  assert (length (s_rest (abs c)) <= Z.to_nat (c_buf_cap c))%nat.
  { cbn. unfold pending. rewrite length_sub. lia. }
  case_match; lia.
Qed.

Section receive.
Context {K : Type} `{SysLaws K} (i : nat) (scratch : list byte).

(** What the kernel hands over when the slot's connection is read into the
    room it has: the call's result, the bytes, and the kernel afterwards. *)
Definition arrives (l : loop_t) (k : K) : (Z * list byte) * K :=
  let c := slot l i in
  if negb (cn_in_use c) || (cn_fd c <? 0) || (conn_recv_space (cn_conn c) <=? 0) then ((- EAGAIN, []), k)
  else os_recv (cn_fd c) (conn_recv_space (cn_conn c)) MSG_DONTWAIT k.

(** A receive as the client sees it: the bytes that arrived follow what was
    pending, and of the events they complete the handlers are run on the first
    ones, on all of them unless the connection is being closed.  When nothing
    arrived nothing happens, and an end or an error closes the connection. *)
Definition received (l : loop_t) (k : K) (l' : loop_t) (k' : K) : Prop :=
  let '((res, bs), k1) := arrives l k in
  (res = - EAGAIN → l' = l ∧ k' = k1) ∧
  (res <= 0 → res ≠ - EAGAIN → cn_closing (slot l' i) = true) ∧
  ∃ l1 acts rest,
    let c1 := cn_conn (slot l1 i) in
    abs c1 = extend (abs (cn_conn (slot l i))) (if 0 <? res then bs else []) ∧
    fed i (on_slot i (λ c, c <| cn_conn := c1 |>) l) l1 ∧
    served i scratch acts l1 k1 l' k' ∧
    (∀ j, j ≠ i → l_conns l' !! j = l_conns l !! j) ∧
    (upcoming c1).1 = events (c_buf c1) acts ++ rest ∧
    (cn_closing (slot l' i) = true ∨ rest = [] ∧ abs (cn_conn (slot l' i)) = (upcoming c1).2).

Lemma slot_conn_id l : on_slot i (λ c, c <| cn_conn := cn_conn (slot l i) |>) l = l.
Proof.
  unfold on_slot, upd. destruct l. cbn. f_equal. apply list_eq. intros j.
  rewrite list_lookup_alter. case_decide; [subst|done]. unfold slot. cbn.
  destruct (l_conns !! j) as [c|]; [|done]. cbn. by destruct c.
Qed.

Lemma nothing_received l l' res bs (k k' : K) :
  (i < length (l_conns l))%nat → idle (cn_conn (slot l i)) → arrives l k = ((res, bs), k') → res <= 0 →
  fed i l l' → served i scratch [] l' k' l' k' → (res = - EAGAIN → l' = l) →
  (res ≠ - EAGAIN → cn_closing (slot l' i) = true) → received l k l' k'.
Proof.
  intros Hi Hidle Ha Hle Hfed Hs Hsame Hend. destruct (fed_slot_conn i l l' Hi Hfed) as [_ Hc].
  unfold received. rewrite Ha. split; [by intros ->%Hsame|]. split; [by intros _|].
  exists l', [], []. cbv zeta. rewrite Hc, slot_conn_id, (proj2 (Z.ltb_ge _ _)) by done.
  rewrite upcoming_idle in Hidle. split_and!; try done.
  - unfold extend, abs. cbn. destruct (c_closed _); [done|]. by rewrite app_nil_r.
  - apply (fd_others _ _ _ Hfed).
  - by rewrite Hidle.
  - right. by rewrite Hidle.
Qed.

Lemma wp_do_recv l (k : K) :
  (i < length (l_conns l))%nat → conn_wf (cn_conn (slot l i)) → idle (cn_conn (slot l i)) →
  c_buf_cap (cn_conn (slot l i)) <= LOOP_RECV_CAP →
  wp (do_recv l i scratch) (λ l' k', received l k l' k') k.
Proof.
  intros Hi Hwf Hidle Hcap. unfold do_recv. cbv zeta.
  assert (∀ k1 bs, arrives l k = ((- EAGAIN, bs), k1) → received l k l k1) as Hsame.
  { intros k1 bs Ha. eapply nothing_received; try done; apply served_end. }
  destruct (_ || _) eqn:Huse.
  { apply wp_ret. apply (Hsame _ []). unfold arrives. cbv zeta. by rewrite Huse. }
  destruct (Z.leb_spec (conn_recv_space (cn_conn (slot l i))) 0) as [Hsp|Hsp].
  { apply wp_ret. apply (Hsame _ []). unfold arrives. cbv zeta. by rewrite Huse, (proj2 (Z.leb_le _ _)). }
  assert (arrives l k = os_recv (cn_fd (slot l i)) (conn_recv_space (cn_conn (slot l i))) MSG_DONTWAIT k) as Ha.
  { unfold arrives. cbv zeta. by rewrite Huse, (proj2 (Z.leb_gt _ _)). }
  zb. set (c := slot l i) in *. set (room := conn_recv_space (cn_conn c)) in *.
  destruct (wp_elim _ _ _ (law_recv (cn_fd c) room MSG_DONTWAIT k)) as ([res bs] & k1 & Hrun & _ & Hres).
  cbn [fst snd] in Hres. destruct (Hwf) as (_ & Hcap31 & Hoff & _ & _).
  assert (os_recv (cn_fd c) room MSG_DONTWAIT k = ((res, bs), k1)) as Hos.
  { unfold os_recv, mbind, M_bind. rewrite Hrun. cbn. rewrite i32_id; [done|].
    destruct Hres as [Hf|?]; [|unfold room, conn_recv_space in *; lia].
    unfold failed, sys_is_err in Hf. zb. lia. }
  rewrite Hos in Ha. apply wp_bind. apply (wp_intro _ _ _ _ _ Hos).
  destruct (Z.eqb_spec res (- EAGAIN)) as [->|Hne]; [apply wp_ret; by apply (Hsame _ bs)|].
  subst room c. unfold on_recv. rewrite slot_on_self by done. cbn [cn_in_use].
  change (cn_in_use ((slot l i) <| cn_conn ::= conn_receive res bs |>)) with (cn_in_use (slot l i)).
  match goal with Hu : cn_in_use _ = true |- _ => rewrite Hu end. cbn [negb].
  set (l0 := on_slot i (λ c, c <| cn_conn ::= conn_receive res bs |>) l).
  assert (∀ f g, on_slot i g (on_slot i f l) = on_slot i (λ c, g (f c)) l) as Htwice.
  { intros f g. unfold on_slot, upd. destruct l. cbn. f_equal. apply list_eq. intros j.
    rewrite !list_lookup_alter. repeat case_decide; try done. subst. by destruct (_ !! _). }
  destruct (Z.leb_spec res 0) as [Hle|Hpos].
  - apply wp_ret. eapply nothing_received; [done|done|exact Ha|done| |apply served_end|done|].
    + unfold l0, close_slot. rewrite Htwice. apply fed_slot; [|reflexivity].
      intros c. cbn. unfold conn_receive.
      assert (sub 0 res bs = []) as -> by (unfold sub; by replace (Z.to_nat res) with 0%nat by lia).
      unfold upd. cbn. rewrite blit_nil. by destruct (cn_conn c).
    + intros _. unfold l0, close_slot. by rewrite Htwice, slot_on_self.
  - set (c1 := (conn_recv_commit (conn_receive res bs (cn_conn (slot l i))) res).2).
    unfold l0. rewrite Htwice.
    destruct (commit_received (cn_conn (slot l i)) res bs) as (Hwf1 & Hcap1 & Hm1 & Habs); [done|..].
    1,2: destruct Hres as [?%failed_neg|?]; lia.
    set (l1 := on_slot i _ l).
    assert (i < length (l_conns l1))%nat as Hi1 by (unfold l1, on_slot; cbn; by rewrite length_alter).
    assert (cn_conn (slot l1 i) = c1) as Hs1 by (unfold l1; by rewrite slot_on_self).
    destruct (recv_loop_serves i scratch (2 + Z.to_nat LOOP_RECV_CAP) l1 k1 Hi1)
      as (acts & rest & l' & k' & Hloop & Hserved & Ho & Hev & Hend).
    { by rewrite Hs1. }
    { rewrite Hs1. pose proof (upcoming_few c1 Hwf1) as Hfew. fold c1 in Hcap1. rewrite Hcap1 in Hfew. lia. }
    apply (wp_intro _ _ _ _ _ Hloop). unfold received. rewrite Ha. split; [done|]. split; [lia|].
    exists l1, acts, rest. cbv zeta. rewrite Hs1, (proj2 (Z.ltb_lt _ _)) in * by done.
    split_and!; try done.
    + assert (l1 = on_slot i (λ c, c <| cn_conn := c1 |>) l) as ->; [|reflexivity].
      unfold l1, on_slot, upd. destruct l. cbn. f_equal. apply list_eq. intros j.
      rewrite !list_lookup_alter. case_decide; [subst|done]. unfold c1, slot. cbn.
      match goal with |- context [?cs !! i] => by destruct (cs !! i) end.
    + intros j Hj. rewrite Ho by done. unfold l1, on_slot. cbn.
      by rewrite list_lookup_alter, decide_False.
Qed.
End receive.

Section fuel.
Context {K : Type} `{Sys K} (i : nat) (scratch : list byte).

(** More fuel than events still to come makes no difference. *)
Lemma recv_loop_fuel f1 f2 l (k : K) :
  (i < length (l_conns l))%nat → conn_wf (cn_conn (slot l i)) →
  (length (upcoming (cn_conn (slot l i))).1 < f1)%nat →
  (length (upcoming (cn_conn (slot l i))).1 < f2)%nat →
  recv_loop f1 l i scratch k = recv_loop f2 l i scratch k.
Proof.
  revert f2 l k. induction f1 as [|f1 IH]; intros f2 l k Hi Hwf H1 H2; [lia|].
  destruct f2 as [|f2]; [lia|]. cbn [recv_loop]. set (c := cn_conn (slot l i)) in *.
  destruct (conn_feed c 8) as [acts c1] eqn:Hfeed.
  destruct (feed_takes c 8 acts c1 Hwf ltac:(lia) Hfeed) as (Hwf1 & E1 & E2 & E4 & Hall & Hne).
  set (l1 := on_slot i (λ c, c <| cn_conn := c1 |>) l).
  assert (i < length (l_conns l1))%nat as Hi1 by (unfold l1, on_slot; cbn; by rewrite length_alter).
  assert (cn_conn (slot l1 i) = c1) as Hs1 by (unfold l1; by rewrite slot_on_self).
  destruct acts as [|a acts]; [done|].
  rewrite decide_False in Hne by done. set (as_ := a :: acts) in *. clearbody as_.
  pose proof (fed_actions i l1 as_ l1 scratch k ltac:(reflexivity)) as (l2 & k2 & Hd & Hfed)%wp_elim.
  destruct (fed_slot_conn i l1 l2 Hi1 Hfed) as [Hi2 Hs2]. rewrite Hs1 in Hs2.
  unfold mbind, M_bind. rewrite Hd. destruct (cn_closing (slot l2 i)); [done|].
  unfold upcoming in H1, H2. rewrite Hall in H1, H2.
  destruct (parse_all (c_buf_cap c1) (ordered c1) (abs c1)) as [e2 s2] eqn:Hp1. cbn [fst] in *.
  rewrite length_app in H1, H2.
  apply IH; [done|by rewrite Hs2|unfold upcoming; rewrite Hs2, Hp1; cbn; lia..].
Qed.

End fuel.

(** ** Properties *)

Module RecvProps.
Import Os.Sim.

(** C8. What a client sends is what the server acts on: when a connection is
    readable, the bytes the kernel hands over, as many as there is room for,
    are appended to what was pending, and the handlers are run on exactly the
    frames that the stream parser finds in all of it, in order and once each -
    up to the point where the connection is being closed, and never past a
    frame that is still incomplete.  An end of the stream or an error closes
    the connection, a read that would block changes nothing, and no other
    connection's slot is touched. *)
Theorem receive_serves_stream {K : Type} `{SysLaws K} (i : nat) (scratch : list byte)
    (l : loop_t) (k : K)
    (Hslot : (i < length (l_conns l))%nat) (Hwf : conn_wf (cn_conn (slot l i)))
    (Hidle : idle (cn_conn (slot l i))) (Hcap : c_buf_cap (cn_conn (slot l i)) <= LOOP_RECV_CAP) :
  wp (do_recv l i scratch) (λ l' k', received i scratch l k l' k') k.
Proof. by apply wp_do_recv. Qed.

Lemma demo_conn_wf : conn_wf (cn_conn (slot LoopProps.demo_loop 0)).
Proof.
  unfold conn_wf. change (c_buf (cn_conn (slot LoopProps.demo_loop 0))) with (zeros LOOP_RECV_CAP).
  rewrite length_zeros. split_and!; try done; vm_compute; try done; discriminate.
Qed.

Lemma receive_serves_stream_witness :
  wp (do_recv LoopProps.demo_loop 0 (zeros 256))
    (λ l' k', received 0 (zeros 256) LoopProps.demo_loop LoopProps.demo l' k') LoopProps.demo ∧
  (arrives 0 LoopProps.demo_loop LoopProps.demo).1 = (zlen LoopProps.demo_frames, LoopProps.demo_frames) ∧
  wal_next_seq (l_wal (do_recv LoopProps.demo_loop 0 (zeros 256) LoopProps.demo).1) = 2.
Proof.
  split; [|split; vm_compute; reflexivity].
  refine (receive_serves_stream 0 (zeros 256) LoopProps.demo_loop LoopProps.demo _ demo_conn_wf _ _).
  - apply Nat.ltb_lt. vm_compute. reflexivity.
  - unfold idle. vm_compute. reflexivity.
  - vm_compute. discriminate.
Defined.

(** The same loop when the bytes have been received and not yet parsed. *)
Definition demo_waiting : loop_t :=
  let n := zlen LoopProps.demo_frames in
  on_slot 0 (λ c, c <| cn_conn ::= λ k,
    (conn_recv_commit (conn_receive n LoopProps.demo_frames k) n).2 |>) LoopProps.demo_loop.

Lemma demo_waiting_wf : conn_wf (cn_conn (slot demo_waiting 0)).
Proof.
  unfold demo_waiting. rewrite slot_on_self by (apply Nat.ltb_lt; by vm_compute).
  apply (commit_received _ _ _ demo_conn_wf); [|done]. vm_compute. split; [done|discriminate].
Qed.

(** C28. Receiving ends: every round of the loop in [on_recv] that finds
    something to do delivers at least one event, so the loop has ended by
    itself after one round more than there are events to come; the rounds it
    is given, two more than the buffer has bytes, are always enough. *)
Theorem receive_loop_ends {K : Type} `{Sys K} (i : nat) (scratch : list byte) (fuel : nat)
    (l : loop_t) (k : K)
    (Hslot : (i < length (l_conns l))%nat) (Hwf : conn_wf (cn_conn (slot l i)))
    (Hcap : c_buf_cap (cn_conn (slot l i)) <= LOOP_RECV_CAP)
    (Hfuel : (length (upcoming (cn_conn (slot l i))).1 < fuel)%nat) :
  recv_loop fuel l i scratch k = recv_loop (2 + Z.to_nat LOOP_RECV_CAP) l i scratch k.
Proof.
  pose proof (upcoming_few _ Hwf) as Hf. apply recv_loop_fuel; (done || lia).
Qed.

Lemma receive_loop_ends_witness :
  length (upcoming (cn_conn (slot demo_waiting 0))).1 = 2%nat ∧
  recv_loop 3 demo_waiting 0 (zeros 256) LoopProps.demo
    = recv_loop (2 + Z.to_nat LOOP_RECV_CAP) demo_waiting 0 (zeros 256) LoopProps.demo.
Proof.
  split; [vm_compute; reflexivity|].
  refine (receive_loop_ends 0 (zeros 256) 3 demo_waiting LoopProps.demo _ demo_waiting_wf _ _).
  - apply Nat.ltb_lt. vm_compute. reflexivity.
  - vm_compute. discriminate.
  - apply Nat.ltb_lt. vm_compute. reflexivity.
Defined.

End RecvProps.
