(* ===== verification/LoopFacts.v ===== *)
(** * What the loop does with the log

    The handlers' effect on the log and the session table, stated against the
    log's own specification: a write is stored once, a replica stores what
    the leader stored, a stream and a subscription carry what is on disk, and
    retention keeps what a replica has yet to confirm. *)

From S2P Require Import Prelude Core Crc32c Fmt Msg Conn Record Index Os Session Segment Wal Reopen Crash Durable Cursor.
From S2P Require Import LoopState LoopFrames LoopServe Metrics LoopTick LoopSpec.

#[local] Arguments wal_next_seq : simpl never.
#[local] Arguments wal_durable_seq : simpl never.

(** Two runs that agree have the same outcome. *)
Lemma wp_run {K A} (m' m : M K A) Q (k : K) : m k = m' k → wp m' Q k → wp m Q k.
Proof. intros He Hw. destruct (wp_elim _ _ _ Hw) as (x & k' & Hm & HQ). eapply wp_intro; [by rewrite He|done]. Qed.

(** ** Writes *)

(** The session a connection writes for, with its mark. *)
Definition session_at (l : loop_t) (i : nat) : option (nat * session_t) :=
  s ← session_lookup (l_sessions l) (cn_session (slot l i));
  pair s <$> st_entries (l_sessions l) !! s.

(** Whether a write is one the log is asked to take. *)
Definition takes_write (l : loop_t) (i : nat) (h : msg_header_t) : bool :=
  match session_at l i with
  | Some (_, s) =>
      negb (l_is_follower l) &&
      negb (has_flag (h_flags h) MSG_FLAG_REPLICATED && negb (repl_live l)
            && negb (has_flag (h_flags h) MSG_FLAG_ALLOW_DEGRADED)) &&
      (ss_last s <? h_sequence h)
  | None => false
  end.

(** The record a write becomes. *)
Definition written (l : loop_t) (i : nat) (h : msg_header_t) (p : list byte) : entry :=
  (sealed ((rec_of_write (cn_session (slot l i)) h (zlen p)) <| w_seq := wal_next_seq (l_wal l) |>) p, p).

Lemma session_at_Some l i n s :
  session_lookup (l_sessions l) (cn_session (slot l i)) = Some n →
  session_at l i = Some (n, s) ↔ st_entries (l_sessions l) !! n = Some s.
Proof.
  intros Hn. unfold session_at. rewrite Hn. cbn. destruct (st_entries _ !! n); cbn; naive_solver.
Qed.

Lemma session_at_known l i n :
  session_lookup (l_sessions l) (cn_session (slot l i)) = Some n → ∃ s, session_at l i = Some (n, s).
Proof.
  intros Hn. apply lookup_Some in Hn as Hs. destruct Hs as (s & Hs & _).
  exists s. by apply session_at_Some.
Qed.

Lemma acked_wal i f w d c q l : l_wal (ack_write i f w d c q l) = l_wal l.
Proof. unfold ack_write. destruct w; cbn [negb]; [destruct (repl_live l)|]; done. Qed.
Lemma acked_sessions i f w d c q l : l_sessions (ack_write i f w d c q l) = l_sessions l.
Proof. unfold ack_write. destruct w; cbn [negb]; [destruct (repl_live l)|]; done. Qed.
Lemma acked_dirty i f w d c q l : l_wal_dirty (ack_write i f w d c q l) = l_wal_dirty l.
Proof. unfold ack_write. destruct w; cbn [negb]; [destruct (repl_live l)|]; done. Qed.

Definition untouched (l : loop_t) (v : fsys) (l' : loop_t) (v' : fsys) : Prop :=
  l_wal l' = l_wal l ∧ l_sessions l' = l_sessions l ∧ l_wal_dirty l' = l_wal_dirty l ∧ v' = v.

(** A log begins where it began and nothing durable is lost. *)
Definition log_keeps (w w' : wal_t) : Prop :=
  wal_first_seq w' = wal_first_seq w ∧ wal_durable_seq w <= wal_durable_seq w'.

(** What a write that is taken leads to: the log has it and its session
    remembers it, or neither does and the log has what it had. *)
Definition stored_or_refused (cap : Z) (t : bool) (l : loop_t) (i : nat) (h : msg_header_t) (p : list byte)
    (hist : list entry) (l' : loop_t) (v' : fsys) : Prop :=
  log_keeps (l_wal l) (l_wal l') ∧
  (in_use cap t v' (l_wal l') (hist ++ [written l i h p]) ∧ l_wal_dirty l' = true ∧
     wal_next_seq (l_wal l') = wal_next_seq (l_wal l) + 1 ∧
     (∃ n s, session_at l i = Some (n, s) ∧
        (∃ seen, st_entries (l_sessions l') !! n = Some (Session (ss_id s) (h_sequence h) seen)) ∧
        ∀ m, m ≠ n → st_entries (l_sessions l') !! m = st_entries (l_sessions l) !! m) ∨
   in_use cap false v' (l_wal l') hist ∧ wal_next_seq (l_wal l') = wal_next_seq (l_wal l) ∧
     wl_index (l_wal l') = wl_index (l_wal l) ∧ l_sessions l' = l_sessions l ∧
     l_wal_dirty l' = l_wal_dirty l).

Section write.
Context {K : Type} `{SysLaws K}.

Lemma wp_write cap t l i h payload scr hist (k : K) :
  let p := default [] payload in
  in_use cap t (view k) (l_wal l) hist → header_ok h → 0 <= cn_session (slot l i) < 2 ^ 64 →
  zlen p < 2 ^ 32 → wal_next_seq (l_wal l) + 1 < 2 ^ 64 →
  wp (handle_write l i h payload (zlen p) scr) (λ l' k',
    if takes_write l i h then stored_or_refused cap t l i h p hist l' (view k')
    else untouched l (view k) l' (view k')) k.
Proof.
  intros p Hlog Hh Hs Hp Hn. unfold handle_write, takes_write.
  destruct (session_lookup _ _) as [n|] eqn:Hlook.
  2: { unfold session_at. rewrite Hlook. cbn. by apply wp_ret. }
  destruct (session_at_known _ _ _ Hlook) as [s Hat]. rewrite Hat.
  apply (session_at_Some _ _ _ _ Hlook) in Hat as Hent.
  destruct (l_is_follower l); cbn [negb andb]; [by apply wp_ret|]. cbv zeta.
  destruct (_ && _ && _); cbn [negb andb]; [by apply wp_ret|].
  rewrite Hent. cbn [from_option].
  destruct (Z.leb_spec (h_sequence h) (ss_last s)).
  { rewrite (proj2 (Z.ltb_ge _ _)) by done. apply wp_ret. unfold untouched.
    destruct (has_flag _ MSG_FLAG_ACK_REQ); [|done]. by rewrite acked_wal, acked_sessions, acked_dirty. }
  rewrite (proj2 (Z.ltb_lt _ _)) by done.
  eapply wp_call.
  { apply wp_both; [apply (state_wal_append (cap := cap) (t := t) _ hist _ payload); try done|apply wp_append_shape].
    - unfold header_ok in Hh. unfold rec_ok, rec_of_write. cbn. rewrite u32_id by lia. lia.
    - cbn. by rewrite u32_id by lia. }
  cbv beta. intros [[[r w] rec] scr'] k1 [[Hmv Ha] [Hpre Hix]]. cbv beta iota.
  assert (log_keeps (l_wal l) w) as Hkeep by (split; [by eapply in_use_first|apply Hmv]).
  destruct (result_ok r) eqn:Hr; cbn [negb].
  - destruct Ha as (Hlog' & Hrec & Hn'). apply wp_ret.
    match goal with |- context [if has_flag _ _ then ack_write _ _ _ _ _ _ ?l1 else _] => set (l2 := l1) end.
    set (l3 := if has_flag _ _ then _ else l2). unfold stored_or_refused.
    assert (l_wal l3 = w ∧ l_sessions l3 = l_sessions l2 ∧ l_wal_dirty l3 = true) as (-> & -> & ->).
    { unfold l3. destruct (has_flag _ _); [|done]. by rewrite acked_wal, acked_sessions, acked_dirty. }
    split; [done|]. left. subst rec. split_and!; try done. exists n, s. split_and!; [done| |].
    + exists (st_next_seen (l_sessions l)). unfold l2, session_touch. cbn.
      rewrite !list_lookup_alter, !decide_True, Hent by done. done.
    + intros m Hm. unfold l2, session_touch. cbn. by rewrite !list_lookup_alter, !decide_False by done.
  - apply wp_ret. split; [done|]. right. destruct Ha as [Hix' Hl]. by split_and!.
Qed.
End write.

(** ** A replica's log *)

Lemma mem_copy_longer n dst d (p m : list byte) s :
  0 <= s → s + Z.of_nat n <= zlen p →
  Mem.mem_copy_loop n dst d (p ++ m) s = Mem.mem_copy_loop n dst d p s.
Proof.
  revert dst d s. induction n as [|n IH]; intros dst d s Hs Hn; cbn [Mem.mem_copy_loop]; [done|].
  assert (zget (p ++ m) s = zget p s) as ->.
  { unfold zget. destruct (s <? 0); [done|]. apply lookup_app_l. lia. }
  destruct (zget p s); [|done]. apply IH; lia.
Qed.

(** Encoding reads as much of the payload as the record says. *)
Lemma encode_longer buf n r p m :
  i32 (w_len r) = zlen p → wal_rec_encode buf n r (Some (p ++ m)) = wal_rec_encode buf n r (Some p).
Proof.
  intros Hl. unfold wal_rec_encode. rewrite !bool_decide_eq_false_2, !andb_false_r by done.
  destruct (_ || _); [done|]. cbn [default from_option id]. unfold Mem.mem_copy.
  rewrite !(mem_copy_longer (Z.to_nat (i32 (w_len r))) _ _ p m) by lia. done.
Qed.

Section apply.
Context {K : Type} `{SysLaws K}.

Lemma append_longer w r p m scr (k : K) :
  i32 (w_len r) = zlen p → wal_append w r (Some (p ++ m)) scr k = wal_append w r (Some p) scr k.
Proof.
  intros Hl. unfold wal_append. destruct (_ || _); [done|]. unfold mbind, M_bind.
  match goal with |- (let '(x, k') := ?a k in _) = _ => destruct (a k) as [[res w1] k1] end.
  destruct (negb _); [done|]. unfold wal_seg_append.
  by rewrite (encode_longer _ _ (r <| w_seq := g_next_seq (wl_active w1) |>)).
Qed.

Lemma append_at_longer w r p m scr (k : K) :
  i32 (w_len r) = zlen p → wal_append_at w r (Some (p ++ m)) scr k = wal_append_at w r (Some p) scr k.
Proof.
  intros Hl. unfold wal_append_at. cbv zeta. destruct (negb _); [done|]. unfold mbind, M_bind.
  by rewrite append_longer.
Qed.

(** The records of a stream are what the leader's log holds: sealed, each as
    long as its payload. *)
Definition from_leader (es : list entry) : Prop :=
  ∀ e, e ∈ es → w_pad e.1 = 0.

Lemma sealed_stored_id r p : stored r p → w_pad r = 0 → sealed r p = r.
Proof.
  intros (_ & _ & _ & Hc) Hp. unfold sealed. destruct r. cbn in *. subst. unfold upd. cbn.
  f_equal. done.
Qed.

(** Appending what [wal_append_at] is given at the log's end, with memory
    that goes on after the payload. *)
Lemma wp_append_at w es r q m scr (k : K) :
  is_log (view k) w es → rec_ok r → w_len r = zlen q → zlen q <= WAL_MAX_PAYLOAD →
  w_seq r = wal_next_seq w → wal_next_seq w + 1 < 2 ^ 64 →
  wp (wal_append_at w r (Some (q ++ m)) scr) (λ '(x, w', r', _) k',
    if result_ok x then r' = sealed r q ∧ is_log (view k') w' (es ++ [(sealed r q, q)]) ∧
      wal_next_seq w' = wal_next_seq w + 1
    else is_log (view k') w' es ∨ g_fd (wl_active w') < 0) k.
Proof.
  intros Hlog Hok Hwl Hm Hseq Hmax. unfold wal_append_at. cbv zeta. rewrite Hseq, Z.eqb_refl. cbn [negb].
  eapply wp_call.
  { apply (wp_run (wal_append w r (Some q) scr)).
    - apply append_longer. unfold WAL_MAX_PAYLOAD, MSG_MAX_PAYLOAD in Hm. rewrite Hwl, i32_id; [done|lia].
    - by apply (wp_wal_append w es r (Some q)). }
  cbv beta. intros [[[x w'] r'] sc] k1 Ha. cbv beta iota. unfold appended in Ha. cbn [default] in Ha.
  assert (sealed (r <| w_seq := wal_next_seq w |>) q = sealed r q) as Hsame.
  { rewrite <-Hseq. by destruct r. }
  destruct (result_ok x) eqn:Hx; cbn [negb].
  - destruct Ha as (-> & Hl & Hn & _). unfold id in *. rewrite Hsame in *.
    change (w_seq (sealed r q)) with (w_seq r). rewrite Hseq, Z.eqb_refl. cbn [negb].
    apply wp_ret. by split_and!.
  - apply wp_ret. rewrite Hx. apply Ha.
Qed.

(** A record that was stored is appended as it is. *)
Lemma wp_append_stored w es r q m scr (k : K) :
  is_log (view k) w es → stored r q → w_pad r = 0 → w_seq r = wal_next_seq w →
  wal_next_seq w + 1 < 2 ^ 64 →
  wp (wal_append_at w r (Some (q ++ m)) scr) (λ '(x, w', r', _) k',
    if result_ok x then r' = r ∧ is_log (view k') w' (es ++ [(r, q)]) ∧
      wal_next_seq w' = wal_next_seq w + 1
    else is_log (view k') w' es ∨ g_fd (wl_active w') < 0) k.
Proof.
  intros Hlog Hst Hpad Hseq Hmax. pose proof Hst as (Hok & Hwl & Hm & _).
  eapply wp_mono; [by apply (wp_append_at w es r q)|]. cbv beta. intros [[[x w'] r'] sc] k1.
  by rewrite sealed_stored_id.
Qed.

(** An entry read from a received payload: a record that verifies there. *)
Definition taken_from (p : list byte) (e : entry) : Prop :=
  ∃ off, let here := drop off p in let r := rec_of here in
    wal_rec_verify here (zlen here) r = true ∧ e.2 = sub 56 (w_len r) here ∧ e.1 = sealed r e.2.

(** Whatever the leader sends, the replica's log grows by records that
    verified, and by all there are in the frame unless the stream is given
    up. *)
Definition guarded (cap : Z) (l : loop_t) (hist : list entry) (p : list byte) (at_ : Z) (l' : loop_t)
    (v' : fsys) : Prop :=
  ∃ got, Forall (taken_from p) got ∧ in_use cap false v' (l_wal l') (hist ++ got) ∧
    wal_next_seq (l_wal l') = wal_next_seq (l_wal l) + zlen got ∧ log_keeps (l_wal l) (l_wal l') ∧
    l_sessions l' = foldl session_from_record (l_sessions l) got.*1 ∧
    (rs_closing (l_stream l') = true ∨ at_ + zlen (log_bytes got) = zlen p).

Lemma keeps_refl w : log_keeps w w.
Proof. by split. Qed.

Lemma guarded_none cap l hist p at_ l' (v' : fsys) :
  in_use cap false v' (l_wal l') hist → wal_next_seq (l_wal l') = wal_next_seq (l_wal l) →
  log_keeps (l_wal l) (l_wal l') → l_sessions l' = l_sessions l →
  rs_closing (l_stream l') = true ∨ at_ = zlen p → guarded cap l hist p at_ l' v'.
Proof.
  intros Hl Hn Hk Hs Hc. exists []. rewrite app_nil_r. split_and!; try done; [cbn; lia|].
  destruct Hc; [by left|right; cbn; lia].
Qed.

Lemma wp_apply_any cap fuel l hist p at_ scr (k : K) :
  in_use cap false (view k) (l_wal l) hist → 0 <= at_ <= zlen p → zlen p - at_ < Z.of_nat fuel →
  wal_next_seq (l_wal l) + (zlen p - at_) < 2 ^ 64 →
  wp (apply_loop fuel l p (zlen p) at_ scr) (λ l' k', guarded cap l hist p at_ l' (view k')) k.
Proof.
  revert l hist at_ scr k. induction fuel as [|fuel IH]; intros l hist at_ scr k Hlog Hat Hfuel Hmax; [lia|].
  cbn [apply_loop].
  destruct (Z.leb_spec (zlen p) at_).
  { apply wp_ret, guarded_none; try done. right. lia. }
  assert (∀ k1, in_use cap false (view k1) (l_wal l) hist →
    wp (mret (close_stream l)) (λ l' k', guarded cap l hist p at_ l' (view k')) k1) as Hclose.
  { intros k1 Hin. apply wp_ret, guarded_none; try done. by left. }
  cbv zeta. destruct (wal_rec_decode _ _) as [rec|] eqn:Hdec; [|by apply Hclose].
  assert (56 <= zlen p - at_) as Hlong.
  { unfold wal_rec_decode, WAL_REC_HEADER_SIZE in Hdec. destruct (Z.ltb_spec (zlen p - at_) 56); [done|lia]. }
  rewrite decode_eq in Hdec by done. injection Hdec as <-.
  set (here := drop (Z.to_nat at_) p). set (r := rec_of here).
  assert (zlen here = zlen p - at_) as Hhere by (unfold here; rewrite length_drop; lia).
  destruct (_ || _) eqn:Hbad; [by apply Hclose|].
  apply orb_false_iff in Hbad as [Hbad Hseq]. apply orb_false_iff in Hbad as [Hbad Hver].
  apply orb_false_iff in Hbad as [Hsz Hfit]. apply negb_false_iff in Hseq, Hver. zb.
  pose proof (rec_of_ok here) as Hok. fold r in Hok.
  pose proof (rec_size_cast (w_len r) ltac:(apply Hok)) as Hsize.
  destruct (Z.leb_spec (w_len r) WAL_MAX_PAYLOAD); [|done].
  rewrite Hsize in *. pose proof (align8_bounds (w_len r)).
  assert (0 <= w_len r) as Hpos by (unfold rec_ok in Hok; lia).
  set (q := sub 56 (w_len r) here).
  assert (zlen q = w_len r) as Hq by (unfold q; rewrite length_sub; lia).
  assert (drop (Z.to_nat WAL_REC_HEADER_SIZE) here = q ++ drop (Z.to_nat (w_len r)) (drop 56 here)) as ->.
  { unfold q, sub. change (Z.to_nat 56) with 56%nat. by rewrite take_drop. }
  eapply wp_call.
  { apply (wp_run (wal_append_at (l_wal l) r (Some q) scr)).
    - apply append_at_longer. unfold WAL_MAX_PAYLOAD, MSG_MAX_PAYLOAD in *. rewrite Hq, i32_id; [done|lia].
    - apply wp_both; [|apply wp_append_at_shape].
      apply (state_append_at (cap := cap) (t := false) (l_wal l) hist r (Some q)); [done..|lia]. }
  cbv beta. intros [[[x w] r'] sc] k1 [[Hmv Ha] Hpre]. cbv beta iota. cbn [fst snd default from_option id] in *.
  assert (log_keeps (l_wal l) w) as Hkeep by (split; [by eapply in_use_first|apply Hmv]).
  destruct (result_ok x); cbn [negb].
  2: { destruct Ha as [Hin Hn1]. apply wp_ret, guarded_none; try done. by left. }
  destruct Ha as (Hlog1 & Hr' & Hn1).
  assert (sealed (r <| w_seq := wal_next_seq (l_wal l) |>) q = sealed r q) as Hsame.
  { match goal with Hs : w_seq r = _ |- _ => rewrite <-Hs end. by destruct r. }
  rewrite Hsame in Hr'. subst r'.
  pose proof (length_log_bytes_cons (sealed r q) q []) as Hone. pose proof (length_image (sealed r q) q) as Hli.
  eapply wp_mono; [apply (IH _ (hist ++ [(sealed r q, q)])); [done|lia|lia|change (wal_next_seq w + (zlen p - (at_ + (56 + align8 (w_len r)))) < 2 ^ 64); lia]|].
  cbv beta. intros l' k2 (got & Hall & Hl2 & Hn2 & Hk2 & Hs2 & Hc2). exists ((sealed r q, q) :: got).
  rewrite <-!app_assoc in Hl2. cbn [app] in Hl2. split; [|split; [exact Hl2|split; [|split; [|split; [exact Hs2|]]]]].
  - constructor; [|done]. exists (Z.to_nat at_). cbn. fold here. fold r. rewrite Hhere.
    by split_and!.
  - change (wal_next_seq (l_wal l') = wal_next_seq w + zlen got) in Hn2. cbn [length]. lia.
  - destruct Hkeep as [E1 Hd1], Hk2 as [E2 Hd2]. split; [by rewrite E2|].
    change (wal_durable_seq w <= wal_durable_seq (l_wal l')) in Hd2. lia.
  - destruct Hc2 as [?|Hc2]; [by left|right]. rewrite length_log_bytes_cons, length_image, Hq. lia.
Qed.

(** What a replica that was sent [run] has done with it. *)
Definition applied (l : loop_t) (es run : list entry) (l' : loop_t) (v' : fsys) : Prop :=
  ∃ got rest, run = got ++ rest ∧ (is_log v' (l_wal l') (es ++ got) ∨ g_fd (wl_active (l_wal l')) < 0) ∧
    l_sessions l' = foldl session_from_record (l_sessions l) got.*1 ∧
    (rs_closing (l_stream l') = false → rest = [] ∧ is_log v' (l_wal l') (es ++ run)).

Lemma wp_apply_loop fuel l es run p at_ scr (k : K) :
  is_log (view k) (l_wal l) es → chained (wal_next_seq (l_wal l)) run → from_leader run →
  0 <= at_ → drop (Z.to_nat at_) p = log_bytes run →
  zlen run < Z.of_nat fuel → wal_next_seq (l_wal l) + zlen run < 2 ^ 64 →
  rs_closing (l_stream l) = false →
  wp (apply_loop fuel l p (zlen p) at_ scr) (λ l' k', applied l es run l' (view k')) k.
Proof.
  revert l es run at_ scr k. induction fuel as [|fuel IH];
    intros l es run at_ scr k Hlog Hch Hlead Hat Hd Hf Hmax Hopen; [lia|]. cbn [apply_loop].
  destruct run as [|[r q] run].
  { apply (f_equal length) in Hd. rewrite length_drop in Hd. cbn in Hd.
    rewrite (proj2 (Z.leb_le _ _)) by lia. apply wp_ret. exists [], [].
    rewrite !app_nil_r. split_and!; auto. }
  destruct Hch as (Hseq & Hst & Hch).
  assert (w_pad r = 0) as Hpad by (apply (Hlead (r, q)); left).
  assert (from_leader run) as Hlead' by (intros e He; apply Hlead; by right).
  change (log_bytes ((r, q) :: run)) with (image r q ++ log_bytes run) in Hd.
  pose proof (length_image r q) as Hli. pose proof (align8_bounds (zlen q)).
  assert (zlen p - at_ = zlen (image r q) + zlen (log_bytes run)) as Hlen.
  { apply (f_equal length) in Hd. rewrite length_drop, length_app in Hd. lia. }
  rewrite (proj2 (Z.leb_gt _ _)) by lia. cbv zeta.
  rewrite Hd, decode_eq, rec_of_image by (lia || apply Hst).
  rewrite (image_size _ _ Hst), (proj2 (Z.eqb_neq _ _)), (proj2 (Z.ltb_ge _ _)) by lia.
  rewrite verify_image, Hseq, Z.eqb_refl by (done || lia). cbn [negb orb].
  destruct Hst as (Hok & Hwl & Hwm & Hcrc).
  assert (drop (Z.to_nat WAL_REC_HEADER_SIZE) (image r q ++ log_bytes run)
    = q ++ zeros (pad_len (zlen q)) ++ log_bytes run) as ->.
  { rewrite image_bytes, <-!app_assoc. apply drop_app_length'. by rewrite length_rec_bytes. }
  assert (sealed (r <| w_seq := wal_next_seq (l_wal l) |>) q = r) as Hsame.
  { rewrite <-Hseq. transitivity (sealed r q); [by destruct r|]. by apply sealed_stored_id. }
  eapply wp_call.
  { eapply (wp_append_stored _ es r q (zeros (pad_len (zlen q)) ++ log_bytes run)); try done. cbn in *. lia. }
  cbv beta. intros [[[x w] r'] sc] k1 Ha. cbv beta iota.
  destruct (result_ok x); cbn [negb].
  - destruct Ha as (-> & Hlog1 & Hn1).
    eapply wp_mono; [apply (IH _ (es ++ [(r, q)]) run)|].
    + exact Hlog1.
    + cbn. rewrite Hn1. by rewrite <-Hseq in *.
    + done.
    + lia.
    + rewrite Z2Nat.inj_add, <-drop_drop, Hd by lia. apply drop_app_length'. lia.
    + cbn in *. lia.
    + cbn in *. rewrite Hn1. lia.
    + done.
    + cbv beta. intros l' k2 (got & rest & -> & Hl2 & Hs2 & Hc2). exists ((r, q) :: got), rest.
      rewrite <-!app_assoc in *. cbn [app] in *. split_and!; try done.
  - apply wp_ret. exists [], ((r, q) :: run). rewrite app_nil_r. by split_and!.
Qed.

End apply.

(** ** Retention *)

(** Descriptor 2 is not one of the log's files. *)
Definition stderr_apart (v : fsys) : Prop := ∀ ino, f_fds v !! 2 ≠ Some (FFile ino).

Section retain.
Context {K : Type} `{SysLaws K}.

Lemma wp_say lines (k : K) :
  stderr_apart (view k) → wp (say lines) (λ _ k', view k' = view k) k.
Proof. intros Hs. unfold say. call law_write as r k1 Hv; [done|]. by apply wp_ret. Qed.

(** What retention may take: records of whole segments older than the
    configured number of segments, and only ones enough replicas confirmed. *)
Definition expendable (l : loop_t) (e : entry) : Prop :=
  w_seq e.1 < wal_retain_mark (l_wal l) (rt_segments (l_retain l)) ∧
  (0 < rt_want (l_retain l) → w_seq e.1 <= rt_floor (l_retain l)).

Lemma wp_retain_pass l es (k : K) :
  is_log (view k) (l_wal l) es → stderr_apart (view k) → 0 <= rt_floor (l_retain l) < 2 ^ 64 - 1 →
  wp (retain_pass l) (λ l' k', ∃ old recent,
    es = old ++ recent ∧ is_log (view k') (l_wal l') recent ∧ Forall (expendable l) old ∧
    wl_active (l_wal l') = wl_active (l_wal l)) k.
Proof.
  intros Hlog Herr Hf. unfold retain_pass.
  assert (∀ l1, l_wal l1 = l_wal l → ∃ old recent, es = old ++ recent ∧ is_log (view k) (l_wal l1) recent ∧
    Forall (expendable l) old ∧ wl_active (l_wal l1) = wl_active (l_wal l)) as Hsame.
  { intros l1 ->. exists [], es. by split_and!. }
  destruct (_ <=? 0); [by apply wp_ret, Hsame|].
  destruct (_ && _); [by apply wp_ret, Hsame|]. cbv zeta.
  destruct (_ =? 0); [by apply wp_ret, Hsame|].
  set (mark := wal_retain_mark _ _). rewrite u64_id by (cbn; lia).
  set (keep := if _ && _ then _ else _).
  destruct (_ <=? wal_first_seq _); [by apply wp_ret, Hsame|].
  eapply wp_call; [apply wp_both; [by apply wp_retain_log|apply wp_retain_fds]|].
  cbv beta. intros [[r w] n] k1 [(old & recent & -> & Hl & Hold & Hact) Hfds]. cbn [fst snd] in *.
  assert (Forall (expendable l) old) as Hgone.
  { apply Forall_forall. intros e He. specialize (Hold e He). unfold keep, mark in Hold. cbn in Hold.
    unfold expendable. destruct (Z.ltb_spec 0 (rt_want (l_retain l))); cbn [andb] in Hold; [|lia].
    destruct (Z.ltb_spec (rt_floor (l_retain l) + 1)
      (wal_retain_mark (l_wal l) (rt_segments (l_retain l)))); lia. }
  eapply (wp_call _ (λ l2 k', view k' = view k1 ∧ l_wal l2 = w)).
  - destruct (result_ok r); cbn [negb]; [by apply wp_ret|].
    call wp_say as [] k2 Hv; [unfold stderr_apart; by rewrite Hfds|]. by apply wp_ret.
  - cbv beta. intros l2 k2 [Hv Hw]. apply wp_ret. cbn. rewrite Hv, Hw. by exists old, recent.
Qed.
End retain.

(** The marks of the replicas that are attached. *)
Definition live_marks (l : loop_t) : list Z := pe_durable <$> filter (λ p, pe_live p = true) (l_peers l).

Lemma floor_fold ps lo n :
  0 <= n →
  foldl (λ '(lowest, live) p,
        if negb (pe_live p) then (lowest, live) else
        (if (live =? 0) || (pe_durable p <? lowest) then pe_durable p else lowest, live + 1))
      (lo, n) ps =
    (let marks := pe_durable <$> filter (λ p, pe_live p = true) ps in
     (match marks with [] => lo | m :: ms => foldl Z.min (if n =? 0 then m else lo) marks end, n + zlen marks)).
Proof.
  revert lo n. induction ps as [|p ps IH]; intros lo n Hn; cbn [foldl]; [cbn; by rewrite Z.add_0_r|].
  destruct (pe_live p) eqn:Hp; cbn [negb].
  2: { rewrite filter_cons_False by congruence. by apply IH. }
  rewrite filter_cons_True, IH by (done || lia). cbn [fmap list_fmap foldl length].
  rewrite (proj2 (Z.eqb_neq (n + 1) 0)) by lia. set (ms := pe_durable <$> _). f_equal; [|lia].
  assert (foldl Z.min (Z.min (if n =? 0 then pe_durable p else lo) (pe_durable p)) ms
    = foldl Z.min (if (n =? 0) || (pe_durable p <? lo) then pe_durable p else lo) ms) as ->.
  { f_equal. destruct (n =? 0); cbn [orb]; [lia|]. destruct (Z.ltb_spec (pe_durable p) lo); lia. }
  by destruct ms.
Qed.

Lemma foldl_min_le ms x : foldl Z.min x ms <= x ∧ ∀ m, m ∈ ms → foldl Z.min x ms <= m.
Proof.
  revert x. induction ms as [|m ms IH]; intros x; cbn; [split; [done|by intros ? ?%elem_of_nil]|].
  destruct (IH (Z.min x m)) as [Hx Hm]. split; [lia|].
  intros y [->|Hy]%elem_of_cons; [lia|by apply Hm].
Qed.

(** The floor as it stands after an update: raised only to a sequence every
    attached replica has confirmed, and only with enough of them. *)
Lemma floor_update l :
  let l' := retain_floor_update l in
  rt_floor (l_retain l) <= rt_floor (l_retain l') ∧
  (rt_floor (l_retain l') ≠ rt_floor (l_retain l) →
     rt_want (l_retain l) <= zlen (live_marks l) ∧
     Forall (λ m, rt_floor (l_retain l') <= m) (live_marks l)) ∧
  (0 < rt_want (l_retain l) <= zlen (live_marks l) →
     ∃ m, m ∈ live_marks l ∧ m <= rt_floor (l_retain l')).
Proof.
  intros l'. unfold l', retain_floor_update. rewrite floor_fold by done. cbv zeta.
  change (pe_durable <$> filter _ (l_peers l)) with (live_marks l).
  set (ms := live_marks l). rewrite Z.add_0_l.
  destruct (Z.leb_spec (rt_want (l_retain l)) 0); [split_and!; [lia|done|lia]|].
  destruct (Z.ltb_spec (zlen ms) (rt_want (l_retain l))); [split_and!; [lia|done|lia]|].
  destruct ms as [|m ms]; [cbn in *; lia|]. cbn [Z.eqb].
  set (low := foldl Z.min m (m :: ms)).
  destruct (foldl_min_le (m :: ms) m) as [_ Hlow]. fold low in Hlow.
  assert (low ∈ m :: ms) as Hin.
  { unfold low. cbn [foldl]. rewrite Z.min_id. clear. revert m. induction ms as [|a ms IH]; intros m; cbn; [by left|].
    destruct (Z.min_spec m a) as [[_ ->]|[_ ->]]; [|right; apply IH].
    specialize (IH m). apply elem_of_cons in IH as [->|?]; [by left|right; by right]. }
  clearbody low.
  destruct (Z.ltb_spec (rt_floor (l_retain l)) low); cbn; split_and!; try lia; try done.
  - intros _. split; [done|]. by apply Forall_forall.
  - intros _. by exists low.
  - intros _. by exists low.
Qed.

(** ** Streams *)

Lemma slot_on i f l : (i < length (l_conns l))%nat → slot (on_slot i f l) i = f (slot l i).
Proof.
  intros Hi. unfold slot, on_slot. cbn. rewrite list_lookup_alter, decide_True by done.
  destruct (lookup_lt_is_Some_2 _ _ Hi) as [c ->]. done.
Qed.

Lemma peer_on i f l : (i < length (l_peers l))%nat → peer (on_peer i f l) i = f (peer l i).
Proof.
  intros Hi. unfold peer, on_peer. cbn. rewrite list_lookup_alter, decide_True by done.
  destruct (lookup_lt_is_Some_2 _ _ Hi) as [c ->]. done.
Qed.

(** The frame a stream sends for a run of records. *)
Definition data_frame (first : Z) (run : list entry) : list byte :=
  match run with
  | [] => []
  | _ => header_bytes (msg_header_new MSG_OP_REPL_DATA MSG_RECORD_NONE 0 (zlen (log_bytes run)) 0 first)
           ++ log_bytes run
  end.

(** Why a read of at most [n] bytes up to [limit] brought nothing. *)
Definition nothing_ready (left : list entry) (limit n : Z) : Prop :=
  match left with
  | (r, p) :: _ => limit < w_seq r ∨ n < zlen (image r p)
  | [] => True
  end.

(** What serving one replica leads to: the next records, whole and in
    sequence and none above [limit], are staged as one frame and its cursor
    is behind them. *)
Definition streamed (l : loop_t) (i : nat) (segs : list (Z * list entry)) (left : list entry)
    (limit : Z) (l' : loop_t) (v' : fsys) : Prop :=
  let idx := Z.to_nat (cn_replica (slot l i)) in
  let cap := cn_send_cap (slot l i) in
  ∃ run j pre rest, left = run ++ ahead segs j rest ∧
    standing v' segs (pe_cursor (peer l' idx)) j pre rest ∧
    Forall (λ e, w_seq e.1 <= limit) run ∧
    cn_staged (slot l' i) = data_frame (cu_next_seq (pe_cursor (peer l idx))) run ∧
    zlen (cn_staged (slot l' i)) <= cap ∧
    (run = [] → cn_closing (slot l' i) = false →
       nothing_ready (ahead segs j rest) limit (cap - MSG_HEADER_SIZE)).

Section stream.
Context {K : Type} `{SysLaws K}.

Lemma wp_stream_one l i segs j pre rest limit (k : K) :
  let c := slot l i in
  (i < length (l_conns l))%nat → cn_in_use c = true → cn_closing c = false → cn_staged c = [] →
  0 <= cn_replica c < zlen (l_peers l) → MSG_HEADER_SIZE <= cn_send_cap c < 2 ^ 31 →
  readable (view k) (l_wal l) segs →
  standing (view k) segs (pe_cursor (peer l (Z.to_nat (cn_replica c)))) j pre rest →
  wp (stream_one limit l i) (λ l' k', f_inodes (view k') = f_inodes (view k) ∧
    streamed l i segs (ahead segs j rest) limit l' (view k')) k.
Proof.
  intros c Hi Hu Hc He Hr Hcap R S. unfold stream_one. fold c. rewrite Hu, Hc, He. cbn [negb orb].
  rewrite (proj2 (Z.ltb_ge _ _)) by lia. cbn [length Z.of_nat Z.ltb Z.compare]. cbv zeta.
  set (idx := Z.to_nat (cn_replica c)) in *. unfold MSG_HEADER_SIZE in *.
  eapply wp_call; [apply (wp_cursor_read _ segs _ j pre rest); [done|done|unfold MSG_HEADER_SIZE; lia]|].
  cbv beta. intros [[r cur] data] k1 (_ & Ei & run & j' & pre' & rest' & Hl & Ed & St & Hlim & Hlen & Hx).
  cbn [fst snd] in *. subst data. set (l1 := on_peer idx _ l).
  assert (pe_cursor (peer l1 idx) = cur) as Hcur by (unfold l1; rewrite peer_on; [done|lia]).
  assert (slot l1 i = c) as Hslot by done.
  assert (Forall (λ e, w_seq e.1 <= limit) run) as Hall by (by apply Forall_forall).
  destruct (result_ok r) eqn:Hok; cbn [negb].
  2: { apply wp_ret. split; [done|]. exists [], j', pre', rest'. destruct Hx as [-> _].
    unfold close_slot. rewrite slot_on, Hslot by done. fold c idx.
    change (peer (on_slot i _ l1) idx) with (peer l1 idx). rewrite Hcur.
    cbn. rewrite He. split_and!; try done. cbn. lia. }
  destruct (Z.eqb_spec (zlen (log_bytes run)) 0) as [E|E].
  - apply log_bytes_nonempty in E as ->. apply wp_ret. split; [done|]. exists [], j', pre', rest'.
    fold c idx. rewrite Hslot, He, Hcur. split_and!; try done; [cbn; lia|intros _ _; by apply Hx].
  - apply wp_ret. split; [done|]. exists run, j', pre', rest'. fold c idx.
    assert (run ≠ []) as Hne by (intros ->; done).
    match goal with |- context [standing _ _ (pe_cursor (peer ?x idx))] => set (l2 := x) end.
    assert (slot l2 i = c <| cn_staged := data_frame (cu_next_seq (pe_cursor (peer l idx))) run |>) as ->.
    { transitivity (slot (on_slot i (λ c, c <| cn_staged := data_frame (cu_next_seq (pe_cursor (peer l idx))) run |>) l1) i).
      - unfold l2, data_frame. destruct run; [done|]. rewrite u32_id by lia. done.
      - by rewrite slot_on. }
    split_and!; try done; [|].
    + change (peer l2 idx) with (peer l1 idx). by rewrite Hcur.
    + cbn. unfold data_frame. destruct run; [done|]. rewrite length_app, length_header_bytes. lia.
Qed.
End stream.

(** ** Subscriptions *)

Definition wants (s : loop_sub_t) (e : entry) : Prop :=
  su_all_keys s || (w_partition_key e.1 =? su_key s) = true.
#[export] Instance wants_dec s e : Decision (wants s e).
Proof. unfold wants. apply _. Defined.

(** The frame that carries a record to a subscriber. *)
Definition notice (e : entry) : list byte :=
  header_bytes (msg_header_new MSG_OP_NOTIFY (w_record_type e.1) 0 (zlen e.2) (w_partition_key e.1)
    (w_seq e.1)) ++ e.2.

Lemma reply_record_stored c r p m :
  stored r p → zlen (image r p) <= room c →
  reply_record c r (p ++ m) = (true, c <| cn_staged ::= λ s, s ++ notice (r, p) |>).
Proof.
  intros (_ & Hl & Hm & _) Hroom. rewrite length_image in Hroom. pose proof (align8_bounds (zlen p)).
  unfold reply_record, notice. unfold WAL_MAX_PAYLOAD, MSG_MAX_PAYLOAD in Hm.
  rewrite Hl, i32_id by lia. unfold MSG_HEADER_SIZE. rewrite (proj2 (Z.ltb_ge _ _)) by lia.
  rewrite u32_id by lia. by rewrite sub_app_l.
Qed.

(** A run that was read fits: every record's frame is shorter than the
    record. *)
Lemma notify_run fuel c buf at_ n run base :
  0 <= at_ → drop (Z.to_nat at_) buf = log_bytes run → chained base run →
  zlen (log_bytes run) <= room c → zlen run < Z.of_nat fuel →
  (notify_loop fuel c buf (zlen buf) at_ n).1
    = c <| cn_staged ::= λ s, s ++ concat (notice <$> filter (wants (cn_sub c)) run) |> ∧
  0 <= room (notify_loop fuel c buf (zlen buf) at_ n).1.
Proof.
  revert c at_ n run base. induction fuel as [|fuel IH]; intros c at_ n run base Hat Hd Hch Hroom Hf; [lia|].
  cbn [notify_loop]. pose proof (f_equal length Hd) as Hlen. rewrite length_drop in Hlen.
  destruct run as [|[r p] run].
  { cbn in Hlen, Hroom. rewrite (proj2 (Z.leb_le _ _)) by lia. cbn. split; [|lia].
    destruct c. unfold upd. cbn. by rewrite app_nil_r. }
  destruct Hch as (_ & Hst & Hch). pose proof (length_log_bytes_cons r p run).
  change (log_bytes ((r, p) :: run)) with (image r p ++ log_bytes run) in Hd.
  pose proof (length_image r p) as Hli. pose proof (align8_bounds (zlen p)).
  rewrite (proj2 (Z.leb_gt _ _)) by lia. cbv zeta.
  rewrite Hd, decode_eq, rec_of_image by (lia || apply Hst).
  rewrite (image_size _ _ Hst), (proj2 (Z.eqb_neq _ _)), (proj2 (Z.ltb_ge _ _)) by lia. cbn [orb].
  assert (drop (Z.to_nat (at_ + zlen (image r p))) buf = log_bytes run) as Hd'.
  { rewrite Z2Nat.inj_add, <-drop_drop, Hd by lia. apply drop_app_length'. lia. }
  assert (drop (Z.to_nat WAL_REC_HEADER_SIZE) (image r p ++ log_bytes run)
    = p ++ zeros (pad_len (zlen p)) ++ log_bytes run) as ->.
  { rewrite image_bytes, <-!app_assoc. apply drop_app_length'. by rewrite length_rec_bytes. }
  cbn [length] in Hf.
  destruct (_ || _) eqn:Hw.
  - rewrite reply_record_stored by (done || lia). cbn [snd].
    set (c1 := c <| cn_staged ::= _ |>).
    assert (zlen (notice (r, p)) = 32 + zlen p) as Hn.
    { unfold notice. rewrite length_app, length_header_bytes. cbn. lia. }
    destruct (IH c1 (at_ + zlen (image r p)) (inc n) run (base + 1)) as [-> Hr]; try done; try lia.
    { unfold room, c1 in *. cbn. rewrite length_app. lia. }
    split; [|done].
    rewrite filter_cons_True by done. cbn [fmap list_fmap concat]. unfold c1. destruct c. unfold upd. cbn.
    by rewrite app_assoc.
  - rewrite filter_cons_False by (unfold wants; cbn; congruence).
    by destruct (IH c (at_ + zlen (image r p)) n run (base + 1)) as [-> Hr]; try lia.
Qed.

(** Up to where a subscription is served. *)
Definition sub_limit (s : loop_sub_t) (durable : Z) : Z :=
  if su_once s && (su_until s <? durable) then su_until s else durable.

(** A subscription that is due to be served. *)
Record serving (l : loop_t) (i : nat) : Prop := {
  sv_slot : (i < length (l_conns l))%nat;
  sv_use : cn_in_use (slot l i) = true;
  sv_open : cn_closing (slot l i) = false;
  sv_active : su_active (cn_sub (slot l i)) = true;
  sv_ready : su_waiting (cn_sub (slot l i)) = false;
  sv_quiet : cn_want_out (slot l i) = false;
  sv_room : MSG_HEADER_SIZE <= room (slot l i) < 2 ^ 31;
  sv_more : su_once (cn_sub (slot l i)) = true →
            cu_next_seq (su_cursor (cn_sub (slot l i))) <= su_until (cn_sub (slot l i)) }.

(** What serving it leads to: the wanted records among the next ones of the
    log, one frame each, every one of them, in order, none above the limit. *)
Definition pushed (l : loop_t) (i : nat) (segs : list (Z * list entry)) (left : list entry)
    (limit n : Z) (l' : loop_t) (v' : fsys) : Prop :=
  let s := cn_sub (slot l i) in
  ∃ run j pre rest, left = run ++ ahead segs j rest ∧
    standing v' segs (su_cursor (cn_sub (slot l' i))) j pre rest ∧
    Forall (λ e, w_seq e.1 <= limit) run ∧
    if cn_closing (slot l' i) then run = []
    else cn_staged (slot l' i) = cn_staged (slot l i) ++ concat (notice <$> filter (wants s) run) ∧
      0 <= room (slot l' i) ∧ (run = [] → nothing_ready (ahead segs j rest) limit n).

Lemma reply_keeps c op flags sequence payload :
  (reply c op flags sequence payload).2 = c <| cn_staged := cn_staged (reply c op flags sequence payload).2 |>.
Proof. unfold reply. destruct (_ <? _); by destruct c. Qed.

(** A slot refused and closed. *)
Lemma refused_slot i code sequence l :
  (i < length (l_conns l))%nat →
  ∃ st, slot (close_slot i (reply_err i code sequence l)) i
          = (slot l i) <| cn_staged := st |> <| cn_closing := true |>.
Proof.
  intros Hi. unfold close_slot, reply_err, reply_err_text, reply_to. cbv zeta.
  rewrite !slot_on by (unfold on_slot; cbn; rewrite ?length_alter; done).
  rewrite reply_keeps. by eexists.
Qed.

(** What lies ahead of a cursor is one chain. *)
Lemma tail_chained v w segs j base es :
  readable v w segs → segs !! j = Some (base, es) →
  chained (base + zlen es) (concat (drop (S j) segs).*2).
Proof.
  intros R. remember (length segs - j)%nat as n eqn:En. revert j base es En.
  induction n as [|n IH]; intros j base es En Hj; apply lookup_lt_Some in Hj as Hlt; [lia|].
  destruct (segs !! S j) as [[b2 es2]|] eqn:E2; [|by rewrite drop_ge by (by apply lookup_ge_None_1)].
  rewrite (drop_S _ _ _ E2). cbn [fmap list_fmap concat snd]. apply chained_app.
  destruct (rd_next _ _ _ R _ _ _ _ _ Hj E2) as [-> _]. split.
  - eapply (rd_chain _ _ _ R), list_elem_of_lookup_2, E2.
  - apply (IH (S j)); [lia|done].
Qed.

Lemma ahead_chained v w segs c j pre rest :
  readable v w segs → standing v segs c j pre rest → chained (cu_next_seq c) (ahead segs j rest).
Proof.
  intros R [Hseg _ _ -> _]. unfold ahead.
  destruct (rd_chain _ _ _ R _ _ (list_elem_of_lookup_2 _ _ _ Hseg)) as [_ Hc].
  apply (tail_chained _ _ _ _ _ _ R) in Hseg as Ht.
  apply chained_app in Hc as [_ Hc]. apply chained_app. split; [done|].
  by rewrite length_app, Nat2Z.inj_add, Z.add_assoc in Ht.
Qed.

Lemma log_bytes_long es : zlen es <= zlen (log_bytes es).
Proof.
  induction es as [|[r p] es IH]; [done|]. rewrite length_log_bytes_cons, length_image. cbn [length].
  pose proof (align8_bounds (zlen p)). lia.
Qed.

Section push.
Context {K : Type} `{SysLaws K}.

Lemma wp_push_one l i segs j pre rest durable scratch_len (k : K) :
  let c := slot l i in let n := Z.min scratch_len (room c) in let limit := sub_limit (cn_sub c) durable in
  serving l i → 0 <= scratch_len →
  readable (view k) (l_wal l) segs → standing (view k) segs (su_cursor (cn_sub c)) j pre rest →
  wp (push_one durable scratch_len l i) (λ x k', f_inodes (view k') = f_inodes (view k) ∧
    x.2 = limit ∧ pushed l i segs (ahead segs j rest) limit n x.1 (view k')) k.
Proof.
  intros c n limit [Hi Hu Hcl Ha Hw Hq Hroom Hmore] Hsl R S. fold c in Hu, Hcl, Ha, Hw, Hq, Hroom, Hmore.
  unfold push_one. fold c. cbv zeta. rewrite Hu, Hcl, Hw, Ha, Hq. cbn [negb orb].
  rewrite (proj2 (Z.ltb_ge (room c) _)) by lia.
  assert ((if scratch_len <? room c then scratch_len else room c) = n) as ->.
  { unfold n. destruct (Z.ltb_spec scratch_len (room c)); lia. }
  assert (su_once (cn_sub c) && (su_until (cn_sub c) <? cu_next_seq (su_cursor (cn_sub c))) = false) as ->.
  { destruct (su_once _); [|done]. cbn. apply Z.ltb_ge. by apply Hmore. }
  fold (sub_limit (cn_sub c) durable). fold limit. unfold MSG_HEADER_SIZE in *.
  eapply wp_call; [apply (wp_cursor_read _ segs _ j pre rest); [done|done|unfold n; lia]|].
  cbv beta. intros [[r cur] data] k1 (_ & Ei & run & j' & pre' & rest' & Hl & Ed & St & Hlim & Hlen & Hx).
  cbn [fst snd] in *. subst data.
  pose proof (ahead_chained _ _ _ _ _ _ _ R S) as Hch. rewrite Hl in Hch.
  apply chained_app in Hch as [Hch _].
  assert (Forall (λ e, w_seq e.1 <= limit) run) as Hall by (by apply Forall_forall).
  set (l1 := on_sub i _ l).
  assert (slot l1 i = c <| cn_sub ::= λ s, s <| su_cursor := cur |> |>) as Hslot.
  { unfold l1, on_sub. by rewrite slot_on. }
  assert (i < length (l_conns l1))%nat as Hi1 by (unfold l1, on_sub, on_slot; cbn; by rewrite length_alter).
  destruct (result_ok r) eqn:Hok; cbn [negb].
  2: { apply wp_ret. split_and!; [done|done|]. exists [], j', pre', rest'. destruct Hx as [-> _].
    cbn [fst snd].    destruct (refused_slot i MSG_ERR_NO_HISTORY (cu_next_seq cur) l1 Hi1) as [st ->].
    rewrite Hslot. cbn. by split_and!. }
  set (l2 := if 0 <? _ then _ else l1).
  assert (slot l2 i = slot l1 i ∧ l_conns l2 = l_conns l1) as [E2 Ec2] by (by unfold l2; destruct (0 <? _)).
  destruct (notify_loop _ _ _ _ _ _) as [c' sent] eqn:En. apply wp_ret. split_and!; [done|done|].
  assert (zlen (log_bytes run) <= room (slot l2 i)) as Hfit.
  { rewrite E2, Hslot. change (room (c <| cn_sub ::= λ s, s <| su_cursor := cur |> |>)) with (room c).
    unfold n in Hlen. lia. }
  destruct (notify_run (Datatypes.S (length (log_bytes run))) (slot l2 i) (log_bytes run) 0 0 run
    (cu_next_seq (su_cursor (cn_sub c))))
    as [Ec' Hr']; try done.
  { pose proof (log_bytes_long run). lia. }
  rewrite En in Ec', Hr'. cbn [fst] in Ec', Hr'.
  assert (slot (on_slot i (λ _, c') l2) i = c') as Es.
  { apply slot_on. rewrite Ec2. done. }
  exists run, j', pre', rest'.
  match goal with |- context [cn_closing (slot ?x i)] => change (slot x i) with (slot (on_slot i (λ _, c') l2) i) end.
  cbn [fst snd]. rewrite Es. fold c.
  assert (c' = c <| cn_sub ::= λ s, s <| su_cursor := cur |> |>
                 <| cn_staged ::= λ b, b ++ concat (notice <$> filter (wants (cn_sub c)) run) |>) as ->.
  { rewrite Ec', E2, Hslot. destruct c. done. }
  cbn. rewrite Hcl. split_and!; try done.
Qed.
End push.

Module LogProps.
Import Os.Sim.

(** A leader on an empty log with one client whose session is known. *)
Definition demo_table : session_table_t := session_observe session_table_init 7 4.
Definition demo_leader : loop_t :=
  (loop_zero WalProps.demo_wal demo_table) <| l_conns ::= alter (λ c,
    c <| cn_in_use := true |> <| cn_fd := 9 |> <| cn_session := 7 |>) 0%nat |>.
Definition demo_write : msg_header_t := msg_header_new MSG_OP_WRITE 1 MSG_FLAG_ACK_REQ 3 9 5.

(** C13. A write is applied once: one that is a client's next on a leader is
    appended to the log as it was sent, sealed and with the next sequence,
    and the client's mark moves to it while no other client's does; or storing
    it failed, and then the log has exactly the records it had, its sequences
    and its index are what they were, and so is the session table.  Either way
    nothing durable is lost.  A write the client had stored before, and one
    that is refused, leave log, table and disk untouched. *)
Theorem write_applied_once {K : Type} `{SysLaws K} (cap : Z) (t : bool) (l : loop_t) (i : nat)
    (h : msg_header_t) (payload : option (list byte)) (scr : list byte) (hist : list entry) (k : K)
    (Hlog : in_use cap t (view k) (l_wal l) hist) (Hh : header_ok h)
    (Hs : 0 <= cn_session (slot l i) < 2 ^ 64) (Hp : zlen (default [] payload) < 2 ^ 32)
    (Hn : wal_next_seq (l_wal l) + 1 < 2 ^ 64) :
  wp (handle_write l i h payload (zlen (default [] payload)) scr) (λ l' k',
    if takes_write l i h then stored_or_refused cap t l i h (default [] payload) hist l' (view k')
    else untouched l (view k) l' (view k')) k.
Proof. by apply wp_write. Qed.

Lemma write_applied_once_witness :
  takes_write demo_leader 0 demo_write = true ∧
  wp (handle_write demo_leader 0 demo_write (Some (bytes_of [1; 2; 3])) 3 (zeros 256)) (λ l' k',
    stored_or_refused 256 true demo_leader 0 demo_write (bytes_of [1; 2; 3]) [] l' (view k')) WalProps.demo ∧
  (wal_next_seq (l_wal (handle_write demo_leader 0 demo_write (Some (bytes_of [1; 2; 3])) 3 (zeros 256)
    WalProps.demo).1) =? 2) = true.
Proof.
  split; [vm_compute; reflexivity|]. split; [|vm_compute; reflexivity].
  refine (write_applied_once 256 true demo_leader 0 demo_write (Some (bytes_of [1; 2; 3])) (zeros 256) []
    WalProps.demo DurableProps.demo_log_in_use _ _ _ _); unfold header_ok; vm_compute; repeat split; discriminate.
Defined.

(** A replica of it, and a record of the leader's. *)
Definition demo_replica : loop_t := loop_zero WalProps.demo_wal session_table_init.
Abbreviation demo_a := CursorProps.demo_a.

Lemma demo_a_stored : stored demo_a.1 demo_a.2.
Proof. apply sealed_stored; [unfold rec_ok; cbn; lia|done|by vm_compute]. Qed.

Lemma demo_a_led : from_leader [demo_a].
Proof. by intros e ->%list_elem_of_singleton. Qed.

(** C22. A replica's log only ever grows by records that arrived whole:
    whatever bytes a stream frame holds, and whatever call fails, after it the
    replica's log has the records it had and behind them records that verified
    where they stood in the frame, in sequence, and its sessions' marks are
    the old ones moved by exactly these records; nothing durable is lost.
    Unless the stream is given up the records account for the whole frame. *)
Theorem replica_stores_verified {K : Type} `{SysLaws K} (cap : Z) (l : loop_t) (hist : list entry)
    (p scr : list byte) (k : K) (Hlog : in_use cap false (view k) (l_wal l) hist)
    (Hn : wal_next_seq (l_wal l) + zlen p < 2 ^ 64) :
  wp (repl_apply l (Some p) (zlen p) scr) (λ l' k', ∃ got, Forall (taken_from p) got ∧
    in_use cap false (view k') (l_wal l') (hist ++ got) ∧
    wal_next_seq (l_wal l') = wal_next_seq (l_wal l) + zlen got ∧ log_keeps (l_wal l) (l_wal l') ∧
    l_sessions l' = foldl session_from_record (l_sessions l) got.*1 ∧
    (rs_closing (l_stream l') = true ∨ zlen (log_bytes got) = zlen p)) k.
Proof.
  eapply wp_mono; [apply (wp_apply_any cap _ l hist p 0); [done|lia..]|]. done.
Qed.

Lemma replica_stores_verified_witness :
  wp (repl_apply demo_replica (Some (log_bytes [demo_a])) (zlen (log_bytes [demo_a])) (zeros 256))
    (λ l' k', ∃ got, Forall (taken_from (log_bytes [demo_a])) got ∧
      in_use 256 false (view k') (l_wal l') ([] ++ got) ∧
      wal_next_seq (l_wal l') = wal_next_seq WalProps.demo_wal + zlen got ∧
      log_keeps WalProps.demo_wal (l_wal l') ∧
      l_sessions l' = foldl session_from_record session_table_init got.*1 ∧
      (rs_closing (l_stream l') = true ∨ zlen (log_bytes got) = zlen (log_bytes [demo_a]))) WalProps.demo.
Proof.
  exact (replica_stores_verified 256 demo_replica [] (log_bytes [demo_a]) (zeros 256) WalProps.demo
    (untidy _ _ _ DurableProps.demo_log_in_use) ltac:(vm_compute; reflexivity)).
Defined.

(** The leader's side: its log is [CursorProps.demo]'s and a replica at the
    start of it is attached to slot 0. *)
Definition demo_streaming : loop_t :=
  (loop_zero CursorProps.demo_wal session_table_init)
    <| l_conns ::= alter (λ c, c <| cn_in_use := true |> <| cn_fd := 9 |> <| cn_replica := 0 |>
                                 <| cn_send_cap := LOOP_REPL_CAP |>) 0%nat |>
    <| l_peers ::= alter (λ p, p <| pe_live := true |> <| pe_cursor := Cursor 6 1 0 1 |>) 0%nat |>.

Lemma demo_at_start : standing (view CursorProps.demo) CursorProps.demo_segs (Cursor 6 1 0 1) 0 [] [demo_a].
Proof.
  constructor; [by vm_compute..|]. exists (zeros 64). split; [by vm_compute|apply CursorProps.demo_unwritten].
Qed.

(** C12. A replica's log is the leader's: when a replica whose next sequence
    is where its cursor on the leader stands is served, and applies the
    payload of the frame, its log is its old one followed by the very
    records the leader's log has there, or by some first part of them with
    the stream given up so that it is dialled again; its sessions' marks move
    by the same records. *)
Theorem replica_log_is_leader_log {L F : Type} `{SysLaws L} `{SysLaws F} (l f : loop_t) (i : nat)
    (segs : list (Z * list entry)) (j : nat) (pre rest fs : list entry) (limit : Z)
    (scr : list byte) (k : L) (kf : F)
    (Hi : (i < length (l_conns l))%nat) (Hu : cn_in_use (slot l i) = true)
    (Hc : cn_closing (slot l i) = false) (He : cn_staged (slot l i) = [])
    (Hr : 0 <= cn_replica (slot l i) < zlen (l_peers l))
    (Hcap : MSG_HEADER_SIZE <= cn_send_cap (slot l i) < 2 ^ 31)
    (R : readable (view k) (l_wal l) segs)
    (S : standing (view k) segs (pe_cursor (peer l (Z.to_nat (cn_replica (slot l i))))) j pre rest)
    (Hlead : from_leader (ahead segs j rest))
    (Hlog : is_log (view kf) (l_wal f) fs) (Hopen : rs_closing (l_stream f) = false)
    (Hat : wal_next_seq (l_wal f) = cu_next_seq (pe_cursor (peer l (Z.to_nat (cn_replica (slot l i))))))
    (Hn : wal_next_seq (l_wal f) + 2 ^ 31 < 2 ^ 64) :
  wp (stream_one limit l i) (λ l' k',
    let body := drop (Z.to_nat MSG_HEADER_SIZE) (cn_staged (slot l' i)) in
    ∃ run left, ahead segs j rest = run ++ left ∧ body = log_bytes run ∧
      wp (repl_apply f (Some body) (zlen body) scr) (λ f' k', ∃ got missed, run = got ++ missed ∧
        (is_log (view k') (l_wal f') (fs ++ got) ∨ g_fd (wl_active (l_wal f')) < 0) ∧
        l_sessions f' = foldl session_from_record (l_sessions f) got.*1 ∧
        (rs_closing (l_stream f') = false → is_log (view k') (l_wal f') (fs ++ run))) kf) k.
Proof.
  eapply wp_mono; [by apply (wp_stream_one l i segs j pre)|]. cbv beta zeta.
  intros l' k' (_ & run & j' & pre' & rest' & Hl & _ & _ & Hst & Hlen & _).
  exists run, (ahead segs j' rest'). split; [done|]. rewrite Hst in *.
  assert (drop (Z.to_nat MSG_HEADER_SIZE)
    (data_frame (cu_next_seq (pe_cursor (peer l (Z.to_nat (cn_replica (slot l i)))))) run) = log_bytes run)
    as ->.
  { unfold data_frame. destruct run; [done|]. apply drop_app_length'. by rewrite length_header_bytes. }
  split; [done|]. pose proof (ahead_chained _ _ _ _ _ _ _ R S) as Hch. rewrite Hl in Hch.
  apply chained_app in Hch as [Hch _]. rewrite <-Hat in Hch. pose proof (log_bytes_long run).
  assert (zlen (log_bytes run) < 2 ^ 31) as Hshort.
  { unfold data_frame in Hlen. destruct run; [cbn; lia|]. rewrite length_app in Hlen. lia. }
  eapply wp_mono; [apply (wp_apply_loop _ f fs run (log_bytes run) 0)|]; try done; try lia.
  - intros e Hin. apply Hlead. rewrite Hl. by apply elem_of_app; left.
  - intros f' kf' (got & missed & ? & ? & ? & Hend). exists got, missed. split_and!; try done.
    intros Hcl. by apply Hend.
Qed.

Lemma replica_log_is_leader_log_witness :
  wp (stream_one 2 demo_streaming 0) (λ l' k',
    let body := drop (Z.to_nat MSG_HEADER_SIZE) (cn_staged (slot l' 0)) in
    ∃ run left, ahead CursorProps.demo_segs 0 [demo_a] = run ++ left ∧ body = log_bytes run ∧
      wp (repl_apply demo_replica (Some body) (zlen body) (zeros 256)) (λ f' k', ∃ got missed,
        run = got ++ missed ∧
        (is_log (view k') (l_wal f') ([] ++ got) ∨ g_fd (wl_active (l_wal f')) < 0) ∧
        l_sessions f' = foldl session_from_record session_table_init got.*1 ∧
        (rs_closing (l_stream f') = false → is_log (view k') (l_wal f') ([] ++ run)))
        WalProps.demo) CursorProps.demo.
Proof.
  refine (replica_log_is_leader_log demo_streaming demo_replica 0 CursorProps.demo_segs 0 [] [demo_a] [] 2
    (zeros 256) CursorProps.demo WalProps.demo ltac:(apply Nat.ltb_lt; vm_compute; reflexivity)
    eq_refl eq_refl eq_refl ltac:(vm_compute; split; [discriminate|reflexivity])
    ltac:(vm_compute; split; [discriminate|reflexivity]) CursorProps.demo_readable demo_at_start _
    WalProps.demo_is_log eq_refl eq_refl ltac:(vm_compute; reflexivity)).
  intros e He. repeat (apply elem_of_cons in He as [->|He]; [reflexivity|]). by apply elem_of_nil in He.
Defined.

(** A client of the same leader that follows key 9 from the start. *)
Definition demo_followed : loop_t :=
  demo_streaming <| l_conns ::= alter (λ c, c <| cn_in_use := true |> <| cn_fd := 10 |>
    <| cn_sub := Sub (Cursor 6 1 0 1) 9 0 0 0 true false false false |>) 1%nat |>.

Lemma demo_serving : serving demo_followed 1.
Proof.
  constructor; [apply Nat.ltb_lt; by vm_compute|by vm_compute..| |by vm_compute].
  vm_compute. split; [discriminate|reflexivity].
Qed.

(** C23. Retention never takes what a replica still needs: whatever a pass
    removes is a first part of the log, below the oldest of the segments to
    be kept and, when replicas are asked for, at or below the floor; the rest
    stays a log with its active segment as it was, also when the removal
    fails. *)
Theorem retention_respects_floor {K : Type} `{SysLaws K} (l : loop_t) (es : list entry) (k : K)
    (Hlog : is_log (view k) (l_wal l) es) (Herr : stderr_apart (view k))
    (Hfloor : 0 <= rt_floor (l_retain l) < 2 ^ 64 - 1) :
  wp (retain_pass l) (λ l' k', ∃ old recent,
    es = old ++ recent ∧ is_log (view k') (l_wal l') recent ∧ Forall (expendable l) old ∧
    wl_active (l_wal l') = wl_active (l_wal l)) k.
Proof. by apply wp_retain_pass. Qed.

Lemma retention_respects_floor_witness :
  wp (retain_pass (loop_set_retention demo_leader 1 2)) (λ l' k', ∃ old recent,
    [] = old ++ recent ∧ is_log (view k') (l_wal l') recent ∧
    Forall (expendable (loop_set_retention demo_leader 1 2)) old ∧
    wl_active (l_wal l') = wl_active WalProps.demo_wal) WalProps.demo.
Proof.
  refine (retention_respects_floor (loop_set_retention demo_leader 1 2) [] WalProps.demo
    WalProps.demo_is_log _ ltac:(vm_compute; split; [discriminate|reflexivity])).
  intros ino. vm_compute. discriminate.
Defined.

(** C31. The retention floor is what enough replicas have confirmed: an
    update never lowers it, raises it only when as many replicas are attached
    as were asked for and then only to a sequence all of them have confirmed,
    and with enough of them it reaches at least the least confirmed one. *)
Theorem floor_is_confirmed (l : loop_t) :
  let l' := retain_floor_update l in
  rt_floor (l_retain l) <= rt_floor (l_retain l') ∧
  (rt_floor (l_retain l') ≠ rt_floor (l_retain l) →
     rt_want (l_retain l) <= zlen (live_marks l) ∧
     Forall (λ m, rt_floor (l_retain l') <= m) (live_marks l)) ∧
  (0 < rt_want (l_retain l) <= zlen (live_marks l) →
     ∃ m, m ∈ live_marks l ∧ m <= rt_floor (l_retain l')).
Proof. exact (floor_update l). Qed.

End LogProps.
