(* ===== verification/LoopRounds.v ===== *)
(** * A whole round of serving

    After the flush of a pass the leader serves its replicas one after
    another, and then every subscription.  The steps for one slot compose:
    each touches its own slot and its own cursor, so what the round leads to
    for a slot is what serving that slot alone would, up to the mark the round
    goes by. *)

From S2P Require Import Prelude Core Crc32c Fmt Msg Conn Record Index Os Session Segment Wal Cursor.
From S2P Require Import LoopState LoopFrames LoopServe Metrics LoopTick LoopSpec LoopFacts.

#[local] Arguments wal_next_seq : simpl never.
#[local] Arguments wal_durable_seq : simpl never.

(** ** Cursors side by side *)

(** A cursor stands where it stood while another one moves. *)
Lemma standing_beside v v' c c' segs s j pre rest :
  cursor_moves v v' c c' → cu_fd s ≠ cu_fd c → standing v segs s j pre rest → standing v' segs s j pre rest.
Proof.
  intros [(_ & _ & Ei) Ho _ _] Hne [Hseg Hfd Hoff Hnx (tl & Hd & Hu)]. constructor; try done.
  exists tl. split; [|done]. unfold fd_data, fd_file in *. rewrite Ei.
  destruct (f_fds v !! cu_fd s) as [d|] eqn:E; [|done]. by rewrite (Ho _ d).
Qed.

(** The same for a cursor whose descriptor is known to stay open. *)
Lemma standing_kept v v' segs s j pre rest :
  f_inodes v' = f_inodes v → (∀ d, f_fds v !! cu_fd s = Some d → f_fds v' !! cu_fd s = Some d) →
  standing v segs s j pre rest → standing v' segs s j pre rest.
Proof.
  intros Ei Ho [Hseg Hfd Hoff Hnx (tl & Hd & Hu)]. constructor; try done.
  exists tl. split; [|done]. unfold fd_data, fd_file in *. rewrite Ei.
  destruct (f_fds v !! cu_fd s) as [d|] eqn:E; [|done]. by rewrite (Ho d).
Qed.

(** A descriptor that is open elsewhere is not the one a cursor ends up with. *)
Lemma moved_apart v v' c c' fd :
  cursor_moves v v' c c' → fd ≠ cu_fd c → 0 <= fd → is_Some (f_fds v !! fd) → fd ≠ cu_fd c'.
Proof. intros [_ _ [E|[?|E]] _] Hne Hp [d Hd]; [congruence|lia|congruence]. Qed.

Lemma standing_fd v segs c j pre rest : standing v segs c j pre rest → 0 <= cu_fd c ∧ is_Some (f_fds v !! cu_fd c).
Proof.
  intros S. split; [apply S|]. destruct (standing_open _ _ _ _ _ _ S (sd_fd _ _ _ _ _ _ S)) as [ino ->]. by eexists.
Qed.

(** ** The streams *)

(** The stream in slot [i] is due: its replica is attached and the last frame
    has gone. *)
Definition takes_stream (l : loop_t) (i : nat) : bool :=
  let c := slot l i in
  cn_in_use c && negb (cn_closing c) && (0 <=? cn_replica c) && (zlen (cn_staged c) <=? 0).
Definition stream_peer (l : loop_t) (i : nat) : nat := Z.to_nat (cn_replica (slot l i)).
Definition stream_cursor (l : loop_t) (i : nat) : wal_cursor_t := pe_cursor (peer l (stream_peer l i)).

Lemma takes_slot l i :
  takes_stream l i = true → (i < length (l_conns l))%nat ∧ cn_in_use (slot l i) = true ∧
    cn_closing (slot l i) = false ∧ 0 <= cn_replica (slot l i) ∧ cn_staged (slot l i) = [].
Proof.
  unfold takes_stream. cbv zeta. intros Ht. apply andb_true_iff in Ht as [Ht Hst].
  apply andb_true_iff in Ht as [Ht Hr]. apply andb_true_iff in Ht as [Hu Hc]. apply negb_true_iff in Hc. zb.
  split_and!; try done.
  - destruct (decide (i < length (l_conns l))%nat) as [|Hn]; [done|]. exfalso. unfold slot in Hu.
    rewrite lookup_ge_None_2 in Hu by lia. done.
  - destruct (cn_staged (slot l i)); [done|cbn in *; lia].
Qed.

(** What serving slot [i] changes. *)
Record stream_step (l : loop_t) (i : nat) (v : fsys) (l' : loop_t) (v' : fsys) : Prop := {
  sp_wal : l_wal l' = l_wal l;
  sp_conns : ∀ j, j ≠ i → l_conns l' !! j = l_conns l !! j;
  sp_peers : ∀ n, n ≠ stream_peer l i → l_peers l' !! n = l_peers l !! n;
  sp_length : length (l_peers l') = length (l_peers l);
  sp_cursor : cursor_moves v v' (stream_cursor l i) (pe_cursor (peer l' (stream_peer l i))) }.

Section stream.
Context {K : Type} `{SysLaws K}.

Lemma stream_one_idle limit l i (k : K) : takes_stream l i = false → stream_one limit l i k = (l, k).
Proof.
  unfold takes_stream, stream_one. cbv zeta. destruct (cn_in_use _); [|done].
  destruct (cn_closing _); [done|]. cbn [negb andb orb].
  destruct (Z.leb_spec 0 (cn_replica (slot l i))), (Z.ltb_spec (cn_replica (slot l i)) 0); try lia; [|done].
  cbn [andb]. destruct (Z.leb_spec (zlen (cn_staged (slot l i))) 0), (Z.ltb_spec 0 (zlen (cn_staged (slot l i)))); done || lia.
Qed.

Lemma wp_stream_step limit l i (k : K) :
  takes_stream l i = true → cn_replica (slot l i) < zlen (l_peers l) →
  wp (stream_one limit l i) (λ l' k', stream_step l i (view k) l' (view k')) k.
Proof.
  intros (Hi & Hu & Hc & Hr & Hs)%takes_slot Hn. unfold stream_one. cbv zeta.
  rewrite Hu, Hc, Hs, (proj2 (Z.ltb_ge _ _)) by done. cbn [negb orb length Z.of_nat Z.ltb Z.compare].
  change (Z.to_nat (cn_replica (slot l i))) with (stream_peer l i). change (pe_cursor (peer l (stream_peer l i))) with (stream_cursor l i).
  eapply wp_call; [apply moves_read|]. cbv beta. intros [[r cur] data] k1 Hm. cbn [fst snd] in Hm.
  set (l1 := on_peer _ _ l).
  assert (∀ l2, l_wal l2 = l_wal l1 → l_peers l2 = l_peers l1 → (∀ j, j ≠ i → l_conns l2 !! j = l_conns l1 !! j) →
    stream_step l i (view k) l2 (view k1)) as Hstep.
  { intros l2 Ew Ep Ec. constructor; rewrite ?Ew, ?Ep; try done.
    - intros n Hne. unfold l1, on_peer. cbn. by rewrite list_lookup_alter_ne.
    - unfold l1, on_peer. cbn. by rewrite length_alter.
    - assert (peer l2 (stream_peer l i) = peer l1 (stream_peer l i)) as -> by (unfold peer; by rewrite Ep).
      unfold l1. rewrite peer_on by (unfold stream_peer; lia). exact Hm. }
  destruct (negb _); [apply wp_ret; apply Hstep; try done|].
  { intros j Hj. unfold close_slot, on_slot. cbn. by rewrite list_lookup_alter_ne. }
  destruct (_ =? 0); [by apply wp_ret, Hstep|]. apply wp_ret, Hstep; try done.
  intros j Hj. cbn. by rewrite list_lookup_alter_ne.
Qed.

(** Everything the round needs: the log can be read, and the streams that are
    due have replicas, room and cursors of their own. *)
Record streams_ready (todo : list nat) (v : fsys) (l : loop_t) (segs : list (Z * list entry)) : Prop := {
  sr_log : readable v (l_wal l) segs;
  sr_slot : ∀ i, i ∈ todo → takes_stream l i = true →
    cn_replica (slot l i) < zlen (l_peers l) ∧ MSG_HEADER_SIZE <= cn_send_cap (slot l i) < 2 ^ 31 ∧
    ∃ j pre rest, standing v segs (stream_cursor l i) j pre rest;
  sr_apart : ∀ i i', i ∈ todo → i' ∈ todo → i ≠ i' → takes_stream l i = true → takes_stream l i' = true →
    cn_replica (slot l i) ≠ cn_replica (slot l i') ∧ cu_fd (stream_cursor l i) ≠ cu_fd (stream_cursor l i') }.

(** What the round leads to: for every stream that is due, what serving it
    does; the others are not touched. *)
Record stream_round (todo : list nat) (limit : Z) (segs : list (Z * list entry)) (l : loop_t) (v : fsys)
    (l' : loop_t) (v' : fsys) : Prop := {
  so_files : f_names v' = f_names v ∧ f_disk v' = f_disk v ∧ f_inodes v' = f_inodes v;
  so_wal : l_wal l' = l_wal l;
  so_conns : ∀ j, j ∉ todo ∨ takes_stream l j = false → l_conns l' !! j = l_conns l !! j;
  so_peers : ∀ n, (∀ i, i ∈ todo → takes_stream l i = true → n ≠ stream_peer l i) → l_peers l' !! n = l_peers l !! n;
  so_fds : ∀ fd d, 0 <= fd → (∀ i, i ∈ todo → takes_stream l i = true → fd ≠ cu_fd (stream_cursor l i)) →
    f_fds v !! fd = Some d → f_fds v' !! fd = Some d;
  so_served : ∀ i j pre rest, i ∈ todo → takes_stream l i = true → standing v segs (stream_cursor l i) j pre rest →
    streamed l i segs (ahead segs j rest) limit l' v' }.

Lemma slot_same l l' i : l_conns l' !! i = l_conns l !! i → slot l' i = slot l i.
Proof. unfold slot. by intros ->. Qed.
Lemma peer_same l l' n : l_peers l' !! n = l_peers l !! n → peer l' n = peer l n.
Proof. unfold peer. by intros ->. Qed.

(** What was done for a slot stays, and what is to be done stays to be. *)
Lemma streamed_from l l1 i segs left limit l' v' :
  slot l1 i = slot l i → peer l1 (stream_peer l i) = peer l (stream_peer l i) →
  streamed l1 i segs left limit l' v' → streamed l i segs left limit l' v'.
Proof. unfold streamed, stream_peer. cbv zeta. intros -> ->. done. Qed.

Lemma streamed_until l i segs left limit l1 v1 l' v' :
  slot l' i = slot l1 i → peer l' (stream_peer l i) = peer l1 (stream_peer l i) →
  (∀ j pre rest, standing v1 segs (pe_cursor (peer l1 (stream_peer l i))) j pre rest →
     standing v' segs (pe_cursor (peer l1 (stream_peer l i))) j pre rest) →
  streamed l i segs left limit l1 v1 → streamed l i segs left limit l' v'.
Proof.
  unfold streamed, stream_peer. cbv zeta. intros -> -> Hst (run & j & pre & rest & Hl & S & Hx).
  exists run, j, pre, rest. split; [done|]. split; [by apply Hst|done].
Qed.

Lemma ready_tail i todo v l segs : streams_ready (i :: todo) v l segs → streams_ready todo v l segs.
Proof. intros [? Hs Ha]. constructor; [done|intros; apply Hs; [by right|done]|intros; apply Ha; try by right]; done. Qed.

(** After one slot, the others are as ready as they were. *)
Lemma ready_step i todo v l segs l1 v1 :
  i ∉ todo → streams_ready (i :: todo) v l segs → takes_stream l i = true → stream_step l i v l1 v1 →
  streams_ready todo v1 l1 segs ∧ ∀ j, j ∈ todo → slot l1 j = slot l j ∧
    (takes_stream l j = true → peer l1 (stream_peer l j) = peer l (stream_peer l j) ∧
       ∀ n pre rest, standing v segs (stream_cursor l j) n pre rest → standing v1 segs (stream_cursor l j) n pre rest).
Proof.
  intros Hi R Ht S.
  assert (∀ j, j ∈ todo → slot l1 j = slot l j ∧
    (takes_stream l j = true → peer l1 (stream_peer l j) = peer l (stream_peer l j) ∧
       ∀ n pre rest, standing v segs (stream_cursor l j) n pre rest → standing v1 segs (stream_cursor l j) n pre rest)) as Hj.
  { intros j Hin. assert (j ≠ i) as Hne by (by intros ->).
    split; [by apply slot_same, (sp_conns _ _ _ _ _ S)|]. intros Hjt.
    destruct (sr_apart _ _ _ _ R j i) as [Hr Hfd]; [by right|by left|done|done|done|].
    split.
    - apply peer_same, (sp_peers _ _ _ _ _ S). unfold stream_peer.
      apply takes_slot in Hjt as (_ & _ & _ & ? & _). apply takes_slot in Ht as (_ & _ & _ & ? & _). lia.
    - intros n pre rest. eapply standing_beside; [apply (sp_cursor _ _ _ _ _ S)|done]. }
  split; [|done].
  assert (∀ j, j ∈ todo → takes_stream l1 j = takes_stream l j) as Ett.
  { intros j Hin. unfold takes_stream. by destruct (Hj j Hin) as [-> _]. }
  assert (∀ j, j ∈ todo → takes_stream l j = true → stream_cursor l1 j = stream_cursor l j) as Ecur.
  { intros j Hin Hjt. unfold stream_cursor, stream_peer. destruct (Hj j Hin) as [-> Hx].
    destruct (Hx Hjt) as [E _]. unfold stream_peer in E. by rewrite E. }
  destruct (cm_files _ _ _ _ (sp_cursor _ _ _ _ _ S)) as (En & _ & Ei).
  constructor.
  - rewrite (sp_wal _ _ _ _ _ S). apply (readable_frame _ _ _ (sr_log _ _ _ _ R)); done.
  - intros j Hin. rewrite Ett by done. intros Hjt. destruct (Hj j Hin) as [Es Hx]. destruct (Hx Hjt) as [_ Hst].
    rewrite Ecur, Es, (sp_length _ _ _ _ _ S) by done.
    destruct (sr_slot _ _ _ _ R j) as (? & ? & n & pre & rest & ?); [by right|done|].
    split_and!; try (done || lia). exists n, pre, rest. by apply Hst.
  - intros j j' Hin Hin' Hne. rewrite !Ett by done. intros Hjt Hjt'.
    destruct (Hj j Hin) as [-> _], (Hj j' Hin') as [-> _]. rewrite !Ecur by done.
    apply (sr_apart _ _ _ _ R); [by right|by right|done..].
Qed.

Lemma wp_stream_round todo limit l segs (k : K) :
  NoDup todo → streams_ready todo (view k) l segs →
  wp (stream_slots todo limit l) (λ l' k', stream_round todo limit segs l (view k) l' (view k')) k.
Proof.
  intros Hnd. revert l k. induction Hnd as [|i todo Hi Hnd IH]; intros l k R; cbn [stream_slots].
  { apply wp_ret. constructor; try done. by intros ? ? ? ? ?%elem_of_nil. }
  destruct (takes_stream l i) eqn:Ht.
  2: { apply wp_bind. apply (wp_intro _ _ _ _ _ (stream_one_idle limit l i k Ht)).
    eapply wp_mono; [apply (IH l k); by eapply ready_tail|]. cbv beta. intros l' k' [F W C P D S].
    constructor; try done.
    - intros j [Hj|Hj]; apply C; [left|by right]. intros ?. apply Hj. by right.
    - intros n Hn. apply P. intros j Hj. apply Hn. by right.
    - intros fd d Hp Hn. apply D; [done|]. intros j Hj. apply Hn. by right.
    - intros j n pre rest [->|Hj]%elem_of_cons Hjt; [congruence|]. by apply S. }
  destruct (sr_slot _ _ _ _ R i ltac:(by left) Ht) as (Hn & Hcap & j0 & pre0 & rest0 & S0).
  destruct (takes_slot _ _ Ht) as (Hlen & Hu & Hc & Hr & Hst).
  apply wp_bind. destruct (stream_one limit l i k) as [l1 k1] eqn:E. apply (wp_intro _ _ _ _ _ E).
  pose proof (wp_result _ _ _ _ _ (wp_stream_step limit l i k Ht Hn) E) as S1.
  destruct (ready_step i todo _ _ _ _ _ Hi R Ht S1) as [R1 Hrest].
  eapply wp_mono; [apply (IH l1 k1 R1)|]. cbv beta. intros l' k' [(Fn & Fd & Fi) W C P D S].
  destruct S1 as [W1 C1 P1 L1 M1]. pose proof M1 as [(Gn & Gd & Gi) O1 _ _].
  assert (∀ j, j ∈ todo → takes_stream l1 j = takes_stream l j) as Ett.
  { intros j Hin. unfold takes_stream. by destruct (Hrest j Hin) as [-> _]. }
  assert (∀ j, j ∈ todo → takes_stream l j = true →
    stream_peer l1 j = stream_peer l j ∧ stream_cursor l1 j = stream_cursor l j) as Ecur.
  { intros j Hin Hjt. unfold stream_cursor, stream_peer. destruct (Hrest j Hin) as [-> Hx].
    destruct (Hx Hjt) as [Ep _]. unfold stream_peer in Ep. by rewrite Ep. }
  (** What the others leave of slot [i]. *)
  assert (slot l' i = slot l1 i ∧ peer l' (stream_peer l i) = peer l1 (stream_peer l i)) as [Eslot Epeer].
  { split; [apply slot_same, C; by left|]. apply peer_same, P. intros j Hj. rewrite Ett by done. intros Hjt.
    rewrite (proj1 (Ecur j Hj Hjt)). unfold stream_peer.
    destruct (sr_apart _ _ _ _ R i j) as [Hne _]; [by left|by right|by intros ->|done|done|].
    apply takes_slot in Hjt as (_ & _ & _ & ? & _). lia. }
  constructor.
  - split_and!; congruence.
  - congruence.
  - intros j Hj. assert (j ≠ i) as Hne by (intros ->; destruct Hj as [Hj|Hj]; [apply Hj; by left|congruence]).
    rewrite C; [by apply C1|]. destruct Hj as [Hj|Hj]; [left; intros ?; apply Hj; by right|].
    destruct (decide (j ∈ todo)); [right; by rewrite Ett|by left].
  - intros n Hnn. rewrite P; [apply P1, Hnn; [by left|done]|]. intros j Hj. rewrite Ett by done. intros Hjt.
    rewrite (proj1 (Ecur j Hj Hjt)). apply Hnn; [by right|done].
  - intros fd d Hp Hfd Hd. apply D; [done| |apply O1; [done| |done]; apply Hfd; [by left|done]].
    intros j Hj. rewrite Ett by done. intros Hjt. rewrite (proj2 (Ecur j Hj Hjt)). apply Hfd; [by right|done].
  - intros j n pre rest [->|Hj]%elem_of_cons Hjt Hs.
    + apply (streamed_until l i segs _ limit l1 (view k1)); [done|done| |].
      * intros n' pre' rest' S'. eapply standing_kept; [exact Fi| |exact S'].
        intros d Hd. apply D; [apply S'| |done]. intros j Hj. rewrite Ett by done. intros Hjt'.
        rewrite (proj2 (Ecur j Hj Hjt')). apply not_eq_sym.
        destruct (sr_slot _ _ _ _ R j ltac:(by right) Hjt') as (_ & _ & nj & pj & rj & Sj).
        destruct (standing_fd _ _ _ _ _ _ Sj) as [Hpos Hopen].
        eapply moved_apart; [exact M1| |done|done]. apply not_eq_sym.
        apply (sr_apart _ _ _ _ R i j); [by left|by right|by intros ->|done|done].
      * refine (proj2 (wp_result _ _ _ _ _ (wp_stream_one l i segs n pre rest limit k _ _ _ _ _ _ _ _) E));
          try done; apply R.
    + destruct (Hrest j Hj) as [Es Hx]. destruct (Hx Hjt) as [Ep Hkeep].
      apply (streamed_from l l1); [done|done|]. apply (S j n pre rest); [done|by rewrite Ett|].
      rewrite (proj2 (Ecur j Hj Hjt)). by apply Hkeep.
Qed.
End stream.

(** ** The subscriptions *)

Definition sub_cursor (l : loop_t) (i : nat) : wal_cursor_t := su_cursor (cn_sub (slot l i)).

(** The subscription in slot [i] is one the log is read for. *)
Definition reads_log (l : loop_t) (i : nat) : bool :=
  let c := slot l i in let s := cn_sub c in
  cn_in_use c && negb (cn_closing c) && negb (su_waiting s) && su_active s && negb (cn_want_out c)
    && (MSG_HEADER_SIZE <=? room c) && negb (su_once s && (su_until s <? cu_next_seq (su_cursor s))).

(** The mark the slots behind it are served by. *)
Definition push_mark (l : loop_t) (d : Z) (i : nat) : Z :=
  if reads_log l i then sub_limit (cn_sub (slot l i)) d else d.

Lemma sub_limit_le s d : sub_limit s d <= d.
Proof. unfold sub_limit. destruct (su_once s); cbn; [|done]. destruct (Z.ltb_spec (su_until s) d); lia. Qed.

Lemma push_mark_le l d todo : foldl (push_mark l) d todo <= d.
Proof.
  revert d. induction todo as [|i todo IH]; intros d; cbn; [done|]. etrans; [apply IH|].
  unfold push_mark. destruct (reads_log l i); [apply sub_limit_le|done].
Qed.

(** Without a bounded read in front of it a slot is served by the flushed
    mark. *)
Lemma push_mark_unbounded l d todo :
  (∀ i, i ∈ todo → reads_log l i = true → su_once (cn_sub (slot l i)) = false) → foldl (push_mark l) d todo = d.
Proof.
  intros Ho. revert Ho. induction todo as [|i todo IH]; intros Ho; cbn; [done|].
  assert (push_mark l d i = d) as ->; [|apply IH; intros j Hj; apply Ho; by right].
  unfold push_mark, sub_limit. destruct (reads_log l i) eqn:E; [|done]. by rewrite (Ho i ltac:(by left) E).
Qed.

Lemma reads_serving l i : reads_log l i = true → room (slot l i) < 2 ^ 31 → serving l i.
Proof.
  unfold reads_log. cbv zeta. rewrite !andb_true_iff, !negb_true_iff, Z.leb_le.
  intros [[[[[[Hu Hc] Hw] Ha] Hq] Hr] Ho] Hb. constructor; try done.
  - destruct (decide (i < length (l_conns l))%nat) as [|Hn]; [done|]. exfalso. unfold slot in Hu.
    rewrite lookup_ge_None_2 in Hu by lia. done.
  - intros E. rewrite E in Ho. cbn in Ho. by apply Z.ltb_ge in Ho.
Qed.

(** A change of slot [i] alone that leaves its cursor. *)
Record beside (i : nat) (l l' : loop_t) : Prop := {
  be_wal : l_wal l' = l_wal l;
  be_conns : ∀ j, j ≠ i → l_conns l' !! j = l_conns l !! j;
  be_length : length (l_conns l') = length (l_conns l);
  be_cursor : sub_cursor l' i = sub_cursor l i }.

#[export] Instance beside_preorder i : PreOrder (beside i).
Proof.
  split; [by constructor|]. intros a b c [W1 C1 L1 S1] [W2 C2 L2 S2].
  constructor; [congruence| |congruence|congruence]. intros j Hj. by rewrite C2, C1.
Qed.

Lemma beside_same i l l' : l_wal l' = l_wal l → l_conns l' = l_conns l → beside i l l'.
Proof. intros W C. constructor; rewrite ?C; try done. unfold sub_cursor, slot. by rewrite C. Qed.

Lemma beside_slot i f l :
  (∀ c, su_cursor (cn_sub (f c)) = su_cursor (cn_sub c)) → beside i l (on_slot i f l).
Proof.
  intros Hf. unfold on_slot. constructor; cbn; [done| |by rewrite length_alter|].
  - intros j Hj. by rewrite list_lookup_alter_ne.
  - unfold sub_cursor, slot. cbn. rewrite list_lookup_alter, decide_True by done.
    destruct (l_conns l !! i); [|done]. apply Hf.
Qed.

Lemma beside_reply_to i op fl q p l : beside i l (reply_to i op fl q p l).
Proof. apply beside_slot. intros c. by rewrite reply_keeps. Qed.
Lemma beside_reply_err i code q l : beside i l (reply_err i code q l).
Proof. etrans; [|apply beside_reply_to]. by apply beside_same. Qed.
Lemma beside_on_sub i f l : (∀ s, su_cursor (f s) = su_cursor s) → beside i l (on_sub i f l).
Proof. intros Hf. apply beside_slot. intros c. apply Hf. Qed.
Lemma beside_progress i l l' : beside i l l' → beside i l (l' <| l_progress := true |>).
Proof. intros Hb. etrans; [exact Hb|]. by apply beside_same. Qed.
Lemma beside_close i l : beside i l (close_slot i l).
Proof. by apply beside_slot. Qed.

Lemma notify_cursor fuel c buf got at_ n : cn_sub (notify_loop fuel c buf got at_ n).1 = cn_sub c.
Proof.
  revert c at_ n. induction fuel as [|fuel IH]; intros c at_ n; cbn [notify_loop]; [done|].
  destruct (_ <=? _); [done|]. cbv zeta. destruct (wal_rec_decode _ _); [|done].
  destruct (_ || _); [done|]. destruct (_ || _); [|apply IH]. rewrite IH. unfold reply_record.
  by destruct (_ <? _).
Qed.

(** What serving slot [i] changes. *)
Record push_step (l : loop_t) (i : nat) (v : fsys) (l' : loop_t) (v' : fsys) : Prop := {
  pp_wal : l_wal l' = l_wal l;
  pp_conns : ∀ j, j ≠ i → l_conns l' !! j = l_conns l !! j;
  pp_cursor : cursor_moves v v' (sub_cursor l i) (sub_cursor l' i) }.

Lemma push_step_beside l i v l' : beside i l l' → push_step l i v l' v.
Proof. intros [W C L S]. constructor; [done|done|]. rewrite S. by apply cursor_moves_same. Qed.

Section push.
Context {K : Type} `{SysLaws K}.

(** The cursor is given up or moved on. *)
Lemma push_step_cursor l i l1 v cur v' l' :
  (i < length (l_conns l))%nat → beside i l l1 → cursor_moves v v' (sub_cursor l i) cur →
  beside i (on_sub i (λ s, s <| su_cursor := cur |>) l1) l' → push_step l i v l' v'.
Proof.
  intros Hi [W1 C1 L1 _] Hm [W2 C2 L2 S2]. constructor; [by rewrite W2| |].
  - intros j Hj. rewrite C2 by done. unfold on_sub, on_slot. cbn. rewrite list_lookup_alter_ne by done. by apply C1.
  - rewrite S2. unfold sub_cursor at 2, on_sub. rewrite slot_on by lia. exact Hm.
Qed.

Lemma closed_moves v c : cursor_moves v (if 0 <=? cu_fd c then del_fd (cu_fd c) v else v) c wal_cursor_init.
Proof.
  constructor; [by destruct (0 <=? _)| |by right; left|by intros _ ?].
  intros fd d Hp Hne Hd. destruct (0 <=? _); [|done]. cbn. by rewrite lookup_delete_ne.
Qed.

Lemma wp_push_step d n l i (k : K) :
  wp (push_one d n l i) (λ x k', push_step l i (view k) x.1 (view k') ∧ x.2 = push_mark l d i) k.
Proof.
  assert (∀ l', beside i l l' → push_step l i (view k) l' (view k)) as Hsame by (intros; by apply push_step_beside).
  unfold push_one, push_mark, reads_log. cbv zeta.
  destruct (cn_in_use (slot l i)) eqn:Hu; cbn [negb orb andb]; [|apply wp_ret; split; [by apply Hsame|done]].
  assert (i < length (l_conns l))%nat as Hi.
  { destruct (decide (i < length (l_conns l))%nat) as [|Hn]; [done|]. exfalso. unfold slot in Hu.
    rewrite lookup_ge_None_2 in Hu by lia. done. }
  destruct (cn_closing (slot l i)); cbn [negb orb andb]; [apply wp_ret; split; [by apply Hsame|done]|].
  destruct (su_waiting (cn_sub (slot l i))); cbn [negb orb andb].
  { destruct (_ <=? _); [apply wp_ret; split; [|done]|].
    { apply Hsame, beside_progress. etrans; [|apply beside_reply_to]. by apply beside_on_sub. }
    destruct (_ <=? _); [|apply wp_ret; split; [by apply Hsame|done]].
    call wp_cursor_close as [r cur] k1 [Hcur Hv]. cbn [snd] in Hcur. subst cur. apply wp_ret. split; [|done].
    cbn [fst]. eapply push_step_cursor; [done| |rewrite Hv; apply closed_moves|reflexivity].
    etrans; [|apply beside_reply_err]. by apply beside_on_sub. }
  destruct (su_active (cn_sub (slot l i))); cbn [negb orb andb]; [|apply wp_ret; split; [by apply Hsame|done]].
  destruct (cn_want_out (slot l i)); cbn [negb orb andb]; [apply wp_ret; split; [by apply Hsame|done]|].
  destruct (Z.ltb_spec (room (slot l i)) MSG_HEADER_SIZE) as [Hr|Hr].
  { rewrite (proj2 (Z.leb_gt _ _)) by done. apply wp_ret. split; [by apply Hsame|done]. }
  rewrite (proj2 (Z.leb_le _ _)) by done. cbn [andb].
  destruct (su_once _ && (_ <? cu_next_seq _)); cbn [negb].
  { call wp_cursor_close as [r cur] k1 [Hcur Hv]. cbn [snd] in Hcur. subst cur. apply wp_ret. split; [|done].
    cbn [fst]. eapply push_step_cursor; [done| |rewrite Hv; apply closed_moves|reflexivity].
    etrans; [apply beside_reply_to|apply beside_on_sub; by intros []]. }
  fold (sub_limit (cn_sub (slot l i)) d). eapply wp_call; [apply moves_read|]. cbv beta.
  intros [[r cur] data] k1 Hm. cbn [fst snd] in Hm.
  destruct (negb _).
  { apply wp_ret. split; [|done]. cbn [fst]. eapply push_step_cursor; [done|reflexivity|exact Hm|].
    etrans; [apply beside_reply_err|apply beside_close]. }
  set (l1 := on_sub i _ l). set (l2 := if 0 <? _ then _ else l1).
  assert (beside i l1 l2) as Hb by (unfold l2; destruct (0 <? _); [by apply beside_same|done]).
  destruct (notify_loop _ _ _ _ _ _) as [c' sent] eqn:En. apply wp_ret. split; [|done].
  cbn [fst]. eapply push_step_cursor; [done|reflexivity|exact Hm|]. fold l1. etrans; [exact Hb|].
  assert (cn_sub c' = cn_sub (slot l2 i)) as Ec.
  { change c' with (c', sent).1. rewrite <-En. apply notify_cursor. }
  assert (beside i l2 (on_slot i (λ _, c') l2)) as Hb2.
  { constructor; [done| |by unfold on_slot; cbn; rewrite length_alter|].
    - intros j Hj. unfold on_slot. cbn. by rewrite list_lookup_alter_ne.
    - unfold sub_cursor. rewrite slot_on; [by rewrite Ec|].
      rewrite (be_length _ _ _ Hb). unfold l1, on_sub, on_slot. cbn. by rewrite length_alter. }
  etrans; [exact Hb2|]. by apply beside_same.
Qed.

(** Everything the round needs: the log can be read, the cursors are open and
    apart, and those the log is read for stand in it. *)
Record pushes_ready (todo : list nat) (v : fsys) (l : loop_t) (segs : list (Z * list entry)) : Prop := {
  pr_log : readable v (l_wal l) segs;
  pr_sub : ∀ i, i ∈ todo → reads_log l i = true →
    room (slot l i) < 2 ^ 31 ∧ ∃ j pre rest, standing v segs (sub_cursor l i) j pre rest;
  pr_open : ∀ i, i ∈ todo → 0 <= cu_fd (sub_cursor l i) → is_Some (f_fds v !! cu_fd (sub_cursor l i));
  pr_apart : ∀ i i', i ∈ todo → i' ∈ todo → i ≠ i' → 0 <= cu_fd (sub_cursor l i) →
    cu_fd (sub_cursor l i) ≠ cu_fd (sub_cursor l i') }.

(** What the round leads to: for every subscription the log is read for, what
    serving it by the mark that has come down to it does. *)
Record push_round (todo : list nat) (d n : Z) (segs : list (Z * list entry)) (l : loop_t) (v : fsys)
    (l' : loop_t) (v' : fsys) : Prop := {
  pu_files : f_names v' = f_names v ∧ f_disk v' = f_disk v ∧ f_inodes v' = f_inodes v;
  pu_wal : l_wal l' = l_wal l;
  pu_conns : ∀ j, j ∉ todo → l_conns l' !! j = l_conns l !! j;
  pu_fds : ∀ fd x, 0 <= fd → (∀ i, i ∈ todo → fd ≠ cu_fd (sub_cursor l i)) →
    f_fds v !! fd = Some x → f_fds v' !! fd = Some x;
  pu_served : ∀ before i after j pre rest, todo = before ++ i :: after → reads_log l i = true →
    standing v segs (sub_cursor l i) j pre rest →
    pushed l i segs (ahead segs j rest) (sub_limit (cn_sub (slot l i)) (foldl (push_mark l) d before))
      (Z.min n (room (slot l i))) l' v' }.

Lemma pushed_from l l1 i segs left limit n l' v' :
  slot l1 i = slot l i → pushed l1 i segs left limit n l' v' → pushed l i segs left limit n l' v'.
Proof. unfold pushed. cbv zeta. by intros ->. Qed.

Lemma pushed_until l i segs left limit n l1 v1 l' v' :
  slot l' i = slot l1 i →
  (∀ j pre rest, standing v1 segs (sub_cursor l1 i) j pre rest → standing v' segs (sub_cursor l1 i) j pre rest) →
  pushed l i segs left limit n l1 v1 → pushed l i segs left limit n l' v'.
Proof.
  unfold pushed, sub_cursor. cbv zeta. intros -> Hst (run & j & pre & rest & Hl & S & Hx).
  exists run, j, pre, rest. split; [done|]. split; [by apply Hst|done].
Qed.

Lemma push_mark_same l l1 d todo :
  (∀ j, j ∈ todo → slot l1 j = slot l j) → foldl (push_mark l1) d todo = foldl (push_mark l) d todo.
Proof.
  revert d. induction todo as [|i todo IH]; intros d Hs; cbn; [done|].
  assert (push_mark l1 d i = push_mark l d i) as ->; [|by apply IH; intros j Hj; apply Hs; right].
  unfold push_mark, reads_log. by rewrite (Hs i) by left.
Qed.

Lemma reads_same l l1 i : slot l1 i = slot l i → reads_log l1 i = reads_log l i ∧ sub_cursor l1 i = sub_cursor l i.
Proof. unfold reads_log, sub_cursor. by intros ->. Qed.

(** After one slot, the others are as ready as they were. *)
Lemma pushes_step i todo v l segs l1 v1 :
  i ∉ todo → pushes_ready (i :: todo) v l segs → push_step l i v l1 v1 →
  pushes_ready todo v1 l1 segs ∧ ∀ j, j ∈ todo → slot l1 j = slot l j ∧
    ∀ n pre rest, standing v segs (sub_cursor l j) n pre rest → standing v1 segs (sub_cursor l j) n pre rest.
Proof.
  intros Hi [Rl Rs Ro Ra] [W C M]. pose proof M as [(En & Ed & Ei) Op _ _].
  assert (∀ j, j ∈ todo → slot l1 j = slot l j ∧
    ∀ n pre rest, standing v segs (sub_cursor l j) n pre rest → standing v1 segs (sub_cursor l j) n pre rest) as Hj.
  { intros j Hin. assert (j ≠ i) as Hne by (by intros ->). split; [by apply slot_same, C|].
    intros n pre rest S. eapply standing_beside; [exact M| |done].
    apply Ra; [by right|by left|done|apply S]. }
  split; [|done].
  assert (∀ j, j ∈ todo → reads_log l1 j = reads_log l j ∧ sub_cursor l1 j = sub_cursor l j) as Er.
  { intros j Hin. by apply reads_same, Hj. }
  constructor.
  - rewrite W. apply (readable_frame _ _ _ Rl); done.
  - intros j Hin. destruct (Er j Hin) as [-> ->]. destruct (Hj j Hin) as [-> Hst]. intros Hr.
    destruct (Rs j) as (? & n & pre & rest & ?); [by right|done|]. split; [done|]. exists n, pre, rest. by apply Hst.
  - intros j Hin. destruct (Er j Hin) as [_ ->]. intros Hp. destruct (Ro j) as [x Hx]; [by right|done|].
    exists x. apply Op; [done| |done]. apply Ra; [by right|by left|by intros ->|done].
  - intros j j' Hin Hin'. destruct (Er j Hin) as [_ ->], (Er j' Hin') as [_ ->]. apply Ra; by right.
Qed.

Lemma wp_push_round todo d n l segs (k : K) :
  NoDup todo → 0 <= n → pushes_ready todo (view k) l segs →
  wp (push_slots todo d n l) (λ l' k', push_round todo d n segs l (view k) l' (view k')) k.
Proof.
  intros Hnd Hn0. revert l d k. induction Hnd as [|i todo Hi Hnd IH]; intros l d k R; cbn [push_slots].
  { apply wp_ret. constructor; try done. intros [|? before]; intros; discriminate. }
  apply wp_bind. destruct (push_one d n l i k) as [[l1 d1] k1] eqn:E. apply (wp_intro _ _ _ _ _ E).
  destruct (wp_result _ _ _ _ _ (wp_push_step d n l i k) E) as [S1 Ed1]. cbn [fst snd] in S1, Ed1. subst d1.
  destruct (pushes_step i todo _ _ _ _ _ Hi R S1) as [R1 Hrest].
  eapply wp_mono; [apply (IH l1 _ k1 R1)|]. cbv beta. intros l' k' [(Fn & Fd & Fi) W C D S].
  destruct S1 as [W1 C1 M1]. pose proof M1 as [(Gn & Gd & Gi) O1 _ _].
  assert (∀ j, j ∈ todo → reads_log l1 j = reads_log l j ∧ sub_cursor l1 j = sub_cursor l j) as Er.
  { intros j Hin. by apply reads_same, Hrest. }
  constructor.
  - split_and!; congruence.
  - congruence.
  - intros j Hj. rewrite C; [apply C1; intros ->; apply Hj; by left|]. intros ?. apply Hj. by right.
  - intros fd x Hp Hfd Hx. apply D; [done| |apply O1; [done|apply Hfd; by left|done]].
    intros j Hj. destruct (Er j Hj) as [_ ->]. apply Hfd. by right.
  - intros [|i0 before] i' after j pre rest [= -> ->] Hr Hs; cbn [foldl].
    + destruct (pr_sub _ _ _ _ R i') as [Hroom _]; [by left|done|].
      apply (pushed_until l i' segs _ _ _ l1 (view k1)).
      * apply slot_same, C, Hi.
      * intros n' pre' rest' S'. eapply standing_kept; [exact Fi| |exact S'].
        intros x Hx. apply D; [apply S'| |done]. intros j' Hj'. destruct (Er j' Hj') as [_ ->].
        destruct (decide (0 <= cu_fd (sub_cursor l j'))) as [Hp|Hp]; [|pose proof (sd_fd _ _ _ _ _ _ S'); lia].
        apply not_eq_sym. eapply moved_apart; [exact M1| |done|apply (pr_open _ _ _ _ R); [by right|done]].
        apply (pr_apart _ _ _ _ R); [by right|by left|by intros ->|done].
      * refine (proj2 (proj2 (wp_result _ _ _ _ _ (wp_push_one l i' segs j pre rest d n k _ _ _ _) E)));
          [by apply reads_serving|done|apply R|done].
    + assert (i' ∈ before ++ i' :: after) as Hin by set_solver.
      destruct (Hrest i' Hin) as [Es Hst]. destruct (Er i' Hin) as [Er1 Er2].
      apply (pushed_from l l1); [done|].
      rewrite <-Es at 1. rewrite <-(push_mark_same l l1) by (intros j' Hj'; apply Hrest; set_solver).
      rewrite <-Es. apply (S before i' after j pre rest); [done|by rewrite Er1|]. rewrite Er2. by apply Hst.
Qed.
End push.

(** ** What the rounds promise *)

Lemma slots_apart : NoDup slots.
Proof. unfold slots. apply NoDup_seq. Qed.

Module RoundProps.
Import Sim WalProps CursorProps LogProps.

(** C20. The streams carry the durable log and nothing else.  One round
    serves every attached replica whose last frame has gone: it stages one
    frame of the next records in front of the replica's cursor, whole, in
    sequence, none above the mark up to which the log is flushed and within
    the send buffer, and moves the cursor behind exactly these.  Nothing is
    staged only when no durable record is left, the next one does not fit the
    send buffer, or the read failed and the connection is being closed.  The
    log, the files and every other connection stay as they were. *)
Theorem stream_carries_durable {K : Type} `{SysLaws K} (l : loop_t) (segs : list (Z * list entry)) (k : K)
    (R : streams_ready slots (view k) l segs) :
  wp (repl_stream l) (λ l' k',
    f_names (view k') = f_names (view k) ∧ f_inodes (view k') = f_inodes (view k) ∧ l_wal l' = l_wal l ∧
    (∀ i, takes_stream l i = false → slot l' i = slot l i) ∧
    ∀ i j pre rest, i ∈ slots → takes_stream l i = true → standing (view k) segs (stream_cursor l i) j pre rest →
      streamed l i segs (ahead segs j rest) (wal_durable_seq (l_wal l)) l' (view k')) k.
Proof.
  unfold repl_stream. eapply wp_mono; [exact (wp_stream_round slots _ l segs k slots_apart R)|]. cbv beta.
  intros l' k' [(Fn & _ & Fi) W C _ _ S]. split_and!; try done.
  intros i Hi. apply slot_same, C. by right.
Qed.

(** Only slot 0 of the demonstration has a stream. *)
Lemma demo_stream_slot i : i ∈ slots → takes_stream demo_streaming i = true → i = 0%nat.
Proof.
  intros Hi Ht. assert (Forall (λ i, i = 0%nat ∨ takes_stream demo_streaming i = false) slots) as Hall.
  { apply (bool_decide_unpack _). by vm_compute. }
  apply (proj1 (Forall_forall _ _) Hall) in Hi as [->|E]; [done|congruence].
Qed.

Lemma demo_streams_ready : streams_ready slots (view CursorProps.demo) demo_streaming CursorProps.demo_segs.
Proof.
  constructor.
  - apply CursorProps.demo_readable.
  - intros i Hi Ht. rewrite (demo_stream_slot i Hi Ht). split; [by vm_compute|].
    split; [vm_compute; split; [discriminate|reflexivity]|]. exists 0%nat, [], [demo_a]. exact demo_at_start.
  - intros i i' Hi Hi' Hne Ht Ht'. destruct Hne. by rewrite (demo_stream_slot i Hi Ht), (demo_stream_slot i' Hi' Ht').
Qed.

(** The log holds two records and only the first is flushed: it alone is
    sent. *)
Lemma stream_carries_durable_witness :
  wp (repl_stream demo_streaming) (λ l' k',
    streamed demo_streaming 0 CursorProps.demo_segs [demo_a; demo_b] 1 l' (view k')) CursorProps.demo ∧
  bool_decide (cn_staged (slot (repl_stream demo_streaming CursorProps.demo).1 0) = data_frame 1 [demo_a]) = true.
Proof.
  split; [|vm_compute; reflexivity].
  eapply wp_mono; [exact (stream_carries_durable demo_streaming CursorProps.demo_segs CursorProps.demo demo_streams_ready)|].
  cbv beta. intros l' k' (_ & _ & _ & _ & S).
  exact (S 0%nat 0%nat [] [demo_a] ltac:(by left) ltac:(vm_compute; reflexivity) demo_at_start).
Defined.

(** C21. A subscription misses nothing it can be sent.  One round serves every
    subscription the log is read for: it reads the next records in front of
    the cursor, whole and none skipped, and stages a frame for each of them
    the client asked for, in order and without running out of room; the
    cursor then stands behind exactly the records read.  None is above the
    mark the slot is served by, nor above the end of a bounded read.  That
    mark is the one up to which the log is flushed, lowered by the bounded
    reads in front of the slot; without such a read it is the flushed mark
    itself.  Nothing is read only when no record up to that mark is left or
    the next one does not fit the room, and a read that fails closes the
    connection. *)
Theorem subscription_misses_nothing {K : Type} `{SysLaws K} (l : loop_t) (scratch_len : Z)
    (segs : list (Z * list entry)) (i : nat) (j : nat) (pre rest : list entry) (k : K)
    (Hscr : 0 <= scratch_len) (R : pushes_ready slots (view k) l segs)
    (Hi : i ∈ slots) (Hreads : reads_log l i = true)
    (S : standing (view k) segs (sub_cursor l i) j pre rest) :
  let durable := wal_durable_seq (l_wal l) in
  let mark := foldl (push_mark l) durable (take i slots) in
  mark <= durable ∧
  ((∀ i', (i' < i)%nat → reads_log l i' = true → su_once (cn_sub (slot l i')) = false) → mark = durable) ∧
  wp (subs_push l scratch_len) (λ l' k', f_names (view k') = f_names (view k) ∧
    f_inodes (view k') = f_inodes (view k) ∧ l_wal l' = l_wal l ∧
    pushed l i segs (ahead segs j rest) (sub_limit (cn_sub (slot l i)) mark)
      (Z.min scratch_len (room (slot l i))) l' (view k')) k.
Proof.
  cbv zeta. apply elem_of_seq in Hi as Hlt. split; [apply push_mark_le|]. split.
  - intros Ho. apply push_mark_unbounded. intros i' Hi'. apply Ho.
    unfold slots in Hi'. rewrite take_seq in Hi'. apply elem_of_seq in Hi'. lia.
  - unfold subs_push. eapply wp_mono; [exact (wp_push_round slots _ scratch_len l segs k slots_apart Hscr R)|]. cbv beta.
    intros l' k' [(Fn & _ & Fi) W _ _ Hp]. split_and!; try done.
    apply (Hp (take i slots) i (drop (Datatypes.S i) slots) j pre rest); [|done..].
    symmetry. apply take_drop_middle. unfold slots. rewrite lookup_seq_lt by lia. done.
Qed.

(** Only slot 1 of the demonstration has a subscription. *)
Lemma demo_sub_slot i : i ∈ slots → i = 1%nat ∨ (reads_log demo_followed i = false ∧ cu_fd (sub_cursor demo_followed i) = -1).
Proof.
  intros Hi.
  assert (Forall (λ i, i = 1%nat ∨ (reads_log demo_followed i = false ∧ cu_fd (sub_cursor demo_followed i) = -1)) slots) as Hall.
  { apply (bool_decide_unpack _). by vm_compute. }
  exact (proj1 (Forall_forall _ _) Hall i Hi).
Qed.

Lemma demo_pushes_ready : pushes_ready slots (view CursorProps.demo) demo_followed CursorProps.demo_segs.
Proof.
  constructor.
  - apply CursorProps.demo_readable.
  - intros i [->|[E _]]%demo_sub_slot Hr; [|congruence]. split; [by vm_compute|]. exists 0%nat, [], [demo_a]. exact demo_at_start.
  - intros i [->|[_ E]]%demo_sub_slot Hr; [|lia]. by eexists.
  - intros i i' [->|[_ E]]%demo_sub_slot [->|[_ E']]%demo_sub_slot Hne Hp; try done; lia || (rewrite E'; vm_compute; discriminate).
Qed.

Lemma subscription_misses_nothing_witness :
  wp (subs_push demo_followed 4096) (λ l' k',
    pushed demo_followed 1 CursorProps.demo_segs [demo_a; demo_b] 1 4096 l' (view k')) CursorProps.demo ∧
  bool_decide (cn_staged (slot (subs_push demo_followed 4096 CursorProps.demo).1 1) = notice demo_a) = true.
Proof.
  split; [|vm_compute; reflexivity].
  eapply wp_mono; [exact (proj2 (proj2 (subscription_misses_nothing demo_followed 4096 CursorProps.demo_segs 1 0 [] [demo_a]
    CursorProps.demo ltac:(discriminate) demo_pushes_ready ltac:(by right; left) ltac:(vm_compute; reflexivity) demo_at_start)))|].
  cbv beta. intros l' k' (_ & _ & _ & S). exact S.
Defined.

End RoundProps.
