(* ===== verification/LoopOwn.v ===== *)
(** * What the loop holds

    The descriptors the loop's state names are open, of the right kind, and
    no two parts of it name the same one; the log is in use, with a history
    that backs what is owed to the clients.  This
    file states the invariant, [held], and what keeps it in general;
    [LoopPass] shows that no step of a pass breaks it, a leader's or a
    replica's, so everything [Durable] says of a log holds of the server's at
    any moment. *)

From S2P Require Import Prelude Core Crc32c Fmt Msg Conn Record Index Os Session Segment Wal Cursor Reopen Crash Durable.
From S2P Require Import LoopState LoopFrames LoopServe Metrics LoopTick LoopSpec LoopFacts LoopRecv.

#[local] Arguments wal_next_seq : simpl never.
#[local] Arguments wal_durable_seq : simpl never.
#[local] Arguments ack_stage : simpl never.

(** ** Descriptors *)

(** The places of the state that name a descriptor; the process has 1 and 2
    for its messages. *)
Inductive holder :=
| HOut | HErr | HEpoll | HListen | HSignal | HTimer | HMetrics | HStream
| HConn (i : nat) | HSub (i : nat) | HPeer (i : nat) | HScrape (i : nat) | HActive | HDir.
#[export] Instance holder_eq_dec : EqDecision holder.
Proof. solve_decision. Defined.

Definition sub_fd (c : loop_conn_t) : Z := cu_fd (su_cursor (cn_sub c)).
Definition peer_fd (p : loop_peer_t) : Z := cu_fd (pe_cursor p).

Definition fd_of (l : loop_t) (h : holder) : Z :=
  match h with
  | HOut => 1
  | HErr => 2
  | HEpoll => l_epoll_fd l
  | HListen => l_listen_fd l
  | HSignal => l_signal_fd l
  | HTimer => l_timer_fd l
  | HMetrics => l_metrics_fd l
  | HStream => rs_fd (l_stream l)
  | HConn i => cn_fd (slot l i)
  | HSub i => sub_fd (slot l i)
  | HPeer i => peer_fd (peer l i)
  | HScrape i => sc_fd (scrape l i)
  | HActive => g_fd (wl_active (l_wal l))
  | HDir => wl_dir_fd (l_wal l)
  end.

Definition kind_ok (h : holder) (d : fdesc) : Prop :=
  match h with
  | HActive | HSub _ | HPeer _ => ∃ ino, d = FFile ino
  | HDir => ∃ todo, d = FDir todo
  | _ => d = FOther
  end.

Record owned (v : fsys) (l : loop_t) : Prop := {
  own_open : ∀ h, 0 <= fd_of l h → ∃ d, f_fds v !! fd_of l h = Some d ∧ kind_ok h d;
  own_apart : ∀ h h', 0 <= fd_of l h → fd_of l h = fd_of l h' → h = h' }.

(** A step that concerns the descriptor of [h0]: every other holder keeps its
    own or gives it up, every other descriptor stays open, and what [h0] has
    after the step is what it had or was free. *)
Record moved (h0 : holder) (v v' : fsys) (l l' : loop_t) : Prop := {
  mv_holders : ∀ h, h ≠ h0 → fd_of l' h = fd_of l h ∨ fd_of l' h < 0;
  mv_fds : ∀ fd d, 0 <= fd → fd ≠ fd_of l h0 → f_fds v !! fd = Some d → f_fds v' !! fd = Some d;
  mv_own : 0 <= fd_of l' h0 →
    (fd_of l' h0 = fd_of l h0 ∨ f_fds v !! fd_of l' h0 = None) ∧
    ∃ d, f_fds v' !! fd_of l' h0 = Some d ∧ kind_ok h0 d }.

Lemma owned_moved h0 v v' l l' : owned v l → moved h0 v v' l l' → owned v' l'.
Proof.
  intros [Ho Ha] [Mh Mf M0].
  assert (∀ h, h ≠ h0 → 0 <= fd_of l' h → fd_of l' h = fd_of l h ∧ fd_of l h ≠ fd_of l h0 ∧
    ∃ d, f_fds v !! fd_of l h = Some d ∧ kind_ok h d) as Hold.
  { intros h Hne Hp. destruct (Mh h Hne) as [E|]; [|lia]. rewrite E in *. split; [done|].
    split; [intros Heq; by apply Hne, Ha|by apply Ho]. }
  assert (∀ h, h ≠ h0 → 0 <= fd_of l' h → fd_of l' h ≠ fd_of l' h0) as Hnew.
  { intros h Hne Hp Heq. destruct (Hold h Hne Hp) as (E & Hn & d & Hd & _).
    destruct M0 as [[E0|E0] _]; [lia|congruence..]. }
  constructor.
  - intros h Hp. destruct (decide (h = h0)) as [->|Hne]; [by apply M0|].
    destruct (Hold h Hne Hp) as (E & Hn & d & Hd & Hk). exists d. rewrite E in *. split; [by apply Mf|done].
  - intros h h' Hp Heq. destruct (decide (h = h0)) as [->|Hne], (decide (h' = h0)) as [->|Hne']; [done|..].
    + destruct (Hnew h' Hne'); [lia|done].
    + by destruct (Hnew h Hne).
    + destruct (Hold h Hne Hp) as (E & _). destruct (Hold h' Hne') as (E' & _); [lia|]. apply Ha; lia.
Qed.

Lemma owned_fewer v l l' :
  owned v l → (∀ h, fd_of l' h = fd_of l h ∨ fd_of l' h < 0) → owned v l'.
Proof.
  intros Ho Hf. apply (owned_moved HErr v v l l'); [done|]. constructor; [auto|done|].
  intros Hp. split; [by left|]. exact (own_open _ _ Ho HErr Hp).
Qed.

(** A descriptor nothing in the loop names. *)
Definition unheld (l : loop_t) (fd : Z) : Prop := ∀ h, 0 <= fd_of l h → fd_of l h ≠ fd.

Lemma fresh_unheld v l fd : owned v l → f_fds v !! fd = None → unheld l fd.
Proof. intros Ho Hn h Hp <-. destruct (own_open _ _ Ho h Hp) as (d & Hd & _). congruence. Qed.

(** ** What backs what is owed *)

(** The record of a client's write is in the history. *)
Definition written_by (hist : list entry) (session client_seq : Z) : Prop :=
  ∃ e, e ∈ hist ∧ w_session e.1 = session ∧ w_client_seq e.1 = client_seq.

Definition backed (hist : list entry) (session client_seq : Z) : Prop :=
  client_seq = 0 ∨ written_by hist session client_seq.

Record slot_ok (hist : list entry) (c : loop_conn_t) : Prop := {
  so_buf : zlen (c_buf (cn_conn c)) = LOOP_RECV_CAP;
  so_conn : cn_in_use c = true → conn_wf (cn_conn c) ∧ c_buf_cap (cn_conn c) = LOOP_RECV_CAP ∧
              c_mode (cn_conn c) = CONN_MODE_CLIENT;
  so_fresh : c_opened (cn_conn c) = false → blank c;
  so_local : backed hist (cn_session c) (oa_client_seq (cn_ack_local c));
  so_repl : backed hist (cn_session c) (oa_client_seq (cn_ack_repl c)) }.

(** A session's mark is the client sequence of a record of its own. *)
Definition session_ok (hist : list entry) (s : session_t) : Prop :=
  0 <= ss_id s < 2 ^ 64 ∧ 0 <= ss_last s < 2 ^ 64 ∧ backed hist (ss_id s) (ss_last s).

Definition table_ok (hist : list entry) (t : session_table_t) : Prop :=
  Forall (session_ok hist) (st_entries t).

Lemma backed_more hist more s q : backed hist s q → backed (hist ++ more) s q.
Proof. intros [?|(e & ? & ?)]; [by left|right]. exists e. split; [apply elem_of_app; by left|done]. Qed.

Lemma slot_ok_more hist more c : slot_ok hist c → slot_ok (hist ++ more) c.
Proof. intros []. constructor; auto using backed_more. Qed.

Lemma table_ok_more hist more t : table_ok hist t → table_ok (hist ++ more) t.
Proof. intros Ht. eapply Forall_impl; [exact Ht|]. intros s (? & ? & ?). do 2 (split; [done|]). by apply backed_more. Qed.

Lemma slot_ok_same hist c c' :
  cn_conn c' = cn_conn c → cn_in_use c' = cn_in_use c → cn_session c' = cn_session c →
  (cn_ack_local c' = cn_ack_local c ∨ cn_ack_local c' = ack_none) →
  (cn_ack_repl c' = cn_ack_repl c ∨ cn_ack_repl c' = ack_none) → slot_ok hist c → slot_ok hist c'.
Proof.
  intros Ec Eu Es El Er [Hb Hc Hf Hl Hr]. constructor; rewrite ?Ec, ?Eu, ?Es; try done.
  - intros Hop. destruct (Hf Hop) as [E1 E2]. split; [destruct El|destruct Er]; congruence.
  - destruct El as [-> | ->]; [done|by left].
  - destruct Er as [-> | ->]; [done|by left].
Qed.

Lemma slot_ok_free hist buf : zlen buf = LOOP_RECV_CAP → slot_ok hist (slot_free buf).
Proof. intros. constructor; try done; by left. Qed.

(** The stream to the leader: a leader has none, and a replica that receives
    on it has its buffer in order. *)
Record stream_ok (follower : bool) (s : loop_stream_t) : Prop := {
  st_role : follower = false → rs_fd s < 0 ∧ rs_connecting s = false;
  st_buf : zlen (c_buf (rs_conn s)) = LOOP_REPL_CAP;
  st_conn : 0 <= rs_fd s → rs_connecting s = false → rs_closing s = false →
              conn_wf (rs_conn s) ∧ c_buf_cap (rs_conn s) = LOOP_REPL_CAP }.

Lemma stream_ok_same follower s s' :
  rs_fd s' = rs_fd s ∨ rs_fd s' < 0 → rs_connecting s' = rs_connecting s → rs_conn s' = rs_conn s →
  (rs_closing s' = false → rs_fd s' < 0 ∨ rs_closing s = false) → stream_ok follower s → stream_ok follower s'.
Proof.
  intros Ef Ec En Ecl [Hr Hb Hc]. constructor; rewrite ?Ec, ?En; [|done|].
  - intros Hl. destruct (Hr Hl). split; [|done]. destruct Ef; lia.
  - intros Hp Hcon Hcl. destruct (Ecl Hcl); [lia|]. destruct Ef as [Ef|]; [|lia]. apply Hc; [lia|done..].
Qed.

(** ** The invariant *)

(** What the steps of this file leave alone, but for descriptors given up. *)
Record still (l l' : loop_t) : Prop := {
  sl_wal : l_wal l' = l_wal l;
  sl_sessions : l_sessions l' = l_sessions l;
  sl_stream : stream_ok (l_is_follower l) (l_stream l) → stream_ok (l_is_follower l') (l_stream l');
  sl_slots : ∀ i c', l_conns l' !! i = Some c' →
               ∃ c, l_conns l !! i = Some c ∧ ∀ hist, slot_ok hist c → slot_ok hist c' }.

Record tied (cap : Z) (v : fsys) (hist : list entry) (l : loop_t) : Prop := {
  td_log : in_use cap false v (l_wal l) hist;
  td_own : owned v l;
  td_dir : 0 <= wl_dir_fd (l_wal l);
  td_slots : ∀ i c, l_conns l !! i = Some c → slot_ok hist c;
  td_table : table_ok hist (l_sessions l);
  td_stream : stream_ok (l_is_follower l) (l_stream l) }.

#[export] Instance still_preorder : PreOrder still.
Proof.
  split.
  - intros l. constructor; eauto.
  - intros a b c [? ? ? Hab] [? ? ? Hbc]. constructor; [congruence..|auto|].
    intros i c3 (c2 & H2 & Hc2)%Hbc. destruct (Hab _ _ H2) as (c1 & H1 & Hc1). exists c1. auto.
Qed.

(** The same of a log whose files and descriptors did not change. *)
Lemma in_use_frame cap t v v' w hist :
  in_use cap t v w hist → f_names v' = f_names v → f_disk v' = f_disk v → f_inodes v' = f_inodes v →
  0 <= wl_dir_fd w →
  (∀ fd d, 0 <= fd → fd = g_fd (wl_active w) ∨ fd = wl_dir_fd w → f_fds v !! fd = Some d → f_fds v' !! fd = Some d) →
  in_use cap t v' w hist.
Proof.
  intros (segs & a & b & L) En Ek Ei Hpos Ef. exists segs, a, b.
  destruct L as [[Hc Hb Hcl Hla Hnm Hgone Hcap] Hbs [todo Hdir] Hcp Ha Hh Ht].
  assert (∀ base es, lasts_at v (wl_seg_capacity w) base es → lasts_at v' (wl_seg_capacity w) base es) as Hfr.
  { intros base es Hx. eapply lasts_frame; [done|..]; rewrite ?En, ?Ek, ?Ei; done. }
  assert (∀ x, names_in v x → names_in v' x) as Hnames by (intros x Hx n b0; rewrite En; apply Hx).
  constructor; try done.
  - constructor; try done; [intros; by apply Hfr, Hcl|by apply Hfr|by apply Hnames|].
    intros n ino b'. rewrite Ek. apply Hgone.
  - exists todo. apply Ef; auto.
  - destruct Ha as [ino i Hfd Hf Hs Hn Hne Hst|]; [|by apply at_none].
    apply fd_file_lookup in Hf as [Hf Hi].
    eapply at_file; try done; [|by rewrite En|intros base es Hin; rewrite En; by eapply Hne|by apply Hnames].
    apply fd_file_lookup. rewrite Ei. split; [apply Ef; auto|done].
  - intros Et. destruct (Ht Et) as [Hun Hk]. split; [by eapply undamaged_frame|].
    intros n ino. rewrite Ek. apply Hk.
Qed.

(** Neither the log nor a descriptor is touched, but for some given up. *)
Record calm (l l' : loop_t) : Prop := {
  ca_still : still l l';
  ca_fds : ∀ h, fd_of l' h = fd_of l h ∨ fd_of l' h < 0 }.

#[export] Instance calm_preorder : PreOrder calm.
Proof.
  split; [intros l; split; [done|by left]|].
  intros a b c [Sab Fab] [Sbc Fbc]. split; [by etrans|]. intros h.
  destruct (Fbc h) as [E|]; [rewrite E; apply Fab|by right].
Qed.

Lemma slot_on_cases i f l j :
  slot (on_slot i f l) j = slot l j ∨
  j = i ∧ l_conns l !! i = Some (slot l i) ∧ slot (on_slot i f l) j = f (slot l i).
Proof.
  unfold slot, on_slot. cbn. rewrite list_lookup_alter. case_decide as E; [subst|by left].
  destruct (l_conns l !! j); [by right|by left].
Qed.
Lemma peer_on_cases i f l j :
  peer (on_peer i f l) j = peer l j ∨ j = i ∧ peer (on_peer i f l) j = f (peer l i).
Proof.
  unfold peer, on_peer. cbn. rewrite list_lookup_alter. case_decide as E; [subst|by left].
  destruct (l_peers l !! j); [by right|by left].
Qed.
Lemma scrape_on_cases i f l j :
  scrape (on_scrape i f l) j = scrape l j ∨ j = i ∧ scrape (on_scrape i f l) j = f (scrape l i).
Proof.
  unfold scrape, on_scrape. cbn. rewrite list_lookup_alter. case_decide as E; [subst|by left].
  destruct (l_scrapes l !! j); [by right|by left].
Qed.

Lemma still_same l l' :
  l_wal l' = l_wal l → l_sessions l' = l_sessions l → l_is_follower l' = l_is_follower l →
  l_stream l' = l_stream l → l_conns l' = l_conns l → still l l'.
Proof. intros ? ? Er Es E. constructor; rewrite ?Er, ?Es; try done. intros i c'. rewrite E. eauto. Qed.

Lemma still_slot l i f :
  (∀ c hist, l_conns l !! i = Some c → slot_ok hist c → slot_ok hist (f c)) → still l (on_slot i f l).
Proof.
  intros Hf. constructor; try done. intros j c'. unfold on_slot. cbn. rewrite list_lookup_alter.
  case_decide; [|eauto]. intros (c & Hc & ->)%fmap_Some. subst. eauto.
Qed.

Lemma calm_same l0 l l' :
  calm l0 l → still l l' → l_epoll_fd l' = l_epoll_fd l → l_listen_fd l' = l_listen_fd l →
  l_signal_fd l' = l_signal_fd l → l_timer_fd l' = l_timer_fd l → l_metrics_fd l' = l_metrics_fd l →
  l_conns l' = l_conns l → l_peers l' = l_peers l → l_scrapes l' = l_scrapes l →
  rs_fd (l_stream l') = rs_fd (l_stream l) → calm l0 l'.
Proof.
  intros Hl Hs Ee El Es Et Em Ec Ep Esc Est. etrans; [exact Hl|]. split; [done|]. intros h. left.
  destruct h; cbn [fd_of]; rewrite ?(sl_wal _ _ Hs); try done;
    unfold slot, peer, scrape; by rewrite ?Ec, ?Ep, ?Esc.
Qed.

Lemma calm_slot l0 l i f :
  calm l0 l → (∀ c, cn_fd (f c) = cn_fd c ∨ cn_fd (f c) < 0) → (∀ c, sub_fd (f c) = sub_fd c ∨ sub_fd (f c) < 0) →
  (∀ c hist, slot_ok hist c → slot_ok hist (f c)) → calm l0 (on_slot i f l).
Proof.
  intros Hl Hfd Hsub Hok. etrans; [exact Hl|]. split; [apply still_slot; auto|]. intros h.
  destruct h as [| | | | | | | |j|j|j|j| |]; try by left.
  - cbn [fd_of]. destruct (slot_on_cases i f l j) as [->|(-> & _ & ->)]; [by left|apply Hfd].
  - cbn [fd_of]. destruct (slot_on_cases i f l j) as [->|(-> & _ & ->)]; [by left|apply Hsub].
Qed.

Lemma calm_peer l0 l i f :
  calm l0 l → (∀ p, peer_fd (f p) = peer_fd p) → calm l0 (on_peer i f l).
Proof.
  intros Hl Hf. etrans; [exact Hl|]. split; [by apply still_same|]. intros h. left.
  destruct h as [| | | | | | | |j|j|j|j| |]; try done.
  cbn [fd_of]. destruct (peer_on_cases i f l j) as [->|(-> & ->)]; [done|apply Hf].
Qed.

Lemma calm_scrape l0 l i f :
  calm l0 l → (∀ s, sc_fd (f s) = sc_fd s) → calm l0 (on_scrape i f l).
Proof.
  intros Hl Hf. etrans; [exact Hl|]. split; [by apply still_same|]. intros h. left.
  destruct h as [| | | | | | | |j|j|j|j| |]; try done.
  cbn [fd_of]. destruct (scrape_on_cases i f l j) as [->|(-> & ->)]; [done|apply Hf].
Qed.

(** The stream, but for its descriptor. *)
Lemma calm_on_stream l0 l f :
  calm l0 l → rs_fd (f (l_stream l)) = rs_fd (l_stream l) ∨ rs_fd (f (l_stream l)) < 0 →
  (stream_ok (l_is_follower l) (l_stream l) → stream_ok (l_is_follower l) (f (l_stream l))) →
  calm l0 (on_stream f l).
Proof.
  intros Hl Hfd Hok. etrans; [exact Hl|]. split.
  - constructor; try done. eauto.
  - intros []; try by left. exact Hfd.
Qed.

Ltac calm_stream_side :=
  first [by left | by right | by apply stream_ok_same; auto].

Lemma calm_close_stream l0 l : calm l0 l → calm l0 (close_stream l).
Proof. intros Hl. apply (calm_on_stream l0 l (λ s, s <| rs_closing := true |>)); [done|calm_stream_side..]. Qed.
Lemma calm_redial l0 l : calm l0 l → calm l0 (redial l).
Proof. intros Hl. apply calm_on_stream; [done|calm_stream_side..]. Qed.
Lemma calm_frame l0 l op q : calm l0 l → calm l0 (on_stream (stream_frame op q) l).
Proof. intros Hl. unfold stream_frame. apply calm_on_stream; [done|..]; destruct (_ <? _); calm_stream_side. Qed.
Lemma calm_report l0 l : calm l0 l → calm l0 (stream_report l).
Proof.
  intros Hl. unfold stream_report. cbv zeta. do 3 (destruct (_ : bool); [done|]).
  apply (calm_on_stream l0 (on_stream (stream_frame MSG_OP_REPL_ACK (wal_durable_seq (l_wal l))) l)
    (λ s, s <| rs_acked := wal_durable_seq (l_wal l) |>)); [by apply calm_frame|calm_stream_side..].
Qed.

Lemma reply_like c op flags q p :
  let c' := (reply c op flags q p).2 in
  cn_fd c' = cn_fd c ∧ cn_sub c' = cn_sub c ∧ ∀ hist, slot_ok hist c → slot_ok hist c'.
Proof.
  unfold reply. destruct (_ <? _); [done|]. split_and!; [done..|]. intros hist. apply slot_ok_same; auto.
Qed.

Lemma calm_reply_to l0 l i op flags q p : calm l0 l → calm l0 (reply_to i op flags q p l).
Proof.
  intros Hl. apply calm_slot; [done|..]; intros c; try intros hist; destruct (reply_like c op flags q p) as (E1 & E2 & E3);
    [by left|left; unfold sub_fd; by rewrite E2|apply E3].
Qed.
Lemma calm_err_text l0 l i code q t : calm l0 l → calm l0 (reply_err_text i code q t l).
Proof. intros. apply calm_reply_to. eapply calm_same; [eassumption|by apply still_same|done..]. Qed.
Lemma calm_err l0 l i code q : calm l0 l → calm l0 (reply_err i code q l).
Proof. apply calm_err_text. Qed.
Lemma calm_reply_ack l0 l i f q s : calm l0 l → calm l0 (reply_ack i f q s l).
Proof. apply calm_reply_to. Qed.
Lemma calm_slot_reset l0 l i : calm l0 l → calm l0 (slot_reset l i).
Proof.
  intros Hl. apply calm_slot; [done|by right|by right|]. intros c hist Hc. by apply slot_ok_free, Hc.
Qed.
Lemma calm_floor l0 l : calm l0 l → calm l0 (retain_floor_update l).
Proof.
  intros Hl. unfold retain_floor_update. destruct (_ <=? _); [done|]. destruct (foldl _ _ _).
  destruct (_ <? _); [done|]. destruct (_ <? _); [|done].
  eapply calm_same; [done|by apply still_same|done..].
Qed.

Create HintDb calm.
#[export] Hint Resolve calm_reply_to calm_err_text calm_err calm_reply_ack calm_slot_reset calm_floor : calm.
#[export] Hint Resolve calm_close_stream calm_redial calm_report : calm.
Ltac calm_slot_side :=
  first [by intros; left | by intros; right | by intros ? ?; apply slot_ok_same; auto].
Ltac calm_field :=
  lazymatch goal with
  | |- calm _ (on_stream _ _) => apply calm_on_stream; [|calm_stream_side..]
  | |- calm _ (@upd _ _ _ _ _ ?l) =>
      eapply (calm_same _ l); [|apply still_same; reflexivity|reflexivity..]
  | |- calm _ (on_slot _ _ _) => apply calm_slot; [|calm_slot_side..]
  | |- calm _ (on_sub _ _ _) => apply calm_slot; [|calm_slot_side..]
  | |- calm _ (close_slot _ _) => apply calm_slot; [|calm_slot_side..]
  | |- calm _ (on_peer _ _ _) => apply calm_peer; [|reflexivity]
  | |- calm _ (on_scrape _ _ _) => apply calm_scrape; [|reflexivity]
  | |- calm _ (if ?b then _ else _) => destruct b
  end.
#[export] Hint Extern 1 (calm _ _) => calm_field : calm.
#[export] Hint Extern 0 (calm ?l ?l) => reflexivity : calm.

(** Calls that leave the files and descriptors alone. *)
Create HintDb quiet.
Section quiet.
Context {K : Type} `{SysLaws K}.

Lemma quiet_epoll_ctl ep op fd ev d (k : K) : wp (os_epoll_ctl ep op fd ev d) (λ _ k', view k' = view k) k.
Proof. unfold os_epoll_ctl. call law_epoll_ctl as r k1 Hv. by apply wp_ret. Qed.
Lemma quiet_now (k : K) : wp os_now_ns (λ _ k', view k' = view k) k.
Proof. eapply wp_mono; [apply wp_os_now|]. by intros ? ? [? _]. Qed.
Lemma quiet_send fd bs fl (k : K) : wp (os_send fd bs fl) (λ _ k', view k' = view k) k.
Proof. unfold os_send. call law_send as r k1 [Hv _]. by apply wp_ret. Qed.
Lemma quiet_recv fd n fl (k : K) : wp (os_recv fd n fl) (λ _ k', view k' = view k) k.
Proof. unfold os_recv. call law_recv as [r bs] k1 [Hv _]. by apply wp_ret. Qed.
(** No more bytes come than there is room for. *)
Lemma wp_recv_few fd n fl (k : K) :
  0 <= n < 2 ^ 31 → wp (os_recv fd n fl) (λ x k', view k' = view k ∧ x.1 <= n) k.
Proof.
  intros Hn. unfold os_recv. call law_recv as [r bs] k1 [Hv Hr]. apply wp_ret. cbn [fst] in *.
  split; [done|]. destruct Hr as [Hf|?].
  - unfold failed, sys_is_err in Hf. zb. rewrite i32_id; lia.
  - rewrite i32_id; lia.
Qed.
Lemma quiet_timer fd ns (k : K) : wp (os_timerfd_period fd ns) (λ _ k', view k' = view k) k.
Proof. unfold os_timerfd_period. cbv zeta. call law_timer as r k1 Hv. by apply wp_ret. Qed.
(** A call that opens a socket or a timer. *)
Definition opened_fd (v : fsys) (x : result_t * Z) (v' : fsys) : Prop :=
  if result_ok x.1 then fresh_fd v x.2 ∧ v' = set_fd x.2 FOther v else v' = v.

Lemma opened_result v r fd0 v' :
  newfd_spec v r v' →
  opened_fd v (if sys_is_err r then (RESULT_ERR ERR_SYSCALL (sys_errno r), fd0) else (RESULT_OK, i32 r)) v'.
Proof.
  intros [[Hf ->]|[Hfr ->]]; unfold opened_fd.
  - unfold failed in Hf. by rewrite Hf.
  - destruct Hfr as [? ?]. rewrite not_failed by lia. cbn. by rewrite i32_id by lia.
Qed.

Lemma wp_timerfd fl fd0 (k : K) : wp (os_timerfd fl fd0) (λ x k', opened_fd (view k) x (view k')) k.
Proof. unfold os_timerfd. call law_timerfd as r k1 Hr. apply wp_ret. by apply opened_result. Qed.
Lemma wp_accept fd fl fd0 (k : K) : wp (os_accept4 fd fl fd0) (λ x k', opened_fd (view k) x (view k')) k.
Proof. unfold os_accept4. call law_accept as r k1 Hr. apply wp_ret. by apply opened_result. Qed.
Lemma wp_socket d t p fd0 (k : K) : wp (os_socket d t p fd0) (λ x k', opened_fd (view k) x (view k')) k.
Proof. unfold os_socket. call law_socket as r k1 Hr. apply wp_ret. by apply opened_result. Qed.
End quiet.
#[export] Hint Resolve quiet_epoll_ctl quiet_now quiet_send quiet_recv quiet_timer : quiet.

Lemma tied_moved h0 cap v v' hist l l' :
  tied cap v hist l → still l l' → moved h0 v v' l l' → h0 ≠ HActive → h0 ≠ HDir →
  f_names v' = f_names v → f_disk v' = f_disk v → f_inodes v' = f_inodes v → tied cap v' hist l'.
Proof.
  intros [Hlog Hown Hpos Hsl Htab Hst] [Ew Es Est Hss] M Ha Hdir ? ? ?.
  constructor; rewrite ?Ew, ?Es; try done; [..|by apply Est].
  - eapply in_use_frame; try done. intros fd d Hge Hfd Hopen.
    apply (mv_fds _ _ _ _ _ M); [done| |done]. intros Heq.
    destruct Hfd as [-> | ->].
    + apply Ha. symmetry. by apply (own_apart _ _ Hown HActive h0).
    + apply Hdir. symmetry. by apply (own_apart _ _ Hown HDir h0).
  - by eapply owned_moved.
  - intros i c' (c & Hc & Hok)%Hss. by eapply Hok, Hsl.
Qed.

Lemma tied_calm cap v hist l l' : calm l l' → tied cap v hist l → tied cap v hist l'.
Proof.
  intros [Hs Hf] Hl. apply (tied_moved HErr cap v v hist l l'); try done. constructor; [auto|done|].
  intros Hp. split; [by left|]. exact (own_open _ _ (td_own _ _ _ _ Hl) HErr Hp).
Qed.

(** A slot changed in what is owed to it. *)
Lemma tied_slot cap v hist l i f :
  tied cap v hist l → (∀ c, cn_fd (f c) = cn_fd c) → (∀ c, sub_fd (f c) = sub_fd c) →
  (∀ c, l_conns l !! i = Some c → slot_ok hist c → slot_ok hist (f c)) → tied cap v hist (on_slot i f l).
Proof.
  intros [Hlog Hown Hpos Hsl Htab Hrole] Hfd Hsub Hok. constructor; try done.
  - eapply owned_fewer; [exact Hown|]. intros h. left. destruct h as [| | | | | | | |j|j|j|j| |]; try done; cbn [fd_of].
    + destruct (slot_on_cases i f l j) as [->|(-> & _ & ->)]; [done|apply Hfd].
    + destruct (slot_on_cases i f l j) as [->|(-> & _ & ->)]; [done|apply Hsub].
  - intros j c'. unfold on_slot. cbn. rewrite list_lookup_alter. case_decide; [|apply Hsl].
    intros (c & Hc & ->)%fmap_Some. subst. by eapply Hok, Hsl.
Qed.

(** The log after one of its calls. *)
Lemma tied_log cap v v' hist more l w :
  tied cap v hist l → in_use cap false v' w (hist ++ more) → log_moves v v' (l_wal l) w →
  tied cap v' (hist ++ more) (l <| l_wal := w |>).
Proof.
  intros [Hlog Hown Hpos Hsl Htab Hrole] Hin [Md Mo Ma Ml]. constructor; cbn; try done.
  - eapply owned_moved; [exact Hown|]. apply (Build_moved HActive); cbn.
    + by intros [] Hne; left.
    + intros fd d Hp Hne Hd. by apply Mo.
    + intros Hp. destruct Hin as (segs & a & b & L). destruct (lg_active L) as [ino i _ Hf _ _ _ _|?]; [|lia].
      apply fd_file_lookup in Hf as [Hf _]. split; [|exists (FFile ino); eauto].
      destruct Ma as [?|[?|?]]; [by left|lia|by right].
  - by rewrite Md.
  - intros i c Hc. by apply slot_ok_more, Hsl with i.
  - by apply table_ok_more.
Qed.

(** *** Staging an acknowledgement *)

Lemma backed_stage hist s a flags d cs ws dl :
  backed hist s (oa_client_seq a) → backed hist s cs → backed hist s (oa_client_seq (ack_stage a flags d cs ws dl)).
Proof. intros. unfold ack_stage. cbn [oa_client_seq]. by destruct (_ <? _). Qed.

Lemma tied_ack cap v hist l i flags wants deg cs ws :
  tied cap v hist l → (∀ c, l_conns l !! i = Some c → c_opened (cn_conn c) = true) →
  backed hist (cn_session (slot l i)) cs → tied cap v hist (ack_write i flags wants deg cs ws l).
Proof.
  intros Hl Hop Hcs.
  assert (∀ c, l_conns l !! i = Some c → slot l i = c) as Hslot by (intros c Hc; unfold slot; by rewrite Hc).
  assert (∀ f1 d1 dl c, l_conns l !! i = Some c → slot_ok hist c →
    slot_ok hist (c <| cn_ack_local ::= λ a, ack_stage a f1 d1 cs ws dl |>) ∧
    slot_ok hist (c <| cn_ack_repl ::= λ a, ack_stage a f1 d1 cs ws dl |>)) as Hst.
  { intros f1 d1 dl c Hc [Hb Hw Hfr Hlo Hre]. rewrite (Hslot _ Hc) in Hcs. specialize (Hop _ Hc).
    split; constructor; cbn; try done; try congruence; by apply backed_stage. }
  unfold ack_write. destruct wants; cbn [negb]; [destruct (repl_live l); cbn [negb]|].
  - apply tied_slot; [done..|]. intros. by apply Hst.
  - eapply tied_calm; [|apply (tied_slot _ _ _ l i (λ c, c <| cn_ack_local ::= λ a,
      ack_stage a (Z.lor flags MSG_FLAG_DEGRADED) true cs ws 0 |>)); [done..|]].
    + eauto with calm.
    + intros. by apply Hst.
  - apply tied_slot; [done..|]. intros. by apply Hst.
Qed.

(** *** The session table *)

Lemma table_alter hist es i f :
  Forall (session_ok hist) es → (∀ s, es !! i = Some s → session_ok hist (f s)) →
  Forall (session_ok hist) (alter f i es).
Proof.
  rewrite !Forall_lookup. intros He Hf j s. rewrite list_lookup_alter. case_decide; [|apply He].
  subst. intros (s0 & Hs & ->)%fmap_Some. by apply Hf.
Qed.

Lemma table_new hist t id :
  table_ok hist t → 0 <= id < 2 ^ 64 →
  table_ok hist (set_id (slot_for_new t).2 (slot_for_new t).1 id).
Proof.
  unfold table_ok, slot_for_new, set_id. intros Ht Hid.
  assert (∀ s, session_ok hist (Session id 0 s)) as Hnew by (intros; split_and!; cbn; try lia; by left).
  destruct (_ <=? _); cbn.
  - rewrite list_alter_alter_eq. apply table_alter; [done|]. intros s _. apply Hnew.
  - rewrite Forall_lookup. intros j s. rewrite list_lookup_alter. case_decide as E.
    + subst. rewrite lookup_app_r, Nat.sub_diag by done. cbn. intros [= <-]. apply Hnew.
    + intros [Hj|[? Hj]]%lookup_app_Some; [by eapply Forall_lookup in Ht|].
      apply list_lookup_singleton_Some in Hj as [? _]. lia.
Qed.

Lemma tied_table cap v hist l t :
  tied cap v hist l → table_ok hist t → tied cap v hist (l <| l_sessions := t |>).
Proof.
  intros [] Ht. constructor; try done. eapply owned_fewer; [done|]. intros []; by left.
Qed.

Lemma table_touch hist t i : table_ok hist t → table_ok hist (session_touch t i).
Proof.
  unfold table_ok, session_touch. cbn. intros Ht. apply table_alter; [done|].
  intros s Hs. exact (Forall_lookup_1 _ _ _ _ Ht Hs).
Qed.

(** *** A slot's connection *)

Definition conn_ok (c : conn_t) : Prop :=
  conn_wf c ∧ c_buf_cap c = LOOP_RECV_CAP ∧ c_mode c = CONN_MODE_CLIENT.

(** A frame whose payload is in a slot's buffer. *)
Definition action_ok (a : conn_action_t) : Prop :=
  match a with
  | CONN_ACTION_FRAME h p n =>
      header_ok h ∧ 0 <= n < 2 ^ 32 ∧
      match p with Some off => 0 <= off ∧ off + n <= LOOP_RECV_CAP | None => n = 0 end
  | _ => True
  end.

Lemma feed_ok c acts c' :
  conn_ok c → conn_feed c 8 = (acts, c') →
  conn_ok c' ∧ c_buf c' = c_buf c ∧ Forall action_ok acts ∧ greeted c acts c'.
Proof.
  intros (Hwf & Hcap & Hm) Hf.
  destruct (feed_takes c 8 _ _ Hwf ltac:(lia) Hf) as (Hwf' & E1 & E2 & E3 & _).
  destruct (feed_frames _ _ _ _ Hwf Hf) as [Hall _].
  split; [split_and!; try done; congruence|]. split; [done|]. split; [|by eapply greeted_feed].
  destruct Hwf as (_ & _ & Hoff & _). destruct Hwf' as (_ & _ & Hoff' & Hlen' & _).
  eapply Forall_impl; [exact Hall|]. intros [h p n| |]; [|done..].
  intros (_ & _ & Hn & Hh & Hp). unfold action_ok, LOOP_RECV_CAP in *. split; [done|]. split; [lia|]. destruct p; lia.
Qed.

(** What is read goes behind what is there, and the connection is as before. *)
Lemma receive_wf c res bs :
  conn_wf c → res <= conn_recv_space c → conn_wf (conn_receive res bs c) ∧
    c_buf_cap (conn_receive res bs c) = c_buf_cap c ∧ c_mode (conn_receive res bs c) = c_mode c ∧
    c_opened (conn_receive res bs c) = c_opened c ∧ zlen (c_buf (conn_receive res bs c)) = c_buf_cap c.
Proof.
  intros (Hb & Hcap & Hoff & Hlen & Hcl) Hr. unfold conn_recv_space in Hr.
  assert (zlen (blit (c_buf c) (c_buf_len c) (sub 0 res bs)) = c_buf_cap c) as Hb'.
  { rewrite length_blit; [lia|lia|]. rewrite length_sub. lia. }
  unfold conn_receive, conn_recv_ptr, conn_wf. cbn. split_and!; (done || lia).
Qed.

Lemma commit_wf c n :
  conn_wf c → conn_wf (conn_recv_commit c n).2 ∧ c_buf_cap (conn_recv_commit c n).2 = c_buf_cap c ∧
    c_mode (conn_recv_commit c n).2 = c_mode c ∧ c_opened (conn_recv_commit c n).2 = c_opened c ∧
    c_buf (conn_recv_commit c n).2 = c_buf c.
Proof.
  intros Hwf. unfold conn_recv_commit.
  destruct (c_closed c) eqn:Ec; [done|]. cbn [orb]. destruct (Z.leb_spec n 0); [done|].
  destruct Hwf as (Hb & ? & Hoff & Hlen & Hcl).
  cbn. split; [|done]. unfold conn_wf. cbn. do 2 (split; [done|]).
  split; [|split; [|congruence]]; destruct (Z.ltb_spec (c_buf_cap c - c_buf_len c) n); lia.
Qed.

Lemma compact_buf c : zlen (c_buf (conn_compact c)) = zlen (c_buf c).
Proof.
  unfold conn_compact. destruct (_ <=? _); [done|]. cbn. destruct (0 <? _); [|done].
  by rewrite Mem.length_mem_copy_within.
Qed.

Lemma receive_ok c res bs :
  conn_ok c → res <= conn_recv_space c → conn_ok (conn_receive res bs c) ∧
    c_opened (conn_receive res bs c) = c_opened c.
Proof.
  intros (Hwf & Hcap & Hm) Hr. destruct (receive_wf c res bs Hwf Hr) as (? & ? & ? & ? & _).
  split; [|done]. split_and!; [done|congruence..].
Qed.

Lemma commit_ok c n :
  conn_ok c → conn_ok (conn_recv_commit c n).2 ∧ c_opened (conn_recv_commit c n).2 = c_opened c ∧
    c_buf (conn_recv_commit c n).2 = c_buf c.
Proof.
  intros (Hwf & Hcap & Hm). destruct (commit_wf c n Hwf) as (? & ? & ? & ? & ?).
  split; [|done]. split_and!; [done|congruence..].
Qed.

(** There is never room for more than a 32-bit count. *)
Lemma space_small c : conn_wf c → c_buf_cap c < 2 ^ 31 → conn_recv_space c < 2 ^ 31.
Proof. intros (_ & ? & ? & ? & _) ?. unfold conn_recv_space. lia. Qed.

(** A slot whose connection alone changes. *)
Lemma tied_conn cap v hist l i f :
  tied cap v hist l → (∀ c, l_conns l !! i = Some c → conn_ok (f (cn_conn c)) ∧
    (c_opened (f (cn_conn c)) = false → c_opened (cn_conn c) = false)) →
  tied cap v hist (on_slot i (λ c, c <| cn_conn ::= f |>) l).
Proof.
  intros Hl Hf. apply tied_slot; [done..|]. intros c Hc [? ? Hfr ? ?].
  destruct (Hf c Hc) as ((Hwf & Hcap & Hm) & Ho).
  constructor; cbn; try done; [destruct Hwf; congruence|auto].
Qed.

Section held.
Context {cap : Z} {before : list entry} {low : Z}.

(** The log holds [before] and more, at least up to [low] it is flushed, and
    there is room for [room] more records. *)
Definition held (room : Z) (v : fsys) (l : loop_t) : Prop :=
  ∃ hist, tied cap v hist l ∧ before `prefix_of` hist ∧ low <= wal_durable_seq (l_wal l) ∧
    wal_next_seq (l_wal l) + room < 2 ^ 64.

Lemma held_own room v l : held room v l → owned v l.
Proof. by intros (hist & [] & _). Qed.

Lemma held_weak room room' v l : room' <= room → held room v l → held room' v l.
Proof. intros ? (hist & ? & ? & ? & ?). exists hist. split_and!; try done. lia. Qed.

(** A step that concerns one descriptor which is not the log's. *)
Lemma held_moved h0 room v v' l l' :
  held room v l → still l l' → moved h0 v v' l l' → h0 ≠ HActive → h0 ≠ HDir →
  f_names v' = f_names v → f_disk v' = f_disk v → f_inodes v' = f_inodes v → held room v' l'.
Proof.
  intros (hist & Ht & Hp & Hd & Hn) Hs M ? ? ? ? ?. exists hist. rewrite (sl_wal _ _ Hs).
  split_and!; try done. by eapply tied_moved.
Qed.

Lemma held_calm room v l l' : calm l l' → held room v l → held room v l'.
Proof.
  intros [Hs Hf] Hl. apply (held_moved HErr room v v l l'); try done. constructor; [auto|done|].
  intros Hp. split; [by left|]. exact (own_open _ _ (held_own _ _ _ Hl) HErr Hp).
Qed.

(** The files alone: descriptors may come and go but for those held. *)
Lemma held_fds room v v' l :
  held room v l → f_names v' = f_names v → f_disk v' = f_disk v → f_inodes v' = f_inodes v →
  (∀ h d, 0 <= fd_of l h → f_fds v !! fd_of l h = Some d → f_fds v' !! fd_of l h = Some d) → held room v' l.
Proof.
  intros (hist & [Hlog [Ho Ha] Hpos Hsl Htab Hrole] & Hr) En Ek Ei Hf.
  exists hist. split; [|done]. constructor; try done.
  - eapply in_use_frame; try done. intros fd d Hge [-> | ->] Hd; [by apply (Hf HActive)|by apply (Hf HDir)].
  - constructor; [|done]. intros h Hp. destruct (Ho h Hp) as (d & Hd & Hk). exists d. split; [by apply Hf|done].
Qed.
(** A holder that is not the log's opens a descriptor, closes its own, or
    has its cursor moved. *)
Definition outside (h : holder) : Prop := h ≠ HActive ∧ h ≠ HDir.

Lemma held_opened h0 room v l l' fd d :
  held room v l → still l l' → outside h0 → (∀ h, h ≠ h0 → fd_of l' h = fd_of l h ∨ fd_of l' h < 0) →
  fd_of l' h0 = fd → f_fds v !! fd = None → kind_ok h0 d → held room (set_fd fd d v) l'.
Proof.
  intros Hl Hs [] Hh <- Hfr Hk. apply (held_moved h0 room v _ l); try done. constructor; [done|..].
  - intros fd' d' _ _ Hd. cbn. rewrite lookup_insert_ne; [done|congruence].
  - intros _. cbn. rewrite lookup_insert_eq. split; [by right|by exists d].
Qed.

Lemma held_closed h0 room v l l' :
  held room v l → still l l' → outside h0 → (∀ h, h ≠ h0 → fd_of l' h = fd_of l h ∨ fd_of l' h < 0) →
  fd_of l' h0 < 0 → held room (del_fd (fd_of l h0) v) l'.
Proof.
  intros Hl Hs [] Hh Hneg. apply (held_moved h0 room v _ l); try done. constructor; [done|..|lia].
  intros fd' d' _ Hne Hd. cbn. by rewrite lookup_delete_ne.
Qed.

(** A descriptor nothing holds yet. *)
Lemma held_pending room v l fd d :
  held room v l → f_fds v !! fd = None → held room (set_fd fd d v) l.
Proof.
  intros Hl Hn. eapply held_fds; [exact Hl|done..|]. intros h d' Hp Hd. cbn.
  rewrite lookup_insert_ne; [done|congruence].
Qed.

(** [c] is the holder's cursor, or a new one that is to replace it. *)
Definition has_cursor (h : holder) : Prop := match h with HSub _ | HPeer _ => True | _ => False end.

Lemma held_cursor h0 room v v' l l' c c' :
  held room v l → still l l' → has_cursor h0 → (∀ h, h ≠ h0 → fd_of l' h = fd_of l h ∨ fd_of l' h < 0) →
  cursor_moves v v' c c' → cu_fd c = fd_of l h0 ∨ cu_fd c < 0 →
  fd_of l' h0 = cu_fd c' ∨ fd_of l' h0 < 0 → held room v' l'.
Proof.
  intros Hl Hs Hcur Hh [(En & Ek & Ei) Ho Ha Hf] Hc Ec'.
  assert (∀ d, kind_ok h0 d ↔ ∃ ino, d = FFile ino) as Hk by (by destruct h0).
  apply (held_moved h0 room v _ l); try done; try (by intros ->). constructor; [done|..].
  - intros fd d Hp Hne Hd. apply Ho; [done|destruct Hc; congruence || lia|done].
  - intros Hp. destruct Ec' as [Ec'|]; [|lia]. rewrite Ec' in *. assert (file_at v (cu_fd c)) as Hfile.
    { intros Hp'. destruct Hc as [Ec|?]; [|lia]. rewrite Ec in *.
      destruct (own_open _ _ (held_own _ _ _ Hl) h0 Hp') as (d & Hd & [ino ->]%Hk). eauto. }
    destruct (Hf Hfile) as [ino Hi]; [done|].
    split; [|exists (FFile ino); split; [done|by apply Hk; exists ino]]. destruct Ha as [E|[?|?]]; [|lia|by right].
    destruct Hc as [?|?]; [left; congruence|lia].
Qed.

Lemma held_sub room v v' l i c c' :
  held room v l → cursor_moves v v' c c' → cu_fd c = sub_fd (slot l i) ∨ cu_fd c < 0 →
  held room v' (on_sub i (λ s, s <| su_cursor := c' |>) l).
Proof.
  intros Hl Hm Hc. apply (held_cursor (HSub i) room v _ l _ c c'); try done.
  - apply still_slot. intros ? ? _. by apply slot_ok_same; auto.
  - intros h Hne. left. destruct h as [| | | | | | | |j|j|j|j| |]; try done; cbn [fd_of].
    + by destruct (slot_on_cases i (λ x, x <| cn_sub ::= λ s, s <| su_cursor := c' |> |>) l j) as [E|(-> & _ & E)];
        unfold on_sub; rewrite E.
    + destruct (slot_on_cases i (λ x, x <| cn_sub ::= λ s, s <| su_cursor := c' |> |>) l j) as [E|(-> & _ & E)];
        unfold on_sub; rewrite E; [done|by destruct Hne].
  - cbn [fd_of]. unfold slot, on_sub, on_slot. cbn. rewrite list_lookup_alter, decide_True by done.
    destruct (l_conns l !! i); [by left|by right].
Qed.

Lemma held_peer room v v' l i f c :
  held room v l → cursor_moves v v' c (pe_cursor (f (peer l i))) → cu_fd c = peer_fd (peer l i) ∨ cu_fd c < 0 →
  held room v' (on_peer i f l).
Proof.
  intros Hl Hm Hc. apply (held_cursor (HPeer i) room v _ l _ c (pe_cursor (f (peer l i)))); try done.
  - by apply still_same.
  - intros h Hne. left. destruct h as [| | | | | | | |j|j|j|j| |]; try done; cbn [fd_of].
    destruct (peer_on_cases i f l j) as [->|(-> & _)]; [done|by destruct Hne].
  - cbn [fd_of]. unfold peer, on_peer. cbn. rewrite list_lookup_alter, decide_True by done.
    destruct (l_peers l !! i); [by left|by right].
Qed.

Lemma cursor_closed v v' c :
  v' = (if 0 <=? cu_fd c then del_fd (cu_fd c) v else v) → cursor_moves v v' c wal_cursor_init.
Proof.
  intros ->. assert (∀ v0, file_at v0 (cu_fd wal_cursor_init)) as Hf by by intros v0 ?.
  constructor; [by destruct (0 <=? cu_fd c)| |by right; left|done].
  intros fd d _ Hne Hd. destruct (0 <=? cu_fd c); [|done]. cbn. by rewrite lookup_delete_ne.
Qed.

End held.

(** ** Going through a step *)

Create HintDb own.

(** Carry [held] through a computation: a call that changes nothing takes it
    along, a call that returns the loop has its own lemma. *)
Ltac own_view :=
  repeat match goal with
  | E : view ?k1 = view ?k0, Hl : held _ (view ?k0) _ |- _ => rewrite <-E in Hl
  end.
Ltac own_step :=
  lazymatch goal with
  | |- wp (mret _) _ _ => apply wp_ret; cbv beta iota; cbn [fst snd]
  | |- wp (if ?b then _ else _) _ _ => destruct b
  | |- wp (match ?x with _ => _ end) _ _ => destruct x eqn:?
  | |- wp (@mbind _ _ loop_t _ ?f ?m) (λ x k', @held ?c ?b ?w ?n _ _) _ =>
      eapply (wp_call _ (λ l' k', @held c b w n (view k') l')); [|cbv beta; intros ? ? ?]
  | |- wp (@mbind _ _ _ _ ?f ?m) _ _ =>
      eapply wp_call; [solve [eauto with quiet]|cbv beta; intros ? ? ?; own_view]
  | |- wp _ _ _ => solve [eauto 20 with own]
  | |- held _ _ (if ?b then _ else _) => destruct b
  | |- held _ _ (match ?x with _ => _ end) => destruct x
  | |- held _ _ _ => held_now
  end
with held_now :=
  match goal with
  | Hl : held ?n ?v ?l |- held ?n ?v ?l => exact Hl
  | Hl : held ?n ?v ?l |- held ?n ?v ?l' => apply (held_calm n v l l'); [solve [eauto 20 with calm]|exact Hl]
  end.
Ltac own_all := repeat (cbv zeta; own_step).
#[export] Hint Extern 1 (held _ _ _) => held_now : own.

Section say.
Context {cap : Z} {before : list entry} {low : Z} {K : Type} `{SysLaws K}.
#[local] Abbreviation held := (@LoopOwn.held cap before low).

Lemma held_say room v l : held room v l → stderr_apart v.
Proof.
  intros Hl ino Hf. destruct (own_open _ _ (held_own _ _ _ Hl) HErr ltac:(cbn; lia)) as (d & Hd & Hk).
  cbn in Hd, Hk. congruence.
Qed.

Lemma own_say room l lines k : held room (view k) l → wp (say lines) (λ _ k', view k' = view k) k.
Proof. intros Hl. eapply wp_say, held_say, Hl. Qed.
End say.
