(* ===== verification/LoopStream.v ===== *)
(** * A replica's stream keeps what the loop holds

    Dialling the leader, receiving from it, applying what comes to the log,
    reporting and giving the stream up: every step preserves [held] of
    [LoopOwn], whichever of its calls fails and whatever the leader sends. *)

From S2P Require Import Prelude Core Crc32c Fmt Msg Conn Record Index Os Session Segment Wal Cursor Reopen Crash Durable.
From S2P Require Import LoopState LoopFrames LoopServe Metrics LoopTick LoopSpec LoopFacts LoopRecv LoopOwn.

#[local] Arguments wal_next_seq : simpl never.
#[local] Arguments wal_durable_seq : simpl never.

(** ** What a batch of frames carries *)

Definition payload_len (a : conn_action_t) : Z :=
  match a with CONN_ACTION_FRAME _ _ n => n | _ => 0 end.
Definition payloads (acts : list conn_action_t) : Z := foldr (λ a n, payload_len a + n) 0 acts.

Lemma emit_payloads room a b : payloads (emit_fatal room a b) = 0.
Proof. by destruct room as [|[|room]]. Qed.

Lemma loop_payloads room c cursor :
  0 <= c_buf_cap c → cursor <= c_buf_len c →
  let '(acts, c') := feed_loop room c cursor in payloads acts + cursor <= c_buf_off c' ∧ c_buf_off c' <= c_buf_len c.
Proof.
  revert c cursor. induction room as [|room IH]; intros c cursor Hcap Hcur; cbn [feed_loop]; [cbn; lia|].
  destruct (_ <? MSG_HEADER_SIZE); [cbn; lia|].
  do 5 (destruct (_ : bool); [rewrite ?emit_payloads; cbn; lia|]).
  destruct (header_of_ok (sub cursor MSG_HEADER_SIZE (c_buf c))) as (_ & _ & _ & _ & _ & [Hp _] & _).
  set (n := h_payload_len _) in *. cbv zeta. destruct (Z.ltb_spec (c_buf_len c - cursor) (MSG_HEADER_SIZE + n)); [cbn; lia|].
  match goal with |- context [feed_loop room ?c1 ?to] =>
    specialize (IH c1 to); destruct (feed_loop room c1 to) as [acts c'] end.
  cbn [payloads foldr payload_len]. fold (payloads acts). clearbody n. unfold MSG_HEADER_SIZE in *.
  destruct (Conn.opens _); cbn in IH; lia.
Qed.

(** The frames' payloads lie one after the other in the bytes consumed. *)
Lemma feed_payloads c n acts c' :
  conn_wf c → 0 <= n → conn_feed c n = (acts, c') →
  payloads acts + (c_buf_len c' - c_buf_off c') <= c_buf_len c - c_buf_off c.
Proof.
  intros Hwf Hn Hf. pose proof (conn_feed_parse c n Hwf Hn) as Hp. rewrite Hf in Hp.
  destruct Hp as [(_ & _ & El & _ & _) _]. destruct Hwf as (_ & ? & [? ?] & _). rewrite El. revert Hf. unfold conn_feed.
  destruct (_ || _); [intros [= <- <-]; cbn; lia|]. intros Hf.
  pose proof (loop_payloads (Z.to_nat n) c (c_buf_off c)) as Hl. rewrite Hf in Hl. lia.
Qed.

(** A record counted into the session table. *)
Lemma table_observe hist t r p :
  table_ok hist t → (r, p) ∈ hist → rec_ok r → table_ok hist (session_from_record t r).
Proof.
  intros Ht Hin (_ & _ & _ & _ & Hs & Hc & _). unfold session_from_record, session_observe.
  destruct (_ =? 0); [done|].
  assert (∀ t1 i, table_ok hist t1 → (∀ s, st_entries t1 !! i = Some s → ss_id s = w_session r) →
    table_ok hist (session_touch (t1 <| st_entries ::= alter (λ s,
      if ss_last s <? w_client_seq r then s <| ss_last := w_client_seq r |> else s) i |>) i)) as Hgo.
  { intros t1 i Ht1 Hid. apply table_touch. unfold table_ok. cbn. apply table_alter; [done|]. intros s Hs1.
    destruct (_ <? _); [|exact (Forall_lookup_1 _ _ _ _ Ht1 Hs1)].
    pose proof (Hid _ Hs1) as E. unfold session_ok. cbn. rewrite E. split; [done|]. split; [done|].
    right. by exists (r, p). }
  destruct (session_lookup t _) as [i|] eqn:Hl.
  - apply Hgo; [done|]. apply lookup_Some in Hl as (s & Hs1 & Hid & _). intros s'. congruence.
  - pose proof (table_new hist t (w_session r) Ht Hs) as Hnew.
    destruct (slot_for_new t) as [i t1]. cbn [fst snd] in Hnew. apply Hgo; [done|]. intros s. unfold set_id. cbn.
    rewrite list_lookup_alter, decide_True by done. by intros (s0 & _ & ->)%fmap_Some.
Qed.

Lemma chained_rec_ok base es e : chained base es → e ∈ es → rec_ok e.1.
Proof.
  revert base. induction es as [|[r p] es IH]; cbn; intros base Hc; [by intros ?%elem_of_nil|].
  destruct Hc as (_ & Hst & Hc). intros [->|He]%elem_of_cons; [apply Hst|by eapply IH].
Qed.

(** What the stream's steps leave of it. *)
Definition same_stream (l l' : loop_t) : Prop :=
  rs_conn (l_stream l') = rs_conn (l_stream l) ∧ rs_fd (l_stream l') = rs_fd (l_stream l) ∧
  rs_connecting (l_stream l') = rs_connecting (l_stream l).
#[export] Instance same_stream_preorder : PreOrder same_stream.
Proof. split; [done|]. intros a b c (? & ? & ?) (? & ? & ?). split_and!; congruence. Qed.

Section stream.
Context {cap : Z} {before : list entry} {low : Z}.
#[local] Abbreviation held := (@LoopOwn.held cap before low).
Context {K : Type} `{SysLaws K}.
#[local] Abbreviation keeping room m := (λ k, wp m (λ l' k', held room (view k') l') k).

(** ** Applying what the leader sends *)

(** The history grows by the record, and its session's mark is raised. *)
Lemma tied_counted v hist l w r p :
  tied cap v (hist ++ [(r, p)]) (l <| l_wal := w |>) →
  tied cap v (hist ++ [(r, p)]) ((l <| l_wal := w |>) <| l_sessions ::= λ t, session_from_record t r |>).
Proof.
  intros Ht. apply (tied_table cap v _ _ (session_from_record (l_sessions l) r)); [done|].
  assert ((r, p) ∈ hist ++ [(r, p)]) as Hin by (apply elem_of_app; right; by left).
  destruct (in_use_next _ _ _ (td_log _ _ _ _ Ht)) as (b0 & _ & Hch & _).
  eapply table_observe; [apply (td_table _ _ _ _ Ht)|exact Hin|exact (chained_rec_ok _ _ _ Hch Hin)].
Qed.

Lemma own_apply_loop fuel room l p at_ scr k :
  held (room + Z.max 0 (zlen p - at_)) (view k) l → 0 <= room → 0 <= at_ →
  wp (apply_loop fuel l p (zlen p) at_ scr) (λ l' k', held room (view k') l' ∧ same_stream l l') k.
Proof.
  revert l at_ scr k. induction fuel as [|fuel IH]; intros l at_ scr k Hl Hroom Hat; cbn [apply_loop].
  all: assert (held room (view k) l) as Hw by (eapply held_weak; [|exact Hl]; lia).
  { by apply wp_ret. }
  destruct (Z.leb_spec (zlen p) at_); [by apply wp_ret|]. cbv zeta.
  assert (∀ l0 k0, held room (view k0) l0 → same_stream l l0 →
    wp (mret (close_stream l0)) (λ l' k', held room (view k') l' ∧ same_stream l l') k0) as Hclose.
  { intros l0 k0 Hl0 Hs0. apply wp_ret. split; [own_all|exact Hs0]. }
  destruct (wal_rec_decode _ _) as [rec|] eqn:Hdec; [|by apply Hclose].
  assert (56 <= zlen p - at_) as Hlong.
  { unfold wal_rec_decode, WAL_REC_HEADER_SIZE in Hdec. destruct (Z.ltb_spec (zlen p - at_) 56); [done|lia]. }
  rewrite decode_eq in Hdec by done. injection Hdec as <-.
  set (here := drop (Z.to_nat at_) p). set (r := rec_of here).
  assert (zlen here = zlen p - at_) as Hhere by (unfold here; rewrite length_drop; lia).
  destruct (_ || _) eqn:Hbad; [by apply Hclose|].
  apply orb_false_iff in Hbad as [Hbad _]. apply orb_false_iff in Hbad as [Hbad _].
  apply orb_false_iff in Hbad as [Hsz Hfit]. zb.
  pose proof (rec_of_ok here) as Hok. fold r in Hok.
  pose proof (rec_size_cast (w_len r) ltac:(apply Hok)) as Hsize.
  destruct (Z.leb_spec (w_len r) WAL_MAX_PAYLOAD) as [Hmax|]; [|done].
  rewrite Hsize in *. pose proof (align8_bounds (w_len r)).
  assert (0 <= w_len r) as Hpos by (unfold rec_ok in Hok; lia).
  set (q := sub 56 (w_len r) here).
  assert (zlen q = w_len r) as Hq by (unfold q; rewrite length_sub; lia).
  assert (drop (Z.to_nat WAL_REC_HEADER_SIZE) here = q ++ drop (Z.to_nat (w_len r)) (drop 56 here)) as ->.
  { unfold q, sub. change (Z.to_nat 56) with 56%nat. by rewrite take_drop. }
  destruct Hl as (hist & Ht & Hpre & Hlow & Hnx).
  eapply wp_call.
  { apply (wp_run (wal_append_at (l_wal l) r (Some q) scr)).
    - apply append_at_longer. unfold WAL_MAX_PAYLOAD, MSG_MAX_PAYLOAD in Hmax. rewrite Hq, i32_id; [done|lia].
    - apply (state_append_at (cap := cap) (t := false) (l_wal l) hist r (Some q)); [apply Ht|done|done|lia]. }
  cbv beta. intros [[[x w] r'] sc] k1 [Hmv Hx]. pose proof (lm_durable _ _ _ _ Hmv) as Hd. cbn [default from_option] in Hx.
  destruct (result_ok x); cbn [negb].
  - destruct Hx as (Hin & Hr' & Hnx'). unfold id in *.
    pose proof (tied_log _ _ _ _ [(r', q)] _ _ Ht Hin Hmv) as Ht1. apply tied_counted in Ht1.
    match goal with |- wp (apply_loop _ ?l1 _ _ _ _) _ _ => set (l2 := l1) end.
    assert (held (room + Z.max 0 (zlen p - (at_ + (56 + align8 (w_len r))))) (view k1) l2) as Hl2.
    { exists (hist ++ [(r', q)]). change (l_wal l2) with w. split; [|split; [by apply prefix_app_r|lia]].
      eapply tied_calm; [|exact Ht1].
      match goal with |- calm ?l3 _ => eapply (calm_same l3 (on_stream (λ s, s <| rs_last_err := 0 |>) l3)) end;
        [apply calm_on_stream; [done|calm_stream_side..]|by apply still_same|done..]. }
    eapply wp_mono; [apply IH; [exact Hl2|done|lia]|]. cbv beta. intros l' k2 [? Hs]. split; [done|].
    exact Hs.
  - destruct Hx as [Hin Hnx']. apply Hclose; [|done].
    exists hist. rewrite <-(app_nil_r hist) in Hin |- *. split_and!; [|by rewrite app_nil_r|cbn; lia..].
    by apply (tied_log _ (view k) _ hist []).
Qed.

(** The stream is put aside, whatever else is left of it. *)
Lemma keeps_stream room l l' (k : K) :
  held room (view k) l' → same_stream l l' →
  wp (mret l') (λ l' k', held room (view k') l' ∧ same_stream l l') k.
Proof. intros. by apply wp_ret. Qed.

Lemma own_stream_frame room l h p n scr k :
  held (room + n) (view k) l → 0 <= room → zlen (default [] p) = n →
  wp (on_stream_frame l h p n scr) (λ l' k', held room (view k') l' ∧ same_stream l l') k.
Proof.
  intros Hl Hroom Hn. assert (held room (view k) l) as Hw by (eapply held_weak; [|exact Hl]; lia).
  unfold on_stream_frame. destruct (_ =? MSG_OP_REPL_DATA).
  { unfold repl_apply. rewrite <-Hn. apply own_apply_loop; [|done|done]. by rewrite Hn, Z.sub_0_r, Z.max_r by lia. }
  destruct (_ =? MSG_OP_ERR); cbv zeta; [|apply keeps_stream; [own_all|done]].
  destruct (negb _); [|apply keeps_stream; [own_all|done]].
  eapply (wp_call _ (λ _ k', view k' = view k)); [repeat destruct (_ =? _); by eapply own_say|].
  cbv beta. intros _ k1 Hv. own_view. apply keeps_stream; [|done].
  eapply held_calm; [|exact Hw]. apply calm_close_stream.
  apply (calm_on_stream l l (λ s, s <| rs_last_err := _ |>)); [done|calm_stream_side..].
Qed.

(** A frame whose payload is within the buffer. *)
Definition fits (buf : list byte) (a : conn_action_t) : Prop :=
  match a with
  | CONN_ACTION_FRAME _ p n =>
      0 <= n ∧ match p with Some off => 0 <= off ∧ off + n <= zlen buf | None => n = 0 end
  | _ => True
  end.

Lemma feed_fits c n acts c' :
  conn_wf c → conn_feed c n = (acts, c') → Forall (fits (c_buf c')) acts.
Proof.
  intros Hwf Hf. destruct (feed_frames _ _ _ _ Hwf Hf) as [Hall Eb]. rewrite Eb.
  pose proof Hwf as (Hb & Hcap & [Hoff _] & _).
  assert (c_buf_off c' <= c_buf_cap c) as Hoff'.
  { destruct (Z.le_gt_cases 0 n) as [Hn|Hn].
    - pose proof (conn_feed_parse c n Hwf Hn) as Hp. rewrite Hf in Hp. destruct Hp as [(_ & Ec & El & _ & Hwf') _].
      destruct Hwf' as (_ & _ & ? & ? & _). lia.
    - unfold conn_feed in Hf. rewrite (proj2 (Z.leb_le n 0)), orb_true_r in Hf by lia. injection Hf as _ <-.
      destruct Hwf as (_ & _ & ? & ? & _). lia. }
  eapply Forall_impl; [exact Hall|]. intros [h p m| |]; [|done..].
  intros (_ & _ & Hm & _ & Hp). split; [lia|]. destruct p; lia.
Qed.

Lemma fits_payload buf h p n : fits buf (CONN_ACTION_FRAME h p n) → zlen (default [] (payload_at buf p n)) = n.
Proof. intros [? Hp]. destruct p as [off|]; cbn; [|by rewrite Hp]. rewrite length_sub; lia. Qed.

Lemma fits_pos buf acts : Forall (fits buf) acts → 0 <= payloads acts.
Proof.
  induction 1 as [|a acts Ha _ IH]; cbn; [lia|]. fold (payloads acts).
  destruct a; cbn in *; [destruct Ha; lia|lia..].
Qed.

Lemma own_stream_action room l scr a k :
  held (room + payload_len a) (view k) l → 0 <= room → fits (c_buf (rs_conn (l_stream l))) a →
  wp (stream_action l scr a) (λ l' k', held room (view k') l' ∧ same_stream l l') k.
Proof.
  intros Hl Hroom Ha. destruct a as [h p n| |]; cbn [stream_action payload_len] in *.
  - apply own_stream_frame; [done|done|by apply (fits_payload _ h)].
  - rewrite Z.add_0_r in Hl. apply keeps_stream; [own_all|done].
  - rewrite Z.add_0_r in Hl. apply keeps_stream; [own_all|done].
Qed.

Lemma own_stream_actions room l scr acts k :
  held (room + payloads acts) (view k) l → 0 <= room → Forall (fits (c_buf (rs_conn (l_stream l)))) acts →
  wp (stream_actions l scr acts) (λ l' k', held room (view k') l' ∧ same_stream l l') k.
Proof.
  revert l k. induction acts as [|a acts IH]; intros l k Hl Hroom Ha; cbn [stream_actions].
  { rewrite Z.add_0_r in Hl. by apply keeps_stream. }
  apply Forall_cons in Ha as [Ha Hall]. pose proof (fits_pos _ _ Hall).
  eapply wp_call; [apply (own_stream_action (room + payloads acts)); [|lia|done]|].
  { eapply held_weak; [|exact Hl]. change (payloads (a :: acts)) with (payload_len a + payloads acts). lia. }
  cbv beta. intros l1 k1 [Hl1 Hs1]. eapply wp_mono; [apply IH; [done|done|by rewrite (proj1 Hs1)]|].
  cbv beta. intros l2 k2 [? Hs2]. split; [done|by etrans].
Qed.

(** ** Receiving *)

(** The stream's connection is in order. *)
Definition stream_conn (c : conn_t) : Prop := conn_wf c ∧ c_buf_cap c = LOOP_REPL_CAP.

Lemma stream_ok_conn follower s c :
  stream_ok follower s → stream_conn c → stream_ok follower (s <| rs_conn := c |>).
Proof. intros [Hr Hb Hc] [Hwf Hcap]. constructor; cbn; [done| |done]. destruct Hwf. congruence. Qed.

Lemma held_stream_conn room v l f :
  held room v l → stream_conn (f (rs_conn (l_stream l))) → held room v (on_stream (λ s, s <| rs_conn ::= f |>) l).
Proof.
  intros Hl Hc. eapply held_calm; [|exact Hl]. apply calm_on_stream; [done|by left|]. intros Hs.
  exact (stream_ok_conn _ _ _ Hs Hc).
Qed.

Lemma held_stream room v l : held room v l → stream_ok (l_is_follower l) (l_stream l).
Proof. intros (hist & Ht & _). apply Ht. Qed.

(** What the loop has still to take from the connection bounds what it adds
    to the log. *)
Lemma own_stream_loop fuel room l scr k :
  let c := rs_conn (l_stream l) in
  held (room + (c_buf_len c - c_buf_off c)) (view k) l → 0 <= room → stream_conn c →
  keeping room (stream_recv_loop fuel l scr) k.
Proof.
  cbv zeta. revert l k. induction fuel as [|fuel IH]; intros l k Hl Hroom Hc; cbn [stream_recv_loop];
    pose proof Hc as [(_ & _ & [_ Hoff] & _) Hcap].
  { apply wp_ret. eapply held_weak; [|exact Hl]. lia. }
  destruct (conn_feed _ 4) as [acts c'] eqn:Hf.
  pose proof (feed_payloads _ 4 _ _ (proj1 Hc) ltac:(lia) Hf) as Hpay.
  pose proof (feed_fits _ _ _ _ (proj1 Hc) Hf) as Hfits. pose proof (fits_pos _ _ Hfits).
  assert (stream_conn c') as Hc'.
  { pose proof (conn_feed_parse _ 4 (proj1 Hc) ltac:(lia)) as Hp. rewrite Hf in Hp.
    destruct Hp as [(_ & Ecap & _ & _ & Hwf') _]. split; [done|congruence]. }
  set (l1 := on_stream (λ s, s <| rs_conn := c' |>) l).
  assert (held (room + (c_buf_len c' - c_buf_off c') + payloads acts) (view k) l1) as Hl1.
  { eapply held_weak; [|by apply (held_stream_conn _ _ l (λ _, c'))]. lia. }
  destruct Hc' as [Hwf' Hcap'] eqn:E. pose proof Hwf' as (_ & _ & [_ Hoff'] & _). clear E.
  destruct acts as [|a acts]; [apply wp_ret; eapply held_weak; [|exact Hl1]; cbn; lia|].
  eapply wp_call; [apply (own_stream_actions (room + (c_buf_len c' - c_buf_off c'))); [done|lia|done]|].
  cbv beta. intros l2 k2 [Hl2 (Ec & _)]. change (rs_conn (l_stream l1)) with c' in Ec.
  destruct (rs_closing _); [apply wp_ret; eapply held_weak; [|exact Hl2]; lia|].
  apply IH; rewrite ?Ec; done.
Qed.

Lemma own_repl_recv room l scr k :
  held (room + EVENT_RECORDS) (view k) l → 0 <= room → rs_connecting (l_stream l) = false →
  keeping room (do_repl_recv l scr) k.
Proof.
  intros Hl Hroom Hcon. assert (held room (view k) l) as Hw.
  { eapply held_weak; [|exact Hl]. unfold EVENT_RECORDS, LOOP_RECV_CAP. lia. }
  unfold do_repl_recv. cbv zeta. destruct (_ || _) eqn:Hu; [own_all|]. zb.
  destruct (Z.leb_spec (conn_recv_space (rs_conn (l_stream l))) 0); [own_all|].
  destruct (st_conn _ _ (held_stream _ _ _ Hl)) as [Hwf Hcap]; [done..|].
  pose proof (space_small _ Hwf ltac:(by rewrite Hcap)).
  call wp_recv_few as [res bs] k1 [Hv Hres]; [lia|]. cbn [fst] in Hres. rewrite <-Hv in *. destruct (_ =? _); [own_all|].
  destruct (receive_wf (rs_conn (l_stream l)) res bs Hwf Hres) as (Hwf1 & Hcap1 & _).
  set (l1 := on_stream (λ s, s <| rs_conn ::= conn_receive res bs |>) l).
  assert (held (room + EVENT_RECORDS) (view k1) l1) as Hl1.
  { apply held_stream_conn; [done|]. split; [done|congruence]. }
  unfold on_repl_recv. change (rs_fd (l_stream l1)) with (rs_fd (l_stream l)).
  rewrite (proj2 (Z.ltb_ge _ _)) by done.
  destruct (_ <=? 0); [apply wp_ret; eapply held_calm, held_weak, Hl1; [eauto with calm|unfold EVENT_RECORDS, LOOP_RECV_CAP; lia]|].
  destruct (commit_wf _ res Hwf1) as (Hwf2 & Hcap2 & _).
  assert (stream_conn (conn_recv_commit (conn_receive res bs (rs_conn (l_stream l))) res).2) as Hc2
    by (split; [done|congruence]).
  apply own_stream_loop; [|done|exact Hc2].
  eapply held_weak; [|apply held_stream_conn; [exact Hl1|exact Hc2]].
  destruct Hc2 as [(_ & _ & [Hoff _] & Hlen & _) Hcap3]. rewrite Hcap3 in Hlen.
  match goal with |- context [rs_conn (l_stream ?l')] => change (rs_conn (l_stream l')) with
    (conn_recv_commit (conn_receive res bs (rs_conn (l_stream l))) res).2 end.
  unfold EVENT_RECORDS, LOOP_RECV_CAP, LOOP_REPL_CAP in *. lia.
Qed.

(** ** Sending *)

Lemma own_stream_want room l b k : held room (view k) l → keeping room (stream_want_out l b) k.
Proof. intros Hl. unfold stream_want_out. own_all. Qed.
Hint Resolve own_stream_want : own.

Lemma own_stream_send room l k : held room (view k) l → keeping room (stream_send l) k.
Proof.
  intros Hl. unfold stream_send. cbv zeta. call quiet_send as res k1 Hv. own_view. destruct (_ =? _); [own_all|].
  assert (held room (view k1) (on_repl_send l res)); [|own_all].
  unfold on_repl_send. own_all.
Qed.
Hint Resolve own_stream_send : own.

Lemma own_repl_send room l k : held room (view k) l → keeping room (do_repl_send l) k.
Proof. intros Hl. unfold do_repl_send. own_all. Qed.
Hint Resolve own_repl_send : own.

(** ** Dialling and giving up *)

(** A stream that dialled has its buffer in order, or is being closed. *)
Lemma calm_dialled l f :
  let s := l_stream l in
  rs_fd (f s) = rs_fd s → rs_connecting (f s) = false → zlen (c_buf (rs_conn (f s))) = LOOP_REPL_CAP →
  rs_closing (f s) = true ∨ stream_conn (rs_conn (f s)) → calm l (on_stream f l).
Proof.
  cbv zeta. intros Ef Ec Hb Hok. apply calm_on_stream; [done|by left|]. intros [Hr _ _]. constructor; [|done|].
  - rewrite Ef. intros Hl. by destruct (Hr Hl).
  - intros _ _ Hcl. destruct Hok as [?|?]; [congruence|done].
Qed.

(** A descriptor closed, if there was one. *)
Definition fd_gone (fd : Z) (v : fsys) : fsys := if fd <? 0 then v else del_fd fd v.

Lemma held_stream_gone room v l f :
  let s := l_stream l in
  held room v l → rs_fd (f s) < 0 → rs_connecting (f s) = false → rs_conn (f s) = rs_conn s →
  held room (fd_gone (rs_fd s) v) (on_stream f l).
Proof.
  cbv zeta. intros Hl Hfd Hc Hn.
  assert (stream_ok (l_is_follower l) (l_stream l) → stream_ok (l_is_follower l) (f (l_stream l))) as Hok.
  { intros [_ Hb _]. constructor; [done|by rewrite Hn|lia]. }
  unfold fd_gone. destruct (Z.ltb_spec (rs_fd (l_stream l)) 0).
  - eapply held_calm; [|exact Hl]. apply calm_on_stream; [done|by right|done].
  - apply (held_closed HStream room v l); try done; [constructor; eauto|]. by intros []; try by left.
Qed.

Lemma quiet_getsockopt fd l o (k : K) : wp (os_getsockopt_int fd l o) (λ _ k', view k' = view k) k.
Proof. unfold os_getsockopt_int. call law_getsockopt as [r b] k1 Hv. by apply wp_ret. Qed.
Lemma quiet_connect fd p a (k : K) : wp (os_connect fd p a) (λ _ k', view k' = view k) k.
Proof. unfold os_connect. call law_connect as r k1 Hv. by apply wp_ret. Qed.
Hint Resolve quiet_getsockopt quiet_connect : quiet.

Lemma own_on_dial room l res k : held room (view k) l → keeping room (on_repl_dial l res) k.
Proof.
  intros Hl. unfold on_repl_dial. cbv zeta. destruct (res <? 0).
  - set (fd := rs_fd (l_stream (on_stream _ l))).
    eapply (wp_call _ (λ _ k1, view k1 = fd_gone (rs_fd (l_stream l)) (view k))).
    { unfold fd_gone. change fd with (rs_fd (l_stream l)).
      destruct (Z.leb_spec 0 (rs_fd (l_stream l))), (Z.ltb_spec (rs_fd (l_stream l)) 0); try lia; [|by apply wp_ret].
      call quiet_epoll_ctl as r k1 Hv. eapply wp_mono; [apply wp_os_close|]. cbv beta. intros _ k2 ->. by rewrite Hv. }
    cbv beta. intros _ k1 Hv. apply wp_ret. rewrite Hv.
    eapply held_calm; [apply calm_redial; reflexivity|].
    by apply (held_stream_gone room _ l (λ s, s <| rs_connecting := false |> <| rs_fd := -1 |>)).
  - call quiet_epoll_ctl as r k1 Hv. own_view. pose proof (st_buf _ _ (held_stream _ _ _ Hl)) as Hb.
    destruct (negb _); apply wp_ret; (eapply held_calm; [|exact Hl]).
    + apply (calm_dialled l (λ s, s <| rs_connecting := false |> <| rs_want_out := false |> <| rs_closing := true |>));
        try done. by left.
    + set (opened := λ s, s <| rs_connecting := false |> <| rs_want_out := false |>
           <| rs_conn := conn_init (c_buf (rs_conn s)) LOOP_REPL_CAP CONN_MODE_INTERNAL |>
           <| rs_staged := [] |> <| rs_closing := false |> <| rs_acked := wal_durable_seq (l_wal l) |>).
      trans (on_stream opened l); [apply calm_dialled; try done; right; by repeat split|].
      exact (calm_frame _ (on_stream opened l) MSG_OP_REPL_START (wal_next_seq (l_wal l)) (reflexivity _)).
Qed.
Hint Resolve own_on_dial : own.

Lemma own_do_dial room l k : held room (view k) l → keeping room (do_repl_dial l) k.
Proof. intros Hl. unfold do_repl_dial. call quiet_getsockopt as [r e] k1 Hv. own_view. own_all. Qed.

Lemma own_stream_release room l k : held room (view k) l → keeping room (stream_release l) k.
Proof.
  intros Hl. unfold stream_release. cbv zeta. destruct (_ || _) eqn:Hu; [own_all|]. zb.
  call quiet_epoll_ctl as r k1 Hv. call wp_os_close as r2 k2 Hv2. apply wp_ret.
  eapply held_calm; [apply calm_redial; reflexivity|].
  replace (view k2) with (fd_gone (rs_fd (l_stream l)) (view k)).
  - by apply held_stream_gone.
  - unfold fd_gone. rewrite (proj2 (Z.ltb_ge _ _)) by done. congruence.
Qed.
Hint Resolve own_stream_release : own.

Lemma own_repl_dial room l k : held room (view k) l → keeping room (repl_dial l) k.
Proof.
  intros Hl. unfold repl_dial. cbv zeta. destruct (l_is_follower l) eqn:Hrole; cbn [negb orb]; [|own_all].
  destruct (l_stop l); [own_all|]. destruct (_ || _) eqn:Hu; [own_all|]. zb. destruct (_ <? _); [own_all|].
  call wp_socket as [r fd] k1 Ho. unfold opened_fd in Ho. cbn [fst snd] in Ho.
  destruct (result_ok r); cbn [negb]; [|apply wp_ret; rewrite Ho; own_all]. destruct Ho as [[Hge Hfr] Hv].
  call quiet_epoll_ctl as r2 k2 Hv2. destruct (negb _).
  { call wp_os_close as r3 k3 Hv3. apply wp_ret. rewrite Hv3, Hv2, Hv, del_set_fd by done. own_all. }
  assert (held room (view k2) (on_stream (λ s, s <| rs_fd := fd |> <| rs_connecting := true |>) l)) as Hl2.
  { rewrite Hv2, Hv. apply (held_opened HStream room (view k) l); try done; [|by intros []; left].
    constructor; eauto. intros [_ Hb _]. cbn. by rewrite Hrole. }
  call quiet_connect as r3 k3 Hv3. rewrite <-Hv3 in Hl2. own_all.
Qed.

Lemma own_arm_stream room l k : held room (view k) l → keeping room (arm_stream l) k.
Proof.
  intros Hl. unfold arm_stream. cbv zeta. destruct (_ || _); [own_all|]. destruct (rs_closing _); [own_all|].
  eapply (wp_call _ (λ l1 k1, held room (view k1) l1)); [own_all|]. cbv beta. intros l1 k1 Hl1.
  destruct (rs_closing _); [own_all|].
  assert (held room (view k1) (on_stream (λ s, s <| rs_conn ::= conn_compact |>) l1)) as Hl2; [|own_all].
  eapply held_calm; [|exact Hl1]. apply calm_on_stream; [done|by left|].
  intros [Hr Hb Hc]. constructor; cbn; [done|by rewrite compact_buf|]. intros ? ? Hcl.
  destruct (Hc ltac:(done) ltac:(done) Hcl) as [Hwf Hcap].
  destruct (conn_compact_spec _ Hwf) as (? & _ & _ & ? & _). split; [done|congruence].
Qed.

(** Whatever an event on the stream does. *)
Lemma own_stream_event room l scr (readable writable : bool) k :
  held (room + EVENT_RECORDS) (view k) l → 0 <= room →
  keeping room (if rs_connecting (l_stream l) then do_repl_dial l else
      l ← (if readable then do_repl_recv l scr else mret l);
      if writable then do_repl_send l else mret l) k.
Proof.
  intros Hl Hroom. assert (held room (view k) l) as Hw.
  { eapply held_weak; [|exact Hl]. unfold EVENT_RECORDS, LOOP_RECV_CAP. lia. }
  destruct (rs_connecting _) eqn:Hcon; [by apply own_do_dial|].
  eapply (wp_call _ (λ l1 k1, held room (view k1) l1)).
  - destruct readable; [by apply own_repl_recv|by apply wp_ret].
  - cbv beta. intros l1 k1 Hl1. destruct writable; [by apply own_repl_send|by apply wp_ret].
Qed.
End stream.
