(* ===== verification/LoopFollow.v ===== *)
(** * What a replica makes of its leader's bytes

    The composition of the stream's framing with the application of records:
    the loop of a receive ends by itself, and however the bytes a leader
    sends are cut into reads, the replica's log grows by the very records
    they carry, in order, until the stream is given up. *)

From S2P Require Import Prelude Core Crc32c Fmt Msg Conn Record Index Os Session Segment Wal Cursor Reopen Crash Durable.
From S2P Require Import LoopState LoopFrames LoopServe Metrics LoopTick LoopSpec LoopFacts LoopRecv LoopOwn LoopStream.
Import Stream.

#[local] Arguments wal_next_seq : simpl never.
#[local] Arguments wal_durable_seq : simpl never.

(** ** The receive loop *)

Section loop.
Context {K : Type} `{Sys K}.

(** Applying frames leaves the connection they came on alone. *)
Lemma conn_apply_loop fuel l p n at_ scr (k : K) :
  wp (apply_loop fuel l p n at_ scr) (λ l' _, rs_conn (l_stream l') = rs_conn (l_stream l)) k.
Proof.
  revert l at_ scr k. induction fuel as [|fuel IH]; intros l at_ scr k; cbn [apply_loop]; [by apply wp_ret|].
  destruct (_ <=? _); [by apply wp_ret|]. cbv zeta. destruct (wal_rec_decode _ _) as [rec|]; [|by apply wp_ret].
  destruct (_ || _); [by apply wp_ret|]. eapply wp_call; [apply wp_any|]. intros [[[r w] rec'] scr'] k1 _.
  destruct (negb _); [by apply wp_ret|]. eapply wp_mono; [apply IH|]. done.
Qed.

Lemma conn_stream_action l scr a (k : K) :
  wp (stream_action l scr a) (λ l' _, rs_conn (l_stream l') = rs_conn (l_stream l)) k.
Proof.
  destruct a as [h p n| |]; cbn [stream_action]; [|by apply wp_ret..].
  unfold on_stream_frame. destruct (_ =? _); [apply conn_apply_loop|].
  destruct (_ =? _); cbv zeta; [|by apply wp_ret]. destruct (negb _); [|by apply wp_ret].
  eapply wp_call; [apply wp_any|]. intros [] k1 _. by apply wp_ret.
Qed.

Lemma conn_stream_actions acts l scr (k : K) :
  wp (stream_actions l scr acts) (λ l' _, rs_conn (l_stream l') = rs_conn (l_stream l)) k.
Proof.
  revert l k. induction acts as [|a acts IH]; intros l k; cbn [stream_actions]; [by apply wp_ret|].
  eapply wp_call; [apply conn_stream_action|]. cbv beta. intros l1 k1 E. eapply wp_mono; [apply IH|].
  cbv beta. congruence.
Qed.

(** More fuel than events still to come makes no difference. *)
Lemma stream_loop_fuel f1 f2 l scr (k : K) :
  let c := rs_conn (l_stream l) in
  conn_wf c → (length (upcoming c).1 < f1)%nat → (length (upcoming c).1 < f2)%nat →
  stream_recv_loop f1 l scr k = stream_recv_loop f2 l scr k.
Proof.
  cbv zeta. revert f2 l k. induction f1 as [|f1 IH]; intros f2 l k Hwf H1 H2; [lia|].
  destruct f2 as [|f2]; [lia|]. cbn [stream_recv_loop]. set (c := rs_conn (l_stream l)) in *.
  destruct (conn_feed c 4) as [acts c1] eqn:Hfeed.
  destruct (feed_takes c 4 acts c1 Hwf ltac:(lia) Hfeed) as (Hwf1 & E1 & E2 & E4 & Hall & Hne).
  set (l1 := on_stream (λ s, s <| rs_conn := c1 |>) l). destruct acts as [|a acts]; [done|].
  rewrite decide_False in Hne by done. set (as_ := a :: acts) in *. clearbody as_.
  pose proof (conn_stream_actions as_ l1 scr k) as (l2 & k2 & Hd & Ec)%wp_elim.
  change (rs_conn (l_stream l1)) with c1 in Ec.
  unfold mbind, M_bind. rewrite Hd. destruct (rs_closing (l_stream l2)); [done|].
  unfold upcoming in H1, H2. rewrite Hall in H1, H2.
  destruct (parse_all (c_buf_cap c1) (ordered c1) (abs c1)) as [e2 s2] eqn:Hp1. cbn [fst] in *.
  rewrite length_app in H1, H2.
  apply IH; rewrite ?Ec; [done|unfold upcoming; rewrite Hp1; cbn; lia..].
Qed.
End loop.

(** ** The bytes of a stream *)

Definition run_bytes (run : list entry) : Z := zlen (log_bytes run).
Definition run_header (base : Z) (run : list entry) : msg_header_t :=
  msg_header_new MSG_OP_REPL_DATA MSG_RECORD_NONE 0 (run_bytes run) 0 base.

(** The frames of consecutive runs of records, the first at [base]. *)
Fixpoint frames (base : Z) (runs : list (list entry)) : list byte :=
  match runs with
  | [] => []
  | run :: runs => data_frame base run ++ frames (base + zlen run) runs
  end.
Fixpoint frame_events (base : Z) (runs : list (list entry)) : list event :=
  match runs with
  | [] => []
  | run :: runs => Frame (run_header base run) (log_bytes run) :: frame_events (base + zlen run) runs
  end.

(** A run that is sent: not empty, and no larger than a replica can take. *)
Definition sendable (run : list entry) : Prop := run ≠ [] ∧ 32 + run_bytes run <= LOOP_REPL_CAP.

(** The runs a leader's records are sent in. *)
Record framed (base : Z) (runs : list (list entry)) : Prop := {
  fr_runs : Forall sendable runs;
  fr_lead : from_leader (concat runs);
  fr_chain : chained base (concat runs);
  fr_range : 0 <= base ∧ base + zlen (concat runs) < 2 ^ 64 }.

Lemma framed_app base r1 r2 : framed base (r1 ++ r2) → framed base r1 ∧ framed (base + zlen (concat r1)) r2.
Proof.
  intros [[? ?]%Forall_app Hl Hc Hb]. rewrite concat_app in *. apply chained_app in Hc as [? ?]. rewrite length_app in Hb.
  split; (constructor; [done| |done|lia]); intros e He; apply Hl, elem_of_app; auto.
Qed.

Lemma framed_tail base run runs : framed base (run :: runs) → framed (base + zlen run) runs.
Proof. intros [_ Hf]%(framed_app _ [run]). cbn [concat] in Hf. by rewrite app_nil_r in Hf. Qed.

Lemma frames_app base r1 r2 : frames base (r1 ++ r2) = frames base r1 ++ frames (base + zlen (concat r1)) r2.
Proof.
  revert base. induction r1 as [|run r1 IH]; intros base; cbn [app frames concat]; [by rewrite Z.add_0_r|].
  rewrite IH, <-app_assoc, length_app. do 2 f_equal. f_equal. lia.
Qed.
Lemma frame_events_app base r1 r2 :
  frame_events base (r1 ++ r2) = frame_events base r1 ++ frame_events (base + zlen (concat r1)) r2.
Proof.
  revert base. induction r1 as [|run r1 IH]; intros base; cbn [app frame_events concat]; [by rewrite Z.add_0_r|].
  rewrite IH, length_app. cbn [app]. f_equal. f_equal. f_equal. lia.
Qed.
Lemma length_frame_events base runs : length (frame_events base runs) = length runs.
Proof. revert base. induction runs as [|run runs IH]; intros base; cbn; [done|by rewrite IH]. Qed.

(** Events are taken apart as runs. *)
Lemma frame_events_split base runs a b :
  frame_events base runs = a ++ b → ∃ r1 r2, runs = r1 ++ r2 ∧ a = frame_events base r1 ∧
    b = frame_events (base + zlen (concat r1)) r2.
Proof.
  revert base a. induction runs as [|run runs IH]; intros base a; cbn [frame_events].
  { intros [-> ->]%eq_sym%app_eq_nil. by exists [], []. }
  destruct a as [|e a]; cbn [app].
  { intros <-. exists [], (run :: runs). split_and!; [done..|]. cbn [concat length]. by rewrite Z.add_0_r. }
  intros [= <- (r1 & r2 & -> & -> & ->)%IH]. exists (run :: r1), r2. split_and!; [done..|].
  cbn [concat]. rewrite length_app. f_equal. lia.
Qed.

Lemma run_header_ok base run : sendable run → 0 <= base < 2 ^ 64 → header_ok (run_header base run).
Proof.
  intros [_ Hr] Hb. unfold LOOP_REPL_CAP in Hr. unfold header_ok, run_header, msg_header_new, run_bytes in *. cbn.
  split_and!; (done || lia).
Qed.

Lemma length_data_frame base run : sendable run → zlen (data_frame base run) = 32 + run_bytes run.
Proof. intros [Hne _]. destruct run as [|e run]; [done|]. unfold data_frame, run_bytes. len. Qed.

(** The front of a stream that starts with a frame: the frame, if all of it
    is there. *)
Lemma front_data base run opened bs q :
  sendable run → 0 <= base < 2 ^ 64 → bs ++ q = data_frame base run →
  front LOOP_REPL_CAP false opened bs =
    if zlen bs <? 32 + run_bytes run then Need else Good (run_header base run) (32 + run_bytes run).
Proof.
  intros Hs Hb Hbs. pose proof (length_data_frame base _ Hs) as Hlen. rewrite <-Hbs, length_app in Hlen.
  destruct Hs as [Hne Hcap]. unfold front, MSG_HEADER_SIZE.
  assert (0 <= run_bytes run) by (unfold run_bytes; lia).
  destruct (Z.ltb_spec (zlen bs) 32).
  { by rewrite (proj2 (Z.ltb_lt _ _)) by lia. }
  assert (header_of bs = run_header base run) as ->.
  { rewrite <-(header_of_app bs q), Hbs by lia. destruct run as [|e run]; [done|].
    apply header_of_bytes, run_header_ok; [done|lia]. }
  change (h_magic _) with MSG_MAGIC. change (h_version _) with MSG_VERSION.
  change (h_op _) with MSG_OP_REPL_DATA. change (h_payload_len _) with (run_bytes run). cbn [andb].
  unfold LOOP_REPL_CAP in *. rewrite (proj2 (Z.ltb_ge MSG_MAX_PAYLOAD _)) by (unfold MSG_MAX_PAYLOAD; lia).
  rewrite (proj2 (Z.ltb_ge 16384 _)) by lia. done.
Qed.

(** What the bytes at hand complete are the first of the frames. *)
Definition short_of (base : Z) (runs : list (list entry)) (rest : list byte) : Prop :=
  match runs with [] => rest = [] | run :: _ => zlen rest < zlen (data_frame base run) end.

Lemma parse_frames n base runs pend q o :
  framed base runs → pend ++ q = frames base runs → (length pend < n)%nat →
  ∃ r1 r2 rest, runs = r1 ++ r2 ∧ pend = frames base r1 ++ rest ∧
    rest ++ q = frames (base + zlen (concat r1)) r2 ∧ short_of (base + zlen (concat r1)) r2 rest ∧
    parse LOOP_REPL_CAP false n (St pend o false) = (frame_events base r1, St rest o false).
Proof.
  revert base runs pend. induction n as [|n IH]; intros base runs pend Hf Hp Hn; [lia|]. cbn [parse s_dead s_opened s_rest].
  destruct runs as [|run runs].
  { apply app_eq_nil in Hp as [-> ->]. exists [], [], []. by split_and!. }
  pose proof (framed_tail _ _ _ Hf) as Hf'. destruct Hf as [Hruns _ _ Hr]. apply Forall_cons in Hruns as [Hrun _].
  cbn [concat] in Hr. rewrite length_app in Hr. pose proof (length_data_frame base _ Hrun) as Hlen.
  cbn [frames] in Hp. destruct (Z.lt_ge_cases (zlen pend) (zlen (data_frame base run))) as [Hlt|Hge].
  - assert (∃ q', pend ++ q' = data_frame base run) as [q' Hq'].
    { apply app_eq_inv in Hp as [(x & -> & _)|(x & -> & _)]; [rewrite length_app in Hlt; lia|by exists x]. }
    rewrite (front_data base run o pend q') by (done || lia). rewrite (proj2 (Z.ltb_lt _ _)) by lia.
    exists [], (run :: runs), pend. cbn [concat length frames app]. rewrite Z.add_0_r. by split_and!.
  - assert (∃ more, pend = data_frame base run ++ more) as [more ->].
    { apply app_eq_inv in Hp as [(x & -> & _)|(x & E & _)]; [by exists x|]. exists [].
      rewrite E, length_app in *. destruct x; [by rewrite !app_nil_r|cbn in *; lia]. }
    rewrite <-app_assoc in Hp. apply app_inv_head in Hp.
    assert (front LOOP_REPL_CAP false o (data_frame base run ++ more)
      = Good (run_header base run) (32 + run_bytes run)) as ->.
    { apply front_ext; [|done]. rewrite (front_data base run o _ []) by (rewrite ?app_nil_r; done || lia).
      by rewrite (proj2 (Z.ltb_ge _ _)) by lia. }
    rewrite drop_app_length' by lia.
    destruct (IH (base + zlen run) runs more) as (r1 & r2 & rest & -> & -> & Hq & Hs & Hparse); [done|done| |].
    { rewrite length_app in Hn. destruct Hrun as [Hne _]. destruct run as [|e run]; [done|].
      unfold data_frame in Hn. rewrite length_app, length_header_bytes in Hn. lia. }
    change (Conn.opens (run_header base run)) with false. rewrite orb_false_r, Hparse.
    exists (run :: r1), r2, rest. cbn [concat frame_events frames]. rewrite length_app.
    replace (base + Z.of_nat (length run + length (concat r1))) with (base + zlen run + zlen (concat r1)) by lia.
    split_and!; [done|by rewrite <-app_assoc|done|done|]. do 2 f_equal.
    destruct Hrun as [Hne _]. destruct run as [|e run]; [done|]. unfold data_frame.
    f_equal. rewrite <-app_assoc. unfold MSG_HEADER_SIZE, sub. change (Z.to_nat 32) with 32%nat.
    rewrite drop_app_length' by (by rewrite length_header_bytes).
    rewrite take_app_length'; [done|]. change (h_payload_len _) with (run_bytes (e :: run)). unfold run_bytes. lia.
Qed.

(** ** Applying them *)

(** The stream is still over the same descriptor. *)
Definition same_link (l l' : loop_t) : Prop :=
  rs_fd (l_stream l') = rs_fd (l_stream l) ∧ rs_connecting (l_stream l') = rs_connecting (l_stream l).
#[export] Instance same_link_preorder : PreOrder same_link.
Proof. split; [done|]. intros a b c [? ?] [? ?]. split; congruence. Qed.

(** What a replica that was sent [run] has of it, and it has given the stream
    up if that is not all. *)
Record took (cap : Z) (hist run : list entry) (l l' : loop_t) (v' : fsys) (got : list entry) : Prop := {
  tk_log : in_use cap false v' (l_wal l') (hist ++ got);
  tk_next : wal_next_seq (l_wal l') = wal_next_seq (l_wal l) + zlen got;
  tk_sessions : l_sessions l' = foldl session_from_record (l_sessions l) got.*1;
  tk_link : same_link l l';
  tk_part : got `prefix_of` run;
  tk_open : rs_closing (l_stream l) = true → rs_closing (l_stream l') = true;
  tk_rest : got = run ∨ rs_closing (l_stream l') = true }.

Lemma took_none cap hist run l (v : fsys) : in_use cap false v (l_wal l) hist → took cap hist run l (close_stream l) v [].
Proof. intros Hl. constructor; try done; [by rewrite app_nil_r|cbn; lia|apply prefix_nil|by right]. Qed.

Section apply.
Context {cap : Z} {K : Type} `{SysLaws K}.

(** A replica takes the records of a run one by one, each as it is. *)
Lemma wp_take_loop fuel l hist run p at_ scr (k : K) :
  in_use cap false (view k) (l_wal l) hist → chained (wal_next_seq (l_wal l)) run → from_leader run →
  0 <= at_ → drop (Z.to_nat at_) p = log_bytes run →
  zlen run < Z.of_nat fuel → wal_next_seq (l_wal l) + zlen run < 2 ^ 64 →
  wp (apply_loop fuel l p (zlen p) at_ scr) (λ l' k', ∃ got, took cap hist run l l' (view k') got) k.
Proof.
  revert l hist run at_ scr k. induction fuel as [|fuel IH];
    intros l hist run at_ scr k Hlog Hch Hlead Hat Hd Hf Hmax; [lia|]. cbn [apply_loop].
  destruct run as [|[r q] run].
  { apply (f_equal length) in Hd. rewrite length_drop in Hd. cbn in Hd.
    rewrite (proj2 (Z.leb_le _ _)) by lia. apply wp_ret. exists [].
    constructor; try done; [by rewrite app_nil_r|cbn; lia|by left]. }
  destruct Hch as (Hseq & Hst & Hch).
  assert (w_pad r = 0) as Hpad by (apply (Hlead (r, q)); left).
  assert (from_leader run) as Hlead' by (intros e He; apply Hlead; by right).
  change (log_bytes ((r, q) :: run)) with (image r q ++ log_bytes run) in Hd.
  pose proof (length_image r q) as Hli. pose proof (align8_bounds (zlen q)).
  assert (zlen p - at_ = zlen (image r q) + zlen (log_bytes run)) as Hlen.
  { apply (f_equal length) in Hd. rewrite length_drop, length_app in Hd. lia. }
  rewrite (proj2 (Z.leb_gt _ _)) by lia. cbv zeta.
  rewrite Hd, decode_eq, rec_of_image by (lia || apply Hst).
  rewrite (image_size _ _ Hst), (proj2 (Z.eqb_neq _ _)), (proj2 (Z.ltb_ge _ _)) by lia.
  rewrite verify_image, Hseq, Z.eqb_refl by (done || lia). cbn [negb orb].
  destruct Hst as (Hok & Hwl & Hwm & Hcrc).
  assert (drop (Z.to_nat WAL_REC_HEADER_SIZE) (image r q ++ log_bytes run)
    = q ++ zeros (pad_len (zlen q)) ++ log_bytes run) as ->.
  { rewrite image_bytes, <-!app_assoc. apply drop_app_length'. by rewrite length_rec_bytes. }
  eapply wp_call.
  { apply (wp_run (wal_append_at (l_wal l) r (Some q) scr)).
    - apply append_at_longer. unfold WAL_MAX_PAYLOAD, MSG_MAX_PAYLOAD in Hwm. rewrite Hwl, i32_id; [done|lia].
    - apply (state_append_at (cap := cap) (t := false) (l_wal l) hist r (Some q)); [done..|cbn in *; lia]. }
  cbv beta. intros [[[x w] r'] sc] k1 [_ Hx]. cbn [default from_option] in Hx.
  destruct (result_ok x); cbn [negb].
  - destruct Hx as (Hin & Hr' & Hnx). unfold id in *.
    assert (r' = r) as ->.
    { rewrite Hr', <-Hseq. transitivity (sealed r q); [by destruct r|]. by apply sealed_stored_id. }
    match goal with |- wp (apply_loop _ ?l1 _ _ _ _) _ _ => set (l2 := l1) end.
    change w with (l_wal l2) in Hin, Hnx.
    eapply wp_mono; [apply (IH l2 (hist ++ [(r, q)]) run); try done|].
    + by rewrite Hnx.
    + lia.
    + rewrite Z2Nat.inj_add, <-drop_drop, Hd by lia. apply drop_app_length'. lia.
    + cbn in *. lia.
    + cbn in Hmax. lia.
    + cbv beta. intros l' k2 (got & [Hl2 Hn2 Hs2 Hst2 Hp2 Ho2 Hr2]). exists ((r, q) :: got).
      constructor; try done; [by rewrite <-app_assoc in Hl2|cbn; lia|by apply prefix_cons|].
      destruct Hr2 as [-> |?]; [by left|by right].
  - destruct Hx as [Hin Hnx]. apply wp_ret. exists [].
    constructor; try done; [by rewrite app_nil_r|cbn; lia|apply prefix_nil|by right].
Qed.

(** A run that does not start where the log ends is refused. *)
Lemma refuse_run fuel l e run scr (k : K) :
  stored e.1 e.2 → w_seq e.1 ≠ wal_next_seq (l_wal l) →
  apply_loop (S fuel) l (log_bytes (e :: run)) (zlen (log_bytes (e :: run))) 0 scr k = (close_stream l, k).
Proof.
  destruct e as [r q]. cbn [fst snd]. intros Hst Hne. cbn [apply_loop].
  change (log_bytes ((r, q) :: run)) with (image r q ++ log_bytes run).
  pose proof (length_image r q) as Hli. pose proof (align8_bounds (zlen q)).
  rewrite (proj2 (Z.leb_gt _ _)) by (rewrite length_app; lia). cbv zeta. rewrite drop_0, Z.sub_0_r.
  rewrite decode_eq, rec_of_image by (apply Hst || (rewrite length_app; lia)).
  by rewrite (proj2 (Z.eqb_neq _ _) Hne), orb_true_r.
Qed.

(** A frame of the stream, whether the replica is where it starts or has
    given the stream up before. *)
Lemma wp_take_frame l hist base run p scr (k : K) :
  in_use cap false (view k) (l_wal l) hist → framed base [run] → wal_next_seq (l_wal l) <= base →
  default [] p = log_bytes run →
  wp (on_stream_frame l (run_header base run) p (run_bytes run) scr)
    (λ l' k', ∃ got, took cap hist run l l' (view k') got ∧ (wal_next_seq (l_wal l) < base → got = [])) k.
Proof.
  intros Hlog [[Hs _]%Forall_cons Hlead Hch Hb] Hle Hp. cbn [concat] in *. rewrite app_nil_r in *.
  unfold on_stream_frame. change (h_op _ =? MSG_OP_REPL_DATA) with true. cbv iota. unfold repl_apply. rewrite Hp.
  unfold run_bytes. destruct (Z.lt_ge_cases (wal_next_seq (l_wal l)) base) as [Hlt|Hge].
  - destruct Hs as [Hne _]. destruct run as [|[r q] run]; [done|]. destruct Hch as (Hseq & Hst & _).
    apply (wp_intro _ _ _ _ _ (refuse_run _ l (r, q) run scr k Hst ltac:(cbn; lia))).
    exists []. split; [by apply took_none|done].
  - assert (wal_next_seq (l_wal l) = base) as Eb by lia. pose proof (log_bytes_long run).
    eapply wp_mono; [apply (wp_take_loop _ l hist run); try done; rewrite ?Eb; done || lia|].
    cbv beta. intros l' k' (got & Hg). exists got. split; [done|lia].
Qed.

Lemma took_more hist run1 rest l l1 l2 v1 (v2 : fsys) got1 got2 :
  took cap hist run1 l l1 v1 got1 → took cap (hist ++ got1) rest l1 l2 v2 got2 →
  (got1 ≠ run1 → got2 = []) → took cap hist (run1 ++ rest) l l2 v2 (got1 ++ got2).
Proof.
  intros [L1 N1 S1 C1 P1 O1 R1] [L2 N2 S2 C2 P2 O2 R2] Hno. constructor.
  - by rewrite app_assoc.
  - rewrite length_app. lia.
  - by rewrite S2, S1, fmap_app, foldl_app.
  - by etrans.
  - destruct (decide (got1 = run1)) as [->|Hne]; [by apply prefix_app|].
    rewrite (Hno Hne), app_nil_r. by apply prefix_app_r.
  - auto.
  - destruct R1 as [->|Hcl]; [|right; auto]. destruct R2 as [->|?]; [by left|by right].
Qed.

Lemma took_part hist run rest l l' (v : fsys) got :
  took cap hist run l l' v got → rs_closing (l_stream l') = true → took cap hist (run ++ rest) l l' v got.
Proof. intros [L N S C P O R] Hcl. constructor; try done; [by apply prefix_app_r|by right]. Qed.

(** A batch of actions that delivers frames of the stream and nothing else. *)
Lemma wp_take_actions acts l hist base runs scr (k : K) :
  let buf := c_buf (rs_conn (l_stream l)) in
  in_use cap false (view k) (l_wal l) hist → framed base runs → wal_next_seq (l_wal l) <= base →
  events buf acts = frame_events base runs → Forall (λ a, is_frame a = true) acts → Forall (fits buf) acts →
  wp (stream_actions l scr acts)
    (λ l' k', ∃ got, took cap hist (concat runs) l l' (view k') got ∧ (wal_next_seq (l_wal l) < base → got = [])) k.
Proof.
  cbv zeta. revert l hist base runs k. induction acts as [|a acts IH];
    intros l hist base runs k Hlog Hf Hle Hev Hfr Hfit; cbn [stream_actions].
  { destruct runs; [|done]. apply wp_ret. exists []. split; [|done].
    constructor; try done; [by rewrite app_nil_r|cbn; lia|by left]. }
  apply Forall_cons in Hfr as [Ha Hfr], Hfit as [Hfa Hfit]. destruct a as [h p n| |]; [|done..].
  destruct runs as [|run runs]; [done|]. injection Hev as -> Hp Hev.
  assert (framed base [run]) as Hf1 by apply (framed_app _ [run] runs Hf).
  assert (n = run_bytes run) as ->.
  { pose proof (fits_payload _ _ _ _ Hfa) as Hn. unfold run_bytes. rewrite <-Hp. by destruct p. }
  eapply wp_call.
  { apply wp_both; [|apply (conn_stream_action l scr (CONN_ACTION_FRAME (run_header base run) p (run_bytes run)))].
    apply (wp_take_frame l hist base run); [done..|by rewrite <-Hp; destruct p]. }
  cbv beta. intros l1 k1 [(got1 & H1 & Hno1) Ec].
  assert (got1 = run ∨ rs_closing (l_stream l1) = true ∧ zlen got1 < zlen run) as Hpart.
  { destruct H1 as [_ _ _ _ [x Hx] _ Hrest]. destruct x; [left; by rewrite app_nil_r in Hx|].
    right. destruct Hrest as [->|?]; [|split; [done|rewrite Hx, length_app; cbn; lia]].
    exfalso. apply (f_equal length) in Hx. rewrite length_app in Hx. cbn in Hx. lia. }
  pose proof (tk_next _ _ _ _ _ _ _ H1) as Hn1.
  eapply wp_mono; [apply (IH l1 (hist ++ got1) (base + zlen run) runs)|].
  - apply H1.
  - by eapply framed_tail.
  - destruct Hpart as [->|[_ ?]]; lia.
  - by rewrite Ec.
  - done.
  - by rewrite Ec.
  - cbv beta. intros l2 k2 (got2 & H2 & Hno2). exists (got1 ++ got2). cbn [concat]. split.
    + eapply took_more; [exact H1|exact H2|]. intros Hne. apply Hno2. destruct Hpart as [?|[_ ?]]; [done|lia].
    + intros Hlt. rewrite (Hno1 Hlt). apply Hno2. rewrite (Hno1 Hlt) in Hn1. cbn in Hn1. lia.
Qed.
End apply.

(** ** A receive *)

(** Nothing ends the connection but an error. *)
Lemma feed_only_frames c n acts c' buf :
  conn_feed c n = (acts, c') → (∀ code q, Error code q ∉ events buf acts) → Forall (λ a, is_frame a = true) acts.
Proof.
  unfold conn_feed. destruct (_ || _); [by intros [= <- <-]|].
  generalize (Z.to_nat n), (c_buf_off c). intros room. revert c acts c'.
  assert (∀ room x y, (∀ code q, Error code q ∉ events buf (emit_fatal room x y)) →
    Forall (λ a, is_frame a = true) (emit_fatal room x y)) as Hfatal.
  { intros [|[|m]] x y Hno; cbn in *; [done|exfalso; by eapply Hno; left..]. }
  induction room as [|room IH]; intros c acts c' cur; cbn [feed_loop]; [by intros [= <- <-]|]. cbv zeta.
  head_if as E; [by intros [= <- <-]|clear E].
  do 5 (head_if as E; [intros [= <- <-]; apply (Hfatal (S room))|clear E]).
  head_if as E; [by intros [= <- <-]|clear E].
  destruct (feed_loop room _ _) as [as' c2] eqn:Hl. intros [= <- <-] Hno. constructor; [done|].
  eapply IH; [exact Hl|]. intros code q Hin. eapply Hno. by right.
Qed.

Lemma frame_events_clean base runs code q : Error code q ∉ frame_events base runs.
Proof.
  revert base. induction runs as [|run runs IH]; intros base; cbn [frame_events]; [by intros ?%elem_of_nil|].
  intros [[=]|?]%elem_of_cons. by eapply IH.
Qed.

Section receive.
Context {cap : Z} {K : Type} `{SysLaws K}.

(** The loop of a receive takes all the frames that are there. *)
Lemma wp_take_received fuel l hist runs rest o scr (k : K) :
  let c := rs_conn (l_stream l) in
  in_use cap false (view k) (l_wal l) hist → stream_conn c → framed (wal_next_seq (l_wal l)) runs →
  upcoming c = (frame_events (wal_next_seq (l_wal l)) runs, St rest o false) → (length runs < fuel)%nat →
  wp (stream_recv_loop fuel l scr) (λ l' k', ∃ got, took cap hist (concat runs) l l' (view k') got ∧
    (rs_closing (l_stream l') = false → let c' := rs_conn (l_stream l') in
      stream_conn c' ∧ c_mode c' = c_mode c ∧ abs c' = St rest o false)) k.
Proof.
  cbv zeta. revert l hist runs k. induction fuel as [|fuel IH]; intros l hist runs k Hlog Hc Hf Hup Hfuel; [lia|].
  cbn [stream_recv_loop]. set (c := rs_conn (l_stream l)) in *. destruct Hc as [Hwf Hcap].
  destruct (conn_feed c 4) as [acts c1] eqn:Hfeed.
  destruct (feed_takes c 4 acts c1 Hwf ltac:(lia) Hfeed) as (Hwf1 & E1 & E2 & E4 & Hall & Hne).
  set (l1 := on_stream (λ s, s <| rs_conn := c1 |>) l). destruct acts as [|a acts].
  { rewrite decide_True in Hne by done. unfold upcoming in Hup. rewrite Hne in Hup.
    pose proof (f_equal fst Hup) as He. pose proof (f_equal snd Hup) as Ha. cbn [fst snd] in He, Ha.
    destruct runs; [|done]. apply wp_ret. exists []. split.
    - constructor; try done; [by rewrite app_nil_r|cbn; lia|by left].
    - intros _. split; [split; [exact Hwf1|exact (eq_trans E2 Hcap)]|]. by split. }
  rewrite decide_False in Hne by done. set (as_ := a :: acts) in *. clearbody as_.
  unfold upcoming in Hup. rewrite Hall in Hup.
  destruct (parse_all (c_buf_cap c1) (ordered c1) (abs c1)) as [e2 s2] eqn:Hp1. injection Hup as Hev ->.
  destruct (frame_events_split _ _ _ _ (eq_sym Hev)) as (r1 & r2 & -> & Ea & Eb).
  assert (length r1 ≠ 0%nat) as Hr1 by (rewrite Ea, length_frame_events in Hne; lia).
  assert (framed (wal_next_seq (l_wal l)) r1 ∧ framed (wal_next_seq (l_wal l) + zlen (concat r1)) r2) as [Hf1 Hf2].
  { by apply framed_app. }
  eapply wp_call.
  { apply wp_both; [|apply (conn_stream_actions as_ l1)].
    apply (wp_take_actions (cap := cap) as_ l1 hist (wal_next_seq (l_wal l)) r1);
      change (c_buf (rs_conn (l_stream l1))) with (c_buf c1); rewrite ?E1; first [done|apply Z.le_refl|idtac].
    - eapply (feed_only_frames _ _ _ _ (c_buf c)); [exact Hfeed|]. rewrite Ea. apply frame_events_clean.
    - rewrite <-E1. by apply (feed_fits c 4). }
  cbv beta. intros l2 k2 [(got1 & H1 & _) Ec]. change (rs_conn (l_stream l1)) with c1 in Ec.
  assert (took cap hist (concat r1) l l2 (view k2) got1) as H1' by (destruct H1; constructor; done).
  destruct (rs_closing (l_stream l2)) eqn:Hcl.
  { apply wp_ret. exists got1. split; [|congruence]. rewrite concat_app. by apply took_part. }
  destruct H1 as [L1 N1 S1 C1 P1 O1 R1]. destruct R1 as [->|]; [|congruence].
  change (wal_next_seq (l_wal l1)) with (wal_next_seq (l_wal l)) in N1.
  eapply wp_mono; [apply (IH l2 (hist ++ concat r1) r2)|]; rewrite ?Ec, ?N1; try done.
  - split; [done|congruence].
  - rewrite <-Eb. exact Hp1.
  - rewrite length_app in Hfuel. lia.
  - cbv beta. intros l3 k3 (got2 & H2 & Hend). exists (concat r1 ++ got2). split.
    + rewrite concat_app. by eapply took_more.
    + intros Hcl3. destruct (Hend Hcl3) as (? & ? & ?). split; [done|]. split; [congruence|done].
Qed.

(** A replica that is being sent [runs]: what of their bytes it has received
    is short of a frame, and [q] is still to come. *)
Record following (hist : list entry) (runs : list (list entry)) (q : list byte) (l : loop_t) (v : fsys) : Prop := {
  fo_log : in_use cap false v (l_wal l) hist;
  fo_conn : stream_conn (rs_conn (l_stream l));
  fo_mode : c_mode (rs_conn (l_stream l)) = CONN_MODE_INTERNAL;
  fo_alive : c_closed (rs_conn (l_stream l)) = false;
  fo_framed : framed (wal_next_seq (l_wal l)) runs;
  fo_bytes : pending (rs_conn (l_stream l)) ++ q = frames (wal_next_seq (l_wal l)) runs;
  fo_short : short_of (wal_next_seq (l_wal l)) runs (pending (rs_conn (l_stream l))) }.

(** How far it is when [q] is still to come: it has taken the first runs and
    follows the others, or it has given the stream up on the way. *)
Definition went_on (hist : list entry) (runs : list (list entry)) (q : list byte) (l l' : loop_t) (v' : fsys) : Prop :=
  if rs_closing (l_stream l') then ∃ got, took cap hist (concat runs) l l' v' got
  else ∃ r1 r2, runs = r1 ++ r2 ∧ took cap hist (concat r1) l l' v' (concat r1) ∧
    following (hist ++ concat r1) r2 q l' v'.

(** A step that takes nothing. *)
Definition idled (hist : list entry) (l l' : loop_t) (v' : fsys) : Prop := took cap hist [] l l' v' [].

Lemma idled_intro hist l l' (v' : fsys) :
  in_use cap false v' (l_wal l') hist → wal_next_seq (l_wal l') = wal_next_seq (l_wal l) →
  l_sessions l' = l_sessions l → same_link l l' →
  (rs_closing (l_stream l) = true → rs_closing (l_stream l') = true) → idled hist l l' v'.
Proof. intros. constructor; try done; [by rewrite app_nil_r|cbn; lia|by left]. Qed.

Lemma idled_on hist runs q l l' (v v' : fsys) :
  following hist runs q l v → idled hist l l' v' →
  rs_conn (l_stream l') = rs_conn (l_stream l) ∨ rs_conn (l_stream l') = conn_compact (rs_conn (l_stream l)) →
  went_on hist runs q l l' v'.
Proof.
  intros [Hl [Hwf Hcap] Hm Hal Hf Hb Hs] Hid Hc. unfold went_on. destruct (rs_closing (l_stream l')) eqn:Hcl.
  { exists []. by apply (took_part hist [] (concat runs)). }
  exists [], runs. split; [done|]. split; [exact Hid|]. destruct Hid as [L N _ _ _ _ _]. cbn in N.
  assert (stream_conn (rs_conn (l_stream l')) ∧ abs (rs_conn (l_stream l')) = abs (rs_conn (l_stream l)) ∧
    c_mode (rs_conn (l_stream l')) = c_mode (rs_conn (l_stream l))) as (Hc' & Ha & Hm').
  { destruct Hc as [-> | ->]; [by repeat split; try apply Hwf|].
    destruct (conn_compact_spec _ Hwf) as (? & ? & _ & ? & ? & _). split; [split; [done|congruence]|done]. }
  injection Ha as Ep _ Ed.
  assert (wal_next_seq (l_wal l') = wal_next_seq (l_wal l)) as En by lia.
  constructor; rewrite ?En, ?Ep; [exact L|done|congruence..|done|done|done].
Qed.

(** *** What the parts of a pass do to it *)

(** What a receive reports is what it left in the buffer. *)
Lemma wp_recv_bytes fd n fl (k : K) :
  0 <= n < 2 ^ 31 → wp (os_recv fd n fl) (λ x k', view k' = view k ∧ x.1 <= n ∧ (0 < x.1 → zlen x.2 = x.1)) k.
Proof.
  intros Hn. unfold os_recv. call law_recv as [r bs] k1 [Hv Hr]. apply wp_ret. cbn [fst snd] in *.
  assert (i32 r = r) as ->.
  { destruct Hr as [Hf|?]; [|apply i32_id; lia]. unfold failed, sys_is_err in Hf. zb. rewrite i32_id; lia. }
  split; [done|]. destruct Hr as [?%failed_neg|[? ?]]; split; (done || lia).
Qed.

(** A receive: the bytes follow what was pending, and every frame that is
    complete is taken. *)
Lemma wp_take_recv l hist runs q res bs scr (k k0 : K) :
  let s := l_stream l in
  following hist runs ((if 0 <? res then bs else []) ++ q) l (view k) → rs_closing s = false → 0 <= rs_fd s →
  0 < conn_recv_space (rs_conn s) →
  os_recv (rs_fd s) (conn_recv_space (rs_conn s)) MSG_DONTWAIT k = ((res, bs), k0) →
  wp (do_repl_recv l scr) (λ l' k', went_on hist runs q l l' (view k')) k.
Proof.
  cbv zeta. intros Hfo Hop Hfd Hsp E. pose proof Hfo as [Hl [Hwf Hcap] Hm Hal Hf Hb Hs].
  unfold do_repl_recv. cbv zeta. rewrite Hop, (proj2 (Z.ltb_ge _ _)), (proj2 (Z.leb_gt _ _)) by lia. cbn [orb].
  pose proof (space_small _ Hwf ltac:(by rewrite Hcap)) as Hsmall.
  pose proof (wp_result _ _ _ _ _ (wp_recv_bytes _ _ _ k (conj (Z.lt_le_incl _ _ Hsp) Hsmall)) E) as (Hv & Hle & Hn).
  cbn [fst snd] in *. eapply (wp_call _ (λ x k', x = (res, bs) ∧ k' = k0)); [by eapply wp_intro|].
  cbv beta. intros x k' [-> ->]. destruct (Z.eqb_spec res (- EAGAIN)) as [->|_].
  { apply wp_ret. eapply idled_on; [exact Hfo| |by left]. rewrite Hv. by apply idled_intro. }
  unfold on_repl_recv. cbn [l_stream on_stream rs_fd]. set (l1 := on_stream _ l).
  change (rs_fd (l_stream l1)) with (rs_fd (l_stream l)). rewrite (proj2 (Z.ltb_ge _ _)) by lia.
  destruct (Z.leb_spec res 0) as [Hneg|Hpos].
  { apply wp_ret. unfold went_on. change (rs_closing (l_stream (close_stream l1))) with true. cbv iota.
    exists []. rewrite Hv. constructor; try done; [by rewrite app_nil_r|cbn; lia|apply prefix_nil|by right]. }
  rewrite (proj2 (Z.ltb_lt _ _)) in Hb by lia. rewrite app_assoc in Hb.
  destruct (commit_received (rs_conn (l_stream l)) res bs) as (Hwf2 & Hcap2 & Hm2 & Ha2); [done|lia|auto|].
  set (c2 := (conn_recv_commit _ _).2) in *. set (l2 := on_stream _ l1).
  assert (rs_conn (l_stream l2) = c2) as Ec by done.
  unfold extend, abs in Ha2. cbn [s_dead s_rest s_opened] in Ha2. rewrite Hal in Ha2.
  destruct (parse_frames (2 + length (pending (rs_conn (l_stream l)) ++ bs)) (wal_next_seq (l_wal l)) runs
    (pending (rs_conn (l_stream l)) ++ bs) q (c_opened (rs_conn (l_stream l))))
    as (r1 & r2 & rest & -> & Er & Hq & Hshort & Hparse); [done|done|lia|].
  assert (upcoming c2 = (frame_events (wal_next_seq (l_wal l)) r1, St rest (c_opened (rs_conn (l_stream l))) false)) as Hup.
  { unfold upcoming, parse_all, ordered, abs. rewrite Hcap2, Hcap, Hm2, Hm, Ha2. exact Hparse. }
  destruct (framed_app _ _ _ Hf) as [Hf1 Hf2].
  pose proof (upcoming_few c2 Hwf2) as Hfew. rewrite Hup, Hcap2, Hcap in Hfew. cbn [fst] in Hfew.
  rewrite length_frame_events in Hfew.
  rewrite <-Hv in Hl. eapply wp_mono; [apply (wp_take_received _ l2 hist r1 rest (c_opened (rs_conn (l_stream l))))|].
  - exact Hl.
  - rewrite Ec. split; [done|congruence].
  - exact Hf1.
  - by rewrite Ec.
  - lia.
  - cbv beta. intros l' k' (got & Hg & Hend).
    assert (took cap hist (concat r1) l l' (view k') got) as Hg' by (destruct Hg; constructor; done).
    unfold went_on. destruct (rs_closing (l_stream l')) eqn:Hcl.
    { exists got. rewrite concat_app. by apply took_part. }
    assert (got = concat r1) as -> by (destruct Hg as [_ _ _ _ _ _ [?|?]]; congruence).
    destruct (Hend eq_refl) as (Hc' & Hm' & Ha'). injection Ha' as Ep _ Ed.
    exists r1, r2. split_and!; [done|done|].
    constructor; rewrite ?(tk_next _ _ _ _ _ _ _ Hg'), ?Ep; try done; [apply Hg'|congruence].
Qed.

(** What touches neither log, files nor session marks, and of the stream at
    most what is staged or how its buffer is laid out. *)
Record aside (l l' : loop_t) : Prop := {
  as_log : l_wal l' = l_wal l;
  as_sessions : l_sessions l' = l_sessions l;
  as_link : same_link l l';
  as_open : rs_closing (l_stream l) = true → rs_closing (l_stream l') = true;
  as_conn : rs_conn (l_stream l') = rs_conn (l_stream l) ∨ rs_conn (l_stream l') = conn_compact (rs_conn (l_stream l)) }.

Lemma aside_refl l : aside l l.
Proof. constructor; try done. by left. Qed.

Lemma aside_idled hist l l' (v : fsys) : in_use cap false v (l_wal l) hist → aside l l' → idled hist l l' v.
Proof. intros Hl [E1 E2 E3 E4 _]. apply idled_intro; [by rewrite E1|by rewrite E1|done..]. Qed.

Lemma aside_on hist runs q l l' (v : fsys) : following hist runs q l v → aside l l' → went_on hist runs q l l' v.
Proof. intros Hfo Ha. eapply idled_on; [exact Hfo|apply aside_idled; [apply Hfo|done]|apply Ha]. Qed.

Lemma aside_frame op q l : aside l (on_stream (stream_frame op q) l).
Proof.
  constructor; [done..|unfold same_link| |left]; cbn; unfold stream_frame; by destruct (MAX_STREAM_SEND - _ <? _).
Qed.

Lemma aside_report l : aside l (stream_report l).
Proof.
  unfold stream_report. cbv zeta. do 3 (destruct (_ : bool); [apply aside_refl|]).
  destruct (aside_frame MSG_OP_REPL_ACK (wal_durable_seq (l_wal l)) l) as [? ? ? ? ?]. by constructor.
Qed.

Lemma aside_want_out l l0 want (k : K) :
  rs_conn (l_stream l) = rs_conn (l_stream l0) → aside l0 l →
  wp (stream_want_out l want) (λ l' k', view k' = view k ∧ rs_conn (l_stream l') = rs_conn (l_stream l0) ∧ aside l0 l') k.
Proof.
  intros Ec [E1 E2 E3 E4 E5]. unfold stream_want_out. cbv zeta. destruct (_ || _); [by apply wp_ret|].
  call quiet_epoll_ctl as r k1 Hv. apply wp_ret. split; [done|].
  destruct (negb _); (split; [done|constructor; try done; by etrans]).
Qed.

Lemma aside_send l (k : K) :
  wp (stream_send l) (λ l' k', view k' = view k ∧ rs_conn (l_stream l') = rs_conn (l_stream l) ∧ aside l l') k.
Proof.
  unfold stream_send. cbv zeta. call quiet_send as res k1 Hv. rewrite <-Hv.
  destruct (_ =? _); [by apply aside_want_out, aside_refl|].
  assert (rs_conn (l_stream (on_repl_send l res)) = rs_conn (l_stream l) ∧ aside l (on_repl_send l res)) as [? ?]; [|by apply aside_want_out].
  unfold on_repl_send. destruct (_ <? _); [|destruct (_ <? _)]; (split; [done|constructor; try done; by left]).
Qed.

Lemma aside_arm l (k : K) :
  rs_closing (l_stream l) = false → wp (arm_stream l) (λ l' k', view k' = view k ∧ aside l l') k.
Proof.
  intros Hop. unfold arm_stream. cbv zeta. destruct (_ || _); [apply wp_ret; split; [done|apply aside_refl]|]. rewrite Hop.
  eapply (wp_call _ (λ l' k', view k' = view k ∧ rs_conn (l_stream l') = rs_conn (l_stream l) ∧ aside l l')).
  { destruct (_ && _); [apply aside_send|apply wp_ret; split_and!; [done..|apply aside_refl]]. }
  cbv beta. intros l1 k1 (Hv & Ec & Ha). destruct (rs_closing (l_stream l1)) eqn:Hcl; [by apply wp_ret|].
  destruct Ha as [E1 E2 E3 E4 _]. apply wp_ret. split; [done|].
  destruct (_ <=? _); (constructor; cbn; [done..|congruence|rewrite Ec; by right]).
Qed.

(** A flush, whether it succeeds or not. *)
Lemma flush_idles l hist (k : K) :
  in_use cap false (view k) (l_wal l) hist →
  wp (tick_flush l) (λ x k', idled hist l x.2 (view k') ∧ l_stream x.2 = l_stream l) k.
Proof.
  intros Hl. unfold tick_flush. destruct (negb _); [apply wp_ret; split; [by apply idled_intro|done]|].
  call quiet_now as began k1 Hv. rewrite <-Hv in Hl. destruct Hl as (segs & a & b & L).
  call (state_sync (cap := cap) (t := false) (l_wal l) hist segs a b) as [r w] k2 (En & _ & Hx); [done|].
  cbn [fst snd] in *. assert (in_use cap false (view k2) w hist) as Hw by (destruct (result_ok r); by eexists _, _, _).
  destruct (negb _); [apply wp_ret; split; [by apply idled_intro|done]|].
  set (l2 := _ <| l_counts ::= _ |>).
  eapply (wp_call _ (λ l' k', view k' = view k2 ∧ l_wal l' = w ∧ l_sessions l' = l_sessions l ∧ l_stream l' = l_stream l)).
  - unfold fsync_observe. eapply (wp_call _ (λ _ k', view k' = view k2)); [|cbv beta; intros ns k3 Hv3; by apply wp_ret].
    destruct (_ <? _); [|by apply wp_ret]. call quiet_now as now k3 Hv3. apply wp_ret. congruence.
  - cbv beta. intros l' k3 (Hv3 & E1 & E2 & E3). apply wp_ret. cbn [snd]. split; [|done].
    unfold idled. rewrite Hv3. apply idled_intro; rewrite ?E1, ?E2; try done; [unfold same_link|]; by rewrite E3.
Qed.
End receive.

(** *** Any number of them *)

Section follow.
Context {cap : Z} {K : Type} `{SysLaws K} (scr : list byte).

(** A part of a pass in which the replica is sent [bs]. *)
Inductive recv_step (l : loop_t) (k : K) : list byte → loop_t → K → Prop :=
| rcv_read res bs k0 l' k' :
    let s := l_stream l in
    rs_closing s = false → 0 <= rs_fd s → 0 < conn_recv_space (rs_conn s) →
    os_recv (rs_fd s) (conn_recv_space (rs_conn s)) MSG_DONTWAIT k = ((res, bs), k0) →
    do_repl_recv l scr k = (l', k') → recv_step l k (if 0 <? res then bs else []) l' k'
| rcv_flush r l' k' : tick_flush l k = ((r, l'), k') → recv_step l k [] l' k'
| rcv_report : recv_step l k [] (stream_report l) k
| rcv_arm l' k' : rs_closing (l_stream l) = false → arm_stream l k = (l', k') → recv_step l k [] l' k'.

(** The bytes of a whole time on one stream. *)
Inductive receives : list byte → loop_t → K → loop_t → K → Prop :=
| rcv_done l k : receives [] l k l k
| rcv_more bs more l k l1 k1 l' k' :
    recv_step l k bs l1 k1 → receives more l1 k1 l' k' → receives (bs ++ more) l k l' k'.

Lemma step_on hist runs q l k bs l' k' :
  recv_step l k bs l' k' → following (cap := cap) hist runs (bs ++ q) l (view k) →
  went_on (cap := cap) hist runs q l l' (view k').
Proof.
  intros [res bs0 k0 l1 k1 s Hop Hfd Hsp E Hr|r l1 k1 E| |l1 k1 Hop E] Hfo.
  - eapply (wp_result _ _ _ _ _ (wp_take_recv _ _ _ _ _ _ _ _ _ Hfo Hop Hfd Hsp E) Hr).
  - destruct (wp_result _ _ _ _ _ (flush_idles l hist k ltac:(apply Hfo)) E) as [Hi Es]. cbn [snd] in *.
    eapply idled_on; [exact Hfo|done|left; by rewrite Es].
  - apply aside_on; [done|apply aside_report].
  - destruct (wp_result _ _ _ _ _ (aside_arm l k Hop) E) as [Hv Ha]. rewrite Hv. by apply aside_on.
Qed.

(** A stream that was given up takes nothing more. *)
Lemma step_closed hist l k bs l' k' :
  recv_step l k bs l' k' → rs_closing (l_stream l) = true → in_use cap false (view k) (l_wal l) hist →
  idled (cap := cap) hist l l' (view k').
Proof.
  intros [res bs0 k0 l1 k1 s Hop|r l1 k1 E| |l1 k1 Hop E] Hcl Hl; [unfold s in *; congruence| | |congruence].
  - by destruct (wp_result _ _ _ _ _ (flush_idles l hist k Hl) E).
  - apply aside_idled; [done|apply aside_report].
Qed.

Lemma receives_closed hist bs l k l' k' :
  receives bs l k l' k' → rs_closing (l_stream l) = true → in_use cap false (view k) (l_wal l) hist →
  idled (cap := cap) hist l l' (view k').
Proof.
  intros Hr. induction Hr as [l k|bs more l k l1 k1 l' k' Hs Hr IH]; intros Hcl Hl; [by apply idled_intro|].
  pose proof (step_closed _ _ _ _ _ _ Hs Hcl Hl) as Hi.
  assert (in_use cap false (view k1) (l_wal l1) hist) as Hl1 by (rewrite <-(app_nil_r hist); apply Hi).
  apply (took_more hist [] [] l l1 l' (view k1) (view k') [] []); [done| |done]. rewrite app_nil_r.
  apply IH; [by apply Hi|done].
Qed.

Lemma receives_on hist runs q bs l k l' k' :
  receives bs l k l' k' → following (cap := cap) hist runs (bs ++ q) l (view k) →
  went_on (cap := cap) hist runs q l l' (view k').
Proof.
  intros Hr. revert hist runs q. induction Hr as [l k|bs more l k l1 k1 l' k' Hs Hr IH]; intros hist runs q Hfo.
  { eapply idled_on; [exact Hfo| |by left]. apply idled_intro; [apply Hfo|done..]. }
  rewrite <-app_assoc in Hfo. pose proof (step_on _ _ _ _ _ _ _ _ Hs Hfo) as Hw. unfold went_on in Hw.
  destruct (rs_closing (l_stream l1)) eqn:Hcl.
  - destruct Hw as (got & Hg). pose proof (receives_closed _ _ _ _ _ _ Hr Hcl (tk_log _ _ _ _ _ _ _ Hg)) as Hi.
    unfold went_on. rewrite (tk_open _ _ _ _ _ _ _ Hi Hcl). exists got.
    rewrite <-(app_nil_r (concat runs)), <-(app_nil_r got). by eapply took_more.
  - destruct Hw as (r1 & r2 & -> & Hg & Hfo1). specialize (IH _ _ _ Hfo1). unfold went_on in *.
    destruct (rs_closing (l_stream l')).
    + destruct IH as (got & Hg2). exists (concat r1 ++ got). rewrite concat_app. by eapply took_more.
    + destruct IH as (r3 & r4 & -> & Hg2 & Hfo2). exists (r1 ++ r3), r4. rewrite concat_app.
      split_and!; [by rewrite <-app_assoc|by eapply took_more|by rewrite app_assoc].
Qed.
End follow.

(** *** A stream that was just accepted *)

Lemma fresh_stream buf : zlen buf = LOOP_REPL_CAP → stream_conn (conn_init buf LOOP_REPL_CAP CONN_MODE_INTERNAL).
Proof. intros Hb. split; [|done]. unfold conn_wf. cbn. rewrite Hb. by split_and!. Qed.

Lemma fresh_short base buf runs :
  framed base runs → short_of base runs (pending (conn_init buf LOOP_REPL_CAP CONN_MODE_INTERNAL)).
Proof.
  assert (pending (conn_init buf LOOP_REPL_CAP CONN_MODE_INTERNAL) = []) as -> by done.
  intros [Hs _ _ _]. destruct runs as [|run runs]; [done|]. apply Forall_cons in Hs as [Hs _].
  unfold short_of. rewrite length_data_frame by done. unfold run_bytes. cbn. lia.
Qed.

(** ** Properties *)

Module FollowProps.
Import Os.Sim.

(** An empty log and a stream that was just accepted; the leader sends two
    frames of a record each, in two pieces cut inside the second frame. *)
Definition demo_runs : list (list entry) := [[CursorProps.demo_a]; [CursorProps.demo_b]].
Definition demo_bytes : list byte := frames 1 demo_runs.
Definition demo_start : sim :=
  (boot []) <| s_net := Net [] [(9, take 100 demo_bytes); (9, drop 100 demo_bytes)] |>.
Definition demo_open : option (result_t * wal_t * wal_open_t * unit) * sim :=
  wal_open (λ u _, u) 9 CursorProps.demo_wal [Byte.x2e; Byte.x00] 512 (zeros 256) tt demo_start.
Definition demo_wal : wal_t := from_option (λ y, y.1.1.2) CursorProps.demo_wal demo_open.1.
Definition demo_link : loop_t := (loop_zero demo_wal session_table_init)
  <| l_stream ::= λ s, s <| rs_fd := 9 |>
       <| rs_conn := conn_init (zeros LOOP_REPL_CAP) LOOP_REPL_CAP CONN_MODE_INTERNAL |> |>.
Definition demo_recv (x : loop_t * sim) : loop_t * sim := do_repl_recv x.1 (zeros 256) x.2.
Definition demo_arm (x : loop_t * sim) : loop_t * sim := arm_stream x.1 x.2.
Definition demo_end : loop_t * sim := demo_recv (demo_arm (demo_recv (demo_link, demo_open.2))).

Lemma demo_in_use : in_use 512 false (view demo_open.2) demo_wal [] ∧ wal_next_seq demo_wal = 1.
Proof.
  assert (directory true (view demo_start) 512 (zlen (zeros 256)) [] 1) as Hdir.
  { apply dir_new; [|by vm_compute..]. intros n b [ino Hn]. by vm_compute in Hn. }
  pose proof (wp_open_in_use (λ u _, u) true 9 CursorProps.demo_wal [Byte.x2e; Byte.x00] 512 (zeros 256) tt [] 1
    demo_start Hdir ltac:(apply Nat.ltb_lt; by vm_compute)) as Hw.
  apply (wp_result _ _ _ demo_open.1 demo_open.2) in Hw as (y & Ey & Hy); [|apply surjective_pairing].
  unfold demo_wal. rewrite Ey. cbn [from_option].
  destruct Hy as [Hu _ Hn _ _ _ _]; [|split; [by eapply untidy|done]].
  assert (option_map (λ x, result_ok x.1.1.1) demo_open.1 = Some true) as Hok by (vm_compute; reflexivity).
  rewrite Ey in Hok. by injection Hok.
Qed.

Lemma demo_b_stored : stored CursorProps.demo_b.1 CursorProps.demo_b.2.
Proof. apply sealed_stored; [unfold rec_ok; cbn; lia|done|by vm_compute]. Qed.

Lemma demo_framed : framed 1 demo_runs.
Proof.
  constructor; [| | |split; by vm_compute].
  - repeat constructor; try done; by vm_compute.
  - intros e He. repeat (apply elem_of_cons in He as [->|He]; [reflexivity|]). by apply elem_of_nil in He.
  - cbn. split_and!; [done|apply LogProps.demo_a_stored|done|apply demo_b_stored|done].
Qed.

(** A read that delivers [bs]. *)
Definition demo_delivers (x : loop_t * sim) (bs : list byte) : bool :=
  let s := l_stream x.1 in let r := (os_recv (rs_fd s) (conn_recv_space (rs_conn s)) MSG_DONTWAIT x.2).1 in
  negb (rs_closing s) && (0 <=? rs_fd s) && (0 <? conn_recv_space (rs_conn s)) && (0 <? r.1) && bool_decide (r.2 = bs).

Lemma demo_read x bs :
  demo_delivers x bs = true → recv_step (zeros 256) x.1 x.2 bs (demo_recv x).1 (demo_recv x).2.
Proof.
  unfold demo_delivers. cbv zeta. intros Hd. zb. destruct (os_recv _ _ _ _) as [[res got] k0] eqn:E. cbn [fst snd] in *.
  assert (bs = if 0 <? res then got else []) as ->.
  { rewrite (proj2 (Z.ltb_lt _ _)) by done. symmetry. by eapply bool_decide_eq_true_1. }
  eapply rcv_read; try done. apply surjective_pairing.
Qed.

Lemma demo_arm_step x :
  rs_closing (l_stream x.1) = false → recv_step (zeros 256) x.1 x.2 [] (demo_arm x).1 (demo_arm x).2.
Proof. intros Hop. apply rcv_arm; [done|apply surjective_pairing]. Qed.

(** A piece, the buffer made ready again, and another piece. *)
Lemma demo_two_reads l s a b :
  let x := (l, s) in let x1 := demo_recv x in let x2 := demo_arm x1 in
  demo_delivers x a = true → rs_closing (l_stream x1.1) = false → demo_delivers x2 b = true →
  receives (zeros 256) (a ++ [] ++ b ++ []) l s (demo_recv x2).1 (demo_recv x2).2.
Proof.
  cbv zeta. intros Ha Hop Hb. eapply rcv_more; [exact (demo_read (l, s) a Ha)|]. eapply rcv_more; [by apply demo_arm_step|].
  eapply rcv_more; [by apply demo_read|apply rcv_done].
Qed.

Lemma demo_receives : receives (zeros 256) demo_bytes demo_link demo_open.2 demo_end.1 demo_end.2.
Proof.
  assert (demo_bytes = take 100 demo_bytes ++ [] ++ drop 100 demo_bytes ++ []) as Eb by (vm_compute; reflexivity).
  pose proof (demo_two_reads demo_link demo_open.2 (take 100 demo_bytes) (drop 100 demo_bytes)) as Hr.
  cbv zeta in Hr. rewrite <-Eb in Hr. unfold demo_end.
  exact (Hr ltac:(vm_compute; reflexivity) ltac:(vm_compute; reflexivity) ltac:(vm_compute; reflexivity)).
Qed.

(** C11. However the leader's bytes are cut, a replica's log is the leader's:
    give the replica's stream any first part [bs] of the bytes of frames that
    carry runs of the leader's records, in reads of any sizes with flushes,
    reports and buffer compactions between them, each of the calls failing as
    it may.  Its log has then grown by a first part of these very records, in
    order, and its sessions' marks by the same; and unless the stream was
    given up, by all the records of every frame that has arrived whole, what
    is left being short of the next one. *)
Theorem replica_follows_any_cut {K : Type} `{SysLaws K} (scr buf bs q : list byte) (cap : Z)
    (hist : list entry) (runs : list (list entry)) (l l' : loop_t) (k k' : K)
    (Hlog : in_use cap false (view k) (l_wal l) hist)
    (Hconn : rs_conn (l_stream l) = conn_init buf LOOP_REPL_CAP CONN_MODE_INTERNAL)
    (Hbuf : zlen buf = LOOP_REPL_CAP)
    (Hruns : framed (wal_next_seq (l_wal l)) runs)
    (Hbytes : frames (wal_next_seq (l_wal l)) runs = bs ++ q)
    (Hrecv : receives scr bs l k l' k') :
  ∃ got, in_use cap false (view k') (l_wal l') (hist ++ got) ∧
    wal_next_seq (l_wal l') = wal_next_seq (l_wal l) + zlen got ∧
    l_sessions l' = foldl session_from_record (l_sessions l) got.*1 ∧
    got `prefix_of` concat runs ∧
    (rs_closing (l_stream l') = false → ∃ r1 r2 rest, runs = r1 ++ r2 ∧ got = concat r1 ∧
      bs = frames (wal_next_seq (l_wal l)) r1 ++ rest ∧ short_of (wal_next_seq (l_wal l')) r2 rest).
Proof.
  assert (following (cap := cap) hist runs (bs ++ q) l (view k)) as Hfo.
  { constructor; rewrite ?Hconn; first [done|by apply fresh_stream|by apply fresh_short]. }
  pose proof (receives_on scr _ _ _ _ _ _ _ _ Hrecv Hfo) as Hw. unfold went_on in Hw.
  destruct (rs_closing (l_stream l')).
  - destruct Hw as (got & [L N S _ P _ _]). exists got. by split_and!.
  - destruct Hw as (r1 & r2 & -> & [L N S _ P _ _] & [_ _ _ _ _ Hb Hs]). exists (concat r1).
    rewrite concat_app. split_and!; [done..|by apply prefix_app_r|]. intros _.
    exists r1, r2, (pending (rs_conn (l_stream l'))). split_and!; [done..| |done].
    rewrite frames_app, <-N, <-Hb, app_assoc in Hbytes. by apply app_inv_tail in Hbytes.
Qed.

Lemma replica_follows_any_cut_witness :
  (∃ got, in_use 512 false (view demo_end.2) (l_wal demo_end.1) ([] ++ got) ∧
    wal_next_seq (l_wal demo_end.1) = wal_next_seq (l_wal demo_link) + zlen got ∧
    l_sessions demo_end.1 = foldl session_from_record (l_sessions demo_link) got.*1 ∧
    got `prefix_of` concat demo_runs ∧
    (rs_closing (l_stream demo_end.1) = false → ∃ r1 r2 rest, demo_runs = r1 ++ r2 ∧ got = concat r1 ∧
      demo_bytes = frames (wal_next_seq (l_wal demo_link)) r1 ++ rest ∧
      short_of (wal_next_seq (l_wal demo_end.1)) r2 rest)) ∧
  (wal_next_seq (l_wal demo_end.1), rs_closing (l_stream demo_end.1)) = (3, false).
Proof.
  split; [|vm_compute; reflexivity]. pose proof (proj2 demo_in_use) as En.
  refine (replica_follows_any_cut (zeros 256) (zeros LOOP_REPL_CAP) demo_bytes [] 512 [] demo_runs demo_link
    demo_end.1 demo_open.2 demo_end.2 (proj1 demo_in_use) eq_refl eq_refl _ _ demo_receives).
  - change (l_wal demo_link) with demo_wal. rewrite En. exact demo_framed.
  - change (l_wal demo_link) with demo_wal. rewrite En, app_nil_r. reflexivity.
Defined.

(** The same link when both frames have been received and not yet parsed. *)
Definition demo_unread : loop_t := demo_link <| l_stream ::= λ s, s <| rs_conn ::= λ c,
  (conn_recv_commit (conn_receive (zlen demo_bytes) demo_bytes c) (zlen demo_bytes)).2 |> |>.

Lemma demo_unread_wf : conn_wf (rs_conn (l_stream demo_unread)).
Proof.
  apply commit_received; [by apply fresh_stream|vm_compute; split; [done|discriminate]|done].
Qed.

(** A receive on the replica's stream ends by itself: the loop in
    [on_repl_recv] delivers at least one event in each round that does not
    end it, whatever the records in the frames and whether they can be
    stored, so one round more than events to come is as good as any number,
    and the two more than the buffer has bytes that are given are enough. *)
Theorem stream_loop_ends {K : Type} `{Sys K} (fuel : nat) (l : loop_t) (scr : list byte) (k : K)
    (Hwf : conn_wf (rs_conn (l_stream l))) (Hcap : c_buf_cap (rs_conn (l_stream l)) <= LOOP_REPL_CAP)
    (Hfuel : (length (upcoming (rs_conn (l_stream l))).1 < fuel)%nat) :
  stream_recv_loop fuel l scr k = stream_recv_loop (2 + Z.to_nat LOOP_REPL_CAP) l scr k.
Proof. pose proof (upcoming_few _ Hwf) as Hf. apply stream_loop_fuel; (done || lia). Qed.

Lemma stream_loop_ends_witness :
  length (upcoming (rs_conn (l_stream demo_unread))).1 = 2%nat ∧
  stream_recv_loop 3 demo_unread (zeros 256) demo_open.2
    = stream_recv_loop (2 + Z.to_nat LOOP_REPL_CAP) demo_unread (zeros 256) demo_open.2.
Proof.
  split; [vm_compute; reflexivity|].
  refine (stream_loop_ends 3 demo_unread (zeros 256) demo_open.2 demo_unread_wf _ _).
  - vm_compute. discriminate.
  - apply Nat.ltb_lt. vm_compute. reflexivity.
Defined.

End FollowProps.
