(* ===== verification/LoopPass.v ===== *)
(** * A pass keeps what the loop holds

    Every step of a pass of the event loop, a leader's or a replica's, each handler, release
    and reply with all its failures, preserves [held] of [LoopOwn]: the
    descriptors stay the holders' own, and the log stays in use with a history
    that backs what is owed to the clients. *)

From S2P Require Import Prelude Core Crc32c Fmt Msg Conn Record Index Os Session Segment Wal Cursor Reopen Crash Durable.
From S2P Require Import LoopState LoopFrames LoopServe Metrics LoopTick LoopSpec LoopFacts LoopRecv LoopOwn LoopStream.

#[local] Arguments wal_next_seq : simpl never.
#[local] Arguments wal_durable_seq : simpl never.
#[local] Arguments ack_stage : simpl never.

Section pass.
Context {cap : Z} {before : list entry} {low : Z}.
#[local] Abbreviation held := (@LoopOwn.held cap before low).
Context {K : Type} `{SysLaws K}.

#[local] Abbreviation keeping room m := (λ k, wp m (λ l' k', held room (view k') l') k).

(** *** The timer *)

Lemma own_arm_timer room l k : held room (view k) l → keeping room (arm_timer_now l) k.
Proof.
  intros Hl. unfold arm_timer_now. destruct (Z.leb_spec 0 (l_timer_fd l)); [by apply wp_ret|].
  assert (∀ v, held room v l → held room v (l <| l_timer_fd := -1 |>)) as Hoff.
  { intros v. apply held_calm. split; [by apply still_same|]. intros []; try by left. by right. }
  call wp_timerfd as [r fd] k1 Ho. unfold opened_fd in Ho. cbn [fst snd] in Ho.
  destruct (result_ok r); cbn [negb]; [|apply wp_ret; rewrite Ho; by apply Hoff].
  destruct Ho as [[Hge Hfr] Hv]. cbv zeta.
  assert (∀ k', view k' = view k1 →
    keeping room (_ ← os_close fd; mret (l <| l_timer_fd := -1 |>)) k') as Hfails.
  { intros k' E. call wp_os_close as rc k2 Hc. apply wp_ret. apply Hoff.
    by rewrite Hc, E, Hv, del_set_fd. }
  call quiet_timer as r2 k2 Hv2. destruct (negb (result_ok r2)); [by apply Hfails|].
  call quiet_epoll_ctl as r3 k3 Hv3. destruct (negb (result_ok r3)); [apply Hfails; congruence|].
  apply wp_ret. rewrite Hv3, Hv2, Hv.
  apply (held_opened HTimer room _ l); [exact Hl|by apply still_same|by split| |done..].
  by intros []; try by left.
Qed.
Hint Resolve own_arm_timer : own.

(** *** Frames *)

Lemma own_subscribe room l i h p n s k : held room (view k) l → keeping room (handle_subscribe l i h p n s) k.
Proof.
  intros Hl. unfold handle_subscribe. destruct (msg_decode_subscribe _ _) as [req|]; [|own_all]. cbv zeta.
  destruct (_ || _); [own_all|].
  call moves_seek as [r cur] k1 Hm. cbn [snd] in Hm. eapply (held_sub _ _ _ _ i) in Hm; [|exact Hl|by right].
  own_all.
Qed.

Lemma own_read room l i h p n s k : held room (view k) l → keeping room (handle_read l i h p n s) k.
Proof.
  intros Hl. unfold handle_read. destruct (msg_decode_read _ _) as [req|]; [|own_all]. cbv zeta.
  destruct (_ || _); [own_all|]. destruct (_ && _ && _); [own_all|].
  match goal with |- context [let '(_, _) := ?x in _] => destruct x as [from until] end.
  call moves_seek as [r cur] k1 Hm. cbn [snd] in Hm.
  match goal with |- context [on_sub i (λ s, s <| su_cursor := cur |>) ?l1] =>
    assert (held room (view k) l1) as Hl1 by own_all end.
  eapply (held_sub _ _ _ _ i) in Hm; [|exact Hl1|by right]. own_all.
Qed.

Lemma own_repl_start room l i h s k : held room (view k) l → keeping room (handle_repl_start l i h s) k.
Proof.
  intros Hl. unfold handle_repl_start. destruct (l_is_follower l); [own_all|].
  destruct (list_find _ _) as [[idx p]|]; [|own_all].
  call moves_seek as [r cur] k1 Hm. cbn [snd] in Hm.
  assert (held room (view k1) (on_peer idx (λ p, p <| pe_cursor := cur |>) l)).
  { eapply held_peer; [exact Hl|exact Hm|by right]. }
  own_all.
Qed.
Hint Resolve own_subscribe own_read own_repl_start : own.

Lemma own_create t k :
  wp (session_create t) (λ x k', view k' = view k ∧ ∀ hist, table_ok hist t → table_ok hist x.2) k.
Proof.
  unfold session_create. call wp_draw_id as id k1 (Hv & Hid & _). destruct (id =? 0); [by apply wp_ret|].
  pose proof (λ hist Ht, table_new hist t id Ht Hid) as Hnew. destruct (slot_for_new t) as [s t'].
  by apply wp_ret.
Qed.

Lemma own_hello room l i h p n k :
  held room (view k) l → (∀ c, l_conns l !! i = Some c → blank c) → keeping room (handle_hello l i h p n) k.
Proof.
  intros Hl Hb. unfold handle_hello. destruct (msg_decode_hello p n) as [hello|]; [|own_all]. cbv zeta.
  destruct (negb _); [own_all|].
  assert (∀ v l1 s, l_conns l1 = l_conns l → held room v l1 → held room v
    (match st_entries (l_sessions l1) !! s with
     | Some s => reply_ack i MSG_FLAG_ACK_REQ (ss_id s) (ss_last s)
                   (on_slot i (λ c, c <| cn_session := ss_id s |>) l1)
     | None => l1
     end)) as Hwel.
  { intros v l1 s Ec Ht. destruct (st_entries _ !! s) as [e|]; [|done].
    assert (held room v (on_slot i (λ c, c <| cn_session := ss_id e |>) l1));
      [|eapply held_calm; [|eassumption]; eauto with calm].
    destruct Ht as (hist & Ht & Hr). exists hist. split; [|exact Hr]. apply tied_slot; [done..|].
    intros c Hc [? ? ? _ _]. rewrite Ec in Hc. destruct (Hb c Hc) as [El Er].
    constructor; cbn; try done; rewrite ?El, ?Er; by left. }
  destruct (_ =? 0).
  - call own_create as [s t] k1 [Hv Ht]. cbn [snd] in Ht. own_view.
    assert (held room (view k1) (l <| l_sessions := t |>)) as Hl1.
    { destruct Hl as (hist & Hl & Hr). exists hist. split; [|exact Hr]. apply tied_table; [done|apply Ht, Hl]. }
    destruct s as [s|]; [|own_all]. apply wp_ret. by apply (Hwel _ (l <| l_sessions := t |>)).
  - destruct (session_lookup _ _) as [s|]; [|own_all]. apply wp_ret. by apply (Hwel _ l).
Qed.

(** Storing a client's record: the history grows by it, and its session's
    mark is its client sequence. *)
Lemma tied_stored v l hist w r p s e seq :
  0 <= seq < 2 ^ 64 → tied cap v (hist ++ [(r, p)]) (l <| l_wal := w |>) →
  st_entries (l_sessions l) !! s = Some e → w_session r = ss_id e → w_client_seq r = seq →
  tied cap v (hist ++ [(r, p)]) ((l <| l_wal := w |>) <| l_sessions ::= λ t, session_touch
     (t <| st_entries ::= alter (λ s, s <| ss_last := seq |>) s |>) s |>) ∧
  backed (hist ++ [(r, p)]) (ss_id e) seq.
Proof.
  intros Hseq Ht He Es Ec.
  assert (backed (hist ++ [(r, p)]) (ss_id e) seq) as Hbk.
  { right. exists (r, p). split; [|done]. apply elem_of_app. right. by left. }
  split; [|done]. apply tied_table; [done|]. apply table_touch. pose proof (td_table _ _ _ _ Ht) as Htab.
  apply table_alter; [exact Htab|]. intros s0 Hs0. cbn in Hs0. rewrite He in Hs0. injection Hs0 as <-.
  destruct (Forall_lookup_1 _ _ _ _ Htab He) as (Hid & _ & _). by do 2 (split; [done|]).
Qed.

Lemma own_write room l i h p scr k :
  held (room + 1) (view k) l → 0 <= room → header_ok h → zlen (default [] p) < 2 ^ 32 →
  (∀ c, l_conns l !! i = Some c → c_opened (cn_conn c) = true) →
  keeping room (handle_write l i h p (zlen (default [] p)) scr) k.
Proof.
  intros Hl1 Hroom Hh Hp Hop. assert (held room (view k) l) as Hl by (eapply held_weak; [|exact Hl1]; lia).
  unfold handle_write. destruct (session_lookup _ _) as [s|] eqn:Hs; [|own_all].
  apply lookup_Some in Hs as (e & He & Eid & _). destruct (l_is_follower l); [own_all|]. cbv zeta.
  destruct (_ && _ && _); [own_all|]. rewrite He. cbn [from_option].
  destruct Hl1 as (hist & Ht & Hpre & Hlow & Hnx).
  destruct (Forall_lookup_1 _ _ _ _ (td_table _ _ _ _ Ht) He) as (Hid & Hlast & Hbk).
  destruct (_ <=? _).
  { apply wp_ret. destruct (has_flag _ MSG_FLAG_ACK_REQ); [|own_all].
    exists hist. rewrite acked_wal. split_and!; try done; [|cbn; lia].
    apply tied_ack; [|done|by rewrite Eid in Hbk]. eapply tied_calm; [|exact Ht]. eauto with calm. }
  eapply wp_call.
  { apply (state_wal_append (cap := cap) (t := false) (l_wal l) hist _ p); [apply Ht| | |lia].
    - unfold header_ok in Hh. unfold rec_ok, rec_of_write. cbn. rewrite <-Eid, u32_id by lia. lia.
    - cbn. by rewrite u32_id by lia. }
  cbv beta. intros [[[r w] rec] scr'] k1 [Hmv Hx]. pose proof (lm_durable _ _ _ _ Hmv) as Hd.
  destruct (result_ok r); cbn [negb]; apply wp_ret.
  - destruct Hx as (Hin & Hrec & Hnx'). set (q := default [] p) in *.
    pose proof (tied_log _ _ _ _ [(rec, q)] _ _ Ht Hin Hmv) as Ht1.
    destruct (tied_stored (view k1) l hist w rec q s e (h_sequence h)) as [Ht2 Hbk2]; try done.
    { apply Hh. } { rewrite Hrec. cbn. done. } { by rewrite Hrec. }
    match goal with |- context [if has_flag _ _ then ack_write _ _ _ _ _ _ ?l1 else _] =>
      assert (tied cap (view k1) (hist ++ [(rec, q)]) l1) as Ht3 end.
    { eapply tied_calm; [|exact Ht2]. split; [by apply still_same|]. intros []; by left. }
    exists (hist ++ [(rec, q)]). split_and!.
    + destruct (has_flag _ _); [|done]. apply tied_ack; [done..|]. by rewrite Eid in Hbk2.
    + by apply prefix_app_r.
    + destruct (has_flag _ _); [rewrite acked_wal|]; cbn; lia.
    + destruct (has_flag _ _); [rewrite acked_wal|]; cbn; lia.
  - destruct Hx as [Hin Hnx']. apply (held_calm room (view k1) (l <| l_wal := w |>)); [eauto with calm|].
    exists hist. rewrite <-(app_nil_r hist) in Hin |- *. split_and!; [|by rewrite app_nil_r|cbn; lia..].
    by apply (tied_log _ (view k) _ hist []).
Qed.
Hint Resolve own_hello : own.

Lemma own_frame room l i h p scr k :
  held (room + 1) (view k) l → 0 <= room → header_ok h → zlen (default [] p) < 2 ^ 32 →
  (∀ c, l_conns l !! i = Some c → c_opened (cn_conn c) = true) →
  (Conn.opens h = true → ∀ c, l_conns l !! i = Some c → blank c) →
  keeping room (handle_frame l i h p (zlen (default [] p)) scr) k.
Proof.
  intros Hl1 Hroom Hh Hp Hop Hfirst. assert (held room (view k) l) as Hl by (eapply held_weak; [|exact Hl1]; lia).
  unfold handle_frame. cbv zeta.
  destruct (_ =? MSG_OP_HELLO) eqn:E; [apply own_hello; [done|]; apply Hfirst; unfold Conn.opens; by rewrite E|].
  destruct (_ =? MSG_OP_WRITE); [by apply own_write|]. clear Hl1. own_all.
Qed.

Lemma own_action room l i scr a c k :
  held (room + 1) (view k) l → 0 <= room → action_ok a → l_conns l !! i = Some c →
  (is_frame a = true → c_opened (cn_conn c) = true) → (greeting a = true → blank c) →
  keeping room (do_action l i scr a) k.
Proof.
  intros Hl1 Hroom Ha Hc Hop Hfirst.
  assert (held room (view k) l) as Hl by (eapply held_weak; [|exact Hl1]; lia).
  destruct a as [h p n| |]; cbn [do_action]; [|own_all..].
  destruct Ha as (Hh & Hn & Hp). assert (slot l i = c) as -> by (unfold slot; by rewrite Hc).
  assert (zlen (default [] (payload_at (c_buf (cn_conn c)) p n)) = n) as E.
  { destruct Hl1 as (hist & Ht & _). pose proof (so_buf _ _ (td_slots _ _ _ _ Ht _ _ Hc)) as Hb.
    destruct p as [off|]; cbn; [rewrite length_sub; lia|done]. }
  rewrite <-E at 2. apply own_frame; try done; [lia|..].
  - intros c' Hc'. rewrite Hc in Hc'. injection Hc' as <-. by apply Hop.
  - intros Hg c' Hc'. rewrite Hc in Hc'. injection Hc' as <-. by apply Hfirst.
Qed.

Lemma own_actions acts room l i scr c k :
  held (room + zlen acts) (view k) l → 0 <= room → Forall action_ok acts → l_conns l !! i = Some c →
  (existsb is_frame acts = true → c_opened (cn_conn c) = true) →
  (∀ a, head acts = Some a → greeting a = true → blank c) → Forall (λ a, greeting a = false) (tail acts) →
  wp (do_actions l i scr acts) (λ l' k', held room (view k') l' ∧
    ∃ c', l_conns l' !! i = Some c' ∧ cn_conn c' = cn_conn c) k.
Proof.
  revert l c k. induction acts as [|a acts IH]; intros l c k Hl Hroom Hok Hc Hop Hfirst Hrest; cbn [do_actions].
  { apply wp_ret. split; [by rewrite Z.add_0_r in Hl|by exists c]. }
  apply Forall_cons in Hok as [Ha Hok]. cbn [tail] in Hrest.
  eapply wp_call.
  { apply wp_both; [apply (own_action (room + zlen acts) _ _ _ _ c); try done|apply (fed_action i l l scr a); reflexivity].
    - cbn [length] in Hl. by replace (room + zlen acts + 1) with (room + Z.of_nat (S (length acts))) by lia.
    - lia.
    - intros Hf. apply Hop. cbn. by rewrite Hf.
    - by apply Hfirst. }
  cbv beta. intros l1 k1 [Hl1 Hfed]. pose proof (fd_conn _ _ _ Hfed) as E. rewrite Hc in E. cbn in E.
  destruct (l_conns l1 !! i) as [c1|] eqn:Hc1; [|done]. cbn in E. injection E as E. rewrite <-E.
  apply (IH _ c1); try done.
  - intros Hf. rewrite E. apply Hop. cbn. rewrite Hf. by rewrite orb_true_r.
  - destruct acts as [|b acts]; [done|]. intros x [= <-] Hg. apply Forall_cons in Hrest as [Hg' _]. congruence.
  - destruct acts; [done|]. by apply Forall_cons in Hrest as [_ ?].
Qed.

(** *** Receiving *)

Lemma held_conn room v l i f :
  held room v l → (∀ c, l_conns l !! i = Some c → conn_ok (f (cn_conn c)) ∧
    (c_opened (f (cn_conn c)) = false → c_opened (cn_conn c) = false)) →
  held room v (on_slot i (λ c, c <| cn_conn ::= f |>) l).
Proof. intros (hist & Ht & Hr) Hf. exists hist. split; [by apply tied_conn|done]. Qed.

Lemma held_slot room v l i c :
  held room v l → l_conns l !! i = Some c →
  zlen (c_buf (cn_conn c)) = LOOP_RECV_CAP ∧ (cn_in_use c = true → conn_ok (cn_conn c)) ∧
  (c_opened (cn_conn c) = false → blank c).
Proof. intros (hist & Ht & _) Hc. by destruct (td_slots _ _ _ _ Ht _ _ Hc). Qed.

Lemma own_recv_loop fuel room l i scr c k :
  held (room + 8 * Z.of_nat fuel) (view k) l → 0 <= room → l_conns l !! i = Some c → conn_ok (cn_conn c) →
  keeping room (recv_loop fuel l i scr) k.
Proof.
  revert l c k. induction fuel as [|fuel IH]; intros l c k Hl Hroom Hc Hok; cbn [recv_loop].
  { apply wp_ret. eapply held_weak; [|exact Hl]. lia. }
  assert (slot l i = c) as -> by (unfold slot; by rewrite Hc).
  pose proof (feed_length (cn_conn c) 8 ltac:(lia)) as Hlen.
  destruct (conn_feed (cn_conn c) 8) as [acts c1] eqn:Hfeed. cbn [fst] in Hlen.
  destruct (feed_ok _ _ _ Hok Hfeed) as (Hok1 & Ebuf & Hacts & [_ Gop Gf Gr Gfr]).
  destruct (held_slot _ _ _ _ _ Hl Hc) as (_ & _ & Hfr).
  set (l1 := on_slot i (λ c, c <| cn_conn := c1 |>) l).
  assert (held (room + 8 * Z.of_nat (S fuel)) (view k) l1) as Hl1.
  { apply (held_conn _ _ l i (λ _, c1)); [done|]. intros c0 Hc0. rewrite Hc in Hc0. injection Hc0 as <-.
    split; [done|]. destruct (c_opened (cn_conn c)); [|done]. by rewrite Gop. }
  assert (l_conns l1 !! i = Some (c <| cn_conn := c1 |>)) as Hc1.
  { unfold l1, on_slot. cbn. by rewrite list_lookup_alter, decide_True, Hc. }
  destruct acts as [|a acts]; [apply wp_ret; eapply held_weak; [|exact Hl1]; lia|].
  set (as_ := a :: acts) in *.
  eapply wp_call.
  { apply (own_actions as_ (room + 8 * Z.of_nat fuel) l1 i scr _ k) with (4 := Hc1); [|lia|done|cbn; by auto|..].
    - eapply held_weak; [|exact Hl1]. lia.
    - intros b Hb Hg. change (blank c). apply Hfr. destruct (c_opened (cn_conn c)); [|done].
      destruct as_ as [|b0 ?]; [done|]. injection Hb as ->. apply Forall_cons in Gf as [? _]; [congruence|done].
    - done. }
  cbv beta. intros l2 k2 [Hl2 (c2 & Hc2 & E2)].
  destruct (cn_closing _); [apply wp_ret; eapply held_weak; [|exact Hl2]; lia|].
  apply (IH _ c2); try done. by rewrite E2.
Qed.

Lemma own_on_recv room l i res scr k :
  held (room + EVENT_RECORDS) (view k) l → 0 <= room → keeping room (on_recv l i res scr) k.
Proof.
  intros Hl Hroom. assert (held room (view k) l) as Hw.
  { eapply held_weak; [|exact Hl]. unfold EVENT_RECORDS, LOOP_RECV_CAP. lia. }
  unfold on_recv. destruct (cn_in_use (slot l i)) eqn:Hu; cbn [negb]; [|own_all].
  destruct (_ <=? _); [own_all|]. cbv zeta.
  destruct (l_conns l !! i) as [c|] eqn:Hc; [|unfold slot in Hu; by rewrite Hc in Hu].
  unfold slot in Hu. rewrite Hc in Hu. cbn in Hu.
  destruct (held_slot _ _ _ _ _ Hl Hc) as (_ & Hok & _). specialize (Hok Hu).
  destruct (commit_ok _ res Hok) as (Hok1 & Hop & _).
  eapply (own_recv_loop _ _ _ _ _ (c <| cn_conn := (conn_recv_commit (cn_conn c) res).2 |>)).
  - apply (held_conn _ _ l i (λ k, (conn_recv_commit k res).2)).
    + eapply held_weak; [|exact Hl]. unfold EVENT_RECORDS, LOOP_RECV_CAP. lia.
    + intros c0 Hc0. rewrite Hc in Hc0. injection Hc0 as <-. split; [done|]. by rewrite Hop.
  - done.
  - unfold on_slot. cbn. by rewrite list_lookup_alter, decide_True, Hc.
  - done.
Qed.

Lemma own_do_recv room l i scr k :
  held (room + EVENT_RECORDS) (view k) l → 0 <= room → keeping room (do_recv l i scr) k.
Proof.
  intros Hl Hroom. assert (held room (view k) l) as Hw.
  { eapply held_weak; [|exact Hl]. unfold EVENT_RECORDS, LOOP_RECV_CAP. lia. }
  unfold do_recv. cbv zeta. destruct (_ || _) eqn:Hu; [own_all|]. zb.
  destruct (Z.leb_spec (conn_recv_space (cn_conn (slot l i))) 0); [own_all|].
  destruct (l_conns l !! i) as [c|] eqn:Hc; [|unfold slot in *; rewrite Hc in *; done].
  assert (slot l i = c) as Es by (unfold slot; by rewrite Hc). rewrite Es in *.
  destruct (held_slot _ _ _ _ _ Hl Hc) as (_ & Hok & _).
  assert (conn_ok (cn_conn c)) as Hok1 by auto.
  assert (conn_recv_space (cn_conn c) < 2 ^ 31) as Hsp.
  { destruct Hok1 as (? & Ecap & _). apply space_small; [done|]. by rewrite Ecap. }
  call wp_recv_few as [res bs] k1 [Hv Hres]; [lia|]. cbn [fst] in Hres.
  rewrite <-Hv in *. destruct (res =? _); [own_all|].
  apply own_on_recv; [|done].
  apply (held_conn _ _ l i (conn_receive res bs)); [done|].
  intros c0 Hc0. rewrite Hc in Hc0. injection Hc0 as <-. destruct (receive_ok (cn_conn c) res bs) as [Ho Hop]; [done..|].
  split; [done|]. by rewrite Hop.
Qed.

(** *** Giving up slots *)

Lemma own_replica_release room l i k :
  held room (view k) l →
  wp (replica_release l i) (λ l' k', held room (view k') l' ∧ l_conns l' = l_conns l ∧
    l_epoll_fd l' = l_epoll_fd l) k.
Proof.
  intros Hl. unfold replica_release. destruct (_ || _); [by apply wp_ret|]. cbv zeta.
  call wp_cursor_close as [r cur] k1 [Hc Hv]. cbn [snd] in Hc. subst cur. apply wp_ret.
  split; [|done]. eapply held_peer; [exact Hl|by apply cursor_closed|by left].
Qed.

Lemma slot_reset_on i f l :
  (∀ c, c_buf (cn_conn (f c)) = c_buf (cn_conn c)) → slot_reset (on_slot i f l) i = slot_reset l i.
Proof.
  intros Hf. unfold slot_reset, on_slot, upd. cbn. f_equal. rewrite list_alter_alter_eq.
  apply list_alter_ext; [|done]. intros c _. cbn. by rewrite Hf.
Qed.

(** A slot's descriptor closed. *)
Lemma held_conn_closed room v l i :
  held room v l → 0 <= cn_fd (slot l i) →
  held room (del_fd (cn_fd (slot l i)) v) (on_slot i (λ c, c <| cn_fd := -1 |>) l).
Proof.
  intros Hl Hp. apply (held_closed (HConn i) room v l); try done.
  - apply still_slot. intros ? ? _. by apply slot_ok_same; auto.
  - intros h Hne. left. destruct h as [| | | | | | | |j|j|j|j| |]; try done; cbn [fd_of];
      destruct (slot_on_cases i (λ c, c <| cn_fd := -1 |>) l j) as [->|(-> & _ & ->)]; done.
  - cbn [fd_of]. unfold slot, on_slot. cbn. rewrite list_lookup_alter, decide_True by done.
    by destruct (l_conns l !! i).
Qed.

Lemma own_slot_release room l i k : held room (view k) l → keeping room (slot_release l i) k.
Proof.
  intros Hl. unfold slot_release. cbv zeta. destruct (negb _); [own_all|]. set (c := slot l i).
  eapply (wp_call _ (λ l1 k1, held room (view k1) l1 ∧ l_conns l1 = l_conns l)).
  { destruct (0 <=? _); [|by apply wp_ret].
    eapply wp_mono; [by apply own_replica_release|]. by intros ? ? (? & ? & _). }
  cbv beta. intros l1 k1 [Hl1 Ec].
  assert (slot l1 i = c) as Es by (unfold slot; by rewrite Ec).
  set (l2 := on_sub i (λ s, s <| su_cursor := wal_cursor_init |>) l1).
  eapply (wp_call _ (λ _ k2, held room (view k2) l2)).
  { assert (∀ v', v' = (if 0 <=? cu_fd (su_cursor (cn_sub c)) then del_fd (cu_fd (su_cursor (cn_sub c))) (view k1) else view k1) →
      held room v' l2) as Hsub.
    { intros v' Hv. eapply held_sub; [exact Hl1|by apply cursor_closed|]. left. by rewrite <-Es. }
    destruct (0 <=? _) eqn:E; [|by apply wp_ret, Hsub].
    apply wp_fmap. eapply wp_mono; [apply wp_cursor_close|]. cbv beta. intros [r cur] k2 [_ Hv].
    apply Hsub. by rewrite Hv, E. }
  cbv beta. intros _ k2 Hl2.
  assert (cn_fd (slot l2 i) = cn_fd c) as Ef.
  { unfold l2, on_sub. destruct (slot_on_cases i (λ x, x <| cn_sub ::= λ s, s <| su_cursor := wal_cursor_init |> |>) l1 i)
      as [->|(_ & _ & ->)]; by rewrite Es. }
  set (l3 := if 0 <=? cn_fd c then on_slot i (λ c, c <| cn_fd := -1 |>) l2 else l2).
  eapply (wp_call _ (λ _ k3, held room (view k3) l3)).
  { unfold l3. destruct (Z.leb_spec 0 (cn_fd c)); [|by apply wp_ret].
    call quiet_epoll_ctl as r k3 Hv. eapply wp_mono; [apply wp_os_close|]. cbv beta. intros _ k4 ->.
    rewrite Hv, <-Ef. apply held_conn_closed; [done|lia]. }
  cbv beta. intros _ k3 Hl3. apply wp_ret.
  assert (slot_reset l1 i = slot_reset l3 i) as ->.
  { unfold l3. destruct (0 <=? cn_fd c); rewrite ?slot_reset_on; unfold l2, on_sub; by rewrite ?slot_reset_on. }
  own_all.
Qed.
Hint Resolve own_slot_release : own.

(** *** Sending and accepting *)

Lemma own_want_out room l i b k : held room (view k) l → keeping room (conn_want_out l i b) k.
Proof. intros Hl. unfold conn_want_out. own_all. Qed.
Hint Resolve own_want_out : own.

Lemma own_conn_send room l i k : held room (view k) l → keeping room (conn_send l i) k.
Proof.
  intros Hl. unfold conn_send. cbv zeta. call quiet_send as res k1 Hv. own_view. destruct (_ =? _); [own_all|].
  assert (held room (view k1) (loop_send_done l i res)); [|own_all].
  unfold loop_send_done. own_all.
Qed.
Hint Resolve own_conn_send : own.

Lemma own_do_send room l i k : held room (view k) l → keeping room (do_send l i) k.
Proof. intros Hl. unfold do_send. own_all. Qed.
Hint Resolve own_do_send : own.

Lemma slot_ok_taken hist c fd :
  slot_ok hist c → slot_ok hist ((slot_free (c_buf (cn_conn c))) <| cn_in_use := true |> <| cn_fd := fd |>
    <| cn_conn := conn_init (c_buf (cn_conn c)) LOOP_RECV_CAP CONN_MODE_CLIENT |>).
Proof.
  intros Hok. pose proof (so_buf _ _ Hok) as Hb.
  by constructor; cbn; try done; left.
Qed.

Lemma held_taken room v l i fd c :
  held room v l → l_conns l !! i = Some c → f_fds v !! fd = None →
  held room (set_fd fd FOther v) (on_slot i (λ c, c <| cn_in_use := true |> <| cn_fd := fd |>
    <| cn_conn := conn_init (c_buf (cn_conn c)) LOOP_RECV_CAP CONN_MODE_CLIENT |>) (slot_reset l i)).
Proof.
  intros Hl Hc Hn. set (f := λ c, _). unfold slot_reset.
  assert (on_slot i f (on_slot i (λ c, slot_free (c_buf (cn_conn c))) l)
    = on_slot i (λ c, f (slot_free (c_buf (cn_conn c)))) l) as ->.
  { unfold on_slot, upd. cbn. f_equal. apply list_alter_alter_eq. }
  apply (held_opened (HConn i) room v l); try done.
  - apply still_slot. intros c0 hist _ Hok. exact (slot_ok_taken hist c0 fd Hok).
  - intros h Hne. destruct h as [| | | | | | | |j|j|j|j| |]; try (by left); cbn [fd_of];
      match goal with |- context [slot (on_slot i ?g l) j] =>
        destruct (slot_on_cases i g l j) as [->|(-> & _ & ->)] end; first [by left|done|by right].
  - cbn [fd_of]. unfold slot, on_slot. cbn. by rewrite list_lookup_alter, decide_True, Hc.
Qed.

Lemma own_do_accept room l k : held room (view k) l → keeping room (do_accept l) k.
Proof.
  intros Hl. unfold do_accept. destruct (l_stop l); [own_all|].
  call wp_accept as [r fd] k1 Ho. unfold opened_fd in Ho. cbn [fst snd] in Ho.
  destruct (result_ok r); cbn [negb]; [|apply wp_ret; by rewrite Ho]. destruct Ho as [[Hge Hfr] Hv].
  assert (held room (view k1) l) as Hl1 by (rewrite Hv; by apply held_pending).
  assert (∀ k', view k' = view k1 → keeping room (_ ← os_close fd; mret l) k') as Hdrop.
  { intros k' E. call wp_os_close as rc k2 Hc. apply wp_ret. by rewrite Hc, E, Hv, del_set_fd. }
  unfold on_accept. destruct (_ <? 0); [own_all|].
  destruct (slot_alloc l) as [i|] eqn:Ha; [|by apply Hdrop].
  call quiet_epoll_ctl as r2 k2 Hv2. destruct (negb _); [by apply Hdrop|]. apply wp_ret.
  unfold slot_alloc in Ha. apply fmap_Some in Ha as ([i0 c] & Hf & ->). apply list_find_Some in Hf as (Hc & _).
  pose proof (held_taken room (view k) l i0 fd c Hl Hc Hfr) as Ht. rewrite <-Hv, <-Hv2 in Ht. cbn [fst].
  eapply held_calm; [|exact Ht]. eauto with calm.
Qed.
Hint Resolve own_do_accept : own.

(** The two descriptors that are read for their own sake. *)
Lemma own_do_signal room l k : held room (view k) l → keeping room (do_signal l) k.
Proof.
  intros Hl. unfold do_signal. destruct (Z.ltb_spec (l_signal_fd l) 0); [own_all|]. unfold os_read_raw.
  call law_read as [n bs] k1 Hv; [|own_view; own_all].
  by destruct (own_open _ _ (held_own _ _ _ Hl) HSignal) as (d & Hd & ->).
Qed.

Lemma own_do_timer room l k : held room (view k) l → keeping room (do_timer l) k.
Proof.
  intros Hl. unfold do_timer. destruct (Z.ltb_spec (l_timer_fd l) 0); [own_all|]. unfold os_read_raw.
  call law_read as [n bs] k1 Hv; [|own_view; own_all].
  by destruct (own_open _ _ (held_own _ _ _ Hl) HTimer) as (d & Hd & ->).
Qed.
Hint Resolve own_do_signal own_do_timer : own.

(** *** The metrics endpoint *)

(** What releasing a scrape's slot comes to. *)
Definition scrape_gone (i : nat) (l : loop_t) : loop_t :=
  if sc_fd (scrape l i) <? 0 then l else on_scrape i (λ _, scrape_free) l.

Lemma wp_scrape_gone l i k :
  wp (scrape_release l i) (λ l' k', l' = scrape_gone i l ∧
    view k' = fd_gone (sc_fd (scrape l i)) (view k)) k.
Proof.
  unfold scrape_release, scrape_gone, fd_gone. cbv zeta. destruct (_ <? 0); [by apply wp_ret|].
  call quiet_epoll_ctl as r k1 Hv. call wp_os_close as r2 k2 Hv2. apply wp_ret. by rewrite Hv2, Hv.
Qed.

Lemma held_scrape_gone room v l i :
  held room v l → held room (fd_gone (sc_fd (scrape l i)) v) (scrape_gone i l).
Proof.
  intros Hl. unfold scrape_gone, fd_gone. destruct (Z.ltb_spec (sc_fd (scrape l i)) 0); [done|].
  apply (held_closed (HScrape i) room v l); try done; [by apply still_same|..].
  - intros h Hne. left. destruct h as [| | | | | | | |j|j|j|j| |]; try done; cbn [fd_of].
    destruct (scrape_on_cases i (λ _, scrape_free) l j) as [->|(-> & ->)]; done.
  - cbn [fd_of]. unfold scrape, on_scrape. cbn. rewrite list_lookup_alter, decide_True by done.
    by destruct (l_scrapes l !! i).
Qed.

Lemma own_scrape_release room l i k : held room (view k) l → keeping room (scrape_release l i) k.
Proof.
  intros Hl. eapply wp_mono; [apply wp_scrape_gone|]. intros l' k' [-> ->]. by apply held_scrape_gone.
Qed.
Hint Resolve own_scrape_release : own.

Lemma own_refuse_scrape room l i k : held room (view k) l → keeping room (refuse_scrape l i) k.
Proof. intros Hl. unfold refuse_scrape. own_all. Qed.
Hint Resolve own_refuse_scrape : own.

Lemma own_scrape_answering room l i k : held room (view k) l → keeping room (scrape_answering l i) k.
Proof. intros Hl. unfold scrape_answering. own_all. Qed.
Hint Resolve own_scrape_answering : own.

Lemma own_scrape_send room l i k : held room (view k) l → keeping room (scrape_send l i) k.
Proof. intros Hl. unfold scrape_send. own_all. Qed.
Hint Resolve own_scrape_send : own.

Lemma quiet_metrics l buf n k : wp (loop_metrics l buf n) (λ _ k', view k' = view k) k.
Proof.
  unfold loop_metrics. call quiet_now as now k1 Hv. destruct (_ <=? 0); [by apply wp_ret|].
  destruct (m_document _ _ _ _). by apply wp_ret.
Qed.
Hint Resolve quiet_metrics : quiet.

Lemma own_scrape_answer room l i out k : held room (view k) l → keeping room (scrape_answer l i out) k.
Proof.
  intros Hl. unfold scrape_answer. cbv zeta. call quiet_metrics as [buf body] k1 Hv. own_view. own_all.
Qed.
Hint Resolve own_scrape_answer : own.

Lemma own_scrape_recv room l i k : held room (view k) l → keeping room (scrape_recv l i) k.
Proof.
  intros Hl. unfold scrape_recv. cbv zeta. destruct (_ <? 0); [own_all|]. destruct (0 <? _); [own_all|].
  destruct (_ <=? _); [own_all|]. call quiet_recv as [res bs] k1 Hv. own_view. own_all.
Qed.
Hint Resolve own_scrape_recv : own.

(** A scrape's slot taken by the descriptor just accepted. *)
Lemma held_scrape_taken room v l i fd now :
  held room v l → f_fds v !! fd = None → 0 <= fd →
  held room (set_fd fd FOther v) (on_scrape i (λ _, scrape_free <| sc_fd := fd |> <| sc_opened_ns := now |>) l).
Proof.
  intros Hl Hn Hge. set (s := scrape_free <| sc_fd := fd |> <| sc_opened_ns := now |>).
  destruct (l_scrapes l !! i) as [s0|] eqn:Hs.
  - apply (held_opened (HScrape i) room v l); try done; [by apply still_same|..].
    + intros h Hne. left. destruct h as [| | | | | | | |j|j|j|j| |]; try done; cbn [fd_of].
      destruct (scrape_on_cases i (λ _, s) l j) as [->|(-> & _)]; [done|by destruct Hne].
    + cbn [fd_of]. unfold scrape, on_scrape. cbn. by rewrite list_lookup_alter, decide_True, Hs.
  - eapply held_calm; [|by apply held_pending].
    assert (on_scrape i (λ _, s) l = l) as ->; [|done].
    unfold on_scrape, upd. destruct l. cbn in *. f_equal.
    list_ext j. rewrite list_lookup_alter. case_decide; [subst; by rewrite Hs|done].
Qed.

Lemma own_scrape_accept room l k : held room (view k) l → keeping room (scrape_accept l) k.
Proof.
  intros Hl. unfold scrape_accept. destruct (_ || _); [own_all|].
  call wp_accept as [r fd] k1 Ho. unfold opened_fd in Ho. cbn [fst snd] in Ho.
  destruct (result_ok r); cbn [negb]; [|apply wp_ret; by rewrite Ho]. destruct Ho as [[Hge Hfr] Hv].
  eapply (wp_call _ (λ x k2, ∃ v, held room v x.2 ∧ f_fds v !! fd = None ∧ view k2 = set_fd fd FOther v)).
  { destruct (list_find _ _) as [[i s]|]; [apply wp_ret; by exists (view k)|]. cbv zeta.
    set (i := scrape_oldest l). unfold refuse_scrape.
    match goal with |- context [scrape_release ?x i] => set (l0 := x) end.
    assert (held room (view k) l0) as Hl0 by (unfold l0; own_all). call wp_scrape_gone as l2 k2 [-> Hv2]. apply wp_ret. cbn [snd].
    exists (fd_gone (sc_fd (scrape l0 i)) (view k)). split; [by apply held_scrape_gone|].
    rewrite Hv2, Hv. unfold fd_gone. destruct (Z.ltb_spec (sc_fd (scrape l0 i)) 0); [done|].
    assert (sc_fd (scrape l0 i) ≠ fd) as Hne by (by apply (fresh_unheld _ _ _ (held_own _ _ _ Hl0) Hfr (HScrape i))).
    split; [cbn; by rewrite lookup_delete_ne|]. unfold set_fd, del_fd, upd. destruct (view k). cbn. f_equal.
    by rewrite delete_insert_ne. }
  cbv beta. intros [i l2] k2 (v & Hl2 & Hn & Hv2). cbn [snd] in Hl2.
  call quiet_epoll_ctl as r2 k3 Hv3. destruct (negb _).
  - call wp_os_close as rc k4 Hc. apply wp_ret. by rewrite Hc, Hv3, Hv2, del_set_fd.
  - call quiet_now as now k4 Hv4. apply wp_ret. rewrite Hv4, Hv3, Hv2. apply held_scrape_taken; [done..|lia].
Qed.
Hint Resolve own_scrape_accept : own.

(** *** The arm phase *)

Lemma slot_ok_compact hist c : slot_ok hist c → slot_ok hist (c <| cn_conn ::= conn_compact |>).
Proof.
  intros [Hb Hc Hf Hl Hr].
  assert (c_opened (conn_compact (cn_conn c)) = c_opened (cn_conn c)) as Eo.
  { unfold conn_compact. by destruct (_ <=? _). }
  constructor; cbn; try done; [| |by rewrite Eo].
  - by rewrite compact_buf.
  - intros Hu. destruct (Hc Hu) as (Hwf & Hcap & Hm).
    destruct (conn_compact_spec _ Hwf) as (? & _ & _ & ? & ? & _). split; [done|]. split; congruence.
Qed.

Lemma own_arm_conn room l i k : held room (view k) l → keeping room (arm_conn l i) k.
Proof.
  intros Hl. unfold arm_conn. cbv zeta. destruct (negb _); [own_all|].
  eapply (wp_call _ (λ l1 k1, held room (view k1) l1)); [own_all|]. cbv beta. intros l1 k1 Hl1.
  destruct (cn_closing _); [own_all|].
  assert (held room (view k1) (on_slot i (λ c, c <| cn_conn ::= conn_compact |>) l1)) as Hl2.
  { eapply held_calm; [|exact Hl1]. apply calm_slot; [done|by left|by left|]. intros c hist. apply slot_ok_compact. }
  own_all.
Qed.

Lemma own_arm_slots room todo l k : held room (view k) l → keeping room (arm_slots todo l) k.
Proof.
  revert l k. induction todo as [|i todo IH]; intros l k Hl; cbn [arm_slots]; [own_all|].
  eapply wp_call; [by apply own_arm_conn|]. cbv beta. auto.
Qed.

Lemma own_arm_all room l k : held room (view k) l → keeping room (arm_all l) k.
Proof.
  intros Hl. unfold arm_all. eapply wp_call; [exact (own_repl_dial _ _ _ Hl)|]. cbv beta. intros l1 k1 Hl1.
  eapply wp_call; [by apply own_arm_slots|]. cbv beta. intros l2 k2 Hl2. by apply own_arm_stream.
Qed.

(** *** Serving *)

Lemma calm_ack_emit best live l0 l i : calm l0 l → calm l0 (ack_emit best live l i).
Proof.
  intros Hl. unfold ack_emit, ack_count. destruct (negb _); [done|]. cbv zeta.
  repeat match goal with |- calm _ (if ?b then _ else _) => destruct b end; eauto 10 with calm.
Qed.

Lemma own_stream_one room limit l i k : held room (view k) l → keeping room (stream_one limit l i) k.
Proof.
  intros Hl. unfold stream_one. cbv zeta. destruct (_ || _); [own_all|]. destruct (0 <? _); [own_all|].
  set (idx := Z.to_nat _).
  call moves_read as [[r cur] data] k1 Hm. cbn [fst snd] in Hm.
  assert (held room (view k1) (on_peer idx (λ p, p <| pe_cursor := cur |>) l)) as Hl1.
  { eapply held_peer; [exact Hl|exact Hm|by left]. }
  own_all.
Qed.

Lemma own_stream_slots room todo limit l k :
  held room (view k) l → keeping room (stream_slots todo limit l) k.
Proof.
  revert l k. induction todo as [|i todo IH]; intros l k Hl; cbn [stream_slots]; [own_all|].
  eapply wp_call; [by apply own_stream_one|]. cbv beta. auto.
Qed.

(** What offering records to a subscriber leaves of its slot. *)
Definition alike (c c' : loop_conn_t) : Prop :=
  cn_fd c' = cn_fd c ∧ cn_sub c' = cn_sub c ∧ ∀ hist, slot_ok hist c → slot_ok hist c'.

Lemma notify_alike fuel c buf got at_ n : alike c (notify_loop fuel c buf got at_ n).1.
Proof.
  revert c at_ n. induction fuel as [|fuel IH]; intros c at_ n; cbn [notify_loop]; [done|].
  destruct (_ <=? _); [done|]. cbv zeta. destruct (wal_rec_decode _ _) as [rec|]; [|done].
  destruct (_ || _); [done|]. destruct (_ || _); [|apply IH].
  set (c1 := (reply_record _ _ _).2). destruct (IH c1 (at_ + wal_rec_size (i32 (w_len rec))) (inc n)) as (E1 & E2 & E3).
  assert (alike c c1) as (F1 & F2 & F3).
  { unfold c1, reply_record. destruct (_ <? _); [done|]. split; [done|]. split; [done|].
    intros hist. apply slot_ok_same; auto. }
  split; [congruence|]. split; [congruence|auto].
Qed.

Lemma calm_put l i c : alike (slot l i) c → calm l (on_slot i (λ _, c) l).
Proof.
  intros (E1 & E2 & E3). split.
  - apply still_slot. intros c0 hist Hc. unfold slot in E3. rewrite Hc in E3. apply E3.
  - intros h. left. destruct h as [| | | | | | | |j|j|j|j| |]; try done; cbn [fd_of];
      destruct (slot_on_cases i (λ _, c) l j) as [->|(-> & _ & ->)]; try done. unfold sub_fd. by rewrite E2.
Qed.

Lemma sub_fd_on i f l j : (∀ c, sub_fd (f c) = sub_fd c) → sub_fd (slot (on_slot i f l) j) = sub_fd (slot l j).
Proof. intros Hf. destruct (slot_on_cases i f l j) as [->|(-> & _ & ->)]; auto. Qed.

Lemma sub_fd_reply i op fl q p l j : sub_fd (slot (reply_to i op fl q p l) j) = sub_fd (slot l j).
Proof. apply sub_fd_on. intros c. unfold sub_fd, reply. by destruct (_ <? _). Qed.

Lemma own_push_one room durable n l i k :
  held room (view k) l → wp (push_one durable n l i) (λ x k', held room (view k') x.1) k.
Proof.
  intros Hl. unfold push_one. cbv zeta. destruct (_ || _); [by apply wp_ret|].
  assert (∀ l1 (d : Z), held room (view k) l1 → cu_fd (su_cursor (cn_sub (slot l i))) = sub_fd (slot l1 i) →
    wp ('(_, cur) ← wal_cursor_close (su_cursor (cn_sub (slot l i)));
        mret (on_sub i (λ s, s <| su_cursor := cur |>) l1, d)) (λ x k', held room (view k') x.1) k) as Hclose.
  { intros l1 d Hl1 E. call wp_cursor_close as [r cur] k1 [Hc Hv]. cbn [snd] in Hc. subst cur. apply wp_ret.
    cbn [fst]. eapply held_sub; [exact Hl1|by apply cursor_closed|by left]. }
  destruct (su_waiting _).
  { destruct (_ <=? _); [apply wp_ret; cbn [fst]; own_all|]. destruct (_ <=? _); [|by apply wp_ret].
    apply Hclose; [own_all|]. unfold reply_err, reply_err_text. rewrite sub_fd_reply.
    symmetry. by apply (sub_fd_on i (λ c, c <| cn_sub ::= λ s, s <| su_waiting := false |> |>) l). }
  destruct (_ || _); [by apply wp_ret|]. destruct (_ <? _); [by apply wp_ret|].
  destruct (_ && _). { apply Hclose; [own_all|]. unfold on_sub. by rewrite sub_fd_on, sub_fd_reply. }
  call moves_read as [[r cur] data] k1 Hm. cbn [fst snd] in Hm.
  eapply (held_sub _ _ _ _ i) in Hm; [|exact Hl|by left].
  destruct (negb _); [apply wp_ret; cbn [fst]; own_all|].
  set (l1 := on_sub i _ l) in *.
  match goal with |- context [notify_loop _ (slot ?x i) _ _ _ _] => set (l2 := x) end.
  assert (held room (view k1) l2) as Hl2 by (unfold l2; own_all).
  pose proof (notify_alike (S (length data)) (slot l2 i) data (zlen data) 0 0) as Ha.
  destruct (notify_loop _ _ _ _ _ _) as [c sent]. apply wp_ret. cbn [fst] in *.
  eapply held_calm; [|exact Hl2]. apply calm_put in Ha. etrans; [exact Ha|]. eauto with calm.
Qed.

Lemma own_push_slots room todo durable n l k :
  held room (view k) l → keeping room (push_slots todo durable n l) k.
Proof.
  revert durable l k. induction todo as [|i todo IH]; intros durable l k Hl; cbn [push_slots]; [own_all|].
  eapply wp_call; [by apply own_push_one|]. cbv beta. intros [l1 d1] k1 Hl1. by apply IH.
Qed.

(** A call on the log that adds nothing to it. *)
Lemma own_log {A} room l k (m : M K A) (w : A → wal_t) :
  held room (view k) l →
  (∀ hist, in_use cap false (view k) (l_wal l) hist →
     wp m (λ x k', in_use cap false (view k') (w x) hist ∧ wal_next_seq (w x) = wal_next_seq (l_wal l) ∧
       log_moves (view k) (view k') (l_wal l) (w x)) k) →
  wp m (λ x k', held room (view k') (l <| l_wal := w x |>)) k.
Proof.
  intros (hist & Ht & Hpre & Hlow & Hn) Hm. eapply wp_mono; [apply Hm, Ht|].
  cbv beta. intros x k' (Hin & En & Hmv). pose proof (lm_durable _ _ _ _ Hmv).
  exists hist. rewrite <-(app_nil_r hist) at 1. split; [|split; [done|cbn; lia]].
  apply (tied_log _ (view k) _ hist []); [done| |done]. by rewrite app_nil_r.
Qed.

Lemma own_retain_pass room l k : held room (view k) l → keeping room (retain_pass l) k.
Proof.
  intros Hl. unfold retain_pass. cbv zeta. do 4 (destruct (_ : bool); [own_all|]).
  set (keep := if _ && _ then _ else _). clearbody keep.
  match goal with |- context [wal_retain (l_wal ?x) _] => set (l0 := x) end.
  assert (held room (view k) l0) as Hl0 by (unfold l0; own_all). clearbody l0.
  eapply wp_call.
  { apply (own_log room l0 k _ (λ x, x.1.2)); [done|]. intros hist Hin. by apply (state_retain (t := false)). }
  cbv beta. intros [[r w] n] k1 Hl1. cbn [fst snd] in Hl1.
  eapply (wp_call _ (λ l' k', held room (view k') l')); [|cbv beta; intros ? ? ?; own_all].
  destruct (negb _); [|own_all]. eapply wp_call; [by eapply own_say|]. cbv beta. intros [] k2 Hv. own_view. own_all.
Qed.

Lemma held_acks_emit room v l : held room v l → held room v (acks_emit l).
Proof.
  apply held_calm. unfold acks_emit. generalize (repl_best l), (repl_live l). intros best live.
  assert (∀ todo l1, calm l l1 → calm l (foldl (ack_emit best live) l1 todo)) as Hall; [|by apply Hall].
  induction todo as [|i todo IH]; intros l1 H1; cbn [foldl]; [done|]. by apply IH, calm_ack_emit.
Qed.

Lemma own_tick_serve room l n k : held room (view k) l → keeping room (tick_serve l n) k.
Proof.
  intros Hl%held_acks_emit. unfold tick_serve. cbv zeta. rename Hl into Hl1.
  eapply (wp_call _ (λ l2 k2, held room (view k2) l2)).
  { destruct (l_is_follower _); [apply wp_ret; own_all|by apply own_stream_slots]. }
  cbv beta. intros l2 k2 Hl2.
  eapply wp_call; [by apply own_push_slots|]. cbv beta. intros l3 k3 Hl3. by apply own_retain_pass.
Qed.

Lemma own_fsync_observe room l t k : held room (view k) l → keeping room (fsync_observe l t) k.
Proof.
  intros Hl. unfold fsync_observe. eapply (wp_call _ (λ _ k', view k' = view k)).
  - destruct (0 <? t); [|by apply wp_ret]. call quiet_now as now k1 Hv. by apply wp_ret.
  - cbv beta. intros ns k1 Hv. own_view. own_all.
Qed.

Lemma own_tick_flush room l k :
  held room (view k) l → wp (tick_flush l) (λ x k', held room (view k') x.2) k.
Proof.
  intros Hl. unfold tick_flush. destruct (negb _); [by apply wp_ret|].
  call quiet_now as began k1 Hv. rewrite <-Hv in Hl.
  eapply wp_call.
  { apply (own_log room l k1 _ snd); [done|]. intros hist (segs & a & b & L).
    eapply wp_mono; [by apply (state_sync (cap := cap) (t := false) _ hist segs a b)|].
    cbv beta. intros [r w] k2 (En & Hmv & Hx). cbn [fst snd] in *. split; [|done].
    destruct (result_ok r); by eexists _, _, _. }
  cbv beta. intros [r w] k2 Hl2. cbn [fst snd] in Hl2. cbv zeta.
  destruct (negb _); [by apply wp_ret|].
  eapply wp_call; [apply own_fsync_observe; eapply held_calm; [|exact Hl2]; eauto with calm|].
  cbv beta. intros l3 k3 Hl3. by apply wp_ret.
Qed.

(** *** The pass *)

Lemma own_event room l scr d ev k :
  held (room + EVENT_RECORDS) (view k) l → 0 <= room → keeping room (tick_event l scr d ev) k.
Proof.
  intros Hl Hroom. assert (held room (view k) l) as Hw.
  { eapply held_weak; [|exact Hl]. unfold EVENT_RECORDS, LOOP_RECV_CAP. lia. }
  unfold tick_event. cbv zeta. destruct (_ =? OP_LISTEN); [own_all|]. destruct (_ =? OP_CONN).
  { eapply (wp_call _ (λ l' k', held room (view k') l')).
    - destruct (has_flag _ _); [by apply own_do_recv|by apply wp_ret].
    - cbv beta. intros l1 k1 Hl1. own_all. }
  destruct (_ =? OP_SIGNAL); [clear Hl; own_all|]. destruct (_ =? OP_TIMER); [clear Hl; own_all|].
  destruct (_ =? OP_STREAM); [by apply own_stream_event|]. clear Hl. own_all.
Qed.

Lemma own_events evs room l scr k :
  held (room + EVENT_RECORDS * zlen evs) (view k) l → 0 <= room → keeping room (tick_events l scr evs) k.
Proof.
  revert l k. induction evs as [|[d ev] evs IH]; intros l k Hl Hroom; cbn [tick_events].
  { apply wp_ret. by rewrite Z.mul_0_r, Z.add_0_r in Hl. }
  assert (0 <= EVENT_RECORDS) by (unfold EVENT_RECORDS, LOOP_RECV_CAP; lia).
  eapply wp_call; [apply (own_event (room + EVENT_RECORDS * zlen evs)); [|nia]|].
  - eapply held_weak; [|exact Hl]. cbn [length]. lia.
  - cbv beta. auto.
Qed.

Lemma own_tick room l wait scr k :
  held (room + PASS_RECORDS) (view k) l → 0 <= room →
  wp (loop_tick l wait scr) (λ x k', held room (view k') x.2) k.
Proof.
  intros Hl Hroom. assert (0 <= PASS_RECORDS) by (unfold PASS_RECORDS, EVENT_RECORDS, LOOP_RECV_CAP, MAX_EVENTS; lia).
  unfold loop_tick. eapply wp_call; [by apply own_arm_all|]. cbv beta. intros l1 k1 Hl1. cbv zeta.
  unfold os_epoll_wait. apply wp_bind.
  call law_epoll_wait as [r evs] k2 [Hv Hev]. apply wp_ret. cbn [fst snd] in Hev. rewrite <-Hv in Hl1.
  assert (held room (view k2) (l1 <| l_progress := false |>)) as Hidle.
  { eapply held_weak; [|eapply held_calm; [|exact Hl1]; eauto with calm]. lia. }
  destruct (sys_is_err r) eqn:Herr; [by apply wp_ret|]. cbn [result_ok r_code RESULT_OK Z.eqb negb].
  assert (zlen (sub 0 (i32 r) evs) <= MAX_EVENTS) as Hlen.
  { destruct Hev as [Hf|[Hr Hlen]]; [unfold failed in Hf; congruence|].
    rewrite length_sub. unfold MAX_EVENTS in *. cbn in Hr |- *. lia. }
  assert (EVENT_RECORDS * zlen (sub 0 (i32 r) evs) <= PASS_RECORDS).
  { apply Z.mul_le_mono_nonneg_l; [unfold EVENT_RECORDS, LOOP_RECV_CAP; lia|done]. }
  eapply wp_call; [apply (own_events _ room); [|done]|].
  { eapply held_weak; [|eapply held_calm; [|exact Hl1]; eauto with calm]. lia. }
  cbv beta. intros l3 k3 Hl3. eapply wp_call; [by apply own_tick_flush|]. cbv beta. intros [r4 l4] k4 Hl4.
  cbn [fst snd] in Hl4. destruct (negb _); [by apply wp_ret|].
  eapply wp_call; [by apply own_tick_serve|]. cbv beta. intros l5 k5 Hl5.
  eapply wp_call; [by apply own_arm_all|]. cbv beta. intros l6 k6 Hl6. by apply wp_ret.
Qed.
End pass.
