(* ===== verification/LoopFindings.v ===== *)
(** * Runs of the event loop that do not go as meant

    Each lemma computes a run of the code on the simulated kernel of [Os]. *)

From S2P Require Import Prelude Core Crc32c Fmt Msg Conn Record Index Os Session Segment Wal Cursor.
From S2P Require Import LoopState LoopFrames LoopServe Metrics LoopTick LoopSpec LoopFacts.

Module LoopFindings.
Import Os.Sim.

Definition frame (op flags key seq : Z) (payload : list byte) : list byte :=
  header_bytes (msg_header_new op MSG_RECORD_NONE flags (zlen payload) key seq) ++ payload.

(** ** A protocol error that is answered and not acted on *)

(** A greeting, six pings and a header with a wrong magic arrive together. *)
Definition seven_and_a_half : sim :=
  LoopProps.demo <| s_net := Net [] [(9,
    frame MSG_OP_HELLO 0 0 0 (hello_bytes (Hello 0 0 0 0)) ++
    concat (replicate 6 (frame MSG_OP_PING 0 0 5 [])) ++ zeros 32)] |>.

(** The batch of eight has one place left for the error and none for the
    close, so the client gets its error and the slot is neither closing nor
    of any use: whatever arrives on it from then on is dropped. *)
Lemma error_leaves_slot_open :
  let l := (do_recv LoopProps.demo_loop 0 (zeros 256) seven_and_a_half).1 in
  (cn_in_use (slot l 0), cn_closing (slot l 0), c_closed (cn_conn (slot l 0))) = (true, false, true).
Proof. vm_compute. reflexivity. Qed.

(** ** A subscription after a read *)

Definition read_then_subscribe : M sim loop_t :=
  l ← handle_read LogProps.demo_leader 0 (msg_header_new MSG_OP_READ 0 0 8 9 1)
        (Some (read_bytes (ReadReq 0))) 8 256;
  l ← subs_push l 256;
  l ← handle_subscribe l 0 (msg_header_new MSG_OP_SUBSCRIBE 0 0 16 9 2)
        (Some (subscribe_bytes (SubReq 0 1))) 16 256;
  subs_push l 256.

(** [handle_subscribe] leaves what the read before it has set, so a
    subscription on the same connection ends in the next pass. *)
Lemma subscription_after_read_ends :
  let l := (read_then_subscribe WalProps.demo).1 in
  (su_active (cn_sub (slot l 0)), su_once (cn_sub (slot l 0))) = (false, true).
Proof. vm_compute. reflexivity. Qed.

(** A read that may only be answered from sequence 100 on, from a node whose
    log is empty: the key is not in the index, so it is answered at once that
    there is nothing. *)
Lemma read_ignores_barrier :
  let l := (handle_read LogProps.demo_leader 0 (msg_header_new MSG_OP_READ 0 0 8 9 1)
              (Some (read_bytes (ReadReq 100))) 8 256 WalProps.demo).1 in
  (wal_durable_seq (l_wal l), su_min_seq (cn_sub (slot l 0)), su_waiting (cn_sub (slot l 0)),
   su_active (cn_sub (slot l 0))) = (0, 100, false, true).
Proof. vm_compute. reflexivity. Qed.

(** ** A retry that is told of a second copy there is not *)

Definition two_slots : loop_t :=
  LogProps.demo_leader <| l_conns ::= alter (λ c,
    c <| cn_in_use := true |> <| cn_fd := 10 |> <| cn_session := 7 |>) 1%nat |>.

Definition replicated : Z := Z.lor MSG_FLAG_ACK_REQ MSG_FLAG_REPLICATED.

(** Record 1 is flushed and a replica has confirmed it.  The client's next
    write becomes record 2 and is sent again on another connection before
    the flush. *)
Definition retried : M sim loop_t :=
  l ← handle_write two_slots 0 (msg_header_new MSG_OP_WRITE 1 MSG_FLAG_ACK_REQ 3 9 5)
        (Some (bytes_of [1; 2; 3])) 3 (zeros 256);
  '(_, l) ← tick_flush l;
  let l := on_peer 0 (λ p, p <| pe_live := true |> <| pe_durable := 1 |>) (acks_emit l) in
  l ← handle_write l 0 (msg_header_new MSG_OP_WRITE 1 replicated 3 9 6)
        (Some (bytes_of [4; 5; 6])) 3 (zeros 256);
  l ← handle_write l 1 (msg_header_new MSG_OP_WRITE 1 replicated 3 9 6)
        (Some (bytes_of [4; 5; 6])) 3 (zeros 256);
  '(_, l) ← tick_flush l;
  mret (acks_emit l).

(** The first connection is still owed its answer for record 2; the second
    has been told that the same write is replicated, while the only replica
    has confirmed record 1. *)
Lemma retry_claims_replica :
  let l := (retried WalProps.demo).1 in
  cn_staged (slot l 1) = answer_bytes (SaidAck replicated 1 6) ∧
  oa_due (cn_ack_repl (slot l 0)) = true ∧ oa_wal_seq (cn_ack_repl (slot l 0)) = 2 ∧
  repl_best l = 1.
Proof. vm_compute. repeat split. Qed.

(** ** An answer with no room for it *)

Definition full : loop_t :=
  LogProps.demo_leader <| l_conns ::= alter (λ c, c <| cn_staged := zeros LOOP_SEND_CAP |>
    <| cn_ack_local := OwedAck 5 0 0 MSG_FLAG_ACK_REQ true false |>) 0%nat |>.

(** What is owed is cleared although nothing could be staged for it. *)
Lemma answer_without_room_is_dropped :
  let l := acks_emit full in
  (zlen (cn_staged (slot l 0)), cn_ack_local (slot l 0)) = (LOOP_SEND_CAP, ack_none).
Proof. vm_compute. reflexivity. Qed.

(** ** A record no subscriber can be sent *)

(** The largest write a client can send, flushed, and a subscriber in front
    of it. *)
Definition large_file : inode :=
  let p := zeros 8160 in
  let m := log_bytes [(sealed (Rec 0 8160 1 1 7 5 1 0 0 9) p, p)] ++ zeros 64 in Inode m (Some <$> m).
Definition large_log : sim :=
  MkSim (Fsys {[0%nat := large_file]} {[cstr (wal_seg_name 1) := 0%nat]}
    (Disk {[cstr (wal_seg_name 1) := 0%nat]} []) {[4 := FDir []; 5 := FFile 0; 6 := FFile 0]}) 7 2 [] 0 [] (Net [] []).
Definition large_subscriber : loop_t :=
  (loop_zero (Wal 4 16384 (Seg 5 4 1 2 1 16384 8216 8216) [1] wal_index_init) session_table_init)
    <| l_conns ::= alter (λ c, c <| cn_in_use := true |> <| cn_fd := 9 |>
         <| cn_sub := Sub (Cursor 6 1 0 1) 9 0 0 0 true false true false |>) 0%nat |>.

(** Its record is larger than the whole send buffer that the read is bounded
    by: nothing is staged, nothing is said, and the next pass is the same. *)
Lemma largest_write_is_never_sent :
  let l := (push_one 1 65536 large_subscriber 0 large_log).1.1 in
  (cn_staged (slot l 0), su_active (cn_sub (slot l 0)), cn_closing (slot l 0),
   cu_next_seq (su_cursor (cn_sub (slot l 0))), l_progress l) = ([], true, false, 1, false).
Proof. vm_compute. reflexivity. Qed.

(** ** Writes that are acknowledged and not stored *)

(** A session that has written nothing yet, and a write under sequence 0. *)
Definition zero_write : M sim loop_t :=
  let l := LogProps.demo_leader <| l_sessions := session_observe session_table_init 7 0 |> in
  l ← handle_write l 0 (msg_header_new MSG_OP_WRITE 1 MSG_FLAG_ACK_REQ 3 9 0)
        (Some (bytes_of [1; 2; 3])) 3 (zeros 256);
  '(_, l) ← tick_flush l;
  mret (acks_emit l).

(** It is taken for one the session has stored before. *)
Lemma sequence_zero_is_not_stored :
  let l := (zero_write WalProps.demo).1 in
  (wal_next_seq (l_wal l), ct_dedup_hits (l_counts l)) = (1, 1) ∧
  cn_staged (slot l 0) = answer_bytes (SaidAck MSG_FLAG_ACK_REQ 0 0).
Proof. vm_compute. split; reflexivity. Qed.

(** With no replica attached, a write that asks for one is refused, and the
    next one, which does not, is taken; then the client sends the first one
    again as it was told to. *)
Definition refused_then_taken : M sim loop_t :=
  l ← handle_write LogProps.demo_leader 0 (msg_header_new MSG_OP_WRITE 1 replicated 3 9 5)
        (Some (bytes_of [1; 2; 3])) 3 (zeros 256);
  l ← handle_write l 0 (msg_header_new MSG_OP_WRITE 1 MSG_FLAG_ACK_REQ 3 9 6)
        (Some (bytes_of [4; 5; 6])) 3 (zeros 256);
  '(_, l) ← tick_flush l;
  let l := on_slot 0 (λ c, c <| cn_staged := [] |>) (acks_emit l) in
  l ← handle_write l 0 (msg_header_new MSG_OP_WRITE 1 MSG_FLAG_ACK_REQ 3 9 5)
        (Some (bytes_of [1; 2; 3])) 3 (zeros 256);
  '(_, l) ← tick_flush l;
  mret (acks_emit l).

(** The log has one record, sequence 6 of the client; the retry of 5 is
    acknowledged up to 6 and stored nowhere. *)
Lemma refused_write_is_never_stored :
  let l := (refused_then_taken WalProps.demo).1 in
  (wal_next_seq (l_wal l), ct_writes (l_counts l), ct_dedup_hits (l_counts l)) = (2, 1, 1) ∧
  cn_staged (slot l 0) = answer_bytes (SaidAck MSG_FLAG_ACK_REQ 1 6).
Proof. vm_compute. split; reflexivity. Qed.

(** ** A descriptor that is lost *)

(** A log whose second record is damaged, and a subscriber that asks twice for
    what follows it and leaves. *)
Definition damaged_file : inode :=
  let m := log_bytes [CursorProps.demo_a] ++ replicate 64 Byte.xff in Inode m (Some <$> m).
Definition damaged_log : sim :=
  MkSim (Fsys {[0%nat := damaged_file]} {[cstr (wal_seg_name 1) := 0%nat]}
    (Disk {[cstr (wal_seg_name 1) := 0%nat]} []) {[4 := FDir []; 5 := FFile 0; 9 := FOther]}) 10 1 [] 0 [] (Net [] []).
Definition subscribe_twice : M sim loop_t :=
  let l := (loop_zero (Wal 4 128 (Seg 5 4 1 4 3 128 128 128) [1] wal_index_init) session_table_init)
    <| l_conns ::= alter (λ c, c <| cn_in_use := true |> <| cn_fd := 9 |>) 0%nat |> in
  let h := msg_header_new MSG_OP_SUBSCRIBE 0 MSG_FLAG_ALL_KEYS 16 9 1 in
  l ← handle_subscribe l 0 h (Some (subscribe_bytes (SubReq 0 3))) 16 256;
  l ← handle_subscribe l 0 h (Some (subscribe_bytes (SubReq 0 3))) 16 256;
  slot_release l 0.

(** The first attempt failed with its descriptor open; the second makes a new
    cursor over it, and nothing closes it any more. *)
Lemma failed_seek_leaks_descriptor :
  let '(l, s) := subscribe_twice damaged_log in
  cn_in_use (slot l 0) = false ∧ size (f_fds (view s)) = 3%nat ∧ f_fds (view s) !! 10 = Some (FFile 0).
Proof. vm_compute. repeat split. Qed.

End LoopFindings.
