(* ===== verification/Main.v ===== *)
(** * The entry point (src/server/main.c)

    Arguments, the scan that [--inspect] prints, and the life of a server:
    open the log, take the signals, start the loop, run it, stop it, flush.
    The checks behind [--selfcheck] are the program's own tests and are a
    parameter here; [SelfcheckRun] gives them. *)

From Stdlib Require Import String.
From S2P Require Import Prelude Core Crc32c Fmt Msg Conn Record Index Os Session Segment Wal Cursor.
From S2P Require Import LoopState LoopFrames LoopServe Metrics LoopTick.

Open Scope Z_scope.

(** A C string is the bytes before its NUL. *)
Abbreviation cstring := (list byte).

Definition i64 (x : Z) : Z := (x + 2 ^ 63) mod 2 ^ 64 - 2 ^ 63.

Lemma i64_id x : 0 <= x < 2 ^ 63 → i64 x = x.
Proof. intros. unfold i64. rewrite Z.mod_small; lia. Qed.
Lemma i64_negative x : 2 ^ 63 <= x < 2 ^ 64 → i64 x < 0.
Proof. intros. unfold i64. rewrite <-(Z_mod_plus_full _ (-1)), Z.mod_small; lia. Qed.

(** No log is opened with a negative capacity. *)
Lemma wal_open_refuses {K C : Type} `{Sys K} (upd : C → wal_rec_t → C) rounds w0 dir cap scratch ctx (k : K) :
  cap < 0 →
  wal_open upd rounds w0 dir cap scratch ctx k = (Some (RESULT_ERR ERR_INVALID 0, w0, Opened 0 false false 0 0 0, ctx), k).
Proof.
  intros Hc. unfold wal_open. cbv zeta. rewrite (proj2 (Z.ltb_lt cap _)) by (unfold WAL_REC_HEADER_SIZE; lia). done.
Qed.

Definition DEFAULT_PORT : Z := 7400.
Definition DEFAULT_SEG_SIZE : Z := 256 * 1024 * 1024.

(** ** Arguments *)

Fixpoint str_eq (a b : cstring) : bool :=
  match a, b with
  | x :: a, y :: b => if bool_decide (x = y) then str_eq a b else false
  | [], [] => true
  | _, _ => false
  end.

Definition is_digit_char (c : byte) : bool :=
  (48 <=? byte.unsigned c) && (byte.unsigned c <=? 57).

Fixpoint parse_u64_loop (s : cstring) (v : Z) : option Z :=
  match s with
  | [] => Some v
  | c :: s =>
      if negb (is_digit_char c) then None else
      if UINT64_MAX / 10 <? v then None else
      parse_u64_loop s (u64 (v * 10 + digit_val c))
  end.

Definition parse_u64 (s : cstring) : option Z :=
  match s with [] => None | _ => parse_u64_loop s 0 end.

(** The digits of one octet: their value and how many there were. *)
Fixpoint octet_loop (s : cstring) (v digits : Z) : option (Z * Z * cstring) :=
  match s with
  | c :: rest =>
      if is_digit_char c then
        let v := u32 (v * 10 + digit_val c) in
        if 255 <? v then None else octet_loop rest v (digits + 1)
      else Some (v, digits, s)
  | [] => Some (v, digits, [])
  end.

Definition point : byte := Byte.x2e.
Definition colon : byte := Byte.x3a.

(** [todo] octets are still to come. *)
Fixpoint parse_ip_loop (todo : nat) (s : cstring) (ip : Z) : option (Z * cstring) :=
  match todo with
  | O => Some (ip, s)
  | S todo =>
      match octet_loop s 0 0 with
      | None => None
      | Some (v, digits, s) =>
          if digits =? 0 then None else
          let ip := Z.lor (u32 (Z.shiftl ip 8)) v in
          match todo with
          | O => Some (ip, s)
          | _ => match s with
                 | c :: s => if bool_decide (c = point) then parse_ip_loop todo s ip else None
                 | [] => None
                 end
          end
      end
  end.

(** The address, and what is left of the string where it stopped. *)
Definition parse_ip (s : cstring) : option (Z * cstring) := parse_ip_loop 4 s 0.

(** Port and address, in network order. *)
Definition parse_addr (s : cstring) : option (Z * Z) :=
  match parse_ip s with
  | Some (ip, c :: s) =>
      if negb (bool_decide (c = colon)) then None else
      match parse_u64 s with
      | Some port => if (port =? 0) || (65535 <? port) then None else Some (bswap16 port, bswap32 ip)
      | None => None
      end
  | _ => None
  end.

Record args_t := Args {
  a_dir : option cstring; a_leader : option cstring; a_bind_text : cstring; a_bind_ip : Z;
  a_port : Z; a_seg_size : Z; a_retain : Z; a_replicas : Z; a_metrics_port : Z;
  a_selfcheck : bool; a_inspect : bool }.
#[export] Instance eta_args : Eta args_t := λ a,
  Args (a_dir a) (a_leader a) (a_bind_text a) (a_bind_ip a) (a_port a) (a_seg_size a) (a_retain a)
    (a_replicas a) (a_metrics_port a) (a_selfcheck a) (a_inspect a).

Definition args_default : args_t :=
  Args None None (txt "127.0.0.1") 0x7F000001 DEFAULT_PORT DEFAULT_SEG_SIZE 0 0 0 false false.

Definition lines (ls : list string) : cstring := concat ((λ s, txt s ++ [Byte.x0a]) <$> ls).

Definition usage : cstring := lines [
  "msgsrvd";
  "";
  "  msgsrvd --dir PATH [--bind ADDR] [--port N]";
  "          [--segment-size BYTES] [--leader ADDR:PORT]";
  "          [--retain-segments N] [--replicas N]";
  "          [--metrics-port N]";
  "      Serve the write-ahead log in PATH. The directory must";
  "      exist. --port 0 asks the kernel to choose one.";
  "      Defaults: --bind 127.0.0.1, --port 7400,";
  "      --segment-size 268435456.";
  "";
  "      With --leader this node is a replica: it streams that";
  "      node's log into its own and answers a client's write";
  "      with the leader's address. Without it, it is the leader";
  "      and replicas stream from it.";
  "";
  "  msgsrvd --dir PATH --inspect";
  "      Scan the log, say what is in it, and exit. Nothing is";
  "      listened on. Answers which of two nodes is further";
  "      along, which is what a promotion has to know.";
  "";
  "  msgsrvd --selfcheck";
  "      Run the in-process checks and exit."]%string.

Definition value_flags : list string :=
  ["--dir"; "--port"; "--segment-size"; "--bind"; "--retain-segments"; "--replicas";
   "--metrics-port"; "--leader"]%string.

Definition needs_value (arg : cstring) : bool := existsb (λ f, str_eq arg (txt f)) value_flags.

Definition unrecognised (arg : cstring) : list cstring :=
  [txt "msgsrvd: unrecognised argument: "; arg; [Byte.x0a; Byte.x0a]; usage].

(** A number, at most [max]. *)
Definition parse_upto (max : Z) (s : cstring) : option Z :=
  match parse_u64 s with
  | Some v => if max <? v then None else Some v
  | None => None
  end.

(** The settings, or what is written before the program ends with status 2. *)
Fixpoint parse_args (argv : list cstring) (a : args_t) : list cstring + args_t :=
  match argv with
  | [] => inr a
  | arg :: rest =>
      if needs_value arg && bool_decide (rest = [])
      then inl [txt "msgsrvd: "; arg; txt " needs a value" ++ [Byte.x0a; Byte.x0a]; usage] else
      if str_eq arg (txt "--selfcheck") then parse_args rest (a <| a_selfcheck := true |>) else
      if str_eq arg (txt "--inspect") then parse_args rest (a <| a_inspect := true |>) else
      match rest with
      | [] => inl (unrecognised arg)
      | v :: rest =>
          if str_eq arg (txt "--dir") then parse_args rest (a <| a_dir := Some v |>)
          else if str_eq arg (txt "--port") then
            match parse_upto 65535 v with
            | Some n => parse_args rest (a <| a_port := n |>)
            | None => inl [lines ["msgsrvd: --port must be 0 to 65535"%string]]
            end
          else if str_eq arg (txt "--bind") then
            match parse_ip v with
            | Some (ip, _) => parse_args rest (a <| a_bind_text := v |> <| a_bind_ip := ip |>)
            | None => inl [lines ["msgsrvd: --bind wants an address like 192.0.2.13"%string]]
            end
          else if str_eq arg (txt "--leader") then parse_args rest (a <| a_leader := Some v |>)
          else if str_eq arg (txt "--retain-segments") then
            match parse_upto WAL_MAX_SEGMENTS v with
            | Some n => parse_args rest (a <| a_retain := n |>)
            | None => inl [lines ["msgsrvd: --retain-segments must be 0 to 1024"%string]]
            end
          else if str_eq arg (txt "--replicas") then
            match parse_upto (Z.of_nat LOOP_MAX_REPLICAS) v with
            | Some n => parse_args rest (a <| a_replicas := n |>)
            | None => inl [lines ["msgsrvd: --replicas must be 0 to 2"%string]]
            end
          else if str_eq arg (txt "--metrics-port") then
            match parse_upto 65535 v with
            | Some n => parse_args rest (a <| a_metrics_port := n |>)
            | None => inl [lines ["msgsrvd: --metrics-port must be 0 to 65535"%string]]
            end
          else if str_eq arg (txt "--segment-size") then
            match parse_u64 v with
            | Some n => if n <? WAL_REC_MAX_SIZE
                        then inl [lines ["msgsrvd: --segment-size must hold one whole record"%string]]
                        else parse_args rest (a <| a_seg_size := n |>)
            | None => inl [lines ["msgsrvd: --segment-size must hold one whole record"%string]]
            end
          else inl (unrecognised arg)
      end
  end.

(** ** Output *)

Section main.
Context {K : Type} `{Sys K}.

Definition out (fd : Z) (s : cstring) : M K unit := _ ← os_write_raw fd s; mret tt.
Definition say_text (fd : Z) (s : string) : M K unit := out fd (txt s).

Fixpoint out_all (fd : Z) (ss : list cstring) : M K unit :=
  match ss with
  | [] => mret tt
  | s :: ss => _ ← out fd s; out_all fd ss
  end.

(** The decimal digits of [v], least significant first. *)
Fixpoint digits_of (fuel : nat) (v : Z) : list byte :=
  match fuel with
  | O => []
  | S fuel => if 0 <? v then digit (v mod 10) :: digits_of fuel (v / 10) else []
  end.

(** One character at a time, from the last digit taken. *)
Definition out_u64 (fd v : Z) : M K unit :=
  out_all fd ((λ c, [c]) <$> reverse (if v =? 0 then [digit 0] else digits_of 20 v)).

Definition newline : cstring := [Byte.x0a].

Definition report_log (dir : cstring) (info : wal_open_t) (sessions : Z) : M K unit :=
  _ ← say_text 1 "msgsrvd: log "; _ ← out 1 dir;
  _ ← say_text 1 " segments="; _ ← out_u64 1 (u64 (op_segments info));
  _ ← say_text 1 " records="; _ ← out_u64 1 (op_records info);
  _ ← say_text 1 " first="; _ ← out_u64 1 (op_first_seq info);
  _ ← say_text 1 " last="; _ ← out_u64 1 (op_last_seq info);
  _ ← say_text 1 " sessions="; _ ← out_u64 1 (u64 sessions);
  _ ← (if op_torn info then say_text 1 " (a torn tail was dropped)" else mret tt);
  out 1 newline.

Fixpoint report_keys (ks : list wal_index_key_t) : M K unit :=
  match ks with
  | [] => mret tt
  | k :: ks =>
      _ ← say_text 1 "msgsrvd:   key "; _ ← out_u64 1 (ik_key k);
      _ ← say_text 1 " records="; _ ← out_u64 1 (ik_count k);
      _ ← say_text 1 " first="; _ ← out_u64 1 (ik_first k);
      _ ← say_text 1 " last="; _ ← out_u64 1 (ik_last k);
      _ ← out 1 newline;
      report_keys ks
  end.

(** The bit CPUID reports SSE4.2 by. *)
Definition crc32c_available : M K bool :=
  '(_, _, ecx, _) ← cpuid 1 0;
  mret (negb (Z.land ecx (Z.shiftl 1 20) =? 0)).

Definition no_sse : string := "msgsrvd: this CPU has no SSE4.2, which CRC32C needs".

Definition cannot_open (dir : cstring) : M K unit :=
  _ ← say_text 2 "msgsrvd: cannot open the log in "; _ ← out 2 dir; out 2 newline.

(** ** The log, without a server

    [w0] is the log's memory before the call and [scratch] the static scan
    buffer; [None] is a directory listing that took more than [rounds]. *)

Definition inspect_log (rounds : nat) (w0 : wal_t) (scratch : list byte) (dir : cstring)
    (seg_size : Z) : M K (option Z) :=
  sse ← crc32c_available;
  if negb sse then _ ← out 2 (lines [no_sse]); mret (Some 1) else
  x ← wal_open session_from_record rounds w0 (dir ++ [Byte.x00]) seg_size scratch session_table_init;
  match x with
  | None => mret None
  | Some (r, w, info, sessions) =>
      if negb (result_ok r) then _ ← cannot_open dir; mret (Some 1) else
      _ ← report_log dir info (st_count sessions);
      _ ← report_keys (ix_keys (wal_index w));
      _ ← (if 0 <? ix_unknown (wal_index w)
           then _ ← say_text 1 "msgsrvd:   and "; _ ← out_u64 1 (ix_unknown (wal_index w));
                out 1 (lines [" records whose keys did not fit the index"%string])
           else mret tt);
      _ ← wal_close w;
      mret (Some 0)
  end.

(** ** The server *)

Definition SIGMASK (n : Z) : Z := Z.shiftl 1 (n - 1).
Definition SIGINT : Z := 2.
Definition SIGTERM : Z := 15.
Definition SFD_CLOEXEC : Z := 0x80000.
Definition SFD_NONBLOCK : Z := 0x800.

(** The line that says where the server listens. *)
Definition report_listening (a : args_t) (l : loop_t) : M K unit :=
  _ ← say_text 1 "msgsrvd: listening on "; _ ← out 1 (a_bind_text a);
  _ ← say_text 1 ":"; _ ← out_u64 1 (u64 (l_port l));
  _ ← (match a_leader a with
       | Some leader => _ ← say_text 1 " replica of "; out 1 leader
       | None => say_text 1 " leader"
       end);
  _ ← (if 0 <? a_metrics_port a
       then _ ← say_text 1 ", metrics on "; out_u64 1 (u64 (l_metrics_port l)) else mret tt);
  _ ← (if 0 <? a_retain a
       then _ ← say_text 1 ", keeping "; _ ← out_u64 1 (u64 (a_retain a)); say_text 1 " segments"
       else mret tt);
  out 1 newline.

(** The label [out_wal]: the log is closed whatever the status. *)
Definition out_wal (w : wal_t) (rc : Z) : M K (option (Z * wal_t)) :=
  '(_, w) ← wal_close w; mret (Some (rc, w)).

(** A loop that will not run: say why, and stop it. *)
Definition give_up_loop (l : loop_t) (why : string) : M K (option (Z * wal_t)) :=
  _ ← out 2 (lines [why]);
  l ← loop_shutdown l;
  out_wal (l_wal l) 1.

(** From the loop's start on: run it, stop it, flush. *)
Definition run_loop (passes : nat) (scratch : list byte) (l : loop_t) : M K (option (Z * wal_t)) :=
  x ← loop_run passes l scratch;
  match x with
  | None => mret None
  | Some (r, l) =>
      if negb (result_ok r) then give_up_loop l "msgsrvd: the event loop stopped on an error" else
      l ← loop_shutdown l;
      '(r, w) ← wal_sync (l_wal l);
      if negb (result_ok r) then
        _ ← out 2 (lines ["msgsrvd: the final flush failed"%string]); out_wal w 1
      else
        _ ← say_text 1 "msgsrvd: stopped at sequence "; _ ← out_u64 1 (wal_durable_seq w);
        _ ← out 1 newline;
        out_wal w 0
  end.

(** The loop with its roles and ports set. *)
Definition start_loop (passes : nat) (scratch : list byte) (a : args_t) (addr : Z * Z) (sig_fd : Z)
    (w : wal_t) (sessions : session_table_t) : M K (option (Z * wal_t)) :=
  '(r, l) ← loop_init w sessions (a_bind_ip a) (u16 (a_port a));
  if negb (result_ok r) then
    _ ← out 2 (lines ["msgsrvd: cannot start the event loop"%string]);
    _ ← os_close sig_fd; out_wal (l_wal l) 1
  else
  l ← loop_set_signal_fd l sig_fd;
  '(r, l) ← (match a_leader a with
             | Some leader => loop_set_leader l addr leader
             | None => mret (RESULT_OK, l)
             end);
  if negb (result_ok r) then give_up_loop l "msgsrvd: cannot take a timer, which a replica needs" else
  let l := loop_set_retention l (i32 (a_retain a))
             (if bool_decide (a_leader a = None) then i32 (a_replicas a) else 0) in
  '(r, l) ← (if 0 <? u16 (a_metrics_port a)
             then loop_set_metrics_port l (a_bind_ip a) (u16 (a_metrics_port a))
             else mret (RESULT_OK, l));
  if negb (result_ok r) then give_up_loop l "msgsrvd: cannot listen on the metrics port" else
  _ ← report_listening a l;
  run_loop passes scratch l.

(** The exit status and the log's last state; [None] is a server still
    running after [passes]. *)
Definition run_server (rounds passes : nat) (w0 : wal_t) (scratch : list byte) (dir : cstring)
    (a : args_t) : M K (option (Z * wal_t)) :=
  sse ← crc32c_available;
  if negb sse then _ ← out 2 (lines [no_sse]); mret (Some (1, w0)) else
  x ← wal_open session_from_record rounds w0 (dir ++ [Byte.x00]) (i64 (a_seg_size a)) scratch
        session_table_init;
  match x with
  | None => mret None
  | Some (r, w, info, sessions) =>
      if negb (result_ok r) then _ ← cannot_open dir; mret (Some (1, w)) else
      _ ← report_log dir info (st_count sessions);
      let mask := Z.lor (SIGMASK SIGINT) (SIGMASK SIGTERM) in
      r ← os_sigblock mask;
      '(r, sig_fd) ← (if negb (result_ok r) then mret (r, -1)
                      else os_signalfd mask (Z.lor SFD_CLOEXEC SFD_NONBLOCK) (-1));
      if negb (result_ok r) then
        _ ← out 2 (lines ["msgsrvd: cannot take a signal descriptor"%string]); out_wal w 1
      else
      match a_leader a with
      | Some leader =>
          match parse_addr leader with
          | None =>
              _ ← out 2 (lines ["msgsrvd: --leader wants an address like 192.0.2.13:7400"%string]);
              out_wal w 1
          | Some addr => start_loop passes scratch a addr sig_fd w sessions
          end
      | None => start_loop passes scratch a (0, 0) sig_fd w sessions
      end
  end.

(** ** The program *)

(** [selfcheck_run] is the program's own tests: whether one failed. *)
Definition main (selfcheck_run : M K bool) (rounds passes : nat) (w0 : wal_t) (scratch : list byte)
    (argv : list cstring) : M K (option Z) :=
  match parse_args (tail argv) args_default with
  | inl complaint => _ ← out_all 2 complaint; mret (Some 2)
  | inr a =>
      if a_selfcheck a then
        failed ← selfcheck_run;
        if (failed : bool) then _ ← out 2 (lines ["msgsrvd: self-check failed"%string]); mret (Some 1)
        else _ ← out 1 (lines ["msgsrvd: self-check passed"%string]); mret (Some 0)
      else
      match a_dir a with
      | None => _ ← out 2 usage; mret (Some 2)
      | Some dir =>
          if a_inspect a then inspect_log rounds w0 scratch dir (i64 (a_seg_size a))
          else fmap fst <$> run_server rounds passes w0 scratch dir a
      end
  end.

End main.

(** ** What an argument says *)

(** [s] is the number [v] in decimal, leading zeros allowed. *)
Definition number (s : cstring) (v : Z) : Prop := s ≠ [] ∧ Forall is_digit s ∧ dec_val 0 s = v.

(** Nothing that would continue a number. *)
Definition no_digit (s : cstring) : Prop := match s with c :: _ => ¬ is_digit c | [] => True end.

(** [s] is the address [ip] in dotted decimal. *)
Definition dotted (s : cstring) (ip : Z) : Prop :=
  ∃ s1 s2 s3 s4 v1 v2 v3 v4,
    s = s1 ++ point :: s2 ++ point :: s3 ++ point :: s4 ∧
    number s1 v1 ∧ number s2 v2 ∧ number s3 v3 ∧ number s4 v4 ∧
    v1 <= 255 ∧ v2 <= 255 ∧ v3 <= 255 ∧ v4 <= 255 ∧
    ip = ((v1 * 256 + v2) * 256 + v3) * 256 + v4.

Lemma is_digit_char_spec c : is_digit_char c = true ↔ is_digit c.
Proof. unfold is_digit_char, is_digit. rewrite andb_true_iff, !Z.leb_le. lia. Qed.

Lemma number_range s v : number s v → 0 <= v.
Proof. intros (_ & Hs & <-). by apply dec_val_grows. Qed.

(** A number that fits is read as it is; nothing that is not a number is
    read. *)
Lemma parse_loop_number s v :
  0 <= v → Forall is_digit s → dec_val v s < 2 ^ 64 → parse_u64_loop s v = Some (dec_val v s).
Proof.
  revert v. induction s as [|c s IH]; intros v Hv Hs Hm; [done|].
  inversion Hs as [|? ? Hc Hs']; subst. cbn [parse_u64_loop].
  rewrite (proj2 (is_digit_char_spec c) Hc). cbn [negb]. rewrite dec_val_cons in *.
  assert (0 <= digit_val c) by (unfold digit_val; unfold is_digit in Hc; lia).
  pose proof (dec_val_grows (v * 10 + digit_val c) s ltac:(lia) Hs').
  rewrite (proj2 (Z.ltb_ge _ _)) by (unfold UINT64_MAX; Z.div_mod_to_equations; lia).
  rewrite u64_id by lia. by apply IH; [lia|done|].
Qed.

Lemma parse_number s v : number s v → v < 2 ^ 64 → parse_u64 s = Some v.
Proof.
  intros (Hne & Hs & <-) Hv. unfold parse_u64. destruct s; [done|]. by apply parse_loop_number.
Qed.

Lemma parse_loop_digits s v w :
  parse_u64_loop s v = Some w → 0 <= v < 2 ^ 64 → Forall is_digit s ∧ 0 <= w < 2 ^ 64.
Proof.
  revert v. induction s as [|c s IH]; intros v; cbn [parse_u64_loop]; [intros [= ->]; auto|].
  destruct (is_digit_char c) eqn:Hc; cbn [negb]; [|done]. destruct (_ <? _); [done|].
  intros Hw Hv. destruct (IH _ Hw (u64_range _)). split; [|done].
  constructor; [by apply is_digit_char_spec|done].
Qed.

Lemma parse_u64_digits s v : parse_u64 s = Some v → Forall is_digit s ∧ 0 <= v < 2 ^ 64.
Proof. unfold parse_u64. destruct s; [done|]. intros Hv. by eapply parse_loop_digits. Qed.

Lemma octet_loop_number s rest v n :
  Forall is_digit s → 0 <= v → dec_val v s <= 255 → no_digit rest →
  octet_loop (s ++ rest) v n = Some (dec_val v s, n + zlen s, rest).
Proof.
  revert v n. induction s as [|c s IH]; intros v n Hs Hv Hm Hr; cbn [app octet_loop].
  - rewrite Z.add_0_r. destruct rest as [|c rest]; [done|]. cbn [octet_loop].
    destruct (is_digit_char c) eqn:Hc; [|done]. by apply is_digit_char_spec in Hc.
  - inversion Hs as [|? ? Hc Hs']; subst. rewrite (proj2 (is_digit_char_spec c) Hc).
    rewrite dec_val_cons in *.
    assert (0 <= digit_val c) by (unfold digit_val; unfold is_digit in Hc; lia).
    pose proof (dec_val_grows (v * 10 + digit_val c) s ltac:(lia) Hs').
    rewrite u32_id by lia. rewrite (proj2 (Z.ltb_ge _ _)) by lia. rewrite IH by (done || lia).
    replace (n + 1 + zlen s) with (n + zlen (c :: s)) by (cbn [length]; lia). done.
Qed.

Lemma octet_loop_reads s v n w m rest :
  octet_loop s v n = Some (w, m, rest) → 0 <= v <= 255 → ∃ t,
    s = t ++ rest ∧ Forall is_digit t ∧ w = dec_val v t ∧ w <= 255 ∧ m = n + zlen t ∧ no_digit rest.
Proof.
  revert v n. induction s as [|c s IH]; intros v n; cbn [octet_loop].
  { intros [= <- <- <-] Hv. exists []. cbn. split_and!; try done; lia. }
  destruct (is_digit_char c) eqn:Hc.
  - apply is_digit_char_spec in Hc as Hd. unfold is_digit in Hd.
    assert (0 <= digit_val c <= 9) by (unfold digit_val; lia).
    destruct (Z.ltb_spec 255 (u32 (v * 10 + digit_val c))) as [|Hle]; [done|]. intros Hw Hv.
    rewrite u32_id in Hw, Hle by lia.
    destruct (IH _ _ Hw) as (t & -> & Ht & -> & Hm & -> & Hr); [lia|].
    exists (c :: t). split_and!; try done; [by constructor|cbn [length]; lia].
  - intros [= <- <- <-] Hv. exists []. cbn. split_and!; try done; try lia.
    intros Hd. apply is_digit_char_spec in Hd. congruence.
Qed.

Lemma shift_octet ip v :
  0 <= ip < 2 ^ 24 → 0 <= v <= 255 → Z.lor (u32 (Z.shiftl ip 8)) v = ip * 256 + v.
Proof.
  intros Hip Hv. rewrite Z.shiftl_mul_pow2 by lia. change (2 ^ 8) with 256.
  rewrite u32_id by lia. symmetry. apply Z.add_nocarry_lor.
  apply Z.bits_inj'. intros n Hn. rewrite Z.land_spec, Z.bits_0.
  change 256 with (2 ^ 8). destruct (Z.ltb_spec n 8).
  - by rewrite Z.mul_pow2_bits_low by lia.
  - rewrite (Z.bits_above_log2 v n), andb_false_r; [done|lia|].
    destruct (decide (v = 0)) as [->|]; [cbn; lia|]. apply Z.log2_lt_pow2; [lia|].
    eapply Z.lt_le_trans with (2 ^ 8); [lia|]. by apply Z.pow_le_mono_r.
Qed.

(** [k] octets after [ip], joined by points. *)
Fixpoint octets (k : nat) (ip : Z) (s : cstring) (ip' : Z) : Prop :=
  match k with
  | O => s = [] ∧ ip' = ip
  | S k => ∃ t v, number t v ∧ v <= 255 ∧
      match k with
      | O => s = t ∧ ip' = ip * 256 + v
      | _ => ∃ s', s = t ++ point :: s' ∧ octets k (ip * 256 + v) s' ip'
      end
  end.

Lemma dotted_octets s ip : dotted s ip ↔ octets 4 0 s ip.
Proof.
  unfold dotted, octets. split.
  - intros (s1 & s2 & s3 & s4 & v1 & v2 & v3 & v4 & -> & H1 & H2 & H3 & H4 & L1 & L2 & L3 & L4 & ->).
    do 2 eexists. split; [exact H1|]. split; [done|]. eexists. split; [done|].
    do 2 eexists. split; [exact H2|]. split; [done|]. eexists. split; [done|].
    do 2 eexists. split; [exact H3|]. split; [done|]. eexists. split; [done|].
    do 2 eexists. split; [exact H4|]. split; [done|]. split; [done|]. lia.
  - intros (s1 & v1 & H1 & L1 & ? & -> & s2 & v2 & H2 & L2 & ? & -> & s3 & v3 & H3 & L3 & ? & -> &
      s4 & v4 & H4 & L4 & -> & ->).
    exists s1, s2, s3, s4, v1, v2, v3, v4. split_and!; try done; lia.
Qed.

Lemma point_no_digit s : no_digit (point :: s).
Proof. unfold no_digit, is_digit. vm_compute. intros [? ?]; congruence. Qed.

Lemma colon_no_digit s : no_digit (colon :: s).
Proof. unfold no_digit, is_digit. vm_compute. intros [? ?]; congruence. Qed.

Lemma octet_room k ip :
  (S k <= 4)%nat → 0 <= ip < 256 ^ (4 - Z.of_nat (S k)) →
  0 <= ip < 2 ^ 24 ∧ ∀ v, 0 <= v <= 255 → 0 <= ip * 256 + v < 256 ^ (4 - Z.of_nat k).
Proof.
  intros Hk [Hip Hm].
  assert (256 ^ (4 - Z.of_nat (S k)) <= 256 ^ 3) by (apply Z.pow_le_mono_r; lia).
  replace (4 - Z.of_nat k) with (Z.succ (4 - Z.of_nat (S k))) by lia. rewrite Z.pow_succ_r by lia.
  split; [change (2 ^ 24) with (256 ^ 3)|intros v Hv]; lia.
Qed.

Lemma parse_ip_octets k s rest ip ip' :
  octets k ip s ip' → (k <= 4)%nat → 0 <= ip < 256 ^ (4 - Z.of_nat k) → no_digit rest →
  parse_ip_loop k (s ++ rest) ip = Some (ip', rest).
Proof.
  revert ip s. induction k as [|k IH]; intros ip s; [by intros [-> ->]|].
  intros (t & v & Hn & Hv & Hs) Hk Hip Hr. pose proof (number_range _ _ Hn) as Hv0.
  destruct Hn as (Hne & Ht & <-). destruct (octet_room _ _ Hk Hip) as [Hip' Hnext]. cbn [parse_ip_loop].
  assert (∀ u, no_digit u → octet_loop (t ++ u) 0 0 = Some (dec_val 0 t, zlen t, u)) as Hoct.
  { intros u Hu. by rewrite octet_loop_number by (done || lia). }
  assert ((zlen t =? 0) = false) as Hz by (apply Z.eqb_neq; destruct t; [done|cbn [length]; lia]).
  destruct k as [|k].
  - destruct Hs as [-> ->]. rewrite Hoct, Hz, shift_octet by (done || lia). done.
  - destruct Hs as (s' & -> & Hs). rewrite <-app_assoc. cbn [app].
    rewrite Hoct, Hz, shift_octet by (apply point_no_digit || lia).
    rewrite bool_decide_eq_true_2 by done. apply IH; [done|lia|by apply Hnext|done].
Qed.

Lemma parse_ip_reads k s ip ip' rest :
  parse_ip_loop k s ip = Some (ip', rest) → (k <= 4)%nat → 0 <= ip < 256 ^ (4 - Z.of_nat k) →
  0 <= ip' < 2 ^ 32 ∧ ∃ t, s = t ++ rest ∧ octets k ip t ip' ∧ ((0 < k)%nat → no_digit rest).
Proof.
  revert ip s. induction k as [|k IH]; intros ip s.
  { intros [= <- <-] _ Hip. split; [done|]. exists []. split_and!; try done. lia. }
  cbn [parse_ip_loop]. destruct (octet_loop s 0 0) as [[[v m] s1]|] eqn:Ho; [|done].
  apply octet_loop_reads in Ho as (t & -> & Ht & -> & Hv & -> & Hr); [|lia].
  destruct (Z.eqb_spec (0 + zlen t) 0) as [|Hz]; [done|]. intros Hp Hk Hip.
  destruct (octet_room _ _ Hk Hip) as [Hip' Hnext].
  assert (number t (dec_val 0 t)) as Hn by (split_and!; [intros ->; by cbn in Hz|done..]).
  pose proof (number_range _ _ Hn). rewrite shift_octet in Hp by lia.
  specialize (Hnext (dec_val 0 t) ltac:(lia)). destruct k as [|k].
  - injection Hp as <- <-. split; [exact Hnext|]. exists t. split_and!; [done| |done].
    by exists t, (dec_val 0 t).
  - destruct s1 as [|c s1]; [done|]. destruct (bool_decide_reflect (c = point)) as [->|]; [|done].
    destruct (IH _ _ Hp) as (Hip2 & u & -> & Hu & Hr'); [lia|done|]. split; [done|].
    exists (t ++ point :: u). rewrite <-app_assoc. split_and!; [done| |intros _; apply Hr'; lia].
    exists t, (dec_val 0 t). split_and!; [done|done|]. by exists u.
Qed.

(** Addresses are read exactly as dotted decimals, and reading stops where
    the address does. *)
Lemma parse_ip_spec s ip rest :
  parse_ip s = Some (ip, rest) ↔ ∃ t, s = t ++ rest ∧ dotted t ip ∧ no_digit rest.
Proof.
  unfold parse_ip. split.
  - intros (_ & t & -> & Ht & Hr)%parse_ip_reads; [|lia|done].
    exists t. split_and!; [done|by apply dotted_octets|apply Hr; lia].
  - intros (t & -> & Ht%dotted_octets & Hr). by apply parse_ip_octets.
Qed.

Lemma parse_ip_range s ip rest : parse_ip s = Some (ip, rest) → 0 <= ip < 2 ^ 32.
Proof. intros Hp. eapply (parse_ip_reads 4 s 0); [exact Hp|lia|done]. Qed.

Lemma parse_addr_spec s port addr :
  parse_addr s = Some (port, addr) ↔ ∃ t ip q v,
    s = t ++ colon :: q ∧ dotted t ip ∧ parse_u64 q = Some v ∧ 0 < v <= 65535 ∧
    port = bswap16 v ∧ addr = bswap32 ip.
Proof.
  unfold parse_addr. split.
  - destruct (parse_ip s) as [[ip [|c s1]]|] eqn:Hp; [done| |done].
    destruct (bool_decide_reflect (c = colon)) as [->|]; cbn [negb]; [|done].
    destruct (parse_u64 s1) as [v|] eqn:Hv; [|done]. destruct (_ || _) eqn:Hb; [done|].
    intros [= <- <-]. apply parse_ip_spec in Hp as (t & -> & Ht & _).
    apply parse_u64_digits in Hv as Hr. exists t, ip, s1, v. split_and!; try done; zb; lia.
  - intros (t & ip & q & v & -> & Ht & Hv & Hr & -> & ->).
    rewrite (proj2 (parse_ip_spec (t ++ colon :: q) ip (colon :: q))).
    2: { exists t. split_and!; [done|done|apply colon_no_digit]. }
    rewrite bool_decide_eq_true_2 by done. cbn [negb]. rewrite Hv.
    rewrite (proj2 (Z.eqb_neq _ _)), (proj2 (Z.ltb_ge _ _)) by lia. done.
Qed.

(** ** Command lines *)

(** An option as it is meant. *)
Inductive setting :=
  | Dir (path : cstring) | Leader (text : cstring) | Bind (text : cstring) (ip : Z)
  | Port (n : Z) | SegmentSize (n : Z) | RetainSegments (n : Z) | Replicas (n : Z)
  | MetricsPort (n : Z) | Selfcheck | Inspect.

(** [ws] are the words that ask for it. *)
Definition asks (o : setting) (ws : list cstring) : Prop :=
  match o with
  | Dir p => ws = [txt "--dir"; p]
  | Leader t => ws = [txt "--leader"; t]
  | Bind t ip => ws = [txt "--bind"; t] ∧ dotted t ip
  | Port n => ∃ t, ws = [txt "--port"; t] ∧ number t n ∧ n <= 65535
  | SegmentSize n => ∃ t, ws = [txt "--segment-size"; t] ∧ number t n ∧ WAL_REC_MAX_SIZE <= n < 2 ^ 64
  | RetainSegments n => ∃ t, ws = [txt "--retain-segments"; t] ∧ number t n ∧ n <= WAL_MAX_SEGMENTS
  | Replicas n => ∃ t, ws = [txt "--replicas"; t] ∧ number t n ∧ n <= Z.of_nat LOOP_MAX_REPLICAS
  | MetricsPort n => ∃ t, ws = [txt "--metrics-port"; t] ∧ number t n ∧ n <= 65535
  | Selfcheck => ws = [txt "--selfcheck"]
  | Inspect => ws = [txt "--inspect"]
  end.

(** What it sets. *)
Definition sets (a : args_t) (o : setting) : args_t :=
  match o with
  | Dir p => a <| a_dir := Some p |>
  | Leader t => a <| a_leader := Some t |>
  | Bind t ip => a <| a_bind_text := t |> <| a_bind_ip := ip |>
  | Port n => a <| a_port := n |>
  | SegmentSize n => a <| a_seg_size := n |>
  | RetainSegments n => a <| a_retain := n |>
  | Replicas n => a <| a_replicas := n |>
  | MetricsPort n => a <| a_metrics_port := n |>
  | Selfcheck => a <| a_selfcheck := true |>
  | Inspect => a <| a_inspect := true |>
  end.

(** The settings the server can be run with. *)
Record args_ok (a : args_t) : Prop := {
  ao_port : 0 <= a_port a <= 65535;
  ao_seg : WAL_REC_MAX_SIZE <= a_seg_size a < 2 ^ 64;
  ao_retain : 0 <= a_retain a <= WAL_MAX_SEGMENTS;
  ao_replicas : 0 <= a_replicas a <= Z.of_nat LOOP_MAX_REPLICAS;
  ao_metrics : 0 <= a_metrics_port a <= 65535;
  ao_bind : ∃ t rest, a_bind_text a = t ++ rest ∧ dotted t (a_bind_ip a);
  ao_ip : 0 <= a_bind_ip a < 2 ^ 32 }.

Lemma str_eq_spec a b : str_eq a b = bool_decide (a = b).
Proof.
  revert b. induction a as [|x a IH]; intros [|y b]; cbn; try done.
  rewrite IH. case_bool_decide as Hxy; repeat case_bool_decide; naive_solver.
Qed.

Lemma str_eq_txt s1 s2 : str_eq (txt s1) (txt s2) = String.eqb s1 s2.
Proof.
  rewrite str_eq_spec. destruct (String.eqb_spec s1 s2) as [->|Hne]; [by apply bool_decide_eq_true|].
  apply bool_decide_eq_false. intros E. apply Hne. apply (f_equal string_of_list_byte) in E.
  by rewrite !string_of_list_byte_of_string in E.
Qed.

Ltac flags :=
  cbn [app parse_args]; unfold needs_value, value_flags; cbn [existsb]; rewrite !str_eq_txt;
  cbv beta iota delta [String.eqb Ascii.eqb Bool.eqb orb andb]; rewrite ?bool_decide_eq_false_2 by done.

Lemma parse_upto_number t n m : number t n → n <= m < 2 ^ 64 → parse_upto m t = Some n.
Proof.
  intros Hn Hm. unfold parse_upto. rewrite (parse_number t n) by (done || lia).
  by rewrite (proj2 (Z.ltb_ge _ _)) by lia.
Qed.

Lemma parse_setting o ws rest a :
  asks o ws → parse_args (ws ++ rest) a = parse_args rest (sets a o).
Proof.
  destruct o; cbn [asks].
  1,2,9,10: intros ->; flags; done.
  1: { intros [-> Hd]. flags.
       rewrite (proj2 (parse_ip_spec text ip [])); [done|]. exists text. by rewrite app_nil_r. }
  all: intros (t & -> & Hn & Hm); flags.
  2: { rewrite (parse_number t n) by (done || lia). by rewrite (proj2 (Z.ltb_ge _ _)) by lia. }
  all: by rewrite (parse_upto_number t n) by (done || vm_compute; done).
Qed.

Lemma parse_upto_range m s v : parse_upto m s = Some v → 0 <= v <= m.
Proof.
  unfold parse_upto. destruct (parse_u64 s) as [w|] eqn:Hw; [|done].
  destruct (Z.ltb_spec m w); [done|]. intros [= <-]. apply parse_u64_digits in Hw. lia.
Qed.

Lemma parse_args_ok n argv a b :
  (length argv <= n)%nat → args_ok a → parse_args argv a = inr b → args_ok b.
Proof.
  revert argv a. induction n as [|n IH]; intros [|arg rest] a Hl Ha; cbn [length] in Hl; try lia;
    try (by intros [= <-]). cbn [parse_args].
  destruct (_ && _); [done|].
  destruct (str_eq arg (txt "--selfcheck")); [apply IH; [lia|by destruct Ha]|].
  destruct (str_eq arg (txt "--inspect")); [apply IH; [lia|by destruct Ha]|].
  destruct rest as [|v rest]; [done|]. cbn [length] in Hl.
  assert (∀ o, args_ok (sets a o) → parse_args rest (sets a o) = inr b → args_ok b) as Hgo
    by (intros o Ho; apply IH; [lia|done]). clear IH.
  destruct (str_eq arg (txt "--dir")); [apply (Hgo (Dir v)); by destruct Ha|].
  destruct (str_eq arg (txt "--port")).
  { destruct (parse_upto _ v) as [m|] eqn:Hm; [|done]. apply parse_upto_range in Hm.
    apply (Hgo (Port m)); by destruct Ha. }
  destruct (str_eq arg (txt "--bind")).
  { destruct (parse_ip v) as [[ip r]|] eqn:Hp; [|done]. apply (Hgo (Bind v ip)).
    destruct Ha. constructor; try done; [|by eapply parse_ip_range].
    apply parse_ip_spec in Hp as (t & ? & ? & _). by exists t, r. }
  destruct (str_eq arg (txt "--leader")); [apply (Hgo (Leader v)); by destruct Ha|].
  destruct (str_eq arg (txt "--retain-segments")).
  { destruct (parse_upto _ v) as [m|] eqn:Hm; [|done]. apply parse_upto_range in Hm.
    apply (Hgo (RetainSegments m)); by destruct Ha. }
  destruct (str_eq arg (txt "--replicas")).
  { destruct (parse_upto _ v) as [m|] eqn:Hm; [|done]. apply parse_upto_range in Hm.
    apply (Hgo (Replicas m)); by destruct Ha. }
  destruct (str_eq arg (txt "--metrics-port")).
  { destruct (parse_upto _ v) as [m|] eqn:Hm; [|done]. apply parse_upto_range in Hm.
    apply (Hgo (MetricsPort m)); by destruct Ha. }
  destruct (str_eq arg (txt "--segment-size")); [|done].
  destruct (parse_u64 v) as [m|] eqn:Hm; [|done]. apply parse_u64_digits in Hm as [_ Hm].
  destruct (Z.ltb_spec m WAL_REC_MAX_SIZE) as [|Hw]; [done|].
  apply (Hgo (SegmentSize m)). destruct Ha. constructor; cbn; try done; lia.
Qed.

Lemma number_decimal v : 0 <= v < 2 ^ 64 → number (decimal v) v.
Proof.
  intros Hv. split_and!; [|by apply decimal_digits|by apply decimal_val].
  unfold decimal. pose proof (digits_rev_nonempty v) as Hl. intros E.
  apply (f_equal length) in E. rewrite length_reverse in E. cbn [length] in E. lia.
Qed.

(** Four numbers and three points. *)
Lemma dotted_decimal a b c d :
  0 <= a <= 255 → 0 <= b <= 255 → 0 <= c <= 255 → 0 <= d <= 255 →
  dotted (decimal a ++ point :: decimal b ++ point :: decimal c ++ point :: decimal d)
    (((a * 256 + b) * 256 + c) * 256 + d).
Proof.
  intros. eexists _, _, _, _, a, b, c, d. split; [done|].
  do 4 (split; [apply number_decimal; lia|]). split_and!; lia.
Qed.

Lemma default_ok : args_ok args_default.
Proof.
  constructor; try (by vm_compute). exists (txt "127.0.0.1"), []. split; [done|].
  exact (dotted_decimal 127 0 0 1 ltac:(lia) ltac:(lia) ltac:(lia) ltac:(lia)).
Qed.

(** What [out_u64] prints is the decimal. *)
Lemma digits_of_rev fuel v :
  0 < v → digits_of fuel v = digits_rev fuel v.
Proof.
  revert v. induction fuel as [|fuel IH]; intros v Hv; [done|]. cbn [digits_of digits_rev].
  rewrite (proj2 (Z.ltb_lt _ _)) by done. f_equal. destruct (Z.ltb_spec 0 (v / 10)); [by apply IH|].
  destruct fuel as [|fuel]; [done|]. cbn [digits_of]. by rewrite (proj2 (Z.ltb_ge _ _)).
Qed.

Lemma out_u64_decimal {K} `{Sys K} fd v :
  0 <= v → out_u64 fd v = out_all fd ((λ c, [c]) <$> decimal v).
Proof.
  intros Hv. unfold out_u64, decimal. destruct (Z.eqb_spec v 0) as [->|]; [done|].
  by rewrite digits_of_rev by lia.
Qed.

(** ** Properties *)

Module MainProps.

(** C34. The command line means what it says: any sequence of well-formed
    options is accepted, and what the server runs with are the defaults with
    each option's setting put in, in the order given; numbers and addresses
    are the ones written. *)
Theorem options_are_read (os : list setting) (words : list (list cstring)) (a : args_t)
    (Hask : Forall2 asks os words) :
  parse_args (concat words) a = inr (foldl sets a os).
Proof.
  revert a. induction Hask as [|o ws os words Ho Hask IH]; intros a; [done|].
  cbn [concat foldl]. rewrite (parse_setting o ws _ a Ho). apply IH.
Qed.

Lemma options_are_read_witness :
  Forall2 asks [Dir (txt "log"); Port 9000; SegmentSize 2097152; Inspect]
    [[txt "--dir"; txt "log"]; [txt "--port"; decimal 9000];
     [txt "--segment-size"; decimal 2097152]; [txt "--inspect"]] ∧
  parse_args [txt "--dir"; txt "log"; txt "--port"; txt "9000"; txt "--segment-size"; txt "2097152";
              txt "--inspect"] args_default
    = inr (foldl sets args_default [Dir (txt "log"); Port 9000; SegmentSize 2097152; Inspect]).
Proof.
  assert (Forall2 asks [Dir (txt "log"); Port 9000; SegmentSize 2097152; Inspect]
    [[txt "--dir"; txt "log"]; [txt "--port"; decimal 9000];
     [txt "--segment-size"; decimal 2097152]; [txt "--inspect"]]) as Hask.
  { apply Forall2_cons_2; [reflexivity|]. apply Forall2_cons_2.
    { eexists. split; [reflexivity|]. split; [by apply number_decimal|by vm_compute]. }
    apply Forall2_cons_2.
    { eexists. split; [reflexivity|]. split; [by apply number_decimal|by vm_compute]. }
    apply Forall2_cons_2; [reflexivity|apply Forall2_nil_2]. }
  split; [exact Hask|].
  exact (options_are_read _ _ args_default Hask).
Defined.

(** C35. Whatever the command line, the settings it yields are in range: the
    narrowing casts of the ports, the retention and the replica count in front
    of [run_server] keep their values, and the address the server binds is the
    one its text starts with.  The cast of the segment size keeps it below
    2^63; a larger one, which the parser takes as well, turns negative, and no
    log is opened with it: [wal_open] refuses it before it calls the system. *)
Theorem settings_in_range (argv : list cstring) (a : args_t)
    (Hargs : parse_args argv args_default = inr a) :
  args_ok a ∧ u16 (a_port a) = a_port a ∧ i32 (a_retain a) = a_retain a ∧
  i32 (a_replicas a) = a_replicas a ∧ u16 (a_metrics_port a) = a_metrics_port a ∧
  (if a_seg_size a <? 2 ^ 63 then i64 (a_seg_size a) = a_seg_size a
   else i64 (a_seg_size a) < 0 ∧
     ∀ (K C : Type) (H : Sys K) (upd : C → wal_rec_t → C) rounds w0 dir scratch ctx (k : K),
       wal_open upd rounds w0 dir (i64 (a_seg_size a)) scratch ctx k
         = (Some (RESULT_ERR ERR_INVALID 0, w0, Opened 0 false false 0 0 0, ctx), k)).
Proof.
  assert (args_ok a) as Ha by (by eapply parse_args_ok, Hargs; [|apply default_ok]).
  destruct (Ha) as [Hp Hseg Hr Hn Hm _ _]. split; [done|].
  assert (WAL_MAX_SEGMENTS < 2 ^ 31) by (by vm_compute).
  assert (Z.of_nat LOOP_MAX_REPLICAS < 2 ^ 31) by (by vm_compute).
  rewrite !u16_id, !i32_id by lia. split_and!; try done. assert (0 < WAL_REC_MAX_SIZE) by (by vm_compute).
  destruct (Z.ltb_spec (a_seg_size a) (2 ^ 63)) as [Hs|Hs]; [by apply i64_id; lia|].
  pose proof (i64_negative (a_seg_size a) ltac:(lia)) as Hneg. split; [done|]. intros. by apply wal_open_refuses; lia.
Qed.

Lemma settings_in_range_witness :
  parse_args [txt "--port"; txt "0065535"; txt "--bind"; txt "10.0.0.7"] args_default
    = inr (args_default <| a_port := 65535 |> <| a_bind_text := txt "10.0.0.7" |>
                        <| a_bind_ip := 0x0A000007 |>) ∧
  args_ok (args_default <| a_port := 65535 |> <| a_bind_text := txt "10.0.0.7" |>
                        <| a_bind_ip := 0x0A000007 |>) ∧
  i64 (a_seg_size (args_default <| a_seg_size := 2 ^ 63 |>)) < 0.
Proof.
  split; [vm_compute; reflexivity|]. split.
  - exact (proj1 (settings_in_range [txt "--port"; txt "0065535"; txt "--bind"; txt "10.0.0.7"] _
      ltac:(vm_compute; reflexivity))).
  - refine (proj1 (proj2 (proj2 (proj2 (proj2 (proj2
      (settings_in_range [txt "--segment-size"; txt "9223372036854775808"] (args_default <| a_seg_size := 2 ^ 63 |>) _))))))).
    vm_compute. reflexivity.
Defined.

(** A leader's address is read exactly when it is an address in dotted
    decimal, a colon and a port that parses to 1 to 65535; what comes out is
    that port and that address in network order. *)
Theorem leader_address_read (s : cstring) (port addr : Z) :
  parse_addr s = Some (port, addr) ↔ ∃ t ip q v,
    s = t ++ colon :: q ∧ dotted t ip ∧ parse_u64 q = Some v ∧ 0 < v <= 65535 ∧
    port = bswap16 v ∧ addr = bswap32 ip.
Proof. apply parse_addr_spec. Qed.

End MainProps.

Module MainFindings.

(** A number one above the largest is read as zero, and so a size or a port
    given wrongly does become a different one. *)
Lemma number_wraps :
  parse_u64 (txt "18446744073709551616") = Some 0 ∧
  parse_addr (txt "10.0.0.7:18446744073709551617") = parse_addr (txt "10.0.0.7:1").
Proof. split; vm_compute; reflexivity. Qed.

(** What follows the address of [--bind] is not looked at. *)
Lemma bind_takes_trailing_text :
  (λ a, a_bind_ip a) <$> match parse_args [txt "--bind"; txt "10.0.0.7:8000 and more"] args_default with
                         | inr a => Some a | inl _ => None end = Some 0x0A000007.
Proof. vm_compute. reflexivity. Qed.

End MainFindings.
