(* ===== verification/MainFacts.v ===== *)
(** * From start to stop

    What the program does around its loop: [--inspect] leaves a log as it
    found it, a wrong command line touches nothing, and a leader that stops
    by itself has flushed everything it ever took. *)

From Stdlib Require Import String.
From S2P Require Import Prelude Core Crc32c Fmt Msg Conn Record Index Os Session Segment Wal Cursor.
From S2P Require Import Reopen LoopState LoopFrames LoopServe Metrics LoopTick LoopSpec LoopFacts Main.

Open Scope Z_scope.

(** The standard streams are open, and neither is a file of the log. *)
Definition std_open (v : fsys) : Prop := f_fds v !! 1 = Some FOther ∧ f_fds v !! 2 = Some FOther.

(** A computation that only speaks on the standard streams. *)
Definition quiet {K A} `{SysLaws K} (m : M K A) : Prop :=
  ∀ k, std_open (view k) → wp m (λ _ k', view k' = view k) k.

Create HintDb quiet.

Section quiet.
Context {K : Type} `{SysLaws K}.

Lemma quiet_ret {A} (x : A) : quiet (mret x).
Proof. intros k _. by apply wp_ret. Qed.

Lemma quiet_bind {A B} (m : M K A) (f : A → M K B) : quiet m → (∀ x, quiet (f x)) → quiet (m ≫= f).
Proof.
  intros Hm Hf k Hk. eapply wp_call; [by apply Hm|]. cbv beta. intros x k1 Hv.
  eapply wp_mono; [apply Hf; by rewrite Hv|]. cbv beta. intros ? ? ->. done.
Qed.

Lemma quiet_if {A} (b : bool) (m1 m2 : M K A) : quiet m1 → quiet m2 → quiet (if b then m1 else m2).
Proof. by destruct b. Qed.

Lemma quiet_out fd s : fd = 1 ∨ fd = 2 → quiet (out fd s).
Proof.
  intros Hfd k [H1 H2]. unfold out, os_write_raw. call law_write as r k1 Hv.
  - intros ino. destruct Hfd as [-> | ->]; congruence.
  - by apply wp_ret.
Qed.

Lemma quiet_all fd ss : fd = 1 ∨ fd = 2 → quiet (out_all fd ss).
Proof.
  intros Hfd. induction ss as [|s ss IH]; [apply quiet_ret|].
  apply quiet_bind; [by apply quiet_out|intros _; exact IH].
Qed.

End quiet.

#[export] Hint Resolve quiet_ret quiet_out quiet_all : quiet.
#[export] Hint Extern 1 (_ = _ ∨ _ = _) => (left; reflexivity) || (right; reflexivity) : quiet.
#[export] Hint Extern 2 (quiet (_ ≫= _)) => (apply quiet_bind; [|intros ?]) : quiet.
#[export] Hint Extern 2 (quiet (if _ then _ else _)) => apply quiet_if : quiet.
#[export] Hint Extern 3 (quiet (say_text _ _)) => unfold say_text : quiet.
#[export] Hint Extern 3 (quiet (out_u64 _ _)) => unfold out_u64 : quiet.

Section reports.
Context {K : Type} `{SysLaws K}.

Lemma quiet_report_log dir info n : quiet (report_log dir info n).
Proof. unfold report_log. eauto 40 with quiet. Qed.

Lemma quiet_report_keys ks : quiet (report_keys ks).
Proof. induction ks as [|x ks IH]; cbn [report_keys]; eauto 30 with quiet. Qed.

Lemma quiet_cannot_open dir : quiet (cannot_open dir).
Proof. unfold cannot_open. eauto 20 with quiet. Qed.

End reports.

#[export] Hint Resolve quiet_report_log quiet_report_keys quiet_cannot_open : quiet.

(** ** The log that is looked at and left *)

Section inspect.
Context {K : Type} `{SysLaws K}.

Lemma holding_std v d fd ino v' : std_open v → holding v d fd ino v' → std_open v'.
Proof.
  intros [H1 H2] (v1 & [[_ Hd] [todo ->]] & [_ Hf] & ->). unfold std_open. cbn in *.
  assert (∀ n, f_fds v !! n = Some FOther →
    <[fd:=FFile ino]> (<[d:=FDir todo]> (f_fds v)) !! n = Some FOther) as Hn.
  { intros n Hn. destruct (decide (fd = n)) as [->|].
    - rewrite lookup_insert_ne in Hf by (intros ->; congruence). congruence.
    - rewrite lookup_insert_ne by done. by rewrite lookup_insert_ne by (intros ->; congruence). }
  split; by apply Hn.
Qed.

(** Closing an opened log leaves what was there before it was opened. *)
Lemma wp_close_holding v w ino (k : K) :
  holding v (wl_dir_fd w) (g_fd (wl_active w)) ino (view k) →
  wp (wal_close w) (λ _ k', view k' = v) k.
Proof.
  intros Hh. destruct (holding_fds _ _ _ _ _ Hh) as (Hfd & _).
  pose proof (holding_closed _ _ _ _ _ Hh) as Ho. destruct (Ho) as [[Hd _] _].
  unfold wal_close, wal_seg_close.
  rewrite (proj2 (Z.leb_le _ _)) by done. rewrite (proj2 (Z.ltb_ge _ _)) by done.
  apply wp_bind. apply wp_bind. call wp_os_close as r k1 Hv1. apply wp_ret. apply wp_ret.
  cbn [wl_dir_fd]. change (wl_dir_fd (w <| wl_active := _ |>)) with (wl_dir_fd w).
  rewrite (proj2 (Z.leb_le _ _)) by lia. call wp_os_close as r2 k2 Hv2. apply wp_ret.
  unfold close_spec in *. rewrite Hv2, Hv1. by apply opened_closed in Ho.
Qed.

Lemma wp_inspect rounds w0 scratch dir cap segs base es why (k : K) :
  stored_log (view k) cap (zlen scratch) segs base es why → std_open (view k) →
  (size (f_names (view k)) + 2 < rounds)%nat →
  wp (inspect_log rounds w0 scratch dir cap) (λ x k', view k' = view k ∧ (x = Some 0 ∨ x = Some 1)) k.
Proof.
  intros S Hstd Hr. unfold inspect_log, crc32c_available. apply wp_bind.
  call law_cpuid as [[[a b] c] e] k1 Hv1. apply wp_ret.
  assert (∀ rc k2 (m : M K unit), view k2 = view k → quiet m → rc = 0 ∨ rc = 1 →
    wp (_ ← m; mret (Some rc)) (λ x k', view k' = view k ∧ (x = Some 0 ∨ x = Some 1)) k2) as Hend.
  { intros rc k2 m Hv Hq Hrc. eapply wp_call; [apply Hq; by rewrite Hv|]. cbv beta. intros ? k3 Hv3.
    apply wp_ret. split; [congruence|]. destruct Hrc as [-> | ->]; auto. }
  destruct (negb (negb _)); [apply Hend; [done|auto with quiet|by right]|].
  rewrite <-Hv1 in S, Hstd, Hr, Hend |- *.
  call (wp_wal_open session_from_record rounds) as x k2 (y & -> & Hy); [done..|].
  destruct y as [[[r w] info] sessions]. cbn [fst snd] in Hy.
  destruct (result_ok r); cbn [negb]; [|apply Hend; [apply Hy|apply quiet_cannot_open|by right]].
  destruct Hy as ((ino & ? & Hh & _) & _). pose proof (holding_std _ _ _ _ _ Hstd Hh) as Hstd2.
  eapply wp_call; [by apply quiet_report_log|]. cbv beta. intros ? k3 Hv3.
  eapply wp_call; [apply quiet_report_keys; by rewrite Hv3|]. cbv beta. intros ? k4 Hv4.
  eapply (wp_call _ (λ _ k', view k' = view k4)).
  { assert (std_open (view k4)) as Hs4 by (by rewrite Hv4, Hv3).
    match goal with |- wp ?m _ _ => assert (quiet m) as Hq by eauto 20 with quiet end.
    by apply Hq. }
  cbv beta. intros ? k5 Hv5. rewrite <-Hv3, <-Hv4, <-Hv5 in Hh.
  eapply wp_call; [by eapply wp_close_holding|]. cbv beta. intros ? k6 Hv6. apply wp_ret. auto.
Qed.

End inspect.

(** ** A leader, from its start to its stop *)

Section serve.
Context {K : Type} `{SysLaws K}.

Lemma log_sane v w es :
  is_log v w es → wal_durable_seq w = wal_next_seq w - 1 → wal_sane w.
Proof.
  intros (segs & a & b & ino & i & L & _) Hd. destruct (wg_seg _ _ _ _ _ _ _ L).
  constructor; unfold wal_next_seq, wal_durable_seq in *; [lia|lia| |done].
  rewrite sf_synced, sf_write, log_bytes_app, length_app. lia.
Qed.

(** The loop as it is set up is a leader that owes nothing. *)
Lemma zero_at_rest w t :
  wal_sane w → wal_durable_seq w = wal_next_seq w - 1 → at_rest (loop_zero w t).
Proof.
  intros Hw Hd.
  assert (∀ i c, l_conns (loop_zero w t) !! i = Some c →
    (i < LOOP_MAX_CONNS)%nat ∧ c = slot_free (zeros LOOP_RECV_CAP)) as Hc.
  { intros i c [-> ?]%lookup_replicate. done. }
  constructor; [split; [constructor|]|]; try done.
  - intros i c Hi. by apply (Hc i c).
  - intros i c Hi. by destruct (Hc i c Hi) as [_ ->].
  - intros i c Hi _. by destruct (Hc i c Hi) as [_ ->].
Qed.

Lemma wp_loop_init w t ip port (k : K) :
  wp (loop_init w t ip port) (λ x _, keeps (loop_zero w t) x.2) k.
Proof.
  unfold loop_init. cbv zeta. eapply wp_call; [apply wp_any|intros [r epfd] k1 _].
  destruct (negb _); [apply wp_ret; by apply keeps_same|].
  eapply wp_call; [apply wp_any|intros [r2 fd] k2 _].
  destruct (negb _); [eapply wp_call; [apply wp_any|intros ? k3 _]; apply wp_ret; by apply keeps_same|].
  eapply wp_call; [apply wp_any|intros [r4 bound] k4 _].
  destruct (negb _); [|apply wp_ret; by apply keeps_same].
  do 2 (eapply wp_call; [apply wp_any|intros ? ? _]). apply wp_ret. by apply keeps_same.
Qed.

Lemma wp_set_metrics l0 l ip port (k : K) :
  keeps l0 l → wp (loop_set_metrics_port l ip port) (λ x _, keeps l0 x.2) k.
Proof.
  intros Hk. assert (∀ l', keeps l l' → keeps l0 l') as Hk' by (intros l' ?; by etrans).
  unfold loop_set_metrics_port. eapply wp_call; [apply wp_any|intros [r fd] k1 _].
  destruct (negb _); [apply wp_ret; apply Hk'; by apply keeps_same|].
  eapply wp_call; [apply wp_any|intros [r4 bound] k4 _].
  destruct (negb _); [|apply wp_ret; apply Hk'; by apply keeps_same].
  eapply wp_call; [apply wp_any|intros ? ? _]. apply wp_ret. apply Hk'; by apply keeps_same.
Qed.

Lemma wp_shut_slots todo l (k : K) : wp (shut_slots todo l) (λ l' _, l_wal l' = l_wal l) k.
Proof.
  revert l k. induction todo as [|i todo IH]; intros l k; [by apply wp_ret|]. cbn [shut_slots].
  eapply (wp_call _ (λ l' _, l_wal l' = l_wal l)).
  - destruct (_ && _); [|by apply wp_ret]. eapply wp_call; [apply wp_any|intros ? ? _]. by apply wp_ret.
  - cbv beta. intros l1 k1 E. eapply wp_mono; [apply IH|]. cbv beta. intros ? ? ->. done.
Qed.

Lemma wp_shutdown l (k : K) : wp (loop_shutdown l) (λ l' _, l_wal l' = l_wal l) k.
Proof.
  unfold loop_shutdown. cbv zeta. do 2 (eapply wp_call; [apply wp_any|intros ? ? _]).
  eapply wp_call; [apply wp_shut_slots|]. cbv beta. intros l1 k1 E.
  do 6 (eapply wp_call; [apply wp_any|intros ? ? _]). by apply wp_ret.
Qed.

Lemma wp_out_wal w rc (k : K) :
  wp (out_wal w rc) (λ x _, ∃ w', x = Some (rc, w') ∧ wal_next_seq w' = wal_next_seq w ∧
    wal_durable_seq w' = wal_durable_seq w) k.
Proof.
  set (same := λ w' : wal_t, wal_next_seq w' = wal_next_seq w ∧ wal_durable_seq w' = wal_durable_seq w).
  unfold out_wal, wal_close, wal_seg_close. eapply (wp_call _ (λ x _, same x.2)).
  2: { cbv beta. intros [r w'] k1 [E1 E2]. apply wp_ret. by exists w'. }
  eapply (wp_call _ (λ x _, same x.2)).
  - destruct (0 <=? _); [|by apply wp_ret]. destruct (_ <? 0); [by apply wp_bind, wp_ret, wp_ret|].
    apply wp_bind. eapply wp_call; [apply wp_any|intros ? ? _]. by apply wp_ret, wp_ret.
  - cbv beta. intros [r w'] k1 Hw. destruct (0 <=? _); [|by apply wp_ret].
    eapply wp_call; [apply wp_any|intros ? ? _]. by apply wp_ret.
Qed.

(** What a finished server must have done, from sequence [n] on: status 0
    only with its log flushed. *)
Definition stopped (n : Z) (x : option (Z * wal_t)) : Prop :=
  ∀ w, x = Some (0, w) → wal_durable_seq w = wal_next_seq w - 1 ∧ n <= wal_next_seq w.

Lemma wp_give_up n l why (k : K) : wp (give_up_loop l why) (λ x _, stopped n x) k.
Proof.
  unfold give_up_loop. do 2 (eapply wp_call; [apply wp_any|intros ? ? _]).
  eapply wp_mono; [apply wp_out_wal|]. cbv beta. intros y k1 (w & -> & _) w' [=].
Qed.

Lemma wp_fail n w (k : K) : wp (out_wal w 1) (λ x _, stopped n x) k.
Proof. eapply wp_mono; [apply wp_out_wal|]. cbv beta. intros x k1 (w1 & -> & _) w' [=]. Qed.

Lemma wp_run_loop passes scratch l (k : K) :
  at_rest l → wal_next_seq (l_wal l) + Z.of_nat passes * PASS_RECORDS < 2 ^ 64 →
  wp (run_loop passes scratch l) (λ x _, stopped (wal_next_seq (l_wal l)) x) k.
Proof.
  intros Hr Hn. unfold run_loop. eapply wp_call; [by apply wp_run_rest|]. cbv beta.
  intros [[r l1]|] k1 Hx; [|apply wp_ret; intros w [=]]. specialize (Hx r l1 eq_refl).
  destruct (result_ok r) eqn:Hok; cbn [negb]; [|apply wp_give_up].
  destruct Hx as [Hr1 Hn1]; [done|]. eapply wp_call; [apply wp_shutdown|]. cbv beta. intros l2 k2 E.
  call wp_sync_sane as [r3 w3] k3 (_ & En & _ & Hd & _); [rewrite E; apply Hr1|]. cbn [fst snd] in *.
  destruct (result_ok r3) eqn:Hr3; cbn [negb].
  2: { eapply wp_call; [apply wp_any|intros ? ? _]. apply wp_fail. }
  do 3 (eapply wp_call; [apply wp_any|intros ? ? _]).
  eapply wp_mono; [apply wp_out_wal|]. cbv beta. intros y k4 (w & -> & Ew & Ed) w' [= <-].
  rewrite Ew, Ed, En, E. split; [rewrite Hd, E by done; done|lia].
Qed.

Lemma wp_start_loop passes scratch a addr sig_fd w t (k : K) :
  a_leader a = None → wal_sane w → wal_durable_seq w = wal_next_seq w - 1 →
  wal_next_seq w + Z.of_nat passes * PASS_RECORDS < 2 ^ 64 →
  wp (start_loop passes scratch a addr sig_fd w t) (λ x _, stopped (wal_next_seq w) x) k.
Proof.
  intros Hl Hw Hd Hn. unfold start_loop. rewrite Hl.
  eapply wp_call; [apply wp_loop_init|]. cbv beta. intros [r l1] k1 H1. cbn [snd] in H1.
  destruct (negb _).
  { do 2 (eapply wp_call; [apply wp_any|intros ? ? _]). apply wp_fail. }
  eapply (wp_call _ (λ l' _, keeps (loop_zero w t) l')).
  { unfold loop_set_signal_fd. cbv zeta. eapply wp_call; [apply wp_any|intros ? ? _]. apply wp_ret.
    etrans; [exact H1|]. by apply keeps_same. }
  cbv beta. intros l2 k2 H2. apply wp_bind, wp_ret. cbn [negb result_ok r_code RESULT_OK Z.eqb].
  assert (∀ r1 r2, keeps (loop_zero w t) (loop_set_retention l2 r1 r2)) as Hret.
  { intros r1 r2. etrans; [exact H2|]. by apply keeps_same. }
  eapply (wp_call _ (λ x _, keeps (loop_zero w t) x.2)).
  { destruct (_ <? _); [apply wp_set_metrics, Hret|apply wp_ret, Hret]. }
  cbv beta. intros [r3 l3] k3 H3. cbn [snd] in H3.
  destruct (negb _); [apply wp_give_up|]. eapply wp_call; [apply wp_any|intros ? ? _].
  pose proof (keeps_next _ _ H3) as En. change (l_wal (loop_zero w t)) with w in En.
  rewrite <-En in Hn |- *. apply wp_run_loop; [|done]. eapply keeps_rest; [exact H3|].
  rewrite En in Hn. by apply zero_at_rest.
Qed.

Lemma wp_run_server rounds passes w0 scratch dir a segs base es why (k : K) :
  stored_log (view k) (i64 (a_seg_size a)) (zlen scratch) segs base es why →
  (size (f_names (view k)) + 2 < rounds)%nat → a_leader a = None →
  base + zlen es + Z.of_nat passes * PASS_RECORDS < 2 ^ 64 →
  wp (run_server rounds passes w0 scratch dir a) (λ x _, stopped (base + zlen es) x) k.
Proof.
  intros S Hr Hl Hn. unfold run_server, crc32c_available. apply wp_bind.
  call law_cpuid as [[[xa b] c] e] k1 Hv1. apply wp_ret.
  destruct (negb (negb _)).
  { eapply wp_call; [apply wp_any|intros ? ? _]. apply wp_ret. intros w [=]. }
  rewrite <-Hv1 in S, Hr.
  call (wp_wal_open session_from_record rounds) as x k2 (y & -> & Hy); [done..|].
  destruct y as [[[r w] info] sessions]. cbn [fst snd] in Hy.
  destruct (result_ok r); cbn [negb].
  2: { eapply wp_call; [apply wp_any|intros ? ? _]. apply wp_ret. intros w' [=]. }
  destruct Hy as (_ & Hlog & _ & En & Ed & _). rewrite <-En in Ed, Hn |- *.
  eapply wp_call; [apply wp_any|intros ? ? _]. cbv zeta.
  eapply wp_call; [apply wp_any|intros ? ? _].
  eapply wp_call; [apply wp_any|intros [r3 sig_fd] k3 _].
  destruct (negb _).
  { eapply wp_call; [apply wp_any|intros ? ? _]. apply wp_fail. }
  rewrite Hl. apply wp_start_loop; try done. by eapply log_sane.
Qed.

End serve.

(** ** Properties *)

Module ServeProps.
Import Os.Sim.

(** The two segments of [CursorProps.demo] under a process with its standard
    streams open, which is then sent a signal. *)
Definition demo : sim :=
  CursorProps.demo <| s_view ::= λ v, v <| f_fds := {[1 := FOther; 2 := FOther]} |> |> <| s_fd := 3 |>
    <| s_net := Net [[(UD_MAKE OP_SIGNAL 0, EPOLLIN)]] [(6, zeros 128)] |>.

Definition demo_args : args_t :=
  args_default <| a_dir := Some (txt ".") |> <| a_seg_size := 128 |>.

Definition demo_start : wal_t := Wal 0 0 (seg_reset 0 0 0 0) [] wal_index_init.

Lemma demo_dir_stored slen :
  slen = WAL_REC_MAX_SIZE →
  stored_log (view demo) 128 slen [(1, [CursorProps.demo_a])] 2 [CursorProps.demo_b] Clean.
Proof. intros ->. destruct ReopenProps.demo_stored. constructor; assumption. Qed.

Lemma scratch_len : zlen (zeros WAL_REC_MAX_SIZE) = WAL_REC_MAX_SIZE.
Proof. rewrite length_zeros, Z2Nat.id; [done|vm_compute; discriminate]. Qed.

(** A clean stop loses nothing: a leader started on a stored log returns
    status 0 only when its last flush has made every sequence it assigned
    durable, and it has kept at least the sequences it started with; through
    the opening, any number of passes with any events and failures, the
    shutdown and the closing of the log. *)
Theorem clean_stop_is_flushed {K : Type} `{SysLaws K} (rounds passes : nat) (w0 : wal_t)
    (scratch dir : list byte) (a : args_t) (segs : list (Z * list entry)) (base : Z)
    (es : list entry) (why : stop) (k : K)
    (Hstored : stored_log (view k) (i64 (a_seg_size a)) (zlen scratch) segs base es why)
    (Hrounds : (size (f_names (view k)) + 2 < rounds)%nat)
    (Hleader : a_leader a = None)
    (Hroom : base + zlen es + Z.of_nat passes * PASS_RECORDS < 2 ^ 64) :
  wp (run_server rounds passes w0 scratch dir a) (λ x _, stopped (base + zlen es) x) k.
Proof. by eapply wp_run_server. Qed.

Lemma clean_stop_is_flushed_witness :
  wp (run_server 9 3 demo_start (zeros WAL_REC_MAX_SIZE) (txt ".") demo_args)
    (λ x _, stopped (2 + 1) x) demo ∧
  (λ x, (x.1, wal_next_seq x.2)) <$>
    (run_server 9 3 demo_start (zeros 256) (txt ".") demo_args demo).1 = Some (0, 3).
Proof.
  split; [|vm_compute; reflexivity].
  refine (clean_stop_is_flushed 9 3 demo_start (zeros WAL_REC_MAX_SIZE) (txt ".") demo_args
    [(1, [CursorProps.demo_a])] 2 [CursorProps.demo_b] Clean demo (demo_dir_stored _ scratch_len)
    ltac:(apply Nat.ltb_lt; vm_compute; reflexivity) ltac:(reflexivity) ltac:(vm_compute; reflexivity)).
Defined.

(** C32. Looking at a log leaves it as it was: [--inspect] on a directory that
    holds a log always comes back, with status 0 or 1, and then every file is
    what it was and no descriptor has been left open. *)
Theorem inspect_leaves_log {K : Type} `{SysLaws K} (rounds : nat) (w0 : wal_t)
    (scratch dir : list byte) (cap : Z) (segs : list (Z * list entry)) (base : Z)
    (es : list entry) (why : stop) (k : K)
    (Hstored : stored_log (view k) cap (zlen scratch) segs base es why)
    (Hstreams : std_open (view k))
    (Hrounds : (size (f_names (view k)) + 2 < rounds)%nat) :
  wp (inspect_log rounds w0 scratch dir cap)
    (λ x k', view k' = view k ∧ (x = Some 0 ∨ x = Some 1)) k.
Proof. by eapply wp_inspect. Qed.

Lemma inspect_leaves_log_witness :
  wp (inspect_log 9 demo_start (zeros WAL_REC_MAX_SIZE) (txt ".") 128)
    (λ x k', view k' = view demo ∧ (x = Some 0 ∨ x = Some 1)) demo ∧
  (inspect_log 9 demo_start (zeros 256) (txt ".") 128 demo).1 = Some 0.
Proof.
  split; [|vm_compute; reflexivity].
  refine (inspect_leaves_log 9 demo_start (zeros WAL_REC_MAX_SIZE) (txt ".") 128
    [(1, [CursorProps.demo_a])] 2 [CursorProps.demo_b] Clean demo (demo_dir_stored _ scratch_len) _
    ltac:(apply Nat.ltb_lt; vm_compute; reflexivity)).
  split; vm_compute; reflexivity.
Defined.

(** C33. A command line the program does not take, and one that names no
    directory and does not ask for the self-check, end it with status 2, and
    nothing but the standard streams has been touched: no file, no
    descriptor. *)
Theorem bad_arguments_touch_nothing {K : Type} `{SysLaws K} (selfcheck_run : M K bool)
    (rounds passes : nat) (w0 : wal_t) (scratch : list byte) (argv : list cstring) (k : K)
    (Hstreams : std_open (view k))
    (Hbad : ∀ a, parse_args (tail argv) args_default = inr a → a_selfcheck a = false ∧ a_dir a = None) :
  wp (main selfcheck_run rounds passes w0 scratch argv)
    (λ x k', x = Some 2 ∧ view k' = view k) k.
Proof.
  unfold main. destruct (parse_args _ _) as [complaint|a] eqn:Hp.
  - eapply wp_call; [by apply quiet_all; [right|]|]. cbv beta. intros ? k1 Hv. by apply wp_ret.
  - destruct (Hbad a eq_refl) as [-> ->].
    eapply wp_call; [by apply quiet_out; [right|]|]. cbv beta. intros ? k1 Hv. by apply wp_ret.
Qed.

Lemma bad_arguments_touch_nothing_witness :
  wp (main (mret false) 9 3 demo_start (zeros 256) [txt "msgsrvd"; txt "--dir"])
    (λ x k', x = Some 2 ∧ view k' = view demo) demo ∧
  s_sent (main (mret false) 9 3 demo_start (zeros 256) [txt "msgsrvd"; txt "--dir"] demo).2 =
    [(2, txt "msgsrvd: "); (2, txt "--dir"); (2, txt " needs a value" ++ [Byte.x0a; Byte.x0a]); (2, usage)].
Proof.
  split; [|vm_compute; reflexivity].
  apply (bad_arguments_touch_nothing (mret false) 9 3 demo_start (zeros 256) [txt "msgsrvd"; txt "--dir"] demo).
  - split; vm_compute; reflexivity.
  - intros a Ha. vm_compute in Ha. discriminate.
Defined.

End ServeProps.
