(* ===== verification/Server.v ===== *)
(** * The server as a whole

    From the opening of the log through the leader's start and any number of
    passes to a crash: what the server has acknowledged is found again.  The
    parts are [Durable]'s log, [LoopSpec]'s acknowledgements and [LoopPass]'s
    descriptors and backing records, put together around the program's own
    start. *)

From Stdlib Require Import String.
From S2P Require Import Prelude Core Crc32c Fmt Msg Conn Record Index Os Session Segment Wal Cursor Reopen Crash Durable.
From S2P Require Import LoopState LoopFrames LoopServe Metrics LoopTick LoopSpec LoopFacts LoopRecv LoopOwn LoopStream LoopPass Main MainFacts.

Open Scope Z_scope.
#[local] Arguments wal_next_seq : simpl never.
#[local] Arguments wal_durable_seq : simpl never.

Lemma run_bind {K A B} (m : M K A) (f : A → M K B) k x k' : m k = (x, k') → (m ≫= f) k = f x k'.
Proof. intros E. unfold mbind, M_bind. by rewrite E. Qed.

(** A run that goes on as another. *)
Lemma wp_from {K A} (m m' : M K A) Q (k k1 : K) : m k = m' k1 → wp m' Q k1 → wp m Q k.
Proof. intros E (x & k' & Hm & HQ)%wp_elim. eapply wp_intro; [by rewrite E|done]. Qed.

(** Run the call both sides make next. *)
Ltac next_call :=
  lazymatch goal with
  | |- (?m ≫= _) ?k = _ → _ =>
      let x := fresh "x" in let k' := fresh "k" in let E := fresh "E" in
      destruct (m k) as [x k'] eqn:E; rewrite !(run_bind m _ _ _ _ E);
      lazymatch type of x with (_ * _)%type => destruct x as [? ?] | _ => idtac end;
      cbv beta iota zeta
  end.

Ltac next_check :=
  lazymatch goal with |- (if ?b then _ else _) _ = _ → _ => destruct b; [by intros [=]|] end.

(** ** The start *)

Section start.
Context {K : Type} `{Sys K}.

(** [start_loop] up to [run_loop]: the loop that will run, if one will. *)
Definition ready_loop (a : args_t) (addr : Z * Z) (sig_fd : Z) (w : wal_t) (sessions : session_table_t)
    : M K (option loop_t) :=
  '(r, l) ← loop_init w sessions (a_bind_ip a) (u16 (a_port a));
  if negb (result_ok r) then mret None else
  l ← loop_set_signal_fd l sig_fd;
  '(r, l) ← (match a_leader a with
             | Some leader => loop_set_leader l addr leader
             | None => mret (RESULT_OK, l)
             end);
  if negb (result_ok r) then mret None else
  let l := loop_set_retention l (i32 (a_retain a))
             (if bool_decide (a_leader a = None) then i32 (a_replicas a) else 0) in
  '(r, l) ← (if 0 <? u16 (a_metrics_port a)
             then loop_set_metrics_port l (a_bind_ip a) (u16 (a_metrics_port a))
             else mret (RESULT_OK, l));
  if negb (result_ok r) then mret None else
  _ ← report_listening a l;
  mret (Some l).

Lemma start_loop_ready passes scratch a addr sig_fd w t l (k k1 : K) :
  ready_loop a addr sig_fd w t k = (Some l, k1) →
  start_loop passes scratch a addr sig_fd w t k = run_loop passes scratch l k1.
Proof.
  unfold ready_loop, start_loop. next_call. next_check. next_call. next_call. next_check. next_call. next_check.
  next_call. by intros [= <- <-].
Qed.

(** The leader's address, where the server is to be a replica. *)
Definition leader_addr (a : args_t) : option (Z * Z) :=
  match a_leader a with Some leader => parse_addr leader | None => Some (0, 0) end.

(** What [run_server] does before its loop runs, and the loop it then has;
    nothing where it gives up ([run_server_starts], [run_server_gives_up]). *)
Definition start_server (rounds : nat) (w0 : wal_t) (scratch : list byte) (dir : cstring) (a : args_t)
    : M K (option loop_t) :=
  sse ← crc32c_available;
  if negb sse then mret None else
  x ← wal_open session_from_record rounds w0 (dir ++ [Byte.x00]) (i64 (a_seg_size a)) scratch
        session_table_init;
  match x with
  | None => mret None
  | Some (r, w, info, sessions) =>
      if negb (result_ok r) then mret None else
      _ ← report_log dir info (st_count sessions);
      let mask := Z.lor (SIGMASK SIGINT) (SIGMASK SIGTERM) in
      r ← os_sigblock mask;
      '(r, sig_fd) ← (if negb (result_ok r) then mret (r, -1)
                      else os_signalfd mask (Z.lor SFD_CLOEXEC SFD_NONBLOCK) (-1));
      if negb (result_ok r) then mret None else
      match leader_addr a with
      | None => mret None
      | Some addr => ready_loop a addr sig_fd w sessions
      end
  end.

(** It is what the server does. *)
Lemma run_server_starts rounds passes w0 scratch dir a l (k k1 : K) :
  start_server rounds w0 scratch dir a k = (Some l, k1) →
  run_server rounds passes w0 scratch dir a k = run_loop passes scratch l k1.
Proof.
  unfold start_server, run_server, leader_addr. next_call. next_check. next_call.
  match goal with |- context [match ?x with Some _ => _ | None => _ end] => destruct x as [[[[? ?] ?] ?]|] end;
    [|by intros [=]].
  next_check. do 3 next_call. next_check.
  destruct (a_leader a); [destruct (parse_addr _); [|by intros [=]]|]; apply start_loop_ready.
Qed.
End start.

(** ** What the server starts with *)

(** The session table rebuilt from a log. *)
Lemma table_replay hist : (∀ e, e ∈ hist → rec_ok e.1) →
  table_ok hist (foldl session_from_record session_table_init hist.*1).
Proof.
  induction hist as [|[r p] hist IH] using rev_ind; intros Hok; [by apply Forall_nil|].
  rewrite fmap_app, foldl_app. cbn. assert ((r, p) ∈ hist ++ [(r, p)]) as Hin by (apply elem_of_app; right; by left).
  eapply table_observe; [|exact Hin|by apply (Hok (r, p))]. apply table_ok_more, IH.
  intros e He. apply Hok, elem_of_app. by left.
Qed.

(** The loop before any call, over a log just opened. *)
Lemma tied_zero cap v w hist :
  in_use cap false v w hist → 0 <= wl_dir_fd w → std_open v →
  tied cap v hist (loop_zero w (foldl session_from_record session_table_init hist.*1)).
Proof.
  intros Hin Hdir [H1 H2]. set (t := foldl _ _ _).
  assert (∀ i c, l_conns (loop_zero w t) !! i = Some c → c = slot_free (zeros LOOP_RECV_CAP)) as Hc.
  { intros i c Hi. by apply lookup_replicate in Hi as [-> _]. }
  assert (∀ h, 0 <= fd_of (loop_zero w t) h → h = HOut ∨ h = HErr ∨ h = HActive ∨ h = HDir) as Hh.
  { intros h Hp. destruct h as [| | | | | | | |i|i|i|i| |]; cbn [fd_of] in Hp; auto; try (cbn in Hp; lia); exfalso; revert Hp;
      unfold slot, peer, scrape; cbn [l_conns l_peers l_scrapes loop_zero];
      match goal with |- context [?l !! i] => destruct (l !! i) eqn:E end; cbn; try lia;
      apply lookup_replicate in E as [-> _]; cbn; lia. }
  pose proof Hin as (segs & a & b & [_ _ [todo Hd] _ Ha _ _]).
  assert (0 <= g_fd (wl_active w) → ∃ ino, f_fds v !! g_fd (wl_active w) = Some (FFile ino)) as Hact.
  { intros Hp. destruct Ha as [ino i _ Hf _ _ _ _|]; [|lia]. apply fd_file_lookup in Hf as [Hf _]. by exists ino. }
  constructor; try done.
  - constructor.
    + intros h Hp. destruct (Hh h Hp) as [-> | [-> | [-> | ->]]]; cbn in *.
      * by exists FOther.
      * by exists FOther.
      * destruct (Hact Hp) as [ino Hf]. exists (FFile ino). eauto.
      * exists (FDir todo). eauto.
    + intros h h' Hp E. destruct (Hh h Hp) as [-> | [-> | [-> | ->]]], (Hh h') as [-> | [-> | [-> | ->]]]; try lia; try done;
        cbn in *; exfalso; try (destruct Hact as [ino Hf]; [lia|]); congruence.
  - intros i c ->%Hc. apply slot_ok_free. by rewrite length_zeros.
  - destruct (in_use_next _ _ _ Hin) as (b0 & _ & Hch & _). apply table_replay. intros e. by eapply chained_rec_ok.
Qed.

Section begin.
Context {cap : Z} {before : list entry} {low : Z} {K : Type} `{SysLaws K}.
#[local] Abbreviation held := (@LoopOwn.held cap before low).

Lemma wp_epoll_create fl fd0 (k : K) : wp (os_epoll_create fl fd0) (λ x k', opened_fd (view k) x (view k')) k.
Proof. unfold os_epoll_create. call law_epoll_create as r k1 Hr. apply wp_ret. by apply opened_result. Qed.
Lemma wp_signalfd m fl fd0 (k : K) : wp (os_signalfd m fl fd0) (λ x k', opened_fd (view k) x (view k')) k.
Proof. unfold os_signalfd. call law_signalfd as r k1 Hr. apply wp_ret. by apply opened_result. Qed.

Lemma still_start_listening ep fd ip port n d old (k : K) :
  wp (start_listening ep fd ip port n d old) (λ _ k', view k' = view k) k.
Proof.
  unfold start_listening, os_setsockopt, os_bind, os_listen, os_getsockname.
  apply wp_bind. call law_setsockopt as r1 k1 Hv1. apply wp_ret.
  apply wp_bind. call law_bind as r2 k2 Hv2. apply wp_ret.
  destruct (negb _); [apply wp_ret; congruence|].
  apply wp_bind. call law_listen as r3 k3 Hv3. apply wp_ret.
  destruct (negb _); [apply wp_ret; congruence|].
  apply wp_bind. call law_getsockname as [r4 b] k4 Hv4. apply wp_ret.
  destruct (sys_is_err r4); (destruct (negb _); [apply wp_ret; congruence|]);
    call quiet_epoll_ctl as r5 k5 Hv5; apply wp_ret; congruence.
Qed.

(** A step that opens descriptors for holders that had none. *)
Definition opens_more (v : fsys) (l : loop_t) (v' : fsys) (l' : loop_t) : Prop :=
  f_fds v ⊆ f_fds v' ∧ ∀ h, fd_of l' h = fd_of l h ∨ f_fds v !! fd_of l' h = None.

Lemma opens_more_unheld v l v' l' fd :
  opens_more v l v' l' → is_Some (f_fds v !! fd) → unheld l fd → unheld l' fd.
Proof.
  intros [_ Hh] [d Hd] Hu h Hp. destruct (Hh h) as [E|E]; [rewrite E in *; by apply Hu|congruence].
Qed.

(** A holder's new descriptor, when it comes. *)
Lemma held_new h0 room v v' l l' fd :
  held room v l → outside h0 → fresh_fd v fd → v' = set_fd fd FOther v → still l l' → kind_ok h0 FOther →
  (∀ h, h ≠ h0 → fd_of l' h = fd_of l h) → fd_of l' h0 = fd →
  held room v' l' ∧ opens_more v l v' l'.
Proof.
  intros Hl Ho [Hge Hn] -> Hs Hk Hh Hfd. split.
  - apply (held_opened h0 room v l); auto.
  - split; [by apply insert_subseteq|]. intros h. destruct (decide (h = h0)) as [->|Hne]; [right; congruence|left; auto].
Qed.

Lemma opens_more_trans v l v1 l1 v' l' : opens_more v l v1 l1 → opens_more v1 l1 v' l' → opens_more v l v' l'.
Proof.
  intros [H1 F1] [H2 F2]. split; [by etrans|]. intros h. destruct (F2 h) as [E|E]; [rewrite E; apply F1|].
  right. destruct (f_fds v !! _) as [d|] eqn:Ed; [|done]. eapply lookup_weaken in Ed; [|exact H1]. congruence.
Qed.

Lemma own_loop_init room w t ip port (k : K) :
  held room (view k) (loop_zero w t) →
  wp (loop_init w t ip port) (λ x k', result_ok x.1 = true →
    held room (view k') x.2 ∧ opens_more (view k) (loop_zero w t) (view k') x.2) k.
Proof.
  intros Hl. unfold loop_init. cbv zeta.
  call wp_epoll_create as [r ep] k1 Ho. unfold opened_fd in Ho. cbn [fst snd] in Ho.
  destruct (result_ok r) eqn:Hr; cbn [negb]; [|apply wp_ret; cbn; congruence]. destruct Ho as [Hf Hv].
  set (l1 := (loop_zero w t) <| l_epoll_fd := ep |>).
  destruct (held_new HEpoll room _ _ _ l1 ep Hl ltac:(done) Hf Hv) as [Hl1 Hm1]; try done; [by apply still_same|by intros []|].
  call wp_socket as [r2 fd] k2 Ho. unfold opened_fd in Ho. cbn [fst snd] in Ho.
  destruct (result_ok r2) eqn:Hr2; cbn [negb].
  2: { eapply wp_call; [apply wp_any|]. intros ? ? _. apply wp_ret. cbn. congruence. }
  destruct Ho as [Hf2 Hv2]. set (l2 := l1 <| l_listen_fd := fd |>).
  destruct (held_new HListen room _ _ _ l2 fd Hl1 ltac:(done) Hf2 Hv2) as [Hl2 Hm2]; try done; [by apply still_same|by intros []|].
  call still_start_listening as [r3 bound] k3 Hv3.
  destruct (result_ok r3) eqn:Hr3; cbn [negb].
  2: { do 2 (eapply wp_call; [apply wp_any|intros ? ? _]). apply wp_ret. cbn. congruence. }
  apply wp_ret. intros _. cbn [snd]. rewrite Hv3. split.
  - eapply held_calm; [|exact Hl2]. eauto with calm.
  - eapply opens_more_trans; [exact Hm1|]. destruct Hm2 as [? Hm2]. split; [done|]. exact Hm2.
Qed.

(** A holder takes over a descriptor that is open and nobody's. *)
Lemma held_adopt h0 room v l l' fd d :
  held room v l → still l l' → outside h0 → (∀ h, h ≠ h0 → fd_of l' h = fd_of l h) →
  fd_of l' h0 = fd → f_fds v !! fd = Some d → kind_ok h0 d → unheld l fd → held room v l'.
Proof.
  intros Hl Hs Ho Hh Hfd Hd Hk Hu.
  assert (v = set_fd fd d (del_fd fd v)) as ->.
  { destruct v. unfold set_fd, del_fd, upd. cbn in *. f_equal. by rewrite insert_delete_id. }
  apply (held_opened h0 room _ l); auto.
  - eapply held_fds; [exact Hl|done..|]. intros h d' Hp Hd'. cbn in *.
    rewrite lookup_delete_ne; [done|]. intros E. by apply (Hu h).
  - cbn. by rewrite lookup_delete_eq.
Qed.

Lemma own_set_signal room l fd (k : K) :
  held room (view k) l → f_fds (view k) !! fd = Some FOther → unheld l fd →
  wp (loop_set_signal_fd l fd) (λ l' k', view k' = view k ∧ held room (view k') l') k.
Proof.
  intros Hl Hfd Hu. unfold loop_set_signal_fd. cbv zeta.
  assert (held room (view k) (l <| l_signal_fd := fd |>)) as Hl1.
  { by apply (held_adopt HSignal room _ l _ fd FOther); try done; [by apply still_same|intros []]. }
  eapply (wp_call _ (λ _ k', view k' = view k)); [destruct (0 <=? fd); [apply quiet_epoll_ctl|by apply wp_ret]|].
  cbv beta. intros _ k1 Hv. apply wp_ret. split; [done|by rewrite Hv].
Qed.

Lemma own_set_metrics room l ip port (k : K) :
  held room (view k) l → wp (loop_set_metrics_port l ip port) (λ x k', result_ok x.1 = true →
    held room (view k') x.2 ∧ f_fds (view k) ⊆ f_fds (view k')) k.
Proof.
  intros Hl. unfold loop_set_metrics_port.
  call wp_socket as [r fd] k1 Ho. unfold opened_fd in Ho. cbn [fst snd] in Ho. cbv zeta.
  destruct (result_ok r) eqn:Hr; cbn [negb]; [|apply wp_ret; cbn; congruence]. destruct Ho as [Hf Hv].
  assert (held room (view k1) (l <| l_metrics_fd := fd |>)) as Hl1.
  { rewrite Hv. destruct Hf as [_ Hn]. apply (held_opened HMetrics room _ l); try done; [by apply still_same|].
    by intros []; left. }
  call still_start_listening as [r3 bound] k3 Hv3. destruct (result_ok r3) eqn:Hr3; cbn [negb].
  2: { eapply wp_call; [apply wp_any|intros ? ? _]. apply wp_ret. cbn. congruence. }
  apply wp_ret. intros _. cbn [snd]. rewrite Hv3. split.
  - eapply held_calm; [|exact Hl1]. eauto with calm.
  - rewrite Hv. by apply insert_subseteq, Hf.
Qed.
End begin.

Section ready.
Context {K : Type} `{SysLaws K}.

Lemma std_more v v' : std_open v → f_fds v ⊆ f_fds v' → std_open v'.
Proof. intros [H1 H2] Hs. split; by eapply lookup_weaken. Qed.

Lemma quiet_report_listening a l : quiet (K := K) (report_listening a l).
Proof.
  unfold report_listening. destruct (a_leader a); 
    repeat match goal with |- quiet (_ ≫= _) => apply quiet_bind; [eauto 20 with quiet|intros ?] end; auto with quiet.
Qed.

Lemma wp_set_signal l0 l fd (k : K) : keeps l0 l → wp (loop_set_signal_fd l fd) (λ l' _, keeps l0 l') k.
Proof. intros. unfold loop_set_signal_fd. keep_all. Qed.

Lemma held_std cap before low room v l :
  held (cap := cap) (before := before) (low := low) room v l → std_open v.
Proof.
  intros Hl%held_own.
  split; [destruct (own_open _ _ Hl HOut) as (d & Hd & ->)|destruct (own_open _ _ Hl HErr) as (d & Hd & ->)]; done.
Qed.

(** A loop becomes a replica's. *)
Lemma own_set_leader cap before low room l addr text (k : K) :
  held (cap := cap) (before := before) (low := low) room (view k) l →
  wp (loop_set_leader l addr text) (λ x k', held (cap := cap) (before := before) (low := low) room (view k') x.2) k.
Proof.
  intros Hl. unfold loop_set_leader. 
  eapply wp_call; [eapply own_arm_timer, held_calm, Hl|cbv beta; intros l1 k1 Hl1; by apply wp_ret].
  split; [|intros []; by left].
  constructor; [done|done| |eauto]. intros [_ Hb Hc]. by constructor.
Qed.

(** What a loop that is ready has: it holds the log and its descriptors, and
    a leader owes nothing. *)
Definition begun (cap : Z) (before : list entry) (next room : Z) (a : args_t) (y : option loop_t) (k : K) : Prop :=
  ∀ l, y = Some l →
    held (cap := cap) (before := before) (low := next - 1) room (view k) l ∧
    (a_leader a = None → at_rest l ∧ wal_next_seq (l_wal l) = next).

Lemma wp_ready_loop cap hist next room a addr sig v w t (k : K) :
  let l0 := loop_zero w t in
  held (cap := cap) (before := hist) (low := next - 1) room v l0 → fresh_fd v sig → view k = set_fd sig FOther v →
  at_rest l0 → wal_next_seq w = next → wp (ready_loop a addr sig w t) (begun cap hist next room a) k.
Proof.
  cbv zeta. set (l0 := loop_zero w t). intros Hl0 Hfr Hv Hrest Hnx. unfold ready_loop.
  assert (held (cap := cap) (before := hist) (low := next - 1) room (view k) l0) as Hl.
  { rewrite Hv. destruct Hfr as [_ Hn]. by apply held_pending. }
  eapply wp_call; [apply wp_both; [by eapply own_loop_init|apply wp_loop_init]|].
  cbv beta. intros [r l1] k1 [Ho Hk1]. cbn [fst snd] in Ho, Hk1.
  destruct (result_ok r); cbn [negb]; [|by apply wp_ret]. destruct (Ho eq_refl) as [Hl1 Hm1].
  assert (f_fds (view k) !! sig = Some FOther) as Hsig by (rewrite Hv; cbn; by rewrite lookup_insert_eq).
  eapply wp_call; [apply wp_both; [eapply own_set_signal; [exact Hl1|..]|by apply (wp_set_signal l0)]|].
  { eapply lookup_weaken; [exact Hsig|apply Hm1]. }
  { eapply opens_more_unheld; [exact Hm1|by exists FOther|].
    eapply fresh_unheld; [exact (held_own _ _ _ Hl0)|apply Hfr]. }
  cbv beta. intros l2 k2 [[_ Hl2] Hk2].
  eapply (wp_call _ (λ x k', held (cap := cap) (before := hist) (low := next - 1) room (view k') x.2 ∧
    (a_leader a = None → keeps l0 x.2))).
  { destruct (a_leader a) as [text|]; [|by apply wp_ret].
    eapply wp_mono; [by eapply own_set_leader|]. cbv beta. by intros x k' ?. }
  cbv beta. intros [r3 l3] k3 [Hl3 Hk3]. cbn [snd] in *. destruct (negb _); [by apply wp_ret|].
  match goal with |- context [loop_set_metrics_port ?x _ _] => set (l4 := x) end.
  assert (held (cap := cap) (before := hist) (low := next - 1) room (view k3) l4) as Hl4.
  { eapply held_calm; [|exact Hl3]. unfold l4, loop_set_retention. eauto with calm. }
  assert (a_leader a = None → keeps l0 l4) as Hk4 by (intros Ha; etrans; [exact (Hk3 Ha)|by apply keeps_same]).
  eapply (wp_call _ (λ x k', (a_leader a = None → keeps l0 x.2) ∧ (result_ok x.1 = true →
    held (cap := cap) (before := hist) (low := next - 1) room (view k') x.2))).
  { destruct (0 <? _); [|by apply wp_ret].
    eapply wp_mono; [apply wp_both; [by eapply own_set_metrics|by apply (wp_set_metrics l4)]|].
    cbv beta. intros [r5 l5] k5 [Hx Hk5]. split; [intros Ha; exact (transitivity (Hk4 Ha) Hk5)|by intros [? _]%Hx]. }
  cbv beta. intros [r5 l5] k5 [Hk5 Hx]. cbn [fst snd] in *.
  destruct (result_ok r5); cbn [negb]; [|by apply wp_ret]. specialize (Hx eq_refl).
  eapply wp_call; [apply quiet_report_listening; by eapply held_std|]. cbv beta. intros _ k6 Hv6. apply wp_ret.
  intros l [= <-]. rewrite Hv6. split; [done|]. intros Ha. specialize (Hk5 Ha).
  split; [by eapply keeps_rest|]. rewrite (keeps_next _ _ Hk5). exact Hnx.
Qed.

(** The start, whichever of its calls fail. *)
Lemma wp_start_server rounds w0 scratch dir a hist next t room (k : K) :
  directory t (view k) (i64 (a_seg_size a)) (zlen scratch) hist next →
  (size (f_names (view k)) + 2 < rounds)%nat → std_open (view k) → next + room < 2 ^ 64 → 0 <= room →
  wp (start_server rounds w0 scratch dir a) (begun (i64 (a_seg_size a)) hist next room a) k.
Proof.
  intros Hdir Hr Hstd Hroom Hpos. unfold start_server. unfold crc32c_available. apply wp_bind.
  call law_cpuid as [[[xa b] c] e] k1 Hv1. apply wp_ret. rewrite <-Hv1 in *.
  destruct (negb (negb _)); [by apply wp_ret|].
  call (wp_open_in_use session_from_record t rounds) as x k2 (y & -> & Hy); [done..|].
  destruct y as [[[r w] info] sessions]. cbn [fst snd] in Hy.
  destruct (result_ok r); cbn [negb]; [|by apply wp_ret].
  destruct (Hy eq_refl) as [Huse Hlog Hnx Hdu -> Hdfd Hmore]. clear Hy.
  apply (std_more _ _ Hstd) in Hmore as Hstd2.
  eapply wp_call; [by apply quiet_report_log|]. cbv beta. intros _ k3 Hv3. cbv zeta.
  unfold os_sigblock. apply wp_bind. call law_sigprocmask as r4 k4 Hv4. apply wp_ret.
  eapply (wp_call _ (λ x k', opened_fd (view k4) x (view k'))).
  { destruct (negb _) eqn:E; [|apply wp_signalfd]. apply wp_ret. unfold opened_fd. cbn [fst].
    by apply negb_true_iff in E as ->. }
  cbv beta. intros [r5 sig] k5 Ho. unfold opened_fd in Ho. cbn [fst snd] in Ho.
  destruct (result_ok r5); cbn [negb]; [|by apply wp_ret]. destruct Ho as [Hfr Hv5].
  destruct (leader_addr a) as [addr|]; [|by apply wp_ret].
  eapply wp_ready_loop; [|exact Hfr|exact Hv5| |exact Hnx].
  - rewrite Hv4, Hv3. exists hist. split_and!; [|done|cbn; lia|cbn; lia].
    apply tied_zero; [|done|done]. by destruct t; [apply (untidy (t := true))|].
  - apply zero_at_rest; [eapply log_sane; [exact Hlog|lia]|lia].
Qed.
End ready.

(** ** The steps of a pass *)

(** The parts a pass is made of, each with the number of records it can add:
    a crash may come after any of them. *)
Inductive phase {K : Type} `{Sys K} : Z → loop_t → K → loop_t → K → Prop :=
| ph_arm l k l' k' : arm_all l k = (l', k') → phase 0 l k l' k'
| ph_wait l k timeout x k' : os_epoll_wait (l_epoll_fd l) MAX_EVENTS timeout k = (x, k') → phase 0 l k l k'
| ph_flags l k progress dirty :
    phase 0 l k (l <| l_progress := progress |> <| l_wal_dirty := dirty |>) k
| ph_event l k scratch data events l' k' :
    tick_event l scratch data events k = (l', k') → phase EVENT_RECORDS l k l' k'
| ph_flush l k r l' k' : tick_flush l k = ((r, l'), k') → phase 0 l k l' k'
| ph_acks l k : phase 0 l k (acks_emit l) k
| ph_report l k : phase 0 l k (stream_report l) k
| ph_stream l k l' k' : repl_stream l k = (l', k') → phase 0 l k l' k'
| ph_push l k n l' k' : subs_push l n k = (l', k') → phase 0 l k l' k'
| ph_retain l k l' k' : retain_pass l k = (l', k') → phase 0 l k l' k'.

Inductive phases {K : Type} `{Sys K} : Z → loop_t → K → loop_t → K → Prop :=
| phs_end l k : phases 0 l k l k
| phs_step n m l k l1 k1 l' k' :
    phase n l k l1 k1 → phases m l1 k1 l' k' → phases (n + m) l k l' k'.

Section phases.
Context {K : Type} `{Sys K}.

Lemma phases_one n l (k : K) l' k' : phase n l k l' k' → phases n l k l' k'.
Proof. intros Hp. rewrite <-(Z.add_0_r n). by eapply phs_step, phs_end. Qed.

Lemma phases_trans n m l (k : K) l1 k1 l' k' : phases n l k l1 k1 → phases m l1 k1 l' k' → phases (n + m) l k l' k'.
Proof.
  induction 1 as [|n1 n2 ? ? ? ? ? ? Hp _ IH]; intros Hq; [done|].
  rewrite <-Z.add_assoc. eapply phs_step; [exact Hp|by apply IH].
Qed.

Lemma run_unbind {A B} (m : M K A) (f : A → M K B) k y k' :
  (m ≫= f) k = (y, k') → ∃ x k1, m k = (x, k1) ∧ f x k1 = (y, k').
Proof. unfold mbind, M_bind. destruct (m k) as [x k1]. eauto. Qed.

Lemma events_phases evs l scratch (k : K) l' k' :
  tick_events l scratch evs k = (l', k') → phases (EVENT_RECORDS * zlen evs) l k l' k'.
Proof.
  revert l k. induction evs as [|[d ev] evs IH]; intros l k; cbn [tick_events].
  { intros [= <- <-]. rewrite Z.mul_0_r. apply phs_end. }
  intros (l1 & k1 & Hev & Hrest)%run_unbind.
  replace (EVENT_RECORDS * zlen ((d, ev) :: evs)) with (EVENT_RECORDS + EVENT_RECORDS * zlen evs)
    by (cbn [length]; lia).
  eapply phs_step; [by eapply ph_event|by apply IH].
Qed.

Lemma serve_phases l n (k : K) l' k' : tick_serve l n k = (l', k') → phases 0 l k l' k'.
Proof.
  unfold tick_serve. cbv zeta. intros (l1 & k1 & H1 & (l2 & k2 & H2 & H3)%run_unbind)%run_unbind.
  apply (phs_step 0 0 _ _ (acks_emit l) k); [apply ph_acks|].
  apply (phs_step 0 0 _ _ l1 k1).
  { generalize dependent (acks_emit l). intros l0 H1.
    destruct (l_is_follower l0); [injection H1 as <- <-; apply ph_report|exact (ph_stream _ _ _ _ H1)]. }
  apply (phs_step 0 0 _ _ l2 k2); [exact (ph_push _ _ _ _ _ H2)|]. exact (phases_one _ _ _ _ _ (ph_retain _ _ _ _ H3)).
Qed.
End phases.

(** A wait brings no more events than there is room for. *)
Lemma wait_few {K : Type} `{SysLaws K} ep timeout (k : K) r evs k' :
  os_epoll_wait ep MAX_EVENTS timeout k = ((r, evs), k') → result_ok r = true → zlen evs <= MAX_EVENTS.
Proof.
  unfold os_epoll_wait. intros ([n es] & k0 & Hsys & Hret)%run_unbind Hok.
  destruct (wp_elim _ _ _ (law_epoll_wait ep MAX_EVENTS timeout k)) as (x & k3 & E & _ & Hx).
  rewrite Hsys in E. injection E as <- <-. cbn [fst snd] in Hx.
  destruct (sys_is_err n) eqn:Herr; [by injection Hret as <- <- <-|]. injection Hret as _ <- _.
  destruct Hx as [Hf|[Hn Hl]]; [unfold failed in Hf; congruence|].
  rewrite length_sub. unfold MAX_EVENTS in *. cbn in Hn |- *. lia.
Qed.

(** Every pass is a sequence of such parts. *)
Lemma pass_phases {K : Type} `{SysLaws K} l wait scratch (k : K) r l' k' :
  loop_tick l wait scratch k = ((r, l'), k') → ∃ n, 0 <= n <= PASS_RECORDS ∧ phases n l k l' k'.
Proof.
  assert (0 <= EVENT_RECORDS) as Hpos by (unfold EVENT_RECORDS, LOOP_RECV_CAP; lia).
  assert (0 <= PASS_RECORDS) as Hpass by (unfold PASS_RECORDS, MAX_EVENTS; lia).
  unfold loop_tick. intros (l1 & k1 & Harm & Hw)%run_unbind. cbv zeta in Hw.
  apply ph_arm in Harm.
  apply run_unbind in Hw as ([r2 evs] & k2 & Hwait & Hw).
  pose proof (wait_few _ _ _ _ _ _ Hwait) as Hevs.
  assert (phase 0 l1 k1 (l1 <| l_progress := false |>) k1) as Hq.
  { pose proof (ph_flags l1 k1 false (l_wal_dirty l1)) as Hq. by destruct l1. }
  apply (ph_wait (l1 <| l_progress := false |>)) in Hwait.
  pose proof (phs_step 0 0 _ _ _ _ _ _ Harm (phs_step 0 0 _ _ _ _ _ _ Hq (phases_one _ _ _ _ _ Hwait))) as Hstart.
  destruct (negb (result_ok r2)) eqn:Hok; [injection Hw as <- <- <-; by exists 0|].
  apply negb_false_iff in Hok. specialize (Hevs Hok).
  apply run_unbind in Hw as (l3 & k3 & Hev & ([r4 l4] & k4 & Hfl & Hw)%run_unbind).
  apply events_phases in Hev. apply ph_flush, phases_one in Hfl.
  pose proof (phases_one _ _ _ _ _ (ph_flags (l1 <| l_progress := false |>) k2 false false)) as Hq2.
  pose proof (phases_trans _ _ _ _ _ _ _ _ (phases_trans _ _ _ _ _ _ _ _ (phases_trans _ _ _ _ _ _ _ _ Hstart Hq2) Hev) Hfl)
    as Hall. rewrite !Z.add_0_l, Z.add_0_r in Hall.
  exists (EVENT_RECORDS * zlen evs). split; [unfold PASS_RECORDS; split; [lia|by apply Z.mul_le_mono_nonneg_l]|].
  destruct (negb (result_ok r4)); [injection Hw as <- <- <-; exact Hall|].
  apply run_unbind in Hw as (l5 & k5 & Hs & (l6 & k6 & Ha & [= <- <- <-])%run_unbind).
  apply serve_phases in Hs. apply ph_arm, phases_one in Ha.
  pose proof (phases_trans _ _ _ _ _ _ _ _ (phases_trans _ _ _ _ _ _ _ _ Hall Hs) Ha) as Hend.
  by rewrite !Z.add_0_r in Hend.
Qed.

(** ** What survives *)

Section survive.
Context {cap : Z} {before : list entry} {low : Z} {K : Type} `{SysLaws K}.
#[local] Abbreviation held := (@LoopOwn.held cap before low).

Lemma held_phase room n l (k : K) l' k' :
  phase n l k l' k' → held (room + n) (view k) l → 0 <= room → held room (view k') l'.
Proof.
  intros Hp Hl Hroom.
  destruct Hp as [l k l' k' E|l k tm x k' E|l k p d|l k scr d ev l' k' E|l k r l' k' E|l k|l k|l k l' k' E|l k n l' k' E|l k l' k' E];
    rewrite ?Z.add_0_r in Hl.
  - exact (wp_result _ _ _ _ _ (own_arm_all _ _ _ Hl) E).
  - assert (view k' = view k) as ->; [|done]. unfold os_epoll_wait in E.
    revert E. apply (wp_result _ (λ _ k', view k' = view k)). apply wp_bind.
    eapply wp_mono; [apply law_epoll_wait|]. cbv beta. intros [r es] k1 [Hv _]. by apply wp_ret.
  - eapply held_calm; [|exact Hl]. eauto with calm.
  - exact (wp_result _ _ _ _ _ (own_event _ _ _ _ _ _ Hl Hroom) E).
  - exact (wp_result _ _ _ _ _ (own_tick_flush _ _ _ Hl) E).
  - by apply held_acks_emit.
  - eapply held_calm; [|exact Hl]. by apply calm_report.
  - exact (wp_result _ _ _ _ _ (own_stream_slots _ _ _ _ _ Hl) E).
  - exact (wp_result _ _ _ _ _ (own_push_slots _ _ _ _ _ _ Hl) E).
  - exact (wp_result _ _ _ _ _ (own_retain_pass _ _ _ Hl) E).
Qed.

Lemma phase_cost n l (k : K) l' k' : phase n l k l' k' → 0 <= n.
Proof. destruct 1; unfold EVENT_RECORDS, LOOP_RECV_CAP; lia. Qed.

Lemma phases_cost n l (k : K) l' k' : phases n l k l' k' → 0 <= n.
Proof. induction 1 as [|???????? Hp%phase_cost]; lia. Qed.

Lemma held_phases room n l (k : K) l' k' :
  phases n l k l' k' → held (room + n) (view k) l → 0 <= room → held room (view k') l'.
Proof.
  intros Hp. induction Hp as [|n m l k l1 k1 l' k' Hp Hps IH]; intros Hl Hroom.
  - by rewrite Z.add_0_r in Hl.
  - apply phases_cost in Hps. apply IH; [|done]. eapply held_phase; [exact Hp| |lia].
    by rewrite <-Z.add_assoc, (Z.add_comm m n).
Qed.
End survive.

(** [n] passes that did not fail. *)
Inductive passes {K : Type} `{Sys K} : nat → loop_t → K → loop_t → K → Prop :=
| pss_end l k : passes 0 l k l k
| pss_step n l k wait scratch r l1 k1 l' k' :
    loop_tick l wait scratch k = ((r, l1), k1) → result_ok r = true → passes n l1 k1 l' k' →
    passes (S n) l k l' k'.

Section promise.
Context {K : Type} `{SysLaws K}.

(** A record is in the log, flushed, and whatever crash comes now, opening
    the log finds it unless it had been removed, or fails as [outlives] says. *)
Definition outlasts (cap : Z) (e : entry) (l : loop_t) (k : K) : Prop :=
  ∃ hist, e ∈ hist ∧ w_seq e.1 <= wal_durable_seq (l_wal l) ∧ outlives (K := K) (view k) cap (l_wal l) hist.

(** What an acknowledgement staged for a connection promises: a record of the
    client's session under the sequence it names outlasts whatever the server
    goes on to do.  Sequence 0 is no write's. *)
Definition promised (cap more : Z) (l : loop_t) (k : K) (c : loop_conn_t) (a : answer) : Prop :=
  match a with
  | SaidAck _ _ client_seq => client_seq = 0 ∨ ∃ e,
      w_session e.1 = cn_session c ∧ w_client_seq e.1 = client_seq ∧
      ∀ n l' k', n <= more → phases n (acks_emit l) k l' k' → outlasts cap e l' k'
  | SaidNoReplicas _ => True
  end.

Lemma in_use_durable cap t v w hist e :
  in_use cap t v w hist → wal_durable_seq w = wal_next_seq w - 1 → e ∈ hist → w_seq e.1 <= wal_durable_seq w.
Proof.
  intros (b0 & _ & Hch & E)%in_use_next Hd He. destruct e as [r p].
  pose proof (chained_seqs _ _ _ _ Hch He). cbn [fst]. lia.
Qed.

(** A record that is flushed outlasts what the server goes on to do. *)
Lemma flushed_outlasts cap hist e more n l l' (k k' : K) :
  tied cap (view k) hist l → w_seq e.1 <= wal_durable_seq (l_wal l) →
  wal_next_seq (l_wal l) + more < 2 ^ 64 → e ∈ hist → n <= more → phases n l k l' k' →
  outlasts cap e l' k'.
Proof.
  intros Ht Hd Hn He Hle Hps.
  assert (held (cap := cap) (before := hist) (low := wal_durable_seq (l_wal l)) (more - n + n) (view k) l) as Hl.
  { exists hist. split; [done|]. split; [done|]. split; [lia|]. lia. }
  destruct (held_phases _ _ _ _ _ _ Hps Hl ltac:(lia)) as (hist' & Ht' & [x ->] & Hlow & _).
  exists (hist ++ x). split; [apply elem_of_app; by left|]. split; [lia|]. eapply in_use_outlives, Ht'.
Qed.

Lemma backed_promised cap before low more l (k : K) c i a :
  held (cap := cap) (before := before) (low := low) more (view k) l → books_settled l →
  l_conns l !! i = Some c → is_right l c a → promised cap more l k c a.
Proof.
  intros (hist & Ht & _ & _ & Hn) [_ Hd] Hc [_ Ho]. destruct a as [flags q cs|cs]; [|done].
  assert (backed hist (cn_session c) cs) as [->|(e & He & Es & Ec)]; [|by left|right].
  { destruct (td_slots _ _ _ _ Ht _ _ Hc) as [_ _ _ Hlo Hre]. by destruct Ho as [-> | ->]. }
  exists e. split; [done|]. split; [done|]. intros n l' k' Hle Hps.
  eapply flushed_outlasts; [exact Ht| |exact Hn|exact He|exact Hle|].
  - exact (in_use_durable _ _ _ _ _ _ (td_log _ _ _ _ Ht) Hd He).
  - exact (phs_step 0 n _ _ _ _ _ _ (ph_acks l k) Hps).
Qed.

Lemma chained_has base es q : chained base es → base <= q < base + zlen es → ∃ e, e ∈ es ∧ w_seq e.1 = q.
Proof.
  revert base. induction es as [|[r p] es IH]; cbn [chained length]; intros base Hc Hq; [lia|].
  destruct Hc as (Hs & _ & Hc). destruct (decide (q = base)) as [->|].
  - exists (r, p). split; [by left|done].
  - destruct (IH (base + 1) Hc ltac:(lia)) as (e & ? & ?). exists e. split; [by right|done].
Qed.

(** A log has a record for every sequence from the first it keeps on. *)
Lemma in_use_has cap t v w hist q :
  in_use cap t v w hist → wal_first_seq w <= q < wal_next_seq w → ∃ e, e ∈ hist ∧ w_seq e.1 = q.
Proof.
  intros (segs & a & b & L) Hq. destruct (held_lasting _ _ _ _ _ _ L) as [Hf _].
  destruct (active_next _ _ _ _ _ (lg_active L)) as [En _]. unfold wal_next_seq in Hq.
  pose proof (seg_chain_total _ _ (ls_chain _ _ _ _ _ (lg_last L))) as Hsegs.
  destruct (lg_hist L) as (b0 & old & Hb0 & Hc & -> & Hn).
  eapply chained_has; [exact Hc|]. unfold all_records. rewrite !length_app in *. lia.
Qed.

Lemma in_use_flushed cap t v w hist : in_use cap t v w hist → wal_durable_seq w < wal_next_seq w.
Proof.
  intros (segs & a & b & L). destruct (active_next _ _ _ _ _ (lg_active L)) as [E1 E2].
  unfold wal_durable_seq, wal_next_seq. rewrite E1, E2, length_app. lia.
Qed.

Lemma frame_when_empty op q s :
  rs_staged s = [] → rs_staged (stream_frame op q s) = header_bytes (msg_header_new op MSG_RECORD_NONE 0 0 0 q).
Proof.
  intros E. unfold stream_frame. rewrite E. change (MAX_STREAM_SEND - zlen [] <? MSG_HEADER_SIZE) with false.
  cbn -[header_bytes]. by rewrite E.
Qed.

(** What a replica tells its leader: the sequence it counts as durable, and
    only when it has nothing else to send. *)
Lemma report_frame l :
  rs_staged (l_stream (stream_report l)) ≠ rs_staged (l_stream l) →
  rs_staged (l_stream (stream_report l)) =
    header_bytes (msg_header_new MSG_OP_REPL_ACK MSG_RECORD_NONE 0 0 0 (wal_durable_seq (l_wal l))).
Proof.
  unfold stream_report. cbv zeta. do 2 (destruct (_ : bool); [done|]).
  destruct (Z.ltb_spec 0 (zlen (rs_staged (l_stream l)))); [done|]. intros _.
  apply frame_when_empty. destruct (rs_staged _); [done|cbn in *; lia].
Qed.

Lemma passes_keep {cap before low} room n l (k : K) l' k' :
  passes n l k l' k' → held (cap := cap) (before := before) (low := low) (room + Z.of_nat n * PASS_RECORDS) (view k) l →
  0 <= room → at_rest l → held (cap := cap) (before := before) (low := low) room (view k') l' ∧ at_rest l'.
Proof.
  assert (0 <= PASS_RECORDS) as Hpos by (unfold PASS_RECORDS, EVENT_RECORDS, LOOP_RECV_CAP, MAX_EVENTS; lia).
  intros Hp. induction Hp as [|n l k wait scratch r l1 k1 l' k' Htick Hok Hp IH]; intros Hl Hroom Hrest.
  { by rewrite Z.add_0_r in Hl. }
  assert (wal_next_seq (l_wal l) + PASS_RECORDS < 2 ^ 64) as Hn.
  { destruct Hl as (? & _ & _ & _ & Hn). nia. }
  assert (held (cap := cap) (before := before) (low := low) (room + Z.of_nat n * PASS_RECORDS + PASS_RECORDS) (view k) l)
    as Hl' by (eapply held_weak; [|exact Hl]; nia).
  pose proof (wp_result _ _ _ _ _ (own_tick _ _ wait scratch _ Hl' ltac:(nia)) Htick) as Hl1.
  pose proof (wp_result _ _ _ _ _ (wp_tick_rest l wait scratch k Hrest Hn) Htick) as Hr1.
  cbn [fst snd] in *. apply IH; [done|done|]. by apply Hr1.
Qed.

Lemma wp_gather_held {cap before low} room l scr evs (k : K) :
  held (cap := cap) (before := before) (low := low) (room + EVENT_RECORDS * zlen evs) (view k) l → 0 <= room →
  wp (l1 ← tick_events (l <| l_wal_dirty := false |>) scr evs; tick_flush l1)
    (λ x k', held (cap := cap) (before := before) (low := low) room (view k') x.2) k.
Proof.
  intros Hl Hroom. eapply wp_call; [eapply (own_events evs room); [|done]|].
  - eapply held_calm; [|exact Hl]. eauto with calm.
  - cbv beta. intros l1 k1 Hl1. by eapply own_tick_flush.
Qed.
End promise.

(** ** Stopping *)

(** A descriptor that is neither the log's nor a standard stream's. *)
Definition spare (w : wal_t) (fd : Z) : Prop :=
  0 <= fd → fd ≠ g_fd (wl_active w) ∧ fd ≠ wl_dir_fd w ∧ fd ≠ 1 ∧ fd ≠ 2.

(** The log, and the streams the last messages go to. *)
Record logged (cap : Z) (before : list entry) (v : fsys) (w : wal_t) : Prop := {
  gd_log : ∃ hist, in_use cap false v w hist ∧ before `prefix_of` hist;
  gd_dir : 0 <= wl_dir_fd w;
  gd_std : std_open v }.

Lemma logged_close cap before v w fd : logged cap before v w → 0 <= fd → spare w fd → logged cap before (del_fd fd v) w.
Proof.
  intros [(hist & Hin & Hpre) Hd [H1 H2]] Hge Hsp. destruct (Hsp Hge) as (? & ? & ? & ?). constructor; [|done|].
  - exists hist. split; [|done]. eapply in_use_frame; [exact Hin|done..|]. intros fd' d _ Hfd Hopen. cbn.
    rewrite lookup_delete_ne; [done|]. destruct Hfd as [-> | ->]; congruence.
  - split; cbn; by rewrite lookup_delete_ne by congruence.
Qed.

Lemma owned_spare v l h : owned v l → outside h → h ≠ HOut → h ≠ HErr → spare (l_wal l) (fd_of l h).
Proof.
  intros [_ Ha] [Hx Hy] Ho He Hp.
  assert (∀ h', h ≠ h' → fd_of l h ≠ fd_of l h') as Hne by (intros h' Hn E; by apply Hn, Ha).
  split; [by apply (Hne HActive)|]. split; [by apply (Hne HDir)|]. split; [by apply (Hne HOut)|by apply (Hne HErr)].
Qed.

Section stopping.
Context {cap : Z} {before : list entry} {K : Type} `{SysLaws K}.
#[local] Abbreviation logged := (logged cap before).

Lemma held_logged low room v l : held (cap := cap) (before := before) (low := low) room v l → logged v (l_wal l).
Proof.
  intros (hist & Ht & Hpre & _ & _). destruct Ht as [Hlog Ho Hdir _ _ _]. constructor; [by exists hist|done|].
  split; [destruct (own_open _ _ Ho HOut) as (d & Hd & ->)|destruct (own_open _ _ Ho HErr) as (d & Hd & ->)]; done.
Qed.

Lemma shut_close w fd (k : K) :
  logged (view k) w → spare w fd → wp (close_fd fd) (λ _ k', logged (view k') w) k.
Proof.
  intros Hl Hs. unfold close_fd. destruct (Z.leb_spec 0 fd); [|by apply wp_ret].
  call wp_os_close as r k1 Hv. apply wp_ret. rewrite Hv. by apply logged_close.
Qed.

Lemma shut_scrapes_log w scs (k : K) :
  logged (view k) w → Forall (λ s, spare w (sc_fd s)) scs →
  wp (shut_scrapes scs) (λ _ k', logged (view k') w) k.
Proof.
  revert k. induction scs as [|s scs IH]; intros k Hl Hs; cbn [shut_scrapes]; [by apply wp_ret|].
  apply Forall_cons in Hs as [Hs Hall]. eapply wp_call; [by apply shut_close|]. cbv beta. intros _ k1 Hl1.
  eapply wp_call; [by apply IH|]. cbv beta. intros ? k2 Hl2. by apply wp_ret.
Qed.

Lemma shut_peers_log w ps (k : K) :
  logged (view k) w → Forall (λ p, spare w (peer_fd p)) ps →
  wp (shut_peers ps) (λ _ k', logged (view k') w) k.
Proof.
  revert k. induction ps as [|p ps IH]; intros k Hl Hs; cbn [shut_peers]; [by apply wp_ret|].
  apply Forall_cons in Hs as [Hs Hall]. call wp_cursor_close as [r cur] k1 [_ Hv].
  assert (logged (view k1) w) as Hl1.
  { rewrite Hv. destruct (Z.leb_spec 0 (cu_fd (pe_cursor p))); [by apply logged_close|done]. }
  eapply wp_call; [by apply IH|]. cbv beta. intros ? k2 Hl2. by apply wp_ret.
Qed.

Lemma shut_slots_log w todo l (k : K) :
  logged (view k) w → (∀ j, spare w (cn_fd (slot l j))) →
  wp (shut_slots todo l) (λ l' k', logged (view k') w ∧ l' = l <| l_conns := l_conns l' |>) k.
Proof.
  revert l k. induction todo as [|i todo IH]; intros l k Hl Hs; cbn [shut_slots].
  { apply wp_ret. split; [done|by destruct l]. }
  eapply (wp_call _ (λ l1 k1, logged (view k1) w ∧ (∀ j, spare w (cn_fd (slot l1 j))) ∧
    l1 = l <| l_conns := l_conns l1 |>)).
  - destruct (cn_in_use (slot l i)); cbn [andb]; [|apply wp_ret; split_and!; [done..|by destruct l]].
    destruct (Z.leb_spec 0 (cn_fd (slot l i))); [|apply wp_ret; split_and!; [done..|by destruct l]].
    call wp_os_close as r k1 Hv. apply wp_ret. rewrite Hv. split_and!; [by apply logged_close| |by destruct l].
    intros j. unfold slot_reset.
    destruct (slot_on_cases i (λ c, slot_free (c_buf (cn_conn c))) l j) as [-> | (-> & _ & ->)]; [done|].
    intros Hneg. cbn in Hneg. lia.
  - cbv beta. intros l1 k1 (Hl1 & Hs1 & E1). eapply wp_mono; [by apply IH|]. cbv beta. intros l2 k2 [Hl2 E2].
    split; [done|]. rewrite E2 at 1. rewrite E1. by destruct l.
Qed.

Lemma shutdown_log low room l (k : K) :
  held (cap := cap) (before := before) (low := low) room (view k) l →
  wp (loop_shutdown l) (λ l' k', l_wal l' = l_wal l ∧ logged (view k') (l_wal l)) k.
Proof.
  intros Hl. pose proof (held_own _ _ _ Hl) as Ho. apply held_logged in Hl as Hg.
  assert (∀ h, outside h → h ≠ HOut → h ≠ HErr → spare (l_wal l) (fd_of l h)) as Hs by (intros; by eapply owned_spare).
  unfold loop_shutdown. cbv zeta.
  eapply wp_call; [apply (shut_scrapes_log (l_wal l)); [done|]|].
  { apply Forall_lookup. intros i s Hi. pose proof (Hs (HScrape i)) as Hsc. cbn [fd_of] in Hsc. unfold scrape in Hsc.
    change (l_scrapes l !! i = Some s) in Hi. rewrite Hi in Hsc. by apply Hsc. }
  cbv beta. intros scs k1 Hg1.
  eapply wp_call; [apply (shut_close (l_wal l)); [done|by apply (Hs HMetrics)]|]. cbv beta. intros _ k2 Hg2.
  eapply wp_call; [apply (shut_slots_log (l_wal l)); [done|]|].
  { intros j. exact (Hs (HConn j) ltac:(done) ltac:(done) ltac:(done)). }
  cbv beta. intros l1 k3 [Hg3 ->]. cbn.
  eapply wp_call; [apply (shut_peers_log (l_wal l)); [done|]|].
  { apply Forall_lookup. intros i p Hi. pose proof (Hs (HPeer i)) as Hsp. cbn [fd_of] in Hsp. unfold peer in Hsp.
    rewrite Hi in Hsp. by apply Hsp. }
  cbv beta. intros ps k4 Hg4.
  eapply wp_call; [apply (shut_close (l_wal l)); [done|by apply (Hs HStream)]|]. cbv beta. intros _ k5 Hg5.
  eapply wp_call; [apply (shut_close (l_wal l)); [done|by apply (Hs HTimer)]|]. cbv beta. intros _ k6 Hg6.
  eapply wp_call; [apply (shut_close (l_wal l)); [done|by apply (Hs HListen)]|]. cbv beta. intros _ k7 Hg7.
  eapply wp_call; [apply (shut_close (l_wal l)); [done|by apply (Hs HSignal)]|]. cbv beta. intros _ k8 Hg8.
  eapply wp_call; [apply (shut_close (l_wal l)); [done|by apply (Hs HEpoll)]|]. cbv beta. intros _ k9 Hg9.
  by apply wp_ret.
Qed.
End stopping.

Section stopped.
Context {cap : Z} {before : list entry} {K : Type} `{SysLaws K}.
#[local] Abbreviation logged := (logged cap before).

(** Closing a log changes nothing a crash could see. *)
Lemma wp_close_files w (k : K) :
  wp (wal_close w) (λ x k',
    (f_names (view k') = f_names (view k) ∧ f_disk (view k') = f_disk (view k) ∧
     f_inodes (view k') = f_inodes (view k)) ∧
    wl_seg_base x.2 = wl_seg_base w ∧ wal_durable_seq x.2 = wal_durable_seq w ∧
    wal_next_seq x.2 = wal_next_seq w) k.
Proof.
  unfold wal_close. eapply (wp_call _ (λ x k1,
    (f_names (view k1) = f_names (view k) ∧ f_disk (view k1) = f_disk (view k) ∧
     f_inodes (view k1) = f_inodes (view k)) ∧
    wl_seg_base x.2 = wl_seg_base w ∧ wal_durable_seq x.2 = wal_durable_seq w ∧
    wal_next_seq x.2 = wal_next_seq w)).
  - destruct (0 <=? _); [|by apply wp_ret]. unfold wal_seg_close. destruct (_ <? 0); [by apply wp_bind, wp_ret, wp_ret|].
    apply wp_bind. call wp_os_close as r k1 Hv. apply wp_ret, wp_ret. by rewrite Hv.
  - cbv beta. intros [r w1] k1 Hx. cbn [snd] in Hx. destruct (0 <=? _); [|by apply wp_ret].
    call wp_os_close as r2 k2 Hv. apply wp_ret. rewrite Hv. exact Hx.
Qed.

(** The records have all the sequences the log assigned, without a gap, and
    all of them are flushed. *)
Definition complete (w : wal_t) (stored : list entry) : Prop :=
  ∃ first, 0 < first ∧ chained first stored ∧ first + zlen stored = wal_next_seq w ∧
    wal_durable_seq w = wal_next_seq w - 1.

(** What a finished server leaves: its log, all of it flushed. *)
Definition leaves_log (x : option (Z * wal_t)) (v : fsys) : Prop :=
  ∀ w, x = Some (0, w) → ∃ stored, before `prefix_of` stored ∧
    complete w stored ∧ outlives (K := K) v cap w stored.

(** What opening is told of the log it finds can be told with less. *)
Lemma reopened_weaken {C} (cb : C → wal_rec_t → C) (fine fine' flushed flushed' : Prop) v first durable ctx x v' :
  (fine' → fine) → (flushed' → flushed) → reopened cb fine flushed v first durable ctx x v' →
  reopened cb fine' flushed' v first durable ctx x v'.
Proof.
  intros Hf Hk. destruct x as [[[r w] out] ctx']. unfold reopened. destruct (result_ok r).
  - intros (older & more & Hx). exists older, more. cbv zeta in *. naive_solver.
  - naive_solver.
Qed.

Lemma outlives_same v v' w w' stored :
  outlives (K := K) v cap w stored →
  f_names v' = f_names v → f_disk v' = f_disk v → f_inodes v' = f_inodes v →
  wl_seg_base w' = wl_seg_base w → wal_durable_seq w' = wal_durable_seq w →
  outlives (K := K) v' cap w' stored.
Proof.
  intros Ho En Ek Ei Eb Ed C cb rounds w0 path scratch ctx kc [Hf Hk Hn Hd Hfiles] Hr Hs.
  assert (wal_first_seq w' = wal_first_seq w) as -> by (unfold wal_first_seq; by rewrite Eb).
  assert (wal_segments w' = wal_segments w) as -> by (unfold wal_segments, seg_count; by rewrite Eb).
  rewrite Ed. eapply wp_mono; [apply Ho; [|done|done]|].
  { rewrite En, Ek, Ei in *. by constructor. }
  cbv beta. intros x k1 (y & -> & Hy). exists y. split; [done|]. eapply reopened_weaken; [..|exact Hy].
  - intros [(Hcl & Hnm & Hrk) Hfew]. split; [|done]. unfold healthy, names_in, removals_kept, clean_at in *.
    rewrite Eb, En, Ei, Ek in *. done.
  - unfold removals_kept. by rewrite Ek.
Qed.

Lemma wp_out_wal_log w (k : K) :
  logged (view k) w → wal_durable_seq w = wal_next_seq w - 1 →
  wp (out_wal w 0) (λ x k', leaves_log x (view k')) k.
Proof.
  intros [(hist & Hin & Hpre) _ _] Hd. unfold out_wal.
  call wp_close_files as [r w'] k1 ((En & Ek & Ei) & Eb & Ed & Enx). cbn [snd] in *. apply wp_ret. intros w1 [= <-].
  exists hist. split; [done|]. split.
  - destruct (in_use_next _ _ _ Hin) as (b0 & ? & ? & ?). exists b0. by rewrite Ed, Enx.
  - eapply outlives_same; [by eapply in_use_outlives|done..].
Qed.

Lemma leaves_nothing rc (v : fsys) w : rc ≠ 0 → leaves_log (Some (rc, w)) v.
Proof. by intros Hrc w' [= ? _]. Qed.

Lemma wp_fail_log w rc (k : K) : rc ≠ 0 → wp (out_wal w rc) (λ x k', leaves_log x (view k')) k.
Proof.
  intros Hrc. unfold out_wal. eapply wp_call; [apply wp_any|]. intros [r w'] k1 _. by apply wp_ret, leaves_nothing.
Qed.

Lemma run_held low passes room l scratch (k : K) :
  held (cap := cap) (before := before) (low := low) (room + Z.of_nat passes * PASS_RECORDS) (view k) l → 0 <= room →
  wp (loop_run passes l scratch) (λ x k', ∀ r l', x = Some (r, l') →
    held (cap := cap) (before := before) (low := low) room (view k') l') k.
Proof.
  assert (0 <= PASS_RECORDS) as Hpos by (unfold PASS_RECORDS, EVENT_RECORDS, LOOP_RECV_CAP, MAX_EVENTS; lia).
  revert l k. induction passes as [|passes IH]; intros l k Hl Hroom; cbn [loop_run];
    (destruct (l_stop l); [apply wp_ret; intros ? ? [= <- <-]; eapply held_weak; [|exact Hl]; nia|]).
  { by apply wp_ret. }
  eapply wp_call; [eapply (own_tick (room + Z.of_nat passes * PASS_RECORDS)); [|nia]|].
  { eapply held_weak; [|exact Hl]. nia. }
  cbv beta. intros [r l1] k1 Hl1. cbn [snd] in Hl1. destruct (negb _); [|by apply IH].
  apply wp_ret. intros ? ? [= <- <-]. eapply held_weak; [|exact Hl1]. nia.
Qed.

Lemma wp_run_log low passes scratch l (k : K) :
  held (cap := cap) (before := before) (low := low) (0 + Z.of_nat passes * PASS_RECORDS) (view k) l →
  wp (run_loop passes scratch l) (λ x k', leaves_log x (view k')) k.
Proof.
  intros Hl. unfold run_loop. eapply wp_call; [by eapply (run_held low passes 0)|]. cbv beta.
  intros [[r l1]|] k1 Hx; [|by apply wp_ret]. specialize (Hx r l1 eq_refl).
  destruct (negb _).
  { unfold give_up_loop. do 2 (eapply wp_call; [apply wp_any|intros ? ? _]). by apply wp_fail_log. }
  eapply wp_call; [by eapply shutdown_log|]. cbv beta. intros l2 k2 [-> [(hist & Hin & Hpre) Hd Hstd]].
  destruct Hin as (segs & a & b & L).
  call (state_sync (cap := cap) (t := false) (l_wal l1) hist segs a b) as [r3 w3] k3 (En & Hmv & Hlog); [done|].
  cbn [fst snd] in *. destruct (result_ok r3); cbn [negb].
  2: { eapply wp_call; [apply wp_any|intros ? ? _]. by apply wp_fail_log. }
  assert (std_open (view k3)) as Hstd3.
  { destruct Hmv as [_ Ho _ _].
    assert (∀ fd, f_fds (view k2) !! fd = Some FOther → 0 <= fd → fd ≠ g_fd (wl_active (l_wal l1))) as Hne.
    { intros fd Hfd Hge ->. destruct (lg_active L) as [ino i _ Hf _ _ _ _|]; [|lia].
      apply fd_file_lookup in Hf as [Hf _]. congruence. }
    destruct Hstd as [H1 H2]. split; apply Ho; try lia; try done; by apply Hne. }
  assert (wal_durable_seq w3 = wal_next_seq w3 - 1) as Hdur.
  { destruct (active_next _ _ _ _ _ (lg_active Hlog)) as [E1 E2]. unfold wal_durable_seq, wal_next_seq.
    rewrite E1, E2, app_nil_r. lia. }
  assert (logged (view k3) w3) as Hg3.
  { constructor; [|by rewrite (lm_dir _ _ _ _ Hmv)|done]. exists hist. split; [|done]. by exists segs, (a ++ b), []. }
  eapply wp_call; [by apply quiet_out; [left|]|]. cbv beta. intros _ k4 Hv4.
  eapply wp_call; [apply quiet_all; [by left|by rewrite Hv4]|]. cbv beta. intros _ k5 Hv5.
  eapply wp_call; [apply quiet_out; [by left|by rewrite Hv5, Hv4]|]. cbv beta. intros _ k6 Hv6.
  apply wp_out_wal_log; [by rewrite Hv6, Hv5, Hv4|done].
Qed.
End stopped.

Ltac bad_end :=
  intros _; unfold give_up_loop, out_wal;
  repeat match goal with
  | |- ((?m ≫= _) ?k).1 ≠ _ =>
      let x := fresh "x" in let k' := fresh "k" in let E := fresh "E" in
      destruct (m k) as [x k'] eqn:E; rewrite (run_bind m _ _ _ _ E);
      lazymatch type of x with (_ * _)%type => destruct x as [? ?] | _ => idtac end; cbv beta iota
  end; by intros [=].
Ltac bad_check :=
  lazymatch goal with |- (if ?b then _ else _) _ = _ → _ => destruct b; [bad_end|] end.

Lemma start_loop_gives_up {K : Type} `{Sys K} passes scratch a addr sig_fd w t (k k1 : K) w' :
  ready_loop a addr sig_fd w t k = (None, k1) →
  (start_loop passes scratch a addr sig_fd w t k).1 ≠ Some (0, w').
Proof.
  unfold ready_loop, start_loop. next_call. bad_check. next_call. next_call. bad_check. next_call. bad_check.
  next_call. by intros [=].
Qed.

(** A server that gives up before its loop does not end with status 0. *)
Lemma run_server_gives_up {K : Type} `{Sys K} rounds passes w0 scratch dir a (k k1 : K) w :
  start_server rounds w0 scratch dir a k = (None, k1) →
  (run_server rounds passes w0 scratch dir a k).1 ≠ Some (0, w).
Proof.
  unfold start_server, run_server, leader_addr. next_call. bad_check. next_call.
  match goal with |- context [match ?x with Some _ => _ | None => _ end] => destruct x as [[[[? ?] ?] ?]|] end;
    [|by intros _].
  bad_check. do 3 next_call. bad_check.
  destruct (a_leader a); [destruct (parse_addr _); [|bad_end]|]; apply start_loop_gives_up.
Qed.

(** ** Properties *)

Module ServerProps.
Import Os.Sim.

(** An empty directory, the standard streams, and a client that comes in the
    first pass and says its greeting and its first write in the second. *)
Definition demo : sim :=
  (boot [77]) <| s_view ::= λ v, v <| f_fds := {[1 := FOther; 2 := FOther]} |> |>
    <| s_net := Net [[(UD_MAKE OP_LISTEN 0, EPOLLIN)]] [(8, LoopProps.demo_frames)] |>.

Definition demo_args : args_t := args_default <| a_dir := Some (txt ".") |> <| a_seg_size := 512 |>.

Definition demo_leader : option loop_t * sim :=
  start_server 9 CursorProps.demo_wal (zeros 256) (txt ".") demo_args demo.

(** The acknowledgement, and what is found after a crash. *)
Definition demo_acked : option (bool * bool * option (bool * list Z)) :=
  l ← demo_leader.1;
  let '((r, l), s) := loop_tick l true (zeros 256) demo_leader.2 in
  let '((r', l), s) := (l1 ← tick_events (l <| l_wal_dirty := false |>) (zeros 256) [(UD_MAKE OP_CONN 0, EPOLLIN)];
                        tick_flush l1) s in
  Some (result_ok r && result_ok r',
        bool_decide (cn_staged (slot (acks_emit l) 0) = cn_staged (slot l 0) ++ answer_bytes (SaidAck 3 1 1)),
        (λ y, (result_ok y.1.1.1, y.2)) <$>
          (wal_open ReopenProps.demo_cb 9 CursorProps.demo_wal (txt "." ++ [Byte.x00]) 512 (zeros 256) []
             (DurableProps.crashed s)).1).

Lemma demo_directory : directory true (view demo) (i64 (a_seg_size demo_args)) (zlen (zeros 256)) [] 1.
Proof. apply dir_new; [|by vm_compute..]. intros n b [ino Hn]. by vm_compute in Hn. Qed.

(** C1. What is acknowledged is kept: start a leader on a directory that has
    no log or holds one, let any number of its passes go by, and take the
    acknowledgements it stages once it has handled its events and flushed.
    For each that names a client sequence other than 0, which is no write's,
    the log has a record of that connection's session under that sequence; and
    after whatever the server does from then on, part of a pass by part of a
    pass, each of its calls failing as it may, and a crash at that point,
    opening what the crash left either finds that record, unless retention had
    removed it, or fails, changing nothing.  In a log without damage that is
    not full only a system call can make it fail; one with damage, such as a
    torn tail written over and closed, may be refused. *)
Theorem acknowledged_write_survives {K : Type} `{SysLaws K} (rounds passed : nat) (w0 : wal_t)
    (scratch dir : list byte) (a : args_t) (hist : list entry) (next more : Z) (tidy : bool)
    (evs : list (Z * Z)) (k : K)
    (Hdir : directory tidy (view k) (i64 (a_seg_size a)) (zlen scratch) hist next)
    (Hrounds : (size (f_names (view k)) + 2 < rounds)%nat) (Hstreams : std_open (view k))
    (Hleader : a_leader a = None) (Hmore : 0 <= more)
    (Hroom : next + Z.of_nat passed * PASS_RECORDS + EVENT_RECORDS * zlen evs + more < 2 ^ 64) :
  wp (start_server rounds w0 scratch dir a) (λ y k0, ∀ l0 l k1 scr,
    y = Some l0 → passes passed l0 k0 l k1 →
    wp (l1 ← tick_events (l <| l_wal_dirty := false |>) scr evs; tick_flush l1) (λ x k2,
      result_ok x.1 = true → ∀ i c, l_conns x.2 !! i = Some c → ∃ c' out,
        l_conns (acks_emit x.2) !! i = Some c' ∧
        cn_staged c' = cn_staged c ++ concat (answer_bytes <$> out) ∧
        Forall (promised (i64 (a_seg_size a)) more x.2 k2 c) out) k1) k.
Proof.
  set (room := more + EVENT_RECORDS * zlen evs + Z.of_nat passed * PASS_RECORDS).
  assert (0 <= EVENT_RECORDS) by (unfold EVENT_RECORDS, LOOP_RECV_CAP; lia).
  assert (0 <= PASS_RECORDS) by (unfold PASS_RECORDS, MAX_EVENTS; lia).
  eapply wp_mono; [eapply (wp_start_server _ _ _ _ _ hist next tidy room); try done; unfold room; nia|].
  intros y k0 Hy l0 l k1 scr -> Hp. destruct (Hy l0 eq_refl) as [Hl0 [Hrest0 _]%(λ f, f Hleader)].
  destruct (passes_keep (more + EVENT_RECORDS * zlen evs) _ _ _ _ _ Hp Hl0 ltac:(nia) Hrest0) as [Hl Hrest].
  assert (wal_next_seq (l_wal l) + EVENT_RECORDS * zlen evs < 2 ^ 64) by (destruct Hl as (? & _ & _ & _ & Hn); lia).
  eapply wp_mono; [apply wp_both; [by eapply wp_gather_held|by apply wp_gather]|].
  cbv beta. intros [r l2] k2 [Hl2 Hb] Hok i c Hc. cbn [fst snd] in *.
  destruct (acks_emit_true _ (Hb Hok)) as [_ Ha]. destruct (Ha i c Hc) as (c' & Hc' & (out & Hst & Hr & _)).
  exists c', out. split; [done|]. split; [done|]. eapply Forall_impl; [exact Hr|].
  intros x Hx. exact (backed_promised _ _ _ _ _ _ _ _ _ Hl2 (Hb Hok) Hc Hx).
Qed.

Lemma acknowledged_write_survives_witness :
  wp (start_server 9 CursorProps.demo_wal (zeros 256) (txt ".") demo_args) (λ y k0, ∀ l0 l k1 scr,
    y = Some l0 → passes 1 l0 k0 l k1 →
    wp (l1 ← tick_events (l <| l_wal_dirty := false |>) scr [(UD_MAKE OP_CONN 0, EPOLLIN)]; tick_flush l1) (λ x k2,
      result_ok x.1 = true → ∀ i c, l_conns x.2 !! i = Some c → ∃ c' out,
        l_conns (acks_emit x.2) !! i = Some c' ∧
        cn_staged c' = cn_staged c ++ concat (answer_bytes <$> out) ∧
        Forall (promised 512 (2 ^ 60) x.2 k2 c) out) k1) demo ∧
  demo_acked = Some (true, true, Some (true, [1])).
Proof.
  split; [|vm_compute; reflexivity].
  refine (acknowledged_write_survives 9 1 CursorProps.demo_wal (zeros 256) (txt ".") demo_args [] 1 (2 ^ 60) true
    [(UD_MAKE OP_CONN 0, EPOLLIN)] demo demo_directory ltac:(apply Nat.ltb_lt; vm_compute; reflexivity)
    _ eq_refl ltac:(discriminate) ltac:(vm_compute; reflexivity)).
  split; vm_compute; reflexivity.
Defined.

(** The same directory under a replica, whose leader accepts it and sends it a
    record in its first pass. *)
Definition demo_follower_args : args_t := demo_args <| a_leader := Some (txt "127.0.0.1:7400") |>.

Definition demo_fed : sim :=
  demo <| s_net := Net [[(UD_MAKE OP_STREAM 0, EPOLLIN)]] [(9, LoopFacts.data_frame 1 [LogProps.demo_a])] |>.

Definition demo_follower : option loop_t * sim :=
  start_server 9 CursorProps.demo_wal (zeros 256) (txt ".") demo_follower_args demo_fed.

(** The replica's loop when its events are handled and flushed. *)
Definition demo_received : option (loop_t * sim) :=
  l ← demo_follower.1;
  let '(l, s) := arm_all l demo_follower.2 in
  let '((r, l), s) := (l1 ← tick_events l (zeros 256) [(UD_MAKE OP_STREAM 0, EPOLLIN)]; tick_flush l1) s in
  if result_ok r then Some (l, s) else None.

(** C9. No descriptor of the server is another's: from the start of a leader
    or of a replica on, after any parts of passes and whatever their calls
    did, every place of the loop's state that names a descriptor - the loop's
    own, each client's, each cursor's, each scrape's, the stream's to the
    leader, the log's segment and directory - names one that is open and of
    the kind it takes it for, and no two name the same one. *)
Theorem descriptors_stay_apart {K : Type} `{SysLaws K} (rounds : nat) (w0 : wal_t)
    (scratch dir : list byte) (a : args_t) (hist : list entry) (next more : Z) (tidy : bool) (k : K)
    (Hdir : directory tidy (view k) (i64 (a_seg_size a)) (zlen scratch) hist next)
    (Hrounds : (size (f_names (view k)) + 2 < rounds)%nat) (Hstreams : std_open (view k))
    (Hmore : 0 <= more) (Hroom : next + more < 2 ^ 64) :
  wp (start_server rounds w0 scratch dir a) (λ y k0, ∀ l0 l k1,
    y = Some l0 → phases more l0 k0 l k1 → owned (view k1) l) k.
Proof.
  eapply wp_mono; [by apply (wp_start_server _ _ _ _ _ hist next tidy more)|]. intros y k0 Hy l0 l k1 -> Hp.
  destruct (Hy l0 eq_refl) as [Hl0 _]. eapply held_own, (held_phases 0); [exact Hp|exact Hl0|done].
Qed.

Lemma descriptors_stay_apart_witness :
  wp (start_server 9 CursorProps.demo_wal (zeros 256) (txt ".") demo_follower_args) (λ y k0, ∀ l0 l k1,
    y = Some l0 → phases (2 ^ 60) l0 k0 l k1 → owned (view k1) l) demo ∧
  ((λ x, (λ h, fd_of x.1 h) <$> [HActive; HDir; HSignal; HEpoll; HListen; HTimer; HStream]) <$> demo_received)
    = Some [4; 3; 5; 6; 7; 8; 9].
Proof.
  split; [|vm_compute; reflexivity].
  refine (descriptors_stay_apart 9 CursorProps.demo_wal (zeros 256) (txt ".") demo_follower_args [] 1 (2 ^ 60) true demo
    demo_directory ltac:(apply Nat.ltb_lt; vm_compute; reflexivity) _ ltac:(discriminate) ltac:(vm_compute; reflexivity)).
  split; vm_compute; reflexivity.
Defined.

(** What is found after a crash of the replica right after its report. *)
Definition demo_reported : option (bool * option (bool * list Z)) :=
  '(l, s) ← demo_received;
  Some (bool_decide (rs_staged (l_stream (stream_report l)) =
          header_bytes (msg_header_new MSG_OP_REPL_ACK MSG_RECORD_NONE 0 0 0 1)),
        (λ y, (result_ok y.1.1.1, y.2)) <$>
          (wal_open ReopenProps.demo_cb 9 CursorProps.demo_wal (txt "." ++ [Byte.x00]) 512 (zeros 256) []
             (DurableProps.crashed s)).1).

(** C4. What a replica reports is kept: from its start on, after any parts
    of passes, the one frame a report to the leader stages names a sequence
    such that the replica's log has a record under every sequence from the
    first it keeps up to that one; and whatever the replica does from then
    on, part of a pass by part of a pass, each of its calls failing as it
    may, and a crash at that point, opening what the crash left either finds
    each of these records that retention had not removed, or fails, changing
    nothing.  In a log without damage that is not full only a system call can
    make it fail; one with damage may be refused. *)
Theorem reported_records_survive {K : Type} `{SysLaws K} (rounds : nat) (w0 : wal_t)
    (scratch dir : list byte) (a : args_t) (hist : list entry) (next spent more : Z) (tidy : bool) (k : K)
    (Hdir : directory tidy (view k) (i64 (a_seg_size a)) (zlen scratch) hist next)
    (Hrounds : (size (f_names (view k)) + 2 < rounds)%nat) (Hstreams : std_open (view k))
    (Hspent : 0 <= spent) (Hmore : 0 <= more) (Hroom : next + spent + more < 2 ^ 64) :
  wp (start_server rounds w0 scratch dir a) (λ y k0, ∀ l0 l k1,
    y = Some l0 → phases spent l0 k0 l k1 →
    rs_staged (l_stream (stream_report l)) ≠ rs_staged (l_stream l) → ∃ last,
      rs_staged (l_stream (stream_report l)) =
        header_bytes (msg_header_new MSG_OP_REPL_ACK MSG_RECORD_NONE 0 0 0 last) ∧
      ∀ q, wal_first_seq (l_wal l) <= q <= last → ∃ e, w_seq e.1 = q ∧
        ∀ n l' k', n <= more → phases n (stream_report l) k1 l' k' → outlasts (i64 (a_seg_size a)) e l' k') k.
Proof.
  eapply wp_mono; [apply (wp_start_server _ _ _ _ _ hist next tidy (more + spent)); try done; lia|].
  intros y k0 Hy l0 l k1 -> Hp Hrep. destruct (Hy l0 eq_refl) as [Hl0 _].
  destruct (held_phases more _ _ _ _ _ Hp Hl0 Hmore) as (hist' & Ht & _ & _ & Hn).
  exists (wal_durable_seq (l_wal l)). split; [by apply report_frame|]. intros q Hq.
  pose proof (in_use_flushed _ _ _ _ _ (td_log _ _ _ _ Ht)) as Hd.
  destruct (in_use_has _ _ _ _ _ q (td_log _ _ _ _ Ht)) as (e & He & Eq); [lia|].
  exists e. split; [done|]. intros n l' k' Hle Hps.
  eapply flushed_outlasts; [exact Ht|lia|exact Hn|exact He|exact Hle|].
  exact (phs_step 0 n _ _ _ _ _ _ (ph_report l k1) Hps).
Qed.

Lemma reported_records_survive_witness :
  wp (start_server 9 CursorProps.demo_wal (zeros 256) (txt ".") demo_follower_args) (λ y k0, ∀ l0 l k1,
    y = Some l0 → phases EVENT_RECORDS l0 k0 l k1 →
    rs_staged (l_stream (stream_report l)) ≠ rs_staged (l_stream l) → ∃ last,
      rs_staged (l_stream (stream_report l)) =
        header_bytes (msg_header_new MSG_OP_REPL_ACK MSG_RECORD_NONE 0 0 0 last) ∧
      ∀ q, wal_first_seq (l_wal l) <= q <= last → ∃ e, w_seq e.1 = q ∧
        ∀ n l' k', n <= 2 ^ 60 → phases n (stream_report l) k1 l' k' → outlasts 512 e l' k') demo_fed ∧
  demo_reported = Some (true, Some (true, [1])).
Proof.
  split; [|vm_compute; reflexivity].
  refine (reported_records_survive 9 CursorProps.demo_wal (zeros 256) (txt ".") demo_follower_args [] 1 EVENT_RECORDS
    (2 ^ 60) true demo_fed demo_directory ltac:(apply Nat.ltb_lt; vm_compute; reflexivity) _ ltac:(discriminate)
    ltac:(discriminate) ltac:(vm_compute; reflexivity)).
  split; vm_compute; reflexivity.
Defined.

(** The same directory under a server that is sent a signal after the client's
    write. *)
Definition demo_stopping : sim :=
  demo <| s_net := Net [[(UD_MAKE OP_LISTEN 0, EPOLLIN)]; [(UD_MAKE OP_CONN 0, EPOLLIN)]; [(UD_MAKE OP_SIGNAL 0, EPOLLIN)]]
                     [(8, LoopProps.demo_frames); (5, zeros 128)] |>.

Definition demo_stopped : option (Z * Z) * option (bool * list Z) :=
  let '(x, s) := run_server 9 4 CursorProps.demo_wal (zeros 256) (txt ".") demo_args demo_stopping in
  ((λ y, (y.1, wal_durable_seq y.2)) <$> x,
   (λ y, (result_ok y.1.1.1, y.2)) <$>
     (wal_open ReopenProps.demo_cb 9 CursorProps.demo_wal (txt "." ++ [Byte.x00]) 512 (zeros 256) []
        (DurableProps.crashed s)).1).

(** C3. A server that stops has its log on disk: run a leader or a replica on a directory
    that has no log or holds one, through any number of passes with whatever
    events and failures, to its stop; if it ends with status 0, the log has
    what it held before and a record for every sequence assigned since, all
    of it is flushed, and also after a crash right then opening it either
    finds every record from the first one kept to the last, or fails, changing
    nothing.  In a log without damage that is not full only a system call can
    make it fail; one with damage may be refused. *)
Theorem stopped_server_leaves_log {K : Type} `{SysLaws K} (rounds passed : nat) (w0 : wal_t)
    (scratch dir : list byte) (a : args_t) (hist : list entry) (next : Z) (tidy : bool) (k : K)
    (Hdir : directory tidy (view k) (i64 (a_seg_size a)) (zlen scratch) hist next)
    (Hrounds : (size (f_names (view k)) + 2 < rounds)%nat) (Hstreams : std_open (view k))
    (Hroom : next + Z.of_nat passed * PASS_RECORDS < 2 ^ 64) :
  wp (run_server rounds passed w0 scratch dir a) (λ x k', ∀ w, x = Some (0, w) →
    ∃ stored, hist `prefix_of` stored ∧ complete w stored ∧
      outlives (K := K) (view k') (i64 (a_seg_size a)) w stored) k.
Proof.
  assert (0 <= PASS_RECORDS) by (unfold PASS_RECORDS, EVENT_RECORDS, LOOP_RECV_CAP, MAX_EVENTS; lia).
  pose proof (wp_start_server rounds w0 scratch dir a hist next tidy (Z.of_nat passed * PASS_RECORDS) k
    Hdir Hrounds Hstreams Hroom ltac:(nia)) as (y & k1 & E & Hy)%wp_elim.
  destruct y as [l|].
  - destruct (Hy l eq_refl) as [Hl _].
    eapply wp_from; [by eapply run_server_starts|]. eapply wp_run_log. by rewrite Z.add_0_l.
  - eapply (wp_intro _ _ _ _ _ (surjective_pairing _)). intros w Hw.
    by destruct (run_server_gives_up rounds passed w0 scratch dir a k k1 w E).
Qed.

Lemma stopped_server_leaves_log_witness :
  wp (run_server 9 4 CursorProps.demo_wal (zeros 256) (txt ".") demo_args) (λ x k', ∀ w, x = Some (0, w) →
    ∃ stored, [] `prefix_of` stored ∧ complete w stored ∧
      outlives (K := sim) (view k') 512 w stored) demo_stopping ∧
  demo_stopped = (Some (0, 1), Some (true, [1])).
Proof.
  split; [|vm_compute; reflexivity].
  refine (stopped_server_leaves_log 9 4 CursorProps.demo_wal (zeros 256) (txt ".") demo_args [] 1 true demo_stopping
    demo_directory ltac:(apply Nat.ltb_lt; vm_compute; reflexivity) _ ltac:(vm_compute; reflexivity)).
  split; vm_compute; reflexivity.
Defined.
End ServerProps.
