(* ===== verification/Selfcheck.v ===== *)
(** * The program's own checks, without files (src/server/selfcheck.c)

    What [--selfcheck] runs on the parts that touch no file and no socket:
    the arena, the checksum, the codecs, the record, the key index, the
    connection's framing and the session table, and the error stack.  Each check is the
    code's own sequence of steps and tests on the models of these parts; that
    they pass says of the models what the program says of itself.  The
    diagnostics a debug build prints are left out. *)

From Stdlib Require Import String.
From S2P Require Import Prelude Core Crc32c Fmt Msg Conn Record Index Os Session.
From S2P Require Import LoopState Main.
Import Core.Mem Core.Span Core.Arena Core.Err.

Open Scope Z_scope.
Open Scope stdpp_scope.

(** A check without system calls ends at the first thing it finds wrong. *)
Definition wrong (b : bool) : option () := if b then None else Some ().

Definition is_none {A} (o : option A) : bool := match o with None => true | Some _ => false end.

(** A call on [buf + off]. *)
Definition at_off (off : Z) (f : list byte → option (list byte)) (buf : list byte) : option (list byte) :=
  (λ tail, take (Z.to_nat off) buf ++ tail) <$> f (drop (Z.to_nat off) buf).

(** [buf[i] ^= 1]. *)
Definition flip_bit (buf : list byte) (i : Z) : list byte :=
  match zget buf i with
  | Some b => zset buf i (byte.of_Z (Z.lxor (byte.unsigned b) 1))
  | None => buf
  end.

(** ** Arena *)

(** Clearing the first span through its pointer changes nothing the arena
    keeps. *)
Definition selfcheck_arena (a : arena_t) : option arena_t :=
  let '(s1, a) := arena_alloc a 100 in
  let '(s2, a) := arena_alloc a 200 in
  wrong (span_empty s1 || span_empty s2 || (s_off s1 =? s_off s2));;
  wrong (s_off s2 <? s_off s1 + s_len s1);;
  wrong (is_none (arena_ptr a s1));;
  Some a.

(** ** Checksum *)

Definition check : list byte := txt "123456789".

Definition crc32c_vectors : option () :=
  let whole := crc32c 0 check 9 in
  wrong (negb (whole =? 0xE3069283));;
  wrong (negb (crc32c 0 (txt "a") 1 =? 0xC1D04330));;
  wrong (negb (crc32c 0 check 0 =? 0));;
  let split := crc32c (crc32c 0 check 4) (drop 4 check) 5 in
  wrong (negb (split =? whole));;
  wrong (existsb (λ i, negb (crc32c (crc32c 0 check i) (drop (Z.to_nat i) check) (9 - i) =? whole))
           (seqZ 0 10)).

Definition selfcheck_crc32c {K : Type} `{Sys K} : M K (option ()) :=
  sse ← crc32c_available;
  mret (wrong (negb sse);; crc32c_vectors).

(** ** Codecs *)

#[export] Instance eta_header : Eta msg_header_t := λ h,
  Header (h_magic h) (h_version h) (h_flags h) (h_op h) (h_record_type h) (h_payload_len h)
    (h_partition_key h) (h_sequence h).
#[export] Instance eta_hello : Eta msg_hello_t := λ h,
  Hello (he_session h) (he_name_len h) (he_pad0 h) (he_pad1 h).

Definition selfcheck_header : option () :=
  let buf := zeros 64 in
  let hdr_out := msg_header_new MSG_OP_WRITE MSG_RECORD_NONE (Z.lor MSG_FLAG_ACK_REQ MSG_FLAG_SYNC) 128 42 1 in
  buf ← msg_encode_header buf 64 hdr_out;
  hdr_in ← msg_decode_header buf 64;
  wrong (negb (h_magic hdr_in =? MSG_MAGIC) || negb (h_version hdr_in =? MSG_VERSION) ||
         negb (h_op hdr_in =? MSG_OP_WRITE) || negb (h_record_type hdr_in =? MSG_RECORD_NONE) ||
         negb (h_payload_len hdr_in =? 128) || negb (h_partition_key hdr_in =? 42) ||
         negb (h_sequence hdr_in =? 1) ||
         negb (h_flags hdr_in =? Z.lor MSG_FLAG_ACK_REQ MSG_FLAG_SYNC) ||
         negb (msg_header_valid hdr_in));;
  let hdr_in := hdr_in <| h_op := MSG_OP_HELLO |> in
  wrong (negb (msg_header_valid hdr_in));;
  let hdr_in := hdr_in <| h_op := MSG_OP_REPL_START |> in
  wrong (negb (msg_header_valid hdr_in));;
  let hdr_in := hdr_in <| h_op := MSG_OP_MAX + 1 |> in
  wrong (msg_header_valid hdr_in);;
  let hdr_in := hdr_in <| h_op := MSG_OP_WRITE |> in
  let hdr_in := hdr_in <| h_version := 1 |> in
  wrong (msg_header_valid hdr_in);;
  let hdr_in := hdr_in <| h_version := MSG_VERSION |> in
  let hdr_in := hdr_in <| h_payload_len := MSG_MAX_PAYLOAD |> in
  wrong (negb (msg_header_valid hdr_in));;
  let hdr_in := hdr_in <| h_payload_len := MSG_MAX_PAYLOAD + 1 |> in
  wrong (msg_header_valid hdr_in).

(** The frame's length, 0 if it does not fit, and the buffer. *)
Definition build_hello (buf : list byte) (buf_len session : Z) (name : list byte) (name_len : Z)
    : Z * list byte :=
  let payload_len := MSG_HELLO_SIZE + name_len in
  let total := MSG_HEADER_SIZE + payload_len in
  if (buf_len <? total) || (name_len <? 0) || (MSG_MAX_NAME <? name_len) then (0, buf) else
  let hello := Hello session (u16 name_len) 0 0 in
  let h := msg_header_new MSG_OP_HELLO MSG_RECORD_NONE MSG_FLAG_ACK_REQ (u32 payload_len) 0 0 in
  match msg_encode_header buf buf_len h with
  | None => (0, buf)
  | Some buf =>
      match at_off MSG_HEADER_SIZE (λ b, msg_encode_hello (Some b) (buf_len - MSG_HEADER_SIZE) hello) buf with
      | None => (0, buf)
      | Some buf =>
          (total, if 0 <? name_len
                  then mem_copy buf (MSG_HEADER_SIZE + MSG_HELLO_SIZE) name 0 name_len else buf)
      end
  end.

Definition hello_name : list byte := txt "mynorthweb".

Definition payloads_hello (buf : list byte) : option (list byte) :=
  let name_len := zlen hello_name in
  let '(total, buf) := build_hello buf 64 0 hello_name name_len in
  wrong (negb (total =? MSG_HEADER_SIZE + MSG_HELLO_SIZE + name_len));;
  h ← msg_decode_header buf total;
  wrong (negb (h_op h =? MSG_OP_HELLO) ||
         negb (i32 (h_payload_len h) =? MSG_HELLO_SIZE + name_len));;
  let payload := drop (Z.to_nat MSG_HEADER_SIZE) buf in
  let payload_len := i32 (h_payload_len h) in
  inp ← msg_decode_hello (Some payload) payload_len;
  wrong (negb (he_session inp =? 0) || negb (he_name_len inp =? u16 name_len));;
  wrong (negb (msg_hello_valid inp payload_len));;
  tail ← msg_hello_name (Some payload) payload_len;
  wrong (negb (mem_cmp payload tail hello_name 0 name_len =? 0));;
  wrong (msg_hello_valid inp (payload_len - 1));;
  let inp := inp <| he_name_len := MSG_MAX_NAME + 1 |> in
  wrong (msg_hello_valid inp (MSG_HELLO_SIZE + MSG_MAX_NAME + 1));;
  let '(total, buf) := build_hello buf 64 0x1234 [] 0 in
  let payload := drop (Z.to_nat MSG_HEADER_SIZE) buf in
  wrong (negb (total =? MSG_HEADER_SIZE + MSG_HELLO_SIZE));;
  inp ← msg_decode_hello (Some payload) MSG_HELLO_SIZE;
  wrong (negb (he_session inp =? 0x1234) || negb (he_name_len inp =? 0) ||
         negb (msg_hello_valid inp MSG_HELLO_SIZE) ||
         negb (is_none (msg_hello_name (Some payload) MSG_HELLO_SIZE)));;
  Some buf.

Definition payloads_ack (buf : list byte) : option (list byte) :=
  let out := Ack 987654321 in
  buf ← msg_encode_ack (Some buf) 64 out;
  inp ← msg_decode_ack (Some buf) MSG_ACK_SIZE;
  wrong (negb (ak_client_seq inp =? ak_client_seq out));;
  wrong (negb (is_none (msg_encode_ack (Some buf) (MSG_ACK_SIZE - 1) out)) ||
         negb (is_none (msg_decode_ack (Some buf) (MSG_ACK_SIZE - 1))));;
  Some buf.

Definition err_addr : list byte := txt "192.0.2.13:7400".

Definition payloads_err (buf : list byte) : option (list byte) :=
  let addr_len := zlen err_addr in
  let payload_len := MSG_ERR_SIZE + addr_len in
  let out := ErrPayload MSG_ERR_NOT_LEADER (u16 addr_len) 0 in
  buf ← msg_encode_err (Some buf) 64 out;
  let buf := mem_copy buf MSG_ERR_SIZE err_addr 0 addr_len in
  inp ← msg_decode_err (Some buf) payload_len;
  wrong (negb (ep_code inp =? MSG_ERR_NOT_LEADER) || negb (ep_text_len inp =? u16 addr_len) ||
         negb (msg_err_valid inp payload_len));;
  tail ← msg_err_text (Some buf) payload_len;
  wrong (negb (mem_cmp buf tail err_addr 0 addr_len =? 0));;
  wrong (msg_err_valid inp MSG_ERR_SIZE);;
  Some buf.

Definition payloads_requests (buf : list byte) : option () :=
  let r_out := ReadReq 4242 in
  buf ← msg_encode_read (Some buf) 64 r_out;
  r_in ← msg_decode_read (Some buf) MSG_READ_SIZE;
  wrong (negb (rd_min_seq r_in =? rd_min_seq r_out));;
  let s_out := SubReq 4242 99 in
  buf ← msg_encode_subscribe (Some buf) 64 s_out;
  s_in ← msg_decode_subscribe (Some buf) MSG_SUBSCRIBE_SIZE;
  wrong (negb (sb_min_seq s_in =? sb_min_seq s_out) || negb (sb_from_seq s_in =? sb_from_seq s_out));;
  wrong (negb (is_none (msg_decode_subscribe (Some buf) (MSG_SUBSCRIBE_SIZE - 1)))).

Definition selfcheck_payloads : option () :=
  buf ← payloads_hello (zeros 64);
  buf ← payloads_ack buf;
  buf ← payloads_err buf;
  payloads_requests buf.

(** ** Key index *)

Definition index_feed (ix : wal_index_t) (key seq : Z) : wal_index_t :=
  wal_index_add ix (Rec 0 0 0 seq 0 0 0 0 0 key).

(** The range of a key is asked for and has to be this one. *)
Definition spans (ix : wal_index_t) (key from : Z) (want : Z * Z) : bool :=
  bool_decide (wal_index_range ix key from = Some want).

Definition selfcheck_wal_index : option () :=
  let ix := wal_index_init in
  wrong (negb (wal_index_count ix =? 0) || negb (wal_index_complete ix));;
  let ix := index_feed ix 10 1 in
  let ix := index_feed ix 20 2 in
  let ix := index_feed ix 10 3 in
  let ix := index_feed ix 20 4 in
  let ix := index_feed ix 10 5 in
  wrong (negb (wal_index_count ix =? 2));;
  wrong (negb (spans ix 10 1 (1, 5)));;
  wrong (negb (spans ix 20 1 (2, 4)));;
  '(from, _) ← wal_index_range ix 20 1;
  wrong (negb (from =? 2));;
  '(from, _) ← wal_index_range ix 20 3;
  wrong (negb (from =? 3));;
  wrong (negb (is_none (wal_index_range ix 999 1)));;
  wrong (negb (wal_index_complete ix));;
  let ix := foldl (λ ix k, index_feed ix (1000 + k) (100 + k)) ix (seqZ 0 (WAL_INDEX_KEYS + 4)) in
  wrong (negb (wal_index_count ix =? WAL_INDEX_KEYS));;
  wrong (wal_index_complete ix).

(** ** Error stack *)

(** The three pushes, each with the file, function and line it is made at. *)
Definition selfcheck_err (file func : option string) (line : Z) (e : err_t) : option err_t :=
  let e := err_push_frame e (Frame file func line ERR_STORAGE ERR_DTL_NONE) in
  let e := err_push_frame e (Frame file func (line + 1) ERR_STORAGE (ERR_DTL_FD 7)) in
  let e := err_push_frame e (Frame file func (line + 2) ERR_INVALID (ERR_DTL_INT 1234)) in
  wrong (negb (err_has_error e) || negb (Nat.eqb (err_frame_count e) 3));;
  Some e.

(** ** Records *)

Definition record_sizes : option () :=
  wrong (negb (wal_rec_size 0 =? WAL_REC_HEADER_SIZE) ||
         negb (wal_rec_size 1 =? WAL_REC_HEADER_SIZE + 8) ||
         negb (wal_rec_size 8 =? WAL_REC_HEADER_SIZE + 8) ||
         negb (wal_rec_size 9 =? WAL_REC_HEADER_SIZE + 16));;
  wrong (negb (wal_rec_size (-1) =? 0) || negb (wal_rec_size (WAL_MAX_PAYLOAD + 1) =? 0)).

Definition record_body : list byte := txt "record payload".

(** Some byte of [buf[from..upto)] is not zero. *)
Definition not_zeroed (buf : list byte) (from upto : Z) : bool :=
  existsb (λ i, negb (bool_decide (zget buf i = Some Byte.x00))) (seqZ from (upto - from)).

(** One flipped bit is noticed; the buffer as it was comes back. *)
Definition corruption_caught (buf : list byte) (total at_ : Z) (inp : wal_rec_t) : option (list byte) :=
  let buf := flip_bit buf at_ in
  wrong (wal_rec_verify buf total inp);;
  Some (flip_bit buf at_).

Definition record_roundtrip_check (buf : list byte) : option (list byte) :=
  let body_len := zlen record_body in
  let buf := mem_set buf 0 Byte.xff 256 in
  let out := Rec 0xDEADBEEF (u32 body_len) 3 12345 0xABCD 7 MSG_RECORD_NONE
    (Z.lor (Z.lor MSG_FLAG_ACK_REQ MSG_FLAG_SYNC) MSG_FLAG_REPLICATED) 0xFFFFFFFF 0x1122334455667788 in
  let '(total, buf, out) := wal_rec_encode buf 256 out (Some record_body) in
  wrong (negb (total =? wal_rec_size body_len));;
  wrong (w_crc out =? 0xDEADBEEF);;
  wrong (not_zeroed buf (WAL_REC_HEADER_SIZE + body_len) total);;
  inp ← wal_rec_decode buf total;
  wrong (negb (w_crc inp =? w_crc out) || negb (w_len inp =? w_len out) ||
         negb (w_term inp =? w_term out) || negb (w_seq inp =? w_seq out) ||
         negb (w_session inp =? w_session out) || negb (w_client_seq inp =? w_client_seq out) ||
         negb (w_record_type inp =? w_record_type out) || negb (w_flags inp =? w_flags out) ||
         negb (w_pad inp =? 0) || negb (w_partition_key inp =? w_partition_key out));;
  wrong (negb (mem_cmp buf WAL_REC_HEADER_SIZE record_body 0 body_len =? 0));;
  wrong (negb (wal_rec_verify buf total inp));;
  wrong (wal_rec_is_end inp);;
  wrong (wal_rec_verify buf (total - 1) inp);;
  buf ← corruption_caught buf total WAL_REC_HEADER_SIZE inp;
  buf ← corruption_caught buf total 16 inp;
  buf ← corruption_caught buf total (total - 1) inp;
  let lied := inp <| w_len := u32 (w_len inp + 8) |> in
  wrong (wal_rec_verify buf (total + 8) lied);;
  let lied := lied <| w_len := WAL_MAX_PAYLOAD + 1 |> in
  wrong (wal_rec_verify buf 256 lied);;
  let buf := mem_copy buf 4 (le_split 4 9) 0 4 in
  reread ← wal_rec_decode buf total;
  wrong (negb (wal_rec_size (i32 (w_len reread)) =? total));;
  wrong (wal_rec_verify buf total reread);;
  let buf := mem_copy buf 4 (le_split 4 (w_len inp)) 0 4 in
  let '(n, buf, _) := wal_rec_encode buf (total - 1) out (Some record_body) in
  wrong (negb (n =? 0));;
  Some buf.

(** [junk] stands for what the fields the code leaves unset hold. *)
Definition record_empty (junk : wal_rec_t) (buf : list byte) : option (list byte) :=
  let buf := mem_zero buf 0 256 in
  let out := Rec (w_crc junk) 0 1 1 0 0 MSG_RECORD_NONE 0 (w_pad junk) 0 in
  let '(total, buf, out) := wal_rec_encode buf 256 out None in
  wrong (negb (total =? WAL_REC_HEADER_SIZE));;
  inp ← wal_rec_decode buf total;
  wrong (negb (wal_rec_verify buf total inp) || negb (w_seq inp =? 1));;
  wrong (wal_rec_is_end inp);;
  Some buf.

Definition record_unwritten (buf : list byte) : option (list byte) :=
  let buf := mem_zero buf 0 256 in
  inp ← wal_rec_decode buf WAL_REC_HEADER_SIZE;
  wrong (negb (wal_rec_is_end inp));;
  Some buf.

Definition record_pair (junk : wal_rec_t) (buf : list byte) : option () :=
  let buf := mem_zero buf 0 256 in
  let a := Rec (w_crc junk) 3 1 1 5 1 MSG_RECORD_NONE 0 (w_pad junk) 1 in
  let '(na, buf, a) := wal_rec_encode buf 256 a (Some (txt "abc")) in
  let b := Rec (w_crc junk) 5 1 2 5 2 MSG_RECORD_NONE 0 (w_pad junk) 2 in
  let '(nb, back, b) := wal_rec_encode (drop (Z.to_nat na) buf) (256 - na) b (Some (txt "defgh")) in
  wrong ((na =? 0) || (nb =? 0));;
  got ← wal_rec_decode back nb;
  wrong (negb (wal_rec_verify back nb got) || negb (w_seq got =? 2) ||
         negb (w_partition_key got =? 2) ||
         negb (mem_cmp back WAL_REC_HEADER_SIZE (txt "defgh") 0 5 =? 0));;
  got ← wal_rec_decode (drop (Z.to_nat nb) back) WAL_REC_HEADER_SIZE;
  wrong (negb (wal_rec_is_end got)).

Definition selfcheck_wal_record (junk : wal_rec_t) : option () :=
  record_sizes;;
  buf ← record_roundtrip_check (zeros 256);
  buf ← record_empty junk buf;
  buf ← record_unwritten buf;
  record_pair junk buf.

(** ** Framing *)

(** The buffers the connection checks share; [c_buf] holds the receive buffer
    while a connection has it. *)
Record conn_statics := Statics { sc_conn_buf : list byte; sc_wire : list byte }.

(** [msg_encode_header(wire + at, sizeof(wire) - at, &h)], the result unused. *)
Definition put_header (wire : list byte) (at_ : Z) (h : msg_header_t) : list byte :=
  default wire (at_off at_ (λ b, msg_encode_header b (4096 - at_) h) wire).

(** Append [n] bytes from [src] on, and take up to four actions. *)
Definition append_feed (c : conn_t) (src : list byte) (n : Z) : list conn_action_t * conn_t :=
  conn_feed (conn_recv_append c src n).2 4.

(** The first [n] bytes, one at a time, none of which may yield an action or
    close the connection; [early] is what else would be wrong in between. *)
Fixpoint feed_bytes (n : nat) (early : conn_t → bool) (c : conn_t) (src : list byte) (i : Z) : option (conn_t * Z) :=
  match n with
  | O => Some (c, i)
  | S n =>
      let '(acts, c) := append_feed c (drop (Z.to_nat i) src) 1 in
      wrong (negb (zlen acts =? 0) || early c || c_closed c);;
      feed_bytes n early c src (i + 1)
  end.

(** The bytes a frame's payload pointer names are these. *)
Definition payload_is (c : conn_t) (p : option Z) (want : list byte) : bool :=
  match p with
  | Some p => mem_cmp (c_buf c) p want 0 (zlen want) =? 0
  | None => false
  end.

Definition hello_text : list byte := txt "hello".

Definition write_header (payload_len key sequence : Z) : msg_header_t :=
  msg_header_new MSG_OP_WRITE MSG_RECORD_NONE MSG_FLAG_ACK_REQ payload_len key sequence.

(** One frame. *)
Definition framing_case1 (s : conn_statics) : option conn_statics :=
  let payload_len := zlen hello_text in
  let c := conn_init (sc_conn_buf s) 4096 CONN_MODE_INTERNAL in
  let wire := put_header (sc_wire s) 0 (write_header (u32 payload_len) 0xAABB 7) in
  let wire := mem_copy wire MSG_HEADER_SIZE hello_text 0 payload_len in
  let '(acts, c) := append_feed c wire (MSG_HEADER_SIZE + payload_len) in
  match acts with
  | [CONN_ACTION_FRAME h p n] =>
      wrong (negb (h_op h =? MSG_OP_WRITE) || negb (h_record_type h =? MSG_RECORD_NONE) ||
             negb (h_sequence h =? 7) || negb (n =? payload_len) ||
             negb (payload_is c p hello_text) || negb (c_buf_len c =? c_buf_off c) || c_closed c);;
      Some (Statics (c_buf c) wire)
  | _ => None
  end.

(** Two frames keep their own payloads, and the part of a third is kept. *)
Definition framing_case1b (s : conn_statics) : option conn_statics :=
  let first := txt "first" in
  let second := txt "second-and-longer" in
  let l1 := zlen first in
  let l2 := zlen second in
  let c := conn_init (sc_conn_buf s) 4096 CONN_MODE_INTERNAL in
  let wire := put_header (sc_wire s) 0 (write_header (u32 l1) 0 1) in
  let wire := mem_copy wire MSG_HEADER_SIZE first 0 l1 in
  let at_ := MSG_HEADER_SIZE + l1 in
  let wire := put_header wire at_ (write_header (u32 l2) 0 2) in
  let wire := mem_copy wire (at_ + MSG_HEADER_SIZE) second 0 l2 in
  let at_ := at_ + (MSG_HEADER_SIZE + l2) in
  let wire := put_header wire at_ (write_header 1024 0 3) in
  let at_ := at_ + MSG_HEADER_SIZE in
  let wire := mem_set wire at_ Byte.x5a 256 in
  let at_ := at_ + 256 in
  let '(acts, c) := append_feed c wire at_ in
  match acts with
  | [CONN_ACTION_FRAME _ p1 n1; CONN_ACTION_FRAME _ p2 n2] =>
      wrong (negb (n1 =? l1) || negb (n2 =? l2) || negb (payload_is c p1 first) ||
             negb (payload_is c p2 second));;
      let c := conn_compact c in
      wrong (negb (c_buf_len c =? MSG_HEADER_SIZE + 256) || negb (c_buf_off c =? 0));;
      Some (Statics (c_buf c) wire)
  | _ => None
  end.

(** The first frame of the same wire, byte by byte. *)
Definition framing_case2 (s : conn_statics) : option conn_statics :=
  let payload_len := zlen hello_text in
  let wire := sc_wire s in
  let c := conn_init (sc_conn_buf s) 4096 CONN_MODE_INTERNAL in
  '(c, i) ← feed_bytes (Z.to_nat (MSG_HEADER_SIZE + payload_len - 1)) (λ _, false) c wire 0;
  let '(acts, c) := append_feed c (drop (Z.to_nat i) wire) 1 in
  match acts with
  | [CONN_ACTION_FRAME _ _ n] =>
      wrong (negb (n =? payload_len) || negb (c_buf_len c =? c_buf_off c) || c_closed c);;
      Some (Statics (c_buf c) wire)
  | _ => None
  end.

(** A bad magic is answered with an error and a close. *)
Definition framing_case3 (s : conn_statics) : option conn_statics :=
  let c := conn_init (sc_conn_buf s) 4096 CONN_MODE_INTERNAL in
  let wire := mem_zero (sc_wire s) 0 MSG_HEADER_SIZE in
  let wire := zset (zset (zset (zset wire 0 Byte.xde) 1 Byte.xad) 2 Byte.xbe) 3 Byte.xef in
  let '(acts, c) := append_feed c wire MSG_HEADER_SIZE in
  match acts with
  | [CONN_ACTION_REPLY_ERR code _; CONN_ACTION_CLOSE] =>
      wrong (negb (code =? MSG_ERR_BAD_MAGIC) || negb (c_closed c));;
      Some (Statics (c_buf c) wire)
  | _ => None
  end.

(** A payload larger than the receive buffer. *)
Definition framing_case4 (s : conn_statics) : option conn_statics :=
  let c := conn_init (sc_conn_buf s) 4096 CONN_MODE_INTERNAL in
  let wire := put_header (sc_wire s) 0
    (msg_header_new MSG_OP_WRITE MSG_RECORD_NONE 0 4096 0 99) in
  let '(acts, c) := append_feed c wire MSG_HEADER_SIZE in
  match acts with
  | [CONN_ACTION_REPLY_ERR code sequence; CONN_ACTION_CLOSE] =>
      wrong (negb (code =? MSG_ERR_PAYLOAD_TOO_BIG) || negb (sequence =? 99) || negb (c_closed c));;
      Some (Statics (c_buf c) wire)
  | _ => None
  end.

(** A payload over the cap that would fit the buffer, which has [big_cap]
    bytes. *)
Definition big_cap : Z := MSG_MAX_PAYLOAD + 64.

Definition framing_case5 (big_buf : list byte) (s : conn_statics) : option conn_statics :=
  let c := conn_init big_buf big_cap CONN_MODE_INTERNAL in
  let wire := put_header (sc_wire s) 0
    (msg_header_new MSG_OP_WRITE MSG_RECORD_NONE 0 (MSG_MAX_PAYLOAD + 1) 0 100) in
  let '(acts, c) := append_feed c wire MSG_HEADER_SIZE in
  match acts with
  | [CONN_ACTION_REPLY_ERR code _; CONN_ACTION_CLOSE] =>
      wrong (negb (code =? MSG_ERR_PAYLOAD_TOO_BIG) || negb (c_closed c));;
      Some (Statics (sc_conn_buf s) wire)
  | _ => None
  end.

(** Version 1 is refused. *)
Definition framing_case6 (s : conn_statics) : option conn_statics :=
  let c := conn_init (sc_conn_buf s) 4096 CONN_MODE_INTERNAL in
  let h := (msg_header_new MSG_OP_WRITE MSG_RECORD_NONE 0 0 0 5) <| h_version := 1 |> in
  let wire := put_header (sc_wire s) 0 h in
  let '(acts, c) := append_feed c wire MSG_HEADER_SIZE in
  match acts with
  | [CONN_ACTION_REPLY_ERR code _; _] =>
      wrong (negb (code =? MSG_ERR_BAD_VERSION) || negb (c_closed c));;
      Some (Statics (c_buf c) wire)
  | _ => None
  end.

Definition selfcheck_conn_framing (big_buf : list byte) (s : conn_statics) : option conn_statics :=
  s ← framing_case1 s;
  s ← framing_case1b s;
  s ← framing_case2 s;
  s ← framing_case3 s;
  s ← framing_case4 s;
  s ← framing_case5 big_buf s;
  framing_case6 s.

(** ** The opening frame *)

(** A write before the opening frame is refused. *)
Definition session_case1 (s : conn_statics) : option conn_statics :=
  let c := conn_init (sc_conn_buf s) 4096 CONN_MODE_CLIENT in
  let wire := put_header (sc_wire s) 0 (write_header 0 0 1) in
  let '(acts, c) := append_feed c wire MSG_HEADER_SIZE in
  match acts with
  | [CONN_ACTION_REPLY_ERR code sequence; CONN_ACTION_CLOSE] =>
      wrong (negb (code =? MSG_ERR_NO_SESSION) || negb (sequence =? 1) || negb (c_closed c));;
      Some (Statics (c_buf c) wire)
  | _ => None
  end.

(** The opening frame and a write; then the same opening frame again. *)
Definition session_case2 (s : conn_statics) : option (conn_t * list byte * Z) :=
  let c := conn_init (sc_conn_buf s) 4096 CONN_MODE_CLIENT in
  let '(hello_len, wire) := build_hello (sc_wire s) 4096 0 (txt "cli") 3 in
  wrong (hello_len =? 0);;
  let wire := put_header wire hello_len (write_header 0 0xBEEF 1) in
  let '(acts, c) := append_feed c wire (hello_len + MSG_HEADER_SIZE) in
  match acts with
  | [CONN_ACTION_FRAME h1 _ _; CONN_ACTION_FRAME h2 _ _] =>
      wrong (negb (h_op h1 =? MSG_OP_HELLO) || negb (h_op h2 =? MSG_OP_WRITE) ||
             negb (h_partition_key h2 =? 0xBEEF) || negb (c_opened c) || c_closed c);;
      Some (c, wire, hello_len)
  | _ => None
  end.

Definition session_case3 (x : conn_t * list byte * Z) : option conn_statics :=
  let '(c, wire, hello_len) := x in
  let '(acts, c) := append_feed c wire hello_len in
  match acts with
  | [CONN_ACTION_REPLY_ERR code _; CONN_ACTION_CLOSE] =>
      wrong (negb (code =? MSG_ERR_NO_SESSION) || negb (c_closed c));;
      Some (Statics (c_buf c) wire)
  | _ => None
  end.

(** A part of the opening frame opens nothing. *)
Definition session_case4 (s : conn_statics) : option conn_statics :=
  let c := conn_init (sc_conn_buf s) 4096 CONN_MODE_CLIENT in
  let '(hello_len, wire) := build_hello (sc_wire s) 4096 0 (txt "cli") 3 in
  '(c, i) ← feed_bytes (Z.to_nat (hello_len - 1)) c_opened c wire 0;
  let '(acts, c) := append_feed c (drop (Z.to_nat i) wire) 1 in
  match acts with
  | [CONN_ACTION_FRAME h _ _] =>
      wrong (negb (h_op h =? MSG_OP_HELLO) || negb (c_opened c) || c_closed c);;
      Some (Statics (c_buf c) wire)
  | _ => None
  end.

(** A connection between nodes has no opening frame. *)
Definition session_case5 (s : conn_statics) : option conn_statics :=
  let c := conn_init (sc_conn_buf s) 4096 CONN_MODE_INTERNAL in
  let wire := put_header (sc_wire s) 0 (msg_header_new MSG_OP_WRITE MSG_RECORD_NONE 0 0 0 1) in
  let '(acts, c) := append_feed c wire MSG_HEADER_SIZE in
  match acts with
  | [CONN_ACTION_FRAME h _ _] =>
      wrong (negb (h_op h =? MSG_OP_WRITE) || c_closed c);;
      Some (Statics (c_buf c) wire)
  | _ => None
  end.

Definition selfcheck_conn_session (s : conn_statics) : option conn_statics :=
  s ← session_case1 s;
  x ← session_case2 s;
  s ← session_case3 x;
  s ← session_case4 s;
  session_case5 s.

(** ** Checks that make system calls *)

(** A computation that may end early with an error. *)
Definition T (K E A : Type) : Type := K → (E + A) * K.

#[export] Instance T_ret {K E} : MRet (T K E) := λ A x k, (inr x, k).
#[export] Instance T_bind {K E} : MBind (T K E) := λ A B f m k,
  match m k with
  | (inl e, k) => (inl e, k)
  | (inr x, k) => f x k
  end.

Definition run {K E A} (m : M K A) : T K E A := λ k, let '(x, k) := m k in (inr x, k).
Definition stop {K E A} (e : E) : T K E A := λ k, (inl e, k).
Definition stop_if {K E} (e : E) (b : bool) : T K E () := if b then stop e else mret ().
Definition want {K E A} (e : E) (o : option A) : T K E A :=
  match o with Some x => mret x | None => stop e end.

(** ** Sessions *)

(** What a pointer into the table reads. *)
Definition id_at (t : session_table_t) (i : nat) : Z := from_option ss_id 0 (st_entries t !! i).
Definition last_at (t : session_table_t) (i : nat) : Z := from_option ss_last 0 (st_entries t !! i).

Definition finds (t : session_table_t) (id : Z) (i : nat) : bool :=
  bool_decide (session_lookup t id = Some i).
Definition absent (t : session_table_t) (id : Z) : bool := is_none (session_lookup t id).

Section sessions.
Context {K : Type} `{Sys K}.
#[local] Abbreviation checked := (T K ()).

Definition create (t : session_table_t) : checked (nat * session_table_t) :=
  '(s, t) ← run (session_create t);
  s ← want () s;
  mret (s, t).

(** Two sessions, their ids and their marks. *)
Definition sessions_fresh : checked (session_table_t * Z * Z) :=
  let t := session_table_init in
  stop_if () (negb (st_count t =? 0));;
  '(a, t) ← run (session_create t);
  '(b, t) ← run (session_create t);
  a ← want () a;
  b ← want () b;
  stop_if () ((id_at t a =? 0) || (id_at t b =? 0) || (id_at t a =? id_at t b) ||
              negb (last_at t a =? 0) || negb (st_count t =? 2));;
  let a_id := id_at t a in
  let b_id := id_at t b in
  stop_if () ((a_id <=? SESSION_MAX) || (b_id <=? SESSION_MAX));;
  stop_if () (negb (finds t a_id a) || negb (finds t b_id b) || negb (absent t 0) ||
              negb (absent t (Z.lxor a_id 1)));;
  let t := session_observe t a_id 5 in
  stop_if () (negb (last_at t a =? 5));;
  let t := session_observe t a_id 3 in
  stop_if () (negb (last_at t a =? 5));;
  let t := session_observe t 7 2 in
  s ← want () (session_lookup t 7);
  stop_if () (negb (st_count t =? 3) || negb (last_at t s =? 2));;
  mret (t, a_id, b_id).

(** New sessions, none of which is one of those already there. *)
Fixpoint sessions_draws (n : nat) (t : session_table_t) (a_id b_id : Z) : checked session_table_t :=
  match n with
  | O => mret t
  | S n =>
      '(fresh, t) ← create t;
      stop_if () (id_at t fresh =? 0);;
      stop_if () (negb (last_at t fresh =? 0));;
      stop_if () ((id_at t fresh =? a_id) || (id_at t fresh =? b_id) || (id_at t fresh =? 7));;
      sessions_draws n t a_id b_id
  end.

(** Fill the table; the ids drawn, in order. *)
Fixpoint sessions_fill (n : nat) (t : session_table_t) (ids : list Z) : checked (session_table_t * list Z) :=
  match n with
  | O => mret (t, ids)
  | S n =>
      '(made, t) ← create t;
      sessions_fill n t (ids ++ [id_at t made])
  end.

(** A full table makes room by dropping the oldest session, twice. *)
Definition sessions_overflow : checked () :=
  '(t, ids) ← sessions_fill (Z.to_nat SESSION_MAX) session_table_init [];
  let a_id := default 0 (ids !! 0%nat) in
  let b_id := default 0 (ids !! 1%nat) in
  stop_if () (negb (st_count t =? SESSION_MAX) || negb (st_evicted t =? 0));;
  s ← want () (session_lookup t a_id);
  let t := t <| st_entries ::= alter (λ s, s <| ss_last := 77 |>) s |> in
  '(first, t) ← create t;
  stop_if () (negb (st_count t =? SESSION_MAX) || negb (st_evicted t =? 1));;
  stop_if () (negb (absent t a_id));;
  stop_if () (negb (last_at t first =? 0));;
  '(_, t) ← create t;
  stop_if () (negb (st_evicted t =? 2));;
  stop_if () (negb (absent t b_id));;
  stop_if () (absent t (id_at t first)).

(** Age is arrival. *)
Definition sessions_arrival : option () :=
  let t := foldl (λ t i, session_observe t (100000 - i) 1) session_table_init (seqZ 0 SESSION_MAX) in
  wrong (negb (st_count t =? SESSION_MAX) || absent t 100000 || absent t (100000 - SESSION_MAX + 1));;
  let t := session_observe t 42 1 in
  wrong (absent t 42);;
  wrong (negb (absent t 100000));;
  wrong (negb (st_evicted t =? 1));;
  let t := session_observe t (100000 - 1) 2 in
  let t := session_observe t 43 1 in
  wrong (absent t (100000 - 1)).

Definition selfcheck_sessions : checked () :=
  '(t, a_id, b_id) ← sessions_fresh;
  t ← sessions_draws 512 t a_id b_id;
  let before := st_count t in
  let t := session_observe t 0 4 in
  stop_if () (negb (st_count t =? before));;
  sessions_overflow;;
  want () sessions_arrival.

End sessions.
