(* ===== verification/Loopback.v ===== *)
(** * A kernel for the program's own checks

    A machine with directories, sockets over loopback, epoll and timers, small
    and free of faults, on which the checks of selfcheck.c can run: several
    nodes and their clients in one process, as there.  It models no code of
    the program and no theorem assumes anything of it; unlike [Os.Sim] it has
    more than one directory and two ends to every connection, so it is not an
    instance of the laws, whose view has one directory. *)

From S2P Require Import Prelude Core Os.

(** What the checks ask of the system beyond what the server does. *)
Class CheckSys (K : Type) := {
  sys_open : list byte → Z → Z → M K Z;
  sys_mkdir : list byte → Z → M K Z;
  sys_rmdir : list byte → M K Z;
  sys_getpid : M K Z;
  sys_shutdown : Z → Z → M K Z }.

Module Loopback.

(** An open descriptor; [interest] are a descriptor, the bits asked for and
    the word registered, and a timer counts the waits since it was read. *)
Inductive desc :=
| DFile (ino : nat)
| DDir (path : list byte) (todo : list (list byte))
| DSocket
| DBound (port : Z)
| DListen (port : Z)
| DConn (link : nat) (server : bool)
| DEpoll (interest : list (Z * (Z * Z)))
| DTimer (waits : Z)
| DOther.

(** A connection: what is on its way to either end, what the client's end
    holds back, and which ends are open. *)
Record link := Link {
  lk_to_client : list byte; lk_to_server : list byte; lk_held : list byte;
  lk_client : bool; lk_server : bool }.
#[export] Instance eta_link : Eta link := λ x,
  Link (lk_to_client x) (lk_to_server x) (lk_held x) (lk_client x) (lk_server x).

(** [k_ports] holds the listening ports with the connections not yet
    accepted.  With [k_nagle] a client's segment is held back while one before
    it has not been read, as Nagle's algorithm has it where TCP_NODELAY is not
    set; without it what is sent is there at once. *)
Record kern := Kern {
  k_dirs : gmap (list byte) (gmap (list byte) nat); k_files : gmap nat (list byte);
  k_fds : gmap Z desc; k_links : gmap nat link; k_ports : gmap Z (list nat);
  k_next_fd : Z; k_next_id : nat; k_next_port : Z; k_rand : list Z; k_clock : Z; k_nagle : bool }.
#[export] Instance eta_kern : Eta kern := λ k,
  Kern (k_dirs k) (k_files k) (k_fds k) (k_links k) (k_ports k) (k_next_fd k) (k_next_id k)
    (k_next_port k) (k_rand k) (k_clock k) (k_nagle k).

Definition start (nagle : bool) (rand : list Z) : kern :=
  Kern ∅ ∅ {[1 := DOther; 2 := DOther]} ∅ ∅ 3 0 4000 rand 1000 nagle.

Definition ENOENT : Z := 2.
Definition EBADF : Z := 9.
Definition EAGAIN : Z := 11.
Definition EEXIST : Z := 17.
Definition EINVAL : Z := 22.
Definition EPIPE : Z := 32.
Definition ECONNREFUSED : Z := 111.

Definition fails (e : Z) : M kern Z := λ k, (- e, k).
Definition set_desc (fd : Z) (d : desc) (k : kern) : kern := k <| k_fds ::= insert fd d |>.

Definition open_desc (d : desc) : M kern Z := λ k,
  (k_next_fd k, (set_desc (k_next_fd k) d k) <| k_next_fd ::= Z.succ |>).

(** ** Files *)

Definition openat (d : Z) (path : list byte) (flags mode : Z) : M kern Z := λ k,
  let name := cstr path in
  if negb (Z.land flags O_DIRECTORY =? 0) then
    match k_dirs k !! name with
    | Some entries => open_desc (DDir name (dots ++ (map_to_list entries).*1)) k
    | None => (- ENOENT, k)
    end
  else
    match k_fds k !! d with
    | Some (DDir dir _) =>
        match k_dirs k !! dir with
        | Some entries =>
            match entries !! name with
            | Some ino => if negb (Z.land flags O_EXCL =? 0) then (- EEXIST, k) else open_desc (DFile ino) k
            | None =>
                if Z.land flags O_CREAT =? 0 then (- ENOENT, k) else
                let ino := k_next_id k in
                open_desc (DFile ino) (k <| k_dirs ::= insert dir (<[name := ino]> entries) |>
                  <| k_files ::= insert ino [] |> <| k_next_id ::= S |>)
            end
        | None => (- ENOENT, k)
        end
    | _ => (- EBADF, k)
    end.

Definition file_of (k : kern) (fd : Z) : option (nat * list byte) :=
  match k_fds k !! fd with
  | Some (DFile ino) => pair ino <$> k_files k !! ino
  | _ => None
  end.

Definition pread (fd count off : Z) : M kern (Z * list byte) := λ k,
  match file_of k fd with
  | Some (_, data) => let bs := sub off count data in ((zlen bs, bs), k)
  | None => ((- EBADF, []), k)
  end.

Definition pwrite (fd : Z) (bs : list byte) (off : Z) : M kern Z := λ k,
  match file_of k fd with
  | Some (ino, data) =>
      if off + zlen bs <=? zlen data
      then (zlen bs, k <| k_files ::= insert ino (blit data off bs) |>) else (- EINVAL, k)
  | None => (- EBADF, k)
  end.

Definition fallocate (fd mode off len : Z) : M kern Z := λ k,
  match file_of k fd with
  | Some (ino, data) => (0, k <| k_files ::= insert ino (data ++ zeros (len - zlen data)) |>)
  | None => (- EBADF, k)
  end.

Definition dirent (name : list byte) : list byte :=
  zeros 16 ++ le_split 2 (20 + zlen name) ++ Byte.x08 :: name ++ [Byte.x00].

Definition getdents (fd count : Z) : M kern (Z * list byte) := λ k,
  match k_fds k !! fd with
  | Some (DDir _ []) => ((0, []), k)
  | Some (DDir path (n :: todo)) => ((zlen (dirent n), dirent n), set_desc fd (DDir path todo) k)
  | _ => ((- EBADF, []), k)
  end.

Definition unlinkat (d : Z) (path : list byte) (flags : Z) : M kern Z := λ k,
  match k_fds k !! d with
  | Some (DDir dir _) =>
      match k_dirs k !! dir with
      | Some entries =>
          if decide (entries !! cstr path = None) then (- ENOENT, k)
          else (0, k <| k_dirs ::= insert dir (delete (cstr path) entries) |>)
      | None => (- ENOENT, k)
      end
  | _ => (- EBADF, k)
  end.

Definition mkdir (path : list byte) (mode : Z) : M kern Z := λ k,
  if decide (k_dirs k !! cstr path = None) then (0, k <| k_dirs ::= insert (cstr path) ∅ |>)
  else (- EEXIST, k).

Definition rmdir (path : list byte) : M kern Z := λ k,
  if decide (k_dirs k !! cstr path = Some ∅) then (0, k <| k_dirs ::= delete (cstr path) |>)
  else (- EINVAL, k).

(** ** Sockets *)

Definition bind (fd port addr : Z) : M kern Z := λ k,
  match k_fds k !! fd with
  | Some DSocket =>
      if port =? 0 then (0, (set_desc fd (DBound (k_next_port k)) k) <| k_next_port ::= Z.succ |>)
      else (0, set_desc fd (DBound port) k)
  | _ => (- EINVAL, k)
  end.

Definition listen (fd n : Z) : M kern Z := λ k,
  match k_fds k !! fd with
  | Some (DBound port) => (0, (set_desc fd (DListen port) k) <| k_ports ::= insert port [] |>)
  | _ => (- EINVAL, k)
  end.

Definition getsockname (fd : Z) : M kern (Z * Z) := λ k,
  match k_fds k !! fd with
  | Some (DListen port) | Some (DBound port) => ((0, port), k)
  | _ => ((- EBADF, 0), k)
  end.

(** The connection is made at once; the other end is there to be accepted. *)
Definition connect (fd port addr : Z) : M kern Z := λ k,
  match k_fds k !! fd, k_ports k !! port with
  | Some DSocket, Some waiting =>
      let id := k_next_id k in
      (0, (set_desc fd (DConn id false) k) <| k_links ::= insert id (Link [] [] [] true true) |>
            <| k_ports ::= insert port (waiting ++ [id]) |> <| k_next_id ::= S |>)
  | Some DSocket, None => (- ECONNREFUSED, k)
  | _, _ => (- EBADF, k)
  end.

Definition accept (fd flags : Z) : M kern Z := λ k,
  match k_fds k !! fd with
  | Some (DListen port) =>
      match k_ports k !! port with
      | Some (id :: waiting) => open_desc (DConn id true) (k <| k_ports ::= insert port waiting |>)
      | _ => (- EAGAIN, k)
      end
  | _ => (- EBADF, k)
  end.

Definition inbound (x : link) (server : bool) : list byte := if server then lk_to_server x else lk_to_client x.
Definition set_inbound (server : bool) (bs : list byte) (x : link) : link :=
  if server then x <| lk_to_server := bs |> else x <| lk_to_client := bs |>.
Definition end_open (x : link) (server : bool) : bool := if server then lk_server x else lk_client x.
Definition shut_end (server : bool) (x : link) : link :=
  if server then x <| lk_server := false |>
  else x <| lk_client := false |> <| lk_to_server ::= λ bs, bs ++ lk_held x |> <| lk_held := [] |>.

(** Bytes sent from an end, and those held back as they go on their way. *)
Definition send (nagle server : bool) (bs : list byte) (x : link) : link :=
  if server then x <| lk_to_client ::= λ out, out ++ bs |>
  else if nagle && negb (bool_decide (lk_to_server x = [])) then x <| lk_held ::= λ out, out ++ bs |>
  else x <| lk_to_server ::= λ out, out ++ lk_held x ++ bs |> <| lk_held := [] |>.
Definition release (x : link) : link :=
  if bool_decide (lk_to_server x = [])
  then x <| lk_to_server := lk_held x |> <| lk_held := [] |> else x.

Definition conn_of (k : kern) (fd : Z) : option (nat * bool * link) :=
  match k_fds k !! fd with
  | Some (DConn id server) => (λ x, (id, server, x)) <$> k_links k !! id
  | _ => None
  end.

(** Nothing to read is an error while the other end is open, and the end of
    the stream after that.  A timer is read as one expiry. *)
Definition read (fd n : Z) : M kern (Z * list byte) := λ k,
  match conn_of k fd with
  | Some (id, server, x) =>
      match inbound x server with
      | [] => ((if end_open x server && end_open x (negb server) then - EAGAIN else 0, []), k)
      | bs => let got := sub 0 n bs in
              ((zlen got, got),
               k <| k_links ::= insert id (set_inbound server (drop (Z.to_nat n) bs) x) |>)
      end
  | None =>
      match k_fds k !! fd with
      | Some (DTimer _) => ((8, le_split 8 1), set_desc fd (DTimer 0) k)
      | _ => ((- EAGAIN, []), k)
      end
  end.

Definition write (fd : Z) (bs : list byte) : M kern Z := λ k,
  match conn_of k fd with
  | Some (id, server, x) =>
      if end_open x server && end_open x (negb server)
      then (zlen bs, k <| k_links ::= insert id (send (k_nagle k) server bs x) |>)
      else (- EPIPE, k)
  | None => (zlen bs, k)
  end.

Definition shutdown (fd how : Z) : M kern Z := λ k,
  match conn_of k fd with
  | Some (id, server, x) => (0, k <| k_links ::= insert id (shut_end server x) |>)
  | None => (- EBADF, k)
  end.

(** ** Waiting *)

Definition forget_fd (fd : Z) (d : desc) : desc :=
  match d with DEpoll l => DEpoll (filter (λ x, x.1 ≠ fd) l) | _ => d end.

Definition close (fd : Z) : M kern Z := λ k,
  let k' := k <| k_fds ::= λ m, forget_fd fd <$> delete fd m |> in
  match k_fds k !! fd with
  | Some (DConn id server) => (0, k' <| k_links ::= alter (shut_end server) id |>)
  | Some (DListen port) =>
      (0, k' <| k_ports ::= delete port |>
             <| k_links ::= λ m, foldr (alter (shut_end true)) m (default [] (k_ports k !! port)) |>)
  | Some _ => (0, k')
  | None => (- EBADF, k)
  end.

Definition EPOLLIN : Z := 1.
Definition EPOLLOUT : Z := 4.

Definition epoll_ctl (ep op fd events data : Z) : M kern Z := λ k,
  match k_fds k !! ep, k_fds k !! fd with
  | Some (DEpoll l), Some _ =>
      let old := bool_decide (fd ∈ l.*1) in
      if op =? 1 then
        if old then (- EEXIST, k) else (0, set_desc ep (DEpoll (l ++ [(fd, (events, data))])) k)
      else if negb old then (- ENOENT, k)
      else if op =? 2 then (0, set_desc ep (DEpoll (filter (λ x, x.1 ≠ fd) l)) k)
      else (0, set_desc ep (DEpoll ((λ x, if x.1 =? fd then (fd, (events, data)) else x) <$> l)) k)
  | _, _ => (- EBADF, k)
  end.

(** A timer has run out at every fourth wait. *)
Definition TIMER_WAITS : Z := 4.

Definition ready_bits (k : kern) (fd : Z) : Z :=
  match k_fds k !! fd with
  | Some (DListen port) => match k_ports k !! port with Some (_ :: _) => EPOLLIN | _ => 0 end
  | Some (DConn id server) =>
      match k_links k !! id with
      | Some x =>
          Z.lor EPOLLOUT
            (if bool_decide (inbound x server = []) && end_open x server && end_open x (negb server)
             then 0 else EPOLLIN)
      | None => 0
      end
  | Some (DTimer n) => if TIMER_WAITS <=? n then EPOLLIN else 0
  | _ => 0
  end.

Definition age (d : desc) : desc := match d with DTimer n => DTimer (n + 1) | _ => d end.

Definition epoll_wait (ep max timeout : Z) : M kern (Z * list (Z * Z)) := λ k,
  match k_fds k !! ep with
  | Some (DEpoll l) =>
      let k := k <| k_fds ::= λ m, foldr (alter age) m l.*1 |> <| k_links ::= fmap release |> in
      let evs := filter (λ x : Z * Z, x.2 ≠ 0)
        ((λ x, (x.2.2, Z.land x.2.1 (ready_bits k x.1))) <$> l) in
      let evs := sub 0 max evs in
      ((zlen evs, evs), k)
  | _ => ((- EBADF, []), k)
  end.

Definition getrandom (n : Z) : M kern (Z * list byte) := λ k,
  match k_rand k with
  | [] => ((- EAGAIN, []), k)
  | x :: xs => ((8, le_split 8 x), k <| k_rand := xs |>)
  end.

Definition clock_gettime : M kern (Z * (Z * Z)) := λ k,
  ((0, (k_clock k, 0)), k <| k_clock := k_clock k + 1 |>).

Definition nothing {A} (x : A) : M kern A := λ k, (x, k).

#[export] Instance loopback_sys : Sys kern := {|
  sys_openat := openat;
  sys_close := close;
  sys_fsync _ := nothing 0;
  sys_fdatasync _ := nothing 0;
  sys_pread64 := pread;
  sys_pwrite64 := pwrite;
  sys_getdents64 := getdents;
  sys_unlinkat := unlinkat;
  sys_fallocate := fallocate;
  sys_getrandom := getrandom;
  sys_clock_gettime := clock_gettime;
  sys_recvfrom fd n _ := read fd n;
  sys_sendto fd bs _ := write fd bs;
  sys_read := read;
  sys_epoll_ctl := epoll_ctl;
  sys_accept4 := accept;
  sys_socket _ _ _ := open_desc DSocket;
  sys_connect := connect;
  sys_getsockopt _ _ _ := nothing (0, 0);
  sys_setsockopt _ _ _ _ := nothing 0;
  sys_timerfd_settime _ _ _ _ _ := nothing 0;
  sys_timerfd_create _ _ := open_desc (DTimer 0);
  sys_bind := bind;
  sys_listen := listen;
  sys_getsockname := getsockname;
  sys_epoll_create1 _ := open_desc (DEpoll []);
  sys_epoll_wait := epoll_wait;
  sys_write := write;
  sys_rt_sigprocmask _ _ := nothing 0;
  sys_signalfd4 _ _ _ := open_desc DOther;
  cpuid _ _ := nothing (0, 0, Z.shiftl 1 20, 0) |}.

#[export] Instance loopback_checks : CheckSys kern := {|
  sys_open := openat AT_FDCWD;
  sys_mkdir := mkdir;
  sys_rmdir := rmdir;
  sys_getpid := nothing 77;
  sys_shutdown := shutdown |}.

End Loopback.
