(* ===== verification/SelfcheckLog.v ===== *)
(** * The program's own checks of the log (src/server/selfcheck.c)

    The two self checks that write files, each in directories of its own: one
    on a single segment, one on the whole log with rollover, retention and
    four ways a log can be damaged.  The calls that only the checks make are
    the class [CheckSys] of [Loopback]. *)

From Stdlib Require Import String.
From S2P Require Import Prelude Core Crc32c Fmt Msg Conn Record Index Os Session Segment Wal.
From S2P Require Import LoopState Main Selfcheck Loopback.
Import Core.Mem.

Open Scope Z_scope.
Open Scope stdpp_scope.

(** ** Directories *)

Definition O_WRONLY : Z := 0x1.
Definition MODE_0700 : Z := 448.

Section directories.
Context {K : Type} `{Sys K, !CheckSys K}.

Definition os_open (path : list byte) (flags mode fd_out : Z) : M K (result_t * Z) :=
  r ← sys_open path flags mode;
  mret (if sys_is_err r then (RESULT_ERR ERR_SYSCALL (sys_errno r), fd_out)
        else (RESULT_OK, i32 r)).

Definition os_mkdir (path : list byte) (mode : Z) : M K result_t :=
  r ← sys_mkdir path mode;
  mret (sys_result r).

Definition os_rmdir (path : list byte) : M K result_t :=
  r ← sys_rmdir path;
  mret (sys_result r).

Definition os_shutdown (fd how : Z) : M K result_t :=
  r ← sys_shutdown fd how;
  mret (sys_result r).

Definition os_getpid : M K Z :=
  r ← sys_getpid;
  mret (i32 r).

(** The digits of [v] in front of [digits]. *)
Fixpoint u32_digits (fuel : nat) (v : Z) (digits : list byte) : list byte :=
  match fuel with
  | O => digits
  | S fuel => if v <=? 0 then digits
              else u32_digits fuel (v / 10) (byte.of_Z (48 + v mod 10) :: digits)
  end.

Definition tmp_append_u32 (out : list byte) (v : Z) : list byte :=
  out ++ (if v =? 0 then [Byte.x30] else u32_digits 12 v []).

(** The path with its NUL. *)
Definition seg_tmp_path (tag : Z) : M K (list byte) :=
  pid ← os_getpid;
  let out := tmp_append_u32 (txt "/tmp/msgsrvd-selfcheck-") (u32 pid) in
  let out := tmp_append_u32 (out ++ txt "-") (u32 tag) in
  mret (out ++ [Byte.x00]).

Definition O_DIR : Z := Z.lor (Z.lor O_RDONLY O_DIRECTORY) O_CLOEXEC.

(** Unlink every entry of one listing but the two dot entries. *)
Fixpoint destroy_entries (fuel : nat) (fd : Z) (dbuf : list byte) (n off : Z) : M K () :=
  match fuel with
  | O => mret ()
  | S fuel =>
      if n <=? off then mret () else
      let reclen := get (off + DIRENT64_RECLEN_OFF) 2 dbuf in
      if (reclen <? DIRENT64_NAME_OFF) || (n <? off + reclen) then mret () else
      let nm := drop (Z.to_nat (off + DIRENT64_NAME_OFF)) dbuf in
      _ ← (if bool_decide (cstr nm ∈ dots) then mret RESULT_OK else os_unlinkat fd nm 0);
      destroy_entries fuel fd dbuf n (off + reclen)
  end.

(** Listings until one fails or is empty, [rounds] at most. *)
Fixpoint destroy_listings (rounds : nat) (fd : Z) (dbuf : list byte) : M K () :=
  match rounds with
  | O => mret ()
  | S rounds =>
      '(r, n, bs) ← os_getdents64 fd 4096 0;
      if negb (result_ok r) then mret () else
      if n =? 0 then mret () else
      let dbuf := blit dbuf 0 bs in
      _ ← destroy_entries (S (Z.to_nat n)) fd dbuf n 0;
      destroy_listings rounds fd dbuf
  end.

Definition tmp_dir_destroy (rounds : nat) (path : list byte) : M K () :=
  '(r, fd) ← os_openat AT_FDCWD path O_DIR 0 (-1);
  if negb (result_ok r) then mret () else
  _ ← destroy_listings rounds fd (zeros 4096);
  _ ← os_close fd;
  _ ← os_rmdir path;
  mret ().

Definition tmp_touch (dir_path name : list byte) : M K bool :=
  '(r, dir_fd) ← os_openat AT_FDCWD dir_path O_DIR 0 (-1);
  if negb (result_ok r) then mret false else
  '(r, fd) ← os_openat dir_fd name (Z.lor (Z.lor O_WRONLY O_CREAT) O_CLOEXEC) MODE_0600 (-1);
  if negb (result_ok r) then _ ← os_close dir_fd; mret false else
  _ ← os_close fd;
  _ ← os_close dir_fd;
  mret true.

Definition tmp_corrupt (dir_path : list byte) (base_seq offset : Z) : M K bool :=
  '(r, dir_fd) ← os_openat AT_FDCWD dir_path O_DIR 0 (-1);
  if negb (result_ok r) then mret false else
  '(r, fd) ← os_openat dir_fd (wal_seg_name base_seq) (Z.lor O_RDWR O_CLOEXEC) 0 (-1);
  ok ← (if negb (result_ok r) then mret false else
        '(r, n, bs) ← os_pread fd 1 offset 0;
        ok ← (if result_ok r && (n =? 1)
              then r ← os_pwrite_full fd (flip_bit bs 0) 1 offset; mret (result_ok r)
              else mret false);
        _ ← os_close fd;
        mret ok);
  _ ← os_close dir_fd;
  mret ok.

End directories.

(** ** One segment *)

Definition seg_fill_rec (len session client_seq key : Z) : wal_rec_t :=
  Rec 0 len 1 0 session client_seq MSG_RECORD_NONE (Z.lor MSG_FLAG_ACK_REQ MSG_FLAG_SYNC) 0 key.

Definition payload : list byte := replicate 64 Byte.x5a.
Definition rec_size : Z := wal_rec_size 24.

(** The names have their digits in the right places. *)
Definition segment_names : bool :=
  let at_ (n : list byte) (i : Z) (c : byte) := bool_decide (zget n i = Some c) in
  let d := Z.of_nat WAL_SEG_DIGITS in
  let name := wal_seg_name 1 in
  let name2 := wal_seg_name 4021 in
  at_ name (d - 1) Byte.x31 && at_ name 0 Byte.x30 && at_ name d Byte.x2e &&
  at_ name (WAL_SEG_NAME_MAX - 1) Byte.x00 &&
  at_ name2 (d - 4) Byte.x34 && at_ name2 (d - 3) Byte.x30 && at_ name2 (d - 2) Byte.x32 &&
  at_ name2 (d - 1) Byte.x31 && at_ name2 (d - 5) Byte.x30.

Section segment.
Context {K : Type} `{Sys K}.
#[local] Abbreviation checked := (T K ()).

(** What a segment's variable holds before anything is put there. *)
Definition seg_blank : wal_seg_t := Seg 0 0 0 0 0 0 0 0.

(** A call that must succeed. *)
Definition must {A} (m : M K (result_t * A)) : checked A :=
  '(r, x) ← run m;
  stop_if () (negb (result_ok r));;
  mret x.

(** Append one record. *)
Definition append_one (s : wal_seg_t) (rec : wal_rec_t) (scratch : list byte)
    : M K (result_t * wal_seg_t * wal_rec_t * list byte) := wal_seg_append s rec (Some payload) scratch.

(** Append records numbered from [i]; a failure passes unless [strict]. *)
Fixpoint append_loop (n : nat) (strict : bool) (s : wal_seg_t) (i session key : Z) (scratch : list byte)
    : checked (wal_seg_t * list byte) :=
  match n with
  | O => mret (s, scratch)
  | S n =>
      '(r, s, _, scratch) ← run (append_one s (seg_fill_rec 24 session (i + 1) key) scratch);
      stop_if () (strict && negb (result_ok r));;
      append_loop n strict s (i + 1) session key scratch
  end.

(** The three appends of the first case, with the sequences they must get. *)
Fixpoint fresh_appends (n : nat) (s : wal_seg_t) (i expect_off : Z) (scratch : list byte)
    : checked (wal_seg_t * Z * list byte) :=
  match n with
  | O => mret (s, expect_off, scratch)
  | S n =>
      '(r, s, rec, scratch) ← run (append_one s (seg_fill_rec 24 7 (i + 1) 0xF00D) scratch);
      stop_if () (negb (result_ok r));;
      stop_if () (negb (w_seq rec =? i + 1));;
      fresh_appends n s (i + 1) (expect_off + rec_size) scratch
  end.

Definition sync_quietly (s : wal_seg_t) : checked wal_seg_t := '(_, s) ← run (wal_seg_sync s); mret s.
Definition close_quietly (s : wal_seg_t) : checked wal_seg_t := '(_, s) ← run (wal_seg_close s); mret s.

(** Scan a segment with [scratch_len] bytes of scratch and no callback. *)
Definition recover (s : wal_seg_t) (scratch_len : Z) : M K (result_t * wal_seg_t * option wal_seg_scan_t) :=
  '(r, s, scan, _) ← wal_seg_recover (λ (c : ()) _, c) s scratch_len ();
  mret (r, s, scan).

(** The same, having to succeed. *)
Definition recover_ok (s : wal_seg_t) (scratch_len : Z) : checked (wal_seg_t * wal_seg_scan_t) :=
  '(r, s, scan) ← run (recover s scratch_len);
  stop_if () (negb (result_ok r));;
  scan ← want () scan;
  mret (s, scan).

(** Create, append, flush and reopen. *)
Definition segment_fresh (dir_fd : Z) (scratch : list byte) : checked (list byte) :=
  s ← must (wal_seg_create seg_blank dir_fd 1 4096);
  stop_if () (negb (g_next_seq s =? 1) || negb (g_durable_seq s =? 0) || negb (g_write_off s =? 0));;
  '(r, n, bs) ← run (os_pread (g_fd s) WAL_REC_HEADER_SIZE (4096 - WAL_REC_HEADER_SIZE) 0);
  stop_if () (negb (result_ok r) || negb (n =? WAL_REC_HEADER_SIZE));;
  let scratch := blit scratch 0 bs in
  stop_if () (not_zeroed scratch 0 WAL_REC_HEADER_SIZE);;
  '(r, _) ← run (wal_seg_create seg_blank dir_fd 1 4096);
  stop_if () (result_ok r);;
  '(s, expect_off, scratch) ← fresh_appends 3 s 0 0 scratch;
  stop_if () (negb (g_write_off s =? expect_off) || negb (g_next_seq s =? 4));;
  stop_if () (negb (g_durable_seq s =? 0));;
  s ← must (wal_seg_sync s);
  stop_if () (negb (g_durable_seq s =? 3) || negb (g_synced_off s =? g_write_off s));;
  s ← must (wal_seg_sync s);
  stop_if () (negb (g_durable_seq s =? 3));;
  s ← close_quietly s;
  s ← must (wal_seg_open s dir_fd 1 4096);
  '(s, scan) ← recover_ok s 4096;
  stop_if () (negb (sc_records scan =? 3) || negb (sc_last_seq scan =? 3) || sc_torn scan ||
              negb (sc_end_off scan =? expect_off) || negb (g_next_seq s =? 4) ||
              negb (g_durable_seq s =? 3));;
  close_quietly s;;
  mret scratch.

(** A torn tail is dropped and its space used again. *)
Definition segment_torn (dir_fd : Z) (scratch : list byte) : checked (list byte) :=
  s ← must (wal_seg_create seg_blank dir_fd 1000 4096);
  '(s, scratch) ← append_loop 3 true s 0 1 1 scratch;
  s ← sync_quietly s;
  let third_off := 2 * rec_size in
  s ← close_quietly s;
  s ← must (wal_seg_open s dir_fd 1000 4096);
  r ← run (os_pwrite_full (g_fd s) [Byte.x00] 1 (third_off + WAL_REC_HEADER_SIZE));
  stop_if () (negb (result_ok r));;
  '(s, scan) ← recover_ok s 4096;
  stop_if () (negb (sc_records scan =? 2) || negb (sc_last_seq scan =? 1001) ||
              negb (sc_torn scan) || negb (sc_end_off scan =? third_off) ||
              negb (g_next_seq s =? 1002) || negb (g_write_off s =? third_off));;
  '(r, s, rec, scratch) ← run (append_one s (seg_fill_rec 24 1 3 1) scratch);
  stop_if () (negb (result_ok r) || negb (w_seq rec =? 1002));;
  s ← sync_quietly s;
  s ← close_quietly s;
  s ← must (wal_seg_open s dir_fd 1000 4096);
  '(s, scan) ← recover_ok s 4096;
  stop_if () (negb (sc_records scan =? 3) || negb (sc_last_seq scan =? 1002) || sc_torn scan);;
  close_quietly s;;
  mret scratch.

(** A record that is intact and out of sequence ends the scan. *)
Definition segment_stale (dir_fd : Z) (scratch : list byte) : checked (list byte) :=
  s ← must (wal_seg_create seg_blank dir_fd 2000 4096);
  '(s, scratch) ← append_loop 2 false s 0 1 1 scratch;
  s ← sync_quietly s;
  let rec := (seg_fill_rec 24 1 3 1) <| w_seq := 99 |> in
  let '(total, scratch, rec) := wal_rec_encode scratch 4096 rec (Some payload) in
  stop_if () (total =? 0);;
  r ← run (os_pwrite_full (g_fd s) scratch total (2 * rec_size));
  stop_if () (negb (result_ok r));;
  s ← sync_quietly s;
  s ← close_quietly s;
  s ← must (wal_seg_open s dir_fd 2000 4096);
  '(s, scan) ← recover_ok s 4096;
  stop_if () (negb (sc_records scan =? 2) || negb (sc_torn scan) ||
              negb (sc_end_off scan =? 2 * rec_size));;
  close_quietly s;;
  mret scratch.

(** So does a length that claims more than the segment has left. *)
Definition segment_overrun (dir_fd : Z) (scratch : list byte) : checked (list byte) :=
  let cap := 4096 in
  s ← must (wal_seg_create seg_blank dir_fd 5000 cap);
  '(s, scratch) ← append_loop 2 false s 0 1 1 scratch;
  s ← sync_quietly s;
  let plant_off := 2 * rec_size in
  let rec := (seg_fill_rec (u32 cap) 1 3 1) <| w_seq := 5002 |> in
  let scratch := mem_copy scratch 0 (rec_bytes rec) 0 WAL_REC_HEADER_SIZE in
  r ← run (os_pwrite_full (g_fd s) scratch WAL_REC_HEADER_SIZE plant_off);
  stop_if () (negb (result_ok r));;
  s ← sync_quietly s;
  s ← close_quietly s;
  s ← must (wal_seg_open s dir_fd 5000 cap);
  '(s, scan) ← recover_ok s 4096;
  stop_if () (negb (sc_records scan =? 2) || negb (sc_torn scan) ||
              negb (sc_end_off scan =? plant_off));;
  close_quietly s;;
  mret scratch.

(** Appends as long as they fit, counting those that succeed. *)
Fixpoint fill_loop (n : nat) (s : wal_seg_t) (i appended : Z) (scratch : list byte)
    : checked (wal_seg_t * Z * list byte) :=
  match n with
  | O => mret (s, appended, scratch)
  | S n =>
      let fits := wal_seg_fits s 24 in
      '(r, s, _, scratch) ← run (append_one s (seg_fill_rec 24 1 (i + 1) 1) scratch);
      stop_if () (negb (Bool.eqb (result_ok r) fits));;
      fill_loop n s (i + 1) (if result_ok r then appended + 1 else appended) scratch
  end.

(** A full segment refuses what does not fit. *)
Definition segment_full (dir_fd : Z) (scratch : list byte) : checked (list byte) :=
  let cap := rec_size * 3 in
  s ← must (wal_seg_create seg_blank dir_fd 3000 cap);
  '(s, appended, scratch) ← fill_loop 5 s 0 0 scratch;
  stop_if () (negb (appended =? 3) || negb (g_write_off s =? cap));;
  close_quietly s;;
  mret scratch.

(** A scan in blocks that cut a record in two. *)
Definition segment_blocks (dir_fd : Z) (scratch : list byte) : checked () :=
  let block := 2 * rec_size + WAL_REC_HEADER_SIZE + 4 in
  s ← must (wal_seg_create seg_blank dir_fd 4000 4096);
  '(s, scratch) ← append_loop 9 false s 0 1 1 scratch;
  s ← sync_quietly s;
  s ← close_quietly s;
  s ← must (wal_seg_open s dir_fd 4000 4096);
  '(s, scan) ← recover_ok s block;
  stop_if () (negb (sc_records scan =? 9) || negb (sc_last_seq scan =? 4008) || sc_torn scan);;
  '(r, s, _) ← run (recover s WAL_REC_HEADER_SIZE);
  stop_if () (result_ok r);;
  close_quietly s;;
  mret ().

Definition segment_cases (dir_fd : Z) : checked () :=
  stop_if () (negb segment_names);;
  scratch ← segment_fresh dir_fd (zeros 4096);
  scratch ← segment_torn dir_fd scratch;
  scratch ← segment_stale dir_fd scratch;
  scratch ← segment_overrun dir_fd scratch;
  scratch ← segment_full dir_fd scratch;
  segment_blocks dir_fd scratch.

(** The code's answer: 0, or 1 where something was wrong. *)
Definition selfcheck_wal_segment `{!CheckSys K} (rounds : nat) : M K Z :=
  dir_path ← seg_tmp_path 0;
  r ← os_mkdir dir_path MODE_0700;
  if negb (result_ok r) then mret 1 else
  '(r, dir_fd) ← os_openat AT_FDCWD dir_path O_DIR 0 (-1);
  if negb (result_ok r) then _ ← os_rmdir dir_path; mret 1 else
  x ← (segment_cases dir_fd : M K (() + ()));
  _ ← (if 0 <=? dir_fd then os_close dir_fd else mret RESULT_OK);
  _ ← tmp_dir_destroy rounds dir_path;
  mret (match x with inr _ => 0 | inl _ => 1 end).

End segment.

(** ** The whole log

    A step of these checks that finds something wrong ends with the log as it
    is then, for the cleanup to close. *)

Section log.
Context {K : Type} `{Sys K, !CheckSys K}.
Variable rounds : nat.
#[local] Abbreviation checked := (T K wal_t).

(** What the log's variable holds before it is first opened. *)
Definition wal_blank : wal_t := Wal (-1) 0 seg_blank [] wal_index_init.
Definition log_cap : Z := rec_size * 3.

(** Append [n] records of the size the checks use, and flush. *)
Fixpoint put_loop (n : nat) (w : wal_t) (i : Z) (scratch : list byte) : M K (result_t * wal_t * list byte) :=
  match n with
  | O => mret (RESULT_OK, w, scratch)
  | S n =>
      '(r, w, _, scratch) ← wal_append w (seg_fill_rec 24 1 (i + 1) 1) (Some payload) scratch;
      if negb (result_ok r) then mret (r, w, scratch) else put_loop n w (i + 1) scratch
  end.

Definition wal_put (w : wal_t) (scratch : list byte) (n : Z) : M K (result_t * wal_t * list byte) :=
  '(r, w, scratch) ← put_loop (Z.to_nat n) w 0 scratch;
  if negb (result_ok r) then mret (r, w, scratch) else
  '(r, w) ← wal_sync w;
  mret (r, w, scratch).

(** Opening with no callback; a listing that does not end counts as wrong. *)
Definition open_log (w : wal_t) (dir : list byte) (cap : Z) (scratch : list byte)
    : checked (result_t * wal_t * wal_open_t) :=
  x ← run (wal_open (λ (c : ()) _, c) rounds w dir cap scratch ());
  '(r, w, info, _) ← want w x;
  mret (r, w, info).

Definition open_ok (w : wal_t) (dir : list byte) (cap : Z) (scratch : list byte)
    : checked (wal_t * wal_open_t) :=
  '(r, w, info) ← open_log w dir cap scratch;
  stop_if w (negb (result_ok r));;
  mret (w, info).

(** Opening has to be refused. *)
Definition open_refused (w : wal_t) (dir : list byte) (cap : Z) (scratch : list byte) : checked wal_t :=
  '(r, w, _) ← open_log w dir cap scratch;
  stop_if w (result_ok r);;
  mret w.

Definition put_ok (w : wal_t) (scratch : list byte) (n : Z) : checked (wal_t * list byte) :=
  '(r, w, scratch) ← run (wal_put w scratch n);
  stop_if w (negb (result_ok r));;
  mret (w, scratch).

Definition close_log (w : wal_t) : checked wal_t :=
  '(_, w) ← run (wal_close w);
  mret w.

Definition retain (w : wal_t) (keep_from : Z) : checked (result_t * wal_t * Z) :=
  run (wal_retain w keep_from).

(** A directory, what is done in it, and its removal; the code writes this out
    for each scenario.  On an error the log is closed first. *)
Definition in_directory (tag : Z) (scenario : wal_t → list byte → list byte → checked (wal_t * list byte))
    (x : wal_t * list byte) : T K () (wal_t * list byte) :=
  let '(w, scratch) := x in
  dir ← run (seg_tmp_path tag);
  r ← run (os_mkdir dir MODE_0700);
  stop_if () (negb (result_ok r));;
  y ← run (scenario w dir scratch : M K (wal_t + wal_t * list byte));
  match y with
  | inr y => run (tmp_dir_destroy rounds dir);; mret y
  | inl w => run (wal_close w);; run (tmp_dir_destroy rounds dir);; stop ()
  end.

(** An empty directory, rollover, reopening and retention. *)
Definition log_rollover (w : wal_t) (dir scratch : list byte) : checked (wal_t * list byte) :=
  '(w, info) ← open_ok w dir log_cap scratch;
  stop_if w (negb (op_created info) || negb (op_segments info =? 1) ||
             negb (op_first_seq info =? 1) || negb (op_last_seq info =? 0) ||
             negb (op_records info =? 0) || negb (wal_next_seq w =? 1) ||
             negb (wal_durable_seq w =? 0));;
  '(w, scratch) ← put_ok w scratch 10;
  stop_if w (negb (bool_decide (wl_seg_base w = [1; 4; 7; 10])));;
  stop_if w (negb (wal_next_seq w =? 11) || negb (wal_durable_seq w =? 10));;
  let before := seg_count w in
  '(r, w, _, scratch) ← run (wal_append w (seg_fill_rec (u32 log_cap) 1 99 1) (Some payload) scratch);
  stop_if w (result_ok r);;
  stop_if w (negb (seg_count w =? before));;
  w ← close_log w;
  '(w, info) ← open_ok w dir log_cap scratch;
  stop_if w (op_created info || negb (op_segments info =? 4) || negb (op_records info =? 10) ||
             negb (op_first_seq info =? 1) || negb (op_last_seq info =? 10) || op_torn info ||
             negb (wal_next_seq w =? 11));;
  '(r, w, removed) ← retain w 7;
  stop_if w (negb (result_ok r) || negb (removed =? 2) || negb (seg_count w =? 2) ||
             negb (wal_first_seq w =? 7));;
  '(r, w, removed) ← retain w 7;
  stop_if w (negb (result_ok r) || negb (removed =? 0));;
  '(r, w, _) ← retain w 1000;
  stop_if w (negb (result_ok r) || negb (seg_count w =? 1) || negb (wal_first_seq w =? 10));;
  w ← close_log w;
  '(w, info) ← open_ok w dir log_cap scratch;
  stop_if w (negb (op_segments info =? 1) || negb (op_first_seq info =? 10) ||
             negb (op_last_seq info =? 10) || negb (op_records info =? 1));;
  w ← close_log w;
  mret (w, scratch).

(** A log of eight records, closed. *)
Definition log_of_eight (w : wal_t) (dir scratch : list byte) : checked (wal_t * list byte) :=
  '(w, _) ← open_ok w dir log_cap scratch;
  '(w, scratch) ← put_ok w scratch 8;
  w ← close_log w;
  mret (w, scratch).

(** A torn tail in the last segment. *)
Definition log_torn (w : wal_t) (dir scratch : list byte) : checked (wal_t * list byte) :=
  '(w, scratch) ← log_of_eight w dir scratch;
  ok ← run (tmp_corrupt dir 7 (rec_size + WAL_REC_HEADER_SIZE));
  stop_if w (negb ok);;
  '(w, info) ← open_ok w dir log_cap scratch;
  stop_if w (negb (op_torn info) || negb (op_last_seq info =? 7) || negb (op_records info =? 7) ||
             negb (wal_next_seq w =? 8));;
  '(w, scratch) ← put_ok w scratch 1;
  stop_if w (negb (wal_durable_seq w =? 8));;
  w ← close_log w;
  mret (w, scratch).

(** Damage in a segment before the last. *)
Definition log_damaged (w : wal_t) (dir scratch : list byte) : checked (wal_t * list byte) :=
  '(w, scratch) ← log_of_eight w dir scratch;
  ok ← run (tmp_corrupt dir 4 WAL_REC_HEADER_SIZE);
  stop_if w (negb ok);;
  w ← open_refused w dir log_cap scratch;
  mret (w, scratch).

(** A segment that is missing. *)
Definition log_gap (w : wal_t) (dir scratch : list byte) : checked (wal_t * list byte) :=
  '(w, scratch) ← log_of_eight w dir scratch;
  '(r, dfd) ← run (os_openat AT_FDCWD dir O_DIR 0 (-1));
  stop_if w (negb (result_ok r));;
  r ← run (os_unlinkat dfd (wal_seg_name 4) 0);
  stop_if w (negb (result_ok r));;
  run (os_close dfd);;
  w ← open_refused w dir log_cap scratch;
  mret (w, scratch).

(** A tear in the unused end of a segment before the last. *)
Definition log_tail_tear (w : wal_t) (dir scratch : list byte) : checked (wal_t * list byte) :=
  let roomy := rec_size * 3 + WAL_REC_HEADER_SIZE + 4 in
  '(w, _) ← open_ok w dir roomy scratch;
  '(w, scratch) ← put_ok w scratch 4;
  stop_if w (negb (seg_count w =? 2) || negb (bool_decide (zget (wl_seg_base w) 1 = Some 4)));;
  w ← close_log w;
  let bogus := (seg_fill_rec 0 1 1 1) <| w_seq := 4 |> <| w_crc := 0xDEADBEEF |> in
  let scratch := mem_copy scratch 0 (rec_bytes bogus) 0 WAL_REC_HEADER_SIZE in
  '(r, dfd) ← run (os_openat AT_FDCWD dir O_DIR 0 (-1));
  stop_if w (negb (result_ok r));;
  '(r, sfd) ← run (os_openat dfd (wal_seg_name 1) (Z.lor O_RDWR O_CLOEXEC) 0 (-1));
  stop_if w (negb (result_ok r));;
  r ← run (os_pwrite_full sfd scratch WAL_REC_HEADER_SIZE (rec_size * 3));
  stop_if w (negb (result_ok r));;
  run (os_close sfd);;
  run (os_close dfd);;
  w ← open_refused w dir roomy scratch;
  mret (w, scratch).

(** Files that are no segments. *)
Definition decoys : list (list byte) :=
  (λ s, txt s ++ [Byte.x00]) <$>
    ["notasegment"; "00000000000000000001.seg.tmp"; "0000000000000000000x.seg";
     "00000000000000000000.seg"]%string.

Fixpoint touch_all (dir : list byte) (names : list (list byte)) : M K bool :=
  match names with
  | [] => mret true
  | name :: names =>
      ok ← tmp_touch dir name;
      if (ok : bool) then touch_all dir names else mret false
  end.

Definition log_decoys (w : wal_t) (dir scratch : list byte) : checked (wal_t * list byte) :=
  ok ← run (touch_all dir decoys);
  stop_if w (negb ok);;
  '(w, info) ← open_ok w dir log_cap scratch;
  stop_if w (negb (op_created info) || negb (op_segments info =? 1) ||
             negb (op_first_seq info =? 1));;
  w ← close_log w;
  mret (w, scratch).

Definition selfcheck_wal : T K () () :=
  x ← in_directory 1 log_rollover (wal_blank, zeros 4096);
  x ← in_directory 2 log_torn x;
  x ← in_directory 3 log_damaged x;
  x ← in_directory 4 log_gap x;
  x ← in_directory 6 log_tail_tear x;
  x ← in_directory 5 log_decoys x;
  mret ().

End log.
