(* ===== verification/SelfcheckLoop.v ===== *)
(** * The program's own checks of the event loop (src/server/selfcheck.c)

    A server's loop and its clients in one process, the loop turned by hand
    between the client's requests: the client side of the checks, the check of
    epoll, the check of the loop and that of sessions across a restart.  The
    buffers the code keeps from one check to the next, the clients' read buffers
    apart, are filled before they are read and are made anew here. *)

From Stdlib Require Import String.
From S2P Require Import Prelude Core Crc32c Fmt Msg Conn Record Index Os Session Segment Wal Cursor.
From S2P Require Import LoopState LoopFrames LoopServe Metrics LoopTick Main Selfcheck Loopback SelfcheckLog.
Import Core.Mem.

Open Scope Z_scope.
Open Scope stdpp_scope.

(** ** What a check has at hand

    The variables of the checks: the loop, or the two loops, the descriptors
    of the clients still to be closed, and the clients' read buffers, which
    are static.  A loop holds its log and its session table, which the code
    points it at. *)

Record env := Env {
  e_read : list (Z * list byte); e_loop : loop_t; e_follower : loop_t; e_fd : Z; e_fd2 : Z }.
#[export] Instance eta_env : Eta env := λ v,
  Env (e_read v) (e_loop v) (e_follower v) (e_fd v) (e_fd2 v).

(** The loop's own scratch buffer, and how many listings of a directory a
    check waits for. *)
Class Setting := { ls_scratch : list byte; rounds : nat }.

(** Which of the two loops. *)
Inductive node := Leader | Follower.
Definition node_of (n : node) (v : env) : loop_t :=
  match n with Leader => e_loop v | Follower => e_follower v end.
Definition set_node (n : node) (l : loop_t) (v : env) : env :=
  match n with Leader => v <| e_loop := l |> | Follower => v <| e_follower := l |> end.

Definition LOOP_RD_SLOTS : nat := 4.

(** The read buffers as the process starts: descriptor 0, nothing read. *)
Definition rd_start : list (Z * list byte) := replicate LOOP_RD_SLOTS (0, []).

Section client.
Context {K : Type} `{Sys K, !CheckSys K, !Setting}.

(** A check over the machine and the variables; it stops where something is
    wrong. *)
Definition C (A : Type) : Type := T (K * env) () A.

Definition sys {A} (m : M K A) : C A := λ '(k, v), let '(x, k) := m k in (inr x, (k, v)).
Definition get {A} (f : env → A) : C A := λ s, (inr (f s.2), s).
Definition set (f : env → env) : C () := λ s, (inr (), (s.1, f s.2)).
Definition bad (b : bool) : C () := stop_if () b.
Definition need {A} (o : option A) : C A := want () o.

(** Close [fd] where something is wrong. *)
Definition bad_closing (fd : Z) (b : bool) : C () := if b then sys (os_close fd);; stop () else mret ().
Definition need_closing {A} (fd : Z) (o : option A) : C A :=
  match o with Some x => mret x | None => sys (os_close fd);; stop () end.

(** Run a step of a loop. *)
Definition tick (n : node) : C () :=
  l ← get (node_of n);
  '(_, l) ← sys (loop_tick l false ls_scratch);
  set (set_node n l).

Fixpoint ticks (times : nat) (n : node) : C () :=
  match times with
  | O => mret ()
  | S times => tick n;; ticks times n
  end.

Definition loop_settle (n : node) : C () := ticks 16 n.

Definition loop_read_forget (fd : Z) : C () :=
  set (λ v, v <| e_read ::= fmap (λ s : Z * list byte, if s.1 =? fd then (-1, []) else s) |>).

(** The slot's index and the slots. *)
Definition loop_rd_slot (fd : Z) (rd : list (Z * list byte)) : nat * list (Z * list byte) :=
  match list_find (λ s : Z * list byte, s.1 = fd) rd with
  | Some (i, _) => (i, rd)
  | None =>
      match list_find (λ s : Z * list byte, s.1 <= 0) rd with
      | Some (i, _) => (i, <[i := (fd, [])]> rd)
      | None => ((LOOP_RD_SLOTS - 1)%nat, drop 1 rd ++ [(fd, [])])
      end
  end.

(** One whole frame: its header, its payload's length and its bytes.  Each
    read takes at least a byte, of 4096 the buffer has. *)
Fixpoint read_frame_loop (fuel : nat) (fd : Z) (slot : nat) (cap : Z)
    : C (option (msg_header_t * Z * list byte)) :=
  match fuel with
  | O => mret None
  | S fuel =>
      rd ← get e_read;
      let buf := from_option snd [] (rd !! slot) in
      let have := zlen buf in
      let read_more :=
        '(n, bs) ← sys (os_read_raw fd (4096 - have));
        if n <=? 0 then mret None else
        set (λ v, v <| e_read ::= alter (λ s, (s.1, buf ++ sub 0 n bs)) slot |>);;
        read_frame_loop fuel fd slot cap in
      match (if MSG_HEADER_SIZE <=? have then msg_decode_header buf have else None) with
      | None => read_more
      | Some h =>
          let total := MSG_HEADER_SIZE + i32 (h_payload_len h) in
          if cap <? total then mret None else
          if total <=? have then
            set (λ v, v <| e_read ::= alter (λ s, (s.1, drop (Z.to_nat total) buf)) slot |>);;
            mret (Some (h, i32 (h_payload_len h), sub 0 total buf))
          else read_more
      end
  end.

Definition loop_read_frame (fd cap : Z) : C (option (msg_header_t * Z * list byte)) :=
  rd ← get e_read;
  let '(slot, rd) := loop_rd_slot fd rd in
  set (λ v, v <| e_read := rd |>);;
  read_frame_loop 4098 fd slot cap.

(** A connection to a port of this machine, negative where there is none. *)
Definition loop_client_connect (port : Z) : C Z :=
  '(r, fd) ← sys (os_socket AF_INET SOCK_STREAM 0 (-1));
  if negb (result_ok r) then mret (-1) else
  r ← sys (os_connect fd (bswap16 (u16 port)) (bswap32 0x7F000001));
  if negb (result_ok r) then sys (os_close fd);; mret (-1) else
  loop_read_forget fd;;
  mret fd.

Definition loop_send_frame (fd op flags key seq : Z) (payload : list byte) : C bool :=
  let payload_len := zlen payload in
  if 512 <? MSG_HEADER_SIZE + payload_len then mret false else
  let h := msg_header_new op MSG_RECORD_NONE flags (u32 payload_len) key seq in
  n ← sys (os_write_raw fd (header_bytes h ++ payload));
  mret (n =? MSG_HEADER_SIZE + payload_len).

(** The frames of a batch from [first_seq] on. *)
Definition write_batch (first_seq : Z) (count : nat) : list byte :=
  concat ((λ i, header_bytes (msg_header_new MSG_OP_WRITE MSG_RECORD_NONE
             (Z.lor MSG_FLAG_ACK_REQ MSG_FLAG_SYNC) 1 1 (first_seq + i)) ++ txt "x")
            <$> seqZ 0 (Z.of_nat count)).

Definition loop_send_write_batch (fd first_seq : Z) (count : nat) : C bool :=
  let out := write_batch first_seq count in
  if 2048 <? zlen out then mret false else
  n ← sys (os_write_raw fd out);
  mret (n =? zlen out).

(** The bytes after a frame's header. *)
Definition frame_payload (frame : list byte) : list byte := drop (Z.to_nat MSG_HEADER_SIZE) frame.

(** The session and the high-water mark the server answers with. *)
Definition loop_hello (n : node) (fd resume : Z) : C (option (Z * Z)) :=
  ok ← loop_send_frame fd MSG_OP_HELLO MSG_FLAG_ACK_REQ 0 0 (hello_bytes (Hello resume 0 0 0));
  if negb ok then mret None else
  loop_settle n;;
  f ← loop_read_frame fd 256;
  mret ('(h, plen, frame) ← f;
        wrong (negb (h_op h =? MSG_OP_ACK) || negb (plen =? MSG_ACK_SIZE));;
        ack ← msg_decode_ack (Some (frame_payload frame)) plen;
        Some (h_sequence h, ak_client_seq ack)).

(** Send a request, turn the loop, and take the frame that answers it. *)
Definition request (n : node) (fd op flags key seq : Z) (payload : list byte)
    : C (msg_header_t * Z * list byte) :=
  ok ← loop_send_frame fd op flags key seq payload;
  bad (negb ok);;
  loop_settle n;;
  f ← loop_read_frame fd 512;
  need f.

(** The answer is an error with this code. *)
Definition is_error (x : msg_header_t * Z * list byte) (code : Z) : bool :=
  let '(h, plen, frame) := x in
  (h_op h =? MSG_OP_ERR) &&
  match msg_decode_err (Some (frame_payload frame)) plen with
  | Some ep => ep_code ep =? code
  | None => false
  end.

(** The answer is an acknowledgement; the client sequence it names. *)
Definition acked (x : msg_header_t * Z * list byte) : option Z :=
  let '(h, plen, frame) := x in
  wrong (negb (h_op h =? MSG_OP_ACK));;
  ak_client_seq <$> msg_decode_ack (Some (frame_payload frame)) plen.

Definition counts (v : env) : loop_counts_t := l_counts (e_loop v).
Definition log (v : env) : wal_t := l_wal (e_loop v).

End client.

(** ** epoll *)

Section epoll.
Context {K : Type} `{Sys K}.
#[local] Abbreviation checked := (T K ()).

(** The connected pair, or nothing. *)
Definition epoll_pair : M K (option (Z * Z)) :=
  '(r, ln) ← os_socket AF_INET SOCK_STREAM 0 (-1);
  if negb (result_ok r) then mret None else
  let close_listener := _ ← os_close ln; mret None in
  r ← os_bind ln 0 (bswap32 0x7F000001);
  if negb (result_ok r) then close_listener else
  r ← os_listen ln 4;
  if negb (result_ok r) then close_listener else
  '(r, port) ← os_getsockname ln 0;
  if negb (result_ok r) then close_listener else
  '(r, a) ← os_socket AF_INET SOCK_STREAM 0 (-1);
  if negb (result_ok r) then close_listener else
  let close_both := _ ← os_close a; _ ← os_close ln; mret None in
  r ← os_connect a port (bswap32 0x7F000001);
  if negb (result_ok r) then close_both else
  '(r, b) ← os_accept4 ln (Z.lor SOCK_NONBLOCK SOCK_CLOEXEC) (-1);
  if negb (result_ok r) then close_both else
  _ ← os_close ln;
  mret (Some (a, b)).

(** Wait for events, of which there have to be [n]. *)
Definition wait_for (ep : Z) (n : Z) : checked (list (Z * Z)) :=
  '(r, evs) ← run (os_epoll_wait ep 8 0);
  stop_if () (negb (result_ok r) || negb (zlen evs =? n));;
  mret evs.

Definition control (ep op fd events data : Z) : checked () :=
  r ← run (os_epoll_ctl ep op fd events data);
  stop_if () (negb (result_ok r)).

Definition epoll_cases (ep a b : Z) : checked () :=
  let data_b := 0x0700000000000002 in
  let data_a := 0x0300000000000001 in
  control ep EPOLL_CTL_ADD b EPOLLIN data_b;;
  wait_for ep 0;;
  res ← run (os_send a [Byte.x5a] (Z.lor MSG_NOSIGNAL MSG_DONTWAIT));
  stop_if () (negb (res =? 1));;
  evs ← wait_for ep 1;
  '(data, events) ← want () (head evs);
  stop_if () (negb (data =? data_b) || negb (has_flag events EPOLLIN));;
  '(res, bs) ← run (os_recv b 1 MSG_DONTWAIT);
  stop_if () (negb (res =? 1) || negb (bool_decide (head bs = Some Byte.x5a)));;
  wait_for ep 0;;
  control ep EPOLL_CTL_MOD b EPOLLOUT data_b;;
  control ep EPOLL_CTL_ADD a EPOLLOUT data_a;;
  evs ← wait_for ep 2;
  match evs with
  | [(d0, e0); (d1, e1)] =>
      stop_if () (negb (Z.lxor d0 d1 =? Z.lxor data_a data_b) || (d0 =? d1) ||
                  negb (has_flag e0 EPOLLOUT) || negb (has_flag e1 EPOLLOUT))
  | _ => stop ()
  end;;
  control ep EPOLL_CTL_DEL b 0 0;;
  control ep EPOLL_CTL_DEL a 0 0;;
  wait_for ep 0;;
  mret ().

Definition EPOLL_CLOEXEC : Z := 0x80000.

Definition selfcheck_epoll : M K Z :=
  '(r, ep) ← os_epoll_create EPOLL_CLOEXEC (-1);
  if negb (result_ok r) then mret 1 else
  p ← epoll_pair;
  match p with
  | None => _ ← os_close ep; mret 1
  | Some (a, b) =>
      x ← (epoll_cases ep a b : M K (() + ()));
      _ ← os_close a;
      _ ← os_close b;
      _ ← os_close ep;
      mret (match x with inr _ => 0 | inl _ => 1 end)
  end.

End epoll.

(** ** The loop *)

Section loop.
Context {K : Type} `{Sys K, !CheckSys K, !Setting}.
#[local] Abbreviation C := (C (K := K)).

(** A client that comes in, and one whose first frame is not the opening one. *)
Definition loop_accept : C () :=
  l ← get e_loop;
  bad (l_port l <=? 0);;
  fd ← loop_client_connect (l_port l);
  set (λ v, v <| e_fd := fd |>);;
  bad (fd <? 0);;
  loop_settle Leader;;
  l ← get e_loop;
  bad (negb (ct_accepted (l_counts l) =? 1) || negb (loop_live_conns l =? 1));;
  probe ← loop_client_connect (l_port l);
  bad (probe <? 0);;
  loop_settle Leader;;
  ok ← loop_send_frame probe MSG_OP_WRITE MSG_FLAG_ACK_REQ 0 1 [];
  bad_closing probe (negb ok);;
  loop_settle Leader;;
  f ← loop_read_frame probe 512;
  x ← need_closing probe f;
  bad_closing probe (negb (is_error x MSG_ERR_NO_SESSION));;
  sys (os_close probe);;
  loop_settle Leader.

(** The session opened. *)
Definition loop_open_session : C Z :=
  fd ← get e_fd;
  x ← loop_hello Leader fd 0;
  '(session, high) ← need x;
  bad ((session =? 0) || negb (high =? 0));;
  mret session.

Definition loop_ping : C () :=
  fd ← get e_fd;
  before ← get (ct_flushes ∘ counts);
  '(h, _, _) ← request Leader fd MSG_OP_PING 0 0 42 [];
  bad (negb (h_op h =? MSG_OP_PONG) || negb (h_sequence h =? 42));;
  flushes ← get (ct_flushes ∘ counts);
  bad (negb (flushes =? before)).

Definition DURABLE : Z := Z.lor MSG_FLAG_ACK_REQ MSG_FLAG_SYNC.

(** A write is acknowledged, and the log is flushed. *)
Definition loop_write : C () :=
  fd ← get e_fd;
  '(h, plen, frame) ← request Leader fd MSG_OP_WRITE DURABLE 0xF00D 1 (txt "hello wal");
  bad (negb (plen =? MSG_ACK_SIZE));;
  client_seq ← need (acked (h, plen, frame));
  bad (negb (client_seq =? 1) || negb (h_sequence h =? 1));;
  bad (negb (has_flag (h_flags h) MSG_FLAG_SYNC));;
  w ← get log;
  k ← get counts;
  bad ((wal_durable_seq w <? 1) || (ct_flushes k =? 0));;
  bad (negb (ct_writes k =? 1)).

(** Four writes in one send: one flush and one acknowledgement. *)
Definition loop_batch : C () :=
  fd ← get e_fd;
  before ← get (ct_flushes ∘ counts);
  ok ← loop_send_write_batch fd 2 4;
  bad (negb ok);;
  loop_settle Leader;;
  f ← loop_read_frame fd 512;
  x ← need f;
  client_seq ← need (acked x);
  bad (negb (client_seq =? 5));;
  k ← get counts;
  bad (negb (ct_flushes k =? before + 1));;
  w ← get log;
  bad (negb (ct_writes k =? 5) || negb (wal_durable_seq w =? 5)).

(** A resend is answered and not stored. *)
Definition loop_resend : C () :=
  fd ← get e_fd;
  before ← get (ct_writes ∘ counts);
  x ← request Leader fd MSG_OP_WRITE DURABLE 1 3 (txt "x");
  client_seq ← need (acked x);
  k ← get counts;
  bad (negb (ct_writes k =? before));;
  bad (negb (ct_dedup_hits k =? 1) || negb (client_seq =? 5)).

(** A replicated write with no replica is refused, or degraded if it may be. *)
Definition loop_no_replica : C () :=
  fd ← get e_fd;
  let replicated := Z.lor DURABLE MSG_FLAG_REPLICATED in
  x ← request Leader fd MSG_OP_WRITE replicated 1 6 (txt "x");
  bad (negb (is_error x MSG_ERR_NO_REPLICAS));;
  '(h, _, _) ← request Leader fd MSG_OP_WRITE (Z.lor replicated MSG_FLAG_ALLOW_DEGRADED) 1 6 (txt "x");
  bad (negb (h_op h =? MSG_OP_ACK) || negb (has_flag (h_flags h) MSG_FLAG_DEGRADED)).

(** The frames of a read until the one that ends it; how many came before. *)
Fixpoint read_records (times : nat) (fd records : Z) : C Z :=
  match times with
  | O => stop ()
  | S times =>
      loop_settle Leader;;
      f ← loop_read_frame fd 512;
      '(h, _, _) ← need f;
      bad (negb (h_op h =? MSG_OP_NOTIFY));;
      if has_flag (h_flags h) MSG_FLAG_LAST then mret records else
      bad (negb (h_partition_key h =? 1));;
      read_records times fd (records + 1)
  end.

Definition loop_read : C () :=
  fd ← get e_fd;
  '(h, plen, _) ← request Leader fd MSG_OP_READ 0 1 0 (read_bytes (ReadReq 0));
  bad (negb (h_op h =? MSG_OP_ACK) || negb (plen =? 0));;
  records ← read_records 64 fd 0;
  bad (records <? 3).

(** The frames a watcher gets until the record it waits for. *)
Fixpoint watch (times : nat) (watcher : Z) : C bool :=
  match times with
  | O => mret false
  | S times =>
      loop_settle Leader;;
      f ← loop_read_frame watcher 512;
      '(h, plen, frame) ← need_closing watcher f;
      if h_op h =? MSG_OP_ACK then watch times watcher else
      bad_closing watcher (negb (h_op h =? MSG_OP_NOTIFY));;
      if (h_partition_key h =? 77) && (plen =? 7) &&
         (mem_cmp (frame_payload frame) 0 (txt "watched") 0 7 =? 0)
      then mret true else watch times watcher
  end.

Definition loop_subscribe : C () :=
  l ← get e_loop;
  watcher ← loop_client_connect (l_port l);
  bad (watcher <? 0);;
  x ← loop_hello Leader watcher 0;
  need x;;
  ok ← loop_send_frame watcher MSG_OP_SUBSCRIBE MSG_FLAG_ALL_KEYS 0 0 (subscribe_bytes (SubReq 0 0));
  bad_closing watcher (negb ok);;
  loop_settle Leader;;
  f ← loop_read_frame watcher 512;
  '(h, plen, _) ← need_closing watcher f;
  bad_closing watcher (negb (h_op h =? MSG_OP_ACK) || negb (plen =? 0));;
  ok ← loop_send_frame watcher MSG_OP_WRITE DURABLE 77 1 (txt "watched");
  bad_closing watcher (negb ok);;
  seen ← watch 32 watcher;
  sys (os_close watcher);;
  bad (negb seen).

(** A verb that is not built. *)
Definition loop_unsupported : C () :=
  fd ← get e_fd;
  x ← request Leader fd MSG_OP_DELETE 0 1 0 [];
  bad (negb (is_error x MSG_ERR_UNSUPPORTED)).

(** The session resumed on a second connection, and one that never was. *)
Definition loop_resume (session : Z) : C () :=
  l ← get e_loop;
  fd2 ← loop_client_connect (l_port l);
  set (λ v, v <| e_fd2 := fd2 |>);;
  bad (fd2 <? 0);;
  loop_settle Leader;;
  x ← loop_hello Leader fd2 session;
  '(s2, hw) ← need x;
  bad (negb (s2 =? session) || negb (hw =? 6));;
  fd3 ← loop_client_connect (l_port l);
  bad (fd3 <? 0);;
  loop_settle Leader;;
  loop_send_frame fd3 MSG_OP_HELLO MSG_FLAG_ACK_REQ 0 0 (hello_bytes (Hello 999999 0 0 0));;
  loop_settle Leader;;
  f ← loop_read_frame fd3 512;
  bad_closing fd3 (match f with Some x => negb (is_error x MSG_ERR_SESSION_UNKNOWN) | None => true end);;
  sys (os_close fd3);;
  loop_settle Leader.

(** A slot is free again when its connection is closed. *)
Definition loop_slot_freed : C () :=
  before ← get (loop_live_conns ∘ e_loop);
  fd2 ← get e_fd2;
  sys (os_close fd2);;
  set (λ v, v <| e_fd2 := -1 |>);;
  loop_settle Leader;;
  live ← get (loop_live_conns ∘ e_loop);
  bad (negb (live =? before - 1)).

Definition loop_cases : C () :=
  loop_accept;;
  session ← loop_open_session;
  loop_ping;;
  loop_write;;
  loop_batch;;
  loop_resend;;
  loop_no_replica;;
  loop_read;;
  loop_subscribe;;
  loop_unsupported;;
  loop_resume session;;
  loop_slot_freed.

(** Stop the loop and close its log. *)
Definition stop_loop (n : node) : C () :=
  l ← get (node_of n);
  l ← sys (loop_shutdown l);
  set (set_node n l).

Definition close_wal (n : node) : C () :=
  l ← get (node_of n);
  '(_, w) ← sys (wal_close (l_wal l));
  set (set_node n (l <| l_wal := w |>)).

Definition close_client : C () :=
  fd ← get e_fd;
  sys (if 0 <=? fd then os_close fd else mret RESULT_OK);;
  set (λ v, v <| e_fd := -1 |>).

Definition close_client2 : C () :=
  fd ← get e_fd2;
  sys (if 0 <=? fd then os_close fd else mret RESULT_OK);;
  set (λ v, v <| e_fd2 := -1 |>).

(** What is stored is there when the log is opened again; its own check of
    the log, which is stopped and closed before. *)
Definition loop_reopen (dir : list byte) : C () :=
  close_client;;
  loop_settle Leader;;
  stop_loop Leader;;
  close_wal Leader;;
  x ← sys (wal_open (λ (c : ()) _, c) rounds wal_blank dir 65536 (zeros 4096) ());
  '(r, w2, info2, _) ← need x;
  bad (negb (result_ok r));;
  sys (wal_close w2);;
  bad (negb (op_last_seq info2 =? 7) || negb (op_records info2 =? 7) || op_torn info2).

(** Run a check's steps, and something else where they end early. *)
Definition orelse {A} (m : C A) (cleanup : C ()) : C A := λ s,
  match m s with
  | (inr x, s) => (inr x, s)
  | (inl e, s) => match cleanup s with (_, s) => (inl e, s) end
  end.

(** The variables with a new loop. *)
Definition with_loop (l : loop_t) : C () :=
  set (λ v, v <| e_loop := l |> <| e_fd := -1 |> <| e_fd2 := -1 |>).

Definition destroy (dir : list byte) : C () := sys (tmp_dir_destroy rounds dir).

(** A new directory for a check. *)
Definition make_dir (tag : Z) : C (list byte) :=
  dir ← sys (seg_tmp_path tag);
  r ← sys (os_mkdir dir MODE_0700);
  bad (negb (result_ok r));;
  mret dir.

(** Open a log with the session table to be filled; an error removes the
    directory. *)
Definition open_sessions (dir : list byte) (cap scratch_len : Z)
    : C (wal_t * wal_open_t * session_table_t) :=
  x ← sys (wal_open session_from_record rounds wal_blank dir cap (zeros scratch_len) session_table_init);
  match x with
  | Some (r, w, info, sessions) =>
      if result_ok r then mret (w, info, sessions) else destroy dir;; stop ()
  | None => destroy dir;; stop ()
  end.

(** A loop that cannot start is no failure of the check.  The code sets the
    session table up only after opening the log; the directory is new, so that
    nothing is counted into it before. *)
Definition selfcheck_loop : C () :=
  dir ← make_dir 7;
  '(w, _, _) ← open_sessions dir 65536 4096;
  '(r, l) ← sys (loop_init w session_table_init 0x7F000001 0);
  if negb (result_ok r) then sys (wal_close w);; destroy dir;; mret () else
  with_loop l;;
  orelse loop_cases
    (close_client;; close_client2;; stop_loop Leader;; close_wal Leader;; destroy dir);;
  orelse (loop_reopen dir) (destroy dir);;
  destroy dir.

End loop.

(** ** Sessions across a restart *)

Section recovery.
Context {K : Type} `{Sys K, !CheckSys K, !Setting}.
#[local] Abbreviation C := (C (K := K)).

(** The exit the steps under a running loop share. *)
Definition recovery_fail (dir : list byte) : C () :=
  close_client;; stop_loop Leader;; close_wal Leader;; destroy dir.

(** Three writes on one session, whose id comes back. *)
Definition recovery_first : C Z :=
  l ← get e_loop;
  fd ← loop_client_connect (l_port l);
  set (λ v, v <| e_fd := fd |>);;
  bad (fd <? 0);;
  loop_settle Leader;;
  x ← loop_hello Leader fd 0;
  '(session, _) ← need x;
  bad (session =? 0);;
  ok ← loop_send_write_batch fd 1 3;
  bad (negb ok);;
  loop_settle Leader;;
  k ← get counts;
  bad (negb (ct_writes k =? 3));;
  mret session.

(** Sixty-four new sessions, none with the id the log holds. *)
Fixpoint recovery_draws (times : nat) (t : session_table_t) (session : Z) : C session_table_t :=
  match times with
  | O => mret t
  | S times =>
      '(fresh, t) ← sys (session_create t);
      fresh ← need fresh;
      bad (id_at t fresh =? session);;
      recovery_draws times t session
  end.

(** The table counted back out of the log, on which a new loop starts. *)
Definition recovery_table (session : Z) (t : session_table_t) : C session_table_t :=
  s ← need (session_lookup t session);
  bad (negb (last_at t s =? 3));;
  recovery_draws 64 t session.

(** The session resumed, its writes sent again, and a new one. *)
Definition recovery_second (session : Z) : C () :=
  l ← get e_loop;
  fd ← loop_client_connect (l_port l);
  set (λ v, v <| e_fd := fd |>);;
  bad (fd <? 0);;
  loop_settle Leader;;
  x ← loop_hello Leader fd session;
  '(s2, high) ← need x;
  bad (negb (s2 =? session) || negb (high =? 3));;
  before ← get (ct_writes ∘ counts);
  ok ← loop_send_write_batch fd 2 2;
  bad (negb ok);;
  loop_settle Leader;;
  k ← get counts;
  bad (negb (ct_writes k =? before) || negb (ct_dedup_hits k =? 2));;
  w ← get log;
  bad (negb (wal_next_seq w =? 4));;
  ok ← loop_send_write_batch fd 4 1;
  bad (negb ok);;
  loop_settle Leader;;
  k ← get counts;
  w ← get log;
  bad (negb (ct_writes k =? 1) || negb (wal_durable_seq w =? 4)).

(** Stop and close, the steps having gone well. *)
Definition finish_loop : C () := close_client;; stop_loop Leader;; close_wal Leader.

(** Append records numbered from [i] on session 42. *)
Fixpoint recovery_appends (times : nat) (w : wal_t) (i : Z) (scratch : list byte)
    : T K wal_t (wal_t * list byte) :=
  match times with
  | O => mret (w, scratch)
  | S times =>
      '(r, w, _, scratch) ← run (wal_append w (seg_fill_rec 1 42 i 1) (Some (txt "x")) scratch);
      stop_if w (negb (result_ok r));;
      recovery_appends times w (i + 1) scratch
  end.

(** A torn record raises no mark. *)
Definition recovery_torn : C () :=
  dir ← make_dir 9;
  let size := wal_rec_size 1 in
  '(w, _, _) ← open_sessions dir 65536 4096;
  y ← sys (recovery_appends 3 w 1 (zeros 4096) : M K (wal_t + wal_t * list byte));
  match y with
  | inl w => sys (wal_close w);; destroy dir;; stop ()
  | inr (w, _) =>
      '(_, w) ← sys (wal_sync w);
      sys (wal_close w);;
      ok ← sys (tmp_corrupt dir 1 (2 * size + WAL_REC_HEADER_SIZE));
      orelse (bad (negb ok)) (destroy dir);;
      '(w, info, t) ← open_sessions dir 65536 4096;
      let fails := sys (wal_close w);; destroy dir in
      orelse (bad (negb (op_torn info) || negb (op_records info =? 2))) fails;;
      orelse (s42 ← need (session_lookup t 42); bad (negb (last_at t s42 =? 2))) fails;;
      sys (wal_close w);;
      destroy dir
  end.

Definition selfcheck_session_recovery : C () :=
  dir ← make_dir 8;
  '(w, _, t) ← open_sessions dir 65536 4096;
  '(r, l) ← sys (loop_init w t 0x7F000001 0);
  if negb (result_ok r) then sys (wal_close w);; destroy dir;; mret () else
  with_loop l;;
  session ← orelse recovery_first (recovery_fail dir);
  close_client;;
  loop_settle Leader;;
  stop_loop Leader;;
  close_wal Leader;;
  '(w, _, t) ← open_sessions dir 65536 4096;
  let fails := sys (wal_close w);; destroy dir in
  t ← orelse (recovery_table session t) fails;
  '(r, l) ← sys (loop_init w t 0x7F000001 0);
  orelse (bad (negb (result_ok r))) fails;;
  with_loop l;;
  orelse (recovery_second session) (recovery_fail dir);;
  finish_loop;;
  destroy dir;;
  recovery_torn.

End recovery.
