(* ===== verification/SelfcheckNodes.v ===== *)
(** * The program's own checks of two nodes, retention and metrics
    (src/server/selfcheck.c)

    A send that fails, a leader and its replica in one process, retention on
    one node and with a replica, the metrics endpoint; then all the checks in
    the order [selfcheck_run] has them, and a run of them. *)

From Stdlib Require Import String.
From S2P Require Import Prelude Core Crc32c Fmt Msg Conn Record Index Os Session Segment Wal Cursor.
From S2P Require Import LoopState LoopFrames LoopServe Metrics LoopTick Main Selfcheck Loopback SelfcheckLog SelfcheckLoop.
Import Core.Mem.

Open Scope Z_scope.
Open Scope stdpp_scope.

(** ** A failed send *)

Section send_failure.
Context {K : Type} `{Sys K, !CheckSys K, !Setting}.
#[local] Abbreviation C := (C (K := K)).

Definition EPIPE : Z := 32.
Definition ECONNRESET : Z := 104.
Definition SHUT_RDWR : Z := 2.
Definition STAGED_CAP : Z := 64.

Definition on_leader (f : loop_t → loop_t) : C () := set (λ v, v <| e_loop ::= f |>).
Definition slot_of (i : nat) : C loop_conn_t := get (λ v, slot (e_loop v) i).

(** Slot 1 made to look like a connection with these bytes staged. *)
Definition dress (replica : option Z) (bytes : list byte) : C () :=
  on_leader (on_slot 1 (λ c, c <| cn_in_use := true |> <| cn_fd := -1 |>
    <| cn_replica ::= λ r, default r replica |> <| cn_send_cap := STAGED_CAP |> <| cn_staged := bytes |>)).

(** A short write keeps the bytes not sent; a failed one, and one that moved
    nothing, drop them and end the connection. *)
Definition send_results : C () :=
  dress (Some 1) (txt "ABCDEF");;
  on_leader (λ l, loop_send_done l 1 2);;
  c ← slot_of 1;
  bad (negb (bool_decide (cn_staged c = txt "CDEF")));;
  on_leader (on_slot 1 (λ c, c <| cn_in_use := false |> <| cn_replica := -1 |> <| cn_staged := [] |>));;
  dress None (txt "doomed");;
  on_leader (λ l, loop_send_done l 1 (- EPIPE));;
  c ← slot_of 1;
  bad (negb (bool_decide (cn_staged c = [])) || negb (cn_closing c));;
  on_leader (on_slot 1 (λ c, c <| cn_closing := false |> <| cn_staged := txt "doomed" |>));;
  on_leader (λ l, loop_send_done l 1 0);;
  c ← slot_of 1;
  bad (negb (bool_decide (cn_staged c = [])) || negb (cn_closing c));;
  on_leader (on_slot 1 (λ c, c <| cn_in_use := false |> <| cn_staged := [] |> <| cn_closing := false |>)).

(** Turn the loop until the condition holds, at most [times] times. *)
Fixpoint tick_until (times : nat) (n : node) (stop_at : loop_t → bool) : C () :=
  match times with
  | O => mret ()
  | S times =>
      tick n;;
      l ← get (node_of n);
      if stop_at l then mret () else tick_until times n stop_at
  end.

(** A replica whose stream fails gives up its slot. *)
Definition send_strand : C () :=
  l ← get e_loop;
  fd ← loop_client_connect (l_port l);
  set (λ v, v <| e_fd := fd |>);;
  bad (fd <? 0);;
  loop_settle Leader;;
  l ← get e_loop;
  bad (negb (ct_accepted (l_counts l) =? 1) || negb (cn_in_use (slot l 0)));;
  on_leader (λ l, on_peer 0 (λ p, p <| pe_live := true |>) (on_slot 0 (λ c, c <| cn_replica := 0 |>
    <| cn_send_cap := STAGED_CAP |> <| cn_staged := txt "doomed" |>) l));;
  c ← slot_of 0;
  sys (os_shutdown (cn_fd c) SHUT_RDWR);;
  sys (os_close fd);;
  set (λ v, v <| e_fd := -1 |>);;
  on_leader (λ l, loop_send_done l 0 (- ECONNRESET));;
  tick_until 32 Leader (λ l, negb (cn_in_use (slot l 0)));;
  l ← get e_loop;
  bad (cn_in_use (slot l 0) || pe_live (peer l 0)).

(** The slot can be taken again. *)
Definition send_again : C () :=
  l ← get e_loop;
  fd2 ← loop_client_connect (l_port l);
  set (λ v, v <| e_fd2 := fd2 |>);;
  bad (fd2 <? 0);;
  loop_settle Leader;;
  ok ← loop_send_frame fd2 MSG_OP_REPL_START 0 0 1 [];
  bad (negb ok);;
  l ← get e_loop;
  (if pe_live (peer l 0) then mret () else tick_until 32 Leader (λ l, pe_live (peer l 0)));;
  l ← get e_loop;
  bad (negb (pe_live (peer l 0))).

Definition send_cleanup (dir : list byte) : C () :=
  close_client;; close_client2;; stop_loop Leader;; close_wal Leader;; destroy dir.

Definition selfcheck_send_failure : C () :=
  dir ← make_dir 11;
  '(w, _, t) ← open_sessions dir 65536 8192;
  '(r, l) ← sys (loop_init w t 0x7F000001 0);
  if negb (result_ok r) then sys (wal_close w);; destroy dir;; mret () else
  with_loop l;;
  orelse (send_results;; send_strand;; send_again) (send_cleanup dir);;
  send_cleanup dir.

End send_failure.

(** ** Two nodes

    The loop of the leader and that of its replica, in one process.  There
    they share the static receive buffers, one for each slot; here each has
    its own, which is the same as long as a step leaves no part of a frame
    behind in a slot both use. *)

Section nodes.
Context {K : Type} `{Sys K, !CheckSys K, !Setting}.
#[local] Abbreviation C := (C (K := K)).

(** Turn both loops [times] times. *)
Fixpoint repl_settle (times : nat) (a b : node) : C () :=
  match times with
  | O => mret ()
  | S times => tick a;; tick b;; repl_settle times a b
  end.

(** Turn both loops until the condition holds, [times] times at most. *)
Fixpoint repl_wait (times : nat) (a b : node) (holds : env → bool) : C bool :=
  match times with
  | O => mret false
  | S times =>
      done ← get holds;
      if (done : bool) then mret true else tick a;; tick b;; repl_wait times a b holds
  end.

Definition repl_wait_attached (a b : node) (want : bool) : C bool :=
  repl_wait 2000 a b (λ v, Bool.eqb (pe_live (peer (node_of a v) 0)) want).

Definition repl_wait_caught_up : C bool :=
  repl_wait 2000 Leader Follower (λ v,
    wal_durable_seq (l_wal (e_follower v)) =? wal_durable_seq (l_wal (e_loop v))).

(** A wait that has to end well. *)
Definition must (m : C bool) : C () := ok ← m; bad (negb ok).

Definition leader_text : list byte := txt "127.0.0.1:1".

(** The replica starts to look for the leader. *)
Definition follow : C () :=
  l ← get e_loop;
  f ← get e_follower;
  '(r, f) ← sys (loop_set_leader f (bswap16 (u16 (l_port l)), bswap32 0x7F000001) leader_text);
  set (set_node Follower f);;
  bad (negb (result_ok r)).

(** A log of [dir] and what [apply] makes of its records. *)
Definition open_node {A} (apply : A → wal_rec_t → A) (a0 : A) (dir : list byte) (cap scratch_len : Z)
    : C (wal_t * wal_open_t * A) :=
  x ← sys (wal_open apply rounds wal_blank dir cap (zeros scratch_len) a0);
  '(r, w, info, a) ← need x;
  bad (negb (result_ok r));;
  mret (w, info, a).

(** Both directories, logs and loops; nothing where the leader's loop cannot
    start, which fails no check. *)
Definition two_nodes {A} (apply : A → wal_rec_t → A) (a0 : A) (table : A → session_table_t)
    (ltag ftag cap : Z) : C (option (list byte * list byte)) :=
  ldir ← sys (seg_tmp_path ltag);
  fdir ← sys (seg_tmp_path ftag);
  r ← sys (os_mkdir ldir MODE_0700);
  bad (negb (result_ok r));;
  r ← sys (os_mkdir fdir MODE_0700);
  bad (negb (result_ok r));;
  let out_dirs := destroy ldir;; destroy fdir in
  '(lw, _, lt) ← orelse (open_node apply a0 ldir cap 8192) out_dirs;
  '(fw, _, ft) ← orelse (open_node apply a0 fdir cap 8192) out_dirs;
  let out_wal := sys (wal_close lw);; sys (wal_close fw);; out_dirs in
  '(r, l) ← sys (loop_init lw (table lt) 0x7F000001 0);
  if negb (result_ok r) then out_wal;; mret None else
  '(r, f) ← sys (loop_init fw (table ft) 0x7F000001 0);
  orelse (bad (negb (result_ok r))) (sys (loop_shutdown l);; out_wal);;
  with_loop l;;
  set (set_node Follower f);;
  mret (Some (ldir, fdir)).

(** The exit the steps under the two loops share. *)
Definition nodes_end (follower_up : bool) (ldir fdir : list byte) : C () :=
  close_client;;
  close_client2;;
  (if follower_up then stop_loop Follower else mret ());;
  stop_loop Leader;;
  close_wal Leader;;
  close_wal Follower;;
  destroy ldir;;
  destroy fdir.

End nodes.

(** ** Replication *)

Section replication.
Context {K : Type} `{Sys K, !CheckSys K, !Setting}.
#[local] Abbreviation C := (C (K := K)).

Definition repl_write (fd client_seq flags : Z) : C () :=
  ok ← loop_send_frame fd MSG_OP_WRITE flags 7 client_seq (txt "record");
  bad (negb ok).

(** A frame has to be there. *)
Definition answered (fd : Z) : C (msg_header_t * Z * list byte) :=
  f ← loop_read_frame fd 512;
  need f.

Definition REPLICATED : Z := Z.lor DURABLE MSG_FLAG_REPLICATED.

(** A replicated write is answered once the replica has it. *)
Definition repl_quorum : C () :=
  follow;;
  must (repl_wait_attached Leader Follower true);;
  l ← get e_loop;
  fd ← loop_client_connect (l_port l);
  set (λ v, v <| e_fd := fd |>);;
  bad (fd <? 0);;
  x ← loop_hello Leader fd 0;
  need x;;
  repl_write fd 1 REPLICATED;;
  must repl_wait_caught_up;;
  repl_settle 8 Leader Follower;;
  '(h, _, _) ← answered fd;
  bad (negb (h_op h =? MSG_OP_ACK) || negb (has_flag (h_flags h) MSG_FLAG_REPLICATED));;
  bad (has_flag (h_flags h) MSG_FLAG_DEGRADED).

(** A write to the replica is refused with the leader's address. *)
Definition repl_refusal : C () :=
  f ← get e_follower;
  ffd ← loop_client_connect (l_port f);
  set (λ v, v <| e_fd2 := ffd |>);;
  bad (ffd <? 0);;
  x ← loop_hello Follower ffd 0;
  need x;;
  repl_write ffd 1 DURABLE;;
  repl_settle 16 Leader Follower;;
  '(h, plen, frame) ← answered ffd;
  let payload := frame_payload frame in
  bad (negb (h_op h =? MSG_OP_ERR));;
  ep ← need (msg_decode_err (Some payload) plen);
  bad (negb (ep_code ep =? MSG_ERR_NOT_LEADER));;
  text ← need (msg_err_text (Some payload) plen);
  bad (negb (ep_text_len ep =? zlen leader_text) ||
       negb (mem_cmp payload text leader_text 0 (ep_text_len ep) =? 0));;
  close_client2.

(** With the replica gone the write is refused, or marked as degraded. *)
Definition repl_alone : C () :=
  fd ← get e_fd;
  must (repl_wait_attached Leader Leader false);;
  repl_write fd 2 REPLICATED;;
  repl_settle 16 Leader Leader;;
  x ← answered fd;
  bad (negb (is_error x MSG_ERR_NO_REPLICAS));;
  repl_write fd 3 (Z.lor REPLICATED MSG_FLAG_ALLOW_DEGRADED);;
  repl_settle 16 Leader Leader;;
  '(h, _, _) ← answered fd;
  bad (negb (h_op h =? MSG_OP_ACK) || negb (has_flag (h_flags h) MSG_FLAG_DEGRADED)).

(** The replica's loop starts again on the log it had. *)
Definition repl_restart : C () :=
  f ← get e_follower;
  '(r, f) ← sys (loop_init (l_wal f) (l_sessions f) 0x7F000001 0);
  set (set_node Follower f);;
  bad (negb (result_ok r)).

(** It is sent what it missed. *)
Definition repl_catch_up : C () :=
  follow;;
  must (repl_wait_attached Leader Follower true);;
  must repl_wait_caught_up.

Definition selfcheck_replication : C () :=
  n ← two_nodes session_from_record session_table_init id 9 10 65536;
  match n with
  | None => mret ()
  | Some (ldir, fdir) =>
      orelse (repl_quorum;; repl_refusal) (nodes_end true ldir fdir);;
      stop_loop Follower;;
      orelse (repl_alone;; repl_restart) (nodes_end false ldir fdir);;
      orelse repl_catch_up (nodes_end true ldir fdir);;
      nodes_end true ldir fdir
  end.

End replication.
