(* ===== verification/SelfcheckRetain.v ===== *)
(** * The program's own checks of retention (src/server/selfcheck.c)

    Retention on one node with a reader and a subscriber it leaves behind, the
    ids of the sessions it forgets, and the mark a leader keeps for its
    replicas. *)

From Stdlib Require Import String.
From S2P Require Import Prelude Core Crc32c Fmt Msg Conn Record Index Os Session Segment Wal Cursor.
From S2P Require Import LoopState LoopFrames LoopServe Metrics LoopTick Main Selfcheck Loopback SelfcheckLog SelfcheckLoop SelfcheckNodes.
Import Core.Mem.

Open Scope Z_scope.
Open Scope stdpp_scope.

(** ** Retention on one node *)

Section retention.
Context {K : Type} `{Sys K, !CheckSys K, !Setting}.
#[local] Abbreviation C := (C (K := K)).

Definition retain_settle (n : node) : C () := ticks 8 n.

Definition wal_on (n : node) (v : env) : wal_t := l_wal (node_of n v).
Definition retain_removed (v : env) : Z := ct_retain_removed (counts v).

(** Append [count] records to a node's log and flush it. *)
Definition put_on (n : node) (count scratch_len : Z) : C () :=
  l ← get (node_of n);
  '(r, w, _) ← sys (wal_put (l_wal l) (zeros scratch_len) count);
  set (set_node n (l <| l_wal := w |>));;
  bad (negb (result_ok r)).

(** The names of one listing that do not start with a dot. *)
Fixpoint count_names (fuel : nat) (dbuf : list byte) (got at_ n : Z) : Z :=
  match fuel with
  | O => n
  | S fuel =>
      if got <=? at_ then n else
      let reclen := Prelude.get (at_ + DIRENT64_RECLEN_OFF) 2 dbuf in
      if reclen =? 0 then n else
      let n := if bool_decide (zget dbuf (at_ + DIRENT64_NAME_OFF) = Some Byte.x2e) then n else n + 1 in
      count_names fuel dbuf got (at_ + reclen) n
  end.

Fixpoint count_listings (times : nat) (fd n : Z) (dbuf : list byte) : M K Z :=
  match times with
  | O => mret n
  | S times =>
      '(r, got, bs) ← os_getdents64 fd 4096 0;
      if negb (result_ok r) || (got <=? 0) then mret n else
      let dbuf := blit dbuf 0 bs in
      count_listings times fd (count_names (Z.to_nat got) dbuf got 0 n) dbuf
  end.

(** The files of a directory, -1 where it cannot be opened. *)
Definition retain_files (path : list byte) : M K Z :=
  '(r, fd) ← os_open path O_DIR 0 (-1);
  if negb (result_ok r) then mret (-1) else
  n ← count_listings rounds fd 0 (zeros 4096);
  _ ← os_close fd;
  mret n.

(** Open with no callback. *)
Definition open_plain (dir : list byte) (cap scratch_len : Z) : C (wal_t * wal_open_t) :=
  '(w, info, _) ← open_node (λ (c : ()) _, c) () dir cap scratch_len;
  mret (w, info).

(** Five segments, none of which goes while retention is off. *)
Definition retain_off : C () :=
  put_on Leader 15 4096;;
  w ← get log;
  bad (negb (wal_segments w =? 5));;
  retain_settle Leader;;
  w ← get log;
  removed ← get retain_removed;
  bad (negb (wal_segments w =? 5) || negb (removed =? 0)).

(** A reader at the end of the second segment. *)
Definition retain_reader : C wal_cursor_t :=
  w ← get log;
  '(r, cur) ← sys (wal_cursor_seek w wal_cursor_init 4 4096);
  bad (negb (result_ok r));;
  '(r, cur, bytes) ← sys (wal_cursor_read w cur 6 4096);
  bad (negb (result_ok r) || (zlen bytes =? 0) || negb (cu_next_seq cur =? 7));;
  mret cur.

(** Two segments are kept, in the table and in the directory. *)
Definition retain_on (dir : list byte) : C () :=
  on_leader (λ l, loop_set_retention l 2 0);;
  retain_settle Leader;;
  w ← get log;
  bad (negb (wal_segments w =? 2));;
  k ← get counts;
  bad (negb (ct_retain_removed k =? 3) || negb (ct_retain_errors k =? 0));;
  bad (negb (wal_first_seq w =? 10));;
  files ← sys (retain_files dir);
  bad (negb (files =? 2));;
  retain_settle Leader;;
  removed ← get retain_removed;
  bad (negb (removed =? 3)).

(** The reader is below the log now, and seeking there is refused. *)
Definition retain_below (cur : wal_cursor_t) : C () :=
  w ← get log;
  '(r, cur, _) ← sys (wal_cursor_read w cur 15 4096);
  sys (wal_cursor_close cur);;
  bad (result_ok r);;
  '(r, cur) ← sys (wal_cursor_seek w wal_cursor_init 1 4096);
  if result_ok r then sys (wal_cursor_close cur);; stop () else mret ().

(** The last slot with a subscription. *)
Definition subscribed_slot (l : loop_t) : option nat :=
  foldl (λ found i, if cn_in_use (slot l i) && su_active (cn_sub (slot l i)) then Some i else found)
    None (seq 0 LOOP_MAX_CONNS).

(** The frames a client has until an error, which has to say that the history
    is gone; [fuel] is above the frames a check can have waiting. *)
Fixpoint told_no_history (fuel : nat) (fd : Z) : C bool :=
  match fuel with
  | O => mret false
  | S fuel =>
      f ← loop_read_frame fd 256;
      match f with
      | None => mret false
      | Some (h, plen, frame) =>
          if negb (h_op h =? MSG_OP_ERR) then told_no_history fuel fd else
          mret (is_error (h, plen, frame) MSG_ERR_NO_HISTORY)
      end
  end.

(** A subscriber left behind is told why. *)
Definition retain_subscriber : C () :=
  l ← get e_loop;
  fd ← loop_client_connect (l_port l);
  bad (fd <? 0);;
  x ← loop_hello Leader fd 0;
  need x;;
  ok ← loop_send_frame fd MSG_OP_SUBSCRIBE MSG_FLAG_ALL_KEYS 0 1 (subscribe_bytes (SubReq 10 0));
  bad (negb ok);;
  loop_settle Leader;;
  l ← get e_loop;
  i ← need (subscribed_slot l);
  on_leader (on_slot i (λ c, c <| cn_sub ::= λ s, s <| su_cursor ::= λ cu, cu <| cu_next_seq := 4 |> |> |>));;
  loop_settle Leader;;
  told ← told_no_history 4096 fd;
  loop_read_forget fd;;
  sys (os_close fd);;
  bad (negb told).

(** The log that is left opens again. *)
Definition retain_reopen (dir : list byte) : C () :=
  '(w, info) ← open_plain dir log_cap 4096;
  sys (wal_close w);;
  bad (negb (op_first_seq info =? 10) || negb (op_last_seq info =? 15) || op_torn info ||
       negb (op_segments info =? 2)).

Definition selfcheck_retention : C () :=
  dir ← make_dir 11;
  '(w, _) ← orelse (open_plain dir log_cap 4096) (destroy dir);
  '(r, l) ← sys (loop_init w session_table_init 0x7F000001 0);
  if negb (result_ok r) then sys (wal_close w);; destroy dir;; mret () else
  with_loop l;;
  orelse
    (retain_off;;
     cur ← retain_reader;
     retain_on dir;;
     retain_below cur;;
     retain_subscriber)
    (stop_loop Leader;; close_wal Leader;; destroy dir);;
  stop_loop Leader;;
  l ← get e_loop;
  '(r, w) ← sys (wal_close (l_wal l));
  orelse (bad (negb (result_ok r));; retain_reopen dir) (destroy dir);;
  destroy dir.

End retention.

(** ** The sessions retention forgets *)

Section forgotten.
Context {K : Type} `{Sys K, !CheckSys K, !Setting}.
#[local] Abbreviation C := (C (K := K)).

(** Records only in what is deleted, and in what survives. *)
Definition gone : Z := 101.
Definition kept : Z := 100.

Fixpoint forgotten_appends (times : nat) (w : wal_t) (i : Z) (scratch : list byte) : T K wal_t wal_t :=
  match times with
  | O => mret w
  | S times =>
      '(r, w, _, scratch) ← run (wal_append w (seg_fill_rec 24 (if i <=? 9 then gone else kept) i 1)
                                   (Some payload) scratch);
      stop_if w (negb (result_ok r));;
      forgotten_appends times w (i + 1) scratch
  end.

(** Nine records of one session and six of another; two segments are kept. *)
Definition forgotten_log (w : wal_t) : T K wal_t wal_t :=
  w ← forgotten_appends 15 w 1 (zeros 4096);
  '(r, w) ← run (wal_sync w);
  stop_if w (negb (result_ok r));;
  '(r, w, removed) ← run (wal_retain w (wal_retain_mark w 2));
  stop_if w (negb (result_ok r) || negb (removed =? 3) || negb (wal_first_seq w =? 10));;
  mret w.

(** New ids, none of them one of the two. *)
Fixpoint forgotten_draws (times : nat) (w : wal_t) (t : session_table_t) : T K wal_t () :=
  match times with
  | O => mret ()
  | S times =>
      '(fresh, t) ← run (session_create t);
      fresh ← want w fresh;
      stop_if w (id_at t fresh =? gone);;
      stop_if w (id_at t fresh =? kept);;
      forgotten_draws times w t
  end.

(** What recovery finds, and what is drawn from there. *)
Definition forgotten_ids (w : wal_t) (t : session_table_t) : T K wal_t wal_t :=
  stop_if w (is_none (session_lookup t kept));;
  stop_if w (negb (is_none (session_lookup t gone)));;
  forgotten_draws 256 w t;;
  mret w.

(** Steps on a log, which is closed after them, and on an error the directory
    removed. *)
Definition closing (dir : list byte) (steps : T K wal_t wal_t) : C () :=
  x ← sys (steps : M K (wal_t + wal_t));
  match x with
  | inl w => sys (wal_close w);; destroy dir;; stop ()
  | inr w => sys (wal_close w);; mret ()
  end.

Definition selfcheck_session_retention : C () :=
  dir ← make_dir 15;
  '(w, _) ← orelse (open_plain dir log_cap 4096) (destroy dir);
  closing dir (forgotten_log w);;
  '(w, _, t) ← open_sessions dir log_cap 4096;
  closing dir (forgotten_ids w t);;
  destroy dir.

End forgotten.

(** ** The mark a leader keeps for its replicas *)

Section replica.
Context {K : Type} `{Sys K, !CheckSys K, !Setting}.
#[local] Abbreviation C := (C (K := K)).

Definition retain_floor (v : env) : Z := rt_floor (l_retain (e_loop v)).

(** With two replicas expected and none there, nothing goes; nor with one. *)
Definition replica_short : C () :=
  on_leader (λ l, loop_set_retention l 2 2);;
  set (λ v, v <| e_follower ::= λ l, loop_set_retention l 2 0 |>);;
  put_on Leader 15 8192;;
  retain_settle Leader;;
  w ← get log;
  removed ← get retain_removed;
  bad (negb (wal_first_seq w =? 1) || negb (removed =? 0));;
  follow;;
  must (repl_wait_attached Leader Follower true);;
  must repl_wait_caught_up;;
  repl_settle 16 Leader Follower;;
  floor ← get retain_floor;
  removed ← get retain_removed;
  bad (negb (floor =? 0) || negb (removed =? 0)).

(** With the one that is there expected, the mark follows it. *)
Definition replica_mark : C () :=
  on_leader (λ l, loop_set_retention l 2 1);;
  put_on Leader 3 8192;;
  must repl_wait_caught_up;;
  repl_settle 16 Leader Follower;;
  floor ← get retain_floor;
  bad (negb (floor =? 18));;
  w ← get log;
  removed ← get retain_removed;
  bad (negb (wal_first_seq w =? 13) || negb (removed =? 4));;
  fw ← get (wal_on Follower);
  bad (negb (wal_first_seq fw =? 13)).

(** With the replica away the mark stays, and what it has not got is kept,
    where the count alone would have deleted it. *)
Definition replica_away : C () :=
  must (repl_wait_attached Leader Leader false);;
  frozen_at ← get retain_floor;
  put_on Leader 12 8192;;
  retain_settle Leader;;
  floor ← get retain_floor;
  bad (negb (floor =? frozen_at));;
  w ← get log;
  bad (u64 (frozen_at + 1) <? wal_first_seq w);;
  bad (wal_retain_mark w 2 <=? wal_first_seq w);;
  bad (wal_segments w <=? 2).

Definition selfcheck_retention_replica : C () :=
  n ← two_nodes (λ (c : ()) _, c) () (λ _, session_table_init) 12 13 log_cap;
  match n with
  | None => mret ()
  | Some (ldir, fdir) =>
      orelse (replica_short;; replica_mark) (nodes_end true ldir fdir);;
      stop_loop Follower;;
      orelse replica_away (nodes_end false ldir fdir);;
      nodes_end false ldir fdir
  end.

End replica.
