(* ===== verification/SelfcheckRun.v ===== *)
(** * The program's own checks of metrics, and all of them run
    (src/server/selfcheck.c)

    The metrics endpoint asked and read back, the checks in the order
    [selfcheck_run] has them, and a run of the whole program with
    [--selfcheck]. *)

From Stdlib Require Import String.
From S2P Require Import Prelude Core Crc32c Fmt Msg Conn Record Index Os Session Segment Wal Cursor.
From S2P Require Import LoopState LoopFrames LoopServe Metrics LoopTick Main Selfcheck Loopback SelfcheckLog SelfcheckLoop.
From S2P Require Import SelfcheckNodes SelfcheckRetain.
Import Core.Mem.

Open Scope Z_scope.
Open Scope stdpp_scope.

(** ** Reading a document *)

(** [hay] is what is left from offset [i] on. *)
Fixpoint find_from (hay needle : list byte) (i left : Z) : Z :=
  let n := zlen needle in
  if left <? n then -1 else
  if mem_cmp hay 0 needle 0 n =? 0 then i else
  match hay with
  | [] => -1
  | _ :: hay => find_from hay needle (i + 1) (left - 1)
  end.

Definition sc_find (hay needle : list byte) : Z :=
  let n := zlen needle in
  if (n =? 0) || (zlen hay <? n) then -1 else find_from hay needle 0 (zlen hay).

(** What stands for a number that is not there. *)
Definition SENTINEL : Z := 0xFFFFFFFFFFFFFFFF.

Fixpoint number_from (s : list byte) (v : Z) (any : bool) : Z :=
  match s with
  | c :: s =>
      let d := byte.unsigned c in
      if (48 <=? d) && (d <=? 57) then number_from s (u64 (v * 10 + (d - 48))) true
      else if any then v else SENTINEL
  | [] => if any then v else SENTINEL
  end.

Definition sc_number_at (s : list byte) (off : Z) : Z := number_from (drop (Z.to_nat off) s) 0 false.

Definition sc_metric (body name : list byte) : Z :=
  let at_ := sc_find body name in
  if at_ <? 0 then SENTINEL else sc_number_at body (at_ + zlen name).

(** ** Metrics *)

Section metrics.
Context {K : Type} `{Sys K, !CheckSys K, !Setting}.
#[local] Abbreviation C := (C (K := K)).

Definition BODY_CAP : Z := LOOP_METRICS_CAP * 2.

(** What is received in a number of rounds, [body] being what has come. *)
Fixpoint scrape_rounds (times : nat) (fd : Z) (body : list byte) : C (list byte) :=
  match times with
  | O => mret body
  | S times =>
      if BODY_CAP <=? zlen body then mret body else
      loop_settle Leader;;
      '(res, bs) ← sys (os_recv fd (BODY_CAP - zlen body) MSG_DONTWAIT);
      if res =? - EAGAIN then scrape_rounds times fd body else
      if res <=? 0 then mret body else
      scrape_rounds times fd (body ++ sub 0 res bs)
  end.

(** What the endpoint answers; nothing where it could not be asked. *)
Definition sc_scrape (req : list byte) : C (option (list byte)) :=
  l ← get e_loop;
  fd ← loop_client_connect (l_metrics_port l);
  if fd <? 0 then mret None else
  loop_read_forget fd;;
  n ← sys (os_write_raw fd req);
  if negb (n =? zlen req) then sys (os_close fd);; mret None else
  body ← scrape_rounds 64 fd [];
  sys (os_close fd);;
  mret (Some body).

Definition row (s : string) : list byte := Byte.x0a :: txt s.
Definition status_ok : list byte := txt "HTTP/1.0 200 OK" ++ crlf.
Definition get_request (path : string) (eol : list byte) : list byte :=
  txt "GET " ++ txt path ++ txt " HTTP/1.0" ++ eol ++ eol.

(** A document has to come. *)
Definition scraped (req : list byte) : C (list byte) :=
  x ← sc_scrape req;
  body ← need x;
  bad (zlen body <=? 0);;
  mret body.

(** A metric of the document. *)
Definition shows (body name : list byte) (v : Z) : bool := sc_metric body name =? v.

(** The first document against the state it comes from. *)
Definition metrics_first : C () :=
  body ← scraped (get_request "/metrics" crlf);
  bad (negb (sc_find body status_ok =? 0));;
  bad (sc_find body (txt "Content-Type: text/plain; version=0.0.4") <? 0);;
  w ← get log;
  bad (negb (shows body (row "msgsrvd_durable_seq ") (wal_durable_seq w)));;
  bad (negb (shows body (row "msgsrvd_first_seq ") (wal_first_seq w)) ||
       negb (shows body (row "msgsrvd_next_seq ") (wal_next_seq w)) ||
       negb (shows body (row "msgsrvd_segments ") (u64 (wal_segments w))));;
  let role who := row "msgsrvd_role{role=" ++ [Byte.x22] ++ txt who ++ [Byte.x22] ++ txt "} " in
  bad (negb (shows body (role "leader"%string) 1) || negb (shows body (role "follower"%string) 0));;
  bad (negb (shows body (row "msgsrvd_scrapes_total ") 0)).

(** Bare newlines, and the scrape before counted. *)
Definition metrics_second : C () :=
  body ← scraped (get_request "/" [Byte.x0a]);
  bad (negb (sc_find body status_ok =? 0));;
  bad (negb (shows body (row "msgsrvd_scrapes_total ") 1)).

(** A head too long gets no answer. *)
Definition metrics_oversized : C () :=
  x ← sc_scrape (replicate 5000 Byte.x41);
  body ← need x;
  bad (negb (zlen body =? 0));;
  k ← get counts;
  bad (ct_scrapes_refused k =? 0).

(** Two writes and a refusal. *)
Definition metrics_traffic : C () :=
  l ← get e_loop;
  fd ← loop_client_connect (l_port l);
  bad (fd <? 0);;
  x ← loop_hello Leader fd 0;
  need x;;
  ok ← loop_send_frame fd MSG_OP_WRITE DURABLE 3 1 (txt "x");
  bad (negb ok);;
  ok ← loop_send_frame fd MSG_OP_WRITE MSG_FLAG_ACK_REQ 3 2 (txt "y");
  bad (negb ok);;
  ok ← loop_send_frame fd MSG_OP_DELETE 0 3 3 [];
  bad (negb ok);;
  loop_settle Leader;;
  loop_read_forget fd;;
  sys (os_close fd);;
  mret ().

(** What they do to the counters. *)
Definition metrics_counters : C () :=
  metrics_traffic;;
  body ← scraped (get_request "/" crlf);
  bad (negb (shows body (row "msgsrvd_writes_total ") 2));;
  let labelled label v := txt label ++ [Byte.x22] ++ txt v ++ [Byte.x22] ++ txt "} " in
  let durability := labelled "durability="%string in
  let reason := labelled "reason="%string in
  bad (negb (shows body (durability "sync"%string) 1) || negb (shows body (durability "append"%string) 1) ||
       negb (shows body (durability "replicated"%string) 0));;
  bad (negb (shows body (reason "other"%string) 1) || negb (shows body (reason "storage"%string) 0));;
  k ← get counts;
  bad (negb (shows body (row "msgsrvd_fsync_seconds_count ") (ct_flushes k)) || (ct_flushes k =? 0)).

(** Connections to the endpoint that say nothing. *)
Fixpoint idle_connections (times : nat) : C (list Z) :=
  match times with
  | O => mret []
  | S times =>
      l ← get e_loop;
      fd ← loop_client_connect (l_metrics_port l);
      bad (fd <? 0);;
      loop_settle Leader;;
      fds ← idle_connections times;
      mret (fd :: fds)
  end.

Fixpoint close_idle (fds : list Z) : C () :=
  match fds with
  | [] => mret ()
  | fd :: fds => loop_read_forget fd;; sys (os_close fd);; close_idle fds
  end.

(** They do not shut the endpoint out. *)
Definition metrics_idle : C () :=
  fds ← idle_connections (S LOOP_MAX_SCRAPES);
  x ← sc_scrape (get_request "/" crlf);
  close_idle fds;;
  body ← need x;
  bad ((zlen body <=? 0) || negb (sc_find body status_ok =? 0)).

(** A document that does not fit is no document. *)
Definition metrics_cut (cap : Z) : C () :=
  l ← get e_loop;
  '(_, n) ← sys (loop_metrics l (zeros BODY_CAP) cap);
  bad (negb (n =? 0)).

Definition metrics_cases : C () :=
  l ← get e_loop;
  '(r, l) ← sys (loop_set_metrics_port l 0x7F000001 0);
  set (set_node Leader l);;
  bad (negb (result_ok r));;
  bad (l_metrics_port l <=? 0);;
  put_on Leader 4 4096;;
  metrics_first;;
  metrics_second;;
  metrics_oversized;;
  metrics_counters;;
  metrics_idle;;
  metrics_cut 64;;
  metrics_cut 56.

Definition selfcheck_metrics : C () :=
  dir ← make_dir 14;
  '(w, _) ← orelse (open_plain dir 65536 4096) (destroy dir);
  '(r, l) ← sys (loop_init w session_table_init 0x7F000001 0);
  if negb (result_ok r) then sys (wal_close w);; destroy dir;; mret () else
  with_loop l;;
  let out := stop_loop Leader;; close_wal Leader;; destroy dir in
  orelse metrics_cases out;;
  out.

End metrics.

(** ** All of them *)

Section all.
Context {K : Type} `{Sys K, !CheckSys K, !Setting}.
#[local] Abbreviation C := (C (K := K)).

(** A check that keeps no variables of its own. *)
Definition plain {A} (m : T K () A) : C A := λ '(k, v), let '(x, k) := m k in (x, (k, v)).
Definition passed (m : M K (option ())) : C () := x ← sys m; need x.
Definition returned (m : M K Z) : C () := rc ← sys m; bad (negb (rc =? 0)).

(** The run ends at the first check that fails.  [junk] is what a record's
    unset fields hold; [file], [func] and [line] are where [selfcheck_err]
    pushes. *)
Definition selfcheck_run (junk : wal_rec_t) (file func : option string) (line : Z)
    (a : Arena.arena_t) (e : Err.err_t) : C () :=
  need (selfcheck_arena a);;
  passed selfcheck_crc32c;;
  need selfcheck_header;;
  need selfcheck_payloads;;
  need (selfcheck_wal_record junk);;
  returned (selfcheck_wal_segment rounds);;
  plain (selfcheck_wal rounds);;
  need selfcheck_wal_index;;
  s ← need (selfcheck_conn_framing (zeros big_cap) (Statics (zeros 4096) (zeros 4096)));
  need (selfcheck_conn_session s);;
  returned selfcheck_epoll;;
  plain selfcheck_sessions;;
  selfcheck_loop;;
  selfcheck_session_recovery;;
  selfcheck_send_failure;;
  selfcheck_replication;;
  selfcheck_retention;;
  selfcheck_session_retention;;
  selfcheck_retention_replica;;
  selfcheck_metrics;;
  need (selfcheck_err file func line e);;
  mret ().

(** The checks' variables before they are used. *)
Definition env_start : env :=
  let l := loop_zero wal_blank session_table_init in Env rd_start l l (-1) (-1).

(** As [main] asks: whether one failed. *)
Definition checks_failed (junk : wal_rec_t) (file func : option string) (line : Z) : M K bool := λ k,
  match selfcheck_run junk file func line (Arena.arena_init (4 * 1024 * 1024)) Err.err_init (k, env_start) with
  | (inr _, (k, _)) => (false, k)
  | (inl _, (k, _)) => (true, k)
  end.

End all.

(** ** A run *)

Module SelfcheckProps.
Import Loopback.Loopback.

(** The loop's static buffer, and more listings than a directory of these
    checks takes. *)
#[export] Instance run_setting : Setting := {| ls_scratch := zeros 16384; rounds := 40 |}.

(** Enough random numbers for the session ids, no two next to each other. *)
Definition drawn : list Z := (λ i, 2000 + 2 * i) <$> seqZ 0 2400.

(** [msgsrvd --selfcheck] on the kernel [k]. *)
Definition selfcheck_main (junk : wal_rec_t) (file func : option string) (line : Z) (prog scratch : list byte)
    (passes : nat) (w0 : wal_t) (k : kern) : option Z * kern :=
  main (checks_failed junk file func line) 0 passes w0 scratch [prog; txt "--selfcheck"] k.

(** The model passes the program's own checks, a test of the model: [msgsrvd --selfcheck] runs
    to status 0 on the kernel of [Loopback], every check of selfcheck.c
    included - those that write logs, damage them and open them again, and
    those in which clients talk to one loop or two over sockets - whatever the
    unset fields and buffers hold, and leaves no directory, no listening port
    and no descriptor but the standard ones. *)
Theorem own_checks_pass (junk : wal_rec_t) (file func : option string) (line : Z) (prog scratch : list byte)
    (passes : nat) (w0 : wal_t) :
  let '(x, k) := selfcheck_main junk file func line prog scratch passes w0 (start true drawn) in
  x = Some 0 ∧ k_dirs k = ∅ ∧ k_ports k = ∅ ∧ k_fds k = {[1 := DOther; 2 := DOther]}.
Proof. vm_compute. repeat split. Qed.

(** The acknowledgements at the levels "sync" and "append" that the traffic of
    the check of metrics leads to. *)
Definition acks_counted (nagle : bool) : () + Z * Z :=
  ((dir ← make_dir 14;
    '(w, _) ← open_plain dir 65536 4096;
    '(_, l) ← sys (loop_init w session_table_init 0x7F000001 0);
    with_loop l;;
    metrics_traffic;;
    k ← get counts;
    mret (ct_acks_sync k, ct_acks_append k)) (start nagle drawn, env_start)).1.

(** That check sends two writes one after the other and wants each counted at
    its own level.  Where both arrive in one pass, as they may when nothing
    holds the second back, they share one acknowledgement, which counts as a
    flush, and the check would report the counters as wrong. *)
Lemma metrics_check_depends_on_delivery :
  acks_counted true = inr (1, 1) ∧ acks_counted false = inr (1, 0).
Proof. vm_compute. split; reflexivity. Qed.

End SelfcheckProps.
